(* ===== verification/_CoqProject ===== *)
-Q . S2P
Prelude.v
Codec.v
Messages.v
Streams.v
Collections.v
Dht.v
ChatSpec.v
Chat.v
Server.v
ChatHandlers.v
Profiles.v
Replication.v
Router.v
Streaming.v
Rpc.v
NodeStaker.v
UserManager.v
Node.v
Safety.v
Membership.v
Galois.v
Matrix.v
Poly.v
Fec.v
Elimination.v
PolyRoots.v
FecDecode.v
FecRepair.v
Lagrange.v
FecRoundtrip.v
Onion.v
Relay.v
Encrypted.v
Paths.v
Handshake.v
KeyShare.v
MerkleTree.v
KyberArith.v
KyberNtt.v
KyberPoly.v
KyberBytes.v
KyberKem.v
KyberCorrect.v
ClientNode.v
ClientBoot.v
ClientVault.v
FalconCodec.v
FalconNtt.v
FalconHash.v
FalconVerify.v
Sign.v
