(* ===== verification/Prelude.v ===== *)
(** * A verification of the Orion network

    Orion is a peer-to-peer chat network: clients reach nodes over onion-routed streams, nodes
    replicate chats and profiles among themselves and find each other through a routing table
    that follows a staking contract. This library models the parts of it that decide something,
    as functions on explicit state, and proves what makes them correct. Where the code has a
    defect, the theorem says what it does.

    ** Files

    Under every entry: the source (paths under src/), and what the file shows.

    - Prelude.v: the state monads [M] and [outcome] ([Panic] is a panic of the source, reverted
      or fatal), machine integers as [Z] with [fits] and [wrap], big-endian numbers, the tactics
      [decided] and friends, lemmas on lists.

    Shared utilities (utils/component-utils, core/chat-spec, core/crypto):
    - Codec.v: codec.rs; [Buffer] and [Codec], every implementation, round trips and prefix laws
      ([CodecOk]).
    - Messages.v: the blocks and mailboxes of chat-spec/src/chat.rs and profile.rs, byte by byte.
    - Streams.v: stream.rs; [PacketReader] and [PacketWriter] with its ring buffer, over streams
      that answer as they like: what is queued arrives, in order and once, except that a packet
      that exactly fills the hole of the ring empties it and one that joins a wrapped queue overtakes
      it ([write_packet_ring_defects]).
    - Collections.v: [LinearMap] (a finite map) and [FindAndRemove].
    - ChatSpec.v: hashes, proofs, profiles, members, requests and their derived codecs.

    The server node (nodes/server):
    - Dht.v: core/dht; the sorted routing table, its searches by ring distance, the filter of
      connections.
    - Chat.v: the replicated block chain of one chat (handlers/chat.rs): its invariant, the
      agreement on a block over a whole vote, the effect of a message.
    - Server.v: what handlers run on (handlers.rs, main.rs): [Cx] is [Context], [HandlerNest] keeps
      waiting requests; replica selection.
    - ChatHandlers.v, Profiles.v: every request handler (handlers/chat.rs, handlers/profile.rs).
    - Replication.v: the adapters [Repl] and [Retry] (replicated.rs, retry.rs).
    - Router.v: the two servers of [compose_handlers!], and that a relation preserved by every
      operation is preserved by every adapter, nest and router.
    - Node.v: main.rs; the node as a state with a step per event, start-up from the contract's list.
    - Safety.v: what holds after any events: profiles genuine, nonces spent for good, who is served.
    - Membership.v: the routing table is the set of stakes, whatever the contract is called with.

    Contracts (contracts):
    - NodeStaker.v: deposits, votes and slashing; the books balance.
    - UserManager.v: names; a name has one owner, and only the owner gives it away.

    Network behaviours (core):
    - Streaming.v: core/streaming, the broker that opens streams to peers.
    - Rpc.v: core/rpc, requests and responses over them; implements the interface [RpcNet].
    - Onion.v: the hybrid encryption of core/crypto (enc.rs, lib.rs) and the layered packet of
      core/onion/src/packet.rs; a path through relays delivers.
    - Relay.v: the channels of core/onion/src/behaviour.rs.
    - Encrypted.v: its encrypted streams; what is written comes out, decrypted, in order.
    - Paths.v: the onion behaviour itself, driven by the events of handler.rs.
    - Handshake.v: handler.rs, the upgrades that open a path, from client to destination and back.
    - KeyShare.v: key_share.rs, how clients learn the keys of nodes.

    The client (nodes/client):
    - ClientNode.v: node.rs, protocol.rs; the event loop of a running client: requests,
      subscriptions, the search for a topic, answers. Every request is answered, still owed an
      answer, or lost with a command for which no replica is known.
    - ClientBoot.v: the end of [Node::new]: which replicas a starting client connects to, and that
      every chat is served by one of the connections.
    - ClientVault.v: the vault, the handler of mail, invitations and messages (node.rs, main.rs,
      chat.rs), the retry of chat actions against the handler of ChatHandlers.v.

    Key encapsulation (utils/kyber), every integer at its width:
    - KyberArith.v: the reductions of mondgomery.rs and barrett.rs, loops over coefficients.
    - KyberNtt.v: ntt.rs; the number-theoretic transform is evaluation at the roots of unity.
    - KyberPoly.v: poly.rs, polyvec.rs, cbd.rs; the product of two polynomials.
    - KyberBytes.v: the serializations and compressions of both, and their errors.
    - KyberKem.v: indcpa.rs, kem.rs, symetric.rs, verify.rs, lib.rs; the ranges of every value.
    - KyberCorrect.v: decapsulation gives the secret back, accepts nothing else, never overflows;
      sampling ends, or does not.

    Signatures (utils/falcon, core/crypto), words of 32 bits that wrap as in the source:
    - FalconCodec.v: codec.rs; keys and signatures as bits. Each decoder accepts one encoding of each value.
    - FalconNtt.v: vrfy.rs, the arithmetic modulo 12289; the transform evaluates at the roots of
      [X^n + 1], its inverse undoes it, products are products in the ring.
    - FalconHash.v: common.rs; the hash that runs in constant time is the hash by rejection sampling,
      and the norm that saturates is the norm.
    - FalconVerify.v: the rest of vrfy.rs, the checking side of pqclean.rs and lib.rs: what a signature
      is, and that exactly the signatures are accepted, as long as their length is true.
    - Sign.v: core/crypto/src/sign.rs; the pair with Ed25519 implements [Signatures].

    The erasure code (utils/berkleamp-welch, core/storage-spec):
    - Galois.v: the generated tables of build.rs and galois.rs; they are a field.
    - Matrix.v, Poly.v: math.rs; inversion of Vandermonde matrices, division of polynomials.
    - Fec.v: fec.rs; building the code, encoding, rebuilding.
    - Elimination.v, PolyRoots.v: what the elimination of math.rs does to a system of equations, and
      the polynomials that vanish at given points; no code of their own.
    - FecDecode.v: the correction of damaged shares in fec.rs; the system of a column is solved by the
      locator of its errors. FecRepair.v: the parity check, and the loops of [correct]. Lagrange.v:
      the matrix of [create_inverted_vdm] interpolates. FecRoundtrip.v: [decode] undoes the damage of
      one column, and of no more. The debug assertions of [invert_matrix_with] are an argument: a
      build that checks them panics when fewer shares are wrong than could be repaired.

    Merkle trees (utils/merkle-tree):
    - MerkleTree.v: lib.rs; the flat tree equals the recursive one, and its proofs fold to the root.

    ** How the parts meet

    A client opens a path (Onion.v, Handshake.v) through relays (Paths.v, Relay.v) and is left with an
    encrypted stream (Encrypted.v, the [ClientStream] of Server.v) to a node. Its bytes are what Node.v decodes with ChatSpec.v and hands to the external
    router; Router.v wraps the handlers of ChatHandlers.v and Profiles.v in [Retry] and [Repl],
    which ask other nodes through [RpcNet] and wait in a nest of Server.v. Requests of other nodes
    come as events of Rpc.v and go to the internal router. Rpc.v works on Streaming.v, and both
    on the packets of Streams.v. Replicas are the neighbours of a topic in the table of Dht.v.
    On the other side ClientVault.v makes the requests and reads the answers and the mail, and
    ClientNode.v writes them to the connections that ClientBoot.v opened; [chat_action_resyncs] runs
    a client's action against the server's handler.

    ** Conventions

    Integers are [Z] with their wrapping, saturating or checked operation written out; bytes are
    integers from 0 to 255 and keys, hashes and addresses are lists of them. A [&mut] argument is
    passed and returned. [outcome] is used where the source can panic. Operations that wait are
    split where they wait: [Handler] has a value for what is kept. Wakers, logging and time stamps
    that decide nothing are left out; time and random draws that decide something are arguments.

    Recursion without a structural argument has fuel: the packet loops take the bytes that are left
    ([forward_from_total], [packet_reader_complete]), [poly_div] the length of the dividend,
    the vote and broker loops the length of what they drain, [ClientNode.handle_command] two levels
    ([command_spec]); that the fuel is enough is proved in each case, so no theorem rests on a
    function that stops early. The sampling of Kyber's matrix takes its fuel as an argument, since
    the code itself need not stop, and without enough of it gives [None], which is neither a result
    nor [Panic]: [kyber_never_overflows] holds with any fuel, and [sampling_terminates] says when
    there is a fuel that is enough. The rejection sampling of Falcon takes its fuel in the same way, and
    [hash_to_point_ct_vartime] says how much is enough; the turns of its decoders are bounded by the
    code ([unary_fuel]).

    ** Parameters and their laws

    Foreign code is an interface: BLAKE3 ([Blake3]), the signatures ([Signatures]; [pair_signatures] of
    Sign.v is an instance, over Ed25519 and SHAKE256 as functions), Ed25519 peer ids ([Ed25519], [EdKeys]), multiaddresses ([Multiaddr]), Kyber,
    X25519 and AES-GCM ([Kyber], [X25519], [Aead]) with the laws their documentation states
    ([KyberOk], [X25519Ok], [AeadOk]), byte streams ([AsyncRead], [AsyncWrite], [Duplex]) that read and
    write some prefix of what they are given, the awaited operations on them ([AsyncIo], [Reliable]),
    the transfer of the chain, SHA-3 ([Sha3]), the random choices of a client ([ThreadRng]) and the
    paths it opens ([ClientOnion]). Onion.v and its clients take Kyber by its contract, that a
    decapsulated secret is the encapsulated one; KyberCorrect.v proves it of utils/kyber where the
    noise of a ciphertext stays in its bound, which the code does not check. The one theorem that needs keys
    not to collide under BLAKE3, that stored profiles stay genuine, says so ([keys_distinct]). Every theorem with a hypothesis has a witness on
    a concrete instance.

    ** Not modelled

    - utils/falcon: making keys and signatures (keygen.rs, sign.rs, fft.rs, fpr.rs, rng.rs: Gaussian sampling
      over emulated floating point); with it the signing half of core/crypto/src/sign.rs.
    - nodes/client: the views (login.rs, profile.rs, most of main.rs and chat.rs), the chain and
      IndexedDB (chain.rs, db.rs), the phases of [Node::new] that drive libp2p; utils/websocket-websys.
    - utils/topology-wrapper, nodes/topology-vis: instrumentation.
    - core/chain-api: transactions through subxt; utils/contract_macro, utils/codec-derive and
      utils/config: code generators (the codecs that are derived are written out).
    - the free-identifier vector and pools of core/storage-spec.
    - nodes/satelite, nodes/storage, peer_search.rs and populating.rs are stubs; tests are tests. *)
From Stdlib Require Export ZArith Lia List.
From stdpp Require Export base tactics list list_numbers numbers gmap sorting.

Export ListNotations.
#[global] Open Scope Z_scope.

(** Bytes and machine integers are [Z]; a [w]-bit value is in [0, 2^w). *)
Abbreviation u8 := Z (only parsing).
Abbreviation bytes := (list Z) (only parsing).

Definition fits (w z : Z) : Prop := 0 <= z < 2 ^ w.
Definition wrap (w z : Z) : Z := z mod 2 ^ w.

#[global] Instance fits_dec w z : Decision (fits w z).
Proof. unfold fits. apply _. Defined.

(** The state-and-failure monad of code that works on a [&mut] place and returns
    an [Option]: on [None] the place keeps what was written before the failure. *)
Definition M (S A : Type) : Type := S → option A * S.

Definition ret {S A} (a : A) : M S A := λ s, (Some a, s).
Definition bind {S A B} (m : M S A) (f : A → M S B) : M S B := λ s,
  match m s with
  | (Some a, s') => f a s'
  | (None, s') => (None, s')
  end.
Definition mfail {S A} : M S A := λ s, (None, s).
Definition mget {S} : M S S := λ s, (Some s, s).

Declare Scope orion_scope.
Delimit Scope orion_scope with orion.
Notation "'let!' x ':=' m 'in' k" := (bind m (λ x, k))
  (at level 200, x pattern, m at level 100, k at level 200, right associativity) : orion_scope.
Notation "'do' m ; k" := (bind m (λ _ : unit, k))
  (at level 200, m at level 100, k at level 200, right associativity) : orion_scope.
#[global] Open Scope orion_scope.

Section monad.
Context {S A B C : Type}.
Implicit Types (m : M S A) (f : A → M S B) (s : S).

Lemma bind_ok m f s a s' : m s = (Some a, s') → bind m f s = f a s'.
Proof. intros H. unfold bind. by rewrite H. Qed.

Lemma bind_err m f s s' : m s = (None, s') → bind m f s = (None, s').
Proof. intros H. unfold bind. by rewrite H. Qed.

Lemma bind_inv m f s b s'' :
  bind m f s = (Some b, s'') → ∃ a s', m s = (Some a, s') ∧ f a s' = (Some b, s'').
Proof.
  unfold bind. destruct (m s) as [[a|] s'] eqn:E; intros H; [by eauto|done].
Qed.

Lemma bind_mget (f : S → M S B) s : bind mget f s = f s s.
Proof. done. Qed.

Lemma ret_bind (a : A) f s : bind (ret a) f s = f a s.
Proof. done. Qed.
End monad.

(** Rust's [Result]. *)
Inductive result (A E : Type) : Type := Ok (a : A) | Err (e : E).
Arguments Ok {A E} _.
Arguments Err {A E} _.
#[global] Instance result_eq_dec {A E} `{EqDecision A, EqDecision E} : EqDecision (result A E).
Proof. solve_decision. Defined.

(** Two runs agree when they return the same and, on success, leave the same state:
    what a caller of fallible code with [?] can see. *)
Definition same_run {S A} (r1 r2 : option A * S) : Prop :=
  fst r1 = fst r2 ∧ (is_Some (fst r1) → snd r1 = snd r2).
Infix "≈" := same_run (at level 70, no associativity) : orion_scope.

#[global] Instance same_run_equiv S A : Equivalence (@same_run S A).
Proof.
  split.
  - by intros r.
  - intros r1 r2 [H1 H2]. split; [done|]. intros H. rewrite H2; [done|by rewrite H1].
  - intros r1 r2 r3 [H1 H2] [H3 H4]. split; [congruence|].
    intros H. rewrite H2, H4; [done|by rewrite <-H1|done].
Qed.

Lemma same_run_fail {S A} (s1 s2 : S) : (None : option A, s1) ≈ (None, s2).
Proof. split; [done|]. by intros [? ?]. Qed.

(** Closed decidable goals, for the concrete inputs of the witnesses. *)
Ltac decided := apply (bool_decide_unpack _); vm_compute; exact I.

Create HintDb orion.
#[export] Hint Resolve same_run_fail : orion.

(** Pointwise agreement of computations; [bind] respects it. *)
Definition same_comp {S A} (m1 m2 : M S A) : Prop := ∀ s, m1 s ≈ m2 s.
Infix "≈ₘ" := same_comp (at level 70, no associativity) : orion_scope.

#[global] Instance same_comp_equiv S A : Equivalence (@same_comp S A).
Proof.
  split; [by intros m s|by intros m1 m2 H s; symmetry|].
  intros m1 m2 m3 H1 H2 s. etransitivity; [apply H1|apply H2].
Qed.

#[global] Instance bind_proper S A B :
  Proper (same_comp ==> pointwise_relation A same_comp ==> same_comp) (@bind S A B).
Proof.
  intros m1 m2 Hm f1 f2 Hf s. destruct (Hm s) as [H1 H2]. unfold bind, same_run in *.
  destruct (m1 s) as [[a|] s1], (m2 s) as [[a'|] s2]; simpl in *; simplify_eq; [|done].
  rewrite H2 by eauto. apply Hf.
Qed.

Lemma bind_assoc {S A B C} (m : M S A) (f : A → M S B) (g : B → M S C) s :
  bind (bind m f) g s = bind m (λ a, bind (f a) g) s.
Proof. unfold bind. by destruct (m s) as [[a|] s']. Qed.

Lemma same_run_some {S A} (r1 r2 : option A * S) a s :
  r1 ≈ r2 → r2 = (Some a, s) → r1 = (Some a, s).
Proof.
  intros [H1 H2] ->. destruct r1 as [o s1]; simpl in *. subst o. by rewrite H2 by eauto.
Qed.

Lemma bind_same {S A B} (m1 m2 : M S A) (f : A → M S B) s :
  m1 s ≈ m2 s → bind m1 f s ≈ bind m2 f s.
Proof.
  intros [H1 H2]. unfold bind, same_run in *.
  destruct (m1 s) as [[a|] s1], (m2 s) as [[a'|] s2]; simpl in *; simplify_eq; [|done].
  by rewrite H2 by eauto.
Qed.

(** Integer facts: masks and shifts as arithmetic. *)
Lemma land_ones_mod z w : 0 ≤ w → Z.land z (2 ^ w - 1) = z mod 2 ^ w.
Proof. intros. by rewrite <-Z.land_ones, Z.ones_equiv by lia. Qed.

Lemma land_127 z : Z.land z 127 = z mod 128.
Proof. by apply (land_ones_mod z 7). Qed.

Lemma land_255 z : Z.land z 255 = z mod 256.
Proof. by apply (land_ones_mod z 8). Qed.

Lemma wrap_small w z : fits w z → wrap w z = z.
Proof. intros. unfold wrap. by apply Z.mod_small. Qed.

Lemma land_disjoint hi lo w : 0 ≤ w → 0 ≤ lo < 2 ^ w → Z.land lo (hi * 2 ^ w) = 0.
Proof.
  intros Hw Hlo. rewrite <-Z.shiftl_mul_pow2 by lia.
  apply Z.bits_inj'; intros n Hn. rewrite Z.land_spec, Z.bits_0.
  destruct (Z.ltb_spec n w) as [?|?].
  - rewrite Z.shiftl_spec_low by lia. by rewrite andb_false_r.
  - replace lo with (lo mod 2 ^ w) by (apply Z.mod_small; lia).
    by rewrite Z.mod_pow2_bits_high by lia.
Qed.

Lemma lor_disjoint hi lo w :
  0 ≤ w → 0 ≤ lo < 2 ^ w → Z.lor lo (hi * 2 ^ w) = lo + hi * 2 ^ w.
Proof.
  intros Hw Hlo. pose proof (Z.add_lor_land lo (hi * 2 ^ w)) as H.
  rewrite land_disjoint in H by done. lia.
Qed.

Lemma lor_fits w a b : 0 ≤ w → fits w a → fits w b → fits w (Z.lor a b).
Proof.
  unfold fits. intros Hw Ha Hb.
  assert (Z.lor a b = Z.lor a b mod 2 ^ w) as ->; [|apply Z.mod_pos_bound; lia].
  rewrite <-!Z.land_ones, Z.land_lor_distr_l, !Z.land_ones by lia.
  by rewrite !Z.mod_small.
Qed.

Lemma testbit_high z n i : 0 ≤ z < 2 ^ n → n ≤ i → Z.testbit z i = false.
Proof. intros Hz Hi. destruct (decide (0 ≤ n)); [|rewrite Z.pow_neg_r in Hz; lia].
  rewrite <-(Z.mod_small z (2 ^ n)) by done. apply Z.mod_pow2_bits_high. lia. Qed.
Lemma pow2_pos k : (0 < 2 ^ k)%nat.
Proof. apply Nat.neq_0_lt_0, Nat.pow_nonzero. lia. Qed.
Lemma wrap_fits w z : 0 ≤ w → fits w (wrap w z).
Proof. intros. apply Z.mod_pos_bound. lia. Qed.

Lemma land_128_byte b : fits 8 b → Z.land b 128 = 0 ↔ b < 128.
Proof.
  unfold fits; change (2 ^ 8) with 256; intros Hb. split; intros H.
  - destruct (decide (b < 128)) as [|Hge]; [done|].
    pose proof (lor_disjoint 1 (b - 128) 7 ltac:(lia) ltac:(lia)) as Hl.
    change (1 * 2 ^ 7) with 128 in Hl. replace b with (Z.lor (b - 128) 128) in H by lia.
    pose proof (land_disjoint 1 (b - 128) 7 ltac:(lia) ltac:(lia)) as Hd.
    change (1 * 2 ^ 7) with 128 in Hd. by rewrite Z.land_lor_distr_l, Hd in H.
  - apply (land_disjoint 1 b 7); lia.
Qed.
#[export] Hint Resolve lor_fits wrap_fits : orion.

(** Splitting an append at the length of its left part. *)
Lemma take_app_n {A} (l k : list A) n : n = length l → take n (l ++ k) = l.
Proof. intros ->. apply take_app_length. Qed.
Lemma drop_app_n {A} (l k : list A) n : n = length l → drop n (l ++ k) = k.
Proof. intros ->. apply drop_app_length. Qed.

Lemma filter_iff_in {A} (P Q : A → Prop) `{!∀ x, Decision (P x), !∀ x, Decision (Q x)} (l : list A) :
  (∀ x, x ∈ l → P x ↔ Q x) → filter P l = filter Q l.
Proof.
  induction l as [|x l IH]; intros Hpq; [done|]. rewrite !filter_cons, IH by (intros; apply Hpq; by right).
  assert (P x ↔ Q x) by (apply Hpq; by left). repeat case_decide; tauto || done.
Qed.

(** The result of code that may panic. *)
Inductive outcome (A : Type) : Type := Done (a : A) | Panic.
Arguments Done {A} _.
Arguments Panic {A}.

#[global] Instance outcome_eq_dec {A} `{EqDecision A} : EqDecision (outcome A).
Proof. solve_decision. Defined.

Definition obind {A B} (m : outcome A) (f : A → outcome B) : outcome B :=
  match m with Done a => f a | Panic => Panic end.
Notation "'try!' x ':=' m 'in' k" := (obind m (λ x, k))
  (at level 200, x pattern, m at level 100, k at level 200, right associativity) : orion_scope.

(** [Option::unwrap] and [Option::expect]. *)
Definition unwrap {A} (o : option A) : outcome A :=
  match o with Some a => Done a | None => Panic end.

(** [assert!]. *)
Definition assert_that (P : Prop) `{Decision P} : outcome unit := if decide P then Done tt else Panic.
(** [debug_assert!]: checked only by builds with debug assertions. *)
Definition debug_assert (debug : bool) (P : Prop) `{Decision P} : outcome unit :=
  if debug then assert_that P else Done tt.

Lemma obind_done {A B} (m : outcome A) (f : A → outcome B) b :
  obind m f = Done b ↔ ∃ a, m = Done a ∧ f a = Done b.
Proof. destruct m as [a|]; simpl; split; [by exists a|by intros (? & [= ->] & ?)|done|by intros (? & ? & ?)]. Qed.

Lemma assert_done (P : Prop) `{Decision P} u : assert_that P = Done u ↔ P.
Proof. unfold assert_that. destruct u. by destruct (decide P). Qed.

Lemma debug_assert_true (debug : bool) (P : Prop) `{Decision P} : P → debug_assert debug P = Done tt.
Proof. intros HP. destruct debug; [|done]. by apply assert_done. Qed.

Lemma unwrap_done {A} (o : option A) a : unwrap o = Done a ↔ o = Some a.
Proof. destruct o; simpl; split; congruence. Qed.

(** What is known once code that may panic has not. *)
Ltac did H :=
  lazymatch type of H with
  | obind (assert_that _) _ = Done _ => let Ha := fresh "Ha" in
      apply obind_done in H as ([] & Ha & H); apply assert_done in Ha; did H
  | obind (unwrap _) _ = Done _ => let a := fresh "v" in let Ha := fresh "Hv" in
      apply obind_done in H as (a & Ha & H); apply unwrap_done in Ha; did H
  | _ => idtac
  end.

(** The big-endian value of bytes. *)
Definition be_value (bs : bytes) : Z := foldl (λ v b, v * 256 + b) 0 bs.

Fixpoint be_bytes (n : nat) (v : Z) : bytes :=
  match n with O => [] | S n => be_bytes n (v / 256) ++ [v mod 256] end.

Lemma be_bytes_length n v : length (be_bytes n v) = n.
Proof. revert v. induction n as [|n IH]; intros v; simpl; [done|]. rewrite length_app, IH. simpl. lia. Qed.

Lemma be_value_snoc bs b : be_value (bs ++ [b]) = be_value bs * 256 + b.
Proof. unfold be_value. by rewrite foldl_app. Qed.

Lemma be_value_bytes n v : 0 ≤ v < 256 ^ Z.of_nat n → be_value (be_bytes n v) = v.
Proof.
  revert v. induction n as [|n IH]; intros v Hv.
  { change (256 ^ Z.of_nat 0) with 1 in Hv. unfold be_value. simpl. lia. }
  cbn [be_bytes]. rewrite be_value_snoc, IH.
  - pose proof (Z.div_mod v 256). lia.
  - rewrite Nat2Z.inj_succ, Z.pow_succ_r in Hv by lia.
    split; [apply Z.div_pos; lia|apply Z.div_lt_upper_bound; lia].
Qed.

Lemma be_bytes_value bs : Forall (fits 8) bs → be_bytes (length bs) (be_value bs) = bs.
Proof.
  induction bs as [|b bs IH] using rev_ind; intros Hb; [done|].
  apply Forall_app in Hb as [Hb [Hx _]%Forall_cons]. unfold fits in Hx. change (2 ^ 8) with 256 in Hx.
  rewrite length_app, Nat.add_comm. cbn [length Nat.add be_bytes]. rewrite be_value_snoc.
  rewrite Z.div_add_l, Z.div_small, Z.add_0_r, IH by (done || lia).
  f_equal. f_equal. rewrite Z.add_comm, Z.mod_add by lia. by apply Z.mod_small.
Qed.

Lemma be_value_range bs : Forall (fits 8) bs → 0 ≤ be_value bs < 256 ^ Z.of_nat (length bs).
Proof.
  induction bs as [|b bs IH] using rev_ind; intros Hb; [done|].
  apply Forall_app in Hb as [Hb [Hx _]%Forall_cons]. unfold fits in Hx. change (2 ^ 8) with 256 in Hx.
  specialize (IH Hb). rewrite be_value_snoc, length_app, Nat2Z.inj_add, Z.pow_add_r by lia.
  change (256 ^ Z.of_nat (length [b])) with 256. lia.
Qed.
