(* ===== verification/Codec.v ===== *)
(** The wire format of [utils/component-utils/src/codec.rs].

    [Buffer] and [Codec] are the two traits of that file. [Codec] is a record of the two
    operations, so that [Proof<T>]'s codec is a function of [T]'s; [LawfulBuffer],
    [TailCodec] and [CodecOk] are the laws the clients of the traits rely on, discharged
    here for every implementation. *)

From S2P Require Import Prelude.

(** ** Packet lengths *)

Definition PACKET_LEN_WIDTH : nat := 2.

(* (len as u16).to_be_bytes() *)
Definition encode_len (len : nat) : bytes :=
  let v := wrap 16 (Z.of_nat len) in [Z.shiftr v 8; Z.land v 255].

(* u16::from_be_bytes(bytes) as usize *)
Definition decode_len (b : bytes) : nat :=
  match b with
  | [h; l] => Z.to_nat (Z.lor (Z.shiftl h 8) l)
  | _ => 0%nat
  end.

(** ** Buffers *)

Class Buffer (B : Type) := {
  extend_from_slice : bytes → M B unit;
  push : u8 → M B unit;
}.

(* Vec<u8> *)
#[global] Instance vec_buffer : Buffer bytes := {|
  extend_from_slice slice := λ b, (Some tt, b ++ slice);
  push byte := λ b, (Some tt, b ++ [byte]);
|}.

(** [&mut [u8]]: the bytes already filled and the memory that is left. *)
Record SliceMut := { filled : bytes; room : bytes }.

#[global] Instance slice_buffer : Buffer SliceMut := {|
  extend_from_slice slice := λ b,
    if decide (length slice ≤ length (room b))%nat
    then (Some tt, {| filled := filled b ++ slice; room := drop (length slice) (room b) |})
    else (None, b);
  push byte := λ b,
    match room b with
    | [] => (None, b)
    | _ :: rest => (Some tt, {| filled := filled b ++ [byte]; room := rest |})
    end;
|}.

(** ** The codec trait *)

Record Codec (A : Type) := MkCodec {
  encode : ∀ {B} `{Buffer B}, A → M B unit;
  decode : M bytes A;
}.
Arguments MkCodec {A} & _ _.
Arguments encode {A} _ {B _} _ _.
Arguments decode {A} _ _.

(* let mut buffer = Vec::new(); self.encode(&mut buffer).expect("to encode"); buffer *)
Definition to_bytes {A} (c : Codec A) (a : A) : option bytes :=
  match encode c (B := bytes) a [] with
  | (Some _, b) => Some b
  | (None, _) => None
  end.

(* vec![0; 4], encode, then splice(..4, encode_len(len - 4)): 4 bytes become 2 *)
Definition to_packet {A} (c : Codec A) (a : A) : option bytes :=
  match encode c (B := bytes) a [0; 0; 0; 0] with
  | (Some _, b) => Some (encode_len (length b - 4) ++ drop 4 b)
  | (None, _) => None
  end.

(** ** Integers, base 128 *)

(* the loop of base128_encode: a u64 takes at most 10 rounds *)
Fixpoint base128_encode_loop {B} `{Buffer B} (fuel : nat) (value : Z) : M B unit :=
  match fuel with
  | O => mfail
  | S fuel =>
      let byte := Z.land value 127 in
      let value := Z.shiftr value 7 in
      let byte := if decide (value = 0) then byte else Z.lor byte 128 in
      do push byte;
      if decide (value = 0) then ret tt else base128_encode_loop fuel value
  end.

Definition base128_encode {B} `{Buffer B} (value : Z) : M B unit :=
  base128_encode_loop 10 value.

(* the for loop of base128_decode over the first worst_case_size bytes *)
Fixpoint base128_decode_loop (value shift : Z) (advanced : nat) (bs : bytes) : option (Z * nat) :=
  match bs with
  | [] => None
  | byte :: bs =>
      let value := Z.lor value (wrap 64 (Z.shiftl (Z.land byte 127) shift)) in
      if decide (Z.land byte 128 = 0) then Some (value, S advanced)
      else base128_decode_loop value (shift + 7) (S advanced) bs
  end.

Definition base128_decode : M bytes Z := λ buffer,
  match base128_decode_loop 0 0 0 (take 10 buffer) with
  | Some (value, advanced) => (Some value, drop advanced buffer)
  | None => (None, buffer)
  end.

(* impl_int!: [*self as u64] on the way out, [v as $t] on the way in *)
Definition int_codec (w : Z) : Codec Z :=
  MkCodec (λ B _ a, base128_encode (wrap 64 a))
          (let! v := base128_decode in ret (wrap w v)).

Definition u16_codec := int_codec 16.
Definition u32_codec := int_codec 32.
Definition u64_codec := int_codec 64.
Definition u128_codec := int_codec 128.

(* usize is a u64 on the targets of the nodes; lengths are [nat] here *)
Definition usize_codec : Codec nat :=
  MkCodec (λ B _ a, base128_encode (wrap 64 (Z.of_nat a)))
          (let! v := base128_decode in ret (Z.to_nat v)).

(** [Base128Bytes]: the fields [.0] and [.1], and one call of [next]. *)
Record Base128Bytes := { rest_bits : Z; fresh : bool }.

Definition base128_bytes_new (value : Z) := {| rest_bits := value; fresh := true |}.

Definition base128_bytes_next (it : Base128Bytes) : option u8 * Base128Bytes :=
  if negb (fresh it) && bool_decide (rest_bits it = 0)
  then (None, {| rest_bits := rest_bits it; fresh := false |})
  else
    let byte := Z.land (rest_bits it) 127 in
    let rest := Z.shiftr (rest_bits it) 7 in
    let rest := if decide (rest = 0) then rest else Z.lor rest 128 in
    (Some byte, {| rest_bits := rest; fresh := false |}).

(** ** Scalars and tails *)

Definition bool_codec : Codec bool :=
  MkCodec (λ B _ b, push (if b then 1 else 0))
          (λ buffer, match buffer with
                     | byte :: rest =>
                         if decide (byte = 0) then (Some false, rest)
                         else if decide (byte = 1) then (Some true, rest)
                         else (None, buffer)
                     | [] => (None, buffer)
                     end).

Definition u8_codec : Codec u8 :=
  MkCodec (λ B _ b, push b)
          (λ buffer, match buffer with
                     | byte :: rest => (Some byte, rest)
                     | [] => (None, buffer)
                     end).

Definition unit_codec : Codec unit := MkCodec (λ B _ _, ret tt) (ret tt).

(* PhantomData<T> *)
Definition phantom_codec : Codec unit := MkCodec (λ B _ _, ret tt) (ret tt).

(* Reminder, OwnedReminder and Unbound<Vec<u8>>: all the bytes that are left *)
Definition reminder_codec : Codec bytes :=
  MkCodec (λ B _ a, extend_from_slice a) (λ buffer, (Some buffer, [])).

(* Infallible has no value to encode and decodes to nothing *)
Definition infallible_codec : Codec Empty_set :=
  MkCodec (λ B _ a, match a with end) mfail.

(** ** Byte strings *)

Definition slice_codec : Codec bytes :=
  MkCodec (λ B _ a, do encode usize_codec (length a); extend_from_slice a)
          (let! len := decode usize_codec in
           λ buffer, if decide (length buffer < len)%nat then (None, buffer)
                     else (Some (take len buffer), drop len buffer)).

(* Box<[u8]> *)
Definition boxed_slice_codec : Codec bytes :=
  MkCodec (λ B _ a, encode slice_codec a) (decode slice_codec).

(** [core::str::from_utf8]'s check: the well-formed byte sequences of the standard. *)
Definition cont (b : u8) : bool := bool_decide (128 ≤ b ≤ 191).
Fixpoint utf8_ok (bs : bytes) : bool :=
  match bs with
  | [] => true
  | b0 :: t0 =>
      if bool_decide (0 ≤ b0 ≤ 127) then utf8_ok t0
      else match t0 with
      | [] => false
      | b1 :: t1 =>
          if bool_decide (194 ≤ b0 ≤ 223) then cont b1 && utf8_ok t1
          else match t1 with
          | [] => false
          | b2 :: t2 =>
              if bool_decide (224 ≤ b0 ≤ 239) then
                (if bool_decide (b0 = 224) then bool_decide (160 ≤ b1 ≤ 191)
                 else if bool_decide (b0 = 237) then bool_decide (128 ≤ b1 ≤ 159)
                 else cont b1) && cont b2 && utf8_ok t2
              else match t2 with
              | [] => false
              | b3 :: t3 =>
                  if bool_decide (240 ≤ b0 ≤ 244) then
                    (if bool_decide (b0 = 240) then bool_decide (144 ≤ b1 ≤ 191)
                     else if bool_decide (b0 = 244) then bool_decide (128 ≤ b1 ≤ 143)
                     else cont b1) && cont b2 && cont b3 && utf8_ok t3
                  else false
              end
          end
      end
  end.

(* &str and String: a str is its UTF-8 bytes *)
Definition str_codec : Codec bytes :=
  MkCodec (λ B _ a, encode slice_codec a)
          (let! bs := decode slice_codec in if utf8_ok bs then ret bs else mfail).

(* ArrayString<LEN> *)
Definition array_string_codec (LEN : nat) : Codec bytes :=
  MkCodec (λ B _ a, encode slice_codec a)
          (let! bs := decode slice_codec in
           if utf8_ok bs then
             if decide (length bs ≤ LEN)%nat then ret bs else mfail
           else mfail).

(** ** Containers *)

(* for i in self { i.encode(buffer)?; } *)
Fixpoint encode_all {A B} `{Buffer B} (c : Codec A) (l : list A) : M B unit :=
  match l with
  | [] => ret tt
  | a :: l => do encode c a; encode_all c l
  end.

(* for _ in 0..len { s.push(T::decode(buffer)?); } *)
Fixpoint decode_n {A} (c : Codec A) (len : nat) : M bytes (list A) :=
  match len with
  | O => ret []
  | S len => let! a := decode c in let! l := decode_n c len in ret (a :: l)
  end.

(* Vec<T> *)
Definition vec_codec {A} (c : Codec A) : Codec (list A) :=
  MkCodec (λ B _ l, do encode usize_codec (length l); encode_all c l)
          (let! len := decode usize_codec in
           let! buffer := mget in
           if decide (length buffer < len)%nat then mfail else decode_n c len).

(* VecDeque<T>: the same checks, elements pushed at the back in order *)
Definition vec_deque_codec {A} (c : Codec A) : Codec (list A) :=
  MkCodec (λ B _ l, do encode usize_codec (length l); encode_all c l)
          (let! len := decode usize_codec in
           let! buffer := mget in
           if decide (length buffer < len)%nat then mfail else decode_n c len).

(* Arc<[T]> decodes through Vec<T> *)
Definition arc_slice_codec {A} (c : Codec A) : Codec (list A) :=
  MkCodec (λ B _ l, do encode usize_codec (length l); encode_all c l)
          (decode (vec_codec c)).

(* ArrayVec<T, LEN> *)
Definition array_vec_codec {A} (LEN : nat) (c : Codec A) : Codec (list A) :=
  MkCodec (λ B _ l, do encode usize_codec (length l); encode_all c l)
          (let! len := decode usize_codec in
           if decide (LEN < len)%nat then mfail else decode_n c len).

(* [(); SIZE].map(|()| T::decode(buffer)): a failed try does not stop the others *)
Fixpoint array_tries {A} (c : Codec A) (size : nat) (buffer : bytes) : list (option A) * bytes :=
  match size with
  | O => ([], buffer)
  | S size =>
      let (t, buffer) := decode c buffer in
      let (ts, buffer) := array_tries c size buffer in
      (t :: ts, buffer)
  end.

(* [T; SIZE] *)
Definition array_codec {A} (SIZE : nat) (c : Codec A) : Codec (list A) :=
  MkCodec (λ B _ l, encode_all c l)
          (λ buffer, let (tries, buffer) := array_tries c SIZE buffer in
                     (mapM id tries, buffer)).

Definition option_codec {A} (c : Codec A) : Codec (option A) :=
  MkCodec (λ B _ o, match o with
                    | Some a => do encode bool_codec true; encode c a
                    | None => encode bool_codec false
                    end)
          (let! is_some := decode bool_codec in
           if (is_some : bool) then let! a := decode c in ret (Some a) else ret None).

Definition result_codec {R E} (cr : Codec R) (ce : Codec E) : Codec (result R E) :=
  MkCodec (λ B _ o, match o with
                    | Ok r => do encode bool_codec true; encode cr r
                    | Err e => do encode bool_codec false; encode ce e
                    end)
          (let! is_ok := decode bool_codec in
           if (is_ok : bool) then let! r := decode cr in ret (Ok r)
           else let! e := decode ce in ret (Err e)).

(* (A, B); the longer tuples nest to the left, which writes the fields in the same order *)
Definition pair_codec {X Y} (cx : Codec X) (cy : Codec Y) : Codec (X * Y) :=
  MkCodec (λ B _ p, do encode cx p.1; encode cy p.2)
          (let! x := decode cx in let! y := decode cy in ret (x, y)).

(* Range<T>: start, then end *)
Definition range_codec {A} (c : Codec A) : Codec (A * A) :=
  MkCodec (λ B _ r, do encode c r.1; encode c r.2)
          (let! start := decode c in let! end_ := decode c in ret (start, end_)).

(** [HashMap<K, V, H>]: the order [order] of iteration is the hasher's choice. *)
Section hash_map.
Context {K V : Type} `{Countable K}.
Variable order : gmap K V → list (K * V).

Fixpoint decode_entries (ck : Codec K) (cv : Codec V) (len : nat) (s : gmap K V) :
    M bytes (gmap K V) :=
  match len with
  | O => ret s
  | S len =>
      let! k := decode ck in
      let! v := decode cv in
      decode_entries ck cv len (<[k:=v]> s)
  end.

Definition hash_map_codec (ck : Codec K) (cv : Codec V) : Codec (gmap K V) :=
  MkCodec (λ B _ m, do encode usize_codec (size m); encode_all (pair_codec ck cv) (order m))
          (let! len := decode usize_codec in
           let! buffer := mget in
           if decide (Z.of_nat (length buffer) < wrap 64 (Z.of_nat len * 2)) then mfail
           else decode_entries ck cv len ∅).
End hash_map.

(* CodecExt::from_stream over the bytes the stream delivers before it ends *)
Inductive stream_error := UnexpectedEof | InvalidData.
Definition from_stream {A} (c : Codec A) (stream : bytes) : result A stream_error * bytes :=
  if decide (length stream < 2)%nat then (Err UnexpectedEof, [])
  else
    let len := decode_len (take 2 stream) in
    let stream := drop 2 stream in
    if decide (length stream < len)%nat then (Err UnexpectedEof, [])
    else match fst (decode c (take len stream)) with
         | Some a => (Ok a, drop len stream)
         | None => (Err InvalidData, drop len stream)
         end.

(** ** What [#[derive(Codec)]] generates: an enum is its variant's index and fields *)

Definition variant {B} `{Buffer B} (index : Z) (fields : M B unit) : M B unit :=
  do push index; fields.

Definition match_index {A} (arms : Z → M bytes A) : M bytes A := λ buffer,
  match buffer with
  | [] => (None, buffer)
  | index :: buffer => arms index buffer
  end.

(* a struct is its fields in order: [f] takes it apart, [g] rebuilds it *)
Definition iso_codec {A B} (f : A → B) (g : B → A) (c : Codec B) : Codec A :=
  MkCodec (λ _ _ a, encode c (f a)) (let! b := decode c in ret (g b)).

(* an enum whose variants have no fields *)
Definition unit_enum_codec {A} (index : A → Z) (of_index : Z → option A) : Codec A :=
  MkCodec (λ _ _ a, variant (index a) (ret tt))
          (match_index (λ i, match of_index i with Some a => ret a | None => mfail end)).

(** ** The laws *)

Class LawfulBuffer (B : Type) `{Buffer B} : Prop := {
  extend_nil b : extend_from_slice [] b = (Some tt, b);
  extend_app (l1 l2 : bytes) (b : B) :
    extend_from_slice (l1 ++ l2) b ≈ (do extend_from_slice l1; extend_from_slice l2) b;
  push_extend x (b : B) : push x b = extend_from_slice [x] b;
}.

(** A codec that reads back its own bytes when nothing follows them. *)
Class TailCodec {A} (c : Codec A) := {
  tvalid : A → Prop;
  twire : A → bytes;
  tencode_wire `{LawfulBuffer B} (a : A) (b : B) :
    tvalid a → encode c a b ≈ extend_from_slice (twire a) b;
  tdecode_wire (a : A) : tvalid a → decode c (twire a) = (Some a, []);
}.

(** A codec that reads back its own bytes and leaves what follows them. *)
Class CodecOk {A} (c : Codec A) := {
  valid : A → Prop;
  wire : A → bytes;
  encode_wire `{LawfulBuffer B} (a : A) (b : B) :
    valid a → encode c a b ≈ extend_from_slice (wire a) b;
  decode_wire (a : A) (rest : bytes) : valid a → decode c (wire a ++ rest) = (Some a, rest);
}.
Arguments valid {A} c {_} _.
Arguments wire {A} c {_} _.
Arguments tvalid {A} c {_} _.
Arguments twire {A} c {_} _.

(** Every value takes at least one byte. *)
Class NonEmptyWire {A} (c : Codec A) `{!CodecOk c} : Prop :=
  wire_nonempty a : valid c a → (1 ≤ length (wire c a))%nat.

#[global] Instance codec_ok_tail {A} (c : Codec A) `{!CodecOk c} : TailCodec c | 100.
Proof.
  refine {| tvalid := valid c; twire := wire c |}.
  - intros. by apply encode_wire.
  - intros a Ha. rewrite <-(app_nil_r (wire c a)). by apply decode_wire.
Defined.

#[global] Instance vec_lawful : LawfulBuffer bytes.
Proof.
  split; simpl; intros; [by rewrite app_nil_r| |done].
  unfold bind; simpl. by rewrite (assoc_L _).
Qed.

#[global] Instance slice_lawful : LawfulBuffer SliceMut.
Proof.
  split; simpl.
  - intros [f r]. simpl. by rewrite app_nil_r.
  - intros l1 l2 [f r]. unfold bind; simpl. rewrite length_app.
    repeat (case_decide; simpl); rewrite ?length_drop in *; try lia; try done.
    + by rewrite (assoc_L _), drop_drop.
    + auto with orion.
  - intros x [f [|y r]]; done.
Qed.

Section buffers.
Context `{LawfulBuffer B}.

Lemma extend_cons x (l : bytes) (b : B) :
  extend_from_slice (x :: l) b ≈ (do push x; extend_from_slice l) b.
Proof.
  change (x :: l) with ([x] ++ l). rewrite extend_app.
  apply bind_same. by rewrite push_extend.
Qed.

Lemma bind_extend (m1 m2 : M B unit) (w1 w2 : bytes) (b : B) :
  m1 b ≈ extend_from_slice w1 b →
  (∀ b, m2 b ≈ extend_from_slice w2 b) →
  (do m1; m2) b ≈ extend_from_slice (w1 ++ w2) b.
Proof.
  intros H1 H2. rewrite extend_app. rewrite (bind_same _ _ _ _ H1).
  by apply bind_proper; [|intros ? b'; apply H2].
Qed.
End buffers.

(** *** Base 128 *)

Fixpoint b128 (fuel : nat) (v : Z) : bytes :=
  match fuel with
  | O => []
  | S fuel => if decide (v / 128 = 0) then [v mod 128]
              else Z.lor (v mod 128) 128 :: b128 fuel (v / 128)
  end.

Lemma b128_length fuel v : (length (b128 fuel v) ≤ fuel)%nat.
Proof.
  revert v. induction fuel as [|fuel IH]; intros v; simpl; [done|].
  case_decide; simpl; [lia|]. specialize (IH (v / 128)). lia.
Qed.

Lemma b128_bytes fuel v : 0 ≤ v → Forall (fits 8) (b128 fuel v).
Proof.
  revert v. induction fuel as [|fuel IH]; intros v Hv; cbn [b128]; [constructor|].
  pose proof (Z.mod_pos_bound v 128 ltac:(lia)).
  case_decide; repeat constructor; unfold fits; change (2 ^ 8) with 256; try lia.
  - rewrite (lor_disjoint 1 _ 7) by lia. lia.
  - rewrite (lor_disjoint 1 _ 7) by lia. lia.
  - apply IH. by apply Z.div_pos.
Qed.

Lemma b128_nonempty fuel v : (1 ≤ length (b128 (S fuel) v))%nat.
Proof. simpl. case_decide; simpl; lia. Qed.

Lemma b128_step fuel v :
  0 ≤ v < 2 ^ (7 * Z.of_nat (S fuel)) → v / 128 ≠ 0 →
  (0 < fuel)%nat ∧ 0 ≤ v / 128 < 2 ^ (7 * Z.of_nat fuel).
Proof.
  intros Hv Hz. rewrite Nat2Z.inj_succ, Z.mul_succ_r, Z.pow_add_r in Hv by lia.
  change (2 ^ 7) with 128 in Hv.
  assert (0 ≤ v / 128 < 2 ^ (7 * Z.of_nat fuel)) as Hd
    by (split; [apply Z.div_pos; lia|apply Z.div_lt_upper_bound; lia]).
  split; [|done]. destruct fuel; [|lia]. change (2 ^ (7 * Z.of_nat 0)) with 1 in Hd. lia.
Qed.

Lemma base128_encode_spec `{LawfulBuffer B} fuel v (b : B) :
  (0 < fuel)%nat → 0 ≤ v < 2 ^ (7 * Z.of_nat fuel) →
  base128_encode_loop fuel v b ≈ extend_from_slice (b128 fuel v) b.
Proof.
  revert v b. induction fuel as [|fuel IH]; intros v b Hf Hv; [lia|].
  cbn [base128_encode_loop b128].
  rewrite land_127, Z.shiftr_div_pow2 by lia. change (2 ^ 7) with 128.
  case_decide as Hz.
  - unfold bind, ret. rewrite push_extend.
    by destruct (extend_from_slice _ b) as [[[]|] ?].
  - rewrite extend_cons.
    apply bind_proper; [done|]. intros _ b'.
    destruct (b128_step fuel v Hv Hz). by apply IH.
Qed.

Lemma b128_head_bits v : 0 ≤ v →
  Z.land (v mod 128) 128 = 0 ∧
  Z.land (Z.lor (v mod 128) 128) 127 = v mod 128 ∧ Z.land (Z.lor (v mod 128) 128) 128 = 128.
Proof.
  intros Hv. pose proof (Z.mod_pos_bound v 128 ltac:(lia)).
  assert (Z.land (v mod 128) 128 = 0) as Hd by (by apply (land_disjoint 1 _ 7)).
  pose proof (lor_disjoint 1 (v mod 128) 7 ltac:(lia) ltac:(lia)) as Hl.
  change (1 * 2 ^ 7) with 128 in Hl.
  split; [done|split].
  - rewrite Hl, land_127. rewrite <-Z.add_mod_idemp_r by lia.
    by rewrite Z.mod_same, Z.add_0_r, Z.mod_mod by lia.
  - by rewrite Z.land_lor_distr_l, Hd.
Qed.

Lemma base128_decode_spec fuel v acc s adv rest :
  (0 < fuel)%nat → 0 ≤ s → 0 ≤ acc < 2 ^ s → 0 ≤ v < 2 ^ (7 * Z.of_nat fuel) → v * 2 ^ s < 2 ^ 64 →
  base128_decode_loop acc s adv (b128 fuel v ++ rest) =
    Some (acc + v * 2 ^ s, (adv + length (b128 fuel v))%nat).
Proof.
  revert v acc s adv. induction fuel as [|fuel IH]; intros v acc s adv Hf Hs Hacc Hv Hb; [lia|].
  destruct (b128_head_bits v ltac:(lia)) as (H1 & H2 & H3).
  pose proof (Z.mod_pos_bound v 128 ltac:(lia)) as Hm.
  pose proof (Z.div_mod v 128 ltac:(lia)) as Hdm.
  assert (0 ≤ v / 128) by (apply Z.div_pos; lia).
  assert (0 < 2 ^ s) by (apply Z.pow_pos_nonneg; lia).
  assert (∀ lo, lo = v mod 128 → Z.lor acc (wrap 64 (Z.shiftl lo s)) = acc + v mod 128 * 2 ^ s)
    as Hlor.
  { intros lo ->. rewrite Z.shiftl_mul_pow2, wrap_small by (unfold fits; nia).
    by apply lor_disjoint. }
  cbn [b128]. case_decide as Hz.
  - cbn [app base128_decode_loop length]. rewrite land_127, Z.mod_mod by lia.
    rewrite Hlor, H1, decide_True by done. repeat f_equal; [|lia].
    rewrite Hz in Hdm. lia.
  - cbn [app base128_decode_loop length]. rewrite H2, Hlor, H3 by done.
    rewrite decide_False by done.
    destruct (b128_step fuel v Hv Hz) as [Hf' Hv'].
    rewrite IH; rewrite ?(Z.pow_add_r 2 s 7) by lia; change (2 ^ 7) with 128 in *; try nia.
    f_equal. f_equal; [nia|lia].
Qed.

Lemma base128_decode_wire v rest :
  fits 64 v → base128_decode (b128 10 v ++ rest) = (Some v, rest).
Proof.
  intros Hv. unfold base128_decode. pose proof (b128_length 10 v).
  rewrite take_app_ge by lia.
  rewrite base128_decode_spec; unfold fits in *; simpl in *; try lia.
  rewrite Z.mul_1_r. by rewrite drop_app_length.
Qed.

#[global] Arguments b128 : simpl never.

#[global] Instance int_ok w : CodecOk (int_codec w).
Proof.
  refine {| valid a := fits w a ∧ fits 64 a; wire a := b128 10 (wrap 64 a) |}.
  - intros B ? ? a b [_ Ha]. simpl. unfold base128_encode. rewrite wrap_small by done.
    apply base128_encode_spec; [lia|]. unfold fits in Ha. simpl in *. lia.
  - intros a rest [Hw Ha]. simpl. rewrite wrap_small by done.
    rewrite (bind_ok _ _ _ _ _ (base128_decode_wire a rest Ha)). unfold ret.
    by rewrite wrap_small.
Defined.

#[global] Instance usize_ok : CodecOk usize_codec.
Proof.
  refine {| valid n := fits 64 (Z.of_nat n); wire n := b128 10 (wrap 64 (Z.of_nat n)) |}.
  - intros B ? ? a b Ha. simpl. unfold base128_encode. rewrite wrap_small by done.
    apply base128_encode_spec; [lia|]. unfold fits in Ha. simpl in *. lia.
  - intros a rest Ha. simpl. rewrite wrap_small by done.
    rewrite (bind_ok _ _ _ _ _ (base128_decode_wire _ rest Ha)). unfold ret.
    by rewrite Nat2Z.id.
Defined.

(** *** Composition *)

Lemma bind_decode {A C} (c : Codec A) `{!CodecOk c} (f : A → M bytes C) a rest :
  valid c a → bind (decode c) f (wire c a ++ rest) = f a rest.
Proof. intros Ha. by apply bind_ok, decode_wire. Qed.

Lemma bind_decode_tail {A C} (c : Codec A) `{!TailCodec c} (f : A → M bytes C) a :
  tvalid c a → bind (decode c) f (twire c a) = f a [].
Proof. intros Ha. by apply bind_ok, tdecode_wire. Qed.

Lemma encode_all_spec {A} (c : Codec A) `{!CodecOk c} `{LawfulBuffer B} l (b : B) :
  Forall (valid c) l → encode_all c l b ≈ extend_from_slice (concat (map (wire c) l)) b.
Proof.
  intros Hl. revert b. induction Hl as [|a l Ha _ IH]; intros b; simpl.
  - by rewrite extend_nil.
  - apply bind_extend; [by apply encode_wire|done].
Qed.

Lemma decode_n_spec {A} (c : Codec A) `{!CodecOk c} l rest :
  Forall (valid c) l →
  decode_n c (length l) (concat (map (wire c) l) ++ rest) = (Some l, rest).
Proof.
  induction 1 as [|a l Ha _ IH]; simpl; [done|].
  rewrite <-(assoc_L _), (bind_decode c) by done. by rewrite (bind_ok _ _ _ _ _ IH).
Qed.

Lemma array_tries_spec {A} (c : Codec A) `{!CodecOk c} l rest :
  Forall (valid c) l →
  array_tries c (length l) (concat (map (wire c) l) ++ rest) = (map Some l, rest).
Proof.
  induction 1 as [|a l Ha _ IH]; simpl; [done|].
  by rewrite <-(assoc_L _), decode_wire, IH.
Qed.

Lemma mapM_some {A} (l : list A) : mapM id (map Some l) = Some l.
Proof. induction l as [|a l IH]; simpl; [done|]. by rewrite IH. Qed.

Lemma concat_wire_length {A} (c : Codec A) `{!CodecOk c, !NonEmptyWire c} l :
  Forall (valid c) l → (length l ≤ length (concat (map (wire c) l)))%nat.
Proof.
  induction 1 as [|a l Ha _ IH]; simpl; [done|].
  rewrite length_app. pose proof (wire_nonempty a Ha). lia.
Qed.

#[global] Instance int_nonempty w : NonEmptyWire (int_codec w).
Proof. intros a _. apply b128_nonempty. Qed.
#[global] Instance usize_nonempty : NonEmptyWire usize_codec.
Proof. intros a _. apply b128_nonempty. Qed.

#[global] Instance bool_ok : CodecOk bool_codec.
Proof.
  refine {| valid _ := True; wire (b : bool) := [if b then 1 else 0] |}.
  - intros B ? ? a b _. simpl. by rewrite push_extend.
  - by intros [] rest _.
Defined.
#[global] Instance bool_nonempty : NonEmptyWire bool_codec.
Proof. intros a _. done. Qed.

#[global] Instance u8_ok : CodecOk u8_codec.
Proof.
  refine {| valid b := fits 8 b; wire b := [b] |}.
  - intros B ? ? a b _. simpl. by rewrite push_extend.
  - done.
Defined.
#[global] Instance u8_nonempty : NonEmptyWire u8_codec.
Proof. intros a _. done. Qed.

#[global] Instance unit_ok : CodecOk unit_codec.
Proof.
  refine {| valid (_ : unit) := True; wire _ := [] |}.
  - intros B ? ? a b _. simpl. by rewrite extend_nil.
  - by intros [] rest _.
Defined.

#[global] Instance reminder_tail : TailCodec reminder_codec.
Proof. refine {| tvalid (_ : bytes) := True; twire a := a |}; done. Defined.

#[global] Instance slice_ok : CodecOk slice_codec.
Proof.
  refine {| valid l := valid usize_codec (length l);
            wire l := wire usize_codec (length l) ++ l |}.
  - intros B ? ? a b Ha. by apply bind_extend; [apply encode_wire|].
  - intros a rest Ha. cbn [slice_codec decode]. rewrite <-(assoc_L _), bind_decode by done.
    rewrite decide_False by (rewrite length_app; lia).
    by rewrite take_app_length, drop_app_length.
Defined.
#[global] Instance slice_nonempty : NonEmptyWire slice_codec.
Proof.
  intros a Ha. pose proof (wire_nonempty (c := usize_codec) _ Ha) as Hn.
  cbn [wire slice_ok] in *. rewrite length_app. lia.
Qed.

#[global] Instance str_ok : CodecOk str_codec.
Proof.
  refine {| valid l := valid slice_codec l ∧ utf8_ok l = true; wire l := wire slice_codec l |}.
  - intros B ? ? a b [Ha _]. by apply (encode_wire (c := slice_codec)).
  - intros a rest [Ha Hu]. cbn [str_codec decode]. by rewrite bind_decode, Hu by done.
Defined.

#[global] Instance array_string_ok LEN : CodecOk (array_string_codec LEN).
Proof.
  refine {| valid l := valid str_codec l ∧ (length l ≤ LEN)%nat; wire l := wire slice_codec l |}.
  - intros B ? ? a b [[Ha _] _]. by apply (encode_wire (c := slice_codec)).
  - intros a rest [[Ha Hu] Hl]. cbn [array_string_codec decode].
    by rewrite bind_decode, Hu, decide_True by done.
Defined.
#[global] Instance array_string_nonempty LEN : NonEmptyWire (array_string_codec LEN).
Proof. intros a [[Ha _] _]. by apply (wire_nonempty (c := slice_codec)). Qed.

#[global] Instance vec_ok {A} (c : Codec A) `{!CodecOk c, !NonEmptyWire c} : CodecOk (vec_codec c).
Proof.
  refine {| valid l := valid usize_codec (length l) ∧ Forall (valid c) l;
            wire l := wire usize_codec (length l) ++ concat (map (wire c) l) |}.
  - intros B ? ? l b [Hn Hl].
    apply bind_extend; [by apply encode_wire|intros; by apply encode_all_spec].
  - intros l rest [Hn Hl]. cbn [vec_codec decode]. rewrite <-(assoc_L _), bind_decode by done.
    rewrite bind_mget. pose proof (concat_wire_length c l Hl).
    rewrite decide_False by (rewrite length_app; lia). by apply decode_n_spec.
Defined.

#[global] Instance array_vec_ok {A} LEN (c : Codec A) `{!CodecOk c} : CodecOk (array_vec_codec LEN c).
Proof.
  refine {| valid l := valid usize_codec (length l) ∧ (length l ≤ LEN)%nat ∧ Forall (valid c) l;
            wire l := wire usize_codec (length l) ++ concat (map (wire c) l) |}.
  - intros B ? ? l b (Hn & _ & Hl).
    apply bind_extend; [by apply encode_wire|intros; by apply encode_all_spec].
  - intros l rest (Hn & Hc & Hl). cbn [array_vec_codec decode].
    rewrite <-(assoc_L _), bind_decode by done.
    rewrite decide_False by lia. by apply decode_n_spec.
Defined.

#[global] Instance array_ok {A} SIZE (c : Codec A) `{!CodecOk c} : CodecOk (array_codec SIZE c).
Proof.
  refine {| valid l := length l = SIZE ∧ Forall (valid c) l; wire l := concat (map (wire c) l) |}.
  - intros B ? ? l b [_ Hl]. by apply encode_all_spec.
  - intros l rest [<- Hl]. cbn [array_codec decode].
    by rewrite array_tries_spec, mapM_some by done.
Defined.

#[global] Instance pair_ok {X Y} (cx : Codec X) (cy : Codec Y) `{!CodecOk cx, !CodecOk cy} :
  CodecOk (pair_codec cx cy).
Proof.
  refine {| valid p := valid cx p.1 ∧ valid cy p.2; wire p := wire cx p.1 ++ wire cy p.2 |}.
  - intros B ? ? [x y] b [Hx Hy]. simpl in *.
    apply bind_extend; [by apply encode_wire|intros; by apply encode_wire].
  - intros [x y] rest [Hx Hy]. cbn [pair_codec decode fst snd] in *.
    by rewrite <-(assoc_L _), !bind_decode by done.
Defined.
#[global] Instance pair_nonempty {X Y} (cx : Codec X) (cy : Codec Y)
  `{!CodecOk cx, !CodecOk cy, !NonEmptyWire cx} : NonEmptyWire (pair_codec cx cy).
Proof.
  intros [x y] [Hx _]. simpl in *. rewrite length_app. pose proof (wire_nonempty x Hx). lia.
Qed.

#[global] Instance pair_tail {X Y} (cx : Codec X) (cy : Codec Y) `{!CodecOk cx, !TailCodec cy} :
  TailCodec (pair_codec cx cy) | 50.
Proof.
  refine {| tvalid p := valid cx p.1 ∧ tvalid cy p.2; twire p := wire cx p.1 ++ twire cy p.2 |}.
  - intros B ? ? [x y] b [Hx Hy]. simpl in *.
    apply bind_extend; [by apply encode_wire|intros; by apply tencode_wire].
  - intros [x y] [Hx Hy]. cbn [pair_codec decode fst snd] in *.
    by rewrite bind_decode, bind_decode_tail by done.
Defined.

#[global] Instance range_ok {A} (c : Codec A) `{!CodecOk c} : CodecOk (range_codec c).
Proof.
  refine {| valid p := valid c p.1 ∧ valid c p.2; wire p := wire c p.1 ++ wire c p.2 |}.
  - intros B ? ? a b Ha. exact (encode_wire (c := pair_codec c c) a b Ha).
  - intros a rest Ha. exact (decode_wire (c := pair_codec c c) a rest Ha).
Defined.

Definition tag (t : bool) : bytes := [if t then 1 else 0].

Lemma encode_tag `{LawfulBuffer B} (t : bool) (b : B) :
  encode bool_codec t b ≈ extend_from_slice (tag t) b.
Proof. unfold tag. simpl. by rewrite push_extend. Qed.

Lemma bind_tag {C} (f : bool → M bytes C) t rest :
  bind (decode bool_codec) f (tag t ++ rest) = f t rest.
Proof. by destruct t. Qed.

#[global] Instance option_tail {A} (c : Codec A) `{!TailCodec c} : TailCodec (option_codec c) | 50.
Proof.
  refine {| tvalid o := from_option (tvalid c) True o;
            twire o := match o with Some a => tag true ++ twire c a | None => tag false end |}.
  - intros B ? ? [a|] b Ha; [|apply (encode_tag false)].
    apply bind_extend; [apply (encode_tag true)|intros; by apply tencode_wire].
  - intros [a|] Ha; [|done]. cbn [option_codec decode].
    rewrite bind_tag. by rewrite bind_decode_tail by done.
Defined.

#[global] Instance option_ok {A} (c : Codec A) `{!CodecOk c} : CodecOk (option_codec c).
Proof.
  refine {| valid o := from_option (valid c) True o;
            wire o := match o with Some a => tag true ++ wire c a | None => tag false end |}.
  - intros B ? ? [a|] b Ha; [|apply (encode_tag false)].
    apply bind_extend; [apply (encode_tag true)|intros; by apply encode_wire].
  - intros [a|] rest Ha; [|done]. cbn [option_codec decode]. rewrite <-(assoc_L _).
    rewrite bind_tag. by rewrite bind_decode by done.
Defined.
#[global] Instance option_nonempty {A} (c : Codec A) `{!CodecOk c} : NonEmptyWire (option_codec c).
Proof. intros [a|] _; simpl; lia. Qed.

Definition result_pred {R E} (p : R → Prop) (q : E → Prop) (o : result R E) : Prop :=
  match o with Ok r => p r | Err e => q e end.

#[global] Instance result_tail {R E} (cr : Codec R) (ce : Codec E) `{!TailCodec cr, !TailCodec ce} :
  TailCodec (result_codec cr ce) | 50.
Proof.
  refine {| tvalid := result_pred (tvalid cr) (tvalid ce);
            twire o := match o with Ok r => tag true ++ twire cr r | Err e => tag false ++ twire ce e end |}.
  - intros B ? ? [r|e] b Ha;
      (apply bind_extend; [refine (encode_tag _ _)|intros; by apply tencode_wire]).
  - intros [r|e] Ha; cbn [result_codec decode].
    + rewrite bind_tag. by rewrite bind_decode_tail by done.
    + rewrite bind_tag. by rewrite bind_decode_tail by done.
Defined.

#[global] Instance result_ok {R E} (cr : Codec R) (ce : Codec E) `{!CodecOk cr, !CodecOk ce} :
  CodecOk (result_codec cr ce).
Proof.
  refine {| valid := result_pred (valid cr) (valid ce);
            wire o := match o with Ok r => tag true ++ wire cr r | Err e => tag false ++ wire ce e end |}.
  - intros B ? ? [r|e] b Ha;
      (apply bind_extend; [refine (encode_tag _ _)|intros; by apply encode_wire]).
  - intros [r|e] rest Ha; cbn [result_codec decode]; rewrite <-(assoc_L _).
    + rewrite bind_tag. by rewrite bind_decode by done.
    + rewrite bind_tag. by rewrite bind_decode by done.
Defined.

(** *** Derived codecs *)

Definition iso_ok {A B} (f : A → B) (g : B → A) (c : Codec B) `{!CodecOk c}
    (Hgf : ∀ a, g (f a) = a) : CodecOk (iso_codec f g c).
Proof.
  refine {| valid a := valid c (f a); wire a := wire c (f a) |}.
  - intros ? ? ? a b Ha. by apply (encode_wire (c := c)).
  - intros a rest Ha. cbn [iso_codec decode]. rewrite bind_decode by done. by rewrite Hgf.
Defined.

Definition iso_tail {A B} (f : A → B) (g : B → A) (c : Codec B) `{!TailCodec c}
    (Hgf : ∀ a, g (f a) = a) : TailCodec (iso_codec f g c).
Proof.
  refine {| tvalid a := tvalid c (f a); twire a := twire c (f a) |}.
  - intros ? ? ? a b Ha. by apply (tencode_wire (c := c)).
  - intros a Ha. cbn [iso_codec decode]. rewrite bind_decode_tail by done. by rewrite Hgf.
Defined.

Lemma variant_spec `{LawfulBuffer B} index (fields : M B unit) w (b : B) :
  (∀ b, fields b ≈ extend_from_slice w b) →
  variant index fields b ≈ extend_from_slice (index :: w) b.
Proof.
  intros Hf. unfold variant. change (index :: w) with ([index] ++ w).
  apply bind_extend; [by rewrite push_extend|done].
Qed.

Definition unit_enum_ok {A} (index : A → Z) (of_index : Z → option A)
    (Hi : ∀ a, of_index (index a) = Some a) : CodecOk (unit_enum_codec index of_index).
Proof.
  refine {| valid (_ : A) := True; wire a := [index a] |}.
  - intros ? ? ? a b _. apply variant_spec. intros b'. by rewrite extend_nil.
  - intros a rest _. simpl. by rewrite Hi.
Defined.

(** *** Hash maps *)

Section hash_map_ok.
Context {K V : Type} `{Countable K}.
Context (order : gmap K V → list (K * V)) (order_perm : ∀ m, order m ≡ₚ map_to_list m).
Context (ck : Codec K) (cv : Codec V) `{!CodecOk ck, !CodecOk cv}.
Implicit Types (m : gmap K V) (l : list (K * V)).

Lemma decode_entries_spec l (s : gmap K V) rest :
  Forall (valid (pair_codec ck cv)) l →
  decode_entries ck cv (length l) s (concat (map (wire (pair_codec ck cv)) l) ++ rest) =
    (Some (foldl (λ s kv, <[kv.1:=kv.2]> s) s l), rest).
Proof.
  intros Hl. revert s. induction Hl as [|[k v] l [Hk Hv] _ IH]; intros s; simpl; [done|].
  rewrite <-!(assoc_L _), (bind_decode ck), (bind_decode cv) by done. apply IH.
Qed.

Lemma foldl_insert_lookup l (s : gmap K V) k :
  NoDup l.*1 →
  foldl (λ s kv, <[kv.1:=kv.2]> s) s l !! k =
    match (list_to_map l : gmap K V) !! k with Some v => Some v | None => s !! k end.
Proof.
  revert s. induction l as [|[k' v'] l IH]; intros s Hnd; simpl; [done|].
  inversion Hnd as [|? ? Hk' Hnd']; subst. simpl in Hk'. rewrite IH by done.
  destruct (decide (k = k')) as [->|Hne].
  - rewrite not_elem_of_list_to_map_1 by done. by rewrite !lookup_insert_eq.
  - by rewrite !lookup_insert_ne by done.
Qed.

Lemma order_fst_nodup m : NoDup (order m).*1.
Proof. rewrite (order_perm m). apply NoDup_fst_map_to_list. Qed.

Lemma foldl_insert_order m : foldl (λ s kv, <[kv.1:=kv.2]> s) ∅ (order m) = m.
Proof.
  apply map_eq; intros k. rewrite foldl_insert_lookup by apply order_fst_nodup.
  rewrite (list_to_map_proper (M := gmap K) (order m) (map_to_list m)) by (apply order_fst_nodup || done).
  rewrite list_to_map_to_list, lookup_empty. by destruct (m !! k).
Qed.

Lemma length_order m : length (order m) = size m.
Proof. by rewrite (order_perm m), length_map_to_list. Qed.

Context `{!NonEmptyWire ck, !NonEmptyWire cv}.

Lemma entries_wire_length l :
  Forall (valid (pair_codec ck cv)) l →
  (length l * 2 ≤ length (concat (map (wire (pair_codec ck cv)) l)))%nat.
Proof.
  induction 1 as [|[k v] l [Hk Hv] _ IH]; simpl; [done|]. rewrite !length_app.
  pose proof (wire_nonempty k Hk). pose proof (wire_nonempty v Hv). simpl in *. lia.
Qed.

#[global] Instance hash_map_ok : CodecOk (hash_map_codec order ck cv).
Proof.
  refine {| valid m := fits 64 (Z.of_nat (size m) * 2) ∧
                       map_Forall (λ k v, valid ck k ∧ valid cv v) m;
            wire m := wire usize_codec (size m) ++
                      concat (map (wire (pair_codec ck cv)) (order m)) |}.
  all: assert (Hall : ∀ m, map_Forall (λ k v, valid ck k ∧ valid cv v) m →
                           Forall (valid (pair_codec ck cv)) (order m)).
  1,3: intros m Hm; rewrite (order_perm m); apply map_Forall_to_list in Hm;
       eapply Forall_impl; [exact Hm|]; by intros [].
  - intros B ? ? m b [Hn Hm]. apply bind_extend; [|intros; by apply encode_all_spec; auto].
    apply (encode_wire (c := usize_codec)). unfold fits in Hn. simpl. unfold fits. lia.
  - intros m rest [Hn Hm]. cbn [hash_map_codec decode]. unfold fits in Hn.
    rewrite <-(assoc_L _), (bind_decode usize_codec) by (simpl; unfold fits; lia).
    rewrite bind_mget. pose proof (entries_wire_length _ (Hall m Hm)) as Hlen.
    rewrite length_order in Hlen. rewrite wrap_small by done.
    rewrite decide_False by (rewrite length_app; lia).
    rewrite <-(length_order m), decode_entries_spec by auto.
    by rewrite foldl_insert_order.
Defined.
End hash_map_ok.

(** ** Properties *)

Lemma encode_vec {A} (c : Codec A) `{!TailCodec c} a b :
  tvalid c a → encode c (B := bytes) a b = (Some tt, b ++ twire c a).
Proof. intros Ha. eapply same_run_some; [by apply (tencode_wire (B := bytes))|done]. Qed.

Lemma encode_slice {A} (c : Codec A) `{!TailCodec c} a (b : SliceMut) :
  tvalid c a → encode c a b ≈ extend_from_slice (twire c a) b.
Proof. intros Ha. by apply (tencode_wire (c := c)). Qed.

Lemma slice_run (r : option unit * SliceMut) w room :
  r ≈ extend_from_slice w {| filled := []; room := room |} →
  if decide (length w ≤ length room)%nat
  then r = (Some tt, {| filled := w; room := drop (length w) room |}) else fst r = None.
Proof. simpl. case_decide; intros Hr; [by eapply same_run_some|apply Hr]. Qed.

Lemma to_bytes_twire {A} (c : Codec A) `{!TailCodec c} a :
  tvalid c a → to_bytes c a = Some (twire c a).
Proof. intros Ha. unfold to_bytes. by rewrite (encode_vec c). Qed.

Lemma to_packet_twire {A} (c : Codec A) `{!TailCodec c} a :
  tvalid c a → to_packet c a = Some (encode_len (length (twire c a)) ++ twire c a).
Proof.
  intros Ha. unfold to_packet. rewrite (encode_vec c) by done. repeat f_equal.
  rewrite length_app. simpl. lia.
Qed.

Lemma encode_len_length len : length (encode_len len) = 2%nat.
Proof. done. Qed.

Lemma decode_encode_len len : Z.of_nat len < 65536 → decode_len (encode_len len) = len.
Proof.
  intros Hl. unfold encode_len, decode_len. rewrite wrap_small by (unfold fits; lia).
  rewrite Z.shiftr_div_pow2, Z.shiftl_mul_pow2, land_255 by lia.
  rewrite Z.lor_comm, lor_disjoint by (try apply Z.mod_pos_bound; lia).
  change (2 ^ 8) with 256. rewrite (Z.mul_comm (_ / _)), Z.add_comm, <-Z.div_mod by lia.
  apply Nat2Z.id.
Qed.

Lemma encode_decode_len b :
  length b = 2%nat → Forall (fits 8) b →
  encode_len (decode_len b) = b ∧ Z.of_nat (decode_len b) < 65536.
Proof.
  destruct b as [|h [|l [|? ?]]]; try done. intros _ Hb.
  apply Forall_cons in Hb as [Hh Hb]. apply Forall_cons in Hb as [Hl _].
  unfold fits in *. change (2 ^ 8) with 256 in *. unfold encode_len, decode_len.
  rewrite Z.shiftl_mul_pow2, Z.lor_comm, lor_disjoint by lia. change (2 ^ 8) with 256.
  rewrite Z2Nat.id by lia. split; [|lia]. rewrite wrap_small by (unfold fits; lia).
  rewrite Z.shiftr_div_pow2, land_255 by lia. change (2 ^ 8) with 256.
  rewrite Z.div_add, Z.mod_add, Z.div_small, Z.mod_small by lia. done.
Qed.

Lemma encode_len_bytes n : Forall (fits 8) (encode_len n).
Proof.
  unfold encode_len. pose proof (wrap_fits 16 (Z.of_nat n) ltac:(lia)) as H. unfold fits in H.
  rewrite Z.shiftr_div_pow2, land_255 by lia. repeat constructor; unfold fits.
  - apply Z.div_pos; lia.
  - apply Z.div_lt_upper_bound; lia.
  - apply Z.mod_pos_bound; lia.
  - change (2 ^ 8) with 256. apply Z.mod_pos_bound; lia.
Qed.

(** A byte string behind its length: the shape of packets and mails. *)
Definition len_frame (m : bytes) : bytes := encode_len (length m) ++ m.

Lemma base128_loop_inv bs value shift adv :
  fits 64 value → Forall (fits 8) bs →
  match base128_decode_loop value shift adv bs with
  | Some (v, n) =>
      fits 64 v ∧ ∃ init last rest, bs = init ++ last :: rest ∧ n = S (adv + length init) ∧
        Forall (λ b, 128 ≤ b) init ∧ last < 128
  | None => Forall (λ b, 128 ≤ b) bs
  end.
Proof.
  intros Hv Hbs. revert value shift adv Hv.
  induction Hbs as [|b bs Hb Hbs IH]; intros value shift adv Hv; simpl; [done|].
  assert (fits 64 (Z.lor value (wrap 64 (Z.shiftl (Z.land b 127) shift)))) as Hv'
    by auto with orion lia.
  case_decide as Hc; rewrite land_128_byte in Hc by done.
  - split; [done|]. exists [], b, bs. repeat split; [simpl; lia|constructor|done].
  - specialize (IH _ (shift + 7) (S adv) Hv').
    destruct (base128_decode_loop _ _ _ bs) as [[v n]|]; [|constructor; [lia|done]].
    destruct IH as (H1 & init & last & rest & -> & -> & H4 & H5).
    split; [done|]. exists (b :: init), last, rest.
    repeat split; [simpl; lia|constructor; [lia|done]|done].
Qed.

(** A 64-bit integer is written in one to ten bytes, and the decoder reads the integer
    back from those bytes whatever follows them. *)
Theorem base128_roundtrip v rest :
  fits 64 v →
  ∃ bs, base128_encode (B := bytes) v [] = (Some tt, bs) ∧ (1 ≤ length bs ≤ 10)%nat ∧
    Forall (fits 8) bs ∧ base128_decode (bs ++ rest) = (Some v, rest).
Proof.
  intros Hv. exists (b128 10 v). split.
  - eapply same_run_some; [apply (base128_encode_spec (B := bytes)); [lia|]|done].
    unfold fits in Hv. simpl in *. lia.
  - split; [split; [apply b128_nonempty|apply b128_length]|].
    split; [apply b128_bytes; unfold fits in Hv; lia|by apply base128_decode_wire].
Qed.

Lemma base128_roundtrip_witness :
  fits 64 300 ∧ ∃ bs, base128_encode (B := bytes) 300 [] = (Some tt, bs) ∧
    (1 ≤ length bs ≤ 10)%nat ∧ Forall (fits 8) bs ∧ base128_decode (bs ++ [7]) = (Some 300, [7]).
Proof. split; [done|]. by apply (base128_roundtrip 300 [7]). Defined.

(** On any bytes the integer decoder either returns a 64-bit value and consumes exactly
    the bytes up to the first one without the continuation bit, at most ten, or fails with
    the buffer untouched because the first ten bytes all have that bit. *)
Theorem base128_decode_total (buffer : bytes) :
  Forall (fits 8) buffer →
  match base128_decode buffer with
  | (Some v, after) =>
      fits 64 v ∧ ∃ init last, buffer = init ++ last :: after ∧ (length init < 10)%nat ∧
        Forall (λ b, 128 ≤ b) init ∧ last < 128
  | (None, after) => after = buffer ∧ Forall (λ b, 128 ≤ b) (take 10 buffer)
  end.
Proof.
  intros Hb. unfold base128_decode.
  pose proof (base128_loop_inv (take 10 buffer) 0 0 0 ltac:(done) (Forall_take _ _ _ Hb)) as Hl.
  destruct (base128_decode_loop 0 0 0 (take 10 buffer)) as [[v n]|]; [|done].
  destruct Hl as (Hv & init & last & rest & Ht & -> & Hi & Hla). split; [done|].
  assert (length init < 10)%nat.
  { apply (f_equal length) in Ht. rewrite length_take, length_app in Ht. cbn [length] in Ht. lia. }
  exists init, last. split; [|done].
  rewrite <-(take_drop 10 buffer) at 1 2. rewrite Ht.
  replace (S (0 + length init)) with (length (init ++ [last])) by (rewrite length_app; simpl; lia).
  rewrite cons_middle, !(assoc_L _). rewrite <-!(assoc_L _). rewrite (assoc_L _ init [last]).
  by rewrite drop_app_length, <-!(assoc_L _).
Qed.

Lemma base128_decode_total_witness :
  base128_decode [128; 1; 9] = (Some 128, [9]) ∧
  ∃ init last, [128; 1; 9] = init ++ [last; 9] ∧ (length init < 10)%nat ∧
    Forall (λ b, 128 ≤ b) init ∧ last < 128.
Proof.
  split; [reflexivity|].
  exact (proj2 (base128_decode_total [128; 1; 9] ltac:(decided))).
Defined.

(** A hash map of lawful keys and values, in whatever order its hasher iterates, is read
    back from its encoding and leaves what follows; writing it to a [&mut [u8]] gives the same
    bytes when they fit the slice and fails otherwise. *)
Theorem hash_map_roundtrip {K V} `{Countable K} (order : gmap K V → list (K * V))
    (ck : Codec K) (cv : Codec V) `{!CodecOk ck, !CodecOk cv, !NonEmptyWire ck, !NonEmptyWire cv}
    (m : gmap K V) (rest room : bytes) :
  (∀ m, order m ≡ₚ map_to_list m) →
  fits 64 (Z.of_nat (size m) * 2) →
  map_Forall (λ k v, valid ck k ∧ valid cv v) m →
  ∃ bs, to_bytes (hash_map_codec order ck cv) m = Some bs ∧
    decode (hash_map_codec order ck cv) (bs ++ rest) = (Some m, rest) ∧
    if decide (length bs ≤ length room)%nat
    then encode (hash_map_codec order ck cv) m {| filled := []; room := room |} =
           (Some tt, {| filled := bs; room := drop (length bs) room |})
    else fst (encode (hash_map_codec order ck cv) m {| filled := []; room := room |}) = None.
Proof.
  intros Ho Hn Hm. pose (I := hash_map_ok order Ho ck cv).
  assert (Hv : valid (hash_map_codec order ck cv) m) by done.
  exists (wire (hash_map_codec order ck cv) m).
  split; [exact (to_bytes_twire (hash_map_codec order ck cv) m Hv)|].
  split; [exact (decode_wire m rest Hv)|].
  apply slice_run. exact (encode_slice (hash_map_codec order ck cv) m _ Hv).
Qed.

Lemma hash_map_roundtrip_witness :
  let c := hash_map_codec (K := Z) map_to_list u16_codec bool_codec in
  ∃ bs, to_bytes c {[7 := true; 300 := false]} = Some bs ∧
    decode c (bs ++ [9]) = (Some {[7 := true; 300 := false]}, [9]) ∧
    if decide (length bs ≤ length [0; 0; 0])%nat
    then encode c {[7 := true; 300 := false]} {| filled := []; room := [0; 0; 0] |} =
           (Some tt, {| filled := bs; room := drop (length bs) [0; 0; 0] |})
    else fst (encode c {[7 := true; 300 := false]} {| filled := []; room := [0; 0; 0] |}) = None.
Proof.
  apply (hash_map_roundtrip map_to_list u16_codec bool_codec {[7 := true; 300 := false]}
           [9] [0; 0; 0]); [done|decided|].
  apply map_Forall_insert_2; [split; [split; decided|done]|].
  apply map_Forall_singleton. split; [split; decided|done].
Defined.

(** A packet is the value's encoding behind its two-byte length: reading a stream that
    starts with the packet gives the value and leaves the stream right after it, as long as
    the encoding is shorter than 2^16 bytes. *)
Theorem packet_roundtrip {A} (c : Codec A) `{!TailCodec c} (a : A) (rest : bytes) :
  tvalid c a → Z.of_nat (length (twire c a)) < 65536 →
  ∃ p, to_packet c a = Some p ∧ length p = (PACKET_LEN_WIDTH + length (twire c a))%nat ∧
    from_stream c (p ++ rest) = (Ok a, rest).
Proof.
  intros Ha Hl. exists (encode_len (length (twire c a)) ++ twire c a).
  split; [by apply to_packet_twire|]. split; [done|].
  unfold from_stream. rewrite decide_False by (rewrite !length_app, encode_len_length; lia).
  rewrite <-(assoc_L _). rewrite (take_app_length' (encode_len _)) by done.
  rewrite (drop_app_length' (encode_len _)) by done.
  rewrite decode_encode_len by done.
  rewrite decide_False by (rewrite length_app; lia).
  by rewrite take_app_length, drop_app_length, tdecode_wire.
Qed.

Lemma packet_roundtrip_witness :
  tvalid (pair_codec u64_codec reminder_codec) (5, [1; 2; 3]) ∧
  ∃ p, to_packet (pair_codec u64_codec reminder_codec) (5, [1; 2; 3]) = Some p ∧
    length p = 6%nat ∧
    from_stream (pair_codec u64_codec reminder_codec) (p ++ [8; 8]) = (Ok (5, [1; 2; 3]), [8; 8]).
Proof.
  split; [split; [split; decided|done]|].
  refine (packet_roundtrip (pair_codec u64_codec reminder_codec) (5, [1; 2; 3]) [8; 8] _ _).
  - split; [split; decided|done].
  - decided.
Defined.

(** A vector of values that take no bytes is encoded but is never read back: the decoder
    rejects a length greater than the bytes that are left. *)
Theorem vec_zero_sized_rejected (n : nat) :
  (0 < n)%nat → fits 64 (Z.of_nat n) →
  ∃ bs, to_bytes (vec_codec unit_codec) (replicate n tt) = Some bs ∧
    decode (vec_codec unit_codec) bs = (None, []).
Proof.
  intros Hn Hf. exists (wire usize_codec n). split.
  - unfold to_bytes. cbn [vec_codec encode]. rewrite length_replicate.
    erewrite bind_ok by (eapply (encode_vec usize_codec); done).
    assert (∀ n b, encode_all (B := bytes) unit_codec (replicate n tt) b = (Some tt, b)) as ->; [|done].
    intros k b. induction k as [|k IH]; [done|]. apply IH.
  - cbn [vec_codec decode]. rewrite <-(app_nil_r (wire usize_codec n)).
    rewrite bind_decode, bind_mget by done. by rewrite decide_True by done.
Qed.

Lemma vec_zero_sized_rejected_witness :
  ∃ bs, to_bytes (vec_codec unit_codec) (replicate 2 tt) = Some bs ∧
    decode (vec_codec unit_codec) bs = (None, []).
Proof. apply (vec_zero_sized_rejected 2); [lia|decided]. Defined.
