(* ===== verification/Messages.v ===== *)
(** Message blocks and mailboxes: [core/chat-spec/src/chat.rs] and
    [core/chat-spec/src/profile.rs].

    A block holds its messages back to front: every message is followed by its big-endian
    two-byte length, so that a reader starts at the end of the block. A mailbox is the other
    way around, each mail behind its length. The pointers of [retain_messages] are offsets
    into the buffer, its [ptr::copy] is [ptr_copy]. *)

From S2P Require Import Prelude Codec.

(** ** Definitions *)

(* one call of the iterator of unpack_messages and unpack_messages_ref *)
Definition unpack_next : M bytes bytes := λ buffer,
  if decide (length buffer < 2)%nat then (None, buffer)
  else
    let len := decode_len (drop (length buffer - 2) buffer) in
    let buffer := take (length buffer - 2) buffer in
    if decide (length buffer < len)%nat then (None, buffer)
    else (Some (drop (length buffer - len) buffer), take (length buffer - len) buffer).

(* the iterator run until its first None: every message shortens the buffer *)
Fixpoint unpack_loop (fuel : nat) (buffer : bytes) : list bytes :=
  match fuel with
  | O => []
  | S fuel =>
      match unpack_next buffer with
      | (Some msg, buffer) => msg :: unpack_loop fuel buffer
      | (None, _) => []
      end
  end.

Definition unpack_messages (buffer : bytes) : list bytes := unpack_loop (S (length buffer)) buffer.

(** [std::ptr::copy] of [len] bytes inside one buffer. *)
Definition ptr_copy (buffer : bytes) (src dst len : nat) : bytes :=
  take dst buffer ++ take len (drop src buffer) ++ drop (dst + len) buffer.

Definition move_mem (buffer : bytes) (hole_end cursor write_cursor len : nat) : bytes * nat :=
  if decide (hole_end = cursor) then (buffer, write_cursor)
  else
    let write_len := (hole_end - cursor - len)%nat in
    let buffer :=
      if decide (hole_end = write_cursor) then buffer
      else ptr_copy buffer (hole_end - write_len) (write_cursor - write_len) write_len in
    (buffer, write_cursor - write_len)%nat.

Section retain.
(** The predicate sees a message in place and may rewrite it, never resize it. *)
Variable predicate : bytes → bytes * bool.

Fixpoint retain_loop (fuel : nat) (buffer : bytes) (write_cursor cursor hole_end : nat) :
    bytes * nat :=
  match fuel with
  | O => (buffer, write_cursor)
  | S fuel =>
      if decide (cursor < 2)%nat then move_mem buffer hole_end cursor write_cursor 0
      else
        let len := decode_len (take 2 (drop (cursor - 2) buffer)) in
        if decide (cursor < len + 2)%nat then move_mem buffer hole_end cursor write_cursor 0
        else
          let cursor := (cursor - (len + 2))%nat in
          let (slice, keep) := predicate (take len (drop cursor buffer)) in
          let buffer := take cursor buffer ++ slice ++ drop (cursor + len) buffer in
          if (keep : bool) then retain_loop fuel buffer write_cursor cursor hole_end
          else
            let (buffer, write_cursor) :=
              move_mem buffer hole_end cursor write_cursor (len + 2) in
            retain_loop fuel buffer write_cursor cursor cursor
  end.

(* the buffer afterwards and where the kept region starts *)
Definition retain_messages (buffer : bytes) : bytes * nat :=
  let end_ := length buffer in
  retain_loop (S (length buffer)) buffer end_ end_ end_.

Definition retain_messages_in_vec (buffer : bytes) : bytes :=
  let (buffer, start) := retain_messages buffer in
  let len := length (drop start buffer) in
  drop (length buffer - len) buffer.
End retain.

(* unpack_mail: one call, and the iterator *)
Definition unpack_mail_next : M bytes bytes := λ buffer,
  if decide (length buffer < 2)%nat then (None, buffer)
  else
    let len := decode_len (take 2 buffer) in
    let buffer := drop 2 buffer in
    if decide (length buffer < len)%nat then (None, buffer)
    else (Some (take len buffer), drop len buffer).

Fixpoint unpack_mail_loop (fuel : nat) (buffer : bytes) : list bytes :=
  match fuel with
  | O => []
  | S fuel =>
      match unpack_mail_next buffer with
      | (Some mail, buffer) => mail :: unpack_mail_loop fuel buffer
      | (None, _) => []
      end
  end.

Definition unpack_mail (buffer : bytes) : list bytes :=
  unpack_mail_loop (S (length buffer)) buffer.

(* Profile::push_mail on the field mail *)
Definition push_mail (mail content : bytes) : bytes :=
  mail ++ encode_len (length content) ++ content.

(** ** Fixed-size names *)

(* name.iter().rposition(|&b| b != filler).map_or(0, |i| i + 1) *)
Fixpoint trimmed_len (filler : u8) (name : bytes) : nat :=
  match name with
  | [] => 0
  | b :: name =>
      match trimmed_len filler name with
      | O => if decide (b = filler) then 0 else 1
      | S n => S (S n)
      end
  end%nat.

(* arr[..u.len()].copy_from_slice(u.as_bytes()) into [filler; size] *)
Definition padded (filler : u8) (size : nat) (u : bytes) : bytes :=
  u ++ replicate (size - length u) filler.

Definition USER_NAME_CAP : nat := 32.
Definition username_to_raw (u : bytes) : bytes := padded 0 USER_NAME_CAP u.
Definition username_from_raw (name : bytes) : option bytes :=
  let name := take (trimmed_len 0 name) name in
  if utf8_ok name then if decide (length name ≤ 32)%nat then Some name else None else None.

Definition arrstr_to_array (SIZE : nat) (s : bytes) : bytes := padded 255 SIZE s.
Definition array_to_arrstr (SIZE : nat) (arr : bytes) : option bytes :=
  let s := take (trimmed_len 255 arr) arr in
  if utf8_ok s then Some s else None.

(* advance_nonce: the answer and the nonce afterwards *)
Definition advance_nonce (current new : Z) : bool * Z :=
  let valid := bool_decide (new > current) in
  (valid, if valid then new else current).

(** ** Frames *)

Definition frame (m : bytes) : bytes := m ++ encode_len (length m).
Definition is_message (m : bytes) : Prop := Z.of_nat (length m) < 65536 ∧ Forall (fits 8) m.

Lemma unpack_next_frame rest m :
  Z.of_nat (length m) < 65536 → unpack_next (rest ++ frame m) = (Some m, rest).
Proof.
  intros Hm. unfold unpack_next, frame. rewrite (assoc_L _).
  rewrite decide_False by (rewrite !length_app, encode_len_length; lia).
  rewrite drop_app_n, take_app_n by (rewrite !length_app, encode_len_length; lia).
  rewrite decode_encode_len by done. rewrite decide_False by (rewrite length_app; lia).
  rewrite drop_app_n, take_app_n by (rewrite length_app; lia). done.
Qed.

Lemma unpack_next_inv buffer m rest :
  Forall (fits 8) buffer → unpack_next buffer = (Some m, rest) →
  buffer = rest ++ frame m ∧ is_message m.
Proof.
  intros Hb. unfold unpack_next. case_decide as H2; [done|]. case_decide as Hl; [done|].
  intros Heq. simplify_eq.
  set (n := (length buffer - 2)%nat) in *. rewrite length_take_le in * by lia.
  destruct (encode_decode_len (drop n buffer)) as [He Hn];
    [rewrite length_drop; lia|by apply Forall_drop|].
  set (len := decode_len (drop n buffer)) in *.
  assert (length (drop (n - len) (take n buffer)) = len) as Hlen
    by (rewrite length_drop, length_take_le by lia; lia).
  split; [|split; [lia|by apply Forall_drop, Forall_take]].
  unfold frame. rewrite Hlen, He, (assoc_L _), (take_drop (n - len)).
  by rewrite take_drop.
Qed.

(** The retained form of the messages [ms], newest first. *)
Definition kept (predicate : bytes → bytes * bool) (ms : list bytes) : bytes :=
  concat (map frame (rev (omap (λ m, let (m', keep) := predicate m in
                                     if (keep : bool) then Some m' else None) ms))).

Lemma kept_cons predicate m ms :
  kept predicate (m :: ms) =
    kept predicate ms ++ (let (m', keep) := predicate m in if keep then frame m' else []).
Proof.
  unfold kept. cbn [omap list_omap]. destruct (predicate m) as [m' []].
  - cbn [rev]. by rewrite map_app, concat_app; simpl; rewrite app_nil_r.
  - by rewrite app_nil_r.
Qed.

(** ** Moving the kept messages *)

Lemma ptr_copy_shift (X P G R : bytes) :
  ∃ G', length G' = length G ∧
    ptr_copy (X ++ P ++ G ++ R) (length X) (length X + length G) (length P) = X ++ G' ++ P ++ R.
Proof.
  exists (take (length G) (P ++ G)). split; [rewrite length_take_le; rewrite ?length_app; lia|].
  unfold ptr_copy. rewrite take_app_add, (drop_app_n X _ (length X)), (take_app_n P _ (length P)) by done.
  rewrite (assoc_L (++) P G R), (assoc_L (++) X (P ++ G) R).
  rewrite take_app_le by (rewrite length_app; lia).
  rewrite (drop_app_n (X ++ P ++ G)) by (rewrite !length_app; lia). by rewrite <-(assoc_L (++)).
Qed.

(** [bad] is the rejected message, [P] the kept ones before the hole [G], [R] the result. *)
Lemma move_mem_spec (A bad P G R : bytes) :
  ∃ G', length G' = length G ∧
    move_mem (A ++ bad ++ P ++ G ++ R) (length A + length bad + length P) (length A)
             (length A + length bad + length P + length G) (length bad) =
      (A ++ bad ++ G' ++ P ++ R, length A + length bad + length G)%nat.
Proof.
  unfold move_mem. case_decide as H0.
  - exists G. split; [done|]. destruct bad; [|simpl in *; lia]. destruct P; [|simpl in *; lia].
    simpl. f_equal. lia.
  - replace (length A + length bad + length P - length A - length bad)%nat
      with (length P) by lia.
    case_decide as Hg.
    + destruct G; [|simpl in *; lia]. exists []. split; [done|]. simpl. f_equal. lia.
    + destruct (ptr_copy_shift (A ++ bad) P G R) as (G' & Hl & HG).
      exists G'. split; [done|]. rewrite length_app, <-!(assoc_L _) in HG. f_equal; [|lia].
      rewrite <-HG. f_equal; lia.
Qed.

(** [unpack_next] read through the larger buffer the block is the front of. *)
Lemma unpack_next_in (A X : bytes) :
  unpack_next A =
    if decide (length A < 2)%nat then (None, A)
    else let len := decode_len (take 2 (drop (length A - 2) (A ++ X))) in
         if decide (length A < len + 2)%nat then (None, take (length A - 2) A)
         else (Some (take len (drop (length A - (len + 2)) (A ++ X))),
               take (length A - (len + 2)) A).
Proof.
  unfold unpack_next. case_decide as H2; [done|]. cbn zeta.
  rewrite (drop_app_le A X) by lia. rewrite take_app_le by (rewrite length_drop; lia).
  rewrite (take_ge (drop (length A - 2) A)) by (rewrite length_drop; lia).
  set (len := decode_len _). rewrite length_take_le by lia.
  destruct (decide (length A < len + 2)%nat).
  - by rewrite decide_True by lia.
  - rewrite decide_False by lia. rewrite (drop_app_le A X) by lia.
    rewrite take_app_le by (rewrite length_drop; lia).
    rewrite take_take, Nat.min_l by lia.
    replace (length A - 2 - len)%nat with (length A - (len + 2))%nat by lia.
    do 2 f_equal. rewrite skipn_firstn_comm. f_equal; lia.
Qed.

Lemma retain_loop_spec predicate fuel (A P G R : bytes) :
  (∀ m, length (fst (predicate m)) = length m) →
  (length A < fuel)%nat → Forall (fits 8) A →
  let '(buffer', start) :=
    retain_loop predicate fuel (A ++ P ++ G ++ R)
      (length A + length P + length G) (length A) (length A + length P) in
  length buffer' = length (A ++ P ++ G ++ R) ∧
  drop start buffer' = kept predicate (unpack_loop fuel A) ++ P ++ R.
Proof.
  intros Hp. revert A P G R. induction fuel as [|fuel IH]; intros A P G R Hf HA; [lia|].
  cbn [retain_loop unpack_loop].
  pose proof (unpack_next_in A (P ++ G ++ R)) as Hu.
  assert (Hstop : let '(buffer', start) :=
      move_mem (A ++ P ++ G ++ R) (length A + length P) (length A)
        (length A + length P + length G) 0 in
      length buffer' = length (A ++ P ++ G ++ R) ∧ drop start buffer' = P ++ R).
  { destruct (move_mem_spec A [] P G R) as (G' & Hl & HG). simpl in HG.
    rewrite Nat.add_0_r in HG. rewrite HG. rewrite !length_app. split; [lia|].
    rewrite (assoc_L _ A). apply drop_app_n. rewrite length_app. lia. }
  case_decide as H2; [by rewrite Hu|]. cbn zeta in Hu.
  set (len := decode_len _) in *. case_decide as Hl; [by rewrite Hu|].
  set (m := take len (drop (length A - (len + 2)) (A ++ P ++ G ++ R))) in *.
  rewrite Hu, kept_cons. set (A' := take (length A - (len + 2)) A) in *.
  apply unpack_next_inv in Hu as [HAe Hm]; [|done].
  assert (length A' = length A - (len + 2))%nat as HA' by (unfold A'; rewrite length_take_le; lia).
  assert (length m = len) as Hml.
  { apply (f_equal length) in HAe. unfold frame in HAe.
    rewrite !length_app, encode_len_length in HAe. lia. }
  rewrite <-HA'. specialize (Hp m). destruct (predicate m) as [m' keep]; simpl in Hp.
  assert (take (length A') (A ++ P ++ G ++ R) ++ m' ++ drop (length A' + len) (A ++ P ++ G ++ R) =
          A' ++ frame m' ++ P ++ G ++ R) as ->.
  { rewrite HAe at 1 2. unfold frame. rewrite <-!(assoc_L _), take_app_n by done.
    rewrite (assoc_L _ A' m), drop_app_n by (rewrite length_app; lia).
    by rewrite Hp. }
  assert (length (frame m') = len + 2)%nat as Hfl
    by (unfold frame; rewrite length_app, encode_len_length; lia).
  assert (Forall (fits 8) A') as HF' by by apply Forall_take.
  assert (length A = length A' + length (frame m'))%nat as HAl by lia.
  destruct keep.
  - pose proof (IH A' (frame m' ++ P) G R ltac:(lia) HF') as Hk.
    replace (length A + length P)%nat with (length A' + length (frame m' ++ P))%nat
      by (rewrite length_app; lia).
    rewrite <-(assoc_L (++) (frame m')) in Hk.
    destruct (retain_loop _ _ _ _ _ _) as [b' st]. destruct Hk as [H1 ->].
    split; [rewrite H1, !length_app; lia|]. by rewrite <-!(assoc_L (++)).
  - destruct (move_mem_spec A' (frame m') P G R) as (G' & HGl & HG). rewrite Hfl in HG.
    replace (length A + length P)%nat with (length A' + (len + 2) + length P)%nat by lia.
    rewrite HG.
    pose proof (IH A' [] (frame m' ++ G') (P ++ R) ltac:(lia) HF') as Hk.
    rewrite <-(assoc_L (++) (frame m')) in Hk. simpl in Hk.
    rewrite length_app, Hfl, HGl, Nat.add_0_r, Nat.add_assoc in Hk.
    destruct (retain_loop _ _ _ _ _ _) as [b' st]. destruct Hk as [H1 ->].
    split; [rewrite H1, !length_app; lia|]. by rewrite app_nil_r.
Qed.

Lemma retain_spec (predicate : bytes → bytes * bool) (buffer : bytes) :
  (∀ m, length (fst (predicate m)) = length m) → Forall (fits 8) buffer →
  length (fst (retain_messages predicate buffer)) = length buffer ∧
  retain_messages_in_vec predicate buffer = kept predicate (unpack_messages buffer).
Proof.
  intros Hp Hb. unfold retain_messages_in_vec, retain_messages.
  pose proof (retain_loop_spec predicate (S (length buffer)) buffer [] [] [] Hp
                ltac:(lia) Hb) as Hr.
  cbn [app length] in Hr. rewrite app_nil_r, !Nat.add_0_r in Hr.
  destruct (retain_loop _ _ _ _ _ _) as [b' st]. destruct Hr as [Hl Hd].
  rewrite app_nil_r in Hd. split; [done|]. fold (kept predicate (unpack_messages buffer)).
  unfold unpack_messages. rewrite <-Hd.
  destruct (decide (st ≤ length b')%nat).
  - f_equal. rewrite length_drop. lia.
  - rewrite (drop_ge b' st) by lia. apply drop_ge. simpl. lia.
Qed.

(** The inputs and outputs of the source's own test of [retain_messages]. *)
Example retain_messages_tests :
  let keep_zeros := λ m : bytes, (m, forallb (Z.eqb 0) m) in
  map (retain_messages_in_vec keep_zeros)
    [[]; [0]; [0; 0]; [0; 0; 0; 0]; [0; 1; 0; 2; 0; 0]; [0; 0; 1; 0; 0; 4; 0; 0; 0; 2];
     [0; 0; 1; 0; 0; 4; 0; 0; 0; 2; 1; 0; 1]; [1; 0; 1; 1; 0; 1; 0; 0; 1; 0; 1]; [1; 0; 0];
     [0; 0; 0; 3]; [0; 0; 20]] =
    [[]; []; [0; 0]; [0; 0; 0; 0]; [0; 0]; [0; 0; 0; 2]; [0; 0; 0; 2]; [0; 0]; [0; 0]; []; []].
Proof. vm_compute. reflexivity. Qed.

(** ** Blocks and mailboxes *)

Lemma unpack_loop_fuel n k buffer :
  (length buffer < n)%nat → (length buffer < k)%nat → unpack_loop n buffer = unpack_loop k buffer.
Proof.
  revert k buffer. induction n as [|n IH]; intros [|k] buffer Hn Hk; try lia.
  cbn [unpack_loop]. pose proof (unpack_next_in buffer []) as Hu.
  destruct (unpack_next buffer) as [[m|] buffer'] eqn:E; [|done].
  assert (length buffer' + 2 ≤ length buffer)%nat; [|f_equal; apply IH; lia].
  clear E. case_decide; [done|]. cbn zeta in Hu. case_decide; [done|].
  injection Hu as _ ->. rewrite length_take. lia.
Qed.

Lemma unpack_messages_frame buffer m :
  Z.of_nat (length m) < 65536 →
  unpack_messages (buffer ++ frame m) = m :: unpack_messages buffer.
Proof.
  intros Hm. unfold unpack_messages at 1. cbn [unpack_loop]. rewrite unpack_next_frame by done.
  f_equal. apply unpack_loop_fuel; rewrite ?length_app; unfold frame; rewrite ?length_app, ?encode_len_length; lia.
Qed.

Lemma unpack_mail_next_frame m rest :
  Z.of_nat (length m) < 65536 → unpack_mail_next (len_frame m ++ rest) = (Some m, rest).
Proof.
  intros Hm. unfold unpack_mail_next, len_frame. rewrite <-(assoc_L (++)).
  rewrite decide_False by (rewrite length_app, encode_len_length; lia).
  rewrite (take_app_n (encode_len _)), (drop_app_n (encode_len _)) by done.
  rewrite decode_encode_len by done. rewrite decide_False by (rewrite length_app; lia).
  by rewrite take_app_length, drop_app_length.
Qed.

Lemma unpack_mail_loop_frames mails fuel :
  Forall (λ m, Z.of_nat (length m) < 65536) mails →
  (length (concat (map len_frame mails)) < fuel)%nat →
  unpack_mail_loop fuel (concat (map len_frame mails)) = mails.
Proof.
  intros Hm. revert fuel. induction Hm as [|m mails Hm _ IH]; intros [|fuel] Hf;
    try (simpl in *; lia); [done|].
  cbn [map concat unpack_mail_loop]. rewrite unpack_mail_next_frame by done. f_equal.
  apply IH. cbn [map concat] in Hf. unfold len_frame in Hf at 1.
  rewrite !length_app, encode_len_length in Hf. lia.
Qed.

Lemma foldl_push_mail mails mail :
  foldl push_mail mail mails = mail ++ concat (map len_frame mails).
Proof.
  revert mail. induction mails as [|m mails IH]; intros mail; simpl; [by rewrite app_nil_r|].
  rewrite IH. unfold push_mail, len_frame. by rewrite <-!(assoc_L (++)).
Qed.

(** ** Names *)

Lemma trimmed_len_le f name : (trimmed_len f name ≤ length name)%nat.
Proof. induction name as [|b name IH]; simpl; [done|]. repeat case_match; lia. Qed.

Lemma trimmed_len_fill f n : trimmed_len f (replicate n f) = 0%nat.
Proof. induction n as [|n IH]; simpl; [done|]. by rewrite IH, decide_True. Qed.

Lemma trimmed_len_padded f name n : trimmed_len f (name ++ replicate n f) = trimmed_len f name.
Proof. induction name as [|b name IH]; simpl; [apply trimmed_len_fill|]. by rewrite IH. Qed.

Lemma trimmed_len_full f name : last name ≠ Some f → trimmed_len f name = length name.
Proof.
  induction name as [|b name IH]; intros Hl; [done|].
  destruct name as [|c name]; [simpl in *; rewrite decide_False; congruence|].
  change (trimmed_len f (b :: c :: name)) with
    (match trimmed_len f (c :: name) with
     | O => if decide (b = f) then 0 else 1 | S n => S (S n) end)%nat.
  rewrite IH by done. done.
Qed.

Lemma padded_trimmed f size u :
  last u ≠ Some f → take (trimmed_len f (padded f size u)) (padded f size u) = u.
Proof.
  intros Hl. unfold padded. rewrite trimmed_len_padded, trimmed_len_full by done.
  apply take_app_length.
Qed.

Lemma cont_lt b : cont b = true → b < 255.
Proof. unfold cont. intros H%bool_decide_eq_true. lia. Qed.

Lemma utf8_ok_lt_255 bs : utf8_ok bs = true → Forall (λ b, b < 255) bs.
Proof.
  induction bs as [bs IH] using (induction_ltof1 _ (@length Z)); unfold ltof in IH.
  destruct bs as [|b0 t0]; [constructor|]; cbn [utf8_ok].
  repeat (case_bool_decide || match goal with |- context [match ?t with _ => _ end] => destruct t end);
    intros Hu; try discriminate;
    repeat match goal with H : _ && _ = true |- _ => apply andb_true_iff in H as [? ?] end;
    repeat match goal with H : bool_decide _ = true |- _ => apply bool_decide_eq_true in H
                      | H : cont _ = true |- _ => apply cont_lt in H end;
    repeat (constructor; [lia|]); apply IH; simpl; auto; lia.
Qed.

(** ** Properties *)

(** On any bytes, [retain_messages] keeps the buffer's length and leaves at its end exactly
    the messages the predicate accepts, as rewritten by it and in their original order; the
    bytes in front of the first well-framed message are dropped. *)
Theorem retain_messages_correct (predicate : bytes → bytes * bool) (buffer : bytes) :
  (∀ m, length (fst (predicate m)) = length m) → Forall (fits 8) buffer →
  length (fst (retain_messages predicate buffer)) = length buffer ∧
  retain_messages_in_vec predicate buffer =
    concat (map frame (rev (omap (λ m, let (m', keep) := predicate m in
                                       if (keep : bool) then Some m' else None)
                                 (unpack_messages buffer)))).
Proof.
  intros Hp Hb. by apply retain_spec.
Qed.

Lemma retain_messages_correct_witness :
  let p := λ m : bytes, (map (λ b, b + 1) m, bool_decide (length m = 1%nat)) in
  let buffer := [9; 5; 0; 1; 6; 7; 0; 2; 8; 0; 1] in
  length (fst (retain_messages p buffer)) = 11%nat ∧
  retain_messages_in_vec p buffer = [6; 0; 1; 9; 0; 1] ∧
  retain_messages_in_vec p buffer =
    concat (map frame (rev (omap (λ m, let (m', keep) := p m in
                                       if (keep : bool) then Some m' else None)
                                 (unpack_messages buffer)))).
Proof.
  intros p buffer.
  destruct (retain_messages_correct p buffer) as [H1 H2];
    [intros m; apply length_map|decided|].
  split; [exact H1|]. split; [reflexivity|exact H2].
Defined.

(** Messages appended to a block one after the other, each followed by its length, are
    unpacked newest first, and nothing else is unpacked before what the block held. *)
Theorem unpack_messages_append (block : bytes) (messages : list bytes) :
  Forall (λ m, Z.of_nat (length m) < 65536) messages →
  unpack_messages (foldl (λ b m, b ++ m ++ encode_len (length m)) block messages) =
    rev messages ++ unpack_messages block.
Proof.
  intros Hm. revert block. induction Hm as [|m ms Hm _ IH]; intros block; [done|].
  cbn [foldl rev]. rewrite IH. rewrite <-(assoc_L (++)). f_equal.
  by apply unpack_messages_frame.
Qed.

Lemma unpack_messages_append_witness :
  unpack_messages (foldl (λ b m, b ++ m ++ encode_len (length m)) [] [[1; 2]; []; [3]]) =
    [[3]; []; [1; 2]].
Proof. refine (unpack_messages_append [] [[1; 2]; []; [3]] _). decided. Defined.

(** The mailbox is a queue: pushing mails shorter than 2^16 bytes into an empty mailbox and
    unpacking it yields the mails in the order they were pushed. *)
Theorem mailbox_roundtrip (mails : list bytes) :
  Forall (λ m, Z.of_nat (length m) < 65536) mails →
  unpack_mail (foldl push_mail [] mails) = mails.
Proof.
  intros Hm. rewrite foldl_push_mail. apply unpack_mail_loop_frames; [done|]. simpl. lia.
Qed.

Lemma mailbox_roundtrip_witness : unpack_mail (foldl push_mail [] [[1; 2; 3]; []; [4]]) = [[1; 2; 3]; []; [4]].
Proof. refine (mailbox_roundtrip [[1; 2; 3]; []; [4]] _). decided. Defined.

(** A mail of 2^16 bytes or more is stored behind its length modulo 2^16, so a reader gets
    its first bytes as one mail and parses the rest of it as further mails. *)
Theorem push_mail_overflow (mail : bytes) :
  65536 ≤ Z.of_nat (length mail) →
  let cut := Z.to_nat (Z.of_nat (length mail) mod 65536) in
  unpack_mail_next (push_mail [] mail) = (Some (take cut mail), drop cut mail) ∧
  drop cut mail ≠ [].
Proof.
  intros Hm cut. pose proof (Z.mod_pos_bound (Z.of_nat (length mail)) 65536 ltac:(lia)).
  assert (encode_len (length mail) = encode_len cut) as He.
  { unfold encode_len, wrap, cut. change (2 ^ 16) with 65536.
    by rewrite Z2Nat.id, Zmod_mod by lia. }
  assert (cut < length mail)%nat by lia. split.
  - unfold push_mail. rewrite He. simpl app. rewrite <-(take_drop cut mail) at 1.
    assert (length (take cut mail) = cut) as Hl by (rewrite length_take; lia).
    pose proof (unpack_mail_next_frame (take cut mail) (drop cut mail)) as Hu.
    unfold len_frame in Hu. rewrite Hl, <-(assoc_L (++)) in Hu. apply Hu. lia.
  - intros Hd. apply (f_equal length) in Hd. rewrite length_drop in Hd. simpl in Hd. lia.
Qed.

Lemma push_mail_overflow_witness :
  let mail := replicate (Z.to_nat 65540) 7 in
  unpack_mail_next (push_mail [] mail) = (Some (take 4 mail), drop 4 mail) ∧ drop 4 mail ≠ [].
Proof.
  intros mail.
  assert (length mail = Z.to_nat 65540) as Hl by apply length_replicate.
  assert (Z.to_nat (Z.of_nat (length mail) mod 65536) = 4%nat) as <-
    by (rewrite Hl, Z2Nat.id by lia; reflexivity).
  apply (push_mail_overflow mail). rewrite Hl. lia.
Defined.

(** A user name that does not end in a zero byte survives the trip through the chain's
    zero-padded form, and any chat name, being UTF-8, survives the 0xff-padded one. *)
Theorem padded_names_roundtrip (user : bytes) (SIZE : nat) (name : bytes) :
  utf8_ok user = true → (length user ≤ USER_NAME_CAP)%nat → last user ≠ Some 0 →
  utf8_ok name = true → (length name ≤ SIZE)%nat →
  length (username_to_raw user) = USER_NAME_CAP ∧
  username_from_raw (username_to_raw user) = Some user ∧
  length (arrstr_to_array SIZE name) = SIZE ∧
  array_to_arrstr SIZE (arrstr_to_array SIZE name) = Some name.
Proof.
  intros Hu Hl Hz Hn Hs. unfold USER_NAME_CAP in *.
  unfold username_from_raw, array_to_arrstr, username_to_raw, arrstr_to_array.
  rewrite padded_trimmed, Hu, decide_True by done. rewrite padded_trimmed, Hn.
  - unfold padded, USER_NAME_CAP. rewrite !length_app, !length_replicate. repeat split; lia.
  - intros Hlast. apply last_Some in Hlast as [l ->].
    apply utf8_ok_lt_255, Forall_app in Hn as [_ Hn]. apply Forall_inv in Hn. by apply Z.lt_irrefl in Hn.
Qed.

Lemma padded_names_roundtrip_witness :
  username_from_raw (username_to_raw [98; 111; 98]) = Some [98; 111; 98] ∧
  array_to_arrstr 4 (arrstr_to_array 4 [195; 169; 0]) = Some [195; 169; 0].
Proof.
  destruct (padded_names_roundtrip [98; 111; 98] 4 [195; 169; 0]) as (_ & H1 & _ & H2);
    [reflexivity|decided|decided|reflexivity|decided|].
  split; [exact H1|exact H2].
Defined.
