(* ===== verification/Streams.v ===== *)
(** Packet streams: [utils/component-utils/src/stream.rs] and the helpers of
    [utils/component-utils/src/lib.rs].

    [PacketReader] cuts an asynchronous byte stream into packets, [PacketWriter] queues
    packets in a ring buffer until the other end of the stream takes them. The stream is a
    parameter of both: [AsyncRead] and [AsyncWrite] state what a stream promises. *)

From S2P Require Import Prelude Codec.

Inductive Poll (A : Type) : Type := Ready (a : A) | Pending.
Arguments Ready {A} _.
Arguments Pending {A}.

(** ** Streams *)

Inductive io_error := ErrUnexpectedEof | ErrWriteZero | ErrOther.

(** [poll_read room] fills a buffer of [room] bytes. [content] is what is still to be read;
    an empty answer to a nonempty buffer is the end of the stream. *)
Class AsyncRead (S : Type) := {
  poll_read : nat → S → Poll (result bytes io_error) * S;
  content : S → bytes;
  poll_read_law room s : (0 < room)%nat →
    match poll_read room s with
    | (Ready (Ok bs), s') => (length bs ≤ room)%nat ∧ content s = bs ++ content s' ∧
                             (bs = [] → content s = [])
    | (_, s') => content s' = content s
    end;
}.

(** [poll_write bs] takes some of [bs]; [received] is everything taken so far. *)
Class AsyncWrite (D : Type) := {
  poll_write : bytes → D → Poll (result nat io_error) * D;
  received : D → bytes;
  poll_write_law bs d :
    match poll_write bs d with
    | (Ready (Ok n), d') => (n ≤ length bs)%nat ∧ received d' = received d ++ take n bs
    | (_, d') => received d' = received d
    end;
}.

(** A connection: reading and writing do not touch each other's bytes. *)
Class Duplex (C : Type) `{AsyncRead C, AsyncWrite C} : Prop := {
  poll_read_received room c : received (snd (poll_read room c)) = received c;
  poll_write_content bs c : content (snd (poll_write bs c)) = content c;
}.

(** ** PacketReader *)

Record PacketReader := { read_buffer : bytes; read_offset : nat }.

Definition packet_reader_default : PacketReader := {| read_buffer := []; read_offset := 0 |}.

(* Vec::resize with zeros, for a size that is not smaller *)
Definition resize (buffer : bytes) (amount : nat) : bytes :=
  buffer ++ replicate (amount - length buffer) 0.

Section reader.
Context {R : Type} `{AsyncRead R}.

(* while self.read_offset < amount; every round reads at least one byte *)
Fixpoint read_exact_loop (fuel amount : nat) (r : PacketReader) (s : R) :
    Poll (result unit io_error) * PacketReader * R :=
  if decide (amount ≤ read_offset r)%nat then (Ready (Ok tt), r, s)
  else match fuel with
  | O => (Pending, r, s)
  | S fuel =>
      match poll_read (amount - read_offset r) s with
      | (Pending, s) => (Pending, r, s)
      | (Ready (Err e), s) => (Ready (Err e), r, s)
      | (Ready (Ok bs), s) =>
          let r := {| read_buffer := take (read_offset r) (read_buffer r) ++ bs ++
                                     drop (read_offset r + length bs) (read_buffer r);
                      read_offset := read_offset r |} in
          if decide (length bs = 0%nat) then (Ready (Err ErrUnexpectedEof), r, s)
          else read_exact_loop fuel amount
                 {| read_buffer := read_buffer r; read_offset := read_offset r + length bs |} s
      end
  end.

Definition poll_read_exact (amount : nat) (r : PacketReader) (s : R) :
    Poll (result unit io_error) * PacketReader * R :=
  if decide (amount ≤ read_offset r)%nat then (Ready (Ok tt), r, s)
  else
    let r := if decide (length (read_buffer r) < amount)%nat
             then {| read_buffer := resize (read_buffer r) amount; read_offset := read_offset r |}
             else r in
    read_exact_loop amount amount r s.

Definition poll_packet (r : PacketReader) (s : R) :
    Poll (result bytes io_error) * PacketReader * R :=
  match poll_read_exact PACKET_LEN_WIDTH r s with
  | (Ready (Ok _), r, s) =>
      let packet_size := decode_len (take PACKET_LEN_WIDTH (read_buffer r)) in
      match poll_read_exact (packet_size + PACKET_LEN_WIDTH) r s with
      | (Ready (Ok _), r, s) =>
          let packet := take packet_size (drop PACKET_LEN_WIDTH (read_buffer r)) in
          (Ready (Ok packet), {| read_buffer := read_buffer r; read_offset := 0 |}, s)
      | (Ready (Err e), r, s) => (Ready (Err e), r, s)
      | (Pending, r, s) => (Pending, r, s)
      end
  | (Ready (Err e), r, s) => (Ready (Err e), r, s)
  | (Pending, r, s) => (Pending, r, s)
  end.

(** The packets returned by [n] polls in a row. *)
Fixpoint poll_packets (n : nat) (r : PacketReader) (s : R) : list bytes * PacketReader * R :=
  match n with
  | O => ([], r, s)
  | S n =>
      match poll_packet r s with
      | (Ready (Ok p), r, s) =>
          let '(ps, r, s) := poll_packets n r s in (p :: ps, r, s)
      | (_, r, s) => poll_packets n r s
      end
  end.
End reader.

(** ** NoCapOverflow: a [Vec] that never reallocates *)

Record NoCapOverflow := { vec : bytes; spare : nat }.

#[global] Instance no_cap_overflow_buffer : Buffer NoCapOverflow := {|
  extend_from_slice slice := λ b,
    if decide (length (vec b) + spare b < length (vec b) + length slice)%nat then (None, b)
    else (Some tt, {| vec := vec b ++ slice; spare := spare b - length slice |});
  push byte := λ b,
    if decide (length (vec b) = length (vec b) + spare b)%nat then (None, b)
    else (Some tt, {| vec := vec b ++ [byte]; spare := spare b - 1 |});
|}.

(** ** PacketWriter *)

(** The allocation of [buffer] is [mem], its length [len]; its capacity never changes. *)
Record PacketWriter := { mem : bytes; len : nat; start : nat; end_ : nat; waker : bool }.

Definition capacity (w : PacketWriter) : nat := length (mem w).

Definition packet_writer_new (memory : bytes) : PacketWriter :=
  {| mem := memory; len := 0; start := 0; end_ := 0; waker := false |}.

Inductive PacketWriterGuard :=
  (* the end that is advanced: the writer's own, or a copy of the buffer's length *)
  | Extending (end_of : result unit nat)
  (* the target is mem[from..to] *)
  | Replacing (written from to : nat).

Definition guard (w : PacketWriter) : PacketWriter * PacketWriterGuard :=
  let free_cap := (capacity w - len w)%nat in
  let (from, to) := if decide (end_ w < start w)%nat then (end_ w, start w) else (0%nat, start w) in
  if decide (free_cap < to - from)%nat then
    let end' := if decide (len w = end_ w) then 0%nat else end_ w in
    ({| mem := mem w; len := len w; start := start w; end_ := end'; waker := false |},
     Replacing 0 from to)
  else
    ({| mem := mem w; len := len w; start := start w; end_ := end_ w; waker := false |},
     Extending (if decide (start w ≤ end_ w)%nat then Ok tt else Err (len w))).

Definition set_mem (w : PacketWriter) (m : bytes) : PacketWriter :=
  {| mem := m; len := len w; start := start w; end_ := end_ w; waker := waker w |}.
Definition set_end (w : PacketWriter) (e : nat) : PacketWriter :=
  {| mem := mem w; len := len w; start := start w; end_ := e; waker := waker w |}.
Definition set_len (w : PacketWriter) (n : nat) : PacketWriter :=
  {| mem := mem w; len := n; start := start w; end_ := end_ w; waker := waker w |}.

(* PacketWriterGuard::write: the written slice is its offset and length *)
Definition guard_write {A} (c : Codec A) (value : A) (w : PacketWriter) (g : PacketWriterGuard) :
    option (nat * nat) * PacketWriter * PacketWriterGuard :=
  match g with
  | Extending end_of =>
      let e := match end_of with Ok _ => end_ w | Err e => e end in
      let (res, sbuf) := encode c value {| filled := []; room := drop e (mem w) |} in
      let w := set_mem w (take e (mem w) ++ filled sbuf ++ room sbuf) in
      let slice_len := length (filled sbuf) in
      let e' := match res with Some _ => (e + slice_len)%nat | None => len w end in
      let slice := match res with Some _ => Some (e, slice_len) | None => None end in
      match end_of with
      | Ok _ => (slice, set_end w e', Extending (Ok tt))
      | Err _ => (slice, w, Extending (Err e'))
      end
  | Replacing written from to =>
      let (res, sub) := encode c value {| filled := []; room := take (to - from) (drop from (mem w)) |} in
      let w := set_mem w (take from (mem w) ++ filled sub ++ room sub ++ drop to (mem w)) in
      let space_taken := length (filled sub) in
      match res with
      | None => (None, w, Replacing 0 (from + space_taken) to)
      | Some _ => (Some (from, space_taken), w,
                   Replacing (written + space_taken) (from + space_taken) to)
      end
  end.

(* impl Drop for PacketWriterGuard *)
Definition guard_drop (w : PacketWriter) (g : PacketWriterGuard) : PacketWriter :=
  match g with
  | Extending (Ok _) => set_len w (end_ w)
  | Extending (Err e) => set_len w e
  | Replacing written _ _ => set_end w (end_ w + written)
  end.

(* reserved.copy_from_slice(..) through the pointer of a written slice *)
Definition copy_to (w : PacketWriter) (at_ : nat) (bs : bytes) : PacketWriter :=
  set_mem w (take at_ (mem w) ++ bs ++ drop (at_ + length bs) (mem w)).

(* [0u8; PACKET_LEN_WIDTH] *)
Definition header : Codec bytes := array_codec PACKET_LEN_WIDTH u8_codec.

Definition write_packet {A} (c : Codec A) (message : A) (w : PacketWriter) : option unit * PacketWriter :=
  let (w, writer) := guard w in
  match guard_write header [0; 0] w writer with
  | (None, w, writer) => (None, guard_drop w writer)
  | (Some (reserved, _), w, writer) =>
      match guard_write c message w writer with
      | (None, w, writer) => (None, guard_drop w writer)
      | (Some (_, n), w, writer) =>
          (Some tt, guard_drop (copy_to w reserved (encode_len n)) writer)
      end
  end.

Definition writable_parts (w : PacketWriter) : bytes * bytes :=
  match Nat.compare (start w) (end_ w) with
  | Gt => (take (len w - start w) (drop (start w) (mem w)), take (end_ w) (mem w))
  | Lt => (take (end_ w - start w) (drop (start w) (mem w)), [])
  | Eq => ([], [])
  end.

Definition writer_is_empty (w : PacketWriter) : bool := bool_decide (len w = 0%nat).

(* poll once nothing is left to write *)
Definition poll_done (w : PacketWriter) : PacketWriter :=
  let (s, e) := if decide (start w = end_ w) then (0%nat, 0%nat) else (start w, end_ w) in
  {| mem := mem w; len := if decide (s ≤ e)%nat then Nat.min e (len w) else len w;
     start := s; end_ := e; waker := true |}.

(* self.start += n; self.start -= self.buffer.len() * usize::from(self.start > self.buffer.len()) *)
Definition advance_start (w : PacketWriter) (n : nat) : PacketWriter :=
  let s := (start w + n)%nat in
  {| mem := mem w; len := len w; start := if decide (len w < s)%nat then (s - len w)%nat else s;
     end_ := end_ w; waker := waker w |}.

Section writer.
Context {D : Type} `{AsyncWrite D}.

(* the loop of poll: every round that continues writes at least one byte *)
Fixpoint poll_loop (fuel : nat) (w : PacketWriter) (dest : D) :
    Poll (result unit io_error) * PacketWriter * D :=
  let (first, second) := writable_parts w in
  match (match first with [] => second | _ => first end) with
  | [] => (Ready (Ok tt), poll_done w, dest)
  | some_bytes =>
      match fuel with
      | O => (Pending, w, dest)
      | S fuel =>
          match poll_write some_bytes dest with
          | (Pending, dest) => (Pending, w, dest)
          | (Ready (Err e), dest) => (Ready (Err e), w, dest)
          | (Ready (Ok n), dest) =>
              if decide (n = 0%nat) then (Ready (Err ErrWriteZero), w, dest)
              else poll_loop fuel (advance_start w n) dest
          end
      end
  end.

Definition writer_poll (w : PacketWriter) (dest : D) :
    Poll (result unit io_error) * PacketWriter * D :=
  let (first, second) := writable_parts w in
  poll_loop (length (first ++ second)) w dest.
End writer.

(** ** Streams that follow a script, to run the model on *)

Inductive read_event := Chunk (bs : bytes) | Wait | Break.

Definition script_content (s : list read_event) : bytes :=
  concat (map (λ e, match e with Chunk bs => bs | _ => [] end) s).

Definition script_read (room : nat) (s : list read_event) :
    Poll (result bytes io_error) * list read_event :=
  match s with
  | [] => (Ready (Ok []), [])
  | Wait :: s | Chunk [] :: s => (Pending, s)
  | Break :: s => (Ready (Err ErrOther), s)
  | Chunk bs :: s => (Ready (Ok (take room bs)), Chunk (drop room bs) :: s)
  end.

#[global] Instance script_reader : AsyncRead (list read_event).
Proof.
  refine {| poll_read := script_read; content := script_content |}.
  intros room [|[[|b bs]| |] s] Hr; simpl; try done; [split; [lia|done]|].
  unfold script_content; simpl. split; [rewrite length_take; simpl; lia|].
  rewrite (assoc_L (++)), take_drop. split; [done|]. destruct room; [lia|done].
Defined.

(** [budgets] says how many bytes each call takes. *)
Record ScriptSink := { budgets : list nat; sunk : bytes }.

Definition script_write (bs : bytes) (d : ScriptSink) : Poll (result nat io_error) * ScriptSink :=
  match budgets d with
  | [] => (Pending, d)
  | n :: l => (Ready (Ok (Nat.min n (length bs))), {| budgets := l; sunk := sunk d ++ take n bs |})
  end.

#[global] Instance script_writer : AsyncWrite ScriptSink.
Proof.
  refine {| poll_write := script_write; received := sunk |}.
  intros bs [[|n l] d]; unfold script_write; simpl; [done|]. split; [lia|].
  f_equal. destruct (decide (n ≤ length bs)%nat); [by rewrite Nat.min_l|].
  rewrite Nat.min_r by lia. by rewrite !take_ge by lia.
Defined.

(** Two directions make one connection. *)
#[global] Instance duplex_read {R W} `{AsyncRead R} : AsyncRead (R * W).
Proof.
  refine {| poll_read room s := let (r, s') := poll_read room s.1 in (r, (s', s.2)); content s := content s.1 |}.
  intros room [s w] Hr. simpl. pose proof (poll_read_law room s Hr) as Hl.
  by destruct (poll_read room s) as [[[bs|]|] s'].
Defined.

#[global] Instance duplex_write {R W} `{AsyncWrite W} : AsyncWrite (R * W).
Proof.
  refine {| poll_write bs d := let (r, d') := poll_write bs d.2 in (r, (d.1, d')); received d := received d.2 |}.
  intros bs [s d]. simpl. pose proof (poll_write_law bs d) as Hl.
  by destruct (poll_write bs d) as [[[n|]|] d'].
Defined.

#[global] Instance duplex_pair {R W} `{AsyncRead R, AsyncWrite W} : Duplex (R * W).
Proof.
  split; intros x [r w]; simpl; [by destruct (poll_read x r)|by destruct (poll_write x w)].
Qed.

(** ** The reader *)

Definition held (r : PacketReader) : bytes := take (read_offset r) (read_buffer r).

(** What is held is at most one packet. *)
Definition reader_ok (r : PacketReader) : Prop :=
  (read_offset r ≤ length (read_buffer r))%nat ∧
  ((2 ≤ read_offset r)%nat → (read_offset r ≤ 2 + decode_len (take 2 (read_buffer r)))%nat).

Section reader_laws.
Context {R : Type} `{AsyncRead R}.
Implicit Types (r : PacketReader) (s : R).

(** From [(r, s)] to [(r', s')] bytes only moved from the stream to the buffer. *)
Definition absorbs (amount : nat) r s r' s' : Prop :=
  (read_offset r' ≤ length (read_buffer r'))%nat ∧
  (read_offset r ≤ read_offset r' ≤ Nat.max (read_offset r) amount)%nat ∧
  take (read_offset r) (read_buffer r') = held r ∧
  held r ++ content s = held r' ++ content s'.

Lemma absorbs_refl amount r s :
  (read_offset r ≤ length (read_buffer r))%nat → absorbs amount r s r s.
Proof. intros Hr. split; [done|]. split; [lia|]. by split. Qed.

Lemma absorbs_trans amount r1 s1 r2 s2 r3 s3 :
  absorbs amount r1 s1 r2 s2 → absorbs amount r2 s2 r3 s3 → absorbs amount r1 s1 r3 s3.
Proof.
  intros (A1 & A2 & A3 & A4) (B1 & B2 & B3 & B4). split; [done|]. split; [lia|].
  split; [|by etransitivity]. rewrite <-A3. apply (f_equal (take (read_offset r1))) in B3.
  unfold held in B3. rewrite !take_take, !Nat.min_l in B3 by lia. done.
Qed.

Lemma absorbs_stall amount r s s' :
  (read_offset r ≤ length (read_buffer r))%nat → content s' = content s → absorbs amount r s r s'.
Proof. intros Hr Hs. split; [done|]. split; [lia|]. split; [done|]. by rewrite Hs. Qed.

Lemma absorbs_chunk amount r s s' bs :
  (read_offset r + length bs ≤ amount)%nat → (amount ≤ length (read_buffer r))%nat →
  content s = bs ++ content s' →
  absorbs amount r s
    {| read_buffer := take (read_offset r) (read_buffer r) ++ bs ++
                      drop (read_offset r + length bs) (read_buffer r);
       read_offset := read_offset r + length bs |} s'.
Proof.
  intros H1 H2 H3. unfold absorbs, held; simpl.
  assert (length (take (read_offset r) (read_buffer r)) = read_offset r) as Hl
    by (rewrite length_take; lia).
  rewrite !length_app, length_drop, Hl. split; [lia|]. split; [lia|].
  rewrite take_app_le, take_ge by lia. split; [done|]. rewrite H3.
  rewrite (assoc_L (++) _ bs (drop _ _)), take_app_le by (rewrite length_app; lia).
  rewrite (take_ge (_ ++ _)) by (rewrite length_app; lia). by rewrite (assoc_L (++)).
Qed.

Lemma read_exact_loop_spec fuel amount r s :
  (amount - read_offset r ≤ fuel)%nat → (amount ≤ length (read_buffer r))%nat →
  (read_offset r ≤ length (read_buffer r))%nat →
  let '(res, r', s') := read_exact_loop fuel amount r s in
  absorbs amount r s r' s' ∧ (res = Ready (Ok tt) → (amount ≤ read_offset r')%nat).
Proof.
  revert r s. induction fuel as [|fuel IH]; intros r s Hf Ha Hr; cbn [read_exact_loop];
    (case_decide as Hd; [split; [by apply absorbs_refl|done]|]); [lia|].
  pose proof (poll_read_law (amount - read_offset r) s ltac:(lia)) as Hl.
  destruct (poll_read _ s) as [[[bs|e]|] s'].
  - destruct Hl as (Hl & Hc & _).
    pose proof (absorbs_chunk amount r s s' bs ltac:(lia) Ha Hc) as Hab.
    case_decide as Hn; cbn [read_offset read_buffer].
    + destruct bs; [|done]. simpl in Hab. rewrite Nat.add_0_r in *. by split.
    + specialize (IH {| read_buffer := take (read_offset r) (read_buffer r) ++ bs ++
                      drop (read_offset r + length bs) (read_buffer r);
                      read_offset := read_offset r + length bs |} s').
      cbn [read_offset read_buffer] in IH.
      destruct (read_exact_loop fuel amount _ s') as [[res r'] s''].
      destruct IH as [IH1 IH2]; [lia|rewrite !length_app, length_take, length_drop; lia|by destruct Hab|].
      split; [by eapply absorbs_trans|done].
  - split; [by apply absorbs_stall|done].
  - split; [by apply absorbs_stall|done].
Qed.

Lemma poll_read_exact_spec amount r s :
  (read_offset r ≤ length (read_buffer r))%nat →
  let '(res, r', s') := poll_read_exact amount r s in
  absorbs amount r s r' s' ∧ (res = Ready (Ok tt) → (amount ≤ read_offset r')%nat).
Proof.
  intros Hr. unfold poll_read_exact. case_decide as Hd; [split; [by apply absorbs_refl|done]|].
  case_decide as Hl; [|apply read_exact_loop_spec; lia].
  set (r0 := {| read_buffer := _; read_offset := _ |}).
  assert (held r0 = held r) as Hh
    by (unfold held, r0, resize; simpl; by rewrite take_app_le by lia).
  assert (amount ≤ length (read_buffer r0))%nat
    by (unfold r0, resize; simpl; rewrite length_app, length_replicate; lia).
  pose proof (read_exact_loop_spec amount amount r0 s) as Hs.
  destruct (read_exact_loop _ _ _ _) as [[res r'] s'].
  destruct Hs as [(H1 & H2 & H3 & H4) H5]; [unfold r0; simpl; lia|done|unfold r0 in *; simpl in *; lia|].
  split; [|done]. rewrite Hh in *. by split.
Qed.

Lemma absorbs_header amount r s r' s' :
  absorbs amount r s r' s' → (2 ≤ read_offset r)%nat →
  take 2 (read_buffer r') = take 2 (read_buffer r).
Proof.
  intros (_ & _ & H3 & _) H2. apply (f_equal (take 2)) in H3. unfold held in H3.
  by rewrite !take_take, Nat.min_l in H3 by lia.
Qed.

(** One poll moves bytes from the stream to the buffer and takes at most one packet off. *)
Lemma poll_packet_spec r s :
  reader_ok r →
  let '(res, r', s') := poll_packet r s in
  reader_ok r' ∧
  match res with
  | Ready (Ok p) => ∃ h, length h = 2%nat ∧ decode_len h = length p ∧ held r' = [] ∧
                         held r ++ content s = h ++ p ++ content s'
  | _ => held r ++ content s = held r' ++ content s'
  end.
Proof.
  intros [Hr Hp]. unfold poll_packet.
  pose proof (poll_read_exact_spec PACKET_LEN_WIDTH r s Hr) as H1.
  destruct (poll_read_exact PACKET_LEN_WIDTH r s) as [[res1 r1] s1]. destruct H1 as [Hab Hres].
  assert (reader_ok r1) as Hr1.
  { destruct Hab as (A1 & A2 & A3 & A4) eqn:E. split; [done|]. intros H2.
    destruct (decide (2 ≤ read_offset r)%nat) as [Hge|].
    - rewrite (absorbs_header _ _ _ _ _ Hab Hge). specialize (Hp Hge).
      unfold PACKET_LEN_WIDTH in A2. lia.
    - unfold PACKET_LEN_WIDTH in A2. lia. }
  destruct res1 as [[[]|e]|]; [|by split; [|destruct Hab as (_ & _ & _ & ?)]..].
  specialize (Hres eq_refl). unfold PACKET_LEN_WIDTH in Hres.
  set (size := decode_len (take PACKET_LEN_WIDTH (read_buffer r1))).
  destruct Hr1 as [Hl1 Hs1]. specialize (Hs1 Hres).
  pose proof (poll_read_exact_spec (size + PACKET_LEN_WIDTH) r1 s1 Hl1) as H2.
  destruct (poll_read_exact (size + PACKET_LEN_WIDTH) r1 s1) as [[res2 r2] s2].
  destruct H2 as [Hab2 Hres2].
  pose proof (absorbs_header _ _ _ _ _ Hab2 Hres) as Hh.
  assert (held r ++ content s = held r2 ++ content s2) as Heq
    by (destruct Hab as (_ & _ & _ & ->); by destruct Hab2 as (_ & _ & _ & ->)).
  assert (read_offset r2 ≤ size + 2)%nat as Hle.
  { destruct Hab2 as (_ & B2 & _). unfold size, PACKET_LEN_WIDTH in *. lia. }
  assert (reader_ok r2) as Hr2.
  { split; [by destruct Hab2|]. intros _. rewrite Hh. unfold size, PACKET_LEN_WIDTH in *. lia. }
  destruct res2 as [[[]|e]|]; [|by split..].
  specialize (Hres2 eq_refl). unfold PACKET_LEN_WIDTH in Hres2.
  destruct Hr2 as [Hl2 _]. split; [split; simpl; lia|].
  exists (take 2 (read_buffer r2)). split; [rewrite length_take; lia|].
  change PACKET_LEN_WIDTH with 2%nat. split; [|split; [done|]].
  - rewrite Hh, length_take_le by (rewrite length_drop; lia). done.
  - rewrite Heq, (assoc_L (++)). f_equal. unfold held.
    replace (read_offset r2) with (2 + size)%nat by lia.
    by rewrite <-take_take_drop.
Qed.
End reader_laws.

Lemma frames_head (h p tail : bytes) (ms : list bytes) :
  Forall (λ m, Z.of_nat (length m) < 65536) ms →
  length h = 2%nat → decode_len h = length p →
  h ++ p ++ tail = concat (map len_frame ms) →
  ∃ later, ms = p :: later ∧ tail = concat (map len_frame later).
Proof.
  intros Hms Hh Hp Heq. destruct ms as [|m ms].
  { simpl in Heq. apply (f_equal length) in Heq. rewrite length_app in Heq. simpl in Heq. lia. }
  apply Forall_cons in Hms as [Hm _]. cbn [map concat] in Heq.
  unfold len_frame in Heq at 1. rewrite <-(assoc_L (++)) in Heq.
  apply app_inj_1 in Heq as [-> Heq]; [|by rewrite Hh].
  rewrite decode_encode_len in Hp by done. apply app_inj_1 in Heq as [-> ->]; [|done].
  by exists ms.
Qed.

Section reader_props.
Context {R : Type} `{AsyncRead R}.

Lemma poll_packets_spec n (r : PacketReader) (s : R) ms :
  Forall (λ m, Z.of_nat (length m) < 65536) ms → reader_ok r →
  held r ++ content s = concat (map len_frame ms) →
  let '(ps, r', s') := poll_packets n r s in
  reader_ok r' ∧
  ∃ later, ms = ps ++ later ∧ held r' ++ content s' = concat (map len_frame later).
Proof.
  revert r s ms. induction n as [|n IH]; intros r s ms Hms Hr Heq; cbn [poll_packets].
  { split; [done|]. by exists ms. }
  pose proof (poll_packet_spec r s Hr) as Hp.
  destruct (poll_packet r s) as [[res r1] s1]. destruct Hp as [Hr1 Hp].
  destruct res as [[p|e]|]; [|apply IH; [done|done|by rewrite <-Hp]..].
  destruct Hp as (h & Hh & Hd & He & Hc). rewrite Heq in Hc. symmetry in Hc.
  apply frames_head in Hc as (later & -> & Hl); [|done..].
  apply Forall_cons in Hms as [_ Hms].
  specialize (IH r1 s1 later Hms Hr1). rewrite He in IH. specialize (IH Hl).
  destruct (poll_packets n r1 s1) as [[ps r2] s2]. destruct IH as (Hr2 & l2 & -> & H2).
  split; [done|]. by exists l2.
Qed.

(** Streams that always have an answer. *)
Context (eager : ∀ room (s : R), (0 < room)%nat → ∃ bs s', poll_read room s = (Ready (Ok bs), s')).

Lemma read_exact_loop_eager fuel amount r s :
  (amount - read_offset r ≤ fuel)%nat → (amount ≤ read_offset r + length (content s))%nat →
  (fst (fst (read_exact_loop fuel amount r s))) = Ready (Ok tt).
Proof.
  revert r s. induction fuel as [|fuel IH]; intros r s Hf Ha; cbn [read_exact_loop];
    (case_decide as Hd; [done|]); [lia|].
  destruct (eager (amount - read_offset r) s ltac:(lia)) as (bs & s' & Hp).
  pose proof (poll_read_law (amount - read_offset r) s ltac:(lia)) as Hl. rewrite Hp in *.
  destruct Hl as (Hl & Hc & He). rewrite Hc, length_app in Ha. case_decide as Hn.
  - exfalso. assert (bs = []) as -> by by destruct bs. rewrite He in Hc by done.
    simpl in Hc. rewrite <-Hc in Ha. simpl in Ha. lia.
  - apply IH; simpl; lia.
Qed.

Lemma poll_read_exact_eager amount r s :
  (amount ≤ read_offset r + length (content s))%nat →
  (fst (fst (poll_read_exact amount r s))) = Ready (Ok tt).
Proof.
  intros Ha. unfold poll_read_exact. case_decide; [done|].
  apply read_exact_loop_eager; case_decide; simpl; lia.
Qed.

Lemma poll_packet_eager r s p tail :
  Z.of_nat (length p) < 65536 → reader_ok r → held r ++ content s = len_frame p ++ tail →
  ∃ r' s', poll_packet r s = (Ready (Ok p), r', s').
Proof.
  intros Hp Hr Heq. pose proof (poll_packet_spec r s Hr) as Hs. destruct Hr as [Hr Hr2].
  assert (length (held r) = read_offset r) as Hhl by (unfold held; rewrite length_take; lia).
  assert (read_offset r + length (content s) = 2 + length p + length tail)%nat as Hlen.
  { apply (f_equal length) in Heq. unfold len_frame in Heq.
    rewrite !length_app, encode_len_length, Hhl in Heq. lia. }
  assert (∃ q r' s', poll_packet r s = (Ready (Ok q), r', s')) as (q & r' & s' & Hq).
  { clear Hs. unfold poll_packet.
    pose proof (poll_read_exact_eager PACKET_LEN_WIDTH r s) as He1.
    pose proof (poll_read_exact_spec PACKET_LEN_WIDTH r s Hr) as Hs1.
    destruct (poll_read_exact PACKET_LEN_WIDTH r s) as [[res1 r1] s1]. simpl in He1.
    rewrite He1 in * by (unfold PACKET_LEN_WIDTH; lia). destruct Hs1 as [(A1 & A2 & A3 & A4) Hs1].
    specialize (Hs1 eq_refl). unfold PACKET_LEN_WIDTH in Hs1.
    assert (length (held r1) = read_offset r1) as Hhl1 by (unfold held; rewrite length_take; lia).
    assert (decode_len (take PACKET_LEN_WIDTH (read_buffer r1)) = length p) as Hd.
    { rewrite A4 in Heq. apply (f_equal (take 2)) in Heq. unfold len_frame in Heq.
      rewrite take_app_le in Heq by lia. unfold held in Heq.
      rewrite take_take, Nat.min_l, <-(assoc_L (++)), (take_app_n (encode_len _)) in Heq by done.
      unfold PACKET_LEN_WIDTH. rewrite Heq. by apply decode_encode_len. }
    pose proof (poll_read_exact_eager
      (decode_len (take PACKET_LEN_WIDTH (read_buffer r1)) + PACKET_LEN_WIDTH) r1 s1) as He2.
    destruct (poll_read_exact (decode_len _ + _) r1 s1) as [[res2 r2] s2]. simpl in He2.
    rewrite He2; [by eauto|]. rewrite Hd. unfold PACKET_LEN_WIDTH.
    apply (f_equal length) in A4. rewrite !length_app in A4. lia. }
  rewrite Hq in *. destruct Hs as (_ & h & Hh & Hd & _ & Hc). exists r', s'. rewrite Heq in Hc.
  unfold len_frame in Hc. rewrite <-(assoc_L (++)) in Hc.
  apply app_inj_1 in Hc as [<- Hc]; [|by rewrite Hh]. rewrite decode_encode_len in Hd by done.
  by apply app_inj_1 in Hc as [-> _].
Qed.

Lemma poll_packets_eager r s ms :
  Forall (λ m, Z.of_nat (length m) < 65536) ms → reader_ok r →
  held r ++ content s = concat (map len_frame ms) →
  fst (fst (poll_packets (length ms) r s)) = ms.
Proof.
  intros Hms. revert r s. induction Hms as [|m ms Hm Hms IH]; intros r s Hr Heq; [done|].
  cbn [length poll_packets map concat] in *.
  destruct (poll_packet_eager r s m _ Hm Hr Heq) as (r' & s' & Hp).
  pose proof (poll_packet_spec r s Hr) as Hs. rewrite Hp in *.
  destruct Hs as (Hr' & h & Hh & Hd & He & Hc).
  rewrite Heq in Hc. symmetry in Hc.
  destruct (frames_head h m (content s') (m :: ms)) as (later & [= <-] & Hl);
    [by constructor|done|done|done|].
  specialize (IH r' s' Hr'). rewrite He in IH. specialize (IH Hl).
  destruct (poll_packets (length ms) r' s') as [[ps r2] s2]. simpl in *. by subst.
Qed.
End reader_props.

(** ** The writer *)

(** The bytes waiting to be sent, in the order [poll] sends them. *)
Definition pending_bytes (w : PacketWriter) : bytes := let (a, b) := writable_parts w in a ++ b.

Definition writer_ok (w : PacketWriter) : Prop :=
  (len w ≤ capacity w)%nat ∧ (start w ≤ len w)%nat ∧ (end_ w ≤ len w)%nat.

(** A computation that writes a slice in place: it fills a prefix of the room. *)
Definition in_place (m : M SliceMut unit) : Prop := ∀ b,
  ∃ x, filled (snd (m b)) = filled b ++ x ∧ (length x + length (room (snd (m b))) = length (room b))%nat.

Lemma in_place_ret : in_place (ret tt).
Proof. intros b. exists []. by rewrite app_nil_r. Qed.

Lemma in_place_fail : in_place mfail.
Proof. intros b. exists []. by rewrite app_nil_r. Qed.

Lemma in_place_extend l : in_place (extend_from_slice l).
Proof.
  intros b. simpl. case_decide; simpl.
  - exists l. rewrite length_drop. split; [done|lia].
  - exists []. by rewrite app_nil_r.
Qed.

Lemma in_place_push x : in_place (push x).
Proof.
  intros b. simpl. destruct (room b) eqn:E; simpl; rewrite ?E; [|by exists [x]].
  exists []. by rewrite app_nil_r.
Qed.

Lemma in_place_bind m k : in_place m → in_place k → in_place (do m; k).
Proof.
  intros Hm Hk b. destruct (Hm b) as (x & Hx & Hl). unfold bind.
  destruct (m b) as [[[]|] b1]; simpl in *; [|by exists x].
  destruct (Hk b1) as (y & Hy & Hl2). exists (x ++ y).
  rewrite Hy, Hx, (assoc_L (++)), length_app. split; [done|lia].
Qed.
#[export] Hint Resolve in_place_ret in_place_fail in_place_extend in_place_push in_place_bind : orion.

Lemma in_place_base128 v : in_place (base128_encode v).
Proof.
  unfold base128_encode. generalize 10%nat. intros fuel. revert v.
  induction fuel as [|fuel IH]; intros v; cbn [base128_encode_loop]; [auto with orion|].
  apply in_place_bind; [apply in_place_push|]. case_decide; auto with orion.
Qed.

Section write.
Context {A : Type} (c : Codec A) `{!TailCodec c}.
Implicit Types (a : A) (w : PacketWriter) (X T Y : bytes).

Lemma encode_room a T :
  tvalid c a → (length (twire c a) ≤ length T)%nat →
  encode c a {| filled := []; room := T |} =
    (Some tt, {| filled := twire c a; room := drop (length (twire c a)) T |}).
Proof.
  intros Ha Hl. pose proof (slice_run _ _ T (encode_slice c a _ Ha)) as Hr.
  by rewrite decide_True in Hr by done.
Qed.

Lemma encode_no_room a T :
  tvalid c a → in_place (encode c a) → (length T < length (twire c a))%nat →
  ∃ f r, encode c a {| filled := []; room := T |} = (None, {| filled := f; room := r |}) ∧
         (length f + length r = length T)%nat.
Proof.
  intros Ha Hi Hl. pose proof (slice_run _ _ T (encode_slice c a _ Ha)) as Hr.
  rewrite decide_False in Hr by lia. destruct (Hi {| filled := []; room := T |}) as (x & Hx & Hl2).
  destruct (encode c a _) as [o [f r]]. simpl in *. subst. by exists x, r.
Qed.

End write.

(** *** Guards *)

(** A guard writes at [length X] of the buffer [X ++ T ++ Y], into [T]. *)
Definition guard_at (w : PacketWriter) (g : PacketWriterGuard) (X T Y : bytes) : Prop :=
  mem w = X ++ T ++ Y ∧
  match g with
  | Extending (Ok _) => Y = [] ∧ end_ w = length X
  | Extending (Err e) => Y = [] ∧ e = length X
  | Replacing _ from to => from = length X ∧ to = (length X + length T)%nat
  end.

(** The writer and the guard when [n] more bytes were written. *)
Definition adv_w (n : nat) (w : PacketWriter) (g : PacketWriterGuard) : PacketWriter :=
  match g with Extending (Ok _) => set_end w (end_ w + n) | _ => w end.
Definition adv_g (n : nat) (g : PacketWriterGuard) : PacketWriterGuard :=
  match g with
  | Extending (Ok _) => Extending (Ok tt)
  | Extending (Err e) => Extending (Err (e + n))%nat
  | Replacing written from to => Replacing (written + n) (from + n) to
  end.
(** The writer after a write that did not fit. *)
Definition rollback (w : PacketWriter) (g : PacketWriterGuard) (m : bytes) : PacketWriter :=
  match g with
  | Extending (Ok _) => set_len (set_end (set_mem w m) (len w)) (len w)
  | Extending (Err _) => set_len (set_mem w m) (len w)
  | Replacing _ _ _ => set_end (set_mem w m) (end_ w)
  end.
(** The writer after a frame. *)
Definition framed (w : PacketWriter) (g : PacketWriterGuard) (X T Y p : bytes) : PacketWriter :=
  let n := (2 + length p)%nat in
  guard_drop (adv_w n (set_mem w (X ++ len_frame p ++ drop n T ++ Y)) g) (adv_g n g).

Lemma rollback_adv n w g m m' : rollback (adv_w n (set_mem w m) g) (adv_g n g) m' = rollback w g m'.
Proof. by destruct g as [[]|]. Qed.

Lemma adv_w_add n k w m m' g :
  adv_w k (set_mem (adv_w n (set_mem w m) g) m') (adv_g n g) = adv_w (n + k) (set_mem w m') g.
Proof. destruct g as [[]|]; try done. unfold adv_w, set_end, set_mem. simpl. by rewrite Nat.add_assoc. Qed.

Lemma adv_g_add n k g : adv_g k (adv_g n g) = adv_g (n + k) g.
Proof. destruct g as [[]|]; simpl; rewrite <-?Nat.add_assoc; done. Qed.

Lemma set_mem_adv n w m m' g : set_mem (adv_w n (set_mem w m) g) m' = adv_w n (set_mem w m') g.
Proof. by destruct g as [[]|]. Qed.

(** Nothing but the buffer changes between two writes. *)
Lemma guard_at_adv w g X T Y (p p' : bytes) :
  guard_at w g X T Y → length p' = length p → (length p ≤ length T)%nat →
  guard_at (adv_w (length p) (set_mem w (X ++ p' ++ drop (length p) T ++ Y)) g) (adv_g (length p) g)
    (X ++ p') (drop (length p) T) Y.
Proof.
  intros [Hm Hg] Hp Hl. unfold guard_at. rewrite length_app, length_drop.
  destruct g as [[[]|e]|written from to]; simpl; (split; [by rewrite <-?(assoc_L (++))|]);
    destruct Hg; split; try done; lia.
Qed.

(** A failed write has only scribbled over the room, and is undone when the guard is dropped. *)
Definition rolls_back (w : PacketWriter) (g : PacketWriterGuard) (X T Y : bytes)
    (w' : PacketWriter) (g' : PacketWriterGuard) : Prop :=
  ∃ T', length T' = length T ∧ guard_drop w' g' = rollback w g (X ++ T' ++ Y).

Lemma rolls_back_adv w g X T Y (p : bytes) w' g' m :
  (length p ≤ length T)%nat →
  rolls_back (adv_w (length p) (set_mem w m) g) (adv_g (length p) g) (X ++ p) (drop (length p) T) Y w' g' →
  rolls_back w g X T Y w' g'.
Proof.
  intros Hl (T' & HT & Hd). exists (p ++ T'). rewrite Hd, rollback_adv, <-!(assoc_L (++)).
  rewrite length_app, HT, length_drop. split; [lia|done].
Qed.

Section guard_write.
Context {A : Type} (c : Codec A) `{!TailCodec c}.
Implicit Types (a : A) (w : PacketWriter) (X T Y : bytes).

Lemma guard_write_ok a w g X T Y :
  tvalid c a → guard_at w g X T Y → (length (twire c a) ≤ length T)%nat →
  guard_write c a w g =
    (Some (length X, length (twire c a)),
     adv_w (length (twire c a)) (set_mem w (X ++ twire c a ++ drop (length (twire c a)) T ++ Y)) g,
     adv_g (length (twire c a)) g).
Proof.
  intros Ha [Hm Hg] Hl. unfold guard_write.
  destruct g as [eo|written from to].
  - assert ((match eo with Ok _ => end_ w | Err e => e end) = length X ∧ Y = []) as [He ->]
      by (destruct eo; destruct Hg; done).
    rewrite He, Hm, app_nil_r, drop_app_length, take_app_length, (encode_room c a) by done.
    destruct eo as [[]|e]; cbn [filled room adv_w adv_g]; rewrite ?app_nil_r; [|destruct Hg; by subst].
    destruct Hg as [_ <-]. done.
  - destruct Hg as [-> ->]. rewrite Hm, drop_app_length, take_app_length.
    replace (length X + length T - length X)%nat with (length T) by lia.
    rewrite take_app_length, (encode_room c a) by done.
    rewrite (assoc_L (++) X T Y), (drop_app_n (X ++ T)) by (rewrite length_app; lia). done.
Qed.

Lemma guard_write_none a w g X T Y :
  tvalid c a → in_place (encode c a) → guard_at w g X T Y → (length T < length (twire c a))%nat →
  ∃ w' g', guard_write c a w g = (None, w', g') ∧ rolls_back w g X T Y w' g'.
Proof.
  intros Ha Hi [Hm Hg] Hl. unfold guard_write, rolls_back.
  destruct (encode_no_room c a T Ha Hi Hl) as (f & r & He & Hlen). rewrite <-Hlen, <-length_app.
  destruct g as [eo|written from to].
  - assert ((match eo with Ok _ => end_ w | Err e => e end) = length X ∧ Y = []) as [Hx ->]
      by (destruct eo; destruct Hg; done).
    rewrite Hx, Hm, app_nil_r, drop_app_length, take_app_length, He. cbn [filled room].
    destruct eo as [[]|e]; eexists _, _; (split; [done|]); exists (f ++ r); by rewrite app_nil_r.
  - destruct Hg as [-> ->]. rewrite Hm, drop_app_length, take_app_length.
    replace (length X + length T - length X)%nat with (length T) by lia.
    rewrite take_app_length, He.
    rewrite (assoc_L (++) X T Y), (drop_app_n (X ++ T)) by (rewrite length_app; lia).
    eexists _, _. split; [done|]. exists (f ++ r). split; [done|]. cbn [guard_drop rollback filled room].
    rewrite Nat.add_0_r, <-(assoc_L (++) f). done.
Qed.
End guard_write.

(** *** Frames *)

Lemma header_valid : tvalid header [0; 0].
Proof. split; [done|]. decided. Qed.

Lemma header_in_place : in_place (encode header [0; 0]).
Proof. cbn -[in_place push]. eauto 10 with orion. Qed.

Lemma copy_to_at w X (p q : bytes) Z :
  mem w = X ++ q ++ Z → length p = length q → copy_to w (length X) p = set_mem w (X ++ p ++ Z).
Proof.
  intros Hm Hl. unfold copy_to. rewrite Hm, take_app_length, Hl.
  by rewrite (assoc_L (++) X q), drop_app_n by (rewrite length_app; lia).
Qed.

Lemma mem_adv n w m g : mem (adv_w n (set_mem w m) g) = m.
Proof. by destruct g as [[]|]. Qed.

(** The reserved length, filled in when the packet is there. *)
Lemma header_filled w g X T Y (p : bytes) :
  guard_drop (copy_to (adv_w (2 + length p) (set_mem w (X ++ [0; 0] ++ p ++ drop (2 + length p) T ++ Y)) g)
                (length X) (encode_len (length p))) (adv_g (2 + length p) g) =
    framed w g X T Y p.
Proof.
  unfold framed. erewrite (copy_to_at _ X _ [0; 0]) by (apply mem_adv || apply encode_len_length).
  rewrite set_mem_adv. unfold len_frame. by rewrite <-(assoc_L (++)).
Qed.

Section write_frame.
Context {A : Type} (c : Codec A) `{!TailCodec c}.
Implicit Types (a : A) (w : PacketWriter) (X T Y : bytes).

Lemma write_packet_framed a w w0 g X T Y :
  tvalid c a → guard w = (w0, g) → guard_at w0 g X T Y → (2 + length (twire c a) ≤ length T)%nat →
  write_packet c a w = (Some tt, framed w0 g X T Y (twire c a)).
Proof.
  intros Ha Hg Hat Hl. unfold write_packet. rewrite Hg.
  rewrite (guard_write_ok header [0; 0] w0 g X T Y header_valid Hat) by (simpl; lia).
  change (twire header [0; 0]) with [0; 0].
  pose proof (guard_at_adv w0 g X T Y [0; 0] [0; 0] Hat eq_refl ltac:(simpl; lia)) as Hat1.
  rewrite (guard_write_ok c a _ _ _ _ _ Ha Hat1) by (rewrite length_drop; simpl; lia).
  rewrite adv_w_add, adv_g_add, drop_drop, <-(assoc_L (++)). f_equal.
  apply header_filled.
Qed.

Lemma write_packet_rolled_back a w w0 g X T Y :
  tvalid c a → in_place (encode c a) → guard w = (w0, g) → guard_at w0 g X T Y →
  (length T < 2 + length (twire c a))%nat →
  ∃ w' g', write_packet c a w = (None, guard_drop w' g') ∧ rolls_back w0 g X T Y w' g'.
Proof.
  intros Ha Hi Hg Hat Hl. unfold write_packet. rewrite Hg.
  destruct (decide (length T < 2)%nat) as [H2|H2].
  - destruct (guard_write_none header [0; 0] w0 g X T Y header_valid header_in_place Hat H2)
      as (w' & g' & -> & Hr). by exists w', g'.
  - rewrite (guard_write_ok header [0; 0] w0 g X T Y header_valid Hat) by (simpl; lia).
    change (twire header [0; 0]) with [0; 0].
    pose proof (guard_at_adv w0 g X T Y [0; 0] [0; 0] Hat eq_refl ltac:(simpl; lia)) as Hat1.
    destruct (guard_write_none c a _ _ _ _ _ Ha Hi Hat1) as (w' & g' & -> & Hr);
      [rewrite length_drop; simpl; lia|].
    exists w', g'. split; [done|]. by eapply (rolls_back_adv _ _ _ _ _ [0; 0]); [simpl; lia|].
Qed.
End write_frame.

(** *** The shapes of the ring *)

Lemma pending_linear w A P T :
  mem w = A ++ P ++ T → start w = length A → end_ w = (length A + length P)%nat →
  pending_bytes w = P.
Proof.
  intros Hm Hs He. unfold pending_bytes, writable_parts. rewrite Hs, He.
  destruct (Nat.compare_spec (length A) (length A + length P)).
  - destruct P; [done|simpl in *; lia].
  - rewrite Hm, drop_app_length, app_nil_r. apply take_app_n. lia.
  - lia.
Qed.

Lemma pending_wrapped w B G A T :
  mem w = B ++ G ++ A ++ T → end_ w = length B → start w = (length B + length G)%nat →
  (0 < length G)%nat → len w = (length B + length G + length A)%nat →
  pending_bytes w = A ++ B.
Proof.
  intros Hm He Hs HG Hl. unfold pending_bytes, writable_parts. rewrite Hs, He, Hl.
  destruct (Nat.compare_spec (length B + length G) (length B)); [lia..|].
  rewrite Hm, take_app_length. f_equal.
  rewrite (assoc_L (++) B G), (drop_app_n (B ++ G)) by (rewrite length_app; lia).
  apply take_app_n. lia.
Qed.

(** A writer between polls: the queue is [start..end_], or wraps around the buffer's end. *)
Definition writer_settled (w : PacketWriter) : Prop :=
  writer_ok w ∧ ((start w ≤ end_ w)%nat → end_ w = len w).

Lemma linear_shape w :
  writer_settled w → (start w ≤ end_ w)%nat →
  ∃ A P T, mem w = A ++ P ++ T ∧ start w = length A ∧ end_ w = (length A + length P)%nat ∧
    len w = end_ w ∧ (length T = capacity w - len w)%nat.
Proof.
  intros [(H1 & H2 & H3) H4] Hle. specialize (H4 Hle). unfold capacity in *.
  exists (take (start w) (mem w)), (take (end_ w - start w) (drop (start w) (mem w))),
    (drop (end_ w) (mem w)).
  rewrite !length_take, !length_drop. repeat split; try lia.
  rewrite <-(take_drop (start w) (mem w)) at 1. f_equal.
  rewrite <-(take_drop (end_ w - start w) (drop (start w) (mem w))) at 1. f_equal.
  rewrite drop_drop. f_equal. lia.
Qed.

Lemma wrapped_shape w :
  writer_settled w → (end_ w < start w)%nat →
  ∃ B G A T, mem w = B ++ G ++ A ++ T ∧ end_ w = length B ∧ start w = (length B + length G)%nat ∧
    (0 < length G)%nat ∧ len w = (length B + length G + length A)%nat ∧
    (length T = capacity w - len w)%nat.
Proof.
  intros [(H1 & H2 & H3) _] Hlt. unfold capacity in *.
  exists (take (end_ w) (mem w)), (take (start w - end_ w) (drop (end_ w) (mem w))),
    (take (len w - start w) (drop (start w) (mem w))), (drop (len w) (mem w)).
  rewrite !length_take, !length_drop. repeat split; try lia.
  rewrite <-(take_drop (end_ w) (mem w)) at 1. f_equal.
  rewrite <-(take_drop (start w - end_ w) (drop (end_ w) (mem w))) at 1. f_equal.
  rewrite drop_drop. replace (end_ w + (start w - end_ w))%nat with (start w) by lia.
  rewrite <-(take_drop (len w - start w) (drop (start w) (mem w))) at 1. f_equal.
  rewrite drop_drop. f_equal. lia.
Qed.

(** *** What a write does *)

(** The room the guard picks: the hole at the front or between the two parts when it is larger
    than the unused capacity, the unused capacity otherwise. *)
Definition hole (w : PacketWriter) : nat :=
  if decide (end_ w < start w)%nat then start w - end_ w else start w.
Definition replaces (w : PacketWriter) : bool := bool_decide (capacity w - len w < hole w)%nat.
Definition write_room (w : PacketWriter) : nat :=
  if replaces w then hole w else (capacity w - len w)%nat.

Section write_cases.
Context {A : Type} (c : Codec A) `{!TailCodec c}.
Implicit Types (a : A) (w : PacketWriter).

(** The state after a successful write. *)
Definition write_result (p : bytes) w : bytes * nat * nat :=
  let n := (2 + length p)%nat in
  let at_ m x := take x m ++ len_frame p ++ drop (x + n) m in
  if replaces w then
    if decide (end_ w < start w)%nat then (at_ (mem w) (end_ w), len w, (end_ w + n)%nat)
    else (at_ (mem w) 0%nat, len w, n)
  else (at_ (mem w) (len w), (len w + n)%nat,
        if decide (start w ≤ end_ w)%nat then (len w + n)%nat else end_ w).

Lemma guard_cases w :
  guard w =
    if replaces w then
      (set_end {| mem := mem w; len := len w; start := start w; end_ := end_ w; waker := false |}
         (if decide (len w = end_ w) then 0%nat else end_ w),
       Replacing 0 (if decide (end_ w < start w)%nat then end_ w else 0) (start w))
    else
      ({| mem := mem w; len := len w; start := start w; end_ := end_ w; waker := false |},
       Extending (if decide (start w ≤ end_ w)%nat then Ok tt else Err (len w))).
Proof.
  unfold guard, replaces, hole. destruct (decide (end_ w < start w)%nat).
  - by case_decide; [rewrite bool_decide_true|rewrite bool_decide_false].
  - rewrite Nat.sub_0_r. by case_decide; [rewrite bool_decide_true|rewrite bool_decide_false].
Qed.

Lemma replaces_hole w : if replaces w then (0 < hole w)%nat else True.
Proof. unfold replaces. case_bool_decide; [lia|done]. Qed.

(** The buffer around the room the guard picks. *)
Definition guard_before w : bytes :=
  if replaces w then take (if decide (end_ w < start w)%nat then end_ w else 0) (mem w) else take (len w) (mem w).
Definition guard_room w : bytes := take (write_room w) (drop (length (guard_before w)) (mem w)).
Definition guard_after w : bytes := if replaces w then drop (start w) (mem w) else [].

Lemma guard_lengths w : writer_settled w →
  length (guard_before w) =
    (if replaces w then if decide (end_ w < start w)%nat then end_ w else 0 else len w)%nat ∧
  length (guard_room w) = write_room w ∧ (length (guard_before w) + write_room w ≤ capacity w)%nat.
Proof.
  intros [(O1 & O2 & O3) _]. unfold guard_room, guard_before, write_room, hole. unfold capacity in *.
  destruct (replaces w); [destruct (decide _)|]; rewrite !length_take, !length_drop, ?length_take; lia.
Qed.

Lemma guard_mem w : writer_settled w → mem w = guard_before w ++ guard_room w ++ guard_after w.
Proof.
  intros Hs. destruct (guard_lengths w Hs) as (Hb & _ & _). destruct Hs as [(O1 & O2 & O3) _].
  unfold guard_room. rewrite Hb. unfold guard_before, guard_after, write_room, hole, capacity in *.
  destruct (replaces w); [destruct (decide (end_ w < start w)%nat)|].
  - rewrite <-(take_drop (end_ w) (mem w)) at 1. f_equal.
    rewrite <-(take_drop (start w - end_ w) (drop (end_ w) (mem w))) at 1. f_equal.
    rewrite drop_drop. f_equal. lia.
  - symmetry. apply take_drop.
  - rewrite app_nil_r, (take_ge (drop _ _)) by (rewrite length_drop; lia). symmetry. apply take_drop.
Qed.

Lemma guard_opens w : writer_settled w →
  let (w0, g) := guard w in guard_at w0 g (guard_before w) (guard_room w) (guard_after w).
Proof.
  intros Hs. pose proof (guard_mem w Hs) as Hm. destruct (guard_lengths w Hs) as (Hb & Hr & Hc).
  rewrite guard_cases. destruct Hs as [(O1 & O2 & O3) Hlin]. unfold guard_at. rewrite Hr, Hb.
  unfold guard_after, write_room, hole in *.
  destruct (replaces w); [|destruct (decide (start w ≤ end_ w)%nat)]; cbn [mem set_end end_];
    (split; [done|]); [|split; [done|lia]..].
  split; [done|]. destruct (decide _); lia.
Qed.

Lemma framed_result w (p : bytes) : writer_settled w → (2 + length p ≤ write_room w)%nat →
  let (w0, g) := guard w in let '(m, l, e) := write_result p w in
  framed w0 g (guard_before w) (guard_room w) (guard_after w) p =
    {| mem := m; len := l; start := start w; end_ := e; waker := false |}.
Proof.
  intros Hs Hl. rewrite guard_cases. destruct (guard_lengths w Hs) as (Hb & Hr & Hc).
  destruct Hs as [(O1 & O2 & O3) Hlin].
  unfold framed, write_result, guard_room, guard_after. rewrite Hb.
  unfold guard_before, write_room, hole, capacity in *.
  destruct (replaces w); [destruct (decide (end_ w < start w)%nat)|destruct (decide (start w ≤ end_ w)%nat)];
    cbn [adv_w adv_g guard_drop set_end set_len set_mem mem len start end_ waker].
  - rewrite decide_False by lia. do 3 f_equal.
    replace (drop (start w) (mem w)) with (drop (start w - end_ w) (drop (end_ w) (mem w)))
      by (rewrite drop_drop; f_equal; lia).
    rewrite drop_take_drop by lia. by rewrite drop_drop.
  - rewrite (decide_True (P := len w = end_ w)) by lia. do 3 f_equal.
    rewrite drop_0, drop_take_drop by lia. done.
  - rewrite app_nil_r, (take_ge (drop _ _)) by (rewrite length_drop; lia). rewrite drop_drop, <-Hlin by lia.
    done.
  - rewrite app_nil_r, (take_ge (drop _ _)) by (rewrite length_drop; lia). by rewrite drop_drop.
Qed.

(** A write that did not fit leaves the queue as it was. *)
Lemma rollback_pending w w' g' : writer_settled w →
  (let (w0, g) := guard w in rolls_back w0 g (guard_before w) (guard_room w) (guard_after w) w' g') →
  pending_bytes (guard_drop w' g') = pending_bytes w ∧ writer_settled (guard_drop w' g').
Proof.
  intros Hs Hrb.
  assert (∃ T', length T' = length (guard_room w) ∧ guard_drop w' g' =
    let (w0, g) := guard w in rollback w0 g (guard_before w ++ T' ++ guard_after w)) as (T' & HT & ->)
    by (destruct (guard w); exact Hrb). clear Hrb. pose proof (guard_mem w Hs) as Hmem. rewrite guard_cases.
  destruct (guard_lengths w Hs) as (Hb & Hr & Hc). rewrite Hr in HT. pose proof (replaces_hole w) as Hrep.
  destruct Hs as [(O1 & O2 & O3) Hlin].
  set (m' := guard_before w ++ T' ++ guard_after w).
  assert (length m' = length (mem w)) as Hm' by
    (rewrite Hmem; unfold m'; by rewrite !length_app, HT, Hr).
  assert (∀ k, (k ≤ length (guard_before w))%nat → take k m' = take k (mem w)) as Htake.
  { intros k Hk. unfold m'. rewrite Hmem. by rewrite !take_app_le by done. }
  assert (∀ k, (length (guard_before w) + write_room w ≤ k)%nat → drop k m' = drop k (mem w)) as Hdrop.
  { intros k Hk. unfold m'. rewrite Hmem, !(assoc_L (++) (guard_before w)).
    rewrite !drop_app_ge by (rewrite length_app, ?HT, ?Hr; lia). by rewrite !length_app, HT, Hr. }
  unfold write_room, hole, capacity in *. unfold pending_bytes, writable_parts, writer_settled, writer_ok, capacity.
  destruct (replaces w); [destruct (decide (end_ w < start w)%nat)|destruct (decide (start w ≤ end_ w)%nat)];
    cbn [rollback set_end set_len set_mem mem len start end_ waker]; rewrite Hm', ?Hb in *.
  - rewrite decide_False by lia. split; [|lia].
    destruct (Nat.compare_spec (start w) (end_ w)); [lia..|]. by rewrite Htake, Hdrop by lia.
  - rewrite decide_True by lia. split; [|lia].
    destruct (Nat.compare_spec (start w) 0); [lia..|]. rewrite Hdrop, take_0 by lia.
    destruct (Nat.compare_spec (start w) (end_ w)); [|by rewrite Hlin by lia|lia].
    replace (len w - start w)%nat with 0%nat by lia. done.
  - rewrite <-Hlin by lia. split; [|lia]. destruct (Nat.compare_spec (start w) (end_ w)); [done| |lia].
    rewrite !take_drop_commute, Htake by lia. done.
  - split; [|lia]. destruct (Nat.compare_spec (start w) (end_ w)); [lia..|].
    rewrite !take_drop_commute, !Htake by lia. done.
Qed.

Lemma write_packet_ok a w :
  tvalid c a → writer_settled w → (2 + length (twire c a) ≤ write_room w)%nat →
  let '(m, l, e) := write_result (twire c a) w in
  write_packet c a w = (Some tt, {| mem := m; len := l; start := start w; end_ := e; waker := false |}).
Proof.
  intros Ha Hs Hr. pose proof (framed_result w (twire c a) Hs Hr) as Hf. pose proof (guard_opens w Hs) as Hat.
  destruct (guard_lengths w Hs) as (_ & Hl & _). destruct (guard w) as [w0 g] eqn:Hg.
  destruct (write_result _ w) as [[m l] e]. rewrite <-Hf.
  apply write_packet_framed; [done..|]. by rewrite Hl.
Qed.

Lemma write_packet_fail a w :
  tvalid c a → in_place (encode c a) → writer_settled w →
  (write_room w < 2 + length (twire c a))%nat →
  ∃ w', write_packet c a w = (None, w') ∧ pending_bytes w' = pending_bytes w ∧ writer_settled w'.
Proof.
  intros Ha Hi Hs Hr. pose proof (guard_opens w Hs) as Hat. pose proof (λ w' g', rollback_pending w w' g' Hs) as Hp.
  destruct (guard_lengths w Hs) as (_ & Hl & _). destruct (guard w) as [w0 g] eqn:Hg.
  destruct (write_packet_rolled_back c a w w0 g _ _ _ Ha Hi Hg Hat) as (w' & g' & -> & Hb); [by rewrite Hl|].
  eexists. split; [done|]. by apply Hp.
Qed.
End write_cases.

Section written_pending.
Context {A : Type} (c : Codec A) `{!TailCodec c}.
Implicit Types (a : A) (w : PacketWriter).

(** A frame of [n] bytes leaves the ring unambiguous: it does not fill the hole, and what is
    appended to the buffer's end is not behind a part that is sent later. *)
Definition safe_write (n : nat) (w : PacketWriter) : Prop :=
  if replaces w then (n < write_room w)%nat
  else (n ≤ write_room w)%nat ∧ (start w ≤ end_ w)%nat.

Lemma len_frame_length p : length (len_frame p) = (2 + length p)%nat.
Proof. unfold len_frame. by rewrite length_app, encode_len_length. Qed.

Lemma safe_write_pending a w :
  tvalid c a → writer_settled w → safe_write (2 + length (twire c a)) w →
  ∃ w', write_packet c a w = (Some tt, w') ∧
    pending_bytes w' = pending_bytes w ++ len_frame (twire c a) ∧ writer_settled w'.
Proof.
  intros Ha Hs Hw. pose proof (write_packet_ok c a w Ha Hs) as Hok.
  unfold safe_write, write_room, write_result, hole in *.
  pose proof (replaces_hole w) as Hrep. unfold hole in Hrep.
  destruct (replaces w); destruct (decide (end_ w < start w)%nat) as [Hlt|Hge]; [..|lia|].
  - rewrite Hok by lia. eexists. split; [done|].
    destruct (wrapped_shape w Hs Hlt) as (B & G & A' & T & Hm & He & Hst & HG & Hl & HT).
    rewrite (pending_wrapped w B G A' T) by done. split.
    + erewrite (pending_wrapped _ (B ++ len_frame (twire c a)) (drop (2 + length (twire c a)) G) A' T);
        simpl end_; simpl start; simpl len; rewrite ?length_app, ?length_drop, ?len_frame_length;
        [by rewrite (assoc_L (++))| |lia..].
      cbn [mem]. rewrite Hm, He, take_app_length, drop_app_add, drop_app_le, <-(assoc_L (++)) by lia.
      done.
    + pose proof (f_equal length Hm) as Hml. rewrite !length_app in Hml.
      split; [unfold writer_ok, capacity|]; cbn [mem len start end_]; [|lia].
      rewrite !length_app, length_take, length_drop, len_frame_length. lia.
  - rewrite Hok by lia. eexists. split; [done|].
    destruct (linear_shape w Hs ltac:(lia)) as (A' & P & T & Hm & Hst & He & Hl & HT).
    rewrite (pending_linear w A' P T) by done. split.
    + erewrite (pending_wrapped _ (len_frame (twire c a)) (drop (2 + length (twire c a)) A') P T);
        simpl end_; simpl start; simpl len; rewrite ?length_drop, ?len_frame_length;
        [done| |lia..].
      cbn [mem]. rewrite Hm, drop_app_le by (simpl; lia). by rewrite take_0.
    + pose proof (f_equal length Hm) as Hml. rewrite !length_app in Hml.
      split; [unfold writer_ok, capacity|]; cbn [mem len start end_]; [|lia].
      rewrite !length_app, length_take, length_drop, len_frame_length. lia.
  - destruct Hw as [Hw Hle]. rewrite decide_True in Hok by lia. rewrite Hok by lia.
    eexists. split; [done|].
    destruct (linear_shape w Hs ltac:(lia)) as (A' & P & T & Hm & Hst & He & Hl & HT).
    rewrite (pending_linear w A' P T) by done. split.
    + erewrite (pending_linear _ A' (P ++ len_frame (twire c a)) (drop (2 + length (twire c a)) T));
        simpl end_; simpl start; rewrite ?length_app, ?len_frame_length; [done| |lia..].
      cbn [mem]. replace (len w) with (length (A' ++ P)) by (rewrite length_app; lia).
      rewrite Hm, (assoc_L (++) A'), take_app_length, drop_app_add. by rewrite <-!(assoc_L (++)).
    + unfold capacity in HT. pose proof (f_equal length Hm) as Hml. rewrite !length_app in Hml.
      split; [unfold writer_ok, capacity|]; cbn [mem len start end_]; [|lia].
      rewrite !length_app, length_take, length_drop, len_frame_length. lia.
Qed.
End written_pending.

(** *** What a poll does *)

Section writer_poll_laws.
Context {D : Type} `{AsyncWrite D}.

(** One round: the first non-empty part, and the writer after some of it is gone. *)
Lemma advance_pending w n :
  writer_ok w →
  let (first, second) := writable_parts w in
  (0 < n ≤ length (match first with [] => second | _ => first end))%nat →
  writer_ok (advance_start w n) ∧
  take n (match first with [] => second | _ => first end) ++ pending_bytes (advance_start w n) =
    pending_bytes w.
Proof.
  intros (H1 & H2 & H3). unfold capacity in H1. unfold pending_bytes at 2.
  unfold writable_parts at 1 2.
  destruct (Nat.compare_spec (start w) (end_ w)) as [He|Hlt|Hgt].
  - simpl. lia.
  - set (l := take (end_ w - start w) (drop (start w) (mem w))).
    assert (length l = end_ w - start w)%nat as Hl by (unfold l; rewrite length_take, length_drop; lia).
    assert (match l with [] => [] | _ :: _ => l end = l) as -> by by destruct l.
    rewrite Hl. intros Hn. rewrite app_nil_r.
    assert (advance_start w n = {| mem := mem w; len := len w; start := start w + n; end_ := end_ w;
                                   waker := waker w |}) as -> by
      (unfold advance_start; by rewrite decide_False by lia).
    split; [unfold writer_ok, capacity; simpl; lia|].
    rewrite <-(take_drop n l) at 2. f_equal.
    erewrite (pending_linear _ (take (start w + n) (mem w)) (drop n l) (drop (end_ w) (mem w)));
      simpl; rewrite ?length_take, ?length_drop; [done| |lia..].
    unfold l. rewrite skipn_firstn_comm, drop_drop.
    rewrite <-(take_drop (start w + n) (mem w)) at 1. f_equal.
    rewrite <-(take_drop (end_ w - start w - n) (drop (start w + n) (mem w))) at 1. f_equal.
    rewrite drop_drop. f_equal. lia.
  - set (l := take (len w - start w) (drop (start w) (mem w))).
    set (k := take (end_ w) (mem w)).
    assert (length l = len w - start w)%nat as Hl by (unfold l; rewrite length_take, length_drop; lia).
    assert (length k = end_ w)%nat as Hk by (unfold k; rewrite length_take; lia).
    destruct (decide (start w = len w)) as [Hsl|Hsl].
    + assert (l = []) as -> by (destruct l; [done|simpl in *; lia]). rewrite Hk. intros Hn.
      unfold advance_start. rewrite decide_True by lia.
      replace (start w + n - len w)%nat with n by lia.
      split; [unfold writer_ok, capacity; simpl; lia|]. simpl.
      rewrite <-(take_drop n k) at 2. f_equal.
      erewrite (pending_linear _ (take n (mem w)) (drop n k) (drop (end_ w) (mem w)));
        simpl; rewrite ?length_take, ?length_drop; [done| |lia..].
      unfold k. rewrite <-(take_drop n (mem w)) at 1. f_equal.
      rewrite skipn_firstn_comm. rewrite <-(take_drop (end_ w - n) (drop n (mem w))) at 1.
      f_equal. rewrite drop_drop. f_equal. lia.
    + assert (match l with [] => k | _ :: _ => l end = l) as ->
        by (destruct l; [simpl in Hl; lia|done]).
      rewrite Hl. intros Hn. unfold advance_start. rewrite decide_False by lia.
      split; [unfold writer_ok, capacity; simpl; lia|].
      rewrite <-(take_drop n l) at 2. rewrite <-(assoc_L (++)). f_equal.
      unfold pending_bytes, writable_parts; simpl.
      destruct (Nat.compare_spec (start w + n) (end_ w)); [lia..|].
      unfold l, k. rewrite skipn_firstn_comm, drop_drop. f_equal.
      replace (len w - (start w + n))%nat with (len w - start w - n)%nat by lia. done.
Qed.

Lemma poll_done_settled w :
  writer_ok w → pending_bytes w = [] →
  writer_settled (poll_done w) ∧ pending_bytes (poll_done w) = [].
Proof.
  intros (H1 & H2 & H3) Hp. unfold capacity in H1. unfold poll_done.
  case_decide as He; [rewrite decide_True by lia|].
  { split; [|done]. split; [|simpl; lia]. unfold writer_ok, capacity; simpl; lia. }
  unfold pending_bytes, writable_parts in Hp.
  destruct (Nat.compare_spec (start w) (end_ w)) as [?|Hlt|Hgt]; [done| |].
  - apply (f_equal length) in Hp. rewrite app_nil_r, length_take, length_drop in Hp. simpl in Hp. lia.
  - rewrite decide_False by lia. split.
    + split; [|simpl; lia]. unfold writer_ok, capacity; simpl; lia.
    + unfold pending_bytes, writable_parts. simpl.
      by destruct (Nat.compare_spec (start w) (end_ w)); [lia..|].
Qed.

Lemma poll_loop_spec fuel w (d : D) :
  writer_ok w → (length (pending_bytes w) ≤ fuel)%nat →
  let '(res, w', d') := poll_loop fuel w d in
  writer_ok w' ∧ received d' ++ pending_bytes w' = received d ++ pending_bytes w ∧
  (res = Ready (Ok tt) → pending_bytes w' = [] ∧ writer_settled w').
Proof.
  revert w d. induction fuel as [|fuel IH]; intros w d Hok Hf; cbn [poll_loop];
    pose proof (advance_pending w) as Had; pose proof (poll_done_settled w Hok) as Hds;
    unfold pending_bytes in Hds at 1; unfold pending_bytes in Hf;
    destruct (writable_parts w) as [first second] eqn:Hw;
    (destruct (match first with [] => second | _ => first end) as [|b bs] eqn:Hb;
     [assert (first = [] ∧ second = []) as [-> ->] by (by destruct first)|]).
  - destruct (Hds eq_refl) as [Hs Hn]. split; [apply Hs|]. rewrite Hn. split; [|done].
    unfold pending_bytes. by rewrite Hw.
  - exfalso. destruct first, second; simpl in *; simplify_eq; lia.
  - destruct (Hds eq_refl) as [Hs Hn]. split; [apply Hs|]. rewrite Hn. split; [|done].
    unfold pending_bytes. by rewrite Hw.
  - pose proof (poll_write_law (b :: bs) d) as Hl.
    destruct (poll_write (b :: bs) d) as [[[n|e]|] d']; [|split; [done|]; by rewrite Hl..].
    destruct Hl as [Hn Hl]. case_decide as Hz.
    + subst n. split; [done|]. rewrite Hl. simpl. by rewrite app_nil_r.
    + destruct (Had n Hok ltac:(lia)) as [Hok' Hp].
      specialize (IH (advance_start w n) d' Hok').
      destruct (poll_loop fuel (advance_start w n) d') as [[res w'] d''].
      destruct IH as (I1 & I2 & I3).
      * assert (pending_bytes w = first ++ second) as Hpw by (unfold pending_bytes; by rewrite Hw).
        rewrite Hpw in Hp. apply (f_equal length) in Hp. rewrite length_app, length_take in Hp. lia.
      * split; [done|]. split; [|done]. rewrite I2, Hl, <-(assoc_L (++)). by rewrite Hp.
Qed.
End writer_poll_laws.

(** *** Both on one connection *)

Section duplex_laws.
Context {C : Type} `{Duplex C}.
Implicit Types (c : C).

Lemma read_exact_loop_received fuel amount r c :
  received (snd (read_exact_loop fuel amount r c)) = received c.
Proof.
  revert r c. induction fuel as [|fuel IH]; intros r c; cbn [read_exact_loop]; (case_decide; [done|]); [done|].
  pose proof (poll_read_received (amount - read_offset r) c) as Hr.
  destruct (poll_read _ c) as [[[bs|]|] c']; simpl in Hr; [|done..].
  case_decide; [done|]. by rewrite IH.
Qed.

Lemma poll_read_exact_received amount r c : received (snd (poll_read_exact amount r c)) = received c.
Proof. unfold poll_read_exact. case_decide; [done|apply read_exact_loop_received]. Qed.

Lemma poll_packet_received r c : received (snd (poll_packet r c)) = received c.
Proof.
  unfold poll_packet. pose proof (poll_read_exact_received PACKET_LEN_WIDTH r c) as Hh.
  destruct (poll_read_exact PACKET_LEN_WIDTH r c) as [[[[]|] r1] c1]; simpl in Hh; [|done..].
  set (amount := (_ + PACKET_LEN_WIDTH)%nat). rewrite <-Hh, <-(poll_read_exact_received amount r1 c1).
  by destruct (poll_read_exact amount r1 c1) as [[[[]|] r2] c2].
Qed.

Lemma poll_loop_content fuel w c : content (snd (poll_loop fuel w c)) = content c.
Proof.
  revert w c. induction fuel as [|fuel IH]; intros w c; cbn [poll_loop];
    destruct (writable_parts w) as [first second];
    destruct (match first with [] => second | _ => first end) as [|b bs]; [done..|].
  pose proof (poll_write_content (b :: bs) c) as Hc.
  destruct (poll_write (b :: bs) c) as [[[n|]|] c']; simpl in Hc; [|done..].
  case_decide; [done|]. by rewrite IH.
Qed.

Lemma writer_poll_content w c : content (snd (writer_poll w c)) = content c.
Proof. unfold writer_poll. destruct (writable_parts w). apply poll_loop_content. Qed.
End duplex_laws.

(** ** Properties *)

(** However the stream cuts the bytes into reads, waits or fails, the packets returned by
    any number of polls are the packets that were written, in order and without loss: what is
    missing is still in the reader's buffer and the stream. *)
Theorem packet_reader_delivers `{AsyncRead R} (n : nat) (s : R) (packets : list bytes) :
  Forall (λ p, Z.of_nat (length p) < 65536) packets →
  content s = concat (map len_frame packets) →
  let '(ps, r', s') := poll_packets n packet_reader_default s in
  ∃ later, packets = ps ++ later ∧
    take (read_offset r') (read_buffer r') ++ content s' = concat (map len_frame later).
Proof.
  intros Hp Hs. assert (reader_ok packet_reader_default) as Hok by (split; simpl; lia).
  pose proof (poll_packets_spec n packet_reader_default s packets Hp Hok Hs) as Hr.
  destruct (poll_packets n packet_reader_default s) as [[ps r'] s']. apply Hr.
Qed.

Lemma packet_reader_delivers_witness :
  let s := [Chunk [0]; Wait; Chunk [2; 7]; Break; Chunk [8; 0; 0; 0]; Chunk [1; 9]] in
  fst (fst (poll_packets 6 packet_reader_default s)) = [[7; 8]; []] ∧
  let '(ps, r', s') := poll_packets 6 packet_reader_default s in
  ∃ later, [[7; 8]; []; [9]] = ps ++ later ∧
    take (read_offset r') (read_buffer r') ++ content s' = concat (map len_frame later).
Proof.
  intros s. split; [vm_compute; reflexivity|].
  apply (packet_reader_delivers 6 s [[7; 8]; []; [9]]); [decided|reflexivity].
Defined.

(** C31: A stream that always has an answer needs one poll per packet: reading never stalls on
    the bytes of a packet that is there. *)
Theorem packet_reader_complete `{AsyncRead R} (s : R) (packets : list bytes) :
  (∀ room (s : R), (0 < room)%nat → ∃ bs s', poll_read room s = (Ready (Ok bs), s')) →
  Forall (λ p, Z.of_nat (length p) < 65536) packets →
  content s = concat (map len_frame packets) →
  fst (fst (poll_packets (length packets) packet_reader_default s)) = packets.
Proof.
  intros He Hp Hs. apply poll_packets_eager; [done|done|split; simpl; lia|done].
Qed.

(** Bytes in memory, three at a time. *)
#[local] Instance slice_reader : AsyncRead bytes.
Proof.
  refine {| poll_read room s := (Ready (Ok (take (Nat.min room 3) s)), drop (Nat.min room 3) s);
            content s := s |}.
  intros room s Hr. rewrite take_drop. split; [rewrite length_take; lia|]. split; [done|].
  destruct s; [done|]. by destruct room as [|[|[]]]; [lia|..].
Defined.

Lemma packet_reader_complete_witness :
  fst (fst (poll_packets 3 packet_reader_default [0; 2; 7; 8; 0; 0; 0; 4; 1; 2; 3; 4])) =
    [[7; 8]; []; [1; 2; 3; 4]].
Proof.
  refine (packet_reader_complete (R := bytes) [0; 2; 7; 8; 0; 0; 0; 4; 1; 2; 3; 4]
            [[7; 8]; []; [1; 2; 3; 4]] _ _ _); [|decided|reflexivity].
  intros room s _. eexists _, _. reflexivity.
Defined.

(** Between polls, [write_packet] appends the framed message to the queue of bytes waiting
    to be sent when the chosen room holds it (without filling a hole exactly or being put
    behind the wrapped part), and leaves the queue as it was when the room is too small. *)
Theorem write_packet_queues {A} (c : Codec A) `{!TailCodec c} (message : A) (w : PacketWriter) :
  tvalid c message → in_place (encode c message) → writer_settled w →
  let frame := len_frame (twire c message) in
  (safe_write (length frame) w →
   ∃ w', write_packet c message w = (Some tt, w') ∧
     pending_bytes w' = pending_bytes w ++ frame ∧ writer_settled w') ∧
  ((write_room w < length frame)%nat →
   ∃ w', write_packet c message w = (None, w') ∧
     pending_bytes w' = pending_bytes w ∧ writer_settled w').
Proof.
  intros Hv Hi Hs frame. unfold frame. rewrite len_frame_length. split; intros Hr.
  - by apply (safe_write_pending c).
  - by apply (write_packet_fail c).
Qed.

Definition demo_writer (memory : bytes) (l s e : nat) : PacketWriter :=
  {| mem := memory; len := l; start := s; end_ := e; waker := false |}.

Lemma write_packet_queues_witness :
  let w := demo_writer [1; 2; 3; 4; 5; 6; 7; 8] 7 5 7 in
  pending_bytes w = [6; 7] ∧
  (∃ w', write_packet reminder_codec [9; 9] w = (Some tt, w') ∧
     pending_bytes w' = pending_bytes w ++ len_frame [9; 9] ∧ writer_settled w') ∧
  (∃ w', write_packet reminder_codec [9; 9; 9; 9] w = (None, w') ∧
     pending_bytes w' = pending_bytes w ∧ writer_settled w').
Proof.
  intros w. assert (∀ l, tvalid reminder_codec l) as Hv by done.
  assert (writer_settled w) as Hw
    by (split; [unfold writer_ok, capacity; simpl; lia|done]).
  split; [reflexivity|]. split.
  - apply (proj1 (write_packet_queues reminder_codec [9; 9] w (Hv _) (in_place_extend _) Hw)). vm_compute. lia.
  - apply (proj2 (write_packet_queues reminder_codec [9; 9; 9; 9] w (Hv _) (in_place_extend _) Hw)). vm_compute. lia.
Defined.

(** The two cases the ring cannot tell apart: a packet that exactly fills the hole makes
    the writer forget everything it has queued, that packet included, and a packet appended
    while the queue is wrapped is sent before the wrapped part that was queued earlier. *)
Theorem write_packet_ring_defects {A} (c : Codec A) `{!TailCodec c} (message : A) (w : PacketWriter) :
  tvalid c message → writer_settled w →
  let frame := len_frame (twire c message) in
  (replaces w = true → length frame = write_room w →
   ∃ w', write_packet c message w = (Some tt, w') ∧ pending_bytes w' = []) ∧
  (replaces w = false → (end_ w < start w)%nat → (length frame ≤ write_room w)%nat →
   ∃ w' first second, write_packet c message w = (Some tt, w') ∧
     pending_bytes w = first ++ second ∧ length second = end_ w ∧
     pending_bytes w' = first ++ frame ++ second).
Proof.
  intros Hv Hs frame. pose proof (write_packet_ok c message w Hv Hs) as Hok.
  unfold frame. rewrite len_frame_length. unfold write_room, write_result, hole in *.
  split; intros Hrep; rewrite Hrep in *.
  - intros Hn. destruct (decide (end_ w < start w)%nat) as [Hlt|Hge];
      rewrite Hok by lia; (eexists; split; [done|]);
      unfold pending_bytes, writable_parts; cbn [start end_ len mem];
      match goal with |- context [Nat.compare ?x ?y] => destruct (Nat.compare_spec x y) end;
      (done || lia).
  - intros Hlt Hn. rewrite decide_False in Hok by lia. rewrite Hok by lia.
    destruct (wrapped_shape w Hs Hlt) as (B & G & A' & T & Hm & He & Hst & HG & Hl & HT).
    eexists _, A', B. split; [done|]. split; [by apply (pending_wrapped w B G A' T)|].
    split; [done|].
    erewrite (pending_wrapped _ B G (A' ++ len_frame (twire c message))
                (drop (2 + length (twire c message)) T)); cbn [mem start end_ len];
      rewrite ?length_app, ?len_frame_length; [by rewrite <-(assoc_L (++))| |lia..].
    replace (len w) with (length (B ++ G ++ A')) by (rewrite !length_app; lia).
    assert (mem w = (B ++ G ++ A') ++ T) as -> by by rewrite <-!(assoc_L (++)).
    by rewrite take_app_length, drop_app_add, <-!(assoc_L (++)).
Qed.

Lemma write_packet_ring_defects_witness :
  let full := demo_writer [1; 2; 3; 4; 5; 6; 7; 8] 8 4 8 in
  let wrapped := demo_writer [1; 2; 3; 4; 5; 6; 7; 8] 4 2 1 in
  pending_bytes full = [5; 6; 7; 8] ∧
  (∃ w', write_packet reminder_codec [9; 9] full = (Some tt, w') ∧ pending_bytes w' = []) ∧
  (∃ w' first second, write_packet reminder_codec [9; 9] wrapped = (Some tt, w') ∧
     pending_bytes wrapped = first ++ second ∧ length second = 1%nat ∧
     pending_bytes w' = first ++ len_frame [9; 9] ++ second).
Proof.
  intros full wrapped. assert (∀ l, tvalid reminder_codec l) as Hv by done.
  split; [reflexivity|]. split.
  - apply (proj1 (write_packet_ring_defects reminder_codec [9; 9] full (Hv _)
                    ltac:(split; [unfold writer_ok, capacity; simpl; lia|done]))); reflexivity.
  - apply (proj2 (write_packet_ring_defects reminder_codec [9; 9] wrapped (Hv _)
                    ltac:(split; [unfold writer_ok, capacity; simpl; lia|simpl; lia])));
      [reflexivity|simpl; lia|vm_compute; lia].
Defined.

(** Polling hands the queue to the destination in order, never losing or repeating a byte,
    whatever the destination accepts; when it reports completion the queue is empty and the
    ring is ready for further packets. *)
Theorem writer_poll_delivers `{AsyncWrite D} (w : PacketWriter) (dest : D) :
  writer_ok w →
  let '(res, w', dest') := writer_poll w dest in
  writer_ok w' ∧ received dest' ++ pending_bytes w' = received dest ++ pending_bytes w ∧
  (res = Ready (Ok tt) → pending_bytes w' = [] ∧ writer_settled w').
Proof.
  intros Hw. unfold writer_poll.
  pose proof (poll_loop_spec (length (pending_bytes w)) w dest Hw ltac:(lia)) as Hp.
  unfold pending_bytes at 1 in Hp. by destruct (writable_parts w).
Qed.

Lemma writer_poll_delivers_witness :
  let w := demo_writer [1; 2; 3; 4; 5] 5 3 2 in
  let d := {| budgets := [1; 5; 1]%nat; sunk := [] |} in
  pending_bytes w = [4; 5; 1; 2] ∧ received (snd (writer_poll w d)) = [4; 5; 1] ∧
  let '(res, w', d') := writer_poll w d in
  writer_ok w' ∧ received d' ++ pending_bytes w' = received d ++ pending_bytes w ∧
  (res = Ready (Ok tt) → pending_bytes w' = [] ∧ writer_settled w').
Proof.
  intros w d. split; [reflexivity|]. split; [vm_compute; reflexivity|].
  apply (writer_poll_delivers w d). unfold writer_ok, capacity; simpl; lia.
Defined.
