(* ===== verification/Collections.v ===== *)
(** The small collections of [utils/component-utils]: [LinearMap] of [src/stream.rs], and
    [FindAndRemove] of [src/lib.rs]. *)

From S2P Require Import Prelude.

(** ** Vectors *)

(* Vec::swap_remove: the last element takes the place of the removed one *)
Definition swap_remove {A} (index : nat) (l : list A) : option (A * list A) :=
  match l !! index, last l with
  | Some x, Some y =>
      Some (x, if decide (S index = length l) then take index l
               else take index l ++ y :: take (length l - index - 2) (drop (S index) l))
  | _, _ => None
  end.

(* iter().position(q) *)
Fixpoint position {A} (q : A → bool) (l : list A) : option nat :=
  match l with
  | [] => None
  | x :: l => if q x then Some 0%nat else S <$> position q l
  end.

(* FindAndRemove for Vec and ArrayVec *)
Definition find_and_remove {A} (q : A → bool) (l : list A) : option (A * list A) :=
  match position q l with
  | Some index => swap_remove index l
  | None => None
  end.

Definition find_and_remove_value {A} `{EqDecision A} (value : A) (l : list A) :
    option (A * list A) :=
  find_and_remove (λ x, bool_decide (x = value)) l.

(** [slice::binary_search_by_key] of the standard library: [Ok] the index of an equal key or
    [Err] the index where it belongs. *)
Fixpoint binary_search_loop (fuel : nat) (ks : list Z) (key : Z) (left right : nat) : result nat nat :=
  match fuel with
  | O => Err left
  | S fuel =>
      if decide (left < right)%nat then
        let mid := (left + (right - left) / 2)%nat in
        match ks !! mid with
        | None => Err left
        | Some k =>
            if decide (k < key) then binary_search_loop fuel ks key (S mid) right
            else if decide (key < k) then binary_search_loop fuel ks key left mid
            else Ok mid
        end
      else Err left
  end.

Definition binary_search (ks : list Z) (key : Z) : result nat nat :=
  binary_search_loop (S (length ks)) ks key 0 (length ks).

(** ** LinearMap *)

Module LinearMap.
Section linear_map.
Context {K V : Type} `{EqDecision K}.

Record LinearMap := { values : list (K * V) }.

Definition default : LinearMap := {| values := [] |}.

Definition is_key (key : K) : K * V → bool := λ kv, bool_decide (kv.1 = key).

(* the old value, and the map *)
Definition insert (key : K) (value : V) (m : LinearMap) : option V * LinearMap :=
  match position (is_key key) (values m) with
  | Some index =>
      (snd <$> values m !! index, {| values := <[index:=(key, value)]> (values m) |})
  | None => (None, {| values := values m ++ [(key, value)] |})
  end.

Definition remove (key : K) (m : LinearMap) : option V * LinearMap :=
  match position (is_key key) (values m) with
  | Some index =>
      match swap_remove index (values m) with
      | Some (kv, l) => (Some kv.2, {| values := l |})
      | None => (None, m)
      end
  | None => (None, m)
  end.

Definition get (key : K) (m : LinearMap) : option V :=
  snd <$> (position (is_key key) (values m) ≫= λ i, values m !! i).

Definition len (m : LinearMap) : nat := length (values m).
Definition is_empty (m : LinearMap) : bool := bool_decide (values m = []) .
Definition keys (m : LinearMap) : list K := (values m).*1.
Definition contains_key (key : K) (m : LinearMap) : bool := existsb (is_key key) (values m).

(* entry: the index of the value it points to *)
Definition entry (key : K) (dflt : V) (m : LinearMap) : nat * LinearMap :=
  match position (is_key key) (values m) with
  | Some index => (index, m)
  | None => (length (values m), {| values := values m ++ [(key, dflt)] |})
  end.
End linear_map.
Arguments LinearMap : clear implicits.
End LinearMap.

(** ** Lemmas *)

Lemma position_some {A} (q : A → bool) l i :
  position q l = Some i → ∃ x, l !! i = Some x ∧ q x = true.
Proof.
  revert i. induction l as [|y l IH]; intros i; simpl; [done|].
  destruct (q y) eqn:Hq; [intros; simplify_eq; by exists y|].
  intros (j & Hj & ->)%fmap_Some. by apply IH in Hj.
Qed.

Lemma position_first {A} (q : A → bool) l i :
  position q l = Some i → Forall (λ x, q x = false) (take i l).
Proof.
  revert i. induction l as [|y l IH]; intros i; simpl; [done|].
  destruct (q y) eqn:Hq; [intros; by simplify_eq|].
  intros (j & Hj & ->)%fmap_Some. simpl. constructor; auto.
Qed.

Lemma position_none {A} (q : A → bool) l : position q l = None ↔ Forall (λ x, q x = false) l.
Proof.
  induction l as [|y l IH]; simpl; [done|]. rewrite Forall_cons.
  destruct (q y) eqn:Hq; [split; [done|by intros [? _]]|].
  rewrite fmap_None, IH. split; [by split|by intros []].
Qed.

Lemma swap_remove_perm {A} i (l : list A) x :
  l !! i = Some x → ∃ l', swap_remove i l = Some (x, l') ∧ x :: l' ≡ₚ l.
Proof.
  intros Hi. unfold swap_remove. rewrite Hi.
  pose proof (lookup_lt_Some _ _ _ Hi) as Hlt.
  destruct (last l) as [y|] eqn:Hy; [|apply last_None in Hy as ->; done].
  apply last_Some in Hy as [l0 ->]. rewrite length_app in *. simpl in *.
  eexists. split; [done|]. case_decide as Hd.
  - replace i with (length l0) in * by lia. rewrite list_lookup_middle in Hi by done. simplify_eq.
    rewrite take_app_length. apply Permutation_cons_append.
  - rewrite lookup_app_l in Hi by lia.
    assert (∃ l1 l2, l0 = l1 ++ x :: l2 ∧ length l1 = i) as (l1 & l2 & -> & <-).
    { exists (take i l0), (drop (S i) l0). rewrite take_drop_middle by done.
      split; [done|]. rewrite length_take. lia. }
    rewrite length_app in *. simpl in *.
    rewrite <-(assoc_L (++)), take_app_length.
    replace (S (length l1)) with (length (l1 ++ [x])) by (rewrite length_app; simpl; lia).
    change ((x :: l2) ++ [y]) with ([x] ++ l2 ++ [y]). rewrite (assoc_L (++) l1), drop_app_length.
    rewrite take_app_n by lia. rewrite <-(assoc_L (++)). simpl.
    rewrite Permutation_middle. apply Permutation_app_head.
    apply Permutation_cons; [done|]. apply Permutation_cons_append.
Qed.

(** *** Sorted keys *)

Notation sorted := (StronglySorted Z.lt).

Lemma sorted_app l1 l2 :
  sorted (l1 ++ l2) ↔ sorted l1 ∧ sorted l2 ∧ (∀ x y, x ∈ l1 → y ∈ l2 → x < y).
Proof.
  induction l1 as [|x l1 IH]; simpl.
  - split; [|by intros (_ & ? & _)]. intros H. split; [constructor|]. split; [done|].
    by intros x y ?%not_elem_of_nil.
  - split.
    + intros [H1 H2]%StronglySorted_inv. apply IH in H1 as (H3 & H4 & H5).
      rewrite Forall_app in H2. destruct H2 as [H6 H7]. rewrite Forall_forall in H7.
      split; [by constructor|]. split; [done|].
      intros a b [->|Ha]%elem_of_cons Hb; [by apply H7|by apply H5].
    + intros (H1 & H2 & H3). apply StronglySorted_inv in H1 as [H4 H5].
      constructor; [apply IH; split; [done|]; split; [done|]|].
      * intros a b Ha Hb. apply H3; [by constructor|done].
      * rewrite Forall_app. split; [done|]. apply Forall_forall. intros b Hb. apply H3; [constructor|done].
Qed.

Lemma sorted_lookup_lt l i j x y :
  sorted l → l !! i = Some x → l !! j = Some y → (i < j)%nat → x < y.
Proof.
  intros Hs Hi Hj Hlt. rewrite <-(take_drop_middle l i x Hi) in Hs, Hj.
  assert (length (take i l) = i) as Hl by (apply lookup_lt_Some in Hi; rewrite length_take; lia).
  apply sorted_app in Hs as (_ & Hs & _). apply StronglySorted_inv in Hs as [_ Hs].
  rewrite lookup_app_r, lookup_cons_ne_0 in Hj by lia.
  rewrite Forall_forall in Hs. apply Hs. by eapply list_elem_of_lookup_2.
Qed.

Lemma sorted_nodup l : sorted l → NoDup l.
Proof.
  induction 1 as [|x l _ IH Hx]; constructor; [|done]. intros Hel. rewrite Forall_forall in Hx.
  apply Hx in Hel. lia.
Qed.

Lemma binary_search_loop_spec fuel ks key left right :
  sorted ks → (right - left < fuel)%nat → (left ≤ right)%nat → (right ≤ length ks)%nat →
  (∀ i k, ks !! i = Some k → (i < left)%nat → k < key) →
  (∀ i k, ks !! i = Some k → (right ≤ i)%nat → key < k) →
  match binary_search_loop fuel ks key left right with
  | Ok i => ks !! i = Some key
  | Err i => (i ≤ length ks)%nat ∧ Forall (λ k, k < key) (take i ks) ∧ Forall (λ k, key < k) (drop i ks)
  end.
Proof.
  intros Hs. revert left right.
  induction fuel as [|fuel IH]; intros left right Hf Hlr Hr Hlo Hhi; [lia|].
  cbn [binary_search_loop]. case_decide as Hd.
  - set (mid := (left + (right - left) / 2)%nat).
    pose proof (Nat.div_lt (right - left) 2 ltac:(lia) ltac:(lia)).
    destruct (lookup_lt_is_Some_2 ks mid) as [k Hk]; [unfold mid; lia|]. rewrite Hk.
    case_decide as H1; [|case_decide as H2].
    + apply IH; [unfold mid; lia..| |done]. intros i x Hx Hi.
      destruct (decide (i = mid)) as [->|]; [congruence|].
      pose proof (sorted_lookup_lt ks i mid x k Hs Hx Hk ltac:(lia)). lia.
    + apply IH; [unfold mid; lia..|done|]. intros i x Hx Hi.
      destruct (decide (i = mid)) as [->|]; [congruence|].
      pose proof (sorted_lookup_lt ks mid i k x Hs Hk Hx ltac:(lia)). lia.
    + rewrite Hk. f_equal. lia.
  - split; [lia|]. split; apply Forall_lookup; intros i k.
    + rewrite lookup_take_Some. intros [Hk Hi]. by eapply Hlo.
    + rewrite lookup_drop. intros Hk. eapply Hhi; [done|]. lia.
Qed.

Lemma binary_search_spec ks key :
  sorted ks →
  match binary_search ks key with
  | Ok i => ks !! i = Some key
  | Err i => (i ≤ length ks)%nat ∧ Forall (λ k, k < key) (take i ks) ∧ Forall (λ k, key < k) (drop i ks)
  end.
Proof.
  intros Hs. apply binary_search_loop_spec; try lia; try done.
  intros i k Hk Hi. apply lookup_lt_Some in Hk. lia.
Qed.

Module LinearMapFacts.
Import LinearMap.

Section facts.
Context {K V : Type} `{Countable K}.
Implicit Types (m : LinearMap K V) (k : K) (v : V) (l : list (K * V)).

(** A well-formed map has one entry per key; it stands for a finite map. *)
Definition wf m : Prop := NoDup (keys m).
Definition to_map m : gmap K V := list_to_map (values m).

Lemma is_key_true k (kv : K * V) : is_key k kv = true ↔ kv.1 = k.
Proof. unfold is_key. by rewrite bool_decide_eq_true. Qed.

Lemma position_key k l i :
  position (is_key k) l = Some i →
  ∃ v l1 l2, l = l1 ++ (k, v) :: l2 ∧ i = length l1.
Proof.
  intros ([k' v] & Hi & Hk%is_key_true)%position_some. simpl in Hk. subst k'.
  exists v, (take i l), (drop (S i) l). rewrite take_drop_middle by done. split; [done|].
  apply lookup_lt_Some in Hi. rewrite length_take. lia.
Qed.

Lemma position_no_key k l : position (is_key k) l = None → k ∉ l.*1.
Proof.
  rewrite position_none, Forall_forall. intros Hf (kv & -> & Hel)%list_elem_of_fmap.
  apply Hf, not_true_iff_false in Hel. apply Hel. by apply is_key_true.
Qed.

Lemma to_map_middle l1 k v l2 :
  NoDup (l1 ++ (k, v) :: l2).*1 →
  (list_to_map (l1 ++ (k, v) :: l2) : gmap K V) = <[k:=v]> (list_to_map (l1 ++ l2)) ∧
  NoDup (l1 ++ l2).*1 ∧ k ∉ (l1 ++ l2).*1.
Proof.
  intros Hn. assert (l1 ++ (k, v) :: l2 ≡ₚ (k, v) :: l1 ++ l2) as Hp
    by (symmetry; apply Permutation_middle).
  split; [by rewrite (list_to_map_proper _ _ Hn Hp)|].
  rewrite Hp in Hn. simpl in Hn. by apply NoDup_cons in Hn as [? ?].
Qed.

Lemma get_to_map k m : get k m = to_map m !! k.
Proof.
  unfold get, to_map. destruct (position (is_key k) (values m)) as [i|] eqn:Hp; simpl.
  - pose proof (position_first _ _ _ Hp) as Hf.
    apply position_key in Hp as (v & l1 & l2 & Hl & ->). rewrite Hl in *.
    rewrite take_app_length in Hf. rewrite list_lookup_middle by done. simpl.
    rewrite list_to_map_app, lookup_union_r by
      (apply not_elem_of_list_to_map_1, position_no_key, position_none, Hf).
    simpl. by rewrite lookup_insert_eq.
  - symmetry. by apply not_elem_of_list_to_map_1, position_no_key.
Qed.

Lemma insert_to_map k v m :
  wf m → (insert k v m).1 = to_map m !! k ∧
         to_map (insert k v m).2 = <[k:=v]> (to_map m) ∧ wf (insert k v m).2.
Proof.
  unfold wf, keys. intros Hn. rewrite <-get_to_map. unfold insert, get, to_map.
  destruct (position (is_key k) (values m)) as [i|] eqn:Hp; simpl.
  - apply position_key in Hp as (v0 & l1 & l2 & Hl & ->). rewrite Hl in *.
    rewrite insert_app_r_alt, Nat.sub_diag by lia. simpl.
    assert (NoDup (l1 ++ (k, v) :: l2).*1) as Hn'
      by (rewrite fmap_app in *; by simpl in *).
    split; [done|]. split; [|done].
    destruct (to_map_middle _ _ _ _ Hn) as [-> _]. destruct (to_map_middle _ _ _ _ Hn') as [-> _].
    by rewrite insert_insert_eq.
  - apply position_no_key in Hp. split; [done|].
    assert (NoDup (values m ++ [(k, v)]).*1) as Hn'.
    { rewrite fmap_app, NoDup_app. simpl. split; [done|]. split; [|apply NoDup_singleton].
      intros x Hx Hs%list_elem_of_singleton. by subst. }
    split; [|done]. destruct (to_map_middle (values m) k v [] Hn') as [-> _]. by rewrite app_nil_r.
Qed.

Lemma remove_to_map k m :
  wf m → (remove k m).1 = to_map m !! k ∧
         to_map (remove k m).2 = delete k (to_map m) ∧ wf (remove k m).2.
Proof.
  unfold wf, keys. intros Hn. unfold remove, to_map.
  destruct (position (is_key k) (values m)) as [i|] eqn:Hp.
  - apply position_key in Hp as (v & l1 & l2 & Hl & ->).
    destruct (swap_remove_perm (length l1) (values m) (k, v)) as (l' & -> & Hp).
    { rewrite Hl. by apply list_lookup_middle. }
    assert (NoDup ((k, v) :: l').*1) as Hn' by by rewrite Hp.
    rewrite <-(list_to_map_proper _ _ Hn' Hp). simpl in *. apply NoDup_cons in Hn' as [Hk Hn'].
    rewrite lookup_insert_eq, delete_insert_id; [done|]. by apply not_elem_of_list_to_map_1.
  - apply position_no_key in Hp. simpl.
    assert ((list_to_map (values m) : gmap K V) !! k = None) as Hnone
      by by apply not_elem_of_list_to_map_1.
    by rewrite Hnone, delete_id.
Qed.

Lemma entry_to_map k d m :
  wf m → let (i, m') := entry k d m in
  to_map m' = (match to_map m !! k with Some _ => to_map m | None => <[k:=d]> (to_map m) end) ∧
  (∃ v, values m' !! i = Some (k, v)) ∧ wf m'.
Proof.
  intros Hn. pose proof (insert_to_map k d m Hn) as (H1 & H2 & H3).
  rewrite <-get_to_map in *. unfold entry, insert, get in *.
  destruct (position (is_key k) (values m)) as [i|] eqn:Hp; simpl in *.
  - apply position_key in Hp as (v & l1 & l2 & Hl & ->).
    rewrite Hl, list_lookup_middle by done. simpl. by split; [|split; [eexists|]].
  - rewrite <-H2. split; [done|]. split; [|done]. exists d. by apply list_lookup_middle.
Qed.
End facts.
End LinearMapFacts.

(** ** Properties *)

(** [LinearMap] is a finite map: on well-formed maps every operation answers and acts as
    the corresponding operation on finite maps does, and well-formedness is preserved. *)
Theorem linear_map_refines {K V} `{Countable K} (k : K) (v : V) (m : LinearMap.LinearMap K V) :
  LinearMapFacts.wf m →
  let abs := LinearMapFacts.to_map in
  LinearMap.get k m = abs m !! k ∧
  LinearMap.contains_key k m = bool_decide (is_Some (abs m !! k)) ∧
  (let (old, m') := LinearMap.insert k v m in
   old = abs m !! k ∧ abs m' = <[k:=v]> (abs m) ∧ LinearMapFacts.wf m') ∧
  (let (old, m') := LinearMap.remove k m in
   old = abs m !! k ∧ abs m' = delete k (abs m) ∧ LinearMapFacts.wf m') ∧
  (let (i, m') := LinearMap.entry k v m in
   abs m' = (match abs m !! k with Some _ => abs m | None => <[k:=v]> (abs m) end) ∧
   (∃ u, LinearMap.values m' !! i = Some (k, u)) ∧ LinearMapFacts.wf m').
Proof.
  intros Hm abs. split; [apply LinearMapFacts.get_to_map|]. split.
  - unfold abs. rewrite <-LinearMapFacts.get_to_map. unfold LinearMap.contains_key, LinearMap.get.
    destruct (position (LinearMap.is_key k) (LinearMap.values m)) as [i|] eqn:Hp; simpl.
    + apply position_some in Hp as (x & Hi & Hx). rewrite Hi, bool_decide_true by by eexists.
      apply existsb_exists. exists x. split; [|done].
      apply list_elem_of_In. by eapply list_elem_of_lookup_2.
    + apply position_none in Hp.
      apply not_true_iff_false. intros (x & Hx & Hk)%existsb_exists.
      rewrite Forall_forall in Hp. apply list_elem_of_In, Hp in Hx. congruence.
  - pose proof (LinearMapFacts.insert_to_map k v m Hm) as Hi.
    pose proof (LinearMapFacts.remove_to_map k m Hm) as Hr.
    pose proof (LinearMapFacts.entry_to_map k v m Hm) as He.
    by destruct (LinearMap.insert k v m), (LinearMap.remove k m).
Qed.

Lemma linear_map_refines_witness :
  let m := {| LinearMap.values := [(3, 1); (5, 2)] |} in
  LinearMap.get 5 m = LinearMapFacts.to_map m !! 5.
Proof.
  intros m. apply (linear_map_refines 5 9 m). unfold LinearMapFacts.wf. decided.
Defined.
