(* ===== verification/Dht.v ===== *)
(** The routing table of [core/dht/src/lib.rs]: a vector of routes sorted by node id, searched
    by the ring distance of 256-bit ids. Addresses and connection outcomes are libp2p's. *)

From S2P Require Import Prelude Collections.

Section dht.
Context {Addr : Type}.

(** ** The table *)

Record Route := { id : Z; addr : Addr }.
Definition RoutingTable := list Route.

(* routes.binary_search_by_key(&id, |r| r.id) *)
Definition find_route (routes : RoutingTable) (key : Z) : result nat nat :=
  binary_search (map id routes) key.

Fixpoint insert_by_id (r : Route) (routes : RoutingTable) : RoutingTable :=
  match routes with
  | [] => [r]
  | x :: rest => if decide (id r < id x) then r :: routes else x :: insert_by_id r rest
  end.

(* self.routes.sort_by_key(|r| r.id), a stable sort *)
Definition sort_by_id (routes : RoutingTable) : RoutingTable :=
  foldl (λ acc r, insert_by_id r acc) [] routes.

(* the assertion that the table is empty comes first *)
Definition bulk_insert (routes : list Route) (table : RoutingTable) : outcome RoutingTable :=
  match table with
  | [] => Done (sort_by_id routes)
  | _ => Panic
  end.

Definition insert_route (route : Route) (table : RoutingTable) : RoutingTable :=
  match find_route table (id route) with
  | Ok i => <[i:=route]> (table : list Route)
  | Err i => take i table ++ route :: drop i table
  end.

(* the digest of the peer id's multihash; slicing fewer than 32 bytes panics *)
Definition try_peer_id_to_ed (digest : bytes) : outcome (option bytes) :=
  if decide (length digest < 32)%nat then Panic
  else Done (Some (drop (length digest - 32) digest)).

Definition remove_route (peer : bytes) (table : RoutingTable) : outcome (option Route * RoutingTable) :=
  try! ed := try_peer_id_to_ed peer in
  match ed with
  | None => Done (None, table)
  | Some ed =>
      match find_route table (be_value ed) with
      | Ok i => Done ((table : list Route) !! i, delete i (table : list Route))
      | Err _ => Done (None, table)
      end
  end.

Definition get_route (peer : bytes) (table : RoutingTable) : outcome (option Addr) :=
  try! ed := try_peer_id_to_ed peer in
  match ed with
  | None => Done None
  | Some ed =>
      match find_route table (be_value ed) with
      | Ok i => Done (addr <$> (table : list Route) !! i)
      | Err _ => Done None
      end
  end.

(** ** The closest routes *)

(* a.overflowing_sub(b).0.min(b.overflowing_sub(a).0) on U256 *)
Definition shortest_distance (a b : Z) : Z := Z.min (wrap 256 (a - b)) (wrap 256 (b - a)).

(** The two slice iterators and the peeked routes of [closest_low]. *)
Record Closest := {
  left_iter : list Route; right_iter : list Route;
  left_peek : option Route; right_peek : option Route;
}.

Definition pop_front (l : list Route) : option Route * list Route := (head l, tail l).
Definition pop_back (l : list Route) : option Route * list Route :=
  (last l, take (length l - 1) l).

(* left.next().or_else(|| right.next_back()) *)
Definition next_left (lefts rights : list Route) : option Route * list Route * list Route :=
  match pop_front lefts with
  | (Some r, lefts) => (Some r, lefts, rights)
  | (None, lefts) => let (r, rights) := pop_back rights in (r, lefts, rights)
  end.

(* right.next().or_else(|| left.next_back()) *)
Definition next_right (lefts rights : list Route) : option Route * list Route * list Route :=
  match pop_front rights with
  | (Some r, rights) => (Some r, lefts, rights)
  | (None, rights) => let (r, lefts) := pop_back lefts in (r, lefts, rights)
  end.

Definition closest_init (key : Z) (routes : RoutingTable) : Closest :=
  let index := match find_route routes key with Ok i => i | Err i => i end in
  let lefts := rev (take index routes) in
  let rights := drop index routes in
  let '(lp, lefts, rights) := next_left lefts rights in
  let '(rp, lefts, rights) := next_right lefts rights in
  {| left_iter := lefts; right_iter := rights; left_peek := lp; right_peek := rp |}.

Definition closest_next (key : Z) (c : Closest) : option Route * Closest :=
  match left_peek c, right_peek c with
  | None, None => (None, c)
  | Some either, None | None, Some either =>
      (Some either, {| left_iter := left_iter c; right_iter := right_iter c;
                       left_peek := None; right_peek := None |})
  | Some left_route, Some right_route =>
      if decide (shortest_distance key (id left_route) < shortest_distance key (id right_route)) then
        let '(lp, lefts, rights) := next_left (left_iter c) (right_iter c) in
        (Some left_route, {| left_iter := lefts; right_iter := rights;
                             left_peek := lp; right_peek := right_peek c |})
      else
        let '(rp, lefts, rights) := next_right (left_iter c) (right_iter c) in
        (Some right_route, {| left_iter := lefts; right_iter := rights;
                              left_peek := left_peek c; right_peek := rp |})
  end.

(** The first [n] routes of the iterator. *)
Fixpoint closest_take (n : nat) (key : Z) (c : Closest) : list Route :=
  match n with
  | O => []
  | S n =>
      match closest_next key c with
      | (Some r, c) => r :: closest_take n key c
      | (None, _) => []
      end
  end.

Definition closest_low (key : Z) (routes : RoutingTable) (n : nat) : list Route :=
  closest_take n key (closest_init key routes).

(* closest: the id is the hash of the data *)
Definition closest (blake3 : bytes → bytes) (data : bytes) (routes : RoutingTable) (n : nat) :
    list Route :=
  closest_low (be_value (blake3 data)) routes n.

(** ** Behaviour: the hooks of the swarm that use the table *)

Section behaviour.
Context {Denied : Type}.
(** [Behaviour.filter], chosen by the node. *)
Variable filter : RoutingTable → bytes → Addr → Addr → outcome (result unit Denied * RoutingTable).

Definition handle_established_inbound_connection (table : RoutingTable) (peer : bytes)
    (local_addr remote_addr : Addr) : outcome (result unit Denied * RoutingTable) :=
  filter table peer local_addr remote_addr.

Definition handle_pending_outbound_connection (table : RoutingTable) (maybe_peer : option bytes)
    (addresses : list Addr) : outcome (list Addr) :=
  match addresses, maybe_peer with
  | [], Some peer =>
      try! found := get_route peer table in
      Done (match found with Some a => [a] | None => [] end)
  | _, _ => Done []
  end.
End behaviour.
End dht.
Arguments Route : clear implicits.
Arguments RoutingTable : clear implicits.
Arguments Closest : clear implicits.

(** ** The order of the ring *)

Definition table_ok {Addr} (routes : RoutingTable Addr) : Prop :=
  sorted (map id routes) ∧ Forall (λ r, fits 256 (id r)) routes.

(** The distance from [key] to [x] going up the ring. *)
Definition clockwise (key x : Z) : Z := wrap 256 (x - key).

Lemma clockwise_range key x : 0 ≤ clockwise key x < 2 ^ 256.
Proof. apply Z.mod_pos_bound. lia. Qed.

Lemma shortest_distance_clockwise key x :
  shortest_distance key x =
    if decide (clockwise key x = 0) then 0
    else Z.min (2 ^ 256 - clockwise key x) (clockwise key x).
Proof.
  unfold shortest_distance, clockwise, wrap. set (N := 2 ^ 256).
  assert (N > 0) by (unfold N; lia). replace (key - x) with (- (x - key)) by lia.
  case_decide as Hd.
  - rewrite Z.mod_opp_l_z, Hd by lia. done.
  - by rewrite Z.mod_opp_l_nz by lia.
Qed.

(** On an arc of the ring the distance is least at one of the two ends. *)
Lemma arc_min key f x b :
  clockwise key f ≤ clockwise key x ≤ clockwise key b →
  shortest_distance key f ≤ shortest_distance key x ∨
  shortest_distance key b ≤ shortest_distance key x.
Proof.
  intros Hx. rewrite !shortest_distance_clockwise.
  pose proof (clockwise_range key f). pose proof (clockwise_range key b).
  pose proof (clockwise_range key x). repeat case_decide; lia.
Qed.

Lemma sorted_map (f : Z → Z) l :
  sorted l → (∀ x y, x ∈ l → y ∈ l → x < y → f x < f y) → sorted (map f l).
Proof.
  induction 1 as [|x l Hs IH Hx]; intros Hf; simpl; [constructor|]. constructor.
  - apply IH. intros a b Ha Hb. apply Hf; by constructor.
  - rewrite Forall_forall in Hx. apply Forall_forall. intros y (z & -> & Hz)%list_elem_of_fmap.
    apply Hf; [constructor|by constructor|by apply Hx].
Qed.

Section closest.
Context {Addr : Type}.
Implicit Types (routes l : list (Route Addr)) (c : Closest Addr) (r : Route Addr).

(** What the iterator has not returned yet, in the order of the ring. *)
Definition inner c : list (Route Addr) := right_iter c ++ rev (left_iter c).
Definition remaining c : list (Route Addr) :=
  option_list (right_peek c) ++ inner c ++ option_list (left_peek c).
Definition peeked c : Prop := left_peek c = None ∨ right_peek c = None → inner c = [].

Lemma pop_back_spec l :
  match l with [] => pop_back l = (None, []) | _ => ∃ l' x, l = l' ++ [x] ∧ pop_back l = (Some x, l') end.
Proof.
  destruct l as [|y l]; [done|]. destruct (exists_last (l := y :: l)) as (l' & x & Hl); [done|].
  exists l', x. split; [done|]. unfold pop_back. rewrite Hl, last_snoc, length_app. simpl.
  rewrite take_app_n by lia. done.
Qed.

Lemma next_left_spec (lefts rights : list (Route Addr)) :
  let '(o, ls, rs) := next_left lefts rights in
  rights ++ rev lefts = (rs ++ rev ls) ++ option_list o ∧ (o = None → rs ++ rev ls = []).
Proof.
  unfold next_left, pop_front. destruct lefts as [|x ls]; cbn [head tail rev].
  - pose proof (pop_back_spec rights) as H. destruct rights as [|y rights].
    + by rewrite H.
    + destruct H as (l' & z & -> & ->). simpl. by rewrite !app_nil_r.
  - split; [by rewrite (assoc_L (++))|done].
Qed.

Lemma next_right_spec (lefts rights : list (Route Addr)) :
  let '(o, ls, rs) := next_right lefts rights in
  rights ++ rev lefts = option_list o ++ rs ++ rev ls ∧ (o = None → rs ++ rev ls = []).
Proof.
  unfold next_right, pop_front. destruct rights as [|x rs]; cbn [head tail rev]; [|done].
  pose proof (pop_back_spec lefts) as H. destruct lefts as [|y lefts].
  - by rewrite H.
  - destruct H as (l' & z & -> & ->). rewrite rev_app_distr. done.
Qed.

Lemma closest_init_spec key routes :
  let index := match find_route routes key with Ok i => i | Err i => i end in
  remaining (closest_init key routes) = drop index routes ++ take index routes ∧
  peeked (closest_init key routes).
Proof.
  intros index. unfold closest_init. fold index.
  pose proof (next_left_spec (rev (take index routes)) (drop index routes)) as H1.
  destruct (next_left _ _) as [[lp ls] rs]. destruct H1 as [H1 H2].
  pose proof (next_right_spec ls rs) as H3. destruct (next_right ls rs) as [[rp ls'] rs'].
  destruct H3 as [H3 H4]. rewrite rev_involutive in H1.
  unfold remaining, peeked, inner; simpl. split.
  - by rewrite H1, H3, <-!(assoc_L (++)).
  - intros [->| ->]; [|by apply H4]. specialize (H2 eq_refl). rewrite H2 in H3.
    by destruct rp, (rs' ++ rev ls').
Qed.

(** One call takes the nearer end of what remains. *)
Lemma closest_next_spec key c :
  peeked c →
  match closest_next key c with
  | (None, c') => remaining c = []
  | (Some r, c') =>
      peeked c' ∧
      ((∃ l, remaining c = r :: l ∧ remaining c' = l ∧
             ∀ b, last l = Some b → shortest_distance key (id r) ≤ shortest_distance key (id b)) ∨
       (∃ f l, remaining c = f :: l ++ [r] ∧ remaining c' = f :: l ∧
               shortest_distance key (id r) < shortest_distance key (id f)))
  end.
Proof.
  intros Hp. unfold closest_next.
  destruct (left_peek c) as [b|] eqn:Hl, (right_peek c) as [f|] eqn:Hr.
  - case_decide as Hd.
    + pose proof (next_left_spec (left_iter c) (right_iter c)) as H1.
      destruct (next_left _ _) as [[lp ls] rs]. destruct H1 as [H1 H2]. split.
      * unfold peeked, inner; simpl. intros [->|?]; [by apply H2|congruence].
      * right. exists f, ((rs ++ rev ls) ++ option_list lp).
        unfold remaining, inner; rewrite Hl, Hr; simpl. by rewrite H1.
    + pose proof (next_right_spec (left_iter c) (right_iter c)) as H1.
      destruct (next_right _ _) as [[rp ls] rs]. destruct H1 as [H1 H2]. split.
      * unfold peeked, inner; simpl. intros [?| ->]; [congruence|by apply H2].
      * left. eexists. unfold remaining, inner; rewrite Hl, Hr; simpl. split; [done|].
        rewrite H1. split; [by rewrite <-!(assoc_L (++))|].
        intros x. rewrite last_snoc. intros; simplify_eq. lia.
  - specialize (Hp (or_intror Hr)). split; [by unfold peeked|]. left. exists [].
    unfold remaining; rewrite Hl, Hr, Hp; simpl. unfold inner in *; simpl. by rewrite Hp.
  - specialize (Hp (or_introl Hl)). split; [by unfold peeked|]. left. exists [].
    unfold remaining; rewrite Hl, Hr, Hp; simpl. unfold inner in *; simpl. by rewrite Hp.
  - specialize (Hp (or_introl Hl)). unfold remaining. by rewrite Hl, Hr, Hp.
Qed.

Definition arc key l : Prop := sorted (map (λ r, clockwise key (id r)) l).

Lemma arc_first key f l :
  arc key (f :: l) →
  (∀ b, last l = Some b → shortest_distance key (id f) ≤ shortest_distance key (id b)) →
  Forall (λ x, shortest_distance key (id f) ≤ shortest_distance key (id x)) l.
Proof.
  unfold arc. intros Ha Hb. apply Forall_forall. intros x Hx.
  destruct (last l) as [b|] eqn:Hl; [|apply last_None in Hl as ->; by apply not_elem_of_nil in Hx].
  specialize (Hb b eq_refl). apply last_Some in Hl as [l' ->].
  simpl in Ha. apply StronglySorted_inv in Ha as [Ha Hf]. rewrite Forall_forall in Hf.
  assert (∀ y, y ∈ l' ++ [b] → clockwise key (id f) < clockwise key (id y)) as Hfy.
  { intros y Hy. apply Hf. apply list_elem_of_fmap. by exists y. }
  apply elem_of_app in Hx as [Hx|Hx%list_elem_of_singleton]; [|by subst].
  rewrite map_app in Ha. apply sorted_app in Ha as (_ & _ & Hxb).
  destruct (arc_min key (id f) (id x) (id b)); [|done|lia].
  split; [apply Z.lt_le_incl, Hfy, elem_of_app; by left|].
  apply Z.lt_le_incl, Hxb; [apply list_elem_of_fmap; by exists x|constructor].
Qed.

Lemma arc_last key f l r :
  arc key (f :: l ++ [r]) →
  shortest_distance key (id r) < shortest_distance key (id f) →
  Forall (λ x, shortest_distance key (id r) ≤ shortest_distance key (id x)) (f :: l).
Proof.
  unfold arc. intros Ha Hd. constructor; [lia|]. apply Forall_forall. intros x Hx.
  simpl in Ha. apply StronglySorted_inv in Ha as [Ha Hf]. rewrite Forall_forall in Hf.
  rewrite map_app in Ha. apply sorted_app in Ha as (_ & _ & Hxb).
  destruct (arc_min key (id f) (id x) (id r)); [|lia|done].
  split; apply Z.lt_le_incl.
  - apply Hf. apply list_elem_of_fmap. exists x. split; [done|]. apply elem_of_app. by left.
  - apply Hxb; [apply list_elem_of_fmap; by exists x|constructor].
Qed.

Lemma closest_take_spec n key c :
  peeked c → arc key (remaining c) →
  let out := closest_take n key c in
  StronglySorted (λ a b, shortest_distance key (id a) ≤ shortest_distance key (id b)) out ∧
  ∃ rest, remaining c ≡ₚ out ++ rest ∧ length out = Nat.min n (length (remaining c)) ∧
    Forall (λ a, Forall (λ b, shortest_distance key (id a) ≤ shortest_distance key (id b)) rest) out.
Proof.
  revert c. induction n as [|n IH]; intros c Hp Ha; simpl.
  { split; [constructor|]. by exists (remaining c). }
  pose proof (closest_next_spec key c Hp) as Hn.
  destruct (closest_next key c) as [[r|] c']; [|rewrite Hn; split; [constructor|]; by exists []].
  assert (∃ l, remaining c ≡ₚ r :: l ∧ l = remaining c' ∧ peeked c' ∧ arc key l ∧
    Forall (λ x, shortest_distance key (id r) ≤ shortest_distance key (id x)) l)
    as (l & Hperm & -> & Hp' & Ha' & Hmin).
  { destruct Hn as [Hp' [(l & Hc & Hc' & Hd)|(f & l & Hc & Hc' & Hd)]]; rewrite Hc in Ha.
    - exists l. rewrite Hc, Hc'. split; [done|]. split; [done|]. split; [done|]. split.
      + unfold arc in *. simpl in Ha. by apply StronglySorted_inv in Ha as [? _].
      + by apply arc_first.
    - exists (f :: l). rewrite Hc, Hc'. split.
      { rewrite <-(Permutation_cons_append l r). apply Permutation_swap. }
      split; [done|]. split; [done|]. split; [|by apply (arc_last key f l)].
      unfold arc in *. rewrite (app_comm_cons l [r] f), map_app in Ha.
      by apply sorted_app in Ha as [? _]. }
  destruct (IH c' Hp' Ha') as (Hs & rest & Hrest & Hlen & Hall).
  rewrite Hrest in Hmin. apply Forall_app in Hmin as [Hm1 Hm2].
  split; [by constructor|]. exists rest. simpl.
  split; [by rewrite Hperm, Hrest|]. split; [|by constructor].
  rewrite Hperm, Hlen. done.
Qed.
End closest.

(** ** The table as a finite map *)

Section table.
Context {Addr : Type}.
Implicit Types (routes : RoutingTable Addr) (r : Route Addr).

Definition entries routes : list (Z * Addr) := map (λ r, (id r, addr r)) routes.
Definition to_map routes : gmap Z Addr := list_to_map (entries routes).

Lemma entries_fst routes : (entries routes).*1 = map id routes.
Proof. unfold entries. rewrite <-list_fmap_compose. done. Qed.

Lemma to_map_split l1 r l2 :
  sorted (map id (l1 ++ r :: l2)) →
  to_map (l1 ++ r :: l2) = <[id r:=addr r]> (to_map (l1 ++ l2)) ∧ to_map (l1 ++ l2) !! id r = None.
Proof.
  intros Hs%sorted_nodup. rewrite <-entries_fst in Hs. unfold to_map.
  assert (entries (l1 ++ r :: l2) = entries l1 ++ (id r, addr r) :: entries l2) as He
    by apply map_app.
  assert (entries (l1 ++ l2) = entries l1 ++ entries l2) as -> by apply map_app.
  rewrite He in *. destruct (LinearMapFacts.to_map_middle _ _ _ _ Hs) as (-> & _ & Hn).
  split; [done|]. by apply not_elem_of_list_to_map_1.
Qed.

(** What the binary search finds. *)
Lemma find_route_spec routes key :
  table_ok routes →
  match find_route routes key with
  | Ok i => ∃ l1 r l2, routes = l1 ++ r :: l2 ∧ i = length l1 ∧ id r = key
  | Err i => ∃ l1 l2, routes = l1 ++ l2 ∧ i = length l1 ∧
      Forall (λ r, id r < key) l1 ∧ Forall (λ r, key < id r) l2 ∧ to_map routes !! key = None
  end.
Proof.
  intros [Hs _]. pose proof (binary_search_spec (map id routes) key Hs) as Hb.
  unfold find_route. destruct (binary_search (map id routes) key) as [i|i].
  - rewrite list_lookup_fmap in Hb. apply fmap_Some in Hb as (r & Hi & ->).
    exists (take i routes), r, (drop (S i) routes). rewrite take_drop_middle by done.
    apply lookup_lt_Some in Hi. rewrite length_take. split; [done|]. split; [lia|done].
  - destruct Hb as (Hi & H1 & H2). rewrite length_map in Hi.
    exists (take i routes), (drop i routes). rewrite take_drop, length_take. split; [done|].
    split; [lia|]. rewrite firstn_map in H1. rewrite skipn_map in H2.
    rewrite Forall_map in H1. rewrite Forall_map in H2. split; [done|]. split; [done|].
    apply not_elem_of_list_to_map_1. rewrite entries_fst. rewrite <-(take_drop i routes), map_app.
    rewrite Forall_forall in H1, H2.
    intros [(r & -> & Hr)%list_elem_of_fmap|(r & -> & Hr)%list_elem_of_fmap]%elem_of_app;
      [apply H1 in Hr|apply H2 in Hr]; lia.
Qed.

Lemma insert_route_spec r routes :
  table_ok routes → fits 256 (id r) →
  table_ok (insert_route r routes) ∧ to_map (insert_route r routes) = <[id r:=addr r]> (to_map routes).
Proof.
  intros Hok Hr. pose proof (find_route_spec routes (id r) Hok) as Hf. destruct Hok as [Hs Hb].
  unfold insert_route. destruct (find_route routes (id r)) as [i|i].
  - destruct Hf as (l1 & r' & l2 & -> & -> & Hid).
    rewrite insert_app_r_alt, Nat.sub_diag by lia. cbn [list_insert insert].
    assert (sorted (map id (l1 ++ r :: l2))) as Hs'
      by (rewrite map_app in *; cbn [map] in *; by rewrite <-Hid).
    destruct (to_map_split _ _ _ Hs) as [-> _]. destruct (to_map_split _ _ _ Hs') as [-> _].
    rewrite Hid, insert_insert_eq. split; [|done]. split; [done|].
    rewrite Forall_app, Forall_cons in *. tauto.
  - destruct Hf as (l1 & l2 & -> & -> & H1 & H2 & Hn).
    rewrite take_app_length, drop_app_length.
    assert (sorted (map id (l1 ++ r :: l2))) as Hs'.
    { rewrite map_app in *. apply sorted_app in Hs as (Hs1 & Hs2 & Hs3). cbn [map].
      rewrite Forall_forall in H1, H2. apply sorted_app. split; [done|]. split.
      - constructor; [done|]. apply Forall_forall. intros y (z & -> & Hz)%list_elem_of_fmap. by apply H2.
      - intros x y (z & -> & Hz)%list_elem_of_fmap [->|(z' & -> & Hz')%list_elem_of_fmap]%elem_of_cons;
          [by apply H1|]. etransitivity; [by apply H1|by apply H2]. }
    destruct (to_map_split _ _ _ Hs') as [-> _]. split; [|done]. split; [done|].
    rewrite Forall_app, Forall_cons in *. tauto.
Qed.

Lemma delete_route_spec l1 r l2 :
  table_ok (l1 ++ r :: l2) →
  table_ok (l1 ++ l2) ∧ to_map (l1 ++ r :: l2) !! id r = Some (addr r) ∧
  to_map (l1 ++ l2) = delete (id r) (to_map (l1 ++ r :: l2)).
Proof.
  intros [Hs Hb]. destruct (to_map_split _ _ _ Hs) as [-> Hn].
  rewrite lookup_insert_eq, delete_insert_id by done. split; [|done]. split.
  - rewrite !map_app in *. apply sorted_app in Hs as (Hs1 & Hs2 & Hs3).
    cbn [map] in *. apply StronglySorted_inv in Hs2 as [Hs2 _].
    apply sorted_app. split; [done|]. split; [done|]. intros x y Hx Hy. apply Hs3; [done|by constructor].
  - rewrite Forall_app, Forall_cons in *. tauto.
Qed.

(** Looking up and removing the route of a peer, by the key at the end of its id. *)
Lemma peer_route_spec peer routes :
  table_ok routes → (32 ≤ length peer)%nat →
  let key := be_value (drop (length peer - 32) peer) in
  get_route peer routes = Done (to_map routes !! key) ∧
  ∃ old routes', remove_route peer routes = Done (old, routes') ∧ table_ok routes' ∧
    addr <$> old = to_map routes !! key ∧ to_map routes' = delete key (to_map routes).
Proof.
  intros Hok Hl key. pose proof (find_route_spec routes key Hok) as Hf.
  unfold get_route, remove_route, try_peer_id_to_ed. rewrite decide_False by lia. cbn [obind].
  fold key. destruct (find_route routes key) as [i|i].
  - destruct Hf as (l1 & x & l2 & -> & -> & Hid). rewrite <-Hid in *.
    destruct (delete_route_spec _ _ _ Hok) as (H1 & H2 & H3).
    rewrite list_lookup_middle by done. rewrite H2. split; [done|].
    eexists _, _. split; [done|]. rewrite delete_middle. done.
  - destruct Hf as (l1 & l2 & -> & -> & _ & _ & Hn). rewrite Hn. split; [done|].
    eexists _, _. split; [done|]. rewrite delete_id by done. done.
Qed.

(** Sorting routes with distinct ids makes a table. *)
Lemma insert_by_id_ok r routes :
  sorted (map id routes) → id r ∉ map id routes →
  sorted (map id (insert_by_id r routes)) ∧ insert_by_id r routes ≡ₚ r :: routes.
Proof.
  induction routes as [|x routes IH]; intros Hs Hn; [by repeat constructor|]. simpl.
  apply StronglySorted_inv in Hs as [Hs Hx]. apply not_elem_of_cons in Hn as [Hne Hn].
  case_decide as Hlt.
  - split; [|done]. constructor; [by constructor|]. constructor; [done|].
    eapply Forall_impl; [exact Hx|]. simpl. intros y Hy. lia.
  - destruct (IH Hs Hn) as [Hs' Hp]. split.
    + constructor; [done|]. rewrite Hp. constructor; [lia|done].
    + rewrite Hp. constructor.
Qed.

Lemma sort_by_id_ok routes :
  NoDup (map id routes) → Forall (λ r, fits 256 (id r)) routes →
  table_ok (sort_by_id routes) ∧ sort_by_id routes ≡ₚ routes.
Proof.
  intros Hn Hf. unfold sort_by_id.
  assert (∀ acc, sorted (map id acc) → NoDup (map id (acc ++ routes)) →
    sorted (map id (foldl (λ acc r, insert_by_id r acc) acc routes)) ∧
    foldl (λ acc r, insert_by_id r acc) acc routes ≡ₚ acc ++ routes) as Hl.
  { clear Hn Hf. induction routes as [|r routes IH]; intros acc Hs Hd; [by rewrite app_nil_r|]. simpl.
    assert (map id (acc ++ r :: routes) ≡ₚ map id ((r :: acc) ++ routes)) as Hp
      by (by rewrite <-Permutation_middle).
    rewrite Hp in Hd. simpl in Hd. apply NoDup_cons in Hd as [Hr Hd].
    rewrite map_app, elem_of_app in Hr. destruct (insert_by_id_ok r acc) as [Hs' Hp']; [done|tauto|].
    destruct (IH (insert_by_id r acc)) as [H1 H2]; [done| |].
    - rewrite Hp'. simpl. apply NoDup_cons. rewrite map_app, elem_of_app. rewrite map_app in Hd. done.
    - split; [done|]. rewrite H2, Hp'. simpl. by rewrite Permutation_middle. }
  destruct (Hl []) as [Hs Hp]; [constructor|done|]. split; [|done]. split; [done|]. by rewrite Hp.
Qed.

Lemma closest_init_arc key routes :
  table_ok routes → fits 256 key → arc key (remaining (closest_init key routes)).
Proof.
  intros Hok Hk. pose proof (find_route_spec routes key Hok) as Hf. destruct Hok as [Hs Hb].
  pose proof (closest_init_spec key routes) as [Hr _]. cbv zeta in Hr. rewrite Hr. clear Hr.
  assert (∃ l1 l2, routes = l1 ++ l2 ∧ Forall (λ r, id r < key) l1 ∧ Forall (λ r, key ≤ id r) l2 ∧
    (match find_route routes key with Ok i => i | Err i => i end) = length l1) as (l1 & l2 & -> & H1 & H2 & ->).
  { destruct (find_route routes key) as [i|i].
    - destruct Hf as (l1 & r & l2 & -> & -> & <-). exists l1, (r :: l2). split; [done|].
      rewrite map_app in Hs. apply sorted_app in Hs as (_ & Hs2 & Hs3). cbn [map] in *.
      apply StronglySorted_inv in Hs2 as [_ Hs2]. rewrite Forall_map in Hs2. split.
      + apply Forall_forall. intros x Hx. apply Hs3; [apply list_elem_of_fmap; by exists x|constructor].
      + split; [|done]. constructor; [done|]. eapply Forall_impl; [exact Hs2|]. simpl. lia.
    - destruct Hf as (l1 & l2 & -> & -> & H1 & H2 & _). exists l1, l2. split; [done|].
      split; [done|]. split; [|done]. eapply Forall_impl; [exact H2|]. simpl. lia. }
  rewrite drop_app_length, take_app_length. unfold arc.
  apply Forall_app in Hb as [Hb1 Hb2]. rewrite map_app in Hs. apply sorted_app in Hs as (Hs1 & Hs2 & _).
  rewrite Forall_forall in H1, H2, Hb1, Hb2. unfold fits in *.
  assert (∀ x, x ∈ l2 → clockwise key (id x) = id x - key) as E2.
  { intros x Hx. specialize (Hb2 x Hx). specialize (H2 x Hx). apply wrap_small. unfold fits. lia. }
  assert (∀ x, x ∈ l1 → clockwise key (id x) = id x - key + 2 ^ 256) as E1.
  { intros x Hx. specialize (Hb1 x Hx). specialize (H1 x Hx). unfold clockwise, wrap.
    rewrite <-(Z.mod_add _ 1), Z.mul_1_l by lia. apply Z.mod_small. lia. }
  assert (∀ l c, sorted (map id l) → (∀ x, x ∈ l → clockwise key (id x) = id x - key + c) →
            sorted (map (λ r, clockwise key (id r)) l)) as Hmap.
  { intros l c Hl E. replace (map (λ r, clockwise key (id r)) l) with (map (λ z, z - key + c) (map id l)).
    - apply sorted_map; [done|]. lia.
    - rewrite map_map. apply map_ext_in. intros x Hx%list_elem_of_In. by rewrite E. }
  rewrite map_app. apply sorted_app. split; [apply (Hmap l2 0); [done|]; intros x Hx; rewrite E2 by done; lia|].
  split; [by apply (Hmap l1 (2 ^ 256))|].
  intros x y (a & -> & Ha)%list_elem_of_fmap (b & -> & Hb)%list_elem_of_fmap.
  rewrite E2, E1 by done. specialize (Hb1 b Hb). specialize (Hb2 a Ha). lia.
Qed.
End table.

(** The first [n] routes are part of the table. *)
Lemma closest_low_perm {Addr} (key : Z) (routes : RoutingTable Addr) (n : nat) :
  table_ok routes → fits 256 key →
  ∃ rest, routes ≡ₚ closest_low key routes n ++ rest ∧
    length (closest_low key routes n) = Nat.min n (length routes) ∧
    Forall (λ a, Forall (λ b, shortest_distance key (id a) ≤ shortest_distance key (id b)) rest)
      (closest_low key routes n).
Proof.
  intros Hok Hk. pose proof (closest_init_spec key routes) as [Hr Hp]. cbv zeta in Hr.
  destruct (closest_take_spec n key _ Hp (closest_init_arc key routes Hok Hk)) as (_ & rest & H2 & H3 & H4).
  exists rest. set (i := match find_route routes key with Ok i => i | Err i => i end) in *.
  assert (remaining (closest_init key routes) ≡ₚ routes) as Hperm.
  { rewrite Hr, Permutation_app_comm. by rewrite take_drop. }
  rewrite Hperm in H2, H3. done.
Qed.

(** ** Properties *)

(** In a table sorted by distinct ids, the first [n] routes of [closest_low] are [n] nearest
    ones by ring distance (all of them when there are fewer), nearest first. *)
Theorem closest_low_nearest {Addr} (key : Z) (routes : RoutingTable Addr) (n : nat) :
  table_ok routes → fits 256 key →
  let out := closest_low key routes n in
  StronglySorted (λ a b, shortest_distance key (id a) ≤ shortest_distance key (id b)) out ∧
  ∃ rest, routes ≡ₚ out ++ rest ∧ length out = Nat.min n (length routes) ∧
    Forall (λ a, Forall (λ b, shortest_distance key (id a) ≤ shortest_distance key (id b)) rest) out.
Proof.
  intros Hok Hk. split; [|by apply closest_low_perm].
  pose proof (closest_init_spec key routes) as [_ Hp].
  by destruct (closest_take_spec n key _ Hp (closest_init_arc key routes Hok Hk)) as [H1 _].
Qed.

Definition demo_table : RoutingTable nat :=
  [{| id := 2; addr := 0%nat |}; {| id := 2 ^ 255; addr := 1%nat |};
   {| id := 2 ^ 256 - 1; addr := 2%nat |}].

Lemma demo_table_ok : table_ok demo_table.
Proof. split; [repeat (constructor; [|repeat constructor]); constructor|decided]. Qed.

Lemma closest_low_nearest_witness :
  map addr (closest_low 1 demo_table 2) = [0; 2]%nat ∧
  StronglySorted (λ a b, shortest_distance 1 (id a) ≤ shortest_distance 1 (id b))
    (closest_low 1 demo_table 2).
Proof.
  split; [vm_compute; reflexivity|].
  apply (closest_low_nearest 1 demo_table 2); [exact demo_table_ok|decided].
Defined.

(** C32: The table is a finite map from ids to addresses: inserting, removing and looking up a
    route act on it as on the map, and the table stays sorted with distinct ids. *)
Theorem routing_table_refines {Addr} (routes : RoutingTable Addr) (r : Route Addr) (peer : bytes) :
  table_ok routes → fits 256 (id r) → (32 ≤ length peer)%nat →
  let key := be_value (drop (length peer - 32) peer) in
  (table_ok (insert_route r routes) ∧
   to_map (insert_route r routes) = <[id r:=addr r]> (to_map routes)) ∧
  get_route peer routes = Done (to_map routes !! key) ∧
  ∃ old routes', remove_route peer routes = Done (old, routes') ∧ table_ok routes' ∧
    addr <$> old = to_map routes !! key ∧ to_map routes' = delete key (to_map routes).
Proof. intros Hok Hr Hl key. split; [by apply insert_route_spec|]. by apply peer_route_spec. Qed.

Lemma routing_table_refines_witness :
  get_route (replicate 4 9 ++ be_bytes 32 2) demo_table = Done (Some 0%nat) ∧
  to_map demo_table !! 2 = Some 0%nat ∧
  get_route (replicate 4 9 ++ be_bytes 32 2) demo_table = Done (to_map demo_table !! 2).
Proof.
  split; [vm_compute; reflexivity|]. split; [vm_compute; reflexivity|].
  apply (routing_table_refines demo_table {| id := 5; addr := 7%nat |} (replicate 4 9 ++ be_bytes 32 2));
    [exact demo_table_ok|decided|vm_compute; lia].
Defined.
