(* ===== verification/ChatSpec.v ===== *)
(** The chat protocol's data: [core/chat-spec/src], [utils/component-utils/src/crypto.rs] and
    [core/crypto/src/hash.rs], with the codecs [#[derive(Codec)]] gives them.

    BLAKE3 and the two signature schemes are classes of the functions the code calls; sizes of
    keys and signatures are those of their serialized forms. *)

From S2P Require Import Prelude Codec Messages.

(** ** Hashes *)

Class Blake3 := {
  blake3 : bytes → bytes;
  blake3_length data : length (blake3 data) = 32%nat;
  blake3_bytes data : Forall (fits 8) (blake3 data);
}.

Notation Hash := bytes (only parsing).
Notation Identity := bytes (only parsing).
Notation Nonce := Z (only parsing).
Notation BlockNumber := Z (only parsing).
Notation CallId := nat (only parsing).
Notation ChatName := bytes (only parsing).

Definition HASH_SIZE : nat := 32.
Definition CHAT_NAME_CAP : nat := 32.
Definition REPLICATION_FACTOR : nat := 4.

Section hash.
Context `{Blake3}.

Definition from_raw (data : bytes) : Hash := blake3 data.
Definition from_slice (slice : bytes) : Hash := blake3 slice.
(* the hasher is fed left, then right *)
Definition combine (l r : Hash) : Hash := blake3 (l ++ r).
Definition with_nonce (data : bytes) (nonce : Z) : Hash := blake3 (data ++ be_bytes 8 nonce).
End hash.

Definition zero_hash : Hash := replicate HASH_SIZE 0.

(** ** Proofs *)

(** [verify pk data signature] of [sign::PublicKey], and the sizes of its serialized types. *)
Class Signatures := {
  PK_SIZE : nat;
  SIG_SIZE : nat;
  ENC_PK_SIZE : nat;
  verify_sig : bytes → bytes → bytes → bool;
}.

Record Proof (T : Type) := MkProof {
  pk : bytes; nonce : Nonce; signature : bytes; context : T;
}.
Arguments MkProof {T} _ _ _ _.
Arguments pk {T} _.
Arguments nonce {T} _.
Arguments signature {T} _.
Arguments context {T} _.

(* buf[..32] = context, buf[32..] = nonce.to_be_bytes() *)
Definition pack_payload (nonce : Nonce) (context : Hash) : bytes := context ++ be_bytes 8 nonce.

Inductive Mail := mail_unit.

Class ToProofContext `{Blake3} (T : Type) := to_proof_context : T → Hash.
#[global] Instance bytes_proof_context `{Blake3} : ToProofContext bytes := from_slice.
#[global] Instance mail_proof_context `{Blake3} : ToProofContext Mail :=
  λ _, replicate CHAT_NAME_CAP 254.

Section proof.
Context `{Blake3, Signatures} {T : Type} `{!ToProofContext T}.

Definition verify (p : Proof T) : bool :=
  verify_sig (pk p) (pack_payload (nonce p) (to_proof_context (context p))) (signature p).

(* Proof::new: signs with the current nonce and advances it *)
Definition proof_new (public : bytes) (sign : bytes → bytes) (n : Nonce) (context : T) :
    Proof T * Nonce :=
  let signature := sign (pack_payload n (to_proof_context context)) in
  let n := wrap 64 (n + 1) in
  (MkProof public (wrap 64 (n - 1)) signature context, n).
End proof.

(** ** Topics *)

Inductive PossibleTopic := TopicProfile (i : Identity) | TopicChat (c : ChatName).
#[global] Instance possible_topic_eq_dec : EqDecision PossibleTopic.
Proof. solve_decision. Defined.

Definition topic_bytes (t : PossibleTopic) : bytes :=
  match t with TopicProfile i => i | TopicChat c => c end.

(* ToPossibleTopic of the request types; a tuple's topic is its first component's *)
Definition proof_topic `{Blake3} {T} (p : Proof T) : PossibleTopic := TopicProfile (from_raw (pk p)).
Definition chat_proof_topic (p : Proof ChatName) : PossibleTopic := TopicChat (context p).

(** ** Messages and profiles *)

Record Message := MkMessage { msg_identity : Identity; msg_nonce : Nonce; msg_content : bytes }.

Record Cursor := MkCursor { block : BlockNumber; offset : nat }.
#[global] Instance cursor_eq_dec : EqDecision Cursor.
Proof. solve_decision. Defined.
Definition cursor_init : Cursor := {| block := 2 ^ 64 - 1; offset := 0 |}.

Inductive ChatEvent := EvMessage (p : Proof ChatName) (content : bytes).
Inductive ChatAction := AddUser (id : Identity) | SendMessage (content : bytes).

Record Profile := MkProfile {
  sign : bytes; enc : bytes; last_sig : bytes;
  vault_version : Nonce; mail_action : Nonce; vault : bytes; mail : bytes;
}.

(* BorrowedProfile::is_valid *)
Definition is_valid `{Blake3, Signatures} (p : Profile) : bool :=
  verify (MkProof (sign p) (vault_version p) (last_sig p) (vault p)).

(* Profile::read_mail: the mails, and the profile with an empty box *)
Definition read_mail (p : Profile) : bytes * Profile :=
  (mail p, MkProfile (sign p) (enc p) (last_sig p) (vault_version p) (mail_action p) (vault p) []).

(** ** Errors *)

Inductive CreateChatError := ChatAlreadyExists.
Inductive ChatActionError :=
  | ActChatNotFound | ActInvalidProof | NotMember | AlreadyMember
  | ActInvalidAction (n : Nonce) | MessageTooLarge | MessageBlockNotFinalized.
Inductive FetchMessagesError := FmChatNotFound.
Inductive ProposeMsgBlockError := PropNoReplicator | PropChatNotFound | NoBlocks | NotServer.
Inductive InvalidBlockReason := MajorityMismatch | Outdated | NotExpected.
Inductive SendBlockError :=
  | SbNoReplicator | SbChatNotFound | InvalidBlock (r : InvalidBlockReason).
Inductive FetchLatestBlockError := FlbChatNotFound.
Inductive FetchProfileError := FpNotFound.
Inductive CreateAccountError := CaInvalidProof | CaAlreadyExists.
Inductive SetVaultError := SvNotFound | SvInvalidProof | SvInvalidAction.
Inductive FetchVaultError := FvNotFound.
Inductive ReadMailError := RmNotFound | RmInvalidProof | RmInvalidAction.
Inductive SendMailError := SmNotFound | SentDirectly | SendingToSelf | MailboxFull.
#[global] Instance send_mail_error_eq_dec : EqDecision SendMailError.
Proof. solve_decision. Defined.

Inductive ReplError (E : Type) := NoMajority | InvalidResponse | InvalidTopic | ReplInner (e : E).
Arguments NoMajority {E}.
Arguments InvalidResponse {E}.
Arguments InvalidTopic {E}.
Arguments ReplInner {E} _.

Inductive NotFoundError (E : Type) := NotFound | NfInner (e : E).
Arguments NotFound {E}.
Arguments NfInner {E} _.

(** ** Codecs *)

Definition hash_codec : Codec Hash := array_codec HASH_SIZE u8_codec.
Definition chat_name_codec : Codec ChatName := array_string_codec CHAT_NAME_CAP.

Definition message_codec : Codec Message :=
  iso_codec (λ m, (msg_identity m, (msg_nonce m, msg_content m)))
            (λ '(i, (n, c)), MkMessage i n c)
            (pair_codec hash_codec (pair_codec u64_codec reminder_codec)).

Definition cursor_codec : Codec Cursor :=
  iso_codec (λ c, (block c, offset c)) (λ '(b, o), MkCursor b o) (pair_codec u64_codec usize_codec).

Section sized.
Context `{Signatures}.

Definition proof_codec {T} (ct : Codec T) : Codec (Proof T) :=
  iso_codec (λ p, (pk p, (nonce p, (signature p, context p))))
            (λ '(k, (n, (s, c))), MkProof k n s c)
            (pair_codec (array_codec PK_SIZE u8_codec)
               (pair_codec u64_codec (pair_codec (array_codec SIG_SIZE u8_codec) ct))).

Definition chat_event_codec : Codec ChatEvent :=
  MkCodec (λ _ _ e, match e with
                    | EvMessage p c => variant 0 (do encode (proof_codec chat_name_codec) p;
                                                  encode reminder_codec c)
                    end)
          (match_index (λ i, if decide (i = 0) then
                               let! p := decode (proof_codec chat_name_codec) in
                               let! c := decode reminder_codec in ret (EvMessage p c)
                             else mfail)).

(* Profile and BorrowedProfile: the two have the same fields, vault and mail as byte strings *)
Definition borrowed_profile_codec : Codec Profile :=
  iso_codec (λ p, (sign p, (enc p, (last_sig p, (vault_version p, (mail_action p, (vault p, mail p)))))))
            (λ '(s, (e, (l, (v, (a, (va, m)))))), MkProfile s e l v a va m)
            (pair_codec (array_codec PK_SIZE u8_codec) (pair_codec (array_codec ENC_PK_SIZE u8_codec)
              (pair_codec (array_codec SIG_SIZE u8_codec) (pair_codec u64_codec (pair_codec u64_codec
                (pair_codec slice_codec slice_codec)))))).
End sized.

Definition mail_codec : Codec Mail := MkCodec (λ _ _ _, ret tt) (ret mail_unit).

Definition chat_action_codec : Codec ChatAction :=
  MkCodec (λ _ _ a, match a with
                    | AddUser id => variant 0 (encode hash_codec id)
                    | SendMessage c => variant 1 (encode reminder_codec c)
                    end)
          (match_index (λ i, if decide (i = 0) then let! id := decode hash_codec in ret (AddUser id)
                             else if decide (i = 1) then
                               let! c := decode reminder_codec in ret (SendMessage c)
                             else mfail)).

Definition possible_topic_codec : Codec PossibleTopic :=
  MkCodec (λ _ _ t, match t with
                    | TopicProfile i => variant 0 (encode hash_codec i)
                    | TopicChat c => variant 1 (encode chat_name_codec c)
                    end)
          (match_index (λ i, if decide (i = 0) then let! i := decode hash_codec in ret (TopicProfile i)
                             else if decide (i = 1) then
                               let! c := decode chat_name_codec in ret (TopicChat c)
                             else mfail)).

Definition chat_action_error_codec : Codec ChatActionError :=
  MkCodec (λ _ _ e, match e with
                    | ActChatNotFound => variant 0 (ret tt)
                    | ActInvalidProof => variant 1 (ret tt)
                    | NotMember => variant 2 (ret tt)
                    | AlreadyMember => variant 3 (ret tt)
                    | ActInvalidAction n => variant 4 (encode u64_codec n)
                    | MessageTooLarge => variant 5 (ret tt)
                    | MessageBlockNotFinalized => variant 6 (ret tt)
                    end)
          (match_index (λ i, if decide (i = 0) then ret ActChatNotFound
                             else if decide (i = 1) then ret ActInvalidProof
                             else if decide (i = 2) then ret NotMember
                             else if decide (i = 3) then ret AlreadyMember
                             else if decide (i = 4) then
                               let! n := decode u64_codec in ret (ActInvalidAction n)
                             else if decide (i = 5) then ret MessageTooLarge
                             else if decide (i = 6) then ret MessageBlockNotFinalized
                             else mfail)).

(* the enums with one variant, e.g. FetchProfileError and FetchLatestBlockError *)
Definition one_variant_codec {A} (a : A) : Codec A :=
  unit_enum_codec (λ _, 0) (λ i, if decide (i = 0) then Some a else None).

Definition send_mail_error_codec : Codec SendMailError :=
  unit_enum_codec
    (λ e, match e with SmNotFound => 0 | SentDirectly => 1 | SendingToSelf => 2 | MailboxFull => 3 end)
    (λ i, if decide (i = 0) then Some SmNotFound else if decide (i = 1) then Some SentDirectly
          else if decide (i = 2) then Some SendingToSelf else if decide (i = 3) then Some MailboxFull
          else None).

Definition repl_error_codec {E} (ce : Codec E) : Codec (ReplError E) :=
  MkCodec (λ _ _ e, match e with
                    | NoMajority => variant 0 (ret tt)
                    | InvalidResponse => variant 1 (ret tt)
                    | InvalidTopic => variant 2 (ret tt)
                    | ReplInner e => variant 3 (encode ce e)
                    end)
          (match_index (λ i, if decide (i = 0) then ret NoMajority
                             else if decide (i = 1) then ret InvalidResponse
                             else if decide (i = 2) then ret InvalidTopic
                             else if decide (i = 3) then let! e := decode ce in ret (ReplInner e)
                             else mfail)).

(* handlers/retry.rs: [Inner] has no tag on the way out and any nonzero byte in front of it on
   the way in *)
Definition not_found_error_codec {E} (ce : Codec E) : Codec (NotFoundError E) :=
  MkCodec (λ _ _ e, match e with NotFound => push 0 | NfInner e => encode ce e end)
          (match_index (λ i, if decide (i = 0) then ret NotFound
                             else let! e := decode ce in ret (NfInner e))).

(* chat_spec::Request *)
Record ClientRequest := MkClientRequest { req_prefix : u8; req_id : CallId; req_body : bytes }.
Definition client_request_codec : Codec ClientRequest :=
  iso_codec (λ r, (req_prefix r, (req_id r, req_body r))) (λ '(p, (i, b)), MkClientRequest p i b)
            (pair_codec u8_codec (pair_codec usize_codec reminder_codec)).

(** ** The codecs are lawful *)

#[global] Instance hash_ok : CodecOk hash_codec := array_ok HASH_SIZE u8_codec.

#[global] Instance message_tail : TailCodec message_codec.
Proof. apply iso_tail; [apply _|by intros []]. Defined.

#[global] Instance cursor_ok : CodecOk cursor_codec.
Proof. apply iso_ok; [apply _|by intros []]. Defined.

#[global] Instance proof_ok `{Signatures} {T} (ct : Codec T) `{!CodecOk ct} : CodecOk (proof_codec ct).
Proof. apply iso_ok; [apply _|by intros []]. Defined.

#[global] Instance profile_ok `{Signatures} : CodecOk borrowed_profile_codec.
Proof. apply iso_ok; [apply _|by intros []]. Defined.

#[global] Instance client_request_tail : TailCodec client_request_codec.
Proof. apply iso_tail; [apply _|by intros []]. Defined.

#[global] Instance chat_action_tail : TailCodec chat_action_codec.
Proof.
  refine {| tvalid a := match a with AddUser id => valid hash_codec id | SendMessage c => tvalid reminder_codec c end;
            twire a := match a with
                       | AddUser id => 0 :: wire hash_codec id
                       | SendMessage c => 1 :: twire reminder_codec c
                       end |}.
  - intros B ? ? a b Ha.
    destruct a; apply variant_spec; intros b'; [by apply encode_wire|by apply tencode_wire].
  - intros [id|c] Ha; [|done]. rewrite <-(app_nil_r (wire hash_codec id)).
    change ((let! id := decode hash_codec in ret (AddUser id)) (wire hash_codec id ++ []) = (Some (AddUser id), [])).
    by rewrite bind_decode.
Defined.

#[global] Instance possible_topic_ok : CodecOk possible_topic_codec.
Proof.
  refine {| valid t := match t with TopicProfile i => valid hash_codec i | TopicChat c => valid chat_name_codec c end;
            wire t := match t with
                      | TopicProfile i => 0 :: wire hash_codec i
                      | TopicChat c => 1 :: wire chat_name_codec c
                      end |}.
  - intros B ? ? t b Ht. destruct t; apply variant_spec; intros b'; by apply encode_wire.
  - intros [i|c] rest Ht.
    + change ((let! i := decode hash_codec in ret (TopicProfile i)) (wire hash_codec i ++ rest) = (Some (TopicProfile i), rest)).
      by rewrite bind_decode.
    + change ((let! c := decode chat_name_codec in ret (TopicChat c)) (wire chat_name_codec c ++ rest) = (Some (TopicChat c), rest)).
      by rewrite bind_decode.
Defined.

(** A hash and a signature scheme to run the model on. *)
Definition demo_blake3 : Blake3.
Proof.
  refine {| blake3 data := replicate 31 7 ++ [foldl (λ s b, wrap 8 (3 * s + b + 1)) 1 data] |}.
  - intros data. by rewrite length_app, length_replicate.
  - intros data. apply Forall_app. split; [decided|]. constructor; [|constructor].
    destruct data as [|b data] using rev_ind; [done|]. rewrite foldl_app. simpl.
    apply wrap_fits. lia.
Defined.

Definition demo_signatures : Signatures :=
  {| PK_SIZE := 2; SIG_SIZE := 1; ENC_PK_SIZE := 2; verify_sig pk data sig := bool_decide (sig = take 1 pk) |}.

Lemma be_bytes_inj n a b :
  0 ≤ a < 256 ^ Z.of_nat n → 0 ≤ b < 256 ^ Z.of_nat n → be_bytes n a = be_bytes n b → a = b.
Proof. intros Ha Hb He. rewrite <-(be_value_bytes n a), <-(be_value_bytes n b) by done. by rewrite He. Qed.

(** ** Properties *)

(** What a signed request says cannot be moved to another nonce or context: the payloads
    of two proofs are equal only when the nonces and the context hashes are, and a fresh
    [Proof::new] verifies under any signature scheme whose signatures verify, carries the nonce
    it was made with and leaves the next one for the next proof. *)
Theorem proof_binds_nonce `{Blake3, Signatures} {T} `{!ToProofContext T} (public : bytes)
    (sign : bytes → bytes) (n n' : Nonce) (context : T) (other : Hash) :
  (∀ m, verify_sig public m (sign m) = true) →
  length (to_proof_context context) = HASH_SIZE → length other = HASH_SIZE →
  fits 64 (n + 1) → 0 ≤ n → fits 64 n' →
  let (p, next) := proof_new public sign n context in
  verify p = true ∧ nonce p = n ∧ next = n + 1 ∧ fst (advance_nonce n (nonce p)) = false ∧
  fst (advance_nonce n next) = true ∧
  (pack_payload n' other = pack_payload (nonce p) (to_proof_context context) →
   n' = n ∧ other = to_proof_context context).
Proof.
  intros Hs Hl Hl' Hn1 Hn Hn'. unfold proof_new. cbn [nonce]. rewrite (wrap_small 64 (n + 1)) by done.
  rewrite Z.add_simpl_r, (wrap_small 64 n) by (unfold fits in *; lia).
  split; [apply Hs|]. split; [done|]. split; [done|].
  unfold advance_nonce. cbn [fst nonce].
  split; [by apply bool_decide_eq_false; lia|]. split; [by apply bool_decide_eq_true; lia|].
  intros [Hc Hb]%app_inj_1; [|by rewrite Hl]. split; [|done].
  by apply (be_bytes_inj 8); [unfold fits in *; lia..|].
Qed.

Lemma proof_binds_nonce_witness : let _ := demo_blake3 in let _ := demo_signatures in
  let (p, next) := proof_new [1; 2] (λ _, [1]) 5 ([9] : bytes) in
  verify p = true ∧ nonce p = 5 ∧ next = 5 + 1 ∧ fst (advance_nonce 5 (nonce p)) = false ∧
  fst (advance_nonce 5 next) = true ∧
  (pack_payload 6 zero_hash = pack_payload (nonce p) (to_proof_context ([9] : bytes)) →
   6 = 5 ∧ zero_hash = to_proof_context ([9] : bytes)).
Proof.
  intros B S. apply (proof_binds_nonce [1; 2] (λ _, [1]) 5 6 ([9] : bytes) zero_hash);
    [done|done|done|decided|lia|decided].
Defined.

(** The request of [PerformChatAction], a signed chat name followed by the action, is read
    back by the server as the client wrote it: for every proof with keys and signature of the
    declared sizes and every action, the bytes decode to the same proof and action and leave
    nothing. *)
Theorem perform_chat_action_roundtrip `{Signatures} (p : Proof ChatName) (a : ChatAction) :
  valid (proof_codec chat_name_codec) p → tvalid chat_action_codec a →
  ∃ bs, to_bytes (pair_codec (proof_codec chat_name_codec) chat_action_codec) (p, a) = Some bs ∧
    decode (pair_codec (proof_codec chat_name_codec) chat_action_codec) bs = (Some (p, a), []).
Proof.
  intros Hp Ha. exists (twire (pair_codec (proof_codec chat_name_codec) chat_action_codec) (p, a)).
  split; [by apply to_bytes_twire|by apply tdecode_wire].
Qed.

Lemma perform_chat_action_roundtrip_witness : let _ := demo_signatures in
  ∃ bs, to_bytes (pair_codec (proof_codec chat_name_codec) chat_action_codec)
          (MkProof [1; 2] 300 [1] [104; 105], SendMessage [7; 8]) = Some bs ∧
    decode (pair_codec (proof_codec chat_name_codec) chat_action_codec) bs =
      (Some (MkProof [1; 2] 300 [1] [104; 105], SendMessage [7; 8]), []).
Proof.
  intros S. apply (perform_chat_action_roundtrip (MkProof [1; 2] 300 [1] [104; 105]) (SendMessage [7; 8])).
  - split; [split; [done|decided]|]. split; [split; decided|]. split; [split; [done|decided]|].
    split; [split; [split; [decided|decided]|reflexivity]|unfold CHAT_NAME_CAP; simpl; lia].
  - done.
Defined.

(** [NotFoundError] does not read back what it writes. The inner error goes out without a
    tag while the reader takes the first byte for one: an inner encoding starting with zero is
    read as "not found" and any other loses its first byte. *)
Theorem not_found_error_mismatch {E} (ce : Codec E) (e : E) (b : u8) (wire : bytes) :
  to_bytes ce e = Some (b :: wire) →
  to_bytes (not_found_error_codec ce) (NfInner e) = Some (b :: wire) ∧
  decode (not_found_error_codec ce) (b :: wire) =
    if decide (b = 0) then (Some NotFound, wire)
    else let (r, rest) := decode ce wire in (NfInner <$> r, rest).
Proof.
  intros Hw. split; [exact Hw|]. cbn [not_found_error_codec decode match_index].
  case_decide; [done|]. unfold bind. by destruct (decode ce wire) as [[]].
Qed.

Lemma not_found_error_mismatch_witness :
  decode (not_found_error_codec send_mail_error_codec) [0] = (Some NotFound, []) ∧
  decode (not_found_error_codec send_mail_error_codec) [2] = (None, []).
Proof.
  split; [apply (not_found_error_mismatch send_mail_error_codec SmNotFound 0 [])
         |apply (not_found_error_mismatch send_mail_error_codec SendingToSelf 2 [])]; reflexivity.
Defined.
