(* ===== verification/Chat.v ===== *)
(** One replicated chat: the state machine of [nodes/server/src/handlers/chat.rs].

    A chat appends messages to its current block; a full block is proposed to the other
    replicators and finalized once enough of them report the same hash. The handlers that
    find the chat and talk to the network are in ChatHandlers.v. *)

From S2P Require Import Prelude Codec Messages Streams ChatSpec.

Definition MAX_MESSAGE_SIZE : nat := 1024.
Definition MESSAGE_FETCH_LIMIT : nat := 20.
(* outside of tests *)
Definition BLOCK_SIZE : nat := 1024 * 32.
Definition BLOCK_HISTORY : nat := 32.

(** ** State *)

Record Block := { hash : Hash; data : bytes }.

Inductive BlockStage :=
  | Unfinalized (proposed : option Block) (others : list Hash)
  | Recovering (final_hash : Hash) (we_finalized : bool).

Definition block_stage_default : BlockStage :=
  Unfinalized None (replicate REPLICATION_FACTOR zero_hash).

Definition unfinalized_block (s : BlockStage) : option bytes :=
  match s with
  | Unfinalized proposed _ => data <$> proposed
  | Recovering _ _ => None
  end.

Record Member := { action : Nonce }.
Definition member_new : Member := {| action := 0 |}.

(** [block_cap] is the capacity of the vector [current_block]. *)
Record Chat := {
  members : gmap Identity Member;
  finalized : list Block;
  current_block : bytes;
  block_cap : nat;
  block_number : BlockNumber;
  stage : BlockStage;
  restoring : bool;
}.

Definition chat_new (id : Identity) (restoring : bool) : Chat := {|
  members := {[id := member_new]}; finalized := []; current_block := [];
  block_cap := BLOCK_SIZE; block_number := 0; stage := block_stage_default;
  restoring := restoring;
|}.

Definition with_members (c : Chat) (m : gmap Identity Member) : Chat := {|
  members := m; finalized := finalized c; current_block := current_block c;
  block_cap := block_cap c; block_number := block_number c; stage := stage c;
  restoring := restoring c;
|}.
Definition with_finalized (c : Chat) (f : list Block) : Chat := {|
  members := members c; finalized := f; current_block := current_block c;
  block_cap := block_cap c; block_number := block_number c; stage := stage c;
  restoring := restoring c;
|}.
Definition with_current (c : Chat) (b : bytes) : Chat := {|
  members := members c; finalized := finalized c; current_block := b;
  block_cap := block_cap c; block_number := block_number c; stage := stage c;
  restoring := restoring c;
|}.
Definition with_number (c : Chat) (n : BlockNumber) : Chat := {|
  members := members c; finalized := finalized c; current_block := current_block c;
  block_cap := block_cap c; block_number := n; stage := stage c; restoring := restoring c;
|}.
Definition with_stage (c : Chat) (s : BlockStage) : Chat := {|
  members := members c; finalized := finalized c; current_block := current_block c;
  block_cap := block_cap c; block_number := block_number c; stage := s; restoring := restoring c;
|}.

(** ** Hashing a block *)

(* the order of [u8; 32] *)
Fixpoint bytes_le (a b : bytes) : bool :=
  match a, b with
  | [], _ => true
  | _ :: _, [] => false
  | x :: a, y :: b => if decide (x < y) then true else if decide (y < x) then false else bytes_le a b
  end.

Fixpoint insert_hash (h : Hash) (l : list Hash) : list Hash :=
  match l with
  | [] => [h]
  | x :: l => if bytes_le h x then h :: x :: l else x :: insert_hash h l
  end.
(* hash_temp.sort_unstable(): equal hashes are the same bytes *)
Definition sort_hashes (l : list Hash) : list Hash := foldr insert_hash [] l.

Definition count_hash (h : Hash) (l : list Hash) : nat :=
  length (filter (λ x, x = h) l).

Section chat.
Context `{Blake3}.

(* the hash, and the sorted message hashes left in hash_temp; no message is a panic *)
Definition hash_block (block : bytes) : outcome (Hash * list Hash) :=
  let hash_temp := sort_hashes (map from_slice (unpack_messages block)) in
  match hash_temp with
  | [] => Panic
  | h :: t => Done (foldl combine h t, hash_temp)
  end.

(** ** Blocks *)

Definition push_to_finalized (block : Block) (c : Chat) : Chat :=
  let f := if decide (length (finalized c) = BLOCK_HISTORY)
           then take (length (finalized c) - 1) (finalized c) else finalized c in
  with_finalized c (block :: f).

Definition finalize_current_block (h : Hash) (c : Chat) : Chat :=
  let c := with_stage c block_stage_default in
  let c := push_to_finalized {| hash := h; data := current_block c |} c in
  let c := with_current c [] in
  with_number c (wrap 64 (block_number c + 1)).

(* release builds wrap around below zero *)
Definition last_finalized_block (c : Chat) : BlockNumber :=
  wrap 64 (block_number c -
    match stage c with
    | Unfinalized (Some _) _ | Recovering _ _ => 1
    | Unfinalized None _ => 0
    end).

(* try_push inside push_message: the block never outgrows its capacity *)
Definition try_push {A} (codec : Codec A) (cap : nat) (block : bytes) (msg : A) : option unit * bytes :=
  let buffer := {| vec := block; spare := cap - length block |} in
  match encode codec msg buffer with
  | (None, buffer) => (None, vec buffer)
  | (Some _, buffer) =>
      let len := (length (vec buffer) - length block)%nat in
      let (r, buffer) := extend_from_slice (encode_len len) buffer in (r, vec buffer)
  end.

Definition push_message {A} (codec : Codec A) (msg : A) (c : Chat) :
    outcome (result unit (option Hash) * Chat) :=
  let prev_len := length (current_block c) in
  match try_push codec (block_cap c) (current_block c) msg with
  | (Some _, block) => Done (Ok tt, with_current c block)
  | (None, block) =>
      let c := with_current c (take prev_len block) in
      let finish (h : Hash) (c : Chat) :=
        match try_push codec (block_cap c) (current_block c) msg with
        | (Some _, block) => Done (Err (Some h), with_current c block)
        | (None, _) => Panic
        end in
      match stage c with
      | Unfinalized (Some _) _ => Done (Err None, c)
      | Unfinalized None others =>
          try! (h, _) := hash_block (current_block c) in
          if decide (REPLICATION_FACTOR / 2 ≤ count_hash h others)%nat
          then finish h (finalize_current_block h c)
          else
            let c := with_stage c (Unfinalized (Some {| hash := h; data := current_block c |}) others) in
            let c := with_current c [] in
            finish h (with_number c (wrap 64 (block_number c + 1)))
      | Recovering _ true => Done (Err None, c)
      | Recovering final_hash false =>
          let c := with_stage c (Recovering final_hash true) in
          try! (h, _) := hash_block (current_block c) in
          if decide (h = final_hash) then finish h (finalize_current_block h c)
          else finish h (with_current c [])
      end
  end.

(** ** Agreement *)

(* ProposeMsgBlock once the sender's [index] among the replicators is known: the block to send
   back, if any. [todo!] and an index out of bounds are panics. *)
Definition propose_block (number : BlockNumber) (phash : Hash) (index : nat) (c : Chat) :
    outcome (result (option bytes) ProposeMsgBlockError * Chat) :=
  let our_finalized := last_finalized_block c in
  if decide (number < our_finalized) then
    if decide (our_finalized - number ≤ 1) then
      match finalized c with
      | [] => Done (Err NoBlocks, c)
      | block :: _ =>
          if decide (hash block = phash) then Done (Ok None, c) else Done (Ok (Some (data block)), c)
      end
    else Panic
  else if decide (our_finalized < number ∧ 1 < number - our_finalized) then Panic
  else
    match stage c with
    | Recovering _ _ => Done (Ok None, c)
    | Unfinalized proposed others =>
        if decide (length others ≤ index)%nat then Panic
        else
          let we_finalized := match proposed with Some _ => true | None => false end in
          let we_match := match proposed with Some p => bool_decide (hash p = phash) | None => false end in
          let others := <[index:=phash]> others in
          if decide (REPLICATION_FACTOR / 2 - (if we_match then 1 else 0) < count_hash phash others)%nat
          then
            match proposed with
            | Some block =>
                if decide (hash block = phash)
                then Done (Ok None, with_stage (push_to_finalized block c) block_stage_default)
                else Done (Ok None, with_stage c (Recovering phash we_finalized))
            | None => Done (Ok None, with_stage c (Recovering phash we_finalized))
            end
          else if negb (bool_decide (zero_hash ∈ others)) && we_finalized then Panic
          else Done (Ok None, with_stage c (Unfinalized proposed others))
    end.

(* SendBlock once the sender's [index] is known *)
Definition send_block (number : BlockNumber) (block : bytes) (index : nat) (c : Chat) :
    outcome (result unit SendBlockError * Chat) :=
  if decide (last_finalized_block c = number) then
    match stage c with
    | Unfinalized (Some p) others =>
        try! (h, _) := hash_block block in
        if decide (length others ≤ index)%nat then Panic
        else
          let others := <[index:=h]> others in
          if decide (count_hash h others < REPLICATION_FACTOR / 2)%nat
          then Done (Err (InvalidBlock MajorityMismatch), with_stage c (Unfinalized (Some p) others))
          else Done (Ok tt, push_to_finalized {| hash := h; data := block |}
                              (with_stage c block_stage_default))
    | Unfinalized None _ => Done (Err (InvalidBlock NotExpected), c)
    | Recovering final_hash _ =>
        try! (h, hash_temp) := hash_block block in
        if decide (h = final_hash) then
          let current := retain_messages_in_vec
            (λ msg, (msg, negb (bool_decide (from_slice msg ∈ hash_temp)))) (current_block c) in
          Done (Ok tt, push_to_finalized {| hash := h; data := block |} (with_current c current))
        else Done (Err (InvalidBlock MajorityMismatch), c)
    end
  else Done (Err (InvalidBlock Outdated), c).

(** ** Reading *)

(* FetchMessages on the chat: the next cursor and the slice of the block *)
Definition fetch_messages (cursor : Cursor) (c : Chat) : Cursor * bytes :=
  let cursor := if decide (cursor = cursor_init)
                then {| block := block_number c; offset := length (current_block c) |} else cursor in
  let bail := (cursor_init, []) in
  if decide (offset cursor = 0%nat ∧ block cursor = 0) then bail
  else
    let number := if decide (offset cursor = 0%nat) then wrap 64 (block cursor + 1) else block cursor in
    let blocks := current_block c :: option_list (unfinalized_block (stage c)) ++
                  map data (finalized c) in
    match blocks !! Z.to_nat (block_number c - number) with
    | None => bail
    | Some blk =>
        let off := if decide (offset cursor = 0%nat) then length blk else offset cursor in
        if decide (length blk < off)%nat then bail
        else
          let blk := take off blk in
          let message_length := list_sum
            (map (λ msg, length msg + 2)%nat (take MESSAGE_FETCH_LIMIT (unpack_messages blk))) in
          ({| block := number; offset := off - message_length |}, drop (off - message_length) blk)
    end.

(* FetchLatestBlock on the chat *)
Definition latest_block (c : Chat) : BlockNumber * bytes := (block_number c, current_block c).
End chat.

(** ** Pushing a message *)

#[global] Instance no_cap_overflow_lawful : LawfulBuffer NoCapOverflow.
Proof.
  split; simpl.
  - intros [v n]. rewrite decide_False by (simpl; lia). simpl. by rewrite app_nil_r, Nat.sub_0_r.
  - intros l1 l2 [v n]. unfold bind; simpl. rewrite length_app.
    repeat (case_decide; simpl in *); rewrite ?length_app in *; try lia; auto with orion.
    rewrite (assoc_L (++)). by replace (n - (length l1 + length l2))%nat with (n - length l1 - length l2)%nat by lia.
  - intros x [v n]; simpl. repeat case_decide; simpl in *; try lia; done.
Qed.

(** Computations that only add to the vector, even when they fail. *)
Definition grows (m : M NoCapOverflow unit) : Prop := ∀ b, ∃ x, vec (snd (m b)) = vec b ++ x.

Lemma grows_ret : grows (ret tt).
Proof. intros b. exists []. by rewrite app_nil_r. Qed.
Lemma grows_fail : grows mfail.
Proof. intros b. exists []. by rewrite app_nil_r. Qed.
Lemma grows_extend l : grows (extend_from_slice l).
Proof. intros b. simpl. case_decide; simpl; [exists []; by rewrite app_nil_r|by exists l]. Qed.
Lemma grows_push x : grows (push x).
Proof. intros b. simpl. case_decide; simpl; [exists []; by rewrite app_nil_r|by exists [x]]. Qed.
Lemma grows_bind m k : grows m → grows k → grows (do m; k).
Proof.
  intros Hm Hk b. destruct (Hm b) as [x Hx]. unfold bind.
  destruct (m b) as [[[]|] b1]; simpl in *; [|by exists x].
  destruct (Hk b1) as [y Hy]. exists (x ++ y). by rewrite Hy, Hx, (assoc_L (++)).
Qed.
#[export] Hint Resolve grows_ret grows_fail grows_extend grows_push grows_bind : orion.

Lemma grows_base128 v : grows (base128_encode v).
Proof.
  unfold base128_encode. generalize 10%nat. intros fuel. revert v.
  induction fuel as [|fuel IH]; intros v; cbn [base128_encode_loop]; [auto with orion|].
  apply grows_bind; [apply grows_push|]. case_decide; auto with orion.
Qed.

Lemma grows_hash h : grows (encode hash_codec h).
Proof.
  cbn [hash_codec array_codec encode].
  induction h as [|b h IH]; [apply grows_ret|]. apply grows_bind; [apply grows_push|exact IH].
Qed.

Lemma grows_message m : grows (encode message_codec m).
Proof.
  apply grows_bind; [apply grows_hash|]. apply grows_bind; [apply grows_base128|apply grows_extend].
Qed.

Section push.
Context {A : Type} (codec : Codec A) `{!TailCodec codec}.

(** The message is appended with its length, or the block comes back as it was. *)
Lemma try_push_spec cap block (msg : A) :
  tvalid codec msg → grows (encode codec msg) → (length block ≤ cap)%nat →
  if decide (length block + length (twire codec msg) + 2 ≤ cap)%nat
  then try_push codec cap block msg = (Some tt, block ++ frame (twire codec msg))
  else ∃ block', try_push codec cap block msg = (None, block') ∧ take (length block) block' = block.
Proof.
  intros Hv Hg Hb. unfold try_push. set (b0 := {| vec := block; spare := _ |}).
  pose proof (tencode_wire (c := codec) msg b0 Hv) as He. destruct (Hg b0) as [x Hx].
  destruct (encode codec msg b0) as [r b1]. simpl in Hx.
  assert (if decide (length block + length (twire codec msg) ≤ cap)%nat
          then (r, b1) = (Some tt, {| vec := block ++ twire codec msg;
                                      spare := cap - length block - length (twire codec msg) |})
          else r = None) as Hr.
  { destruct (decide (length block + length (twire codec msg) ≤ cap)%nat).
    - eapply same_run_some; [exact He|]. simpl. by rewrite decide_False by lia.
    - destruct He as [He _]. simpl in He. by rewrite decide_True in He by lia. }
  destruct (decide (length block + length (twire codec msg) ≤ cap)%nat).
  - simplify_eq. simpl. rewrite length_app.
    replace (length block + length (twire codec msg) - length block)%nat
      with (length (twire codec msg)) by lia.
    destruct (decide (length block + length (twire codec msg) + 2 ≤ cap)%nat).
    + rewrite decide_False by lia. simpl. by rewrite <-(assoc_L (++)).
    + rewrite decide_True by lia. simpl. eexists. split; [done|]. apply take_app_length.
  - subst r. rewrite decide_False by lia. exists (vec b1). split; [done|].
    rewrite Hx. apply take_app_length.
Qed.
End push.

(** ** Invariants *)

Section chat_laws.
Context `{Blake3}.
Implicit Types (c : Chat) (b : Block).

(** A block is a sequence of framed messages. *)
Definition framed (block : bytes) : Prop :=
  ∃ ms, Forall is_message ms ∧ block = concat (map frame ms).

Lemma framed_nil : framed [].
Proof. by exists []. Qed.

Lemma framed_snoc block m :
  framed block → is_message m → framed (block ++ frame m).
Proof.
  intros (ms & Hms & ->) Hm. exists (ms ++ [m]). rewrite Forall_app, map_app, concat_app. simpl.
  rewrite app_nil_r. split; [|done]. split; [done|]. by constructor.
Qed.

Lemma unpack_framed ms :
  Forall is_message ms → unpack_messages (concat (map frame ms)) = rev ms.
Proof.
  induction ms as [|m ms IH] using rev_ind; intros Hms; [done|].
  apply Forall_app in Hms as [Hms [[Hm _] _]%Forall_cons].
  rewrite map_app, concat_app, rev_app_distr. simpl. rewrite app_nil_r.
  rewrite unpack_messages_frame by done. by rewrite IH.
Qed.

Lemma framed_bytes block : framed block → Forall (fits 8) block.
Proof.
  intros (ms & Hms & ->). induction Hms as [|m ms [_ Hm] _ IH]; simpl; [constructor|].
  apply Forall_app. split; [|done]. apply Forall_app. split; [done|apply encode_len_bytes].
Qed.

Lemma framed_retain predicate block :
  (∀ m, length (fst (predicate m)) = length m) → (∀ m, is_message m → is_message (fst (predicate m))) →
  framed block →
  framed (retain_messages_in_vec predicate block) ∧
  (length (retain_messages_in_vec predicate block) ≤ length block)%nat.
Proof.
  intros Hl Hm Hb. pose proof (framed_bytes _ Hb) as Hbytes.
  destruct (retain_spec predicate block Hl Hbytes) as [H1 H2]. split.
  - rewrite H2. destruct Hb as (ms & Hms & ->). rewrite unpack_framed by done.
    eexists. split; [|unfold kept; reflexivity].
    apply Forall_rev. apply Forall_forall. intros x (m & Hx & Hp)%list_elem_of_omap.
    apply list_elem_of_In, in_rev, list_elem_of_In in Hx. rewrite Forall_forall in Hms. specialize (Hm m (Hms m Hx)).
    destruct (predicate m) as [m' []]; [|done]. by simplify_eq.
  - unfold retain_messages_in_vec. destruct (retain_messages predicate block) as [b st].
    simpl in *. rewrite length_drop. lia.
Qed.

Lemma sort_hashes_perm l : sort_hashes l ≡ₚ l.
Proof.
  induction l as [|h l IH]; simpl; [done|].
  assert (∀ k, insert_hash h k ≡ₚ h :: k) as Hi.
  { induction k as [|x k IHk]; simpl; [done|]. destruct (bytes_le h x); [done|].
    rewrite IHk. apply Permutation_swap. }
  by rewrite Hi, IH.
Qed.

Lemma hash_block_done block :
  unpack_messages block ≠ [] →
  ∃ h, hash_block block = Done (h, sort_hashes (map from_slice (unpack_messages block))).
Proof.
  intros Hne. unfold hash_block.
  destruct (sort_hashes (map from_slice (unpack_messages block))) as [|h t] eqn:Hs; [|by eexists].
  exfalso. apply Hne. pose proof (sort_hashes_perm (map from_slice (unpack_messages block))) as Hp.
  rewrite Hs in Hp. apply Permutation_nil_l in Hp. symmetry in Hp. by apply map_eq_nil in Hp.
Qed.

(** A finalized or proposed block carries the hash of its messages. *)
Definition block_ok b : Prop := ∃ t, hash_block (data b) = Done (hash b, t).

Definition chat_ok c : Prop :=
  (length (finalized c) ≤ BLOCK_HISTORY)%nat ∧ Forall block_ok (finalized c) ∧
  framed (current_block c) ∧ (length (current_block c) ≤ block_cap c)%nat ∧
  match stage c with
  | Unfinalized proposed others =>
      length others = REPLICATION_FACTOR ∧ match proposed with Some b => block_ok b | None => True end
  | Recovering _ _ => True
  end.

Lemma push_to_finalized_length b c :
  (length (finalized c) ≤ BLOCK_HISTORY)%nat →
  (length (finalized (push_to_finalized b c)) ≤ BLOCK_HISTORY)%nat.
Proof.
  intros Hl. unfold push_to_finalized, BLOCK_HISTORY in *. simpl.
  case_decide; rewrite ?length_take; lia.
Qed.

Lemma push_to_finalized_forall b c :
  block_ok b → Forall block_ok (finalized c) → Forall block_ok (finalized (push_to_finalized b c)).
Proof.
  intros Hb Hf. unfold push_to_finalized; simpl. constructor; [done|].
  case_decide; [by apply Forall_take|done].
Qed.

Lemma push_to_finalized_ok b c :
  block_ok b → chat_ok c → chat_ok (push_to_finalized b c).
Proof.
  intros Hb (H1 & H2 & H3 & H4 & H5).
  split; [by apply push_to_finalized_length|]. split; [by apply push_to_finalized_forall|].
  done.
Qed.

Lemma with_stage_ok c s :
  chat_ok c →
  match s with
  | Unfinalized proposed others =>
      length others = REPLICATION_FACTOR ∧ match proposed with Some b => block_ok b | None => True end
  | Recovering _ _ => True
  end → chat_ok (with_stage c s).
Proof. intros (H1 & H2 & H3 & H4 & _) Hs. by repeat split. Qed.

Lemma with_current_ok c block :
  chat_ok c → framed block → (length block ≤ block_cap c)%nat → chat_ok (with_current c block).
Proof. intros (H1 & H2 & H3 & H4 & H5) Hf Hl. by split. Qed.

Lemma with_number_ok c n : chat_ok c → chat_ok (with_number c n).
Proof. done. Qed.

Lemma chat_new_ok id r : chat_ok (chat_new id r).
Proof.
  repeat split; simpl; [unfold BLOCK_HISTORY; lia|constructor|apply framed_nil|lia].
Qed.

Lemma finalize_current_block_ok h c :
  chat_ok c → (∃ t, hash_block (current_block c) = Done (h, t)) → chat_ok (finalize_current_block h c).
Proof.
  intros Hc Ht. unfold finalize_current_block. apply with_number_ok.
  apply with_current_ok; [|apply framed_nil|simpl; lia].
  apply push_to_finalized_ok; [done|]. by apply with_stage_ok.
Qed.
End chat_laws.

(** ** The operations *)

Section operations.
Context `{Blake3} {A : Type} (codec : Codec A) `{!TailCodec codec}.
Implicit Types (c : Chat) (msg : A).

(** A message that any chat can hold. *)
Definition pushable (msg : A) c : Prop :=
  tvalid codec msg ∧ grows (encode codec msg) ∧ is_message (twire codec msg) ∧
  (length (twire codec msg) + 2 ≤ block_cap c)%nat.

(** The chat after the full current block was hashed to [h] and the message went to a new one. *)
Definition rolled (h : Hash) (m : bytes) c c' : Prop :=
  current_block c' = frame m ∧
  match stage c with
  | Unfinalized None others =>
      block_number c' = wrap 64 (block_number c + 1) ∧
      let b := {| hash := h; data := current_block c |} in
      if decide (REPLICATION_FACTOR / 2 ≤ count_hash h others)%nat
      then finalized c' = finalized (push_to_finalized b c) ∧ stage c' = block_stage_default
      else finalized c' = finalized c ∧ stage c' = Unfinalized (Some b) others
  | Recovering final_hash false =>
      if decide (h = final_hash)
      then block_number c' = wrap 64 (block_number c + 1) ∧
           finalized c' = finalized (push_to_finalized {| hash := h; data := current_block c |} c) ∧
           stage c' = block_stage_default
      else block_number c' = block_number c ∧ finalized c' = finalized c ∧
           stage c' = Recovering final_hash true
  | _ => False
  end.

Lemma with_current_same c : with_current c (current_block c) = c.
Proof. by destruct c. Qed.

Lemma full_block_hash c :
  chat_ok c → current_block c ≠ [] → ∃ h, hash_block (current_block c) =
    Done (h, sort_hashes (map from_slice (unpack_messages (current_block c)))).
Proof.
  intros (_ & _ & (ms & Hms & Hc) & _) Hne. apply hash_block_done. rewrite Hc.
  rewrite unpack_framed by done. intros Hr. apply Hne. rewrite Hc.
  destruct ms as [|m ms]; [done|]. simpl in Hr. by destruct (rev ms).
Qed.

(** The second [try_push] of [push_message] cannot fail. *)
Lemma finish_push msg c (h : Hash) :
  pushable msg c → chat_ok c → current_block c = [] →
  match try_push codec (block_cap c) (current_block c) msg with
  | (Some _, block) => Done (Err (Some h), with_current c block)
  | (None, _) => Panic
  end = Done (Err (Some h) : result unit (option Hash), with_current c (frame (twire codec msg))) ∧
  chat_ok (with_current c (frame (twire codec msg))).
Proof.
  intros (Hv & Hg & Hm & Hl) Hc He. rewrite He.
  pose proof (try_push_spec codec (block_cap c) [] msg Hv Hg ltac:(simpl; lia)) as Hp.
  rewrite decide_True in Hp by (simpl; lia). rewrite Hp. simpl app. split; [done|].
  apply with_current_ok; [done| |].
  - change (frame (twire codec msg)) with ([] ++ frame (twire codec msg)).
    by apply framed_snoc; [apply framed_nil|].
  - unfold frame. rewrite length_app, encode_len_length. lia.
Qed.

Lemma push_message_spec msg c :
  pushable msg c → chat_ok c →
  ∃ r c', push_message codec msg c = Done (r, c') ∧ chat_ok c' ∧
    match r with
    | Ok _ => c' = with_current c (current_block c ++ frame (twire codec msg))
    | Err None => c' = c
    | Err (Some h) => (∃ t, hash_block (current_block c) = Done (h, t)) ∧
                      rolled h (twire codec msg) c c'
    end.
Proof.
  intros Hpu Hc. pose proof Hpu as (Hv & Hg & Hm & Hl). pose proof Hc as (H1 & H2 & H3 & H4 & H5).
  pose proof (try_push_spec codec (block_cap c) (current_block c) msg Hv Hg H4) as Hp.
  unfold push_message. case_decide as Hfit.
  { rewrite Hp. eexists (Ok tt), _. split; [done|]. split; [|done].
    apply with_current_ok; [done|by apply framed_snoc|].
    unfold frame. rewrite !length_app, encode_len_length. lia. }
  destruct Hp as (block' & -> & ->). rewrite with_current_same.
  assert (current_block c ≠ []) as Hne by (intros He; rewrite He in Hfit; simpl in Hfit; lia).
  destruct (full_block_hash c Hc Hne) as [h Hh]. unfold rolled.
  destruct (stage c) as [[p|] others|final_hash [|]] eqn:Hst; cbn zeta.
  - eexists (Err None), _. split; [done|]. by split.
  - rewrite Hh. cbn [obind]. case_decide as Hcount.
    + destruct (finish_push msg (finalize_current_block h c) h) as [-> Hok];
        [done|by apply finalize_current_block_ok; [|by eexists]|done|].
      eexists (Err (Some h)), _. split; [done|]. split; [done|].
      split; [by eexists|]. split; [done|]. split; [done|]. by rewrite decide_True.
    + set (b := {| hash := h; data := current_block c |}).
      set (c2 := with_number (with_current (with_stage c (Unfinalized (Some b) others)) [])
                   (wrap 64 (block_number c + 1))).
      destruct (finish_push msg c2 h) as [Hf Hok]; [done| |done|].
      { apply with_number_ok, with_current_ok; [|apply framed_nil|simpl; lia].
        apply with_stage_ok; [done|]. destruct H5. split; [done|]. by eexists. }
      unfold c2 in Hf. cbn in Hf |- *. rewrite Hf.
      eexists (Err (Some h)), _. split; [done|]. split; [done|]. split; [by eexists|].
      split; [done|]. split; [done|]. by rewrite decide_False.
  - eexists (Err None), _. split; [done|]. by split.
  - change (current_block (with_stage c (Recovering final_hash true))) with (current_block c).
    rewrite Hh. cbn [obind]. case_decide as Heq.
    + set (c2 := finalize_current_block h (with_stage c (Recovering final_hash true))).
      destruct (finish_push msg c2 h) as [Hf Hok];
        [done|apply finalize_current_block_ok; [by apply with_stage_ok|by eexists]|done|].
      rewrite Hf.
      eexists (Err (Some h)), _. split; [done|]. split; [done|]. split; [by eexists|].
      split; [done|]. by rewrite decide_True.
    + set (c2 := with_current (with_stage c (Recovering final_hash true)) []).
      destruct (finish_push msg c2 h) as [Hf Hok]; [done| |done|].
      { apply with_current_ok; [by apply with_stage_ok|apply framed_nil|simpl; lia]. }
      rewrite Hf.
      eexists (Err (Some h)), _. split; [done|]. split; [done|]. split; [by eexists|].
      split; [done|]. by rewrite decide_False.
Qed.
End operations.

Section agreement.
Context `{Blake3}.
Implicit Types (c : Chat).

(** A chat, and what other replicators reported to it (who, and which hash) since it last began a
    round of votes: its operations, from a chat whose slots are fresh. *)
Inductive voting {A} (codec : Codec A) : Chat → list (nat * Hash) → Prop :=
  | voting_fresh c : stage c = block_stage_default → voting codec c []
  | voting_message msg c votes r c' :
      voting codec c votes → push_message codec msg c = Done (r, c') → voting codec c' votes
  | voting_proposal number phash index c votes r c' :
      voting codec c votes → propose_block number phash index c = Done (r, c') →
      voting codec c' ((index, phash) :: votes)
  | voting_block number block h t index c votes r c' :
      voting codec c votes → hash_block block = Done (h, t) →
      send_block number block index c = Done (r, c') → voting codec c' ((index, h) :: votes).

(** At least [k] different replicators reported the hash. *)
Definition agreed (k : nat) (h : Hash) (votes : list (nat * Hash)) : Prop :=
  ∃ indexes, NoDup indexes ∧ (k ≤ length indexes)%nat ∧
    ∀ i, i ∈ indexes → (i < REPLICATION_FACTOR)%nat ∧ (i, h) ∈ votes.

(** The slots hold what was reported; a slot nobody voted for holds [zero_hash]. *)
Definition backed (others : list Hash) (votes : list (nat * Hash)) : Prop :=
  length others = REPLICATION_FACTOR ∧ ∀ i h, others !! i = Some h → h = zero_hash ∨ (i, h) ∈ votes.
Definition stage_backed (s : BlockStage) (votes : list (nat * Hash)) : Prop :=
  match s with Unfinalized _ others => backed others votes | Recovering _ _ => True end.

Lemma stage_backed_default votes : stage_backed block_stage_default votes.
Proof.
  split; [done|]. intros i h [-> _]%lookup_replicate. by left.
Qed.
Lemma backed_vote others votes i h : backed others votes → backed (<[i:=h]> others) ((i, h) :: votes).
Proof.
  intros [Hl Hb]. split; [by rewrite length_insert|]. intros j k [(<- & <- & _)|[_ Hk]]%list_lookup_insert_Some.
  - right. by left.
  - destruct (Hb j k Hk) as [?|?]; [by left|right]. by right.
Qed.
Lemma stage_backed_more s votes v : stage_backed s votes → stage_backed s (v :: votes).
Proof.
  destruct s as [p others|]; [|done]. intros [Hl Hb]. split; [done|]. intros i h Hi.
  destruct (Hb i h Hi); [by left|right; by right].
Qed.

Lemma push_message_backed {A} (codec : Codec A) msg c votes r c' :
  stage_backed (stage c) votes → push_message codec msg c = Done (r, c') → stage_backed (stage c') votes.
Proof.
  intros Hb. unfold push_message.
  assert (∀ c1 h, stage_backed (stage c1) votes →
    match try_push codec (block_cap c1) (current_block c1) msg with
    | (Some _, block) => Done (Err (Some h), with_current c1 block) | (None, _) => Panic end = Done (r, c') →
    stage_backed (stage c') votes) as Hfinish.
  { intros c1 h Hc. destruct (try_push _ _ _ _) as [[u|] b]; [|done]. by intros [= _ <-]. }
  destruct (try_push _ _ (current_block c) _) as [[u|] block]; [by intros [= _ <-]|]. cbn zeta.
  change (stage (with_current c ?x)) with (stage c).
  destruct (stage c) as [[b|] others|h [|]] eqn:Hst; try (intros [= _ <-]; simpl; by rewrite Hst).
  - intros ([h t] & _ & Hd)%obind_done. case_decide; (eapply Hfinish; [|exact Hd]); [apply stage_backed_default|exact Hb].
  - intros ([h1 t] & _ & Hd)%obind_done. case_decide; (eapply Hfinish; [|exact Hd]); [apply stage_backed_default|done].
Qed.
(* a report of [h] by [i] either leaves the stage, or is written into its slot, or ends the vote *)
Ltac report_backed Hb := repeat case_match; intros; simplify_eq; simpl in *;
  first [done | apply stage_backed_default | by apply stage_backed_more
        | by apply backed_vote
        | match goal with E : stage _ = _ |- _ => rewrite E end;
          first [done | by apply (stage_backed_more (Unfinalized _ _))] ].

Lemma propose_block_backed number phash index c votes r c' :
  stage_backed (stage c) votes → propose_block number phash index c = Done (r, c') →
  stage_backed (stage c') ((index, phash) :: votes).
Proof. intros Hb. unfold propose_block. report_backed Hb. Qed.
Lemma send_block_backed number block h t index c votes r c' :
  stage_backed (stage c) votes → hash_block block = Done (h, t) → send_block number block index c = Done (r, c') →
  stage_backed (stage c') ((index, h) :: votes).
Proof. intros Hb Hh. unfold send_block. rewrite Hh. cbn [obind]. report_backed Hb. Qed.
Lemma voting_backed {A} (codec : Codec A) c votes : voting codec c votes → stage_backed (stage c) votes.
Proof.
  induction 1 as [c ->|??????? IH|????????? IH|??????????? IH]; [apply stage_backed_default|..].
  - by eapply push_message_backed.
  - by eapply propose_block_backed.
  - by eapply send_block_backed.
Qed.

(** The slots that hold a hash other than zero are as many replicators that reported it. *)
Lemma count_hash_agreed others votes h k :
  backed others votes → h ≠ zero_hash → (k ≤ count_hash h others)%nat → agreed k h votes.
Proof.
  intros [Hl Hb] Hh Hk. exists (filter (λ i, others !! i = Some h) (seq 0 (length others))).
  split; [apply NoDup_filter, NoDup_seq|]. split.
  - transitivity (count_hash h others); [done|]. clear. unfold count_hash.
    induction others as [|x others IH] using rev_ind; [done|].
    rewrite length_app, Nat.add_comm, seq_S. cbn [Nat.add]. rewrite !filter_app, !length_app.
    apply Nat.add_le_mono.
    + etrans; [exact IH|]. apply Nat.eq_le_incl. f_equal. apply filter_iff_in.
      intros i [_ Hi]%elem_of_seq. by rewrite lookup_app_l by lia.
    + rewrite !filter_cons, !filter_nil, list_lookup_middle by done. repeat case_decide; simpl; try lia. congruence.
  - intros i [Hi [_ Hi']%elem_of_seq]%list_elem_of_filter. split; [by rewrite <-Hl|].
    by destruct (Hb i h Hi).
Qed.

Lemma count_hash_le h l : (count_hash h l ≤ length l)%nat.
Proof. apply length_filter. Qed.

Lemma count_hash_cons h x l :
  count_hash h (x :: l) = ((if decide (x = h) then 1 else 0) + count_hash h l)%nat.
Proof. unfold count_hash. rewrite filter_cons. by case_decide. Qed.

(** While we have no block of our own, proposals only count votes. *)
Lemma propose_block_votes phash index c others :
  stage c = Unfinalized None others → (index < length others)%nat →
  propose_block (last_finalized_block c) phash index c =
    let others' := <[index:=phash]> others in
    Done (Ok None, with_stage c (if decide (2 < count_hash phash others')%nat
                                 then Recovering phash false else Unfinalized None others')).
Proof.
  intros Hst Hi. unfold propose_block. rewrite decide_False by lia.
  rewrite decide_False by lia. rewrite Hst, decide_False by lia. cbv zeta.
  rewrite andb_false_r. change (REPLICATION_FACTOR / 2 - 0)%nat with 2%nat.
  by case_decide.
Qed.

Lemma propose_block_ok number phash index c r c' :
  chat_ok c → propose_block number phash index c = Done (r, c') → chat_ok c'.
Proof.
  intros Hc. pose proof Hc as (H1 & H2 & H3 & H4 & H5). unfold propose_block.
  case_decide; [case_decide; [|done]|case_decide; [done|]].
  { destruct (finalized c); [by intros; simplify_eq|]. by case_decide; intros; simplify_eq. }
  destruct (stage c) as [proposed others|] eqn:Hst; [|by intros; simplify_eq].
  destruct H5 as [Hlo Hpo]. case_decide; [done|].
  assert (length (<[index:=phash]> others) = REPLICATION_FACTOR) as Hlen
    by by rewrite length_insert.
  case_decide.
  - destruct proposed as [b|]; [destruct (decide (hash b = phash))|]; intros; simplify_eq;
      apply with_stage_ok; try done. by apply push_to_finalized_ok.
  - match goal with |- context [if ?b then Panic else _] => destruct b end; [done|]. intros; simplify_eq. by apply with_stage_ok.
Qed.

Lemma send_block_ok number block index c r c' :
  chat_ok c → send_block number block index c = Done (r, c') → chat_ok c'.
Proof.
  intros Hc. pose proof Hc as (H1 & H2 & H3 & H4 & H5). unfold send_block.
  case_decide; [|by intros; simplify_eq].
  destruct (stage c) as [[p|] others|final_hash wf] eqn:Hst; [|by intros; simplify_eq|].
  - destruct H5 as [Hlo Hpo]. destruct (hash_block block) as [[h t]|] eqn:Hh; [|done]. cbn [obind].
    case_decide; [done|]. case_decide; intros; simplify_eq.
    + apply with_stage_ok; [done|]. by rewrite length_insert.
    + apply push_to_finalized_ok; [by exists t|]. by apply with_stage_ok.
  - destruct (hash_block block) as [[h t]|] eqn:Hh; [|done]. cbn [obind].
    case_decide; intros; simplify_eq; [|done].
    edestruct (framed_retain (λ msg, (msg, negb (bool_decide (from_slice msg ∈ t)))) (current_block c))
      as [Hf Hl]; [done|done|done|].
    apply push_to_finalized_ok; [by exists t|]. apply with_current_ok; [done|done|lia].
Qed.
Implicit Types (older page newer ms : list bytes).

(** ** Reading pages *)

(* the blocks a cursor selects from, newest first *)
Definition blocks_of c : list bytes :=
  current_block c :: option_list (unfinalized_block (stage c)) ++ map data (finalized c).

(* the pages a client gets by following the cursors *)
Fixpoint fetch_pages (n : nat) (cursor : Cursor) c : list bytes :=
  match n with
  | 0%nat => []
  | S n => let (cursor, page) := fetch_messages cursor c in page :: fetch_pages n cursor c
  end.

Lemma frame_lengths ms :
  list_sum (map (λ msg : bytes, length msg + 2)%nat ms) = length (concat (map frame ms)).
Proof.
  induction ms as [|m ms IH]; [done|]. simpl. rewrite IH, length_app. unfold frame.
  by rewrite length_app, encode_len_length.
Qed.

Lemma list_sum_rev l : list_sum (rev l) = list_sum l.
Proof. induction l as [|x l IH]; [done|]. simpl. rewrite list_sum_app. simpl. lia. Qed.

Lemma frames_app ms ms' :
  concat (map frame (ms ++ ms')) = concat (map frame ms) ++ concat (map frame ms').
Proof. by rewrite map_app, concat_app. Qed.

(** The sum over the newest messages of a block is the length of its last page. *)
Lemma page_length older page :
  Forall is_message (older ++ page) → (length page ≤ MESSAGE_FETCH_LIMIT)%nat →
  older = [] ∨ length page = MESSAGE_FETCH_LIMIT →
  list_sum (map (λ msg : bytes, length msg + 2)%nat
    (take MESSAGE_FETCH_LIMIT (unpack_messages (concat (map frame (older ++ page)))))) =
  length (concat (map frame page)).
Proof.
  intros Hms Hl Ho. rewrite unpack_framed by done. rewrite rev_app_distr.
  assert (take MESSAGE_FETCH_LIMIT (rev page ++ rev older) = rev page) as ->.
  { rewrite take_app, take_ge by (rewrite length_rev; lia).
    destruct Ho as [->|Ho]; [simpl rev; by rewrite firstn_nil, app_nil_r|].
    by rewrite length_rev, Ho, Nat.sub_diag, take_0, app_nil_r. }
  by rewrite map_rev, list_sum_rev, frame_lengths.
Qed.

(** A cursor that is not older than the newest block only ever sees the newest block. *)
Lemma fetch_newest_step cursor c :
  0 ≤ block_number c < 2 ^ 64 - 1 → block_number c ≤ block cursor < 2 ^ 64 →
  let r := fetch_messages cursor c in
  (∃ i j, snd r = drop i (take j (current_block c))) ∧
  (fst r = cursor_init ∨ block_number c ≤ block (fst r) < 2 ^ 64).
Proof.
  intros Hn Hb. unfold fetch_messages. cbv zeta.
  set (cur := if decide (cursor = cursor_init) then _ else cursor).
  assert (block_number c ≤ block cur < 2 ^ 64 ∧ (offset cur = 0%nat → block cur < 2 ^ 64 - 1)) as [Hc H0].
  { unfold cur. case_decide as Hi; simpl; [lia|]. split; [done|]. intros Ho.
    destruct cursor as [bl off]; simpl in *. subst off.
    destruct (decide (bl = 2 ^ 64 - 1)) as [->|]; [done|lia]. }
  case_decide as Hz; [split; [exists 0%nat, 0%nat; by rewrite take_0|by left]|].
  set (num := if decide (offset cur = 0%nat) then _ else _).
  assert (block_number c ≤ num < 2 ^ 64) as Hnum.
  { unfold num. case_decide as Ho; [|done]. specialize (H0 Ho).
    unfold wrap. rewrite Z.mod_small by lia. lia. }
  replace (Z.to_nat (block_number c - num)) with 0%nat by lia. cbn [lookup list_lookup].
  case_decide; [split; [exists 0%nat, 0%nat; by rewrite take_0|by left]|].
  cbn [fst snd block]. split; [by eexists _, _|by right].
Qed.

(** What the other parties can do to a chat. *)
Inductive chat_step c c' : Prop :=
  | step_push {A} (codec : Codec A) (msg : A) r :
      push_message codec msg c = Done (r, c') → chat_step c c'
  | step_propose number phash index r :
      propose_block number phash index c = Done (r, c') → chat_step c c'
  | step_send number block index r :
      send_block number block index c = Done (r, c') → chat_step c c'.

Lemma recovering_step c c' h :
  stage c = Recovering h true → chat_step c c' → stage c' = Recovering h true.
Proof.
  intros Hst [A codec msg r Hs|number phash index r Hs|number block index r Hs]; revert Hs.
  - unfold push_message. destruct (try_push _ _ _ _) as [[] b]; cbn zeta.
    + by intros [= _ <-].
    + change (stage (with_current c ?b)) with (stage c). rewrite Hst. by intros [= _ <-].
  - unfold propose_block. rewrite Hst. repeat case_match; by intros; simplify_eq.
  - unfold send_block. rewrite Hst. repeat case_match; try by intros; simplify_eq.
    destruct (hash_block block) as [[h' t]|]; [|done]. cbn [obind].
    case_match; by intros; simplify_eq.
Qed.
End agreement.

(** ** Properties *)


Section demo.
#[local] Existing Instance demo_blake3.

Definition demo_message (content : bytes) : Message := MkMessage zero_hash 0 content.
(** A chat with room for one message a block. *)
Definition demo_chat (s : BlockStage) (block : bytes) : Chat :=
  {| members := ∅; finalized := []; current_block := block; block_cap := 40;
     block_number := 3; stage := s; restoring := false |}.
Definition demo_block (content : bytes) : bytes :=
  frame (twire message_codec (demo_message content)).

Lemma demo_block_framed content :
  (length content ≤ 10)%nat → Forall (fits 8) content → framed (demo_block content).
Proof.
  intros Hl Hc. exists [twire message_codec (demo_message content)]. split.
  - constructor; [|constructor]. split; [change (length _) with (33 + length content)%nat; lia|].
    apply Forall_app. split; [decided|]. apply Forall_app. split; [decided|done].
  - simpl. by rewrite app_nil_r.
Qed.

End demo.





(** A chat that has not closed a block yet cannot recover the first one. When three other
    replicators propose it the chat goes into recovery at block number zero, its last finalized
    block becomes minus one, wrapped to [2^64 - 1], and every block sent to it under another
    number, the right one included, is refused as outdated. *)
Theorem first_block_recovery_stuck `{Blake3} (id : Identity) (r : bool) (phash : Hash) :
  phash ≠ zero_hash →
  ∃ c1 c2 c3, propose_block 0 phash 0 (chat_new id r) = Done (Ok None, c1) ∧
    propose_block 0 phash 1 c1 = Done (Ok None, c2) ∧
    propose_block 0 phash 2 c2 = Done (Ok None, c3) ∧
    stage c3 = Recovering phash false ∧ block_number c3 = 0 ∧
    ∀ number block index, number ≠ 2 ^ 64 - 1 →
      send_block number block index c3 = Done (Err (InvalidBlock Outdated), c3).
Proof.
  intros Hp. set (c := chat_new id r).
  pose (votes k := with_stage c (Unfinalized None (replicate k phash ++ replicate (4 - k) zero_hash))).
  assert (∀ k, (k < 3)%nat → propose_block 0 phash k (votes k) =
    Done (Ok None, with_stage c (if decide (2 < S k)%nat then Recovering phash false
                                 else stage (votes (S k))))) as Hv.
  { intros k Hk. change 0 with (last_finalized_block (votes k)) at 1.
    rewrite (propose_block_votes _ _ _ (replicate k phash ++ replicate (4 - k) zero_hash));
      [|done|rewrite length_app, !length_replicate; lia].
    destruct k as [|[|[|k]]]; [..|lia]; cbn -[zero_hash count_hash decide];
      rewrite !count_hash_cons; cbn -[zero_hash decide];
      repeat (destruct (decide (_ = _)); [|try done]); try (by exfalso; eauto); done. }
  exists (votes 1%nat), (votes 2%nat), (with_stage c (Recovering phash false)).
  split; [exact (Hv 0%nat ltac:(lia))|]. split; [exact (Hv 1%nat ltac:(lia))|].
  split; [exact (Hv 2%nat ltac:(lia))|]. split; [done|]. split; [done|].
  - intros number block index Hn. unfold send_block. rewrite decide_False; [done|].
    unfold last_finalized_block. cbn. intros <-. apply Hn. done.
Qed.

Lemma first_block_recovery_stuck_witness : let _ := demo_blake3 in
  ∃ c1 c2 c3, propose_block 0 [9] 0 (chat_new [1] false) = Done (Ok None, c1) ∧
    propose_block 0 [9] 1 c1 = Done (Ok None, c2) ∧
    propose_block 0 [9] 2 c2 = Done (Ok None, c3) ∧
    stage c3 = Recovering [9] false ∧ block_number c3 = 0 ∧
    ∀ number block index, number ≠ 2 ^ 64 - 1 →
      send_block number block index c3 = Done (Err (InvalidBlock Outdated), c3).
Proof. intros B. apply (first_block_recovery_stuck [1] false [9]). done. Defined.

(** A page is the newest messages below the cursor. For a cursor standing behind a message
    of any block the node still has, [fetch_messages] answers the last twenty messages before
    it (all of them when there are fewer), framed as they are stored and in their order, and a
    cursor standing right before the page. *)
Theorem fetch_messages_page (c : Chat) (number : BlockNumber) (older page newer : list bytes) :
  Forall is_message (older ++ page ++ newer) →
  blocks_of c !! Z.to_nat (block_number c - number) =
    Some (concat (map frame (older ++ page ++ newer))) →
  page ≠ [] → (length page ≤ MESSAGE_FETCH_LIMIT)%nat →
  older = [] ∨ length page = MESSAGE_FETCH_LIMIT →
  fetch_messages (MkCursor number (length (concat (map frame (older ++ page))))) c =
    (MkCursor number (length (concat (map frame older))), concat (map frame page)).
Proof.
  intros Hms Hb Hne Hl Ho.
  rewrite (assoc_L (++)) in Hms, Hb. apply Forall_app in Hms as [Hms _].
  assert (length (concat (map frame (older ++ page))) ≠ 0%nat) as Hoff.
  { destruct page as [|m page]; [done|]. rewrite frames_app, length_app. simpl.
    rewrite length_app. unfold frame. rewrite length_app, encode_len_length. lia. }
  unfold fetch_messages. cbv zeta.
  rewrite !(decide_False (P := _ = cursor_init)) by (intros [=]%(f_equal offset); simpl in *; lia). cbn [block offset].
  rewrite (decide_False (P := _ ∧ _)) by (intros []; done).
  rewrite !(decide_False (P := _ = 0%nat)) by done.
  fold (blocks_of c). rewrite Hb, (frames_app (older ++ page) newer).
  rewrite !(decide_False (P := _ = 0%nat)) by done.
  rewrite decide_False by (rewrite length_app; lia). cbv zeta.
  rewrite take_app_n by done. rewrite page_length by done.
  rewrite frames_app, length_app, Nat.add_sub.
  by rewrite drop_app_n.
Qed.

(** Following the cursors never leaves the newest block: a cursor at the start of a block
    is moved to the next newer block number instead of the older one, so every page a client
    gets from the initial cursor on is a slice of the current block, however many it asks for. *)
Theorem fetch_messages_only_newest (c : Chat) (n : nat) :
  0 ≤ block_number c < 2 ^ 64 - 1 →
  Forall (λ page, ∃ i j, page = drop i (take j (current_block c))) (fetch_pages n cursor_init c).
Proof.
  intros Hn.
  assert (∀ cursor, cursor = cursor_init ∨ block_number c ≤ block cursor < 2 ^ 64 →
    Forall (λ page, ∃ i j, page = drop i (take j (current_block c))) (fetch_pages n cursor c))
    as Hg; [|by apply Hg; left].
  induction n as [|n IH]; intros cursor Hc; [constructor|]. simpl.
  assert (block_number c ≤ block cursor < 2 ^ 64) as Hb
    by (destruct Hc as [->|Hc]; [simpl; lia|done]).
  destruct (fetch_newest_step cursor c Hn Hb) as [Hs Hc']. cbv zeta in Hs, Hc'.
  destruct (fetch_messages cursor c) as [cursor' page]. simpl in *.
  constructor; [done|by apply IH].
Qed.

Definition demo_history : Chat :=
  {| members := ∅; finalized := [{| hash := zero_hash; data := frame [1] ++ frame [2] |}];
     current_block := frame [3] ++ frame [4; 5]; block_cap := 40; block_number := 1;
     stage := block_stage_default; restoring := false |}.

Lemma fetch_messages_page_witness :
  fetch_messages (MkCursor 0 6) demo_history = (MkCursor 0 0, frame [1] ++ frame [2]).
Proof.
  refine (fetch_messages_page demo_history 0 [] [[1]; [2]] [] _ eq_refl _ _ _);
    [decided|done|unfold MESSAGE_FETCH_LIMIT; simpl; lia|by left].
Defined.

Lemma fetch_messages_only_newest_witness :
  fetch_pages 3 cursor_init demo_history =
    replicate 3 (frame [3] ++ frame [4; 5]) ∧
  Forall (λ page, ∃ i j, page = drop i (take j (current_block demo_history)))
    (fetch_pages 3 cursor_init demo_history).
Proof.
  split; [reflexivity|]. apply (fetch_messages_only_newest demo_history 3). simpl. lia.
Defined.

(** Recovery does not end. Once the chat recovers and its own full block is closed, neither
    messages nor proposals nor sent blocks take it out of recovery, not even the block it waits
    for: [SendBlock] stores the block but leaves the stage. From then on a message that does not
    fit the current block is refused. *)
Theorem recovering_forever `{Blake3} (c c' : Chat) (h : Hash) :
  stage c = Recovering h true → rtc chat_step c c' →
  stage c' = Recovering h true ∧
  ∀ A (codec : Codec A) msg block, try_push codec (block_cap c') (current_block c') msg = (None, block) →
    ∃ c2, push_message codec msg c' = Done (Err None, c2).
Proof.
  intros Hst Hr. assert (stage c' = Recovering h true) as Hst'.
  { induction Hr as [|c1 c2 c3 Hs _ IH]; [done|]. apply IH. by eapply recovering_step. }
  split; [done|]. intros A codec msg block Hp. unfold push_message. rewrite Hp. cbn zeta.
  change (stage (with_current c' ?b)) with (stage c'). rewrite Hst'. by eexists.
Qed.

Lemma recovering_forever_witness : let _ := demo_blake3 in
  let block := demo_block [4] in
  let h := from_slice (twire message_codec (demo_message [4])) in
  let c := demo_chat (Recovering h true) [] in
  let c' := push_to_finalized {| hash := h; data := block |} c in
  send_block 2 block 0 c = Done (Ok tt, c') ∧ stage c' = Recovering h true.
Proof.
  intros B block h c c'. assert (send_block 2 block 0 c = Done (Ok tt, c')) as Hs by reflexivity.
  split; [exact Hs|].
  refine (proj1 (recovering_forever c c' h eq_refl _)).
  apply rtc_once. by eapply step_send.
Defined.
