(* ===== verification/Server.v ===== *)
(** What the handlers of [nodes/server/src] run on: the routing table, the client streams, the
    storage and the handler nest that keeps the requests waiting for other nodes.

    The RPC behaviour and the encrypted client streams are interfaces (classes [RpcNet] and
    [ClientStream]); the state of the node is the record [Cx], passed explicitly. *)

From S2P Require Import Prelude Codec Collections Dht ChatSpec Chat.

Notation PeerId := bytes (only parsing).
Notation PathId := nat (only parsing).

Inductive RequestOrigin := Client (p : PathId) | Server (peer : PeerId).
#[global] Instance request_origin_eq_dec : EqDecision RequestOrigin.
Proof. solve_decision. Defined.

(** ** Interfaces *)

(** [rpc::Behaviour]: [request] gives the id of the call, or fails. *)
Class RpcNet (R : Type) := {
  rpc_request : PeerId → bytes → R → option CallId * R;
  rpc_respond : PeerId → CallId → bytes → R → R;
}.

(** [InnerStream]: a write that does not fit fails. *)
Class ClientStream (S : Type) := {
  stream_write : ∀ {A}, Codec A → A → S → option unit * S;
}.

(** The events of [rpc::Behaviour]; the time of a response is not used by the handlers. *)
Inductive RpcEvent :=
  | Response (peer : PeerId) (call : CallId) (res : result bytes unit)
  | RpcRequest (peer : PeerId) (call : CallId) (body : bytes).

(** The libp2p conversion of an Ed25519 key to a peer id. Routes are only made of valid keys. *)
Class Ed25519 := ed_peer_id : bytes → PeerId.

(** ** Handlers *)

(** [HandlerResult]: a response, or the handler that waits for the next event. *)
Inductive handler_result (T E H : Type) := Respond (r : result T E) | Wait (h : H).
Arguments Respond {T E H} _.
Arguments Wait {T E H} _.

Section server.
Context {R S Addr : Type} `{RpcNet R, ClientStream S, Ed25519, Blake3}.

Record Stream := {
  stream_id : PathId;
  subscriptions : LinearMap.LinearMap PossibleTopic CallId;
  inner : S;
}.

Record Storage := {
  profiles : gmap Identity Profile;
  online : gmap Identity RequestOrigin;
  chats : gmap ChatName Chat;
}.
Definition storage_default : Storage := {| profiles := ∅; online := ∅; chats := ∅ |}.

(** [Context]: [swarm] is the routing table, the RPC behaviour and the local peer id. The
    buffer of hashes [res] is cleared before every use and has no state to keep. *)
Record Cx := {
  table : RoutingTable Addr;
  rpc : R;
  local_peer_id : PeerId;
  clients : list Stream;
  storage : Storage;
}.

Definition with_table (cx : Cx) (t : RoutingTable Addr) : Cx :=
  {| table := t; rpc := rpc cx; local_peer_id := local_peer_id cx; clients := clients cx;
     storage := storage cx |}.
Definition with_rpc (cx : Cx) (r : R) : Cx :=
  {| table := table cx; rpc := r; local_peer_id := local_peer_id cx; clients := clients cx;
     storage := storage cx |}.
Definition with_clients (cx : Cx) (l : list Stream) : Cx :=
  {| table := table cx; rpc := rpc cx; local_peer_id := local_peer_id cx; clients := l;
     storage := storage cx |}.
Definition with_storage (cx : Cx) (s : Storage) : Cx :=
  {| table := table cx; rpc := rpc cx; local_peer_id := local_peer_id cx; clients := clients cx;
     storage := s |}.
Definition with_profiles (cx : Cx) (p : gmap Identity Profile) : Cx :=
  with_storage cx {| profiles := p; online := online (storage cx); chats := chats (storage cx) |}.
Definition with_online (cx : Cx) (o : gmap Identity RequestOrigin) : Cx :=
  with_storage cx {| profiles := profiles (storage cx); online := o; chats := chats (storage cx) |}.
Definition with_chats (cx : Cx) (c : gmap ChatName Chat) : Cx :=
  with_storage cx {| profiles := profiles (storage cx); online := online (storage cx); chats := c |}.

(** ** Replicators *)

Definition route_peer_id (r : Route Addr) : PeerId := ed_peer_id (be_bytes 32 (id r)).

Definition replicators_for (table : RoutingTable Addr) (topic : PossibleTopic) : list PeerId :=
  map route_peer_id (closest blake3 (topic_bytes topic) table (REPLICATION_FACTOR + 1)).

Definition other_replicators_for (table : RoutingTable Addr) (topic : PossibleTopic) (us : PeerId) :
    list PeerId :=
  filter (λ p, p ≠ us) (replicators_for table topic).

Definition is_valid_topic (cx : Cx) (topic : PossibleTopic) : bool :=
  existsb (λ peer, bool_decide (peer = local_peer_id cx)) (replicators_for (table cx) topic).

Definition cx_other_replicators_for (cx : Cx) (topic : PossibleTopic) : list PeerId :=
  other_replicators_for (table cx) topic (local_peer_id cx).

(* peers.filter_map(|peer| rpc.request(peer, packet).ok()) *)
Fixpoint request_all (peers : list PeerId) (packet : bytes) (r : R) : list CallId * R :=
  match peers with
  | [] => ([], r)
  | peer :: peers =>
      let (call, r) := rpc_request peer packet r in
      let (calls, r) := request_all peers packet r in
      (option_list call ++ calls, r)
  end.

(** ** Client streams *)

Definition find_stream (id : PathId) (l : list Stream) : option nat :=
  position (λ s, bool_decide (stream_id s = id)) l.

Definition stream_put {A} (c : Codec A) (a : A) (s : Stream) : option unit * Stream :=
  let (r, i) := stream_write c a (inner s) in
  (r, {| stream_id := stream_id s; subscriptions := subscriptions s; inner := i |}).

Definition subscribe (topic : PossibleTopic) (call : CallId) (origin : PathId) (cx : Cx) : Cx :=
  match find_stream origin (clients cx) with
  | None => cx
  | Some i =>
      with_clients cx (alter (λ s,
        {| stream_id := stream_id s; inner := inner s;
           subscriptions := snd (LinearMap.insert topic call (subscriptions s)) |}) i (clients cx))
  end.

(* push_notification: whether the client was told, and the streams *)
Definition push_notification (streams : list Stream) (topic : Identity) (event : bytes)
    (recip : PathId) : bool * list Stream :=
  match find_stream recip streams ≫= λ i, (i,.) <$> streams !! i with
  | None => (false, streams)
  | Some (i, stream) =>
      match LinearMap.get (TopicProfile topic) (subscriptions stream) with
      | None => (false, streams)
      | Some call_id =>
          let (r, stream) := stream_put (pair_codec usize_codec reminder_codec) (call_id, event) stream in
          (match r with Some _ => true | None => false end, <[i:=stream]> streams)
      end
  end.

(* main::handle_event *)
Definition push_event {A} (streams : list Stream) (topic : PossibleTopic) (c : Codec A) (event : A) :
    list Stream :=
  map (λ stream,
    match LinearMap.get topic (subscriptions stream) with
    | None => stream
    | Some call_id => snd (stream_put (pair_codec usize_codec c) (call_id, event) stream)
    end) streams.

(* Context::push *)
Definition push_chat_event `{Signatures} (topic : ChatName) (event : ChatEvent) (cx : Cx) : Cx :=
  with_clients cx (push_event (clients cx) (TopicChat topic) chat_event_codec event).

(* impl SyncHandler for Subscribe *)
Definition subscribe_execute (origin : RequestOrigin) (call_id : CallId) (topic : PossibleTopic)
    (cx : Cx) : result unit Empty_set * Cx :=
  match origin with
  | Client path => (Ok tt, subscribe topic call_id path cx)
  | Server _ => (Ok tt, cx)
  end.

(** ** The nest of waiting handlers *)

Record Scope := { origin : RequestOrigin; call_id : CallId; prefix : u8 }.
Record Request := { r_prefix : u8; r_id : CallId; r_origin : RequestOrigin; r_body : bytes }.
Definition scope_of (req : Request) : Scope :=
  {| origin := r_origin req; call_id := r_id req; prefix := r_prefix req |}.

(** [Handler]: what a request does at once, and what an event does to a waiting one. *)
Class Handler (Req T E Ev Hd : Type) := {
  execute : Scope → Req → Cx → outcome (handler_result T E Hd * Cx);
  resume : Hd → Scope → Ev → Cx → outcome (handler_result T E Hd * Cx);
}.

Inductive HandlerExecError := DecodeRequest | UnknownPrefix.

Section nest.
Context {Req T E Ev Hd : Type} {handler_impl : Handler Req T E Ev Hd}.
Context (creq : Codec Req) (cresp : Codec T) (cerr : Codec E).

Record HandlerInstance := { scope : Scope; handler : Hd }.
(** [HandlerNest]: a slot is only empty while its handler runs. *)
Definition HandlerNest := list (option HandlerInstance).

(* r.encode(buffer): what the buffer holds, even when the encoding fails *)
Definition encode_response (r : result T E) (bp : bytes) : option unit * bytes :=
  encode (result_codec cresp cerr) r bp.

(* HandlerNest::execute *)
Definition nest_execute (nest : HandlerNest) (req : Request) (bp : bytes) (cx : Cx) :
    outcome (result bool HandlerExecError * bytes * HandlerNest * Cx) :=
  match fst (decode creq (r_body req)) with
  | None => Done (Err DecodeRequest, bp, nest, cx)
  | Some decoded =>
      try! (res, cx) := execute (scope_of req) decoded cx in
      match res with
      | Wait h => Done (Ok false, bp, nest ++ [Some {| scope := scope_of req; handler := h |}], cx)
      | Respond r => Done (Ok true, snd (encode_response r bp), nest, cx)
      end
  end.

(* the find_map of HandlerNest::try_complete; a taken slot stays empty when its handler is done *)
Fixpoint nest_find (i : nat) (nest : HandlerNest) (event : Ev) (bp : bytes) (cx : Cx) :
    outcome (option (nat * Scope) * bytes * HandlerNest * Cx) :=
  match nest with
  | [] => Done (None, bp, [], cx)
  | slot :: nest =>
      try! read := unwrap slot in
      try! (res, cx) := resume (handler read) (scope read) event cx in
      match res with
      | Respond r => Done (Some (i, scope read), snd (encode_response r bp), None :: nest, cx)
      | Wait h =>
          try! (found, bp, nest, cx) := nest_find (Datatypes.S i) nest event bp cx in
          Done (found, bp, Some {| scope := scope read; handler := h |} :: nest, cx)
      end
  end.

(* HandlerNest::try_complete once the event is known to be for these handlers *)
Definition nest_try_complete (nest : HandlerNest) (event : Ev) (bp : bytes) (cx : Cx) :
    outcome (option (RequestOrigin * CallId) * bytes * HandlerNest * Cx) :=
  try! (found, bp, nest, cx) := nest_find 0 nest event bp cx in
  match found with
  | None => Done (None, bp, nest, cx)
  | Some (i, sc) =>
      try! (_, nest) := unwrap (swap_remove i nest) in
      Done (Some (origin sc, call_id sc), bp, nest, cx)
  end.
End nest.
End server.
Arguments Stream : clear implicits.
Arguments Cx : clear implicits.
Arguments HandlerNest : clear implicits.
Arguments HandlerInstance : clear implicits.

(** ** Replicators *)

Section replicators.
Context {R S Addr : Type} `{RpcNet R, ClientStream S, Ed25519, Blake3}.
Implicit Types (t : RoutingTable Addr) (cx : Cx R S Addr).

(** Distinct keys are distinct peers (the peer id of an Ed25519 key is the key itself). *)
Definition peers_injective : Prop :=
  ∀ a b : bytes, length a = 32%nat → length b = 32%nat → ed_peer_id a = ed_peer_id b → a = b.

Lemma blake3_fits data : fits 256 (be_value (blake3 data)).
Proof.
  pose proof (be_value_range (blake3 data) (blake3_bytes data)) as Hr.
  rewrite blake3_length in Hr. unfold fits. lia.
Qed.

Lemma table_ids_nodup t : table_ok t → NoDup (map id t).
Proof. intros [Hs _]. by apply sorted_nodup. Qed.

Lemma replicators_spec t topic :
  peers_injective → table_ok t →
  NoDup (replicators_for t topic) ∧
  length (replicators_for t topic) = Nat.min (REPLICATION_FACTOR + 1) (length t).
Proof.
  intros Hinj Hok. unfold replicators_for, closest.
  destruct (closest_low_perm (be_value (blake3 (topic_bytes topic))) t (REPLICATION_FACTOR + 1) Hok
              (blake3_fits _)) as (rest & Hp & Hl & _).
  set (out := closest_low _ _ _) in *. split; [|by rewrite length_map].
  pose proof (table_ids_nodup t Hok) as Hn. rewrite Hp, map_app in Hn.
  apply NoDup_app in Hn as [Hn _].
  assert (Forall (λ r, fits 256 (id r)) out) as Hf.
  { destruct Hok as [_ Hf]. rewrite Hp in Hf. by apply Forall_app in Hf as [Hf _]. }
  clear -Hinj Hn Hf. induction Hf as [|r out Hr Hf IH]; simpl; [constructor|].
  apply NoDup_cons in Hn as [Hni Hn]. constructor; [|by apply IH].
  intros (r' & He & Hin)%list_elem_of_fmap. apply Hni. apply list_elem_of_fmap. exists r'. split; [|done].
  rewrite Forall_forall in Hf. specialize (Hf r' Hin).
  apply Hinj in He; [|by rewrite be_bytes_length..].
  apply be_bytes_inj in He; [done|unfold fits in *; lia..].
Qed.

Lemma filter_one_out (us : PeerId) l :
  NoDup l → us ∈ l → Datatypes.S (length (filter (λ p, p ≠ us) l)) = length l.
Proof.
  induction 1 as [|x l Hx Hn IH]; [by intros ?%elem_of_nil|]. intros [->|Hin]%elem_of_cons.
  - rewrite filter_cons_False by naive_solver. f_equal. simpl. f_equal.
    clear -Hx. induction l as [|y l IH]; [done|]. apply not_elem_of_cons in Hx as [Hne Hx].
    rewrite filter_cons_True by done. simpl. by rewrite IH.
  - assert (x ≠ us) by by intros ->. rewrite filter_cons_True by done. simpl. by rewrite IH.
Qed.

Lemma is_valid_topic_elem cx topic :
  is_valid_topic cx topic = true ↔ local_peer_id cx ∈ replicators_for (table cx) topic.
Proof.
  unfold is_valid_topic. rewrite existsb_exists. split.
  - intros (p & Hin & ->%bool_decide_eq_true). by apply list_elem_of_In.
  - intros Hin%list_elem_of_In. eexists. split; [done|]. by apply bool_decide_eq_true.
Qed.

Lemma request_all_spec peers packet (r : R) :
  (length (fst (request_all peers packet r)) ≤ length peers)%nat.
Proof.
  revert r. induction peers as [|p peers IH]; intros r; [done|]. simpl.
  destruct (rpc_request p packet r) as [call r']. specialize (IH r').
  destruct (request_all peers packet r') as [calls r'']. simpl in *.
  destruct call; simpl; lia.
Qed.

(** ** The nest *)

Context {Req T E Ev Hd : Type} {handler_impl : Handler (R := R) (S := S) (Addr := Addr) Req T E Ev Hd}.
Context (creq : Codec Req) (cresp : Codec T) (cerr : Codec E).
Implicit Types (nest : list (option (HandlerInstance Hd))) (ev : Ev) (bp : bytes).

(** The requests a nest has not answered. *)
Definition scopes nest : list Scope := omap (λ slot, scope <$> slot) nest.
Definition kept nest : Prop := Forall is_Some nest.

Lemma scopes_app nest nest' : scopes (nest ++ nest') = scopes nest ++ scopes nest'.
Proof. apply omap_app. Qed.

Lemma nest_find_spec i nest ev bp cx found bp' nest' cx' :
  kept nest → nest_find cresp cerr i nest ev bp cx = Done (found, bp', nest', cx') →
  match found with
  | None => kept nest' ∧ scopes nest' = scopes nest ∧ bp' = bp
  | Some (j, sc) => ∃ l1 l2, nest' = l1 ++ None :: l2 ∧ j = (i + length l1)%nat ∧ kept (l1 ++ l2) ∧
      scopes nest ≡ₚ sc :: scopes (l1 ++ l2)
  end.
Proof.
  intros Hk. revert i bp cx found bp' nest' cx'.
  induction Hk as [|slot nest [hi ->] Hk IH]; intros i bp cx found bp' nest' cx' Hf; simpl in Hf.
  { simplify_eq. split; [constructor|done]. }
  destruct (resume (handler hi) (scope hi) ev cx) as [[[r|h] cx1]|]; simpl in Hf; [|..|done].
  - simplify_eq. exists [], nest. simpl. split; [done|]. split; [lia|]. done.
  - destruct (nest_find _ _ _ nest ev bp cx1) as [[[[found1 bp1] nest1] cx2]|] eqn:Hn; [|done].
    simpl in Hf. simplify_eq. specialize (IH _ _ _ _ _ _ _ Hn). destruct found as [[j sc]|].
    + destruct IH as (l1 & l2 & -> & -> & Hkl & Hp).
      exists (Some {| scope := scope hi; handler := h |} :: l1), l2. simpl.
      split; [done|]. split; [lia|]. split; [by constructor; [eexists|]|].
      change (scope hi :: scopes nest ≡ₚ sc :: scope hi :: scopes (l1 ++ l2)).
      rewrite Hp. apply Permutation_swap.
    + destruct IH as (Hk1 & Hs & ->). split; [by constructor; [eexists|]|]. split; [|done].
      change (scope hi :: scopes nest1 = scope hi :: scopes nest). by rewrite Hs.
Qed.

Lemma nest_find_done i nest ev bp cx :
  (∀ h sc ev cx, resume (Handler := handler_impl) h sc ev cx ≠ Panic) → kept nest →
  nest_find cresp cerr i nest ev bp cx ≠ Panic.
Proof.
  intros Hr Hk. revert i bp cx. induction Hk as [|slot nest [hi ->] Hk IH]; intros i bp cx; [done|].
  simpl. specialize (Hr (handler hi) (scope hi) ev cx).
  destruct (resume (handler hi) (scope hi) ev cx) as [[[r|h] cx1]|]; [done| |done]. simpl.
  specialize (IH (Datatypes.S i) bp cx1). by destruct (nest_find _ _ _ nest ev bp cx1) as [[[[? ?] ?] ?]|].
Qed.
End replicators.

(** ** Properties *)

(** A node that is a replicator of a topic has at most four others for it, all distinct and
    none of them itself, one fewer than the replicators; and every server that passes for one of
    them has an index within the four hash slots of a chat. *)
Theorem other_replicators_fit {R S Addr} `{Ed25519, Blake3} (cx : Cx R S Addr) (topic : PossibleTopic) :
  peers_injective → table_ok (table cx) → is_valid_topic cx topic = true →
  let others := cx_other_replicators_for cx topic in
  NoDup others ∧ local_peer_id cx ∉ others ∧
  Datatypes.S (length others) = Nat.min 5 (length (table cx)) ∧
  ∀ peer i, position (λ p, bool_decide (p = peer)) others = Some i → (i < REPLICATION_FACTOR)%nat.
Proof.
  intros Hinj Hok Hv%is_valid_topic_elem others.
  destruct (replicators_spec (table cx) topic Hinj Hok) as [Hn Hl].
  assert (Datatypes.S (length others) = Nat.min 5 (length (table cx))) as Hlen.
  { unfold others, cx_other_replicators_for, other_replicators_for.
    rewrite filter_one_out by done. by rewrite Hl. }
  split; [by apply NoDup_filter|]. split; [by intros [? _]%list_elem_of_filter|]. split; [done|].
  intros peer i (x & Hi%lookup_lt_Some & _)%position_some. unfold REPLICATION_FACTOR. lia.
Qed.

(** The nest keeps its bookkeeping: as long as no waiting handler panics, delivering an
    event neither panics nor loses a request. Either no handler finishes, the response buffer is
    untouched and exactly the same requests keep waiting; or one handler finishes, the origin
    and the call it was created with are reported, and all other requests keep waiting. *)
Theorem nest_completes_one {R S Addr Req T E Ev Hd}
    {handler_impl : Handler (R := R) (S := S) (Addr := Addr) Req T E Ev Hd}
    (cresp : Codec T) (cerr : Codec E) (nest : HandlerNest Hd) (ev : Ev) (bp : bytes) cx :
  (∀ h sc ev cx, resume (Handler := handler_impl) h sc ev cx ≠ Panic) → kept nest →
  ∃ res bp' nest' cx', nest_try_complete cresp cerr nest ev bp cx = Done (res, bp', nest', cx') ∧
    kept nest' ∧
    match res with
    | None => scopes nest' = scopes nest ∧ bp' = bp
    | Some (o, call) => ∃ sc, origin sc = o ∧ call_id sc = call ∧ scopes nest ≡ₚ sc :: scopes nest'
    end.
Proof.
  intros Hr Hk. unfold nest_try_complete.
  destruct (nest_find cresp cerr 0 nest ev bp cx) as [[[[found bp'] nest'] cx']|] eqn:Hf;
    [|by apply nest_find_done in Hf].
  pose proof (nest_find_spec _ _ _ _ _ _ _ _ _ _ _ Hk Hf) as Hs. simpl.
  destruct found as [[j sc]|]; [|destruct Hs as (? & ? & ?); by eexists _, _, _, _].
  destruct Hs as (l1 & l2 & -> & -> & Hk' & Hp).
  destruct (swap_remove_perm (0 + length l1) (l1 ++ None :: l2) None) as (l & -> & Hl);
    [by rewrite lookup_app_r, Nat.sub_diag by (simpl; lia)|]. simpl.
  rewrite <-Permutation_middle in Hl. apply Permutation_cons_inv in Hl.
  eexists _, _, _, _. split; [done|]. split; [unfold kept; by rewrite Hl|].
  exists sc. split; [done|]. split; [done|]. rewrite Hp. constructor.
  unfold scopes. by rewrite Hl.
Qed.

(** ** A network to run the model on *)

(** Every request is accepted and logged; streams log what is written. *)
Definition demo_net : RpcNet (list (PeerId * bytes)) := {|
  rpc_request peer packet r := (Some (length r), r ++ [(peer, packet)]);
  rpc_respond peer call body r := r ++ [(peer, body)];
|}.
Definition demo_streams : ClientStream (list (list Z)) := {|
  stream_write _ c a s := match to_bytes c a with Some b => (Some tt, s ++ [b]) | None => (None, s) end;
|}.
Definition demo_ed : Ed25519 := λ key, key.

Definition demo_cx (us : Z) (routes : list Z) (s : Storage) :
    Cx (list (PeerId * bytes)) (list (list Z)) nat :=
  {| table := map (λ i, {| id := i; addr := 0%nat |}) routes; rpc := [];
     local_peer_id := be_bytes 32 us; clients := []; storage := s |}.

Lemma other_replicators_fit_witness : let _ := demo_ed in let _ := demo_blake3 in
  let cx := demo_cx 3 [1; 2; 3; 4; 5; 6] storage_default in
  length (cx_other_replicators_for cx (TopicChat [9])) = 4%nat ∧
  local_peer_id cx ∉ cx_other_replicators_for cx (TopicChat [9]).
Proof.
  intros E B cx. destruct (other_replicators_fit cx (TopicChat [9])) as (_ & H2 & H3 & _).
  - intros a b _ _ Hab. exact Hab.
  - split; [repeat (constructor; [|repeat constructor]); constructor|decided].
  - reflexivity.
  - split; [exact (eq_add_S _ 4 H3)|exact H2].
Defined.

(** A handler that waits for a number of events. *)
Definition demo_handler : Handler (R := list (PeerId * bytes)) (S := list (list Z)) (Addr := nat)
    nat unit unit unit nat := {|
  execute sc n cx := Done (Wait n, cx);
  resume n sc ev cx := match n with O => Done (Respond (Ok tt), cx) | Datatypes.S n => Done (Wait n, cx) end;
|}.

Lemma nest_completes_one_witness : let _ := demo_handler in
  let sc (i : nat) := {| origin := Client 5; call_id := i; prefix := 1 |} in
  let slot n i := Some {| scope := sc i; handler := n |} in
  let cx := demo_cx 3 [] storage_default in
  nest_try_complete unit_codec unit_codec [slot 2 7; slot 0 8; slot 1 9]%nat tt [] cx =
    Done (Some (Client 5, 8%nat), [1], [slot 1 7; slot 1 9]%nat, cx) ∧
  ∃ (nest' : list (option (HandlerInstance nat))) done, kept nest' ∧ call_id done = 8%nat ∧
    scopes [slot 2 7; slot 0 8; slot 1 9]%nat ≡ₚ done :: scopes nest'.
Proof.
  intros D sc slot cx. split; [reflexivity|].
  destruct (nest_completes_one unit_codec unit_codec [slot 2 7; slot 0 8; slot 1 9]%nat tt [] cx)
    as (res & bp' & nest' & cx' & Heq & Hk & Hres).
  - intros [|n] sc' [] cx'; simpl; discriminate.
  - repeat (constructor; [by eexists|]). constructor.
  - vm_compute in Heq. injection Heq as <- <- <- <-. destruct Hres as (sc1 & _ & Hc & Hp).
    eexists _, sc1. split; [exact Hk|]. split; [exact Hc|exact Hp].
Defined.
