(* ===== verification/ChatHandlers.v ===== *)
(** The chat requests of [nodes/server/src/handlers/chat.rs]: finding the chat, checking the
    sender, and telling the clients and the other replicators. *)

From S2P Require Import Prelude Codec Messages Streams Collections Dht ChatSpec Chat Server.

(** [compose_protocols!] numbers the protocols in the order they are listed. *)
Inductive Protocol :=
  | PSubscribe | PCreateChat | PPerformChatAction | PFetchMessages | PProposeMsgBlock | PSendBlock
  | PFetchLatestBlock | PCreateProfile | PSetVault | PFetchVault | PReadMail | PSendMail
  | PFetchProfile | PFetchFullProfile.

Definition PREFIX (p : Protocol) : u8 :=
  match p with
  | PSubscribe => 0 | PCreateChat => 1 | PPerformChatAction => 2 | PFetchMessages => 3
  | PProposeMsgBlock => 4 | PSendBlock => 5 | PFetchLatestBlock => 6 | PCreateProfile => 7
  | PSetVault => 8 | PFetchVault => 9 | PReadMail => 10 | PSendMail => 11 | PFetchProfile => 12
  | PFetchFullProfile => 13
  end.

(* Protocol::rpc *)
Definition rpc_codec {A} (c : Codec A) : Codec (u8 * A) := pair_codec u8_codec c.

Definition propose_codec : Codec (ChatName * (BlockNumber * Hash)) :=
  pair_codec chat_name_codec (pair_codec u64_codec hash_codec).
Definition send_block_codec : Codec (ChatName * (BlockNumber * bytes)) :=
  pair_codec chat_name_codec (pair_codec u64_codec reminder_codec).

(* size_of::<(u8, ChatName, crypto::Hash)>(): 4 + 32 + 32 + 1 bytes aligned to 4 *)
Definition PROPOSAL_SIZE : nat := 72.

Section handlers.
Context {R S Addr : Type} `{RpcNet R, ClientStream S, Ed25519, Blake3, Signatures}.
Notation Cx := (Cx R S Addr).
Implicit Types (cx : Cx).

Definition get_chat cx (name : ChatName) : option Chat := chats (storage cx) !! name.
Definition put_chat cx (name : ChatName) (c : Chat) : Cx :=
  with_chats cx (<[name:=c]> (chats (storage cx))).

Definition create_chat (req : ChatName * Identity) cx : result unit CreateChatError * Cx :=
  let (name, identity) := req in
  match get_chat cx name with
  | Some _ => (Err ChatAlreadyExists, cx)
  | None => (Ok tt, put_chat cx name (chat_new identity false))
  end.

(* a fixed buffer that is sent whole; too small a buffer is a panic *)
Definition send_block_proposals (name : ChatName) (number : BlockNumber) (h : Hash) cx : outcome Cx :=
  let msg := {| filled := []; room := replicate PROPOSAL_SIZE 0 |} in
  match encode (rpc_codec propose_codec) (PREFIX PProposeMsgBlock, (name, (number, h))) msg with
  | (None, _) => Panic
  | (Some _, msg) =>
      let peers := cx_other_replicators_for cx (TopicChat name) in
      Done (with_rpc cx (snd (request_all peers (filled msg ++ room msg) (rpc cx))))
  end.

Definition perform_chat_action (req : Proof ChatName * ChatAction) cx :
    outcome (result unit ChatActionError * Cx) :=
  let (proof, action) := req in
  if negb (verify proof) then Done (Err ActInvalidProof, cx)
  else
    match get_chat cx (context proof) with
    | None => Done (Err ActChatNotFound, cx)
    | Some chat =>
        let sender_id := from_raw (pk proof) in
        match members chat !! sender_id with
        | None => Done (Err NotMember, cx)
        | Some sender =>
            let (valid, current) := advance_nonce (Chat.action sender) (nonce proof) in
            if negb valid then Done (Err (ActInvalidAction current), cx)
            else
              let chat := with_members chat (<[sender_id:={| Chat.action := current |}]> (members chat)) in
              let cx := put_chat cx (context proof) chat in
              match action with
              | AddUser id =>
                  match members chat !! id with
                  | Some _ => Done (Err AlreadyMember, cx)
                  | None =>
                      let chat := with_members chat (<[id:=member_new]> (members chat)) in
                      Done (Ok tt, put_chat cx (context proof) chat)
                  end
              | SendMessage msg =>
                  if decide (MAX_MESSAGE_SIZE < length msg)%nat then Done (Err MessageTooLarge, cx)
                  else
                    let bn := block_number chat in
                    let message := MkMessage sender_id (wrap 64 (current - 1)) msg in
                    try! (res, chat) := push_message message_codec message chat in
                    let cx := put_chat cx (context proof) chat in
                    match res with
                    | Err None => Done (Err MessageBlockNotFinalized, cx)
                    | Err (Some h) =>
                        try! cx := send_block_proposals (context proof) bn h cx in
                        Done (Ok tt, push_chat_event (context proof) (EvMessage proof msg) cx)
                    | Ok _ => Done (Ok tt, push_chat_event (context proof) (EvMessage proof msg) cx)
                    end
              end
        end
    end.

(* the position of the sender among the other replicators *)
Definition replicator_index (o : RequestOrigin) (chat : ChatName) cx : option nat :=
  position (λ id, bool_decide (Server id = o)) (cx_other_replicators_for cx (TopicChat chat)).

Definition propose_msg_block (o : RequestOrigin) (req : ChatName * (BlockNumber * Hash)) cx :
    outcome (result unit ProposeMsgBlockError * Cx) :=
  let '(name, (number, phash)) := req in
  match o with
  | Client _ => Done (Err NotServer, cx)
  | Server peer =>
      match replicator_index o name cx with
      | None => Done (Err PropNoReplicator, cx)
      | Some index =>
          match get_chat cx name with
          | None => Done (Err PropChatNotFound, cx)
          | Some chat =>
              try! (res, chat) := propose_block number phash index chat in
              let cx := put_chat cx name chat in
              match res with
              | Err e => Done (Err e, cx)
              | Ok None => Done (Ok tt, cx)
              | Ok (Some data) =>
                  try! packet := unwrap (to_bytes (rpc_codec send_block_codec)
                                           (PREFIX PSendBlock, (name, (number, data)))) in
                  Done (Ok tt, with_rpc cx (snd (rpc_request peer packet (rpc cx))))
              end
          end
      end
  end.

Definition send_block_handler (o : RequestOrigin) (req : ChatName * (BlockNumber * bytes)) cx :
    outcome (result unit SendBlockError * Cx) :=
  let '(name, (number, block)) := req in
  match replicator_index o name cx with
  | None => Done (Err SbNoReplicator, cx)
  | Some index =>
      match get_chat cx name with
      | None => Done (Err SbChatNotFound, cx)
      | Some chat =>
          try! (res, chat) := send_block number block index chat in
          Done (res, put_chat cx name chat)
      end
  end.

Definition fetch_latest_block (name : ChatName) cx :
    result (BlockNumber * bytes) FetchLatestBlockError :=
  match get_chat cx name with
  | None => Err FlbChatNotFound
  | Some chat => Ok (latest_block chat)
  end.

Definition fetch_messages_handler (req : ChatName * Cursor) cx :
    result (Cursor * bytes) FetchMessagesError :=
  let (name, cursor) := req in
  match get_chat cx name with
  | None => Err FmChatNotFound
  | Some chat => Ok (fetch_messages cursor chat)
  end.
End handlers.

(** ** Sizes *)

Lemma b128_S fuel v :
  b128 (Datatypes.S fuel) v =
    if decide (v / 128 = 0) then [v mod 128] else Z.lor (v mod 128) 128 :: b128 fuel (v / 128).
Proof. done. Qed.

Lemma b128_length_bound k fuel v :
  0 ≤ v < 2 ^ (7 * Z.of_nat (Datatypes.S k)) → (length (b128 fuel v) ≤ Datatypes.S k)%nat.
Proof.
  revert fuel v. induction k as [|k IH]; intros [|fuel] v Hv; [unfold b128; simpl; lia| |unfold b128; simpl; lia|].
  - rewrite b128_S, decide_True; [simpl; lia|]. apply Z.div_small. exact Hv.
  - rewrite b128_S. case_decide as Hz; [simpl; lia|]. cbn [length].
    destruct (b128_step (Datatypes.S k) v Hv Hz) as [_ Hd].
    specialize (IH fuel (v / 128) Hd). lia.
Qed.

Lemma wire_name_length name :
  valid chat_name_codec name → (length (wire chat_name_codec name) ≤ 33)%nat.
Proof.
  intros [_ Hl]. change (wire chat_name_codec name) with (b128 10 (wrap 64 (Z.of_nat (length name))) ++ name).
  rewrite length_app. unfold CHAT_NAME_CAP in Hl.
  rewrite wrap_small by (unfold fits; lia).
  pose proof (b128_length_bound 0 10 (Z.of_nat (length name)) ltac:(lia)). lia.
Qed.

Lemma wire_bytes n l : wire (array_codec n u8_codec) l = l.
Proof.
  change (concat (map (λ x : Z, [x]) l) = l). induction l as [|x l IH]; [done|].
  simpl. by f_equal.
Qed.

Section proofs.
Context {R S Addr : Type} `{RpcNet R, ClientStream S, Ed25519, Blake3, Signatures}.
Implicit Types (cx : Cx R S Addr) (name : ChatName).

(** The proposal fits its buffer as long as the block number takes six base-128 digits. *)
Lemma send_block_proposals_done name number h cx :
  valid chat_name_codec name → 0 ≤ number < 2 ^ 42 → valid hash_codec h →
  ∃ r, send_block_proposals name number h cx = Done (with_rpc cx r).
Proof.
  intros Hn Hb Hh. unfold send_block_proposals.
  assert (tvalid (rpc_codec propose_codec) (PREFIX PProposeMsgBlock, (name, (number, h)))) as Hv.
  { split; [decided|]. split; [done|]. split; [|done]. split; unfold fits; simpl; lia. }
  pose proof (slice_run _ _ _ (encode_slice (rpc_codec propose_codec) _
    {| filled := []; room := replicate PROPOSAL_SIZE 0 |} Hv)) as Hr.
  rewrite decide_True in Hr; [rewrite Hr; by eexists|].
  change (length ([PREFIX PProposeMsgBlock] ++ wire chat_name_codec name ++
    b128 10 (wrap 64 number) ++ wire hash_codec h) ≤ PROPOSAL_SIZE)%nat.
  rewrite wrap_small by (unfold fits; lia).
  rewrite !length_app. pose proof (wire_name_length name Hn).
  pose proof (b128_length_bound 5 10 number ltac:(lia)).
  unfold hash_codec. rewrite wire_bytes.
  destruct Hh as [Hl _]. unfold HASH_SIZE in Hl. unfold PROPOSAL_SIZE. simpl length at 1. lia.
Qed.

Lemma hash_block_valid block h t : hash_block block = Done (h, t) → valid hash_codec h.
Proof.
  unfold hash_block. pose proof (sort_hashes_perm (map from_slice (unpack_messages block))) as Hp.
  destruct (sort_hashes _) as [|h0 t0]; [done|]. intros [= <- _].
  assert (∀ x, valid hash_codec (blake3 x)) as Hb by (split; [apply blake3_length|apply blake3_bytes]).
  assert (valid hash_codec h0) as Hv.
  { assert (h0 ∈ map from_slice (unpack_messages block)) as (x & -> & _)%list_elem_of_fmap
      by (rewrite <-Hp; constructor). apply Hb. }
  clear Hp. revert h0 Hv. induction t0 as [|h1 t0 IH]; intros h0 Hv; [done|]. apply IH, Hb.
Qed.

(** ** The chats of a node *)

(** A stored chat: well formed, with the capacity it was created with. *)
Definition stored_ok (c : Chat) : Prop := chat_ok c ∧ block_cap c = BLOCK_SIZE.
Definition server_ok cx : Prop := map_Forall (λ _ c, stored_ok c) (chats (storage cx)).

Lemma put_chat_ok cx name c : server_ok cx → stored_ok c → server_ok (put_chat cx name c).
Proof. intros Hs Hc. by apply map_Forall_insert_2. Qed.

Lemma get_put_chat cx name c : get_chat (put_chat cx name c) name = Some c.
Proof. apply lookup_insert_eq. Qed.

Lemma get_put_chat_ne cx name name' c :
  name' ≠ name → get_chat (put_chat cx name c) name' = get_chat cx name'.
Proof. intros. by apply lookup_insert_ne. Qed.

Lemma put_put_chat cx name c c' : put_chat (put_chat cx name c) name c' = put_chat cx name c'.
Proof. unfold put_chat, with_chats, with_storage. simpl. by rewrite insert_insert_eq. Qed.

Lemma with_members_ok c m : stored_ok c → stored_ok (with_members c m).
Proof. done. Qed.

Lemma push_message_frame {A} (codec : Codec A) msg c r c' :
  push_message codec msg c = Done (r, c') → block_cap c' = block_cap c ∧ members c' = members c.
Proof.
  unfold push_message. repeat (case_match; cbn zeta); intros; simplify_eq; try done.
  all: destruct (hash_block _) as [[h t]|]; [|done]; cbn [obind] in *.
  all: repeat (case_match; cbn in * ); simplify_eq; done.
Qed.

(** A message of a member fits any block. *)
Lemma member_message_pushable (pk_ : bytes) (n : Nonce) (content : bytes) c :
  fits 64 n → Forall (fits 8) content → (length content ≤ MAX_MESSAGE_SIZE)%nat →
  block_cap c = BLOCK_SIZE →
  pushable message_codec (MkMessage (from_raw pk_) n content) c.
Proof.
  intros Hn Hb Hl Hc.
  set (w := twire message_codec (MkMessage (from_raw pk_) n content)).
  assert (w = wire hash_codec (from_raw pk_) ++ b128 10 (wrap 64 n) ++ content) as Hw by done.
  assert (length w = (32 + length (b128 10 (wrap 64 n)) + length content)%nat) as Hlw.
  { rewrite Hw, !length_app. unfold hash_codec. rewrite wire_bytes.
    unfold from_raw. rewrite blake3_length. lia. }
  pose proof (b128_length 10 (wrap 64 n)) as H10. unfold MAX_MESSAGE_SIZE in Hl.
  assert (valid hash_codec (from_raw pk_)) as Hh.
  { split; [apply blake3_length|apply blake3_bytes]. }
  split; [split; [done|split; [done|done]]|]. split; [apply grows_message|].
  split; [split; [fold w; lia|]|fold w; rewrite Hc; unfold BLOCK_SIZE; lia].
  fold w. rewrite Hw. apply Forall_app. split; [|apply Forall_app; split; [|done]].
  - unfold hash_codec. rewrite wire_bytes. apply blake3_bytes.
  - apply b128_bytes. rewrite wrap_small by done. apply Hn.
Qed.

Lemma push_message_head msg c r c' :
  pushable message_codec msg c → chat_ok c → push_message message_codec msg c = Done (r, c') →
  match r with
  | Err None => c' = c
  | _ => head (unpack_messages (current_block c')) = Some (twire message_codec msg)
  end.
Proof.
  intros Hp Hc He. destruct (push_message_spec message_codec msg c Hp Hc) as (r' & c1 & He' & _ & Hr).
  rewrite He in He'. injection He' as <- <-. destruct Hp as (_ & _ & [Hl _] & _).
  destruct r as [[]|[h|]].
  - subst c'. change (current_block (with_current c ?b)) with b. by rewrite unpack_messages_frame.
  - destruct Hr as [_ [-> _]]. rewrite <-(app_nil_l (frame _)). by rewrite unpack_messages_frame.
  - done.
Qed.

(** The sender of an action is a member who has not used the nonce. *)
Definition accepted cx (proof : Proof ChatName) (chat : Chat) (m : Member) : Prop :=
  verify proof = true ∧ get_chat cx (context proof) = Some chat ∧
  members chat !! from_raw (pk proof) = Some m ∧ Chat.action m < nonce proof.

Definition spend (chat : Chat) (proof : Proof ChatName) : Chat :=
  with_members chat (<[from_raw (pk proof):={| Chat.action := nonce proof |}]> (members chat)).

(** What an accepted action does. *)
Lemma accepted_action cx proof a chat m :
  accepted cx proof chat m → fits 64 (nonce proof) → 0 ≤ Chat.action m →
  perform_chat_action (proof, a) cx =
    let name := context proof in
    let chat := spend chat proof in
    let cx := put_chat cx name chat in
    match a with
    | AddUser id =>
        match members chat !! id with
        | Some _ => Done (Err AlreadyMember, cx)
        | None => Done (Ok tt, put_chat cx name (with_members chat (<[id:=member_new]> (members chat))))
        end
    | SendMessage msg =>
        if decide (MAX_MESSAGE_SIZE < length msg)%nat then Done (Err MessageTooLarge, cx)
        else
          let message := MkMessage (from_raw (pk proof)) (nonce proof - 1) msg in
          try! (res, chat') := push_message message_codec message chat in
          let cx := put_chat cx name chat' in
          match res with
          | Err None => Done (Err MessageBlockNotFinalized, cx)
          | Err (Some h) =>
              try! cx := send_block_proposals name (block_number chat) h cx in
              Done (Ok tt, push_chat_event name (EvMessage proof msg) cx)
          | Ok _ => Done (Ok tt, push_chat_event name (EvMessage proof msg) cx)
          end
    end.
Proof.
  intros (Hv & Hg & Hm & Hn) Hf Ha. unfold perform_chat_action. rewrite Hv, Hg, Hm. cbn [negb].
  unfold advance_nonce. rewrite bool_decide_true by lia. cbn [negb fst snd].
  by rewrite (wrap_small 64 (nonce proof - 1)) by (unfold fits in *; lia).
Qed.

Lemma refused_action cx proof a :
  (∀ chat m, ¬ accepted cx proof chat m) →
  ∃ e, perform_chat_action (proof, a) cx = Done (Err e, cx) ∧
    match e with
    | ActInvalidProof => verify proof = false
    | ActChatNotFound => get_chat cx (context proof) = None
    | NotMember => ∃ chat, get_chat cx (context proof) = Some chat ∧
                           members chat !! from_raw (pk proof) = None
    | ActInvalidAction n => ∃ chat, get_chat cx (context proof) = Some chat ∧
        members chat !! from_raw (pk proof) = Some {| Chat.action := n |} ∧ nonce proof ≤ n
    | _ => False
    end.
Proof.
  intros Hna. unfold perform_chat_action.
  destruct (verify proof) eqn:Hv; [|by eexists]. cbn [negb].
  destruct (get_chat cx (context proof)) as [chat|] eqn:Hg; [|by eexists].
  destruct (members chat !! from_raw (pk proof)) as [m|] eqn:Hm;
    [|eexists; split; [done|]; by exists chat].
  destruct (decide (Chat.action m < nonce proof)) as [Hlt|Hge]; [exfalso; by apply (Hna chat m)|].
  unfold advance_nonce. rewrite bool_decide_false by lia. cbn [negb].
  eexists. split; [done|]. exists chat. destruct m as [n]. simpl in *.
  split; [done|]. split; [done|lia].
Qed.

Lemma accepted_dec cx proof :
  (∃ chat m, accepted cx proof chat m) ∨ (∀ chat m, ¬ accepted cx proof chat m).
Proof.
  unfold accepted. destruct (verify proof); [|right; by intros ?? [? _]].
  destruct (get_chat cx (context proof)) as [chat|]; [|right; by intros ?? (_ & ? & _)].
  destruct (members chat !! from_raw (pk proof)) as [m|] eqn:Hm;
    [|right; intros ?? (_ & ? & ? & _); by simplify_eq].
  destruct (decide (Chat.action m < nonce proof)); [left; by exists chat, m|].
  right. intros ?? (_ & ? & ? & ?). by simplify_eq.
Qed.
End proofs.

(** ** Properties *)

Section properties.
Context {R S Addr : Type} `{RpcNet R, ClientStream S, Ed25519, Blake3, Signatures}.
Implicit Types (cx : Cx R S Addr).

(** Nonces of members are machine integers. *)
Definition nonces_ok cx : Prop :=
  map_Forall (λ _ c, map_Forall (λ _ m, 0 ≤ Chat.action m) (members c)) (chats (storage cx)).

Lemma storage_push_event name ev cx : storage (push_chat_event name ev cx) = storage cx.
Proof. done. Qed.

(** An accepted message ends in the chat, or the block it needs is not finalized yet. *)
Lemma accepted_message cx proof msg chat m :
  accepted cx proof chat m → server_ok cx → 0 ≤ Chat.action m → fits 64 (nonce proof) →
  valid chat_name_codec (context proof) → Forall (fits 8) msg → 0 ≤ block_number chat < 2 ^ 42 →
  (length msg ≤ MAX_MESSAGE_SIZE)%nat →
  ∃ r cx' chat', perform_chat_action (proof, SendMessage msg) cx = Done (r, cx') ∧
    storage cx' = storage (put_chat cx (context proof) chat') ∧ stored_ok chat' ∧
    members chat' = members (spend chat proof) ∧
    match r with
    | Ok _ => head (unpack_messages (current_block chat')) =
        Some (twire message_codec (MkMessage (from_raw (pk proof)) (nonce proof - 1) msg))
    | Err e => e = MessageBlockNotFinalized ∧ chat' = spend chat proof
    end.
Proof.
  intros Ha Hs Hm Hf Hname Hmsg Hb Hl. rewrite (accepted_action _ _ _ _ _ Ha Hf Hm). cbn zeta.
  rewrite decide_False by lia. set (message := MkMessage _ _ msg).
  destruct Ha as (_ & Hg & _ & Hlt).
  assert (stored_ok (spend chat proof)) as [Hok Hcap].
  { apply with_members_ok. by apply (Hs (context proof)). }
  assert (pushable message_codec message (spend chat proof)) as Hp.
  { apply member_message_pushable; [unfold fits in *; lia|done..]. }
  destruct (push_message_spec message_codec message _ Hp Hok) as (r & chat' & He & Hok' & Hr).
  pose proof (push_message_head message _ _ _ Hp Hok He) as Hh.
  destruct (push_message_frame _ _ _ _ _ He) as [Hcap' Hmem].
  assert (stored_ok chat') as Hst by (split; [done|by rewrite Hcap']).
  rewrite He. cbn [obind]. rewrite put_put_chat. destruct r as [[]|[h|]].
  - by eexists (Ok tt), _, chat'.
  - destruct Hr as [[t Ht] _].
    destruct (send_block_proposals_done (context proof) (block_number (spend chat proof)) h
                (put_chat cx (context proof) chat')) as [net ->]; [done|done|by eapply hash_block_valid|].
    by eexists (Ok tt), _, chat'.
  - subst chat'. eexists (Err MessageBlockNotFinalized), _, (spend chat proof). done.
Qed.

Definition numbers_ok cx : Prop :=
  map_Forall (λ _ c, 0 ≤ block_number c < 2 ^ 42) (chats (storage cx)).

(** What an accepted action leaves of the addressed chat. *)
Definition acted cx proof a (r : result unit ChatActionError) cx' : Prop :=
  ∃ chat m chat', accepted cx proof chat m ∧ get_chat cx' (context proof) = Some chat' ∧
    members chat' !! from_raw (pk proof) = Some {| Chat.action := nonce proof |} ∧
    match r, a with
    | Ok _, AddUser id => members chat !! id = None ∧ members chat' !! id = Some member_new
    | Ok _, SendMessage msg => head (unpack_messages (current_block chat')) =
        Some (twire message_codec (MkMessage (from_raw (pk proof)) (nonce proof - 1) msg))
    | Err e, AddUser id => e = AlreadyMember ∧ is_Some (members chat !! id)
    | Err e, SendMessage msg =>
        e = if decide (MAX_MESSAGE_SIZE < length msg)%nat then MessageTooLarge
            else MessageBlockNotFinalized
    end.

Lemma acted_storage cx proof cx' chat m chat' :
  server_ok cx → nonces_ok cx → accepted cx proof chat m →
  storage cx' = storage (put_chat cx (context proof) chat') → stored_ok chat' →
  map_Forall (λ _ m, 0 ≤ Chat.action m) (members chat') →
  server_ok cx' ∧ nonces_ok cx' ∧
  (∀ other, other ≠ context proof → get_chat cx' other = get_chat cx other).
Proof.
  intros Hs Hn Ha He Hst Hm. unfold server_ok, nonces_ok, get_chat. rewrite He.
  split; [by apply map_Forall_insert_2|]. split; [by apply map_Forall_insert_2|].
  intros other Hne. by apply lookup_insert_ne.
Qed.

Lemma spend_nonces cx proof chat m :
  nonces_ok cx → accepted cx proof chat m →
  0 ≤ Chat.action m ∧ map_Forall (λ _ m, 0 ≤ Chat.action m) (members (spend chat proof)).
Proof.
  intros Hn (_ & Hg & Hm & Hlt). specialize (Hn _ _ Hg). pose proof (Hn _ _ Hm) as Ha. cbn in Ha.
  split; [done|]. apply map_Forall_insert_2; [simpl; lia|done].
Qed.

Lemma accepted_add cx proof id chat m :
  accepted cx proof chat m → 0 ≤ Chat.action m → fits 64 (nonce proof) →
  ∃ r chat', perform_chat_action (proof, AddUser id) cx =
      Done (r, put_chat cx (context proof) (with_members (spend chat proof) chat')) ∧
    match r with
    | Ok _ => members chat !! id = None ∧ chat' = <[id:=member_new]> (members (spend chat proof))
    | Err e => e = AlreadyMember ∧ is_Some (members chat !! id) ∧ chat' = members (spend chat proof)
    end.
Proof.
  intros Ha Hm Hf. rewrite (accepted_action _ _ _ _ _ Ha Hf Hm). cbn zeta.
  destruct Ha as (_ & _ & Hmem & _).
  destruct (members (spend chat proof) !! id) as [m'|] eqn:Hid; unfold spend in Hid; simpl in Hid.
  - eexists (Err AlreadyMember), _. split; [done|]. split; [done|]. split; [|done].
    destruct (decide (from_raw (pk proof) = id)) as [<-|Hne]; [by rewrite Hmem|].
    rewrite lookup_insert_ne in Hid by done. by rewrite Hid.
  - rewrite put_put_chat. eexists (Ok tt), _. split; [done|]. split; [|done].
    destruct (decide (from_raw (pk proof) = id)) as [<-|Hne]; [by rewrite lookup_insert_eq in Hid|].
    by rewrite lookup_insert_ne in Hid.
Qed.

(** An accepted action replaces the addressed chat and nothing else of the storage. *)
Lemma accepted_acts cx proof a chat m :
  accepted cx proof chat m → server_ok cx → nonces_ok cx → numbers_ok cx → fits 64 (nonce proof) →
  valid chat_name_codec (context proof) →
  match a with SendMessage msg => Forall (fits 8) msg | AddUser _ => True end →
  ∃ r cx' chat', perform_chat_action (proof, a) cx = Done (r, cx') ∧
    storage cx' = storage (put_chat cx (context proof) chat') ∧ stored_ok chat' ∧
    map_Forall (λ _ m, 0 ≤ Chat.action m) (members chat') ∧ acted cx proof a r cx'.
Proof.
  intros Ha Hs Hn Hb Hf Hname Hmsg.
  destruct (spend_nonces cx proof chat m Hn Ha) as [Hm Hms].
  pose proof Ha as (_ & Hg & Hmem & _). pose proof (Hs _ _ Hg) as Hsp.
  assert (members (spend chat proof) !! from_raw (pk proof) = Some {| Chat.action := nonce proof |}) as Hself
    by apply lookup_insert_eq.
  destruct a as [id|msg]; [|destruct (decide (MAX_MESSAGE_SIZE < length msg)%nat) as [Hl|Hl]].
  - destruct (accepted_add cx proof id chat m Ha Hm Hf) as (r & mem & -> & Hr).
    eexists r, _, _. split; [done|]. split; [done|]. split; [done|]. split.
    + destruct r; [|by destruct Hr as (_ & _ & ->)]. destruct Hr as [_ ->].
      by apply map_Forall_insert_2.
    + exists chat, m. eexists. split; [done|]. split; [apply get_put_chat|]. simpl.
      destruct r as [u|e]; [destruct Hr as [Hid ->]|destruct Hr as (-> & Hid & ->); done].
      rewrite lookup_insert_ne by (intros ->; congruence). split; [done|]. split; [done|].
      apply lookup_insert_eq.
  - rewrite (accepted_action _ _ _ _ _ Ha Hf Hm). cbn zeta. rewrite decide_True by done.
    eexists (Err MessageTooLarge), _, (spend chat proof). split; [done|]. split; [done|].
    split; [done|]. split; [done|]. exists chat, m. eexists. split; [done|]. split; [apply get_put_chat|].
    split; [done|]. by rewrite decide_True.
  - destruct (accepted_message cx proof msg chat m) as (r & cx' & chat' & He & Hst & Hok & Hmm & Hr);
      try done; [by apply (Hb (context proof))|lia|].
    exists r, cx', chat'. split; [done|]. split; [done|]. split; [done|]. split; [by rewrite Hmm|].
    exists chat, m, chat'. split; [done|]. split; [unfold get_chat; rewrite Hst; apply get_put_chat|].
    split; [by rewrite Hmm|]. destruct r; [done|]. rewrite decide_False by done. apply Hr.
Qed.
End properties.

(** C3: An action of a client never panics and keeps the chats of the node well formed (block
    numbers below [2^42]). It succeeds only for a member whose signed nonce is newer than the
    last one; then the nonce is spent, an added user was not a member and is one now, and a
    message is the newest of the current block under the sender's identity. Chats other than
    the addressed one do not change, and nothing changes for an action that was not accepted. *)
Theorem perform_chat_action_correct {R S Addr} `{RpcNet R, ClientStream S, Ed25519, Blake3, Signatures}
    (cx : Cx R S Addr) (proof : Proof ChatName) (a : ChatAction) :
  server_ok cx → nonces_ok cx → numbers_ok cx → fits 64 (nonce proof) →
  valid chat_name_codec (context proof) →
  match a with SendMessage msg => Forall (fits 8) msg | AddUser _ => True end →
  ∃ r cx', perform_chat_action (proof, a) cx = Done (r, cx') ∧ server_ok cx' ∧ nonces_ok cx' ∧
    (∀ other, other ≠ context proof → get_chat cx' other = get_chat cx other) ∧
    (acted cx proof a r cx' ∨ (∀ chat m, ¬ accepted cx proof chat m) ∧ cx' = cx ∧ ∃ e, r = Err e).
Proof.
  intros Hs Hn Hb Hf Hname Ha.
  destruct (accepted_dec cx proof) as [(chat & m & Hacc)|Hna].
  2:{ destruct (refused_action cx proof a Hna) as (e & -> & _). exists (Err e), cx.
      split; [done|]. split; [done|]. split; [done|]. split; [done|]. right.
      split; [done|]. split; [done|]. by exists e. }
  destruct (accepted_acts cx proof a chat m) as (r & cx' & chat' & He & Hst & Hok & Hm & Hact); try done.
  destruct (acted_storage cx proof cx' chat m chat') as (H5 & H6 & H7); try done.
  exists r, cx'. split; [done|]. split; [done|]. split; [done|]. split; [done|]. by left.
Qed.

(** A spent nonce stays spent: after an accepted action, whatever it answered, every signed
    action of the same key on the same chat with that nonce or an older one is refused as
    invalid and changes nothing. *)
Theorem perform_chat_action_no_replay {R S Addr} `{RpcNet R, ClientStream S, Ed25519, Blake3, Signatures}
    (cx cx' : Cx R S Addr) (proof replay : Proof ChatName) (a a' : ChatAction) r chat m :
  server_ok cx → nonces_ok cx → numbers_ok cx → fits 64 (nonce proof) →
  valid chat_name_codec (context proof) →
  match a with SendMessage msg => Forall (fits 8) msg | AddUser _ => True end →
  accepted cx proof chat m → perform_chat_action (proof, a) cx = Done (r, cx') →
  verify replay = true → pk replay = pk proof → context replay = context proof →
  nonce replay ≤ nonce proof →
  perform_chat_action (replay, a') cx' = Done (Err (ActInvalidAction (nonce proof)), cx').
Proof.
  intros Hs Hn Hb Hf Hname Ha Hacc He Hv Hpk Hctx Hle.
  destruct (accepted_acts cx proof a chat m) as (r1 & cx1 & chat' & He' & _ & _ & _ & Hact); try done.
  rewrite He in He'. injection He' as <- <-.
  destruct Hact as (_ & _ & chat1 & _ & Hg & Hm & _).
  unfold perform_chat_action. rewrite Hv, Hctx, Hg, Hpk, Hm. cbn [negb].
  unfold advance_nonce. by rewrite bool_decide_false by (simpl; lia).
Qed.

(** Another replicator of a chat can stop the node with one request: a proposal whose number
    is two or more away from the last finalized block reaches a [todo!], and a sent block
    without messages panics while it is hashed whenever the node waits for a block. *)
Theorem replicator_can_crash {R S Addr} `{RpcNet R, ClientStream S, Ed25519, Blake3, Signatures}
    (cx : Cx R S Addr) (peer : PeerId) (name : ChatName) (chat : Chat) (index : nat) :
  replicator_index (Server peer) name cx = Some index → get_chat cx name = Some chat →
  (∀ number phash, 1 < Z.abs (number - last_finalized_block chat) →
     propose_msg_block (Server peer) (name, (number, phash)) cx = Panic) ∧
  (match stage chat with Unfinalized None _ => False | _ => True end →
     send_block_handler (Server peer) (name, (last_finalized_block chat, [])) cx = Panic).
Proof.
  intros Hi Hg. split.
  - intros number phash Hd. unfold propose_msg_block. rewrite Hi, Hg. unfold propose_block.
    cbv zeta. destruct (decide (number < last_finalized_block chat)).
    + by rewrite decide_False by lia.
    + by rewrite decide_True by lia.
  - intros Hst. unfold send_block_handler. rewrite Hi, Hg. unfold send_block.
    rewrite decide_True by done. by destruct (stage chat) as [[p|] others|h w].
Qed.

(** ** A node with one chat *)

Section demo.
#[local] Existing Instance demo_net.
#[local] Existing Instance demo_streams.
#[local] Existing Instance demo_ed.
#[local] Existing Instance demo_blake3.
#[local] Existing Instance demo_signatures.

Definition demo_name : ChatName := [104; 105].
Definition demo_proof (n : Nonce) : Proof ChatName := MkProof [1; 2] n [1] demo_name.
(** The chat [hi] of the owner of key [1; 2], on node 3 of six. *)
Definition demo_node (s : BlockStage) : Cx (list (PeerId * bytes)) (list (list Z)) nat :=
  demo_cx 3 [1; 2; 3; 4; 5; 6] {| profiles := ∅; online := ∅;
    chats := {[demo_name := with_stage (chat_new (from_raw [1; 2]) false) s]} |}.

Lemma demo_node_ok : server_ok (demo_node block_stage_default) ∧
  nonces_ok (demo_node block_stage_default) ∧ numbers_ok (demo_node block_stage_default).
Proof.
  split; [|split]; apply map_Forall_singleton.
  - split; [apply (chat_new_ok (from_raw [1; 2]) false)|done].
  - apply map_Forall_singleton. simpl. lia.
  - simpl. lia.
Qed.

Lemma demo_name_valid : valid chat_name_codec demo_name.
Proof. split; [split; [split; decided|reflexivity]|unfold CHAT_NAME_CAP; simpl; lia]. Qed.

Lemma demo_accepted : accepted (demo_node block_stage_default) (demo_proof 7)
  (with_stage (chat_new (from_raw [1; 2]) false) block_stage_default) member_new.
Proof.
  split; [reflexivity|]. split; [apply lookup_singleton_eq|].
  split; [apply lookup_singleton_eq|simpl; lia].
Qed.

Lemma perform_chat_action_correct_witness :
  ∃ r cx', perform_chat_action (demo_proof 7, SendMessage [5]) (demo_node block_stage_default) = Done (r, cx') ∧
    server_ok cx' ∧ acted (demo_node block_stage_default) (demo_proof 7) (SendMessage [5]) r cx'.
Proof.
  destruct demo_node_ok as (H1 & H2 & H3).
  assert (fits 64 (nonce (demo_proof 7))) as Hf by decided.
  assert (Forall (fits 8) [5]) as Hb by decided.
  destruct (perform_chat_action_correct (demo_node block_stage_default) (demo_proof 7) (SendMessage [5])
              H1 H2 H3 Hf demo_name_valid Hb) as (r & cx' & He & Hs & _ & _ & Hr).
  exists r, cx'. split; [exact He|]. split; [exact Hs|].
  destruct Hr as [Hr|[Hr _]]; [exact Hr|]. destruct (Hr _ _ demo_accepted).
Defined.

Lemma perform_chat_action_no_replay_witness :
  ∃ r cx', perform_chat_action (demo_proof 7, AddUser [9]) (demo_node block_stage_default) = Done (r, cx') ∧
    perform_chat_action (demo_proof 6, AddUser [8]) cx' = Done (Err (ActInvalidAction 7), cx').
Proof.
  destruct demo_node_ok as (H1 & H2 & H3).
  eexists _, _. split; [reflexivity|].
  assert (fits 64 (nonce (demo_proof 7))) as Hf by decided.
  assert (nonce (demo_proof 6) ≤ nonce (demo_proof 7)) as Hle by (simpl; lia).
  exact (perform_chat_action_no_replay (demo_node block_stage_default) _ (demo_proof 7) (demo_proof 6)
    (AddUser [9]) (AddUser [8]) (Ok tt) _ _ H1 H2 H3 Hf demo_name_valid I demo_accepted eq_refl
    eq_refl eq_refl eq_refl Hle).
Defined.

Lemma replicator_can_crash_witness :
  let cx := demo_node (Recovering [9] true) in
  propose_msg_block (Server (be_bytes 32 2)) (demo_name, (7, [9])) cx = Panic ∧
  send_block_handler (Server (be_bytes 32 2)) (demo_name, (2 ^ 64 - 1, [])) cx = Panic.
Proof.
  intros cx.
  destruct (replicator_can_crash cx (be_bytes 32 2) demo_name
    (with_stage (chat_new (from_raw [1; 2]) false) (Recovering [9] true)) 3) as [H1 H2].
  - reflexivity.
  - apply lookup_singleton_eq.
  - split; [apply H1; reflexivity|apply H2; exact I].
Defined.
End demo.
