(* ===== verification/Profiles.v ===== *)
(** The profile requests of [nodes/server/src/handlers/profile.rs]: accounts with a signed vault,
    and the mailbox with its delivery to clients that are online here or on another node. *)

From S2P Require Import Prelude Codec Messages Streams Collections Dht ChatSpec Chat Server ChatHandlers.

Definition MAIL_BOX_CAP : nat := 1024 * 1024.
#[global] Arguments MAIL_BOX_CAP : simpl never.

Record FetchProfileResp := { resp_sign : bytes; resp_enc : bytes }.

Section handlers.
Context {R S Addr : Type} `{RpcNet R, ClientStream S, Ed25519, Blake3, Signatures}.
Notation Cx := (Cx R S Addr).
Implicit Types (cx : Cx).

Definition get_profile cx (i : Identity) : option Profile := profiles (storage cx) !! i.
Definition put_profile cx (i : Identity) (p : Profile) : Cx :=
  with_profiles cx (<[i:=p]> (profiles (storage cx))).

Definition with_vault (p : Profile) (n : Nonce) (sig vault : bytes) : Profile :=
  MkProfile (sign p) (enc p) sig n (mail_action p) vault (mail p).
Definition with_mail_action (p : Profile) (n : Nonce) : Profile :=
  MkProfile (sign p) (enc p) (last_sig p) (vault_version p) n (vault p) (mail p).
Definition with_mail (p : Profile) (m : bytes) : Profile :=
  MkProfile (sign p) (enc p) (last_sig p) (vault_version p) (mail_action p) (vault p) m.

Definition fetch_profile (i : Identity) cx : result FetchProfileResp FetchProfileError :=
  match get_profile cx i with
  | Some p => Ok {| resp_sign := sign p; resp_enc := enc p |}
  | None => Err FpNotFound
  end.

Definition fetch_full_profile (i : Identity) cx : result Profile FetchProfileError :=
  match get_profile cx i with Some p => Ok p | None => Err FpNotFound end.

Definition create_profile (req : Proof bytes * bytes) cx : result unit CreateAccountError * Cx :=
  let (proof, enc) := req in
  if negb (verify proof) then (Err CaInvalidProof, cx)
  else
    let user_id := from_raw (pk proof) in
    match get_profile cx user_id with
    | None =>
        (Ok tt, put_profile cx user_id
                  (MkProfile (pk proof) enc (signature proof) (nonce proof) (nonce proof) (context proof) []))
    | Some account =>
        if decide (vault_version account < nonce proof)
        then (Ok tt, put_profile cx user_id
                       (with_vault account (nonce proof) (signature proof) (context proof)))
        else (Err CaAlreadyExists, cx)
    end.

Definition set_vault (proof : Proof bytes) cx : result unit SetVaultError * Cx :=
  if negb (verify proof) then (Err SvInvalidProof, cx)
  else
    let identity := from_raw (pk proof) in
    match get_profile cx identity with
    | None => (Err SvNotFound, cx)
    | Some profile =>
        let (valid, version) := advance_nonce (vault_version profile) (nonce proof) in
        if negb valid then (Err SvInvalidAction, cx)
        else (Ok tt, put_profile cx identity
                       (with_vault profile version (signature proof) (context proof)))
    end.

Definition fetch_vault (i : Identity) cx : result (Nonce * Nonce * bytes) FetchVaultError :=
  match get_profile cx i with
  | None => Err FvNotFound
  | Some p => Ok (vault_version p, mail_action p, vault p)
  end.

(* the mail, which the node forgets; the owner is online where the request came from *)
Definition read_mail_handler (o : RequestOrigin) (req : Proof Mail) cx : result bytes ReadMailError * Cx :=
  if negb (verify req) then (Err RmInvalidProof, cx)
  else
    let identity := from_raw (pk req) in
    match get_profile cx identity with
    | None => (Err RmNotFound, cx)
    | Some profile =>
        let (valid, action) := advance_nonce (mail_action profile) (nonce req) in
        if negb valid then (Err RmInvalidAction, cx)
        else
          let (m, profile) := read_mail (with_mail_action profile action) in
          let cx := put_profile cx identity profile in
          (Ok m, with_online cx (<[identity:=o]> (online (storage cx))))
    end.

(** ** Sending mail *)

Record SendMail := { dm : CallId; for_who : Identity }.

Definition send_mail_codec : Codec (Identity * bytes) := pair_codec hash_codec reminder_codec.
Definition send_mail_response_codec : Codec (result unit SendMailError) :=
  result_codec unit_codec send_mail_error_codec.

Definition remove_presence (i : Identity) cx : Cx := with_online cx (delete i (online (storage cx))).
Definition clear_presence (h : SendMail) cx : handler_result unit SendMailError SendMail * Cx :=
  (Respond (Ok tt), remove_presence (for_who h) cx).

Definition pop_pushed_mail (h : SendMail) cx : handler_result unit SendMailError SendMail * Cx :=
  (Respond (Err SentDirectly),
   match get_profile cx (for_who h) with
   | Some p => put_profile cx (for_who h) (with_mail p [])
   | None => cx
   end).

Definition send_mail_execute (sc : Scope) (req : Identity * bytes) cx :
    outcome (handler_result unit SendMailError SendMail * Cx) :=
  let (for_who, mail) := req in
  match get_profile cx for_who with
  | None => Done (Respond (Err SmNotFound), cx)
  | Some profile =>
      if decide (MAIL_BOX_CAP ≤ length (ChatSpec.mail profile) + length mail)%nat
      then Done (Respond (Err MailboxFull), cx)
      else
        let push cx := put_profile cx for_who (with_mail profile (push_mail (ChatSpec.mail profile) mail)) in
        match online (storage cx) !! for_who with
        | None => Done (Respond (Ok tt), push cx)
        | Some (Client p) =>
            if decide (Client p = origin sc) then Done (Respond (Err SendingToSelf), cx)
            else
              let (told, streams) := push_notification (clients cx) for_who mail p in
              let cx := with_clients cx streams in
              if told then Done (Respond (Err SentDirectly), cx)
              else Done (Respond (Ok tt), push (remove_presence for_who cx))
        | Some (Server peer) =>
            let cx := push cx in
            match origin sc with
            | Server _ => Done (Respond (Ok tt), remove_presence for_who cx)
            | Client _ =>
                try! packet := unwrap (to_bytes (pair_codec u8_codec send_mail_codec) (prefix sc, req)) in
                let (call, net) := rpc_request peer packet (rpc cx) in
                let cx := with_rpc cx net in
                match call with
                | Some dm => Done (Wait {| dm := dm; for_who := for_who |}, cx)
                | None => Done (Respond (Ok tt), cx)
                end
            end
        end
  end.

Definition send_mail_resume (h : SendMail) (sc : Scope) (ev : RpcEvent) cx :
    outcome (handler_result unit SendMailError SendMail * Cx) :=
  match ev with
  | RpcRequest _ _ _ => Done (Wait h, cx)
  | Response _ call res =>
      if decide (call = dm h) then
        match res with
        | Err _ => Done (clear_presence h cx)
        | Ok response =>
            match fst (decode send_mail_response_codec response) with
            | Some (Err SentDirectly) => Done (pop_pushed_mail h cx)
            | _ => Done (clear_presence h cx)
            end
        end
      else Done (Wait h, cx)
  end.

#[global] Instance send_mail_handler :
    Handler (R := R) (S := S) (Addr := Addr) (Identity * bytes) unit SendMailError RpcEvent SendMail :=
  {| execute := send_mail_execute; resume := send_mail_resume |}.
End handlers.

(** ** Invariants *)

Section invariants.
Context {R S Addr : Type} `{RpcNet R, ClientStream S, Ed25519, Blake3, Signatures}.
Implicit Types (cx : Cx R S Addr) (p : Profile) (i : Identity).

(** A stored profile belongs to its key, its vault is signed by the key, and its mailbox is
    bounded: a mail is accepted below the cap and adds two bytes. *)
Definition profile_ok i p : Prop :=
  from_raw (sign p) = i ∧ is_valid p = true ∧ (length (mail p) ≤ MAIL_BOX_CAP + 1)%nat.
Definition profiles_ok cx : Prop := map_Forall profile_ok (profiles (storage cx)).

(** What may happen to a profile: its keys stay and its nonces do not decrease; a new vault or
    signature comes with a newer version. *)
Definition newer p p' : Prop :=
  sign p' = sign p ∧ enc p' = enc p ∧ vault_version p ≤ vault_version p' ∧
  mail_action p ≤ mail_action p' ∧
  (vault_version p' = vault_version p → vault p' = vault p ∧ last_sig p' = last_sig p).

#[global] Instance newer_preorder : PreOrder newer.
Proof.
  split; [done|]. intros p1 p2 p3 (?&?&?&?&E1) (?&?&?&?&E2).
  split; [congruence|]. split; [congruence|]. split; [lia|]. split; [lia|]. intros Hv.
  destruct E1 as [? ?]; [lia|]. destruct E2 as [? ?]; [lia|]. split; congruence.
Qed.

(** Profiles stay well formed and none is lost or rolled back. *)
Definition evolves cx cx' : Prop :=
  profiles_ok cx → profiles_ok cx' ∧
  ∀ i p, get_profile cx i = Some p → ∃ p', get_profile cx' i = Some p' ∧ newer p p'.

#[global] Instance evolves_preorder : PreOrder evolves.
Proof.
  split; [intros cx Hok; split; [done|]; intros i p Hp; by exists p|].
  intros cx1 cx2 cx3 H12 H23 Hok. destruct (H12 Hok) as [Hok2 He12]. destruct (H23 Hok2) as [Hok3 He23].
  split; [done|]. intros i p Hp. destruct (He12 i p Hp) as (p2 & Hp2 & Hn2).
  destruct (He23 i p2 Hp2) as (p3 & Hp3 & Hn3). exists p3. split; [done|]. by etrans.
Qed.

Lemma same_profiles_evolves cx cx' :
  profiles (storage cx') = profiles (storage cx) → evolves cx cx'.
Proof.
  intros He Hok. unfold profiles_ok, get_profile. rewrite He. split; [done|].
  intros i p Hp. by exists p.
Qed.

Lemma put_profile_evolves cx cx' i p :
  profiles (storage cx') = <[i:=p]> (profiles (storage cx)) →
  (profiles_ok cx → profile_ok i p) → (∀ old, get_profile cx i = Some old → newer old p) →
  evolves cx cx'.
Proof.
  intros He Hp Hn Hok. unfold profiles_ok, get_profile. rewrite He.
  split; [apply map_Forall_insert_2; auto|]. intros j old Hj.
  destruct (decide (i = j)) as [<-|Hne].
  - exists p. rewrite lookup_insert_eq. auto.
  - exists old. by rewrite lookup_insert_ne.
Qed.

(** The key of a request is the stored key of its owner: two keys do not collide under BLAKE3. *)
Definition no_collision {T} cx (proof : Proof T) : Prop :=
  ∀ p, get_profile cx (from_raw (pk proof)) = Some p → sign p = pk proof.

(** A verified proof is what makes a vault valid. *)
Lemma with_vault_ok i p (proof : Proof bytes) :
  verify proof = true → sign p = pk proof → profile_ok i p →
  profile_ok i (with_vault p (nonce proof) (signature proof) (context proof)).
Proof.
  intros Hv Hs (Hi & _ & Hm). split; [done|]. split; [|done].
  unfold is_valid, with_vault. cbn. rewrite Hs. by destruct proof.
Qed.

Lemma with_vault_newer p n sig v : vault_version p < n → newer p (with_vault p n sig v).
Proof.
  intros Hn. split; [done|]. split; [done|]. simpl. split; [lia|]. split; [lia|]. intros. exfalso. lia.
Qed.

Lemma create_profile_evolves proof enc cx :
  no_collision cx proof → evolves cx (snd (create_profile (proof, enc) cx)).
Proof.
  intros Hc. unfold create_profile.
  destruct (verify proof) eqn:Hv; [|by apply same_profiles_evolves]. cbn [negb].
  destruct (get_profile cx (from_raw (pk proof))) as [old|] eqn:Hg.
  - case_decide as Hlt; [|by apply same_profiles_evolves]. eapply put_profile_evolves; [done|..].
    + intros Hok. by apply with_vault_ok; [|apply Hc|apply Hok].
    + intros old' Ho. rewrite Hg in Ho. injection Ho as <-. by apply with_vault_newer.
  - eapply put_profile_evolves; [done|..].
    + intros _. split; [done|]. split; [by destruct proof|apply Nat.le_0_l].
    + intros old Ho. by rewrite Hg in Ho.
Qed.

Lemma set_vault_evolves proof cx : no_collision cx proof → evolves cx (snd (set_vault proof cx)).
Proof.
  intros Hc. unfold set_vault.
  destruct (verify proof) eqn:Hv; [|by apply same_profiles_evolves]. cbn [negb].
  destruct (get_profile cx (from_raw (pk proof))) as [old|] eqn:Hg; [|by apply same_profiles_evolves].
  unfold advance_nonce. case_bool_decide as Hlt; [|by apply same_profiles_evolves].
  eapply put_profile_evolves; [done|..].
  - intros Hok. by apply with_vault_ok; [|apply Hc|apply Hok].
  - intros old' Ho. rewrite Hg in Ho. injection Ho as <-. apply with_vault_newer. lia.
Qed.

Lemma read_mail_evolves o proof cx : evolves cx (snd (read_mail_handler o proof cx)).
Proof.
  unfold read_mail_handler.
  destruct (verify proof); [|by apply same_profiles_evolves]. cbn [negb].
  destruct (get_profile cx (from_raw (pk proof))) as [old|] eqn:Hg; [|by apply same_profiles_evolves].
  unfold advance_nonce. case_bool_decide as Hlt; [|by apply same_profiles_evolves].
  eapply put_profile_evolves; [done|..].
  - intros Hok. destruct (Hok _ _ Hg) as (Hi & Hv & _). split; [done|]. split; [done|apply Nat.le_0_l].
  - intros old' Ho. rewrite Hg in Ho. injection Ho as <-.
    split; [done|]. split; [done|]. simpl. split; [lia|]. split; [lia|done].
Qed.

Lemma with_mail_evolves cx cx' i p m :
  get_profile cx i = Some p → (length m ≤ MAIL_BOX_CAP + 1)%nat →
  profiles (storage cx') = <[i:=with_mail p m]> (profiles (storage cx)) → evolves cx cx'.
Proof.
  intros Hg Hm He. eapply put_profile_evolves; [done|..].
  - intros Hok. by destruct (Hok _ _ Hg) as (Hi & Hv & _).
  - intros old Ho. rewrite Hg in Ho. injection Ho as <-.
    split; [done|]. split; [done|]. simpl. split; [lia|]. split; [lia|done].
Qed.

Lemma push_mail_length m content :
  (length m + length content < MAIL_BOX_CAP)%nat → (length (push_mail m content) ≤ MAIL_BOX_CAP + 1)%nat.
Proof. intros Hl. unfold push_mail. rewrite !length_app, encode_len_length. lia. Qed.

(** The mailbox after [send_mail_execute]. *)
Lemma send_mail_execute_spec sc i m cx r cx' :
  send_mail_execute sc (i, m) cx = Done (r, cx') →
  match r with
  | Respond (Err _) => profiles (storage cx') = profiles (storage cx)
  | _ => ∃ p, get_profile cx i = Some p ∧ (length (mail p) + length m < MAIL_BOX_CAP)%nat ∧
      profiles (storage cx') = <[i:=with_mail p (push_mail (mail p) m)]> (profiles (storage cx))
  end.
Proof.
  unfold send_mail_execute. destruct (get_profile cx i) as [p|] eqn:Hg; [|by intros; simplify_eq].
  case_decide as Hcap; [by intros; simplify_eq|]. cbn zeta. apply Nat.nle_gt in Hcap.
  destruct (online (storage cx) !! i) as [[path|peer]|]; [| |by intros; simplify_eq; exists p].
  - case_decide; [by intros; simplify_eq|].
    destruct (push_notification _ _ _ _) as [[] streams]; intros; simplify_eq; [done|by exists p].
  - destruct (origin sc); [|by intros; simplify_eq; exists p].
    destruct (to_bytes _ _); [|done]. cbn [unwrap obind].
    destruct (rpc_request _ _ _) as [[call|] net]; intros; simplify_eq; by exists p.
Qed.

Lemma send_mail_waits sc i m cx h cx' :
  send_mail_execute sc (i, m) cx = Done (Wait h, cx') →
  for_who h = i ∧ ∃ peer path, online (storage cx) !! i = Some (Server peer) ∧ origin sc = Client path.
Proof.
  unfold send_mail_execute. destruct (get_profile cx i) as [p|]; [|done].
  case_decide; [done|]. cbn zeta.
  destruct (online (storage cx) !! i) as [[path|peer]|]; [| |done].
  - case_decide; [done|]. by destruct (push_notification _ _ _ _) as [[] streams].
  - destruct (origin sc) as [path|]; [|done]. destruct (to_bytes _ _); [|done]. cbn [unwrap obind].
    destruct (rpc_request _ _ _) as [[call|] net]; [|done]. intros [= <- _].
    split; [done|]. by exists peer, path.
Qed.

Lemma unpack_pushed mails :
  Forall (λ m, Z.of_nat (length m) < 65536) mails → unpack_mail (foldl push_mail [] mails) = mails.
Proof. intros Hm. rewrite foldl_push_mail. apply unpack_mail_loop_frames; [done|]. simpl. lia. Qed.

Lemma send_mail_evolves sc i m cx r cx' :
  send_mail_execute sc (i, m) cx = Done (r, cx') → evolves cx cx'.
Proof.
  intros He%send_mail_execute_spec.
  destruct r as [[u|e]|h]; [|by apply same_profiles_evolves|];
    destruct He as (p & Hg & Hl & Hp);
    exact (with_mail_evolves cx cx' i p _ Hg (push_mail_length _ _ Hl) Hp).
Qed.

Lemma send_mail_resume_evolves h sc ev cx r cx' :
  send_mail_resume h sc ev cx = Done (r, cx') → evolves cx cx'.
Proof.
  unfold send_mail_resume. destruct ev as [peer call res|]; [|by intros; simplify_eq; apply same_profiles_evolves].
  case_decide; [|by intros; simplify_eq; apply same_profiles_evolves].
  destruct res as [response|]; [|by intros; simplify_eq; apply same_profiles_evolves].
  assert (∀ r cx1, Done (clear_presence h cx) = Done (r, cx1) → evolves cx cx1) as Hclear.
  { intros r1 cx1 [= _ <-]. by apply same_profiles_evolves. }
  destruct (fst (decode send_mail_response_codec response)) as [[u|[]]|]; try exact (Hclear r cx').
  unfold pop_pushed_mail. intros [= _ <-].
  destruct (get_profile cx (for_who h)) as [p|] eqn:Hg; [|by apply same_profiles_evolves].
  exact (with_mail_evolves cx (put_profile cx (for_who h) (with_mail p [])) (for_who h) p []
           Hg (Nat.le_0_l _) eq_refl).
Qed.

(** Everything the requests of profiles do to the node. *)
Inductive profile_step cx : Cx R S Addr → Prop :=
  | step_create proof enc : no_collision cx proof → profile_step cx (snd (create_profile (proof, enc) cx))
  | step_set_vault proof : no_collision cx proof → profile_step cx (snd (set_vault proof cx))
  | step_read_mail o proof : profile_step cx (snd (read_mail_handler o proof cx))
  | step_send_mail sc req r cx' : execute sc req cx = Done (r, cx') → profile_step cx cx'
  | step_mail_response h sc ev r cx' : resume h sc ev cx = Done (r, cx') → profile_step cx cx'.

Lemma profile_step_evolves cx cx' : profile_step cx cx' → evolves cx cx'.
Proof.
  intros [proof enc Hc|proof Hc|o proof|sc [i m] r cx1 He|h sc ev r cx1 He].
  - by apply create_profile_evolves.
  - by apply set_vault_evolves.
  - apply read_mail_evolves.
  - exact (send_mail_evolves _ _ _ _ _ _ He).
  - exact (send_mail_resume_evolves _ _ _ _ _ _ He).
Qed.
End invariants.

(** ** Properties *)


(** A mail is delivered or kept, never both and never neither: when the request succeeds or
    waits for the node the owner is online at, the mail is the last one of the owner's mailbox;
    when it is answered with an error, mailboxes are unchanged. A waiting request pushed the
    mail, remembers the owner, and only waits when the owner is online at another node and the
    sender is a client of this one. *)
Theorem send_mail_kept {R S Addr} `{RpcNet R, ClientStream S, Ed25519, Blake3, Signatures}
    (sc : Scope) (i : Identity) (m : bytes) (cx : Cx R S Addr) r cx' :
  send_mail_execute sc (i, m) cx = Done (r, cx') → Z.of_nat (length m) < 65536 →
  (∀ p, get_profile cx i = Some p → ∃ mails, mail p = foldl push_mail [] mails ∧
     Forall (λ m, Z.of_nat (length m) < 65536) mails) →
  match r with
  | Respond (Err _) => profiles (storage cx') = profiles (storage cx)
  | _ => ∃ p p', get_profile cx i = Some p ∧ get_profile cx' i = Some p' ∧
      unpack_mail (mail p') = unpack_mail (mail p) ++ [m]
  end ∧
  match r with
  | Wait h => for_who h = i ∧ ∃ peer path, online (storage cx) !! i = Some (Server peer) ∧
                                           origin sc = Client path
  | _ => True
  end.
Proof.
  intros He Hm Hbox. pose proof (send_mail_execute_spec _ _ _ _ _ _ He) as Hs. split.
  - assert ((∃ p, get_profile cx i = Some p ∧ (length (mail p) + length m < MAIL_BOX_CAP)%nat ∧
      profiles (storage cx') = <[i:=with_mail p (push_mail (mail p) m)]> (profiles (storage cx))) →
      ∃ p p', get_profile cx i = Some p ∧ get_profile cx' i = Some p' ∧
        unpack_mail (mail p') = unpack_mail (mail p) ++ [m]) as Hkept.
    { intros (p & Hg & _ & Hp). exists p, (with_mail p (push_mail (mail p) m)). split; [done|].
      split; [unfold get_profile; rewrite Hp; apply lookup_insert_eq|]. simpl.
      destruct (Hbox p Hg) as (mails & -> & Hms). change (push_mail (foldl push_mail [] mails) m)
        with (foldl push_mail (foldl push_mail [] mails) [m]). rewrite <-foldl_app.
      rewrite !unpack_pushed; [done|done|]. apply Forall_app. split; [done|by constructor]. }
    destruct r as [[u|e]|h]; auto.
  - destruct r as [|h]; [done|]. by apply send_mail_waits in He.
Qed.

(** A late "sent directly" throws away mail nobody has read. When a request that waits for
    another node is answered that the mail was sent directly, the whole mailbox is cleared, all
    mails that were pushed before or meanwhile included. *)
Theorem sent_directly_drops_all {R S Addr} `{RpcNet R, ClientStream S, Ed25519, Blake3, Signatures}
    (h : SendMail) (sc : Scope) (peer : PeerId) (response : bytes) (cx : Cx R S Addr) (p : Profile) :
  get_profile cx (for_who h) = Some p →
  to_bytes send_mail_response_codec (Err SentDirectly) = Some response →
  ∃ cx', send_mail_resume h sc (Response peer (dm h) (Ok response)) cx =
      Done (Respond (Err SentDirectly), cx') ∧
    get_profile cx' (for_who h) = Some (with_mail p []).
Proof.
  intros Hg Hr. vm_compute in Hr. injection Hr as <-.
  unfold send_mail_resume. rewrite decide_True by done.
  change (fst (decode send_mail_response_codec [0; 1])) with (Some (Err (A := unit) SentDirectly)).
  unfold pop_pushed_mail. rewrite Hg. eexists. split; [done|]. apply lookup_insert_eq.
Qed.

(** ** A node with one profile *)

Section demo.
#[local] Existing Instance demo_net.
#[local] Existing Instance demo_streams.
#[local] Existing Instance demo_ed.
#[local] Existing Instance demo_blake3.
#[local] Existing Instance demo_signatures.

Definition demo_owner : Identity := from_raw [1; 2].
Definition demo_profile (m : bytes) : Profile := MkProfile [1; 2] [3; 4] [1] 5 5 [9] m.
(** The owner is online at node 2. *)
Definition demo_mailbox (m : bytes) : Cx (list (PeerId * bytes)) (list (list Z)) nat :=
  demo_cx 3 [1; 2; 3] {| profiles := {[demo_owner := demo_profile m]};
    online := {[demo_owner := Server [2]]}; chats := ∅ |}.
Definition demo_scope : Scope := {| origin := Client 1; call_id := 4; prefix := 11 |}.

Lemma demo_mailbox_profile m : get_profile (demo_mailbox m) demo_owner = Some (demo_profile m).
Proof. apply lookup_singleton_eq. Qed.


Lemma send_mail_kept_witness :
  ∃ h cx', send_mail_execute demo_scope (demo_owner, [6]) (demo_mailbox []) = Done (Wait h, cx') ∧
    for_who h = demo_owner ∧
    ∃ p p', get_profile (demo_mailbox []) demo_owner = Some p ∧ get_profile cx' demo_owner = Some p' ∧
      unpack_mail (mail p') = unpack_mail (mail p) ++ [[6]].
Proof.
  eexists _, _. split; [reflexivity|].
  edestruct (send_mail_kept demo_scope demo_owner [6] (demo_mailbox [])) as [H1 H2];
    [reflexivity|reflexivity| |].
  - intros p. rewrite demo_mailbox_profile. intros [= <-]. exists []. split; [reflexivity|constructor].
  - split; [apply H2|exact H1].
Defined.

Lemma sent_directly_drops_all_witness :
  let mails := push_mail (push_mail [] [6]) [7; 8] in
  unpack_mail mails = [[6]; [7; 8]] ∧
  ∃ cx', send_mail_resume {| dm := 9; for_who := demo_owner |} demo_scope
      (Response [2] 9 (Ok [0; 1])) (demo_mailbox mails) = Done (Respond (Err SentDirectly), cx') ∧
    get_profile cx' demo_owner = Some (demo_profile []).
Proof.
  intros mails. split; [reflexivity|].
  apply (sent_directly_drops_all {| dm := 9; for_who := demo_owner |} demo_scope [2] [0; 1]
           (demo_mailbox mails) (demo_profile mails)); [apply demo_mailbox_profile|reflexivity].
Defined.
End demo.
