(* ===== verification/Replication.v ===== *)
(** The two adapters around handlers: [Repl] (handlers/replicated.rs), which answers a client
    once enough replicators gave the same response, and [Retry] (handlers/retry.rs), which
    restores missing data from the other replicators before it runs the request. *)

From S2P Require Import Prelude Codec Messages Streams Collections Dht ChatSpec Chat Server.
From S2P Require Import ChatHandlers Profiles.

(** [ReplVec]: collecting more elements than its capacity is a panic. *)
Definition repl_vec {A} (l : list A) : outcome (list A) :=
  if decide (REPLICATION_FACTOR < length l)%nat then Panic else Done l.

(** ** Repl *)

Inductive Repl (Hd : Type) :=
  | Resolving (h : Hd) (topic : PossibleTopic) (request : bytes)
  | Replicating (response : bytes) (ongoing : list CallId) (matched : nat).
Arguments Resolving {Hd} _ _ _.
Arguments Replicating {Hd} _ _ _.

Section repl.
Context {R S Addr : Type} `{RpcNet R, ClientStream S, Ed25519, Blake3}.
Context {Req T E Hd : Type} {inner : Handler (R := R) (S := S) (Addr := Addr) Req T E RpcEvent Hd}.
(** The protocol of the inner handler: its number, codecs and the topic of its requests. *)
Context (PREFIX : u8) (creq : Codec Req) (cresp : Codec T) (cerr : Codec E)
        (to_possible_topic : Req → PossibleTopic).
Notation Cx := (Cx R S Addr).
Implicit Types (cx : Cx).

Definition new_replicating (response request : bytes) (topic : PossibleTopic) cx :
    outcome (Repl Hd * Cx) :=
  let (calls, net) := request_all (cx_other_replicators_for cx topic) request (rpc cx) in
  try! ongoing := repl_vec calls in
  Done (Replicating response ongoing 0, with_rpc cx net).

(* the inner handler is done, or not: what the adapter does with its result *)
Definition repl_inner (request : bytes) (topic : PossibleTopic) (res : handler_result T E Hd) cx :
    outcome (handler_result T (ReplError E) (Repl Hd) * Cx) :=
  match res with
  | Respond (Ok r) =>
      try! response := unwrap (to_bytes (result_codec cresp unit_codec) (Ok r)) in
      try! (h, cx) := new_replicating response request topic cx in
      Done (Wait h, cx)
  | Respond (Err e) => Done (Respond (Err (ReplInner e)), cx)
  | Wait h => Done (Wait (Resolving h topic request), cx)
  end.

Definition repl_execute (sc : Scope) (req : Req) cx :
    outcome (handler_result T (ReplError E) (Repl Hd) * Cx) :=
  let topic := to_possible_topic req in
  if negb (is_valid_topic cx topic) then Done (Respond (Err InvalidTopic), cx)
  else
    try! request := unwrap (to_bytes (pair_codec u8_codec creq) (PREFIX, req)) in
    try! (res, cx) := execute sc req cx in
    repl_inner request topic res cx.

Definition repl_resume (h : Repl Hd) (sc : Scope) (ev : RpcEvent) cx :
    outcome (handler_result T (ReplError E) (Repl Hd) * Cx) :=
  match h with
  | Resolving handler topic request =>
      try! (res, cx) := resume handler sc ev cx in
      repl_inner request topic res cx
  | Replicating response ongoing matched =>
      match ev with
      | RpcRequest _ _ _ => Done (Wait h, cx)
      | Response _ call res =>
          match find_and_remove (λ c, bool_decide (c = call)) ongoing with
          | None => Done (Wait h, cx)
          | Some (_, ongoing) =>
              let undecided matched :=
                if decide (length ongoing + matched < REPLICATION_FACTOR / 2)%nat
                then Done (Respond (Err NoMajority), cx)
                else Done (Wait (Replicating response ongoing matched), cx) in
              match res with
              | Err _ => undecided matched
              | Ok remote_resp =>
                  let matched := (matched + (if decide (remote_resp = response) then 1 else 0))%nat in
                  if decide (REPLICATION_FACTOR / 2 < matched)%nat then
                    match fst (decode (result_codec cresp cerr) remote_resp) with
                    | None => Done (Respond (Err InvalidResponse), cx)
                    | Some (Ok r) => Done (Respond (Ok r), cx)
                    | Some (Err e) => Done (Respond (Err (ReplInner e)), cx)
                    end
                  else undecided matched
              end
          end
      end
  end.

#[global] Instance repl_handler :
    Handler (R := R) (S := S) (Addr := Addr) Req T (ReplError E) RpcEvent (Repl Hd) :=
  {| execute := repl_execute; resume := repl_resume |}.

(** The events a waiting handler gets until it responds. *)
Fixpoint repl_run (h : Repl Hd) (sc : Scope) (evs : list RpcEvent) cx :
    outcome (handler_result T (ReplError E) (Repl Hd) * Cx) :=
  match evs with
  | [] => Done (Wait h, cx)
  | ev :: evs =>
      try! (res, cx) := repl_resume h sc ev cx in
      match res with
      | Respond r => Done (Respond r, cx)
      | Wait h => repl_run h sc evs cx
      end
  end.
End repl.

(** ** Retry *)

Definition compute_message_owerflow_tolerance (median : nat) : nat :=
  Nat.max (Nat.min (median / 8) 10) 2.

Record Restoring := {
  r_topic : PossibleTopic; pending : list CallId; request : bytes;
  messages : bytes; block_data : list (BlockNumber * nat);
}.

Inductive Retry (Hd : Type) := Handling (h : Hd) (topic : PossibleTopic) | Restore (r : Restoring).
Arguments Handling {Hd} _ _.
Arguments Restore {Hd} _.

(* [0u8; size_of::<(u8, Identity)>() + 1] *)
Definition FETCH_SIZE : nat := 34.

Section retry.
Context {R S Addr : Type} `{RpcNet R, ClientStream S, Ed25519, Blake3, Signatures}.
Context {Req T E Hd : Type} {inner : Handler (R := R) (S := S) (Addr := Addr) Req T E RpcEvent Hd}.
Context (creq : Codec Req) (to_possible_topic : Req → PossibleTopic).
Notation Cx := (Cx R S Addr).
Implicit Types (cx : Cx).

Definition fetch_full_profile_response : Codec (result Profile FetchProfileError) :=
  result_codec borrowed_profile_codec (one_variant_codec FpNotFound).
Definition fetch_latest_block_response : Codec (result (BlockNumber * bytes) FetchLatestBlockError) :=
  result_codec (pair_codec u64_codec reminder_codec) (one_variant_codec FlbChatNotFound).

Definition retry_inner (topic : PossibleTopic) (res : handler_result T E Hd) :
    handler_result T (NotFoundError E) (Retry Hd) :=
  match res with
  | Respond (Ok r) => Respond (Ok r)
  | Respond (Err e) => Respond (Err (NfInner e))
  | Wait h => Wait (Handling h topic)
  end.

(* the request for the missing data, in a buffer that is sent whole *)
Definition fetch_packet (topic : PossibleTopic) : outcome bytes :=
  let buffer := {| filled := []; room := replicate FETCH_SIZE 0 |} in
  let (r, packet) := match topic with
    | TopicProfile identity =>
        encode (rpc_codec hash_codec) (ChatHandlers.PREFIX PFetchFullProfile, identity) buffer
    | TopicChat name =>
        encode (rpc_codec chat_name_codec) (ChatHandlers.PREFIX PFetchLatestBlock, name) buffer
    end in
  try! _ := unwrap r in
  Done (filled packet ++ room packet).

Definition has_topic cx (topic : PossibleTopic) : bool :=
  match topic with
  | TopicProfile identity => bool_decide (is_Some (profiles (storage cx) !! identity))
  | TopicChat name => bool_decide (is_Some (chats (storage cx) !! name))
  end.

Definition retry_execute (sc : Scope) (req : Req) cx :
    outcome (handler_result T (NotFoundError E) (Retry Hd) * Cx) :=
  let topic := to_possible_topic req in
  if negb (is_valid_topic cx topic) then Done (Respond (Err NotFound), cx)
  else if has_topic cx topic then
    try! (res, cx) := execute sc req cx in
    Done (retry_inner topic res, cx)
  else
    try! packet := fetch_packet topic in
    let (calls, net) := request_all (cx_other_replicators_for cx topic) packet (rpc cx) in
    try! pending := repl_vec calls in
    try! request := unwrap (to_bytes creq req) in
    Done (Wait (Restore {| r_topic := topic; pending := pending; request := request;
                           messages := []; block_data := [] |}), with_rpc cx net).

(* a profile from another replicator replaces ours when it is genuine and newer *)
Definition restore_profile (identity : Identity) (response : bytes) cx : Cx :=
  match fst (decode fetch_full_profile_response response) with
  | Some (Ok profile) =>
      if decide (from_raw (sign profile) = identity) then
        if is_valid profile then
          match get_profile cx identity with
          | Some existing =>
              if decide (vault_version profile ≤ vault_version existing) then cx
              else put_profile cx identity profile
          | None => put_profile cx identity profile
          end
        else cx
      else cx
  | _ => cx
  end.

Definition restore_chat (response : bytes) (r : Restoring) : outcome Restoring :=
  match fst (decode fetch_latest_block_response response) with
  | Some (Ok (number, current_block)) =>
      let messages := messages r ++ current_block in
      try! data := repl_vec (block_data r ++ [(number, length messages)]) in
      Done {| r_topic := r_topic r; pending := pending r; request := request r;
              messages := messages; block_data := data |}
  | _ => Done r
  end.

(* once every response is there: the hashes and bounds of the restored messages are computed but
   nothing is done with them, and the request is run on what is stored *)
Definition restored (sc : Scope) (r : Restoring) cx :
    outcome (handler_result T (NotFoundError E) (Retry Hd) * Cx) :=
  try! req := unwrap (fst (decode creq (request r))) in
  try! (res, cx) := execute sc req cx in
  Done (retry_inner (r_topic r) res, cx).

Definition retry_resume (h : Retry Hd) (sc : Scope) (ev : RpcEvent) cx :
    outcome (handler_result T (NotFoundError E) (Retry Hd) * Cx) :=
  match h with
  | Handling h topic =>
      try! (res, cx) := resume h sc ev cx in
      Done (retry_inner topic res, cx)
  | Restore r =>
      match ev with
      | RpcRequest _ _ _ => Done (Wait (Restore r), cx)
      | Response _ call res =>
          match find_and_remove (λ c, bool_decide (c = call)) (pending r) with
          | None => Done (Wait (Restore r), cx)
          | Some (_, pending) =>
              let r := {| r_topic := r_topic r; pending := pending; request := request r;
                          messages := messages r; block_data := block_data r |} in
              match res with
              | Err _ => Panic
              | Ok response =>
                  try! (r, cx) := match r_topic r with
                    | TopicProfile identity => Done (r, restore_profile identity response cx)
                    | TopicChat _ => try! r := restore_chat response r in Done (r, cx)
                    end in
                  if decide (pending = []) then restored sc r cx
                  else Done (Wait (Restore r), cx)
              end
          end
      end
  end.

#[global] Instance retry_handler :
    Handler (R := R) (S := S) (Addr := Addr) Req T (NotFoundError E) RpcEvent (Retry Hd) :=
  {| execute := retry_execute; resume := retry_resume |}.
End retry.

(** ** Voting *)

Lemma find_call_some (call : CallId) l x l' :
  find_and_remove (λ c, bool_decide (c = call)) l = Some (x, l') → call :: l' ≡ₚ l.
Proof.
  unfold find_and_remove. destruct (position _ l) as [i|] eqn:Hi; [|done].
  apply position_some in Hi as (y & Hl & ->%bool_decide_eq_true).
  destruct (swap_remove_perm i l call Hl) as (l1 & -> & Hp). intros [= _ <-]. done.
Qed.

Lemma find_call_none (call : CallId) l :
  call ∉ l → find_and_remove (λ c, bool_decide (c = call)) l = None.
Proof.
  intros Hn. unfold find_and_remove. destruct (position _ l) as [i|] eqn:Hi; [|done].
  apply position_some in Hi as (y & Hl & ->%bool_decide_eq_true).
  exfalso. apply Hn. by eapply list_elem_of_lookup_2.
Qed.

Lemma find_call_in (call : CallId) l :
  call ∈ l → ∃ x l', find_and_remove (λ c, bool_decide (c = call)) l = Some (x, l') ∧ call :: l' ≡ₚ l.
Proof.
  intros Hin. destruct (find_and_remove (λ c, bool_decide (c = call)) l) as [[x l']|] eqn:Hf.
  - exists x, l'. split; [done|]. by eapply find_call_some.
  - exfalso. unfold find_and_remove in Hf. destruct (position _ l) as [i|] eqn:Hi.
    + apply position_some in Hi as (y & Hl & _).
      by destruct (swap_remove_perm i l y Hl) as (l1 & Hs & _); rewrite Hs in Hf.
    + rewrite position_none, Forall_forall in Hi. specialize (Hi call Hin).
      by rewrite bool_decide_true in Hi.
Qed.

Section votes.
Context {R S Addr : Type} `{RpcNet R, ClientStream S, Ed25519, Blake3}.
Context {Req T E Hd : Type} {inner : Handler (R := R) (S := S) (Addr := Addr) Req T E RpcEvent Hd}.
Context (PREFIX : u8) (creq : Codec Req) (cresp : Codec T) (cerr : Codec E)
        (to_possible_topic : Req → PossibleTopic).
Implicit Types (cx : Cx R S Addr) (evs : list RpcEvent) (ongoing : list CallId).

(** The replicators that sent the response. *)
Definition voted (response : bytes) evs (call : CallId) : Prop :=
  ∃ peer, Response peer call (Ok response) ∈ evs.

Lemma voted_cons response ev evs call : voted response evs call → voted response (ev :: evs) call.
Proof. intros [peer Hp]. exists peer. by constructor. Qed.

(** The answer carried by an encoded response. *)
Definition answer (response : bytes) (r : result T (ReplError E)) : Prop :=
  match fst (decode (result_codec cresp cerr) response) with
  | None => r = Err InvalidResponse
  | Some (Ok v) => r = Ok v
  | Some (Err e) => r = Err (ReplInner e)
  end.

(** One event while votes are counted: it is not for us, or one call is settled. *)
Lemma repl_step response ongoing matched sc ev cx res cx' :
  (matched ≤ 2)%nat →
  repl_resume cresp cerr (Replicating (Hd := Hd) response ongoing matched) sc ev cx = Done (res, cx') →
  res = Wait (Replicating response ongoing matched) ∨
  ∃ peer call reply ongoing', ev = Response peer call reply ∧ call :: ongoing' ≡ₚ ongoing ∧
    match res with
    | Wait (Replicating response' ongoing1 matched') =>
        response' = response ∧ ongoing1 = ongoing' ∧ (matched' ≤ 2)%nat ∧
        (matched' = matched ∨ matched' = Datatypes.S matched ∧ reply = Ok response)
    | Wait _ => False
    | Respond r => r = Err NoMajority ∨ matched = 2%nat ∧ reply = Ok response ∧ answer response r
    end.
Proof.
  intros Hm. cbn [repl_resume]. destruct ev as [peer call reply|]; [|by intros [= <- _]; left].
  destruct (find_and_remove _ ongoing) as [[x ongoing']|] eqn:Hf; [|by intros [= <- _]; left].
  intros Hr. right. exists peer, call, reply, ongoing'. split; [done|].
  split; [by eapply find_call_some|]. destruct reply as [remote|].
  - destruct (decide (remote = response)) as [->|Hne].
    + case_decide as Hmaj; [|case_decide; injection Hr as <- _; [by left|]].
      * assert (matched = 2%nat) as -> by (unfold REPLICATION_FACTOR in Hmaj; simpl in Hmaj; lia).
        unfold answer. destruct (fst (decode _ response)) as [[v|e]|];
          injection Hr as <- _; by right.
      * split; [done|]. split; [done|]. unfold REPLICATION_FACTOR in Hmaj; simpl in Hmaj.
        split; [lia|]. right. split; [lia|done].
    + rewrite Nat.add_0_r in Hr. rewrite decide_False in Hr
        by (unfold REPLICATION_FACTOR; simpl; lia).
      case_decide; injection Hr as <- _; [by left|]. split; [done|]. split; [done|]. split; [done|]. by left.
  - case_decide; injection Hr as <- _; [by left|]. split; [done|]. split; [done|]. split; [done|]. by left.
Qed.

Lemma repl_run_votes response ongoing matched sc evs cx r cx' :
  NoDup ongoing → (matched ≤ 2)%nat →
  repl_run cresp cerr (Replicating (Hd := Hd) response ongoing matched) sc evs cx =
    Done (Respond r, cx') →
  r ≠ Err NoMajority →
  answer response r ∧ ∃ calls, NoDup calls ∧ calls ⊆ ongoing ∧ (length calls + matched = 3)%nat ∧
    Forall (voted response evs) calls.
Proof.
  revert ongoing matched cx. induction evs as [|ev evs IH]; intros ongoing matched cx Hnd Hm; [done|].
  cbn [repl_run]. destruct (repl_resume cresp cerr _ sc ev cx) as [[res cx1]|] eqn:Hs; [|done].
  cbn [obind]. intros Hr Hne. assert (∀ calls, Forall (voted response evs) calls → Forall (voted response (ev :: evs)) calls) as Hcons
    by (intros calls Hc; eapply Forall_impl; [exact Hc|apply voted_cons]).
  destruct (repl_step _ _ _ _ _ _ _ _ Hm Hs) as [->|(peer & call & reply & ongoing' & -> & Hp & Hres)].
  { destruct (IH _ _ _ Hnd Hm Hr Hne) as (Ha & calls & Hc1 & Hc2 & Hc3 & Hc4).
    split; [done|]. exists calls. auto. }
  assert (ongoing' ⊆ ongoing) as Hsub by (intros c Hc; rewrite <-Hp; by constructor).
  assert (call ∈ ongoing) as Hin by (rewrite <-Hp; constructor).
  rewrite <-Hp in Hnd. apply NoDup_cons in Hnd as [Hni Hnd]. clear Hp.
  destruct res as [r'|[|response' ongoing1 matched']]; [|done|].
  - injection Hr as <- <-. destruct Hres as [->|(-> & -> & Ha)]; [done|].
    split; [done|]. exists [call]. split; [by apply NoDup_singleton|].
    split; [by intros c ->%list_elem_of_singleton|]. split; [done|]. constructor; [|constructor]. exists peer. constructor.
  - destruct Hres as (-> & -> & Hm' & Hv).
    destruct (IH _ _ _ Hnd Hm' Hr Hne) as (Ha & calls & Hc1 & Hc2 & Hc3 & Hc4). split; [done|].
    destruct Hv as [->|[-> ->]].
    + exists calls. split; [done|]. split; [by etrans|]. auto.
    + exists (call :: calls). split; [constructor; [|done]; intros Hc; by apply Hni, Hc2|].
      split; [intros c [->|Hc]%elem_of_cons; [done|by apply Hsub, Hc2]|].
      split; [cbn [length]; lia|]. constructor; [exists peer; constructor|auto].
Qed.

(** An agreeing and a disagreeing response while no majority is reached. *)
Lemma repl_agree response ongoing rest matched sc peer call cx :
  ongoing ≡ₚ call :: rest → (matched < 2)%nat → (1 ≤ length rest + matched)%nat →
  ∃ ongoing', ongoing' ≡ₚ rest ∧
    repl_resume cresp cerr (Replicating (Hd := Hd) response ongoing matched) sc
      (Response peer call (Ok response)) cx =
    Done (Wait (Replicating response ongoing' (Datatypes.S matched)), cx).
Proof.
  intros Hp Hm Hl. assert (call ∈ ongoing) as Hin by (rewrite Hp; constructor).
  destruct (find_call_in call ongoing Hin) as (x & ongoing' & Hf & Hp').
  rewrite Hp in Hp'. apply Permutation_cons_inv in Hp'. exists ongoing'. split; [done|].
  cbn [repl_resume]. rewrite Hf, (decide_True (P := response = response)) by done. change (REPLICATION_FACTOR / 2)%nat with 2%nat.
  rewrite Nat.add_1_r, decide_False by lia. rewrite decide_False; [done|]. rewrite Hp'. lia.
Qed.

Lemma repl_disagree response ongoing rest matched sc peer call reply cx :
  ongoing ≡ₚ call :: rest → reply ≠ Ok response → (matched ≤ 2)%nat → (2 ≤ length rest + matched)%nat →
  ∃ ongoing', ongoing' ≡ₚ rest ∧
    repl_resume cresp cerr (Replicating (Hd := Hd) response ongoing matched) sc
      (Response peer call reply) cx =
    Done (Wait (Replicating response ongoing' matched), cx).
Proof.
  intros Hp Hne Hm Hl. assert (call ∈ ongoing) as Hin by (rewrite Hp; constructor).
  destruct (find_call_in call ongoing Hin) as (x & ongoing' & Hf & Hp').
  rewrite Hp in Hp'. apply Permutation_cons_inv in Hp'. exists ongoing'. split; [done|].
  cbn [repl_resume]. rewrite Hf. change (REPLICATION_FACTOR / 2)%nat with 2%nat.
  assert (¬ (length ongoing' + matched < 2)%nat) as Hl' by (rewrite Hp'; lia).
  destruct reply as [remote|]; [|by rewrite decide_False].
  rewrite (decide_False (P := remote = response)) by congruence.
  rewrite Nat.add_0_r. by rewrite !decide_False by lia.
Qed.

(** Once every call is settled a run that has not answered never does. *)
Lemma repl_run_settled response matched sc evs cx :
  repl_run cresp cerr (Replicating (Hd := Hd) response [] matched) sc evs cx =
    Done (Wait (Replicating response [] matched), cx).
Proof. induction evs as [|[peer call res|peer call body] evs IH]; [done|apply IH..]. Qed.
End votes.

(** ** Restoring *)

Section restoring.
Context {R S Addr : Type} `{RpcNet R, ClientStream S, Ed25519, Blake3, Signatures}.
Implicit Types (cx : Cx R S Addr).

(** A profile was only replaced by a genuine one with a newer vault. *)
Definition restores (identity : Identity) cx cx' : Prop :=
  cx' = cx ∨ ∃ p, cx' = put_profile cx identity p ∧ from_raw (sign p) = identity ∧ is_valid p = true ∧
    ∀ old, get_profile cx identity = Some old → vault_version old < vault_version p.

Lemma restore_profile_restores identity response cx :
  restores identity cx (restore_profile identity response cx).
Proof.
  unfold restore_profile. destruct (fst _) as [[p|]|]; [|by left..].
  case_decide as Hi; [|by left]. destruct (is_valid p) eqn:Hv; [|by left].
  destruct (get_profile cx identity) as [old|] eqn:Hg.
  - case_decide; [by left|]. right. exists p. split; [done|]. split; [done|]. split; [done|].
    intros old' Ho. rewrite Hg in Ho. injection Ho as <-. lia.
  - right. exists p. split; [done|]. split; [done|]. split; [done|]. intros old Ho. by rewrite Hg in Ho.
Qed.
End restoring.

(** ** Properties *)


(** A split vote is never answered. When two of the four replicators agree with us and the
    other two fail or answer something else, the request neither succeeds nor fails: it waits
    for good, whatever happens later. *)
Theorem repl_split_vote_hangs {R S Addr} `{RpcNet R, ClientStream S, Ed25519, Blake3} {Req T E Hd}
    {inner : Handler (R := R) (S := S) (Addr := Addr) Req T E RpcEvent Hd}
    (cresp : Codec T) (cerr : Codec E) (response : bytes) (a b c d : CallId) (pa pb pc pd : PeerId)
    (rc rd : result bytes unit) (sc : Scope) (evs : list RpcEvent) (cx : Cx R S Addr) :
  NoDup [a; b; c; d] → rc ≠ Ok response → rd ≠ Ok response →
  repl_run cresp cerr (Replicating (Hd := Hd) response [a; b; c; d] 0) sc
    (Response pa a (Ok response) :: Response pb b (Ok response) ::
     Response pc c rc :: Response pd d rd :: evs) cx =
    Done (Wait (Replicating response [] 2), cx).
Proof.
  intros _ Hc Hd'.
  destruct (repl_agree cresp cerr response [a; b; c; d] [b; c; d] 0 sc pa a cx) as (o1 & Hp1 & E1);
    [done|simpl; lia..|].
  destruct (repl_agree cresp cerr response o1 [c; d] 1 sc pb b cx Hp1) as (o2 & Hp2 & E2); [simpl; lia..|].
  destruct (repl_disagree cresp cerr response o2 [d] 2 sc pc c rc cx Hp2 Hc) as (o3 & Hp3 & E3);
    [simpl; lia..|].
  destruct (repl_disagree cresp cerr response o3 [] 2 sc pd d rd cx Hp3 Hd') as (o4 & Hp4 & E4);
    [simpl; lia..|].
  apply Permutation_nil_r in Hp4 as ->. cbn [repl_run]. rewrite E1. cbn [obind]. rewrite E2. cbn [obind].
  rewrite E3. cbn [obind]. rewrite E4. apply repl_run_settled.
Qed.


(** One unreachable replicator stops the node: when a call made to restore missing data
    fails, the node panics. And when no call could be made at all, the request is never run. *)
Theorem retry_failure_panics {R S Addr} `{RpcNet R, ClientStream S, Ed25519, Blake3, Signatures}
    {Req T E Hd} {inner : Handler (R := R) (S := S) (Addr := Addr) Req T E RpcEvent Hd}
    (creq : Codec Req) (r : Restoring) (sc : Scope) (cx : Cx R S Addr) :
  (∀ peer call, call ∈ pending r →
     retry_resume creq (Restore r) sc (Response peer call (Err tt)) cx = Panic) ∧
  (pending r = [] → ∀ ev, retry_resume creq (Restore r) sc ev cx = Done (Wait (Restore r), cx)).
Proof.
  split.
  - intros peer call Hin. destruct (find_call_in call _ Hin) as (x & l & Hf & _).
    cbn [retry_resume]. by rewrite Hf.
  - intros Hp [peer call reply|peer call body]; [|done]. cbn [retry_resume]. by rewrite Hp.
Qed.

(** ** A run *)

Section demo.
#[local] Existing Instance demo_net.
#[local] Existing Instance demo_streams.
#[local] Existing Instance demo_ed.
#[local] Existing Instance demo_blake3.
#[local] Existing Instance demo_signatures.


Lemma repl_split_vote_hangs_witness :
  repl_run (inner := send_mail_handler) unit_codec send_mail_error_codec
    (Replicating [1] [4; 5; 6; 7]%nat 0) demo_scope
    [Response [1] 4 (Ok [1]); Response [2] 5 (Ok [1]); Response [3] 6 (Err tt); Response [4] 7 (Ok [0; 1])]
    (demo_mailbox []) = Done (Wait (Replicating [1] [] 2), demo_mailbox []).
Proof.
  refine (repl_split_vote_hangs unit_codec send_mail_error_codec [1] 4 5 6 7 [1] [2] [3] [4]
    (Err tt) (Ok [0; 1]) demo_scope [] (demo_mailbox []) _ _ _); [decided|discriminate|discriminate].
Defined.


Lemma retry_failure_panics_witness :
  let r := {| r_topic := TopicProfile demo_owner; pending := [4; 5]%nat; request := [];
              messages := []; block_data := [] |} in
  retry_resume (inner := send_mail_handler) send_mail_codec (Restore r) demo_scope
    (Response [2] 5 (Err tt)) (demo_mailbox []) = Panic.
Proof.
  intros r. refine (proj1 (retry_failure_panics (inner := send_mail_handler) send_mail_codec r demo_scope
    (demo_mailbox [])) [2] 5%nat _). decided.
Defined.
End demo.
