(* ===== verification/Router.v ===== *)
(** The two request routers of a node, as [compose_handlers!] (handlers.rs) makes them from the
    lists in [nodes/server/src/main.rs]: which protocols are served to other nodes and which to
    clients, behind which adapters.

    A protocol with its handler is a [Served]; a router is a list of them with a nest of waiting
    handlers for each. *)

From S2P Require Import Prelude Codec Messages Streams Collections Dht ChatSpec Chat Server.
From S2P Require Import ChatHandlers Profiles Replication.

(** ** Codecs of the requests, responses and errors that are only used by the routers *)

Definition create_account_error_codec : Codec CreateAccountError :=
  unit_enum_codec (λ e, match e with CaInvalidProof => 0 | CaAlreadyExists => 1 end)
    (λ i, if decide (i = 0) then Some CaInvalidProof
          else if decide (i = 1) then Some CaAlreadyExists else None).

Definition set_vault_error_codec : Codec SetVaultError :=
  unit_enum_codec (λ e, match e with SvNotFound => 0 | SvInvalidProof => 1 | SvInvalidAction => 2 end)
    (λ i, if decide (i = 0) then Some SvNotFound else if decide (i = 1) then Some SvInvalidProof
          else if decide (i = 2) then Some SvInvalidAction else None).

Definition read_mail_error_codec : Codec ReadMailError :=
  unit_enum_codec (λ e, match e with RmNotFound => 0 | RmInvalidProof => 1 | RmInvalidAction => 2 end)
    (λ i, if decide (i = 0) then Some RmNotFound else if decide (i = 1) then Some RmInvalidProof
          else if decide (i = 2) then Some RmInvalidAction else None).

Definition propose_error_codec : Codec ProposeMsgBlockError :=
  unit_enum_codec
    (λ e, match e with PropNoReplicator => 0 | PropChatNotFound => 1 | NoBlocks => 2 | NotServer => 3 end)
    (λ i, if decide (i = 0) then Some PropNoReplicator else if decide (i = 1) then Some PropChatNotFound
          else if decide (i = 2) then Some NoBlocks else if decide (i = 3) then Some NotServer else None).

Definition invalid_block_reason_codec : Codec InvalidBlockReason :=
  unit_enum_codec (λ e, match e with MajorityMismatch => 0 | Outdated => 1 | NotExpected => 2 end)
    (λ i, if decide (i = 0) then Some MajorityMismatch else if decide (i = 1) then Some Outdated
          else if decide (i = 2) then Some NotExpected else None).

Definition send_block_error_codec : Codec SendBlockError :=
  MkCodec (λ _ _ e, match e with
                    | SbNoReplicator => variant 0 (ret tt)
                    | SbChatNotFound => variant 1 (ret tt)
                    | InvalidBlock r => variant 2 (encode invalid_block_reason_codec r)
                    end)
          (match_index (λ i, if decide (i = 0) then ret SbNoReplicator
                             else if decide (i = 1) then ret SbChatNotFound
                             else if decide (i = 2) then
                               let! r := decode invalid_block_reason_codec in ret (InvalidBlock r)
                             else mfail)).

Definition fetch_profile_resp_codec `{Signatures} : Codec FetchProfileResp :=
  iso_codec (λ r, (resp_sign r, resp_enc r)) (λ '(s, e), {| resp_sign := s; resp_enc := e |})
    (pair_codec (array_codec PK_SIZE u8_codec) (array_codec ENC_PK_SIZE u8_codec)).

(** ** Handlers and routers *)

(* [swap_remove] and [push] keep the nests of a router apart, so each is state of its own *)
Section router.
Context {R St Addr : Type} `{RpcNet R, ClientStream St, Ed25519, Blake3, Signatures}.
Notation Cx := (Cx R St Addr).

(* impl<H: SyncHandler> Handler for H: [pub enum H {}] has no value that could wait *)
Definition sync_handler {Req T E} (f : Scope → Req → Cx → outcome (result T E * Cx)) :
    Handler (R := R) (S := St) (Addr := Addr) Req T E RpcEvent Empty_set :=
  {| execute := λ sc req cx, try! (res, cx) := f sc req cx in Done (Respond res, cx);
     resume := λ (h : Empty_set) _ _ _, match h with end |}.

(** A protocol ([PREFIX], the codecs of its types) and the handler that serves it. *)
Record Served := MkServed {
  s_Req : Type; s_T : Type; s_E : Type; s_Hd : Type;
  s_prefix : u8;
  s_req : Codec s_Req; s_resp : Codec s_T; s_err : Codec s_E;
  s_handler : Handler (R := R) (S := St) (Addr := Addr) s_Req s_T s_E RpcEvent s_Hd;
}.
Definition served_sync {Req T E} (p : Protocol) (creq : Codec Req) (cresp : Codec T) (cerr : Codec E)
    (f : Scope → Req → Cx → outcome (result T E * Cx)) : Served :=
  MkServed Req T E Empty_set (PREFIX p) creq cresp cerr (sync_handler f).

(* Retry<H> and Repl<H> serve the protocol of H with their own errors *)
Definition retry (s : Served) (topic : s_Req s → PossibleTopic) : Served :=
  MkServed (s_Req s) (s_T s) (NotFoundError (s_E s)) (Retry (s_Hd s)) (s_prefix s)
    (s_req s) (s_resp s) (not_found_error_codec (s_err s))
    (retry_handler (inner := s_handler s) (s_req s) topic).
Definition repl (s : Served) (topic : s_Req s → PossibleTopic) : Served :=
  MkServed (s_Req s) (s_T s) (ReplError (s_E s)) (Repl (s_Hd s)) (s_prefix s)
    (s_req s) (s_resp s) (repl_error_codec (s_err s))
    (repl_handler (inner := s_handler s) (s_prefix s) (s_req s) (s_resp s) (s_err s) topic).

(** The fields of the struct that [compose_handlers!] declares. *)
Fixpoint nests (l : list Served) : Type :=
  match l with [] => unit | s :: l => (HandlerNest (s_Hd s) * nests l)%type end.
Fixpoint nests_default (l : list Served) : nests l :=
  match l with [] => tt | s :: l => ([], nests_default l) end.

(* the generated execute: the first protocol with the request's prefix *)
Fixpoint router_execute (l : list Served) :
    nests l → Request → bytes → Cx → outcome (result bool HandlerExecError * bytes * nests l * Cx) :=
  match l with
  | [] => λ n req bp cx, Done (Err UnknownPrefix, bp, n, cx)
  | s :: l => λ n req bp cx,
      if decide (s_prefix s = r_prefix req) then
        try! (res, bp, nest, cx) :=
          nest_execute (handler_impl := s_handler s) (s_req s) (s_resp s) (s_err s) (n.1) req bp cx in
        Done (res, bp, (nest, n.2), cx)
      else
        try! (res, bp, rest, cx) := router_execute l (n.2) req bp cx in
        Done (res, bp, (n.1, rest), cx)
  end.

(* the generated try_complete: the nests in order, until one of their handlers is done *)
Fixpoint router_try_complete (l : list Served) :
    nests l → RpcEvent → bytes → Cx → outcome (option (RequestOrigin * CallId) * bytes * nests l * Cx) :=
  match l with
  | [] => λ n ev bp cx, Done (None, bp, n, cx)
  | s :: l => λ n ev bp cx,
      try! (res, bp, nest, cx) :=
        nest_try_complete (handler_impl := s_handler s) (s_resp s) (s_err s) (n.1) ev bp cx in
      match res with
      | Some done => Done (Some done, bp, (nest, n.2), cx)
      | None =>
          try! (res, bp, rest, cx) := router_try_complete l (n.2) ev bp cx in
          Done (res, bp, (nest, rest), cx)
      end
  end.

(** ** What a node serves *)

(* the handlers that cannot fail to answer and those that do not change the node *)
Definition pure_handler {A B} (r : result A B) (cx : Cx) : outcome (result A B * Cx) := Done (r, cx).

Definition create_profile_served : Served :=
  served_sync PCreateProfile (pair_codec (proof_codec slice_codec) (array_codec ENC_PK_SIZE u8_codec))
    unit_codec create_account_error_codec (λ _ req cx, Done (create_profile req cx)).
Definition set_vault_served : Served :=
  served_sync PSetVault (proof_codec reminder_codec) unit_codec set_vault_error_codec
    (λ _ req cx, Done (set_vault req cx)).
Definition send_mail_served : Served :=
  MkServed _ _ _ _ (PREFIX PSendMail) send_mail_codec unit_codec send_mail_error_codec send_mail_handler.
Definition read_mail_served : Served :=
  served_sync PReadMail (proof_codec mail_codec) reminder_codec read_mail_error_codec
    (λ sc req cx, Done (read_mail_handler (origin sc) req cx)).
Definition fetch_profile_served : Served :=
  served_sync PFetchProfile hash_codec fetch_profile_resp_codec (one_variant_codec FpNotFound)
    (λ _ req cx, pure_handler (fetch_profile req cx) cx).
Definition fetch_full_profile_served : Served :=
  served_sync PFetchFullProfile hash_codec borrowed_profile_codec (one_variant_codec FpNotFound)
    (λ _ req cx, pure_handler (fetch_full_profile req cx) cx).
Definition fetch_vault_served : Served :=
  served_sync PFetchVault hash_codec
    (pair_codec (pair_codec u64_codec u64_codec) reminder_codec) (one_variant_codec FvNotFound)
    (λ _ req cx, pure_handler (fetch_vault req cx) cx).
Definition create_chat_served : Served :=
  served_sync PCreateChat (pair_codec chat_name_codec hash_codec) unit_codec
    (one_variant_codec ChatAlreadyExists) (λ _ req cx, Done (create_chat req cx)).
Definition perform_chat_action_served : Served :=
  served_sync PPerformChatAction (pair_codec (proof_codec chat_name_codec) chat_action_codec)
    unit_codec chat_action_error_codec (λ _ req cx, perform_chat_action req cx).
Definition propose_msg_block_served : Served :=
  served_sync PProposeMsgBlock propose_codec unit_codec propose_error_codec
    (λ sc req cx, propose_msg_block (origin sc) req cx).
Definition send_block_served : Served :=
  served_sync PSendBlock send_block_codec unit_codec send_block_error_codec
    (λ sc req cx, send_block_handler (origin sc) req cx).
Definition fetch_latest_block_served : Served :=
  served_sync PFetchLatestBlock chat_name_codec (pair_codec u64_codec reminder_codec)
    (one_variant_codec FlbChatNotFound) (λ _ req cx, pure_handler (fetch_latest_block req cx) cx).
Definition fetch_messages_served : Served :=
  served_sync PFetchMessages (pair_codec chat_name_codec cursor_codec)
    (pair_codec cursor_codec reminder_codec) (one_variant_codec FmChatNotFound)
    (λ _ req cx, pure_handler (fetch_messages_handler req cx) cx).
Definition subscribe_served : Served :=
  served_sync PSubscribe possible_topic_codec unit_codec infallible_codec
    (λ sc req cx, Done (subscribe_execute (origin sc) (call_id sc) req cx)).

Definition retry_set_vault : Served := retry set_vault_served proof_topic.
Definition retry_send_mail : Served := retry send_mail_served (λ req, TopicProfile req.1).
Definition retry_read_mail : Served := retry read_mail_served proof_topic.
Definition retry_fetch_profile : Served := retry fetch_profile_served TopicProfile.
Definition retry_chat_action : Served := retry perform_chat_action_served (λ req, chat_proof_topic req.1).

Definition internal_server : list Served := [
  create_profile_served; retry_set_vault; retry_send_mail; retry_read_mail; retry_fetch_profile;
  fetch_full_profile_served; create_chat_served; perform_chat_action_served;
  propose_msg_block_served; send_block_served; fetch_latest_block_served ].

Definition external_server : list Served := [
  subscribe_served;
  repl create_profile_served (λ req, proof_topic req.1); repl retry_set_vault proof_topic;
  repl retry_send_mail (λ req, TopicProfile req.1); repl retry_read_mail proof_topic;
  repl retry_fetch_profile TopicProfile; retry fetch_vault_served TopicProfile;
  repl create_chat_served (λ req, TopicChat req.1);
  repl retry_chat_action (λ req, chat_proof_topic req.1); fetch_messages_served ].
End router.

(** ** What every handler preserves *)

Section keeps.
Context {R St Addr : Type} `{RpcNet R, ClientStream St, Ed25519, Blake3, Signatures}.
Notation Cx := (Cx R St Addr).
Notation Served := (Served (R := R) (St := St) (Addr := Addr)).
Implicit Types (cx : Cx).

(** A relation between the states of a node that its calls and its client streams do not enter. *)
Context (K : Cx → Cx → Prop) `{!PreOrder K}.
Hypothesis quiet : ∀ cx cx', table cx' = table cx → storage cx' = storage cx → K cx cx'.
Hypothesis restoring : ∀ i response cx, K cx (restore_profile i response cx).

(** A handler takes the node along [K] whenever it does not panic. *)
Definition keeps {Req T E Hd} (h : Handler (R := R) (S := St) (Addr := Addr) Req T E RpcEvent Hd) : Prop :=
  (∀ sc req cx r cx', execute sc req cx = Done (r, cx') → K cx cx') ∧
  (∀ hd sc ev cx r cx', resume hd sc ev cx = Done (r, cx') → K cx cx').
Definition keeps_served (s : Served) : Prop := keeps (s_handler s).

Lemma sync_keeps {Req T E} (f : Scope → Req → Cx → outcome (result T E * Cx)) :
  (∀ sc req cx r cx', f sc req cx = Done (r, cx') → K cx cx') → keeps (sync_handler f).
Proof.
  intros Hf. split; [|by intros []]. simpl. intros sc req cx r cx' He.
  apply obind_done in He as ([r1 cx1] & He & [= _ <-]). by eapply Hf.
Qed.

(** Most operations answer with the state they leave. *)
Lemma sync_keeps_total {Req T E} (f : Scope → Req → Cx → result T E * Cx) :
  (∀ sc req cx, K cx (snd (f sc req cx))) → keeps (sync_handler (λ sc req cx, Done (f sc req cx))).
Proof. intros Hf. apply sync_keeps. intros sc req cx r cx' [= He]. specialize (Hf sc req cx). by rewrite He in Hf. Qed.

Lemma pure_keeps {Req T E} (f : Req → Cx → result T E) :
  keeps (sync_handler (λ _ req cx, pure_handler (f req cx) cx)).
Proof. apply sync_keeps. by intros sc req cx r cx' [= _ <-]. Qed.

Section adapters.
Context {Req T E Hd : Type} {inner : Handler (R := R) (S := St) (Addr := Addr) Req T E RpcEvent Hd}.
Context (prefix : u8) (creq : Codec Req) (cresp : Codec T) (cerr : Codec E) (topic : Req → PossibleTopic).

Lemma repl_inner_keeps request t (res : handler_result T E Hd) cx r cx' :
  repl_inner cresp request t res cx = Done (r, cx') → K cx cx'.
Proof.
  unfold repl_inner. destruct res as [[x|e]|h]; [|by intros [= _ <-]|by intros [= _ <-]].
  destruct (to_bytes _ _); [|done]. cbn [unwrap obind]. unfold new_replicating.
  destruct (request_all _ _ _) as [calls net]. destruct (repl_vec calls); [|done].
  intros [= _ <-]. by apply quiet.
Qed.

Lemma repl_keeps : keeps inner → keeps (repl_handler prefix creq cresp cerr topic).
Proof.
  intros [He Hr]. split.
  - intros sc req cx r cx'. simpl. unfold repl_execute.
    destruct (negb _); [by intros [= _ <-]|]. destruct (to_bytes _ _); [|done]. cbn [unwrap obind].
    intros ([res cx1] & Hx & Hy%repl_inner_keeps)%obind_done. etrans; [by eapply He|done].
  - intros [h t request|response ongoing matched] sc ev cx r cx'; simpl.
    + intros ([res cx1] & Hx & Hy%repl_inner_keeps)%obind_done. etrans; [by eapply Hr|done].
    + intros Hdd. assert (cx' = cx) as ->; [|done].
      repeat case_match; by simplify_eq.
Qed.

Lemma restore_keeps r response cx r' cx' :
  match r_topic r with
  | TopicProfile identity => Done (r, restore_profile identity response cx)
  | TopicChat _ => try! r := restore_chat response r in Done (r, cx)
  end = Done (r', cx') → K cx cx'.
Proof.
  destruct (r_topic r) as [i|name]; [intros [= _ <-]; apply restoring|].
  destruct (restore_chat response r); [|done]. by intros [= _ <-].
Qed.

Lemma retry_keeps : keeps inner → keeps (retry_handler creq topic).
Proof.
  intros [He Hr]. split.
  - intros sc req cx r cx'. simpl. unfold retry_execute. cbn zeta.
    destruct (negb _); [by intros [= _ <-]|].
    destruct (has_topic _ _).
    + intros ([res cx1] & Hx & [= _ <-])%obind_done. by eapply He.
    + destruct (fetch_packet _); [|done]. cbn [obind].
      destruct (request_all _ _ _) as [calls net]. destruct (repl_vec calls); [|done]. cbn [obind].
      destruct (to_bytes _ _); [|done]. intros [= _ <-]. by apply quiet.
  - intros [h t|r0] sc ev cx r cx'; simpl.
    + intros ([res cx1] & Hx & [= _ <-])%obind_done. by eapply Hr.
    + destruct ev as [peer call res|]; [|by intros [= _ <-]].
      destruct (find_and_remove _ _) as [[c pend]|]; [|by intros [= _ <-]].
      destruct res as [response|]; [|done]. cbn zeta. set (r1 := {| r_topic := _ |}).
      intros ([r2 cx2] & Hx & Hy)%obind_done.
      assert (K cx cx2) as Hk by exact (restore_keeps r1 response cx r2 cx2 Hx).
      case_decide; [|by injection Hy as _ <-].
      unfold restored in Hy. destruct (fst _); [|done]. cbn [unwrap obind] in Hy.
      apply obind_done in Hy as ([res cx3] & Hy & [= _ <-]). etrans; [done|by eapply He].
Qed.
End adapters.

Section nest.
Context {Req T E Hd : Type} {h : Handler (R := R) (S := St) (Addr := Addr) Req T E RpcEvent Hd}.
Context (creq : Codec Req) (cresp : Codec T) (cerr : Codec E) (Hk : keeps h).

Lemma nest_execute_keeps nest req bp cx res bp' nest' cx' :
  nest_execute creq cresp cerr nest req bp cx = Done (res, bp', nest', cx') →
  K cx cx' ∧ (kept nest → kept nest').
Proof.
  unfold nest_execute. destruct (fst _) as [decoded|]; [|by intros [= _ _ <- <-]].
  intros ([r cx1] & He & Hz)%obind_done. apply (proj1 Hk) in He.
  destruct r as [x|hd]; injection Hz as _ _ <- <-; (split; [done|]); [done|].
  intros Hn. apply Forall_app. split; [done|]. by repeat constructor.
Qed.

Lemma nest_find_keeps i nest ev bp cx found bp' nest' cx' :
  nest_find cresp cerr i nest ev bp cx = Done (found, bp', nest', cx') → K cx cx'.
Proof.
  revert i bp cx found bp' nest' cx'. induction nest as [|slot nest IH]; intros i bp cx found bp' nest' cx';
    simpl; [by intros [= _ _ _ <-]|].
  destruct slot as [read|]; [|done]. cbn [unwrap obind].
  intros ([r cx1] & He & Hz)%obind_done. apply (proj2 Hk) in He.
  destruct r as [x|hd]; [by injection Hz as _ _ _ <-|].
  apply obind_done in Hz as ([[[f b] n] cx2] & Hx%IH & [= _ _ _ <-]). by etrans.
Qed.

Lemma nest_try_complete_keeps nest ev bp cx res bp' nest' cx' :
  nest_try_complete cresp cerr nest ev bp cx = Done (res, bp', nest', cx') →
  K cx cx' ∧ (kept nest → kept nest').
Proof.
  unfold nest_try_complete. intros ([[[found b] n] cx1] & Hf & Hz)%obind_done.
  pose proof (nest_find_keeps _ _ _ _ _ _ _ _ _ Hf) as HK. split.
  - destruct found as [[j sc]|]; [|by injection Hz as _ _ _ <-].
    destruct (swap_remove j n) as [[x n1]|]; [|done]. by injection Hz as _ _ _ <-.
  - intros Hn. pose proof (nest_find_spec _ _ _ _ _ _ _ _ _ _ _ Hn Hf) as Hs.
    destruct found as [[j sc]|]; [|injection Hz as _ _ <- _; tauto].
    destruct Hs as (l1 & l2 & -> & -> & Hk' & _).
    destruct (swap_remove_perm (0 + length l1) (l1 ++ None :: l2) None) as (l & Hsw & Hl);
      [by rewrite lookup_app_r, Nat.sub_diag by (simpl; lia)|].
    rewrite Hsw in Hz. injection Hz as _ _ <- _.
    rewrite <-Permutation_middle in Hl. apply Permutation_cons_inv in Hl. unfold kept. by rewrite Hl.
Qed.
End nest.

(** ** Routers *)

Fixpoint kept_all (l : list Served) : nests l → Prop :=
  match l with [] => λ _, True | s :: l => λ n, kept (n.1) ∧ kept_all l (n.2) end.

Lemma nests_default_kept (l : list Served) : kept_all l (nests_default l).
Proof. induction l as [|s l IH]; [done|]. split; [constructor|done]. Qed.

Lemma router_execute_keeps (l : list Served) n req bp cx res bp' n' cx' :
  Forall keeps_served l → router_execute l n req bp cx = Done (res, bp', n', cx') →
  K cx cx' ∧ (kept_all l n → kept_all l n').
Proof.
  intros Hl. revert n bp cx res bp' n' cx'.
  induction Hl as [|s l Hs Hl IH]; simpl; intros n bp cx res bp' n' cx'; [by intros [= _ _ <- <-]|].
  case_decide.
  - intros ([[[r b] nest] cx1] & He & [= _ _ <- <-])%obind_done.
    apply nest_execute_keeps in He as [HK Hn]; [|done]. split; [done|]. simpl. tauto.
  - intros ([[[r b] rest] cx1] & He%IH & [= _ _ <- <-])%obind_done. simpl. tauto.
Qed.

Lemma router_try_complete_keeps (l : list Served) n ev bp cx res bp' n' cx' :
  Forall keeps_served l → router_try_complete l n ev bp cx = Done (res, bp', n', cx') →
  K cx cx' ∧ (kept_all l n → kept_all l n').
Proof.
  intros Hl. revert n bp cx res bp' n' cx'.
  induction Hl as [|s l Hs Hl IH]; simpl; intros n bp cx res bp' n' cx'; [by intros [= _ _ <- <-]|].
  intros ([[[r b] nest] cx1] & He & Hz)%obind_done.
  apply nest_try_complete_keeps in He as [HK Hn]; [|done].
  destruct r as [done|]; [injection Hz as _ _ <- <-; simpl; tauto|].
  apply obind_done in Hz as ([[[r b2] rest] cx2] & [HK2 Hn2]%IH & [= _ _ <- <-]).
  split; [by etrans|]. simpl. tauto.
Qed.

(** The operations of the node, and what each must preserve. *)
Record operations_keep : Prop := {
  keep_create_profile req cx : K cx (snd (create_profile req cx));
  keep_set_vault req cx : K cx (snd (set_vault req cx));
  keep_send_mail : keeps send_mail_handler;
  keep_read_mail o req cx : K cx (snd (read_mail_handler o req cx));
  keep_create_chat req cx : K cx (snd (create_chat req cx));
  keep_action req cx r cx' : perform_chat_action req cx = Done (r, cx') → K cx cx';
  keep_propose o req cx r cx' : propose_msg_block o req cx = Done (r, cx') → K cx cx';
  keep_send_block o req cx r cx' : send_block_handler o req cx = Done (r, cx') → K cx cx';
}.

Lemma subscribe_storage o call topic cx :
  table (snd (subscribe_execute o call topic cx)) = table cx ∧
  storage (snd (subscribe_execute o call topic cx)) = storage cx.
Proof. destruct o; [|done]. simpl. unfold subscribe. by destruct (find_stream _ _). Qed.

Lemma servers_keep :
  operations_keep → Forall keeps_served internal_server ∧ Forall keeps_served external_server.
Proof.
  intros [].
  assert (keeps_served create_profile_served) by (apply sync_keeps_total; auto).
  assert (keeps_served retry_set_vault) by (apply retry_keeps, sync_keeps_total; auto).
  assert (keeps_served retry_send_mail) by (apply retry_keeps; auto).
  assert (keeps_served retry_read_mail) by (apply retry_keeps, sync_keeps_total; auto).
  assert (keeps_served retry_fetch_profile) by apply retry_keeps, pure_keeps.
  assert (keeps_served create_chat_served) by (apply sync_keeps_total; auto).
  assert (keeps_served perform_chat_action_served) by (apply sync_keeps; eauto).
  assert (keeps_served retry_chat_action) by (by apply retry_keeps).
  assert (keeps_served subscribe_served).
  { apply sync_keeps_total. intros sc req cx. by apply quiet; apply subscribe_storage. }
  split; repeat apply Forall_cons_2; try apply Forall_nil_2; try done.
  all: try (by apply repl_keeps); try apply pure_keeps; try (by apply retry_keeps, pure_keeps).
  - apply sync_keeps; eauto.
  - apply sync_keeps; eauto.
Qed.
End keeps.

(** ** Dispatch *)

Section dispatch.
Context {R St Addr : Type} `{RpcNet R, ClientStream St, Ed25519, Blake3, Signatures}.
Notation Served := (Served (R := R) (St := St) (Addr := Addr)).
Implicit Types (l : list Served).

Definition prefixes l : list u8 := map s_prefix l.

Lemma router_unknown l n req bp cx :
  r_prefix req ∉ prefixes l → router_execute l n req bp cx = Done (Err UnknownPrefix, bp, n, cx).
Proof.
  induction l as [|s l IH]; intros Hn; [done|]. simpl in Hn |- *.
  apply not_elem_of_cons in Hn as [Hs Hn]. rewrite decide_False by congruence.
  rewrite IH by done. simpl. by destruct n.
Qed.

Lemma internal_prefixes : prefixes internal_server = [7; 8; 11; 10; 12; 13; 1; 2; 4; 5; 6].
Proof. reflexivity. Qed.

Lemma external_prefixes : prefixes external_server = [0; 7; 8; 11; 10; 12; 9; 1; 2; 3].
Proof. reflexivity. Qed.
End dispatch.
