(* ===== verification/Streaming.v ===== *)
(** The stream broker of [core/streaming/src/lib.rs]: it dials peers, asks their connection
    handlers for streams and hands the results out.

    Streams, upgrade errors and connection ids are libp2p's; wakers only schedule polls and are
    not part of the state. *)

From S2P Require Import Prelude Collections Server.

Notation ConnectionId := nat (only parsing).

Section streaming.
Context {Stream Error : Type}.

Inductive Event :=
  | IncomingStream (peer : PeerId) (s : Stream)
  | OutgoingStream (peer : PeerId) (r : result Stream Error).

Record Behaviour := {
  stream_requests : list (PeerId * ConnectionId);
  dial_requests : list (PeerId * option ConnectionId * nat);
  connected_peers : LinearMap.LinearMap PeerId ConnectionId;
  events : list Event;
}.
Definition behaviour_default : Behaviour :=
  {| stream_requests := []; dial_requests := []; connected_peers := LinearMap.default; events := [] |}.

Definition with_stream_requests (b : Behaviour) l : Behaviour :=
  {| stream_requests := l; dial_requests := dial_requests b; connected_peers := connected_peers b;
     events := events b |}.
Definition with_dial_requests (b : Behaviour) l : Behaviour :=
  {| stream_requests := stream_requests b; dial_requests := l; connected_peers := connected_peers b;
     events := events b |}.
Definition with_connected (b : Behaviour) m : Behaviour :=
  {| stream_requests := stream_requests b; dial_requests := dial_requests b; connected_peers := m;
     events := events b |}.
Definition with_events (b : Behaviour) l : Behaviour :=
  {| stream_requests := stream_requests b; dial_requests := dial_requests b;
     connected_peers := connected_peers b; events := l |}.

Definition is_peer (peer : PeerId) (d : PeerId * option ConnectionId * nat) : bool :=
  bool_decide (d.1.1 = peer).
Definition add_count (n : nat) (d : PeerId * option ConnectionId * nat) :
    PeerId * option ConnectionId * nat := (d.1.1, d.1.2, d.2 + n)%nat.

Definition is_resolving_stream_for (peer : PeerId) (b : Behaviour) : bool :=
  existsb (λ r, bool_decide (r.1 = peer)) (stream_requests b) || existsb (is_peer peer) (dial_requests b).

Definition create_stream (peer : PeerId) (b : Behaviour) : Behaviour :=
  match LinearMap.get peer (connected_peers b) with
  | Some id => with_stream_requests b (stream_requests b ++ [(peer, id)])
  | None =>
      match position (is_peer peer) (dial_requests b) with
      | Some i => with_dial_requests b (alter (add_count 1) i (dial_requests b))
      | None => with_dial_requests b (dial_requests b ++ [(peer, None, 0%nat)])
      end
  end.

(** [FromSwarm]; a dial can fail because its condition does not hold. *)
Inductive FromSwarm :=
  | DialFailure (condition_false : bool) (error : Error) (peer : option PeerId) (id : ConnectionId)
  | ConnectionClosed (peer : PeerId)
  | ConnectionEstablished (peer : PeerId) (id : ConnectionId)
  | OtherEvent.

Definition failed_dial (peer : option PeerId) (id : ConnectionId)
    (d : PeerId * option ConnectionId * nat) : bool :=
  bool_decide (d.1.2 = Some id ∨ Some d.1.1 = peer).

Definition on_swarm_event (ev : FromSwarm) (b : Behaviour) : Behaviour :=
  match ev with
  | DialFailure condition_false error peer_id id =>
      match find (failed_dial peer_id id) (dial_requests b) with
      | Some (peer, _, count) =>
          if condition_false then b
          else with_events b (events b ++ replicate (S count) (OutgoingStream peer (Err error)))
      | None => b
      end
  | ConnectionClosed peer =>
      let b := with_connected b (snd (LinearMap.remove peer (connected_peers b))) in
      let count := length (filter (λ r, r.1 = peer) (stream_requests b)) in
      let b := with_stream_requests b (filter (λ r, r.1 ≠ peer) (stream_requests b)) in
      match count with
      | O => b
      | S additional =>
          match position (is_peer peer) (dial_requests b) with
          | Some i => with_dial_requests b (alter (add_count additional) i (dial_requests b))
          | None => with_dial_requests b (dial_requests b ++ [(peer, None, additional)])
          end
      end
  | ConnectionEstablished peer id =>
      let b :=
        match find_and_remove (is_peer peer) (dial_requests b) with
        | Some ((_, _, count), dials) =>
            with_stream_requests (with_dial_requests b dials)
              (stream_requests b ++ replicate (S count) (peer, id))
        | None => b
        end in
      with_connected b (snd (LinearMap.insert peer id (connected_peers b)))
  | OtherEvent => b
  end.

(* Ok: the other side opened the stream, Err: the result of our request *)
Definition on_connection_handler_event (peer : PeerId) (ev : result Stream (result Stream Error))
    (b : Behaviour) : Behaviour :=
  with_events b (events b ++
    [match ev with Ok s => IncomingStream peer s | Err r => OutgoingStream peer r end]).

Inductive ToSwarm (Out : Type) :=
  | Dial (peer : PeerId) (id : ConnectionId)
  | NotifyHandler (peer : PeerId) (id : ConnectionId)
  | GenerateEvent (ev : Out).
Arguments Dial {Out} _ _.
Arguments NotifyHandler {Out} _ _.
Arguments GenerateEvent {Out} _.

(* dial_requests.retain: requests of peers that got connected become stream requests *)
Fixpoint retain_dials (connected : LinearMap.LinearMap PeerId ConnectionId)
    (dials : list (PeerId * option ConnectionId * nat)) :
    list (PeerId * ConnectionId) * list (PeerId * option ConnectionId * nat) :=
  match dials with
  | [] => ([], [])
  | (p, c, count) :: dials =>
      let (requests, kept) := retain_dials connected dials in
      match LinearMap.get p connected with
      | Some id => (replicate (S count) (p, id) ++ requests, kept)
      | None => (requests, (p, c, count) :: kept)
      end
  end.

Definition not_dialed (d : PeerId * option ConnectionId * nat) : bool := bool_decide (d.1.2 = None).

(* Vec::pop *)
Definition pop_last {A} (l : list A) : option (A * list A) :=
  match last l with Some x => Some (x, take (length l - 1) l) | None => None end.

(* [fresh]: the connection id of the dial options this poll may build *)
Definition poll (fresh : ConnectionId) (b : Behaviour) : option (ToSwarm Event) * Behaviour :=
  let (requests, dials) := retain_dials (connected_peers b) (dial_requests b) in
  let b := with_dial_requests (with_stream_requests b (stream_requests b ++ requests)) dials in
  match position not_dialed (dial_requests b) with
  | Some i =>
      match dial_requests b !! i with
      | Some (peer, _, count) =>
          (Some (Dial peer fresh),
           with_dial_requests b (<[i:=(peer, Some fresh, count)]> (dial_requests b)))
      | None => (None, b)
      end
  | None =>
      match pop_last (stream_requests b) with
      | Some ((peer, id), l) => (Some (NotifyHandler peer id), with_stream_requests b l)
      | None =>
          match pop_last (events b) with
          | Some (ev, l) => (Some (GenerateEvent ev), with_events b l)
          | None => (None, b)
          end
      end
  end.

(** ** The connection handler *)

Record Handler := { requested : nat; ready : list (result Stream (result Stream Error)) }.
Definition handler_new : Handler := {| requested := 0; ready := [] |}.

Inductive HandlerEvent :=
  | NotifyBehaviour (r : result Stream (result Stream Error))
  | OutboundSubstreamRequest.

Definition handler_poll (h : Handler) : option HandlerEvent * Handler :=
  match pop_last (ready h) with
  | Some (s, l) => (Some (NotifyBehaviour s), {| requested := requested h; ready := l |})
  | None =>
      match requested h with
      | S n => (Some OutboundSubstreamRequest, {| requested := n; ready := ready h |})
      | O => (None, h)
      end
  end.

Definition on_behaviour_event (h : Handler) : Handler :=
  {| requested := S (requested h); ready := ready h |}.

Inductive ConnectionEvent :=
  | FullyNegotiatedInbound (s : Stream)
  | FullyNegotiatedOutbound (s : Stream)
  | DialUpgradeError (e : Error)
  | OtherConnectionEvent.

Definition on_connection_event (ev : ConnectionEvent) (h : Handler) : Handler :=
  match ev with
  | FullyNegotiatedInbound s => {| requested := requested h; ready := ready h ++ [Ok s] |}
  | FullyNegotiatedOutbound s => {| requested := requested h; ready := ready h ++ [Err (Ok s)] |}
  | DialUpgradeError e => {| requested := requested h; ready := ready h ++ [Err (Err e)] |}
  | OtherConnectionEvent => h
  end.
End streaming.
Arguments Behaviour : clear implicits.
Arguments Event : clear implicits.
Arguments FromSwarm : clear implicits.
Arguments ToSwarm : clear implicits.
Arguments Handler : clear implicits.
Arguments Dial {Out} _ _.
Arguments NotifyHandler {Out} _ _.
Arguments GenerateEvent {Out} _.

(** ** Every request is kept until it is handed to a connection *)

Section conservation.
Context {Stream Error : Type}.
Notation Behaviour := (Behaviour Stream Error).
Implicit Types (b : Behaviour) (p q : PeerId) (d : PeerId * option ConnectionId * nat).

Definition asks_stream q (r : PeerId * ConnectionId) : nat := if decide (r.1 = q) then 1 else 0.
Definition asks_dial q d : nat := if decide (d.1.1 = q) then S d.2 else 0.

(** The streams to a peer that are still to be opened. *)
Definition asks q b : nat :=
  (list_sum (map (asks_stream q) (stream_requests b)) + list_sum (map (asks_dial q) (dial_requests b)))%nat.

Definition connected b p : Prop := is_Some (LinearMap.get p (connected_peers b)).

(** One dial request per peer, only for peers that are not connected; stream requests are only
    kept for connected peers. *)
Definition behaviour_ok b : Prop :=
  LinearMapFacts.wf (connected_peers b) ∧ NoDup (map (λ d, d.1.1) (dial_requests b)) ∧
  Forall (λ d, ¬ connected b d.1.1) (dial_requests b) ∧
  Forall (λ r, connected b r.1) (stream_requests b).

Lemma asks_stream_repeat q p id n :
  list_sum (map (asks_stream q) (replicate n (p, id))) = if decide (p = q) then n else 0%nat.
Proof.
  induction n as [|n IH]; [by case_decide|]. simpl. rewrite IH. unfold asks_stream. simpl. by case_decide.
Qed.

Lemma sum_app (f : PeerId * ConnectionId → nat) l l' :
  list_sum (map f (l ++ l')) = (list_sum (map f l) + list_sum (map f l'))%nat.
Proof. by rewrite map_app, list_sum_app. Qed.

Lemma dial_sum_perm q (l l' : list (PeerId * option ConnectionId * nat)) :
  l ≡ₚ l' → list_sum (map (asks_dial q) l) = list_sum (map (asks_dial q) l').
Proof. induction 1; simpl; lia. Qed.

Lemma dial_sum_alter q i n (l : list (PeerId * option ConnectionId * nat)) d :
  l !! i = Some d →
  list_sum (map (asks_dial q) (alter (add_count n) i l)) =
    (list_sum (map (asks_dial q) l) + if decide (d.1.1 = q) then n else 0)%nat.
Proof.
  revert i. induction l as [|d' l IH]; intros [|i] Hi; simplify_eq/=.
  - unfold asks_dial at 1 3. simpl. case_decide; lia.
  - change (list_fmap _ _ ?f ?l) with (map f l). rewrite (IH i Hi). lia.
Qed.

Lemma alter_peers n i (l : list (PeerId * option ConnectionId * nat)) :
  map (λ d, d.1.1) (alter (add_count n) i l) = map (λ d, d.1.1) l.
Proof. revert i. induction l as [|d l IH]; intros [|i]; simpl; [done..|]. f_equal. apply IH. Qed.

Lemma Forall_peers (P : PeerId → Prop) (l : list (PeerId * option ConnectionId * nat)) :
  Forall (λ d, P d.1.1) l ↔ Forall P (map (λ d, d.1.1) l).
Proof. by rewrite Forall_map. Qed.

Lemma position_peer p (l : list (PeerId * option ConnectionId * nat)) :
  match position (is_peer p) l with
  | Some i => ∃ d, l !! i = Some d ∧ d.1.1 = p
  | None => p ∉ map (λ d, d.1.1) l
  end.
Proof.
  destruct (position (is_peer p) l) as [i|] eqn:Hp.
  - apply position_some in Hp as (d & Hi & Hd%bool_decide_eq_true). by exists d.
  - rewrite position_none, Forall_forall in Hp. intros (d & -> & Hd)%list_elem_of_fmap.
    specialize (Hp d Hd). unfold is_peer in Hp. by rewrite bool_decide_true in Hp.
Qed.

Lemma not_asked_stream q b : behaviour_ok b → ¬ connected b q →
  list_sum (map (asks_stream q) (stream_requests b)) = 0%nat.
Proof.
  intros (_ & _ & _ & Hs) Hn. induction Hs as [|r l Hr _ IH]; [done|]. simpl. rewrite IH.
  unfold asks_stream. rewrite decide_False; [done|]. by intros <-.
Qed.

Lemma create_stream_ok p b :
  behaviour_ok b → behaviour_ok (create_stream p b) ∧
  ∀ q, asks q (create_stream p b) = (asks q b + if decide (p = q) then 1 else 0)%nat.
Proof.
  intros (Hw & Hnd & Hd & Hs). unfold create_stream, asks.
  destruct (LinearMap.get p (connected_peers b)) as [id|] eqn:Hg.
  - split.
    + split; [done|]. split; [done|]. split; [done|]. simpl. apply Forall_app. split; [done|].
      constructor; [by exists id|done].
    + intros q. simpl. rewrite sum_app. simpl. unfold asks_stream at 2. simpl. case_decide; lia.
  - pose proof (position_peer p (dial_requests b)) as Hp.
    destruct (position (is_peer p) (dial_requests b)) as [i|].
    + destruct Hp as (d & Hi & <-). split.
      * split; [done|]. simpl. rewrite alter_peers. split; [done|].
        split; [|done]. apply (Forall_peers (λ p, ¬ connected b p)). rewrite alter_peers.
        by apply (Forall_peers (λ p, ¬ connected b p)).
      * intros q. simpl. rewrite (dial_sum_alter _ _ _ _ d) by done. case_decide; lia.
    + split.
      * split; [done|]. simpl. rewrite map_app. split.
        { apply NoDup_app. split; [done|]. split; [|apply NoDup_singleton].
          intros x Hx ->%list_elem_of_singleton. done. }
        split; [|done]. apply Forall_app. split; [done|]. constructor; [|done].
        intros [id Hid]. simpl in Hid. unfold connected in *. simpl in *. congruence.
      * intros q. simpl. rewrite map_app, list_sum_app. simpl. unfold asks_dial at 2. simpl.
        case_decide; lia.
Qed.

Lemma get_insert_connected p id b q :
  LinearMapFacts.wf (connected_peers b) →
  LinearMapFacts.wf (snd (LinearMap.insert p id (connected_peers b))) ∧
  (is_Some (LinearMap.get q (snd (LinearMap.insert p id (connected_peers b)))) ↔ q = p ∨ connected b q).
Proof.
  intros Hw. pose proof (LinearMapFacts.insert_to_map p id (connected_peers b) Hw) as Hi.
  destruct (LinearMap.insert p id (connected_peers b)) as [o m]. destruct Hi as (_ & Hm & Hwf). simpl in Hm.
  split; [done|]. unfold connected. simpl. rewrite !LinearMapFacts.get_to_map, Hm.
  rewrite lookup_insert_is_Some. destruct (decide (p = q)) as [->|Hne]; [by split; left|].
  split; [intros [?|[_ ?]]|intros [->|?]]; auto; done.
Qed.

Lemma get_remove_connected p b q :
  LinearMapFacts.wf (connected_peers b) →
  LinearMapFacts.wf (snd (LinearMap.remove p (connected_peers b))) ∧
  (is_Some (LinearMap.get q (snd (LinearMap.remove p (connected_peers b)))) ↔ q ≠ p ∧ connected b q).
Proof.
  intros Hw. pose proof (LinearMapFacts.remove_to_map p (connected_peers b) Hw) as Hi.
  destruct (LinearMap.remove p (connected_peers b)) as [o m]. destruct Hi as (_ & Hm & Hwf). simpl in Hm.
  split; [done|]. unfold connected. simpl. rewrite !LinearMapFacts.get_to_map, Hm.
  rewrite lookup_delete_is_Some. by split; intros [? ?].
Qed.

Lemma filter_asks p q l :
  (list_sum (map (asks_stream q) (filter (λ r, r.1 ≠ p) l)) +
   (if decide (p = q) then length (filter (λ r, r.1 = p) l) else 0))%nat =
  list_sum (map (asks_stream q) l).
Proof.
  induction l as [|r l IH]; [by case_decide|]. rewrite !filter_cons.
  destruct (decide (r.1 = p)) as [<-|Hne].
  - rewrite decide_False by (intros Hn; by apply Hn). simpl. rewrite <-IH.
    assert (asks_stream q r = if decide (r.1 = q) then 1 else 0)%nat as -> by done.
    destruct (decide (r.1 = q)); simpl; lia.
  - rewrite decide_True by done. simpl. rewrite <-IH. lia.
Qed.

Lemma closed_ok p b :
  behaviour_ok b → behaviour_ok (on_swarm_event (ConnectionClosed p) b) ∧
  ∀ q, asks q (on_swarm_event (ConnectionClosed p) b) = asks q b.
Proof.
  intros Hok. pose proof Hok as (Hw & Hnd & Hd & Hs). simpl.
  destruct (get_remove_connected p b p Hw) as [Hw' _].
  set (m := snd (LinearMap.remove p (connected_peers b))) in *.
  set (n := length (filter (λ r, r.1 = p) (stream_requests b))).
  assert (Forall (λ r, is_Some (LinearMap.get r.1 m)) (filter (λ r, r.1 ≠ p) (stream_requests b))) as Hs'.
  { rewrite !Forall_forall in *. intros r [Hne Hr]%list_elem_of_filter.
    apply (get_remove_connected p b); auto. }
  assert (∀ x, ¬ connected b x → ¬ is_Some (LinearMap.get x m)) as Hmono.
  { intros x Hx Hx'. apply (get_remove_connected p b) in Hx' as [_ Hx']; [done|done]. }
  assert (Forall (λ d, ¬ is_Some (LinearMap.get d.1.1 m)) (dial_requests b)) as Hd'
    by (eapply Forall_impl; [exact Hd|]; auto).
  pose proof (λ q, filter_asks p q (stream_requests b)) as Hf. fold n in Hf.
  destruct n as [|extra] eqn:Hn.
  - split; [done|]. intros q. unfold asks. simpl. rewrite <-(Hf q). by case_decide; rewrite Nat.add_0_r.
  - pose proof (position_peer p (dial_requests b)) as Hp.
    destruct (position (is_peer p) (dial_requests b)) as [i|].
    { exfalso. destruct Hp as (d & Hi & <-).
      rewrite Forall_forall in Hd. apply (Hd d); [by eapply list_elem_of_lookup_2|].
      rewrite Forall_forall in Hs.
      destruct (filter (λ r, r.1 = d.1.1) (stream_requests b)) as [|r l] eqn:Hfil; [done|].
      assert (r ∈ filter (λ r, r.1 = d.1.1) (stream_requests b)) as [<- Hr]%list_elem_of_filter
        by (rewrite Hfil; constructor). by apply Hs. }
    split.
    + split; [done|]. simpl. rewrite map_app. split.
      { apply NoDup_app. split; [done|]. split; [|apply NoDup_singleton].
        intros x Hx ->%list_elem_of_singleton. done. }
      split; [|done]. apply Forall_app. split; [done|]. constructor; [|done]. simpl.
      intros Hx. by apply (get_remove_connected p b) in Hx as [? _].
    + intros q. unfold asks. simpl. rewrite map_app, list_sum_app. simpl. rewrite <-(Hf q).
      unfold asks_dial at 2. simpl. case_decide; lia.
Qed.

Lemma established_ok p id b :
  behaviour_ok b → behaviour_ok (on_swarm_event (ConnectionEstablished p id) b) ∧
  ∀ q, asks q (on_swarm_event (ConnectionEstablished p id) b) = asks q b.
Proof.
  intros (Hw & Hnd & Hd & Hs). simpl. destruct (get_insert_connected p id b p Hw) as [Hw' _].
  assert (∀ x, connected b x → is_Some (LinearMap.get x (snd (LinearMap.insert p id (connected_peers b))))) as Hmono.
  { intros x Hx. apply (get_insert_connected p id b); auto. }
  assert (∀ l, NoDup (map (λ d, d.1.1) l) → p ∉ map (λ d, d.1.1) l → Forall (λ d, ¬ connected b d.1.1) l →
    Forall (λ d, ¬ is_Some (LinearMap.get d.1.1 (snd (LinearMap.insert p id (connected_peers b))))) l) as Hout.
  { intros l _ Hni Hl. rewrite Forall_forall in *. intros d Hin Hx.
    apply (get_insert_connected p id b) in Hx as [Hx|Hx]; [|by apply (Hl d)|done].
    apply Hni. rewrite <-Hx. by apply (list_elem_of_fmap_2 (λ d, d.1.1)). }
  pose proof (position_peer p (dial_requests b)) as Hp. unfold find_and_remove.
  destruct (position (is_peer p) (dial_requests b)) as [i|].
  - destruct Hp as (((p' & c) & count) & Hi & Hpeer). simpl in Hpeer. subst p'.
    destruct (swap_remove_perm i _ _ Hi) as (dials & -> & Hperm).
    pose proof Hnd as Hnd'. rewrite <-Hperm in Hnd'. apply NoDup_cons in Hnd' as [Hni Hnd'].
    rewrite <-Hperm in Hd. apply Forall_cons in Hd as [_ Hd].
    split; [split; [done|]; split; [done|]; split; [by apply Hout|]|].
    + simpl. apply Forall_app. split; [eapply Forall_impl; [exact Hs|intros r; apply Hmono]|].
      apply Forall_cons. split; [|apply Forall_replicate]; apply (get_insert_connected p id b); auto.
    + intros q. unfold asks. simpl. rewrite sum_app. simpl. rewrite asks_stream_repeat.
      rewrite <-(dial_sum_perm q _ _ Hperm). simpl. unfold asks_dial at 2. unfold asks_stream at 2. simpl.
      case_decide; lia.
  - split; [|done]. split; [done|]. split; [done|]. split; [by apply Hout|].
    eapply Forall_impl; [exact Hs|intros r; apply Hmono].
Qed.

Lemma retain_dials_none b l :
  Forall (λ d, ¬ connected b d.1.1) l → retain_dials (connected_peers b) l = ([], l).
Proof.
  induction 1 as [|[[p c] n] l Hd _ IH]; [done|]. simpl. rewrite IH.
  destruct (LinearMap.get p (connected_peers b)) eqn:Hg; [|done]. exfalso. apply Hd. by eexists.
Qed.

Lemma pop_last_some {A} (l : list A) x l' : pop_last l = Some (x, l') → l = l' ++ [x].
Proof.
  unfold pop_last. destruct (last l) as [y|] eqn:Hl; [|done]. intros [= <- <-].
  apply last_Some in Hl as [l0 ->]. rewrite length_app. simpl.
  by rewrite take_app_n by (simpl; lia).
Qed.

Lemma poll_ok fresh b :
  behaviour_ok b →
  let (r, b') := poll fresh b in
  behaviour_ok b' ∧ ∀ q, asks q b =
    (asks q b' + match r with Some (NotifyHandler p _) => if decide (p = q) then 1 else 0 | _ => 0 end)%nat.
Proof.
  intros Hok. pose proof Hok as (Hw & Hnd & Hd & Hs). unfold poll. rewrite retain_dials_none by done.
  rewrite app_nil_r.
  replace (with_dial_requests (with_stream_requests b (stream_requests b)) (dial_requests b)) with b by by destruct b.
  destruct (position not_dialed (dial_requests b)) as [i|] eqn:Hp.
  - apply position_some in Hp as (((p & c) & n) & Hi & _). rewrite Hi.
    assert (<[i:=(p, Some fresh, n)]> (dial_requests b) = alter (λ d, (d.1.1, Some fresh, d.2)) i (dial_requests b)) as Hins.
    { apply list_eq. intros j. destruct (decide (i = j)) as [<-|Hne].
      - rewrite list_lookup_insert_eq by (by eapply lookup_lt_Some). by rewrite list_lookup_alter_eq, Hi.
      - by rewrite list_lookup_insert_ne, list_lookup_alter_ne. }
    rewrite Hins.
    assert (map (λ d, d.1.1) (alter (λ d, (d.1.1, Some fresh, d.2)) i (dial_requests b)) =
            map (λ d, d.1.1) (dial_requests b)) as Hpeers.
    { clear. revert i. induction (dial_requests b) as [|d l IH]; intros [|i]; simpl; [done..|]. f_equal. apply IH. }
    split.
    + split; [done|]. simpl. rewrite Hpeers. split; [done|]. split; [|done].
      apply (Forall_peers (λ p, ¬ connected b p)). rewrite Hpeers. by apply (Forall_peers (λ p, ¬ connected b p)).
    + intros q. unfold asks. simpl. rewrite Nat.add_0_r. f_equal.
      clear. revert i. induction (dial_requests b) as [|d l IH]; intros [|i]; [done..|].
      change (asks_dial q d + list_sum (map (asks_dial q) l) =
        asks_dial q d + list_sum (map (asks_dial q) (alter (λ d, (d.1.1, Some fresh, d.2)) i l)))%nat.
      by rewrite <-IH.
  - destruct (pop_last (stream_requests b)) as [[[p id] l]|] eqn:Hpop.
    + apply pop_last_some in Hpop. rewrite Hpop in Hs. apply Forall_app in Hs as [Hs _].
      split; [by split|]. intros q. unfold asks. rewrite Hpop. simpl. rewrite sum_app. simpl.
      unfold asks_stream at 2. simpl. lia.
    + destruct (pop_last (events b)) as [[ev l]|]; (split; [done|]); intros q; by rewrite Nat.add_0_r.
Qed.
End conservation.

(** ** Properties *)

(** C28: No stream that was asked for is lost or opened twice inside the broker. From a
    well-formed state, asking for a stream adds one to what is owed to that peer; connections
    coming up and going down, failed dials and ignored events change nothing of what is owed;
    and a poll reduces it by one exactly when it tells a connection handler to open a stream to
    that peer. *)
Theorem stream_requests_conserved {Stream Error} (b : Behaviour Stream Error) :
  behaviour_ok b →
  (∀ p, behaviour_ok (create_stream p b) ∧
    ∀ q, asks q (create_stream p b) = (asks q b + if decide (p = q) then 1 else 0)%nat) ∧
  (∀ ev, behaviour_ok (on_swarm_event ev b) ∧ ∀ q, asks q (on_swarm_event ev b) = asks q b) ∧
  (∀ fresh, let (r, b') := poll fresh b in
    behaviour_ok b' ∧ ∀ q, asks q b =
      (asks q b' + match r with Some (NotifyHandler p _) => if decide (p = q) then 1 else 0 | _ => 0 end)%nat).
Proof.
  intros Hok. split; [intros p; by apply create_stream_ok|]. split; [|intros fresh; by apply poll_ok].
  intros [cond err peer id|p|p id|]; [|by apply closed_ok|by apply established_ok|done].
  simpl. destruct (find _ _) as [[[p c] n]|]; [|done]. by destruct cond.
Qed.

Lemma stream_requests_conserved_witness :
  let b : Behaviour unit unit := create_stream [7] (create_stream [7] behaviour_default) in
  behaviour_ok b ∧ asks [7] b = 2%nat.
Proof.
  intros b. assert (behaviour_ok (Stream := unit) (Error := unit) behaviour_default) as H0
    by (split; [constructor|]; split; [constructor|]; split; constructor).
  destruct (proj1 (stream_requests_conserved behaviour_default H0) [7]) as [H1 _].
  destruct (proj1 (stream_requests_conserved (create_stream [7] behaviour_default) H1) [7]) as [H2 H3].
  split; [exact H2|exact (eq_trans (H3 [7]) eq_refl)].
Defined.
