(* ===== verification/Rpc.v ===== *)
(** Remote calls, [core/rpc/src/lib.rs]: requests and responses as packets on one stream per
    peer, queued while the stream broker opens it. The behaviour implements the interface
    [RpcNet] the request handlers are written against.

    A stream's transport is libp2p's; time stamps are not kept, as nothing is decided by them. *)

From S2P Require Import Prelude Codec Streams Collections ChatSpec Server Streaming.

Section rpc.
Context {Inner Error : Type} `{AsyncRead Inner, AsyncWrite Inner}.
(** The memory of a new packet writer, [Config::buffer_size] bytes, and the errors made of I/O
    errors ([StreamUpgradeError::Io]) and of a write that does not fit. *)
Context (new_memory : bytes) (io : io_error → Error) (out_of_memory : Error).

(** [inner] is the transport until it fails or is closed. *)
Record Stream := { writer : PacketWriter; reader : PacketReader; inner : option Inner; peer : PeerId }.

Definition stream_new (peer : PeerId) (stream : Inner) : Stream :=
  {| writer := packet_writer_new new_memory; reader := packet_reader_default;
     inner := Some stream; peer := peer |}.

(* the packet (call, is_request, Reminder(payload)) *)
Definition packet_codec : Codec (CallId * (bool * bytes)) :=
  pair_codec usize_codec (pair_codec bool_codec reminder_codec).

Definition stream_write (call : CallId) (payload : bytes) (is_request : bool) (s : Stream) :
    option unit * Stream :=
  let (r, w) := write_packet packet_codec (call, (is_request, payload)) (writer s) in
  (r, {| writer := w; reader := reader s; inner := inner s; peer := peer s |}).

(** [Event]; a failed call carries the reason. *)
Inductive Event :=
  | Response (peer : PeerId) (call : CallId) (r : result bytes Error)
  | Request (peer : PeerId) (call : CallId) (body : bytes).

(** [next_call] is the counter behind [CallId::new]. *)
Record Behaviour := {
  streams : list Stream;
  pending_requests : list (PeerId * CallId * bytes);
  ongoing_requests : list (CallId * PeerId);
  pending_repsonses : list (PeerId * CallId * bytes);
  events : list Event;
  streaming : Streaming.Behaviour Inner Error;
  next_call : nat;
}.
Definition behaviour_default : Behaviour :=
  {| streams := []; pending_requests := []; ongoing_requests := []; pending_repsonses := [];
     events := []; streaming := Streaming.behaviour_default; next_call := 0 |}.

Definition with_streams b l : Behaviour :=
  {| streams := l; pending_requests := pending_requests b; ongoing_requests := ongoing_requests b;
     pending_repsonses := pending_repsonses b; events := events b; streaming := streaming b;
     next_call := next_call b |}.
Definition with_pending b l : Behaviour :=
  {| streams := streams b; pending_requests := l; ongoing_requests := ongoing_requests b;
     pending_repsonses := pending_repsonses b; events := events b; streaming := streaming b;
     next_call := next_call b |}.
Definition with_ongoing b l : Behaviour :=
  {| streams := streams b; pending_requests := pending_requests b; ongoing_requests := l;
     pending_repsonses := pending_repsonses b; events := events b; streaming := streaming b;
     next_call := next_call b |}.
Definition with_responses b l : Behaviour :=
  {| streams := streams b; pending_requests := pending_requests b; ongoing_requests := ongoing_requests b;
     pending_repsonses := l; events := events b; streaming := streaming b; next_call := next_call b |}.
Definition with_events b l : Behaviour :=
  {| streams := streams b; pending_requests := pending_requests b; ongoing_requests := ongoing_requests b;
     pending_repsonses := pending_repsonses b; events := l; streaming := streaming b;
     next_call := next_call b |}.
Definition with_streaming b s : Behaviour :=
  {| streams := streams b; pending_requests := pending_requests b; ongoing_requests := ongoing_requests b;
     pending_repsonses := pending_repsonses b; events := events b; streaming := s;
     next_call := next_call b |}.
Definition new_call b : CallId * Behaviour :=
  (next_call b,
   {| streams := streams b; pending_requests := pending_requests b; ongoing_requests := ongoing_requests b;
      pending_repsonses := pending_repsonses b; events := events b; streaming := streaming b;
      next_call := S (next_call b) |}).

Definition find_stream (p : PeerId) b : option nat :=
  position (λ s, bool_decide (peer s = p)) (streams b).

(* the write on the stream of a peer that has one *)
Definition write_at (i : nat) (call : CallId) (payload : bytes) (is_request : bool) b :
    option unit * Behaviour :=
  match streams b !! i with
  | Some s =>
      let (r, s) := stream_write call payload is_request s in
      (r, with_streams b (<[i:=s]> (streams b)))
  | None => (None, b)
  end.

Definition request (p : PeerId) (packet : bytes) b : option CallId * Behaviour :=
  let (call, b) := new_call b in
  match find_stream p b with
  | Some i =>
      let b := with_ongoing b (ongoing_requests b ++ [(call, p)]) in
      let (r, b) := write_at i call packet true b in
      (match r with Some _ => Some call | None => None end, b)
  | None =>
      if is_resolving_stream_for p (streaming b) then (Some call, b)
      else
        let b := with_streaming b (create_stream p (streaming b)) in
        (Some call, with_pending b (pending_requests b ++ [(p, call, packet)]))
  end.

Definition respond (p : PeerId) (call : CallId) (payload : bytes) b : Behaviour :=
  match find_stream p b with
  | Some i => snd (write_at i call payload false b)
  | None =>
      if is_resolving_stream_for p (streaming b) then b
      else
        let b := with_streaming b (create_stream p (streaming b)) in
        with_responses b (pending_repsonses b ++ [(p, call, payload)])
  end.

(** The handlers' view of the behaviour. *)
#[global] Instance rpc_net : RpcNet Behaviour :=
  {| rpc_request := request; rpc_respond := respond |}.

Definition clean_failed_requests (failed : PeerId) (error : Error) b : Behaviour :=
  let b := with_responses b (filter (λ r, r.1.1 ≠ failed) (pending_repsonses b)) in
  let ongoing := filter (λ r, r.2 = failed) (ongoing_requests b) in
  let b := with_ongoing b (filter (λ r, r.2 ≠ failed) (ongoing_requests b)) in
  let pending := filter (λ r, r.1.1 = failed) (pending_requests b) in
  let b := with_pending b (filter (λ r, r.1.1 ≠ failed) (pending_requests b)) in
  with_events b (events b ++
    map (λ cp, Response cp.2 cp.1 (Err error)) (ongoing ++ map (λ r, (r.1.2, r.1.1)) pending)).

(** ** Polling *)

(** What a stream yields: a packet (call, payload, is_request) or the error it ends with. *)
Definition StreamItem : Type := result (CallId * bytes * bool) Error.

(* Stream::poll_next; Ready(None) is the end of the stream *)
Definition stream_poll_next (s : Stream) : Poll (option StreamItem) * Stream :=
  match inner s with
  | None => (Ready None, s)
  | Some stream =>
      let '(f, w, stream) := writer_poll (writer s) stream in
      match f with
      | Ready (Err e) =>
          (Ready (Some (Err (io e))), {| writer := w; reader := reader s; inner := None; peer := peer s |})
      | _ =>
          let '(read, rd, stream) := poll_packet (reader s) stream in
          let s := {| writer := w; reader := rd; inner := Some stream; peer := peer s |} in
          let closed := {| writer := w; reader := rd; inner := None; peer := peer s |} in
          match read with
          | Pending => (Pending, s)
          | Ready (Err e) => (Ready (Some (Err (io e))), closed)
          | Ready (Ok bs) =>
              match fst (decode packet_codec bs) with
              | Some (call, (is_request, payload)) => (Ready (Some (Ok (call, payload, is_request))), s)
              | None => (Ready (Some (Err (io ErrOther))), closed)
              end
          end
      end
  end.

(* one item of self.streams in poll: the event to generate, if any *)
Definition on_stream_item (pid : PeerId) (item : StreamItem) b : option Event * Behaviour :=
  match item with
  | Ok (cid, content, false) =>
      match find_and_remove (λ r, bool_decide (r.1 = cid)) (ongoing_requests b) with
      | None => (None, b)
      | Some ((_, p), ongoing) =>
          let b := with_ongoing b ongoing in
          if decide (pid ≠ p) then (None, b) else (Some (Response pid cid (Ok content)), b)
      end
  | Ok (cid, content, true) => (Some (Request pid cid content), b)
  | Err e => (None, clean_failed_requests pid e b)
  end.

(* while let Ready(Some(..)) = self.streams.poll_next: [schedule] is the order SelectAll polls its
   streams in, which it does not promise; an ended stream is dropped *)
Fixpoint poll_streams (schedule : list nat) b : option Event * Behaviour :=
  match schedule with
  | [] => (None, b)
  | i :: schedule =>
      match streams b !! i with
      | None => poll_streams schedule b
      | Some s =>
          let (item, s) := stream_poll_next s in
          match item with
          | Pending => poll_streams schedule (with_streams b (<[i:=s]> (streams b)))
          | Ready None => poll_streams schedule (with_streams b (delete i (streams b)))
          | Ready (Some item) =>
              let (ev, b) := on_stream_item (peer s) item (with_streams b (<[i:=s]> (streams b))) in
              match ev with
              | Some ev => (Some ev, b)
              | None => poll_streams schedule b
              end
          end
      end
  end.

(* the requests that waited for the stream; what does not fit fails *)
Fixpoint send_requests (l : list (PeerId * CallId * bytes)) (s : Stream) b :
    Stream * Behaviour :=
  match l with
  | [] => (s, b)
  | (p, call, payload) :: l =>
      let (r, s) := stream_write call payload true s in
      let b := match r with
        | Some _ => with_ongoing b (ongoing_requests b ++ [(call, p)])
        | None => with_events b (events b ++ [Response p call (Err out_of_memory)])
        end in
      send_requests l s b
  end.

Fixpoint send_responses (l : list (PeerId * CallId * bytes)) (s : Stream) : Stream :=
  match l with
  | [] => s
  | (_, call, payload) :: l => send_responses l (snd (stream_write call payload false s))
  end.

Definition on_streaming_event (ev : Streaming.Event Inner Error) b : Behaviour :=
  let open p s :=
    let stream := stream_new p s in
    let requests := filter (λ r, r.1.1 = p) (pending_requests b) in
    let b := with_pending b (filter (λ r, r.1.1 ≠ p) (pending_requests b)) in
    let (stream, b) := send_requests requests stream b in
    let responses := filter (λ r, r.1.1 = p) (pending_repsonses b) in
    let b := with_responses b (filter (λ r, r.1.1 ≠ p) (pending_repsonses b)) in
    with_streams b (streams b ++ [send_responses responses stream]) in
  match ev with
  | IncomingStream p s => open p s
  | OutgoingStream p (Ok s) => open p s
  | OutgoingStream p (Err err) =>
      let failed := filter (λ r, r.1.1 = p) (pending_repsonses b) in
      let b := with_responses b (filter (λ r, r.1.1 ≠ p) (pending_repsonses b)) in
      with_events b (events b ++ map (λ r, Response r.1.1 r.1.2 (Err err)) failed)
  end.

(* the loop over the broker's events: each takes one of its queued events, so [fuel] events are
   enough *)
Fixpoint poll_streaming (fuel : nat) (fresh : ConnectionId) b :
    option (ToSwarm Event) * Behaviour :=
  match fuel with
  | O => (None, b)
  | S fuel =>
      let (r, s) := Streaming.poll fresh (streaming b) in
      let b := with_streaming b s in
      match r with
      | None => (None, b)
      | Some (GenerateEvent ev) => poll_streaming fuel fresh (on_streaming_event ev b)
      | Some (Dial p id) => (Some (Dial p id), b)
      | Some (NotifyHandler p id) => (Some (NotifyHandler p id), b)
      end
  end.

Definition poll (schedule : list nat) (fresh : ConnectionId) b : option (ToSwarm Event) * Behaviour :=
  match poll_streams schedule b with
  | (Some ev, b) => (Some (GenerateEvent ev), b)
  | (None, b) => poll_streaming (S (length (Streaming.events (streaming b)))) fresh b
  end.

(* the calls passed on to the broker *)
Definition on_swarm_event (ev : FromSwarm Error) b : Behaviour :=
  with_streaming b (Streaming.on_swarm_event ev (streaming b)).
Definition on_connection_handler_event (p : PeerId) (ev : result Inner (result Inner Error)) b : Behaviour :=
  with_streaming b (Streaming.on_connection_handler_event p ev (streaming b)).
End rpc.
Arguments Behaviour : clear implicits.
Arguments Event : clear implicits.
Arguments Stream : clear implicits.

(** ** Peers that cannot be reached *)

Section wedged.
Context {Inner Error : Type} `{AsyncRead Inner, AsyncWrite Inner}.
Context (new_memory : bytes) (io : io_error → Error) (out_of_memory : Error).
Notation Behaviour := (Behaviour Inner Error).
Notation poll := (poll new_memory io out_of_memory).
Implicit Types (b : Behaviour) (p q : PeerId).

Definition opens p (ev : Streaming.Event Inner Error) : Prop :=
  match ev with
  | IncomingStream q _ => q = p
  | OutgoingStream q (Ok _) => q = p
  | OutgoingStream _ (Err _) => False
  end.

(** The dials made for the peer stay on record and none is left to be made. *)
Definition dialed p (l : list (PeerId * option ConnectionId * nat)) : Prop :=
  (∃ id n, (p, Some id, n) ∈ l) ∧ Forall (λ d, d.1.1 = p → d.1.2 ≠ None) l.

(** No stream to the peer, no connection and no way to one but the peer's own. *)
Definition wedged_streaming p (s : Streaming.Behaviour Inner Error) : Prop :=
  LinearMapFacts.wf (connected_peers s) ∧ LinearMap.get p (connected_peers s) = None ∧
  dialed p (dial_requests s) ∧
  Forall (λ r, r.1 ≠ p) (stream_requests s) ∧ Forall (λ ev, ¬ opens p ev) (Streaming.events s).
Definition wedged p b : Prop := Forall (λ s, peer s ≠ p) (streams b) ∧ wedged_streaming p (streaming b).

Lemma dialed_app p l l' : dialed p l → Forall (λ d, d.1.1 ≠ p) l' → dialed p (l ++ l').
Proof.
  intros [(id & n & Hin) Hl] Hl'. split; [exists id, n; apply elem_of_app; by left|].
  apply Forall_app. split; [done|]. eapply Forall_impl; [exact Hl'|]. by intros d Hd ?.
Qed.

Lemma dialed_alter p f i l d :
  l !! i = Some d → d.1.1 ≠ p → (f d).1.1 ≠ p → dialed p l → dialed p (alter f i l).
Proof.
  intros Hi Hd Hf [(id & n & [j Hj]%list_elem_of_lookup) Hl]. split.
  - exists id, n. apply list_elem_of_lookup. exists j. rewrite list_lookup_alter_ne; [done|].
    intros ->. rewrite Hi in Hj. by simplify_eq/=.
  - apply Forall_alter; [done|]. intros d' Hd' _ ?. by simplify_eq.
Qed.

Lemma dialed_remove p d l l' : d :: l' ≡ₚ l → d.1.1 ≠ p → dialed p l → dialed p l'.
Proof.
  intros Hp Hd [(id & n & Hin) Hl]. rewrite <-Hp in Hin, Hl. split; [|by apply Forall_cons in Hl as [_ ?]].
  exists id, n. apply elem_of_cons in Hin as [<-|?]; done.
Qed.

Lemma dialed_retain p (m : LinearMap.LinearMap PeerId ConnectionId) l :
  LinearMap.get p m = None → dialed p l →
  dialed p (snd (retain_dials m l)) ∧ Forall (λ r, r.1 ≠ p) (fst (retain_dials m l)).
Proof.
  intros Hm [(id & n & Hin) Hl].
  assert (Forall (λ d, d.1.1 = p → d.1.2 ≠ None) (snd (retain_dials m l)) ∧
          Forall (λ r, r.1 ≠ p) (fst (retain_dials m l)) ∧
          ((p, Some id, n) ∈ l → (p, Some id, n) ∈ snd (retain_dials m l))) as (H1 & H2 & H3).
  { clear Hin. induction l as [|[[q c] k] l IH]; [done|]. apply Forall_cons in Hl as [Hd Hl].
    specialize (IH Hl). simpl. destruct (retain_dials m l) as [reqs kept]. destruct IH as (H1 & H2 & H3).
    destruct (LinearMap.get q m) as [x|] eqn:Hg; simpl.
    - split; [done|]. split.
      + apply Forall_cons. split; [simpl; intros ->; congruence|]. apply Forall_app. split; [|done].
        apply Forall_replicate. simpl. intros ->. congruence.
      + intros [[= <- <- <-]|?]%elem_of_cons; [congruence|by apply H3].
    - split; [by constructor|]. split; [done|]. rewrite !elem_of_cons.
      intros [?|?]; [by left|right; by apply H3]. }
  split; [|done]. split; [|done]. exists id, n. by apply H3.
Qed.

Lemma wedged_resolving p s : wedged_streaming p s → is_resolving_stream_for p s = true.
Proof.
  intros (_ & _ & [(id & n & Hin) _] & _). unfold is_resolving_stream_for. apply orb_true_iff. right.
  apply existsb_exists. exists (p, Some id, n). split; [by apply list_elem_of_In|].
  unfold is_peer. by rewrite bool_decide_true.
Qed.

Lemma wedged_no_stream p b : Forall (λ s, peer s ≠ p) (streams b) → find_stream p b = None.
Proof.
  intros Hs. apply position_none. eapply Forall_impl; [exact Hs|]. intros s Hne. by apply bool_decide_eq_false.
Qed.

(** Requests to the peer are accepted and forgotten. *)
Lemma wedged_request p packet b :
  wedged p b → request p packet b = (Some (next_call b), snd (new_call b)).
Proof.
  intros [Hs Hw]. unfold request, new_call. cbv zeta.
  change (find_stream p (snd (new_call b))) with (find_stream p b).
  unfold find_stream at 1. simpl. change (position (λ s, bool_decide (peer s = p)) (streams b)) with (find_stream p b).
  rewrite wedged_no_stream by done. by rewrite wedged_resolving.
Qed.

Lemma wedged_respond p call payload b : wedged p b → respond p call payload b = b.
Proof. intros [Hs Hw]. unfold respond. by rewrite wedged_no_stream, wedged_resolving. Qed.

(** *** The broker stays wedged *)

Lemma wedged_create p q s : q ≠ p → wedged_streaming p s → wedged_streaming p (create_stream q s).
Proof.
  intros Hq (Hwf & Hg & Hd & Hs & He). unfold create_stream.
  destruct (LinearMap.get q (connected_peers s)) as [id|].
  - repeat (split; [done|]). split; [|done]. apply Forall_app. split; [done|]. by constructor.
  - pose proof (position_peer q (dial_requests s)) as Hp.
    destruct (position (is_peer q) (dial_requests s)) as [i|].
    + destruct Hp as (d & Hi & <-). repeat (split; [done|]). split; [|done]. by apply (dialed_alter p _ i _ d).
    + repeat (split; [done|]). split; [|done]. apply dialed_app; [done|]. by constructor.
Qed.

Lemma wedged_swarm p ev s :
  (∀ id, ev ≠ ConnectionEstablished p id) → wedged_streaming p s →
  wedged_streaming p (Streaming.on_swarm_event ev s).
Proof.
  intros Hev (Hwf & Hg & Hd & Hs & He). destruct ev as [cond err peer id|q|q id|]; [..|done].
  - simpl. destruct (find _ _) as [[[q c] n]|]; [|done]. destruct cond; [done|].
    repeat (split; [done|]). apply (Forall_app _ (Streaming.events s)). split; [done|].
    apply (Forall_replicate _ (S n)). by intros [].
  - destruct (get_remove_connected q s p Hwf) as [Hwf' Hg'].
    assert (LinearMap.get p (snd (LinearMap.remove q (connected_peers s))) = None) as Hnone.
    { apply eq_None_not_Some. rewrite Hg'. unfold connected. rewrite Hg. by intros [_ [? ?]]. }
    assert (Forall (λ r, r.1 ≠ p) (filter (λ r, r.1 ≠ q) (stream_requests s))) as Hs'.
    { rewrite !Forall_forall in *. intros r [_ Hr]%list_elem_of_filter. by apply Hs. }
    simpl. destruct (length (filter (λ r, r.1 = q) (stream_requests s))) as [|extra] eqn:Hn; [done|].
    assert (q ≠ p) as Hne.
    { intros ->. destruct (filter (λ r, r.1 = p) (stream_requests s)) as [|r l] eqn:Hl; [done|].
      assert (r ∈ filter (λ r, r.1 = p) (stream_requests s)) as [? Hr]%list_elem_of_filter
        by (rewrite Hl; constructor).
      rewrite Forall_forall in Hs. by apply (Hs r). }
    pose proof (position_peer q (dial_requests s)) as Hp.
    destruct (position (is_peer q) (dial_requests s)) as [i|].
    + destruct Hp as (d & Hi & <-). do 2 (split; [done|]). split; [|done]. by apply (dialed_alter p _ i _ d).
    + do 2 (split; [done|]). split; [|done]. apply dialed_app; [done|]. by constructor.
  - assert (q ≠ p) as Hne by (intros ->; by apply (Hev id)).
    destruct (get_insert_connected q id s p Hwf) as [Hwf' Hg'].
    assert (LinearMap.get p (snd (LinearMap.insert q id (connected_peers s))) = None) as Hnone.
    { apply eq_None_not_Some. rewrite Hg'. unfold connected. rewrite Hg. intros [->|[? ?]]; done. }
    pose proof (position_peer q (dial_requests s)) as Hp. simpl. unfold find_and_remove.
    destruct (position (is_peer q) (dial_requests s)) as [i|]; [|done].
    destruct Hp as (((q' & c) & count) & Hi & Hpeer). simpl in Hpeer. subst q'.
    destruct (swap_remove_perm i _ _ Hi) as (dials & -> & Hperm).
    do 2 (split; [done|]). split; [by apply (dialed_remove _ _ _ _ Hperm)|]. split; [|done].
    apply Forall_app. split; [done|]. by apply (Forall_replicate _ (S count)).
Qed.

Lemma wedged_handler p q ev s :
  q ≠ p → wedged_streaming p s → wedged_streaming p (Streaming.on_connection_handler_event q ev s).
Proof.
  intros Hq (Hwf & Hg & Hd & Hs & He). repeat (split; [done|]). apply Forall_app. split; [done|].
  constructor; [|done]. destruct ev as [?|[?|?]]; [done..|intros []].
Qed.

Lemma wedged_streaming_poll p fresh s :
  wedged_streaming p s →
  let (r, s') := Streaming.poll fresh s in
  wedged_streaming p s' ∧
  match r with
  | Some (GenerateEvent ev) => ¬ opens p ev
  | Some (Dial q _) | Some (NotifyHandler q _) => q ≠ p
  | None => True
  end.
Proof.
  intros (Hwf & Hg & Hd & Hs & He). unfold Streaming.poll.
  destruct (dialed_retain p _ _ Hg Hd) as [Hk Hr].
  destruct (retain_dials (connected_peers s) (dial_requests s)) as [reqs kept]. simpl in Hk, Hr. simpl.
  assert (Forall (λ r, r.1 ≠ p) (stream_requests s ++ reqs)) as Hs' by by apply Forall_app.
  destruct (position not_dialed kept) as [i|] eqn:Hp.
  - apply position_some in Hp as (((q & c) & n) & Hi & Hc%bool_decide_eq_true). simpl in Hc. subst c. rewrite Hi.
    assert (q ≠ p) as Hq.
    { intros ->. destruct Hk as [_ Hk]. rewrite Forall_forall in Hk.
      by apply (Hk (p, None, n)); [eapply list_elem_of_lookup_2| |]. }
    split; [|done]. do 2 (split; [done|]). split; [|done].
    replace (<[i:=(q, Some fresh, n)]> kept) with (alter (λ _, (q, Some fresh, n)) i kept);
      [by apply (dialed_alter p _ i _ (q, None, n))|].
    apply list_eq. intros j. destruct (decide (i = j)) as [<-|Hne].
    + rewrite list_lookup_insert_eq by (by eapply lookup_lt_Some). by rewrite list_lookup_alter_eq, Hi.
    + by rewrite list_lookup_insert_ne, list_lookup_alter_ne.
  - destruct (pop_last (stream_requests s ++ reqs)) as [[[q id] l]|] eqn:Hpop.
    + apply pop_last_some in Hpop. rewrite Hpop in Hs'. apply Forall_app in Hs' as [? Hq].
      apply Forall_cons in Hq as [Hq _]. done.
    + destruct (pop_last (Streaming.events s)) as [[ev l]|] eqn:Hpop'; [|done].
      apply pop_last_some in Hpop'. rewrite Hpop' in He. apply Forall_app in He as [? Hev].
      apply Forall_cons in Hev as [? _]. done.
Qed.

(** *** So does the behaviour *)

Lemma stream_write_peer call payload is_request (s : Stream Inner) :
  peer (snd (stream_write call payload is_request s)) = peer s.
Proof. unfold stream_write. by destruct (write_packet _ _ _). Qed.

Lemma stream_poll_peer (s : Stream Inner) : peer (snd (stream_poll_next io s)) = peer s.
Proof.
  unfold stream_poll_next. destruct (inner s) as [st|]; [|done].
  destruct (writer_poll (writer s) st) as [[f w] st1].
  destruct (poll_packet (reader s) st1) as [[read rd] st2].
  destruct f as [[u|e]|], read as [[bs|e']|]; try reflexivity;
    by destruct (fst (decode packet_codec bs)) as [[call [? ?]]|].
Qed.

Lemma other_insert p i (s s' : Stream Inner) l :
  l !! i = Some s → peer s' = peer s → Forall (λ s, peer s ≠ p) l → Forall (λ s, peer s ≠ p) (<[i:=s']> l).
Proof.
  intros Hi Hs Hl. apply Forall_insert; [done|]. rewrite Hs. rewrite Forall_forall in Hl.
  apply Hl. by eapply list_elem_of_lookup_2.
Qed.

Lemma wedged_write p i call payload is_request b :
  wedged p b → wedged p (snd (write_at i call payload is_request b)).
Proof.
  intros [Hs Hw]. unfold write_at. destruct (streams b !! i) as [s|] eqn:Hi; [|done].
  pose proof (stream_write_peer call payload is_request s) as Hp.
  destruct (stream_write call payload is_request s) as [r s']. split; [|done]. by apply (other_insert p i s).
Qed.

Lemma wedged_any_request p q packet b : wedged p b → wedged p (snd (request q packet b)).
Proof.
  intros Hw. destruct (decide (q = p)) as [->|Hq]; [by rewrite wedged_request|].
  unfold request, new_call. cbv zeta. destruct (find_stream q _) as [i|].
  - set (b1 := with_ongoing _ _). pose proof (wedged_write p i (next_call b) packet true b1 Hw) as Hw'.
    by destruct (write_at i (next_call b) packet true b1).
  - simpl. destruct (is_resolving_stream_for q (streaming b)); [done|].
    destruct Hw as [Hs Hw]. split; [done|]. by apply wedged_create.
Qed.

Lemma wedged_any_respond p q call payload b : wedged p b → wedged p (respond q call payload b).
Proof.
  intros Hw. destruct (decide (q = p)) as [->|Hq]; [by rewrite wedged_respond|].
  unfold respond. destruct (find_stream q b) as [i|]; [by apply wedged_write|].
  destruct (is_resolving_stream_for q (streaming b)); [done|].
  destruct Hw as [Hs Hw]. split; [done|]. by apply wedged_create.
Qed.

Lemma on_stream_item_same q item b :
  streams (snd (on_stream_item q item b)) = streams b ∧
  streaming (snd (on_stream_item q item b)) = streaming b.
Proof.
  destruct item as [[[cid content] [|]]|e]; [done| |done]. simpl.
  destruct (find_and_remove _ _) as [[[? q'] ?]|]; [|done]. by destruct (decide (q ≠ q')).
Qed.

Lemma wedged_poll_streams p schedule b : wedged p b → wedged p (snd (poll_streams io schedule b)).
Proof.
  revert b. induction schedule as [|i schedule IH]; intros b Hw; [done|]. simpl.
  destruct (streams b !! i) as [s|] eqn:Hi; [|by apply IH].
  pose proof (stream_poll_peer s) as Hp. destruct (stream_poll_next io s) as [item s']. simpl in Hp.
  pose proof Hw as [Hs Hst].
  assert (wedged p (with_streams b (<[i:=s']> (streams b)))) as Hw' by (split; [by apply (other_insert p i s)|done]).
  destruct item as [[item|]|].
  - destruct (on_stream_item_same (peer s') item (with_streams b (<[i:=s']> (streams b)))) as [H1 H2].
    destruct (on_stream_item _ _ _) as [[ev|] b']; simpl in H1, H2 |- *; [|apply IH];
      (split; [rewrite H1; apply Hw'|rewrite H2; apply Hw']).
  - apply IH. split; [by apply Forall_delete|done].
  - by apply IH.
Qed.

Lemma send_requests_same l (s : Stream Inner) b :
  peer (fst (send_requests out_of_memory l s b)) = peer s ∧
  streams (snd (send_requests out_of_memory l s b)) = streams b ∧
  streaming (snd (send_requests out_of_memory l s b)) = streaming b.
Proof.
  revert s b. induction l as [|[[q call] payload] l IH]; intros s b; [done|]. simpl.
  pose proof (stream_write_peer call payload true s) as Hp.
  destruct (stream_write call payload true s) as [r s']. rewrite <-Hp.
  match goal with |- context [send_requests _ _ _ ?b'] => destruct (IH s' b') as (H1 & H2 & H3) end.
  rewrite H1, H2, H3. by destruct r.
Qed.

Lemma send_responses_peer l (s : Stream Inner) : peer (send_responses l s) = peer s.
Proof. revert s. induction l as [|[[q call] payload] l IH]; intros s; [done|]. simpl. by rewrite IH, stream_write_peer. Qed.

Lemma wedged_streaming_event p ev b :
  ¬ opens p ev → wedged p b → wedged p (on_streaming_event new_memory out_of_memory ev b).
Proof.
  intros Hev [Hs Hw].
  assert (∀ q st, q ≠ p → wedged p (on_streaming_event new_memory out_of_memory (IncomingStream q st) b)) as Hopen.
  { intros q st Hq. simpl.
    match goal with |- context [send_requests _ ?l ?s ?b1] =>
      pose proof (send_requests_same l s b1) as (H1 & H2 & H3);
      destruct (send_requests out_of_memory l s b1) as [s' b'] end.
    simpl in H1, H2, H3. split; simpl; [|by rewrite H3]. rewrite H2. apply Forall_app. split; [done|].
    constructor; [|done]. by rewrite send_responses_peer, H1. }
  destruct ev as [q st|q [st|e]]; [by apply Hopen|by apply (Hopen q st)|done].
Qed.

Lemma wedged_poll_streaming p fuel fresh b :
  wedged p b → wedged p (snd (poll_streaming new_memory out_of_memory fuel fresh b)).
Proof.
  revert b. induction fuel as [|fuel IH]; intros b [Hs Hw]; [done|]. simpl.
  pose proof (wedged_streaming_poll p fresh (streaming b) Hw) as Hp.
  destruct (Streaming.poll fresh (streaming b)) as [[[q id|q id|ev]|] s];
    destruct Hp as [Hp Hev]; [done..| |done].
  apply IH. by apply wedged_streaming_event.
Qed.

Lemma wedged_poll p schedule fresh b : wedged p b → wedged p (snd (poll schedule fresh b)).
Proof.
  intros Hw. unfold Rpc.poll. pose proof (wedged_poll_streams p schedule b Hw) as Hw'.
  destruct (poll_streams io schedule b) as [[ev|] b']; [done|]. by apply wedged_poll_streaming.
Qed.

(** What a poll says of the peer: that it is dialed, that its handler is to open a stream, an answer
    of its or a failed call to it, a request of its. *)
Definition concerns p (r : option (ToSwarm (Event Error))) : Prop :=
  match r with
  | Some (Dial q _) | Some (NotifyHandler q _) => q = p
  | Some (GenerateEvent (Response q _ _)) | Some (GenerateEvent (Request q _ _)) => q = p
  | None => False
  end.

Lemma wedged_streams_silent p schedule b :
  wedged p b → ¬ concerns p (GenerateEvent <$> fst (poll_streams io schedule b)).
Proof.
  revert b. induction schedule as [|i schedule IH]; intros b Hw; [intros []|]. simpl.
  destruct (streams b !! i) as [s|] eqn:Hi; [|by apply IH].
  pose proof (stream_poll_peer s) as Hp. destruct (stream_poll_next io s) as [item s']. simpl in Hp.
  pose proof Hw as [Hs Hst].
  assert (wedged p (with_streams b (<[i:=s']> (streams b)))) as Hw' by (split; [by apply (other_insert p i s)|done]).
  assert (peer s' ≠ p) as Hne.
  { rewrite Hp. rewrite Forall_forall in Hs. apply Hs. by eapply list_elem_of_lookup_2. }
  destruct item as [[item|]|]; [|by apply IH; split; [apply Forall_delete|]|by apply IH].
  destruct (on_stream_item_same (peer s') item (with_streams b (<[i:=s']> (streams b)))) as [H1 H2].
  destruct (on_stream_item _ _ _) as [[ev|] b'] eqn:He; simpl in H1, H2 |- *;
    [|by apply IH; split; [rewrite H1; apply Hw'|rewrite H2; apply Hw']].
  destruct item as [[[cid content] [|]]|e]; simpl in He; [by injection He as <- _| |done].
  destruct (find_and_remove _ _) as [[[? q] ?]|]; [|done]. by destruct (decide (peer s' ≠ q)); simplify_eq/=.
Qed.
Lemma wedged_streaming_silent p fuel fresh b :
  wedged p b → ¬ concerns p (fst (poll_streaming new_memory out_of_memory fuel fresh b)).
Proof.
  revert b. induction fuel as [|fuel IH]; intros b [Hs Hw]; [intros []|]. simpl.
  pose proof (wedged_streaming_poll p fresh (streaming b) Hw) as Hp.
  destruct (Streaming.poll fresh (streaming b)) as [[[q id|q id|ev]|] s];
    destruct Hp as [Hp Hev]; [exact Hev|exact Hev| |intros []].
  apply IH. by apply wedged_streaming_event.
Qed.
Lemma wedged_silent p schedule fresh b : wedged p b → ¬ concerns p (fst (poll schedule fresh b)).
Proof.
  intros Hw. unfold Rpc.poll. pose proof (wedged_poll_streams p schedule b Hw) as Hw'.
  pose proof (wedged_streams_silent p schedule b Hw) as Hsil.
  destruct (poll_streams io schedule b) as [[ev|] b']; [exact Hsil|by apply wedged_streaming_silent].
Qed.

(** Whatever happens but the peer connecting to us or opening a stream. *)
Inductive without_peer p : Behaviour → Behaviour → Prop :=
  | wp_request q packet b : without_peer p b (snd (request q packet b))
  | wp_respond q call payload b : without_peer p b (respond q call payload b)
  | wp_swarm ev b : (∀ id, ev ≠ ConnectionEstablished p id) → without_peer p b (on_swarm_event ev b)
  | wp_handler q ev b : q ≠ p → without_peer p b (on_connection_handler_event q ev b)
  | wp_poll schedule fresh b : without_peer p b (snd (poll schedule fresh b)).

Lemma wedged_step p b b' : without_peer p b b' → wedged p b → wedged p b'.
Proof.
  intros [q packet b0|q call payload b0|ev b0 Hev|q ev b0 Hq|schedule fresh b0] Hw.
  - by apply wedged_any_request.
  - by apply wedged_any_respond.
  - destruct Hw. split; [done|]. by apply wedged_swarm.
  - destruct Hw. split; [done|]. by apply wedged_handler.
  - by apply wedged_poll.
Qed.

(** *** Failures *)

Definition reports_failure (r : option (ToSwarm (Event Error))) : Prop :=
  match r with Some (GenerateEvent (Response _ _ (Err _))) => True | _ => False end.

Lemma poll_streams_no_failure schedule b :
  ¬ reports_failure (GenerateEvent <$> fst (poll_streams io schedule b)).
Proof.
  revert b. induction schedule as [|i schedule IH]; intros b; [intros []|]. simpl.
  destruct (streams b !! i) as [s|]; [|apply IH].
  destruct (stream_poll_next io s) as [[[item|]|] s']; [|apply IH..].
  destruct item as [[[cid content] [|]]|e]; simpl; [intros []| |apply IH].
  destruct (find_and_remove _ _) as [[[? q'] ?]|]; [|apply IH].
  destruct (decide (peer s' ≠ q')); [apply IH|intros []].
Qed.

Lemma poll_streaming_no_failure fuel fresh b :
  ¬ reports_failure (fst (poll_streaming new_memory out_of_memory fuel fresh b)).
Proof.
  revert b. induction fuel as [|fuel IH]; intros b; [intros []|]. simpl.
  destruct (Streaming.poll fresh (streaming b)) as [[[q id|q id|ev]|] s]; [intros []..|apply IH|intros []].
Qed.
End wedged.

(** ** Properties *)

(** C29: A peer whose dial failed is never dialed again, and the callers are not told. Once the
    broker has dialed a peer it has no stream to, whatever else happens (requests and answers to
    any peer, dials failing, connections to other peers, streams, polls) short of that peer
    connecting to us or opening a stream, every request to it is given a call id and thrown
    away, every answer is thrown away, and no poll ever dials the peer, asks for a stream to it, or reports
    anything of it: no answer to a call, no failed call, no request. *)
Theorem rpc_wedged_peer {Inner Error} `{AsyncRead Inner, AsyncWrite Inner}
    new_memory io out_of_memory p (b b' : Behaviour Inner Error) :
  wedged p b → rtc (without_peer new_memory io out_of_memory p) b b' →
  (∀ packet, request p packet b' = (Some (next_call b'), snd (new_call b'))) ∧
  (∀ call payload, respond p call payload b' = b') ∧
  (∀ schedule fresh, ¬ concerns p (fst (poll new_memory io out_of_memory schedule fresh b'))).
Proof.
  intros Hw Hsteps. assert (wedged p b') as Hw'.
  { induction Hsteps as [|b b1 b' Hs _ IH]; [done|]. by apply IH, (wedged_step new_memory io out_of_memory p b). }
  split_and!; intros *; [by apply wedged_request|by apply wedged_respond|by apply wedged_silent].
Qed.

(** Failures are recorded and never reported: when a stream breaks or cannot be opened, the
    calls of that peer are turned into failed responses and stored, but no poll, of any state,
    emits a failed response. *)
Theorem rpc_failures_unreported {Inner Error} `{AsyncRead Inner, AsyncWrite Inner}
    new_memory io out_of_memory schedule fresh (b : Behaviour Inner Error) :
  ¬ reports_failure (fst (poll new_memory io out_of_memory schedule fresh b)).
Proof.
  unfold poll. pose proof (poll_streams_no_failure io schedule b) as Hs.
  destruct (poll_streams io schedule b) as [[ev|] b']; [exact Hs|apply poll_streaming_no_failure].
Qed.

(** A request to an unreachable peer, its dial and the failure of the dial: the next request is
    forgotten. *)
Lemma rpc_wedged_peer_witness :
  let new_memory := [] in
  let b0 : Behaviour (list read_event * ScriptSink) unit := behaviour_default in
  let b1 := snd (request [7] [1] b0) in
  let b2 := snd (poll new_memory (λ _, tt) tt [] 5 b1) in
  let b3 := on_swarm_event (DialFailure false tt (Some [7]) 5) b2 in
  fst (poll new_memory (λ _, tt) tt [] 5 b1) = Some (Dial [7] 5%nat) ∧
  request [7] [2] b3 = (Some 1%nat, snd (new_call b3)) ∧
  ∀ schedule fresh, ¬ concerns [7] (fst (poll new_memory (λ _, tt) tt schedule fresh b3)).
Proof.
  intros new_memory b0 b1 b2 b3. split; [reflexivity|].
  assert (wedged [7] b2) as Hw.
  { split; [constructor|]. split; [constructor|]. split; [reflexivity|]. split; [split|split; constructor].
    - exists 5%nat, 0%nat. constructor.
    - constructor; [|constructor]. intros _ [=]. }
  assert (rtc (without_peer new_memory (λ _, tt) tt [7]) b2 b3) as Hs
    by (apply rtc_once, wp_swarm; intros id [=]).
  destruct (rpc_wedged_peer new_memory (λ _, tt) tt [7] b2 b3 Hw Hs) as (Hr & _ & Hp). split; [exact (Hr [2])|exact Hp].
Defined.
