(* ===== verification/NodeStaker.v ===== *)
(** The staking contract [contracts/node_staker/lib.rs]: nodes lock a deposit, vote on each
    other and take the deposit back, less what the votes against them cost.

    A message that panics is reverted, so a call is a function to [outcome]; the arithmetic of a
    contract is checked. The chain's transfer is a parameter. *)

From S2P Require Import Prelude Collections.

Notation AccountId := bytes (only parsing).
Notation CryptoHash := bytes (only parsing).
Notation Ed := bytes (only parsing).

Definition STAKE_AMOUNT : Z := 1000000.
Definition INIT_VOTE_POOL : Z := 3.
Definition STAKE_DURATION_MILIS : Z := 1000 * 60 * 60 * 24 * 30.
Definition BASE_SLASH : Z := 2.
Definition SLASH_FACTOR : Z := 1.

Inductive NodeAddress := Ip4 (b : bytes) | Ip6 (b : bytes).

Inductive StakerEvent :=
  | Joined (identity : Ed) (addr : NodeAddress)
  | AddrChanged (identity : Ed) (addr : NodeAddress)
  | Reclaimed (identity : Ed).

Record Votes := { pool : Z; rating : Z }.
Definition votes_default : Votes := {| pool := INIT_VOTE_POOL; rating := 0 |}.

Record NodeIdentity := { sign : CryptoHash; enc : CryptoHash }.
#[global] Instance node_identity_eq_dec : EqDecision NodeIdentity.
Proof. solve_decision. Defined.
#[global] Instance node_identity_countable : Countable NodeIdentity.
Proof.
  refine (inj_countable' (λ i, (sign i, enc i)) (λ p, {| sign := p.1; enc := p.2 |}) _). by intros [].
Defined.

Record NodeData := { data_sign : CryptoHash; data_enc : CryptoHash; data_id : Ed }.

Record Stake := {
  owner : AccountId;
  amount : Z;
  created_at : Z;
  votes : Votes;
  stake_id : Ed;
  stake_addr : NodeAddress;
}.

Definition with_votes (s : Stake) (v : Votes) : Stake :=
  {| owner := owner s; amount := amount s; created_at := created_at s; votes := v;
     stake_id := stake_id s; stake_addr := stake_addr s |}.
Definition with_addr (s : Stake) (a : NodeAddress) : Stake :=
  {| owner := owner s; amount := amount s; created_at := created_at s; votes := votes s;
     stake_id := stake_id s; stake_addr := a |}.

(** ** Checked arithmetic *)

(* u128 << u128: the amount is checked, the bits shifted out are lost *)
Definition shl_u128 (x k : Z) : outcome Z :=
  try! _ := assert_that (k < 128) in Done (wrap 128 (Z.shiftl x k)).

Definition saturating_sub (x y : Z) : Z := Z.max 0 (x - y).

Definition checked_sub_u32 (x y : Z) : option Z := if decide (y ≤ x) then Some (x - y) else None.
Definition checked_add_signed_u32 (x y : Z) : option Z :=
  if decide (0 ≤ x + y < 2 ^ 32) then Some (x + y) else None.

Definition unsigned_abs (x : Z) : Z := Z.abs x.
(* the negation of an i32 *)
Definition neg_i32 (x : Z) : outcome Z := try! _ := assert_that (x ≠ - 2 ^ 31) in Done (- x).
Definition add_u64 (x y : Z) : outcome Z := try! _ := assert_that (x + y < 2 ^ 64) in Done (x + y).

Definition apply_slashes (s : Stake) : outcome Z :=
  if decide (0 < rating (votes s)) then
    try! slash := shl_u128 BASE_SLASH (rating (votes s) * SLASH_FACTOR) in
    Done (saturating_sub (amount s) slash)
  else Done (amount s).

(** ** The contract *)

Record NodeStaker := { stakes : gmap NodeIdentity Stake; stake_list : list NodeIdentity }.
Definition staker_new : NodeStaker := {| stakes := ∅; stake_list := [] |}.

(** What a message sees of the transaction. *)
Record Env := { caller : AccountId; transferred_value : Z; block_timestamp : Z }.

(** The contract, its account and what it emitted and paid, newest last. *)
Record World := {
  contract : NodeStaker;
  balance : Z;
  emitted : list StakerEvent;
  paid : list (AccountId * Z);
}.
Definition world_new (endowment : Z) : World :=
  {| contract := staker_new; balance := endowment; emitted := []; paid := [] |}.

Definition with_contract (w : World) (c : NodeStaker) : World :=
  {| contract := c; balance := balance w; emitted := emitted w; paid := paid w |}.
Definition emit (e : StakerEvent) (w : World) : World :=
  {| contract := contract w; balance := balance w; emitted := emitted w ++ [e]; paid := paid w |}.
Definition put_stake (i : NodeIdentity) (s : Stake) (w : World) : World :=
  with_contract w {| stakes := <[i:=s]> (stakes (contract w)); stake_list := stake_list (contract w) |}.

Section messages.
(** [transfer balance value]: the balance that is left, unless the chain refuses. *)
Context (transfer : Z → Z → option Z).

(* the value of a payable message is credited before it runs *)
Definition join (env : Env) (data : NodeData) (addr : NodeAddress) (w : World) : outcome World :=
  let amount := transferred_value env in
  try! _ := assert_that (amount = STAKE_AMOUNT) in
  let stake := {| owner := caller env; amount := amount; created_at := block_timestamp env;
                  votes := votes_default; stake_id := data_id data; stake_addr := addr |} in
  let id := {| sign := data_sign data; enc := data_enc data |} in
  try! _ := assert_that (stakes (contract w) !! id = None) in
  let c := {| stakes := <[id:=stake]> (stakes (contract w));
              stake_list := stake_list (contract w) ++ [id] |} in
  Done (emit (Joined (data_id data) addr)
    {| contract := c; balance := balance w + amount; emitted := emitted w; paid := paid w |}).

Definition vote (env : Env) (identity target : NodeIdentity) (rate : Z) (w : World) : outcome World :=
  try! stake := unwrap (stakes (contract w) !! identity) in
  try! _ := assert_that (owner stake = caller env) in
  try! target_stake := unwrap (stakes (contract w) !! target) in
  try! _ := assert_that (owner target_stake ≠ caller env) in
  try! p := unwrap (checked_sub_u32 (pool (votes stake)) (unsigned_abs rate)) in
  try! minus := neg_i32 rate in
  try! r := unwrap (checked_add_signed_u32 (rating (votes target_stake)) minus) in
  let stake := with_votes stake {| pool := p; rating := rating (votes stake) |} in
  let target_stake := with_votes target_stake {| pool := pool (votes target_stake); rating := r |} in
  Done (put_stake target target_stake (put_stake identity stake w)).

Fixpoint list_loop (ids : list NodeIdentity) (m : gmap NodeIdentity Stake) :
    outcome (list (NodeData * NodeAddress)) :=
  match ids with
  | [] => Done []
  | id :: ids =>
      try! stake := unwrap (m !! id) in
      try! rest := list_loop ids m in
      Done (({| data_sign := sign id; data_enc := enc id; data_id := stake_id stake |},
             stake_addr stake) :: rest)
  end.
Definition list_stakes (w : World) : outcome (list (NodeData * NodeAddress)) :=
  list_loop (stake_list (contract w)) (stakes (contract w)).

Definition change_addr (env : Env) (identity : NodeIdentity) (addr : NodeAddress) (w : World) :
    outcome World :=
  try! stake := unwrap (stakes (contract w) !! identity) in
  try! _ := assert_that (owner stake = caller env) in
  let stake := with_addr stake addr in
  Done (emit (AddrChanged (stake_id stake) addr) (put_stake identity stake w)).

Definition reclaim (env : Env) (identity : NodeIdentity) (w : World) : outcome World :=
  try! stake := unwrap (stakes (contract w) !! identity) in
  try! _ := assert_that (owner stake = caller env) in
  try! until := add_u64 (created_at stake) STAKE_DURATION_MILIS in
  try! _ := assert_that (until ≤ block_timestamp env) in
  let m := delete identity (stakes (contract w)) in
  try! value := apply_slashes stake in
  try! remaining := unwrap (transfer (balance w) value) in
  let ids :=
    match find_and_remove (λ x, bool_decide (x = identity)) (stake_list (contract w)) with
    | Some (_, l) => l
    | None => stake_list (contract w)
    end in
  Done (emit (Reclaimed (stake_id stake))
    {| contract := {| stakes := m; stake_list := ids |}; balance := remaining;
       emitted := emitted w; paid := paid w ++ [(caller env, value)] |}).

(** A transaction that was not reverted; [change_addr] is not a message of the contract. *)
Inductive staker_step : World → World → Prop :=
  | step_join env data addr w w' : fits 64 (block_timestamp env) →
      join env data addr w = Done w' → staker_step w w'
  | step_vote env identity target rate w w' :
      vote env identity target rate w = Done w' → staker_step w w'
  | step_reclaim env identity w w' : reclaim env identity w = Done w' → staker_step w w'.
End messages.

(** ** The votes on record *)

Definition weight (s : Stake) : Z := pool (votes s) + rating (votes s).
(** Votes that are still to be cast and votes held against someone. *)
Definition total_votes (m : gmap NodeIdentity Stake) : Z := map_fold (λ _ s acc, weight s + acc) 0 m.

Definition joined (l : list StakerEvent) : nat :=
  length (filter (λ e, match e with Joined _ _ => true | _ => false end = true) l).

Lemma total_votes_insert i s m : m !! i = None → total_votes (<[i:=s]> m) = weight s + total_votes m.
Proof. intros Hi. unfold total_votes. rewrite (map_fold_insert_L (λ _ s acc, weight s + acc)); [done|intros; lia|done]. Qed.

Lemma total_votes_delete i s m : m !! i = Some s → total_votes m = weight s + total_votes (delete i m).
Proof. intros Hi. unfold total_votes. rewrite (map_fold_delete_L (λ _ s acc, weight s + acc) 0 i s m); [done|intros; lia|done]. Qed.

Lemma total_votes_update i s s' m :
  m !! i = Some s → total_votes (<[i:=s']> m) = total_votes m - weight s + weight s'.
Proof.
  intros Hi. rewrite <-(insert_delete_eq m i s' ), total_votes_insert by apply lookup_delete_eq.
  rewrite (total_votes_delete i s m) by done. lia.
Qed.

Lemma joined_app l l' : joined (l ++ l') = (joined l + joined l')%nat.
Proof. unfold joined. by rewrite filter_app, length_app. Qed.

(** ** The state of the contract *)

Definition stake_ok (s : Stake) : Prop :=
  amount s = STAKE_AMOUNT ∧ fits 64 (created_at s) ∧
  0 ≤ pool (votes s) ≤ INIT_VOTE_POOL ∧ fits 32 (rating (votes s)).

Record world_ok (w : World) : Prop := {
  ok_list : NoDup (stake_list (contract w));
  ok_dom i : i ∈ stake_list (contract w) ↔ is_Some (stakes (contract w) !! i);
  ok_stakes : map_Forall (λ _ s, stake_ok s) (stakes (contract w));
  ok_balance : STAKE_AMOUNT * Z.of_nat (length (stake_list (contract w))) ≤ balance w;
  ok_votes : total_votes (stakes (contract w)) ≤ INIT_VOTE_POOL * Z.of_nat (joined (emitted w));
}.

Lemma world_new_ok endowment : 0 ≤ endowment → world_ok (world_new endowment).
Proof.
  intros He. constructor; simpl; [constructor| | |lia|reflexivity].
  - intros i. rewrite lookup_empty. split; [by intros ?%elem_of_nil|by intros [? ?]].
  - apply map_Forall_empty.
Qed.

Lemma join_inv env data addr w w' :
  join env data addr w = Done w' →
  transferred_value env = STAKE_AMOUNT ∧
  let id := {| sign := data_sign data; enc := data_enc data |} in
  let s := {| owner := caller env; amount := STAKE_AMOUNT; created_at := block_timestamp env;
              votes := votes_default; stake_id := data_id data; stake_addr := addr |} in
  stakes (contract w) !! id = None ∧
  w' = {| contract := {| stakes := <[id:=s]> (stakes (contract w)); stake_list := stake_list (contract w) ++ [id] |};
          balance := balance w + STAKE_AMOUNT; emitted := emitted w ++ [Joined (data_id data) addr];
          paid := paid w |}.
Proof. unfold join. intros Hw. did Hw. simplify_eq. rewrite Ha. done. Qed.

Lemma vote_inv env i j rate w w' :
  vote env i j rate w = Done w' →
  ∃ s t, stakes (contract w) !! i = Some s ∧ stakes (contract w) !! j = Some t ∧ i ≠ j ∧
    owner s = caller env ∧ owner t ≠ caller env ∧ Z.abs rate ≤ pool (votes s) ∧
    fits 32 (rating (votes t) - rate) ∧
    w' = put_stake j (with_votes t {| pool := pool (votes t); rating := rating (votes t) - rate |})
        (put_stake i (with_votes s {| pool := pool (votes s) - Z.abs rate; rating := rating (votes s) |}) w).
Proof.
  unfold vote, checked_sub_u32, checked_add_signed_u32, unsigned_abs, neg_i32. intros Hw. did Hw.
  destruct (decide (rate ≠ - 2 ^ 31)) as [Hr|Hr]; unfold assert_that in Hw; rewrite ?decide_True, ?decide_False in Hw by done;
    [|done]. simpl in Hw. did Hw.
  repeat case_decide; simplify_eq. exists v, v0. repeat (split; [done|]). split; [by intros ->; congruence|].
  repeat (split; [done|]). by replace (rating (votes v0) + - rate) with (rating (votes v0) - rate) by lia.
Qed.

Lemma reclaim_inv transfer env i w w' :
  reclaim transfer env i w = Done w' →
  ∃ s value left, stakes (contract w) !! i = Some s ∧ owner s = caller env ∧
    created_at s + STAKE_DURATION_MILIS ≤ block_timestamp env ∧ apply_slashes s = Done value ∧
    transfer (balance w) value = Some left ∧ balance w' = left ∧
    stakes (contract w') = delete i (stakes (contract w)) ∧
    emitted w' = emitted w ++ [Reclaimed (stake_id s)] ∧ paid w' = paid w ++ [(caller env, value)] ∧
    stake_list (contract w') =
      match find_and_remove (λ x, bool_decide (x = i)) (stake_list (contract w)) with
      | Some (_, l) => l
      | None => stake_list (contract w)
      end.
Proof.
  unfold reclaim, add_u64. intros Hw. did Hw.
  unfold assert_that at 1 in Hw. destruct (decide (created_at v + STAKE_DURATION_MILIS < 2 ^ 64)); [|done].
  simpl in Hw. did Hw. apply obind_done in Hw as (value & Hs & Hw). did Hw. simplify_eq.
  by exists v, value, v0.
Qed.

Lemma find_and_remove_elem {A} `{EqDecision A} (x : A) l :
  x ∈ l → ∃ l', find_and_remove (λ y, bool_decide (y = x)) l = Some (x, l') ∧ x :: l' ≡ₚ l.
Proof.
  intros Hx. unfold find_and_remove. destruct (position _ l) as [k|] eqn:Hp.
  - apply position_some in Hp as (y & Hy & ->%bool_decide_eq_true). by apply swap_remove_perm.
  - apply position_none in Hp. rewrite Forall_forall in Hp. specialize (Hp x Hx).
    by rewrite bool_decide_true in Hp.
Qed.

Lemma slashes_bounds s value :
  stake_ok s → apply_slashes s = Done value → 0 ≤ value ≤ STAKE_AMOUNT.
Proof.
  intros (Ha & _) Hv. unfold apply_slashes, shl_u128 in Hv. rewrite Ha in Hv.
  assert (0 ≤ STAKE_AMOUNT) by done.
  case_decide; [|by simplify_eq]. unfold assert_that in Hv. case_decide; [|done]. simplify_eq/=.
  unfold saturating_sub. pose proof (wrap_fits 128 (Z.shiftl BASE_SLASH (rating (votes s) * SLASH_FACTOR))) as Hw.
  unfold fits in Hw. lia.
Qed.

Section staker_laws.
Context (transfer : Z → Z → option Z).
(** What is paid comes from the balance and never exceeds it. *)
Hypothesis transfer_pays : ∀ b v b', transfer b v = Some b' → b' = b - v ∧ v ≤ b.

Lemma put_stake_ok i s s' w :
  stakes (contract w) !! i = Some s → stake_ok s' →
  total_votes (<[i:=s']> (stakes (contract w))) ≤ INIT_VOTE_POOL * Z.of_nat (joined (emitted w)) →
  world_ok w → world_ok (put_stake i s' w).
Proof.
  intros Hi Hs' Ht [Hl Hd Hs Hb Hv]. constructor; simpl; [done| |by apply map_Forall_insert_2|done|done].
  intros k. rewrite Hd, lookup_insert_is_Some'.
  split; [by right|]. intros [<-|?]; [by exists s|done].
Qed.

Lemma join_ok env data addr w w' :
  fits 64 (block_timestamp env) → join env data addr w = Done w' → world_ok w → world_ok w'.
Proof.
  intros Ht (_ & Hn & ->)%join_inv [Hl Hd Hs Hb Hv].
  set (id := {| sign := _; enc := _ |}) in *. constructor; simpl.
  - apply NoDup_app. split; [done|]. split; [|apply NoDup_singleton].
    intros x Hx ->%list_elem_of_singleton. apply Hd in Hx as [? Hx]. congruence.
  - intros k. rewrite elem_of_app, list_elem_of_singleton, Hd, lookup_insert_is_Some'.
    split; intros [?|?]; auto.
  - apply map_Forall_insert_2; [|done]. by repeat split; try apply Ht.
  - rewrite length_app. simpl. lia.
  - rewrite total_votes_insert by done. rewrite joined_app. unfold weight. simpl.
    change (joined [Joined (data_id data) addr]) with 1%nat. unfold INIT_VOTE_POOL in *. lia.
Qed.

Lemma vote_ok env i j rate w w' : vote env i j rate w = Done w' → world_ok w → world_ok w'.
Proof.
  intros (s & t & Hi & Hj & Hne & Ho & Ho' & Hp & Hf & ->)%vote_inv Hw.
  pose proof (ok_stakes _ Hw) as Hs. pose proof (ok_votes _ Hw) as Hv.
  destruct (Hs i s Hi) as (Ha & Hc & Hpool & Hr). destruct (Hs j t Hj) as (Ha' & Hc' & Hpool' & Hr').
  set (s' := with_votes s _). set (t' := with_votes t _).
  assert (stake_ok s' ∧ stake_ok t') as [Hs' Ht'] by (split; (split; [done|]; split; [done|]; split; [simpl; lia|done])).
  assert (weight s' = weight s - Z.abs rate ∧ weight t' = weight t - rate) as [Hws Hwt]
    by (unfold weight; simpl; lia).
  assert (stakes (contract (put_stake i s' w)) !! j = Some t) as Hj' by by (simpl; rewrite lookup_insert_ne).
  apply (put_stake_ok j t); [done|done| |].
  - rewrite (total_votes_update j t) by done. simpl. rewrite (total_votes_update i s) by done. lia.
  - apply (put_stake_ok i s); [done..| |done]. rewrite (total_votes_update i s) by done. lia.
Qed.

Lemma reclaim_ok env i w w' : reclaim transfer env i w = Done w' → world_ok w → world_ok w'.
Proof.
  intros (s & value & left & Hi & Ho & _ & Hsl & Htr & Hbal & Hst & Hem & _ & Hlist)%reclaim_inv [Hl Hd Hs Hb Hv].
  destruct (find_and_remove_elem i (stake_list (contract w))) as (l' & Hf & Hperm); [by apply Hd|].
  rewrite Hf in Hlist. pose proof Hl as Hl'. rewrite <-Hperm in Hl'. apply NoDup_cons in Hl' as [Hni Hnd].
  pose proof (Permutation_length Hperm) as Hlen. simpl in Hlen.
  destruct (transfer_pays _ _ _ Htr) as [-> Hle]. pose proof (slashes_bounds s value (Hs i s Hi) Hsl) as Hval.
  constructor; rewrite ?Hlist, ?Hst, ?Hem, ?Hbal; [done| | | |].
  - intros k. rewrite lookup_delete_is_Some, <-Hd, <-Hperm, elem_of_cons.
    split; [intros Hk; split; [by intros ->|by right]|]. by intros [? [?|?]].
  - by apply map_Forall_delete.
  - lia.
  - rewrite (total_votes_delete i s) in Hv by done. rewrite joined_app.
    destruct (Hs i s Hi) as (_ & _ & [? _] & [? _]). unfold weight in Hv.
    change (joined [Reclaimed (stake_id s)]) with 0%nat. lia.
Qed.

Lemma staker_step_ok w w' : staker_step transfer w w' → world_ok w → world_ok w'.
Proof.
  intros [env data addr w0 w1 Ht Hj|env i j rate w0 w1 Hv|env i w0 w1 Hr].
  - by apply (join_ok env data addr).
  - by apply (vote_ok env i j rate).
  - by apply (reclaim_ok env i).
Qed.

Lemma staker_reachable_ok w w' : rtc (staker_step transfer) w w' → world_ok w → world_ok w'.
Proof. induction 1 as [|w w1 w' Hs _ IH]; [done|]. intros Hw. by apply IH, (staker_step_ok w). Qed.
End staker_laws.

Lemma list_loop_done ids m :
  (∀ i, i ∈ ids → is_Some (m !! i)) → ∃ l, list_loop ids m = Done l ∧
  map (λ x, {| sign := data_sign x.1; enc := data_enc x.1 |}) l = ids.
Proof.
  induction ids as [|i ids IH]; intros Hi; [by exists []|].
  destruct (Hi i) as [s Hs]; [constructor|]. destruct IH as (l & Hl & Hm); [intros j Hj; apply Hi; by constructor|].
  simpl. rewrite Hs. simpl. rewrite Hl. eexists. split; [done|]. simpl. rewrite Hm. by destruct i.
Qed.

Lemma one_votes i s m :
  map_Forall (λ _ s, stake_ok s) m → m !! i = Some s → rating (votes s) ≤ total_votes m.
Proof.
  intros Hm Hi. rewrite (total_votes_delete i s m) by done.
  assert (map_Forall (λ _ s, stake_ok s) (delete i m)) as Hd by by apply map_Forall_delete.
  assert (0 ≤ total_votes (delete i m)) as Hpos.
  { revert Hd. generalize (delete i m). clear. intros m. induction m as [|i s m Hi IH] using map_ind; [done|].
    intros [Hs Hm]%map_Forall_insert; [|done]. rewrite total_votes_insert by done.
    destruct Hs as (_ & _ & [? _] & [? _]). specialize (IH Hm). unfold weight. lia. }
  destruct (Hm i s Hi) as (_ & _ & [? _] & _). unfold weight. lia.
Qed.

(** ** Properties *)

(** What a deposit pays back at a rating. *)
Definition payout (r : Z) : Z :=
  if decide (r = 0 ∨ r = 127) then STAKE_AMOUNT
  else if decide (r < 19) then STAKE_AMOUNT - 2 ^ (r + 1) else 0.

Lemma apply_slashes_payout s :
  amount s = STAKE_AMOUNT → 0 ≤ rating (votes s) →
  apply_slashes s = if decide (rating (votes s) < 128) then Done (payout (rating (votes s))) else Panic.
Proof.
  intros Ha Hr. unfold apply_slashes, payout, shl_u128. rewrite Ha. change SLASH_FACTOR with 1. rewrite Z.mul_1_r.
  set (r := rating (votes s)) in *. destruct (decide (0 < r)) as [Hpos|Hz].
  2:{ rewrite decide_True by lia. by rewrite decide_True by lia. }
  unfold assert_that. destruct (decide (r < 128)) as [Hlt|Hge]; [|done]. simpl. f_equal.
  unfold wrap, saturating_sub. rewrite Z.shiftl_mul_pow2 by lia. change BASE_SLASH with (2 ^ 1).
  rewrite <-Z.pow_add_r, (Z.add_comm 1 r) by lia.
  destruct (decide (r = 0 ∨ r = 127)) as [[?| ->]|Hn]; [lia|by vm_compute|].
  rewrite Z.mod_small by (split; [apply Z.pow_nonneg; lia|apply Z.pow_lt_mono_r; lia]).
  change STAKE_AMOUNT with 1000000. destruct (decide (r < 19)) as [H19|H19].
  - assert (2 ^ (r + 1) ≤ 2 ^ 19) by (apply Z.pow_le_mono_r; lia). change (2 ^ 19) with 524288 in *. lia.
  - assert (2 ^ 20 ≤ 2 ^ (r + 1)) by (apply Z.pow_le_mono_r; lia). change (2 ^ 20) with 1048576 in *. lia.
Qed.

(** C33: In every state the staking contract can reach its books are right: the list and the map
    hold the same identities, each once; the list message answers with exactly those; every
    stake is a full deposit whose pool is at most the initial one; the account covers all
    deposits; and no node has more votes against it than the votes every join ever handed out. *)
Theorem staker_books (transfer : Z → Z → option Z) (endowment : Z) (w : World) :
  (∀ b v b', transfer b v = Some b' → b' = b - v ∧ v ≤ b) → 0 ≤ endowment →
  rtc (staker_step transfer) (world_new endowment) w →
  world_ok w ∧
  (∃ l, list_stakes w = Done l ∧
    map (λ x, {| sign := data_sign x.1; enc := data_enc x.1 |}) l = stake_list (contract w)) ∧
  ∀ i s, stakes (contract w) !! i = Some s → rating (votes s) ≤ INIT_VOTE_POOL * Z.of_nat (joined (emitted w)).
Proof.
  intros Ht He Hr. assert (world_ok w) as Hw by by eapply staker_reachable_ok, world_new_ok.
  split; [done|]. split; [apply list_loop_done; intros i; apply (ok_dom _ Hw)|].
  intros i s Hi. etrans; [by apply (one_votes i s _ (ok_stakes _ Hw))|by apply ok_votes].
Qed.

(** What a node gets back once its lock is over: the whole deposit with no votes against it,
    [2 ^ (r + 1)] less for [r] votes up to 18 and nothing from 19 votes on; but at 127 votes the
    shift loses its only bit and the whole deposit is paid, and from 128 votes on the message
    panics, so the deposit stays in the contract until votes are withdrawn. *)
Theorem reclaim_payout (transfer : Z → Z → option Z) (env : Env) (i : NodeIdentity) (s : Stake) (w : World) :
  (∀ b v, v ≤ b → is_Some (transfer b v)) → world_ok w → stakes (contract w) !! i = Some s →
  owner s = caller env → created_at s + STAKE_DURATION_MILIS < 2 ^ 64 →
  created_at s + STAKE_DURATION_MILIS ≤ block_timestamp env →
  if decide (rating (votes s) < 128) then
    ∃ w', reclaim transfer env i w = Done w' ∧ stakes (contract w') = delete i (stakes (contract w)) ∧
      paid w' = paid w ++ [(owner s, payout (rating (votes s)))]
  else reclaim transfer env i w = Panic.
Proof.
  intros Htr Hw Hi Ho Hov Htime. pose proof (ok_stakes _ Hw i s Hi) as Hs. pose proof Hs as (Ha & _ & _ & [Hr _]).
  pose proof (apply_slashes_payout s Ha Hr) as Hp.
  assert (reclaim transfer env i w = try! value := apply_slashes s in
    try! remaining := unwrap (transfer (balance w) value) in
    reclaim (λ _ _, Some remaining) env i w) as Hrec.
  { unfold reclaim, add_u64, assert_that. rewrite Hi. simpl.
    rewrite (decide_True (P := owner s = caller env)) by done. simpl.
    rewrite (decide_True (P := created_at s + STAKE_DURATION_MILIS < 2 ^ 64)) by done. simpl.
    rewrite (decide_True (P := created_at s + STAKE_DURATION_MILIS ≤ block_timestamp env)) by done. simpl.
    destruct (apply_slashes s) as [value|]; [|done]. simpl. by destruct (transfer (balance w) value). }
  rewrite Hrec, Hp. destruct (decide (rating (votes s) < 128)) as [Hlt|]; [|done]. simpl.
  destruct (Htr (balance w) (payout (rating (votes s)))) as [left Hleft].
  { pose proof (slashes_bounds s _ Hs Hp). pose proof (ok_balance _ Hw) as Hb.
    assert (i ∈ stake_list (contract w)) as Hin by (apply (ok_dom _ Hw); by exists s).
    destruct (stake_list (contract w)); [by apply elem_of_nil in Hin|]. simpl in Hb.
    change STAKE_AMOUNT with 1000000 in *. lia. }
  rewrite Hleft. simpl. unfold reclaim, add_u64, assert_that. rewrite Hi. simpl.
  rewrite !decide_True by done. simpl. rewrite Hp, decide_True by done. simpl.
  eexists. split; [done|]. simpl. by rewrite Ho.
Qed.

(** C34: Nobody can take a node's deposit away: whatever transaction runs, a stake keeps its owner,
    its amount and its time, unless it is its owner who reclaims it after the lock, and then
    the payment goes to that owner. Its votes change only by a vote of someone else's stake on
    it, by the votes given, or by its own votes on others, which it pays from its pool. *)
Theorem deposit_safe (transfer : Z → Z → option Z) (w w' : World) (i : NodeIdentity) (s : Stake) :
  staker_step transfer w w' → stakes (contract w) !! i = Some s →
  (∃ s', stakes (contract w') !! i = Some s' ∧ owner s' = owner s ∧ amount s' = amount s ∧
    created_at s' = created_at s ∧ stake_id s' = stake_id s ∧
    (votes s' = votes s ∨
     (∃ env j rate, vote env i j rate w = Done w' ∧ caller env = owner s ∧
       votes s' = {| pool := pool (votes s) - Z.abs rate; rating := rating (votes s) |}) ∨
     (∃ env j rate, vote env j i rate w = Done w' ∧ caller env ≠ owner s ∧
       votes s' = {| pool := pool (votes s); rating := rating (votes s) - rate |}))) ∨
  (∃ env value, reclaim transfer env i w = Done w' ∧ caller env = owner s ∧
    created_at s + STAKE_DURATION_MILIS ≤ block_timestamp env ∧
    paid w' = paid w ++ [(owner s, value)] ∧ stakes (contract w') !! i = None).
Proof.
  intros [env data addr w0 w1 Ht Hj|env j k rate w0 w1 Hv|env j w0 w1 Hr] Hi.
  - apply join_inv in Hj as (_ & Hn & ->). left. exists s. split; [|by repeat (split; [done|]); left].
    simpl. rewrite lookup_insert_ne; [done|]. intros <-. congruence.
  - left. pose proof Hv as (s0 & t & Hj & Hk & Hne & Ho & Ho' & _ & _ & ->)%vote_inv. simpl.
    destruct (decide (i = k)) as [<-|Hik].
    { rewrite lookup_insert_eq. simplify_eq. eexists. split; [done|]. repeat (split; [done|]).
      right. right. by exists env, j, rate. }
    rewrite lookup_insert_ne by done. destruct (decide (i = j)) as [<-|Hij].
    { rewrite lookup_insert_eq. simplify_eq. eexists. split; [done|]. repeat (split; [done|]).
      right. left. by exists env, k, rate. }
    rewrite lookup_insert_ne by done. exists s. split; [done|]. by repeat (split; [done|]); left.
  - pose proof Hr as (s0 & value & left0 & Hj & Ho & Htime & _ & _ & _ & Hst & _ & Hp & _)%reclaim_inv.
    rewrite Hst. destruct (decide (i = j)) as [<-|Hij].
    + right. simplify_eq. exists env, value. rewrite Hp, Ho, lookup_delete_eq. done.
    + left. exists s. rewrite lookup_delete_ne by done. by repeat (split; [done|]); left.
Qed.

(** Two nodes join and the first votes against the second. *)
Definition demo_transfer (b v : Z) : option Z := if decide (v ≤ b) then Some (b - v) else None.
Definition demo_env (who : Z) (value time : Z) : Env :=
  {| caller := [who]; transferred_value := value; block_timestamp := time |}.
Definition demo_node (n : Z) : NodeIdentity := {| sign := [n]; enc := [n] |}.
Definition demo_data (n : Z) : NodeData := {| data_sign := [n]; data_enc := [n]; data_id := [n] |}.
Definition demo_join (n : Z) (w : World) : World :=
  match join (demo_env n STAKE_AMOUNT 0) (demo_data n) (Ip4 []) w with
  | Done w => w
  | Panic => w
  end.
Definition demo_joined : World := demo_join 2 (demo_join 1 (world_new 0)).
Definition demo_voted : World :=
  match vote (demo_env 1 0 0) (demo_node 1) (demo_node 2) (-2) demo_joined with
  | Done w => w
  | Panic => demo_joined
  end.

Lemma demo_joined_reachable : rtc (staker_step demo_transfer) (world_new 0) demo_joined.
Proof.
  apply (rtc_l _ _ (demo_join 1 (world_new 0))); [|apply rtc_once].
  - by apply (step_join _ (demo_env 1 STAKE_AMOUNT 0) (demo_data 1) (Ip4 [])).
  - by apply (step_join _ (demo_env 2 STAKE_AMOUNT 0) (demo_data 2) (Ip4 [])).
Qed.

Lemma demo_vote_step : vote (demo_env 1 0 0) (demo_node 1) (demo_node 2) (-2) demo_joined = Done demo_voted.
Proof. reflexivity. Qed.

Lemma demo_voted_reachable : rtc (staker_step demo_transfer) (world_new 0) demo_voted.
Proof. eapply rtc_r; [exact demo_joined_reachable|]. eapply step_vote, demo_vote_step. Qed.

Lemma demo_transfer_pays b v b' : demo_transfer b v = Some b' → b' = b - v ∧ v ≤ b.
Proof. unfold demo_transfer. case_decide; [|done]. intros [= <-]. done. Qed.

Lemma demo_transfer_works b v : v ≤ b → is_Some (demo_transfer b v).
Proof. intros Hle. unfold demo_transfer. rewrite decide_True by done. by eexists. Qed.

Lemma demo_voted_ok : world_ok demo_voted.
Proof. by eapply staker_reachable_ok, world_new_ok; [apply demo_transfer_pays|apply demo_voted_reachable|]. Qed.

Lemma staker_books_witness :
  world_ok demo_voted ∧ stake_list (contract demo_voted) = [demo_node 1; demo_node 2].
Proof.
  split; [|reflexivity].
  exact (proj1 (staker_books demo_transfer 0 demo_voted demo_transfer_pays (Z.le_refl 0) demo_voted_reachable)).
Defined.

Lemma reclaim_payout_witness :
  ∃ w', reclaim demo_transfer (demo_env 2 0 STAKE_DURATION_MILIS) (demo_node 2) demo_voted = Done w' ∧
    paid w' = [([2], 1000000 - 8)].
Proof.
  destruct (stakes (contract demo_voted) !! demo_node 2) as [s|] eqn:Hs; [|discriminate Hs].
  assert (s = {| owner := [2]; amount := STAKE_AMOUNT; created_at := 0;
    votes := {| pool := 3; rating := 2 |}; stake_id := [2]; stake_addr := Ip4 [] |}) as ->
    by (vm_compute in Hs; injection Hs as <-; reflexivity).
  pose proof (reclaim_payout demo_transfer (demo_env 2 0 STAKE_DURATION_MILIS) (demo_node 2) _ demo_voted
    demo_transfer_works demo_voted_ok Hs eq_refl ltac:(decided) ltac:(decided)) as Hp.
  rewrite decide_True in Hp by done. destruct Hp as (w' & Hr & _ & Hp). exists w'. split; [exact Hr|exact Hp].
Defined.

Lemma deposit_safe_witness :
  ∃ s, stakes (contract demo_joined) !! demo_node 2 = Some s ∧
  ((∃ s', stakes (contract demo_voted) !! demo_node 2 = Some s' ∧ amount s' = amount s) ∨
   stakes (contract demo_voted) !! demo_node 2 = None).
Proof.
  eexists. split; [reflexivity|].
  destruct (deposit_safe demo_transfer demo_joined demo_voted (demo_node 2) _
    (step_vote _ _ _ _ _ _ _ demo_vote_step) eq_refl) as [(s' & H1 & _ & H2 & _)|(env & v & _ & _ & _ & _ & H)].
  - left. exists s'. split; [exact H1|exact H2].
  - right. exact H.
Defined.
