(* ===== verification/UserManager.v ===== *)
(** The naming contract [contracts/user_manager/lib.rs]: accounts register the hashes of their
    keys and hold at most one name each. A message that panics is reverted. *)

From S2P Require Import Prelude.

Notation AccountId := bytes (only parsing).
Notation CryptoHash := bytes (only parsing).
Notation RawUserName := bytes (only parsing).

Record Profile := { sign : CryptoHash; enc : CryptoHash }.

Record UserManager := {
  username_to_owner : gmap RawUserName AccountId;
  owner_to_username : gmap AccountId RawUserName;
  identity_to_username : gmap CryptoHash RawUserName;
  identities : gmap AccountId Profile;
}.
Definition user_manager_new : UserManager :=
  {| username_to_owner := ∅; owner_to_username := ∅; identity_to_username := ∅; identities := ∅ |}.

Definition with_owners (u : UserManager) m : UserManager :=
  {| username_to_owner := m; owner_to_username := owner_to_username u;
     identity_to_username := identity_to_username u; identities := identities u |}.
Definition with_usernames (u : UserManager) m : UserManager :=
  {| username_to_owner := username_to_owner u; owner_to_username := m;
     identity_to_username := identity_to_username u; identities := identities u |}.
Definition with_identity_names (u : UserManager) m : UserManager :=
  {| username_to_owner := username_to_owner u; owner_to_username := owner_to_username u;
     identity_to_username := m; identities := identities u |}.
Definition with_identities (u : UserManager) m : UserManager :=
  {| username_to_owner := username_to_owner u; owner_to_username := owner_to_username u;
     identity_to_username := identity_to_username u; identities := m |}.

(* assert!(mapping.insert(k, v).is_none()) *)
Definition insert_new {K V} `{Countable K, EqDecision V} (k : K) (v : V) (m : gmap K V) : outcome (gmap K V) :=
  try! _ := assert_that (m !! k = None) in Done (<[k:=v]> m).
(* assert_eq!(mapping.take(k), Some(v)) *)
Definition take_expected {K V} `{Countable K, EqDecision V} (k : K) (v : V) (m : gmap K V) :
    outcome (gmap K V) :=
  try! _ := assert_that (m !! k = Some v) in Done (delete k m).

(** ** The messages *)

Definition register (caller : AccountId) (data : Profile) (u : UserManager) : outcome UserManager :=
  Done (with_identities u (<[caller:=data]> (identities u))).

Definition pick_name (caller : AccountId) (name : RawUserName) (u : UserManager) : outcome UserManager :=
  try! usernames := insert_new caller name (owner_to_username u) in
  try! owners := insert_new name caller (username_to_owner u) in
  try! identity := unwrap (identities u !! caller) in
  try! names := insert_new (sign identity) name (identity_to_username u) in
  Done (with_identity_names (with_owners (with_usernames u usernames) owners) names).

Definition register_with_name (caller : AccountId) (name : RawUserName) (data : Profile)
    (u : UserManager) : outcome UserManager :=
  try! u := register caller data u in pick_name caller name u.

Definition give_up_name (caller : AccountId) (name : RawUserName) (u : UserManager) : outcome UserManager :=
  try! owners := take_expected name caller (username_to_owner u) in
  try! usernames := take_expected caller name (owner_to_username u) in
  try! identity := unwrap (identities u !! caller) in
  try! names := take_expected (sign identity) name (identity_to_username u) in
  Done (with_identity_names (with_usernames (with_owners u owners) usernames) names).

Definition transfere_name (caller : AccountId) (name : RawUserName) (target : AccountId)
    (u : UserManager) : outcome UserManager :=
  try! u := give_up_name caller name u in
  try! usernames := insert_new target name (owner_to_username u) in
  try! owners := insert_new name target (username_to_owner u) in
  try! identity := unwrap (identities u !! target) in
  try! names := insert_new (sign identity) name (identity_to_username u) in
  Done (with_identity_names (with_owners (with_usernames u usernames) owners) names).

Definition get_profile (account : AccountId) (u : UserManager) : option Profile := identities u !! account.
Definition get_profile_by_name (name : RawUserName) (u : UserManager) : option Profile :=
  match username_to_owner u !! name with Some account => identities u !! account | None => None end.
Definition get_username (identity : CryptoHash) (u : UserManager) : option RawUserName :=
  identity_to_username u !! identity.

Inductive message :=
  | Register (data : Profile)
  | RegisterWithName (name : RawUserName) (data : Profile)
  | PickName (name : RawUserName)
  | GiveUpName (name : RawUserName)
  | TransfereName (name : RawUserName) (target : AccountId).

Definition call (caller : AccountId) (m : message) (u : UserManager) : outcome UserManager :=
  match m with
  | Register data => register caller data u
  | RegisterWithName name data => register_with_name caller name data u
  | PickName name => pick_name caller name u
  | GiveUpName name => give_up_name caller name u
  | TransfereName name target => transfere_name caller name target u
  end.

Definition user_step (u u' : UserManager) : Prop := ∃ caller m, call caller m u = Done u'.

(** ** Names *)

(** The three name tables describe one relation: a name has one owner and one identity, an owner
    or an identity has one name; who has a name has a profile. *)
Record users_ok (u : UserManager) : Prop := {
  ok_owners a n : owner_to_username u !! a = Some n ↔ username_to_owner u !! n = Some a;
  ok_named n : (∃ s, identity_to_username u !! s = Some n) ↔ is_Some (username_to_owner u !! n);
  ok_identity s s' n :
    identity_to_username u !! s = Some n → identity_to_username u !! s' = Some n → s = s';
  ok_profiles a : is_Some (owner_to_username u !! a) → is_Some (identities u !! a);
}.

Lemma insert_new_done {K V} `{Countable K, EqDecision V} (k : K) (v : V) (m m' : gmap K V) :
  insert_new k v m = Done m' ↔ m !! k = None ∧ m' = <[k:=v]> m.
Proof. unfold insert_new, assert_that. case_decide; simpl; [|by split; [|intros []]]. split; [by intros [= <-]|by intros [_ ->]]. Qed.

Lemma take_expected_done {K V} `{Countable K, EqDecision V} (k : K) (v : V) (m m' : gmap K V) :
  take_expected k v m = Done m' ↔ m !! k = Some v ∧ m' = delete k m.
Proof. unfold take_expected, assert_that. case_decide; simpl; [|by split; [|intros []]]. split; [by intros [= <-]|by intros [_ ->]]. Qed.

(** Giving a name to an account, and taking it away. *)
Definition name_given (a : AccountId) (n : RawUserName) (s : CryptoHash) (u : UserManager) : UserManager :=
  {| username_to_owner := <[n:=a]> (username_to_owner u);
     owner_to_username := <[a:=n]> (owner_to_username u);
     identity_to_username := <[s:=n]> (identity_to_username u); identities := identities u |}.
Definition name_taken (a : AccountId) (n : RawUserName) (s : CryptoHash) (u : UserManager) : UserManager :=
  {| username_to_owner := delete n (username_to_owner u);
     owner_to_username := delete a (owner_to_username u);
     identity_to_username := delete s (identity_to_username u); identities := identities u |}.

Definition free (a : AccountId) (n : RawUserName) (s : CryptoHash) (u : UserManager) : Prop :=
  owner_to_username u !! a = None ∧ username_to_owner u !! n = None ∧ identity_to_username u !! s = None.
Definition held (a : AccountId) (n : RawUserName) (s : CryptoHash) (u : UserManager) : Prop :=
  owner_to_username u !! a = Some n ∧ username_to_owner u !! n = Some a ∧ identity_to_username u !! s = Some n.

Lemma pick_name_done a n u u' :
  pick_name a n u = Done u' ↔
  ∃ p, identities u !! a = Some p ∧ free a n (sign p) u ∧ u' = name_given a n (sign p) u.
Proof.
  unfold pick_name. split.
  - intros (m1 & [H1 ->]%insert_new_done & H)%obind_done.
    apply obind_done in H as (m2 & [H2 ->]%insert_new_done & H).
    apply obind_done in H as (p & Hp%unwrap_done & H).
    apply obind_done in H as (m3 & [H3 ->]%insert_new_done & H). simplify_eq. by exists p.
  - intros (p & Hp & (H1 & H2 & H3) & ->). unfold insert_new, assert_that.
    rewrite H1. simpl. rewrite H2. simpl. rewrite Hp. simpl. by rewrite H3.
Qed.

Lemma give_up_name_done a n u u' :
  give_up_name a n u = Done u' ↔
  ∃ p, identities u !! a = Some p ∧ held a n (sign p) u ∧ u' = name_taken a n (sign p) u.
Proof.
  unfold give_up_name. split.
  - intros (m1 & [H1 ->]%take_expected_done & H)%obind_done.
    apply obind_done in H as (m2 & [H2 ->]%take_expected_done & H).
    apply obind_done in H as (p & Hp%unwrap_done & H).
    apply obind_done in H as (m3 & [H3 ->]%take_expected_done & H). simplify_eq. by exists p.
  - intros (p & Hp & (H1 & H2 & H3) & ->). unfold take_expected, assert_that.
    rewrite H2, decide_True by done. simpl. rewrite H1, decide_True by done. simpl. rewrite Hp. simpl.
    by rewrite H3, decide_True by done.
Qed.

(** A transfer is to give a name up and to give it to the target. *)
Lemma transfere_name_done a n t u u' :
  transfere_name a n t u = Done u' ↔ ∃ v, give_up_name a n u = Done v ∧ pick_name t n v = Done u'.
Proof. unfold transfere_name. by rewrite obind_done. Qed.

Lemma name_given_ok a n s u :
  free a n s u → is_Some (identities u !! a) → users_ok u → users_ok (name_given a n s u).
Proof.
  intros (Ha & Hn & Hs) Hp [Ho Hnm Hi Hpr]. constructor; simpl.
  - intros b m. rewrite !lookup_insert_Some, <-Ho. split.
    + intros [[-> ->]|[Hne Hb]]; [by left|]. right. split; [|done]. intros <-. apply Ho in Hb. congruence.
    + intros [[-> ->]|[Hne Hb]]; [by left|]. right. split; [|done]. intros <-. congruence.
  - intros m. setoid_rewrite lookup_insert_Some. rewrite lookup_insert_is_Some', <-Hnm. split.
    + intros (s' & [[? ?]|[? ?]]); [by left|right; by exists s'].
    + intros [->|[s' Hs']]; [exists s; by left|]. exists s'. right. split; [|done]. intros <-. congruence.
  - intros s1 s2 m. rewrite !lookup_insert_Some. intros [[<- <-]|[? H1]] [[<- H2]|[? H2]]; [done| | |by apply (Hi s1 s2 m)].
    + exfalso. assert (is_Some (username_to_owner u !! n)) as [? ?] by (apply Hnm; by exists s2). congruence.
    + subst. exfalso. assert (is_Some (username_to_owner u !! m)) as [? ?] by (apply Hnm; by exists s1). congruence.
  - intros b. rewrite lookup_insert_is_Some'. intros [<-|Hb]; auto.
Qed.

Lemma name_taken_ok a n s u : held a n s u → users_ok u → users_ok (name_taken a n s u).
Proof.
  intros (Ha & Hn & Hs) [Ho Hnm Hi Hpr]. constructor; simpl.
  - intros b m. rewrite !lookup_delete_Some, <-Ho. split; intros [Hne Hb]; (split; [|done]).
    + intros <-. apply Ho in Hb. congruence.
    + intros <-. congruence.
  - intros m. setoid_rewrite lookup_delete_Some. rewrite lookup_delete_is_Some, <-Hnm. split.
    + intros (s' & Hne & Hs'). split; [|by exists s']. intros <-. by apply Hne, (Hi s s' n).
    + intros [Hne [s' Hs']]. exists s'. split; [|done]. intros <-. congruence.
  - intros s1 s2 m. rewrite !lookup_delete_Some. intros [_ H1] [_ H2]. by apply (Hi s1 s2 m).
  - intros b. rewrite lookup_delete_is_Some. intros [_ Hb]. auto.
Qed.

Lemma register_ok c p u : users_ok u → users_ok (with_identities u (<[c:=p]> (identities u))).
Proof.
  intros [Ho Hnm Hi Hpr]. constructor; simpl; [done..|]. intros b Hb. rewrite lookup_insert_is_Some'. auto.
Qed.

Lemma pick_name_ok a n u u' : pick_name a n u = Done u' → users_ok u → users_ok u'.
Proof. intros (p & Hp & Hf & ->)%pick_name_done. apply name_given_ok; [done|by exists p]. Qed.

Lemma give_up_name_ok a n u u' : give_up_name a n u = Done u' → users_ok u → users_ok u'.
Proof. intros (p & Hp & Hf & ->)%give_up_name_done. by apply name_taken_ok. Qed.

Lemma call_ok c m u u' : call c m u = Done u' → users_ok u → users_ok u'.
Proof.
  destruct m as [p|n p|n|n|n t]; simpl.
  - intros [= <-]. apply register_ok.
  - intros H Hu. by apply (pick_name_ok _ _ _ _ H), register_ok.
  - apply pick_name_ok.
  - apply give_up_name_ok.
  - intros (v & Hg & Hp)%transfere_name_done Hu. by eapply pick_name_ok, give_up_name_ok.
Qed.

Lemma user_manager_new_ok : users_ok user_manager_new.
Proof.
  constructor; simpl.
  - intros a n. by rewrite !lookup_empty.
  - intros n. rewrite lookup_empty. split; [intros [s Hs]; by rewrite lookup_empty in Hs|by intros [? ?]].
  - intros s s' n. by rewrite lookup_empty.
  - intros a. rewrite lookup_empty. by intros [? ?].
Qed.

Lemma user_steps_ok u v : rtc user_step u v → users_ok u → users_ok v.
Proof. induction 1 as [|u w v (c & m & Hc) _ IH]; [done|]. intros Hu. by apply IH, (call_ok c m u). Qed.

Lemma user_reachable_ok u : rtc user_step user_manager_new u → users_ok u.
Proof. intros Hr. by apply (user_steps_ok user_manager_new), user_manager_new_ok. Qed.

(** ** Properties *)

(** C35: In every state the naming contract can reach, names are exclusive and resolve: an account
    has a name exactly when the name has that account as its owner, every taken name belongs to
    one identity and every identity has one name, and looking up a taken name gives a profile,
    the one of its owner. *)
Theorem names_exclusive (u : UserManager) :
  rtc user_step user_manager_new u →
  (∀ a n, owner_to_username u !! a = Some n ↔ username_to_owner u !! n = Some a) ∧
  (∀ n, is_Some (username_to_owner u !! n) → ∃ s, ∀ s', get_username s' u = Some n ↔ s' = s) ∧
  (∀ s n, get_username s u = Some n → ∃ a p, username_to_owner u !! n = Some a ∧
    get_profile a u = Some p ∧ get_profile_by_name n u = Some p).
Proof.
  intros [Ho Hnm Hi Hpr]%user_reachable_ok. split; [done|]. split.
  - intros n [s Hs]%Hnm. exists s. intros s'. unfold get_username. split; [|by intros ->]. intros Hs'. by apply (Hi s' s n).
  - intros s n Hs. destruct (proj1 (Hnm n)) as [a Ha]; [by exists s|].
    destruct (Hpr a) as [p Hp]; [exists n; by apply Ho|].
    exists a, p. unfold get_profile_by_name, get_profile. by rewrite Ha.
Qed.

(** A name changes hands only by its owner: whatever message another account sends, the
    account keeps its name and the name's identity, and its profile is untouched. A message of
    the owner either keeps the name, gives it up, or moves it whole to the target. *)
Theorem name_moves_by_owner (c a : AccountId) (m : message) (n : RawUserName) (s : CryptoHash) (u u' : UserManager) :
  users_ok u → held a n s u → call c m u = Done u' →
  (held a n s u' ∧ (c ≠ a → identities u' !! a = identities u !! a)) ∨
  (c = a ∧ m = GiveUpName n ∧ username_to_owner u' !! n = None ∧ identity_to_username u' !! s = None) ∨
  (∃ t p, c = a ∧ m = TransfereName n t ∧ identities u !! t = Some p ∧ held t n (sign p) u').
Proof.
  intros [Ho Hnm Hi Hpr] (Ha & Hn & Hs) Hc.
  assert (∀ b k p v, free b k (sign p) v → held a n s v → held a n s (name_given b k (sign p) v)) as Hgiven.
  { intros b k p v (Hb & Hk & Hp) (H1 & H2 & H3).
    by repeat split; simpl; rewrite lookup_insert_ne by (intros <-; congruence). }
  destruct m as [p|k p|k|k|k t]; simpl in Hc.
  - injection Hc as <-. left. split; [done|]. intros Hne. simpl. by rewrite lookup_insert_ne.
  - apply pick_name_done in Hc as (p' & Hp & Hf & ->). left. split; [by apply Hgiven|].
    intros Hne. simpl. by rewrite lookup_insert_ne.
  - apply pick_name_done in Hc as (p' & Hp & Hf & ->). left. split; [by apply Hgiven|done].
  - apply give_up_name_done in Hc as (p & Hp & (H1 & H2 & H3) & ->). destruct (decide (c = a)) as [->|Hne].
    + right. left. simplify_eq. rewrite (Hi s (sign p) n) by done. simpl. by rewrite !lookup_delete_eq.
    + left. split; [|done]. assert (k ≠ n) by (intros ->; congruence).
      by repeat split; simpl; rewrite lookup_delete_ne by (done || (intros <-; congruence)).
  - apply transfere_name_done in Hc as (v & (p & Hp & (H1 & H2 & H3) & ->)%give_up_name_done & Hc).
    apply pick_name_done in Hc as (q & Hq & Hf & ->). destruct (decide (c = a)) as [->|Hne].
    + right. right. exists t, q. simplify_eq. split; [done|]. split; [done|]. split; [done|].
      by repeat split; simpl; rewrite lookup_insert_eq.
    + left. split; [|done]. assert (k ≠ n) by (intros ->; congruence). apply Hgiven; [done|].
      by repeat split; simpl; rewrite lookup_delete_ne by (done || (intros <-; congruence)).
Qed.

(** An account that registers a new signing key while it has a name is stuck with that name:
    it can neither give it up nor transfer it, the new key resolves to no name and the old one
    still does. Registering the old key again frees it. *)
Theorem name_stuck_after_register (a t : AccountId) (n : RawUserName) (p p' : Profile) (u : UserManager) :
  users_ok u → held a n (sign p) u → identities u !! a = Some p → sign p' ≠ sign p →
  identity_to_username u !! sign p' = None →
  ∃ v, register a p' u = Done v ∧ give_up_name a n v = Panic ∧ transfere_name a n t v = Panic ∧
    get_username (sign p) v = Some n ∧ get_username (sign p') v = None ∧
    get_profile_by_name n v = Some p' ∧
    ∃ w, register a p v = Done w ∧ give_up_name a n w = Done (name_taken a n (sign p) u).
Proof.
  intros Hu Hh Hp Hne Hfree. pose proof Hh as (Ha & Hn & Hs). eexists. split; [done|].
  set (v := with_identities u _).
  assert (give_up_name a n v = Panic) as Hg.
  { destruct (give_up_name a n v) eqn:Hg; [|done].
    apply give_up_name_done in Hg as (q & Hq & (_ & _ & Hsq) & _). simpl in Hq, Hsq.
    rewrite lookup_insert_eq in Hq. simplify_eq. }
  split; [done|]. split; [unfold transfere_name; by rewrite Hg|].
  split; [done|]. split; [done|]. split.
  { unfold get_profile_by_name. simpl. rewrite Hn. by rewrite lookup_insert_eq. }
  eexists. split; [done|]. apply give_up_name_done. exists p. simpl. rewrite lookup_insert_eq.
  split; [done|]. split; [done|]. unfold name_taken. simpl. by rewrite insert_insert_eq, insert_id.
Qed.

Definition demo_profile (n : Z) : Profile := {| sign := [n]; enc := [n] |}.
Definition demo_users : UserManager :=
  match register_with_name [1] [65] (demo_profile 1) user_manager_new with Done u => u | Panic => user_manager_new end.

Lemma demo_users_reachable : rtc user_step user_manager_new demo_users.
Proof. apply rtc_once. by exists [1], (RegisterWithName [65] (demo_profile 1)). Qed.

Lemma names_exclusive_witness : ∃ p, get_profile_by_name [65] demo_users = Some p ∧ sign p = [1].
Proof.
  destruct (names_exclusive demo_users demo_users_reachable) as (_ & _ & H).
  destruct (H [1] [65] eq_refl) as (a & p & _ & _ & Hp). exists p. split; [exact Hp|].
  assert (get_profile_by_name [65] demo_users = Some (demo_profile 1)) as He by reflexivity.
  rewrite He in Hp. injection Hp as <-. reflexivity.
Defined.

Lemma name_moves_by_owner_witness :
  ∃ u', call [2] (Register (demo_profile 1)) demo_users = Done u' ∧ owner_to_username u' !! [1] = Some [65].
Proof.
  eexists. split; [reflexivity|].
  destruct (name_moves_by_owner [2] [1] (Register (demo_profile 1)) [65] [1] demo_users _
    (user_reachable_ok _ demo_users_reachable) (conj eq_refl (conj eq_refl eq_refl)) eq_refl)
    as [[(H & _) _]|[(H & _)|(t & p & H & _)]]; [exact H|discriminate H..].
Defined.

Lemma name_stuck_after_register_witness :
  ∃ v, register [1] (demo_profile 2) demo_users = Done v ∧ give_up_name [1] [65] v = Panic.
Proof.
  destruct (name_stuck_after_register [1] [2] [65] (demo_profile 1) (demo_profile 2) demo_users
    (user_reachable_ok _ demo_users_reachable) (conj eq_refl (conj eq_refl eq_refl)) eq_refl
    ltac:(intros [=]) eq_refl) as (v & H1 & H2 & _).
  exists v. split; [exact H1|exact H2].
Defined.
