(* ===== verification/Node.v ===== *)
(** The server node of [nodes/server/src/main.rs]: the events it reacts to, the two routers it
    dispatches them to, and the routing table it keeps in step with the staking contract.

    The swarm is a list of its events; the multiaddresses and Ed25519 keys of libp2p are
    interfaces. The loop of [poll] is a fold over the events that are ready. *)

From S2P Require Import Prelude Collections NodeStaker.
From S2P Require Import Codec Messages Streams Collections Dht ChatSpec Chat Server.
From S2P Require Import ChatHandlers Profiles Replication Router.

(** ** Addresses ([core/chain-types/src/lib.rs]) *)

Notation NodeAddress := NodeStaker.NodeAddress (only parsing).
Notation StakeEvent := NodeStaker.StakerEvent (only parsing).

(** [std::net::IpAddr], its octets. *)
Inductive IpAddr := V4 (octets : bytes) | V6 (octets : bytes).

Definition node_address_from (a : IpAddr * Z) : NodeAddress :=
  match a with
  | (V4 ip, port) => NodeStaker.Ip4 (ip ++ be_bytes 2 port)
  | (V6 ip, port) => NodeStaker.Ip6 (ip ++ be_bytes 2 port)
  end.
Definition node_address_into (value : NodeAddress) : IpAddr * Z :=
  match value with
  | NodeStaker.Ip4 b => (V4 (take 4 b), be_value (take 2 (drop 4 b)))
  | NodeStaker.Ip6 b => (V6 (take 16 b), be_value (take 2 (drop 16 b)))
  end.

(** ** Interfaces *)

(** [Multiaddr]: a sequence of protocols, of which the node uses four. *)
Class Multiaddr (A P : Type) := {
  multiaddr_empty : A;
  multiaddr_with : A → P → A;
  multiaddr_iter : A → list P;
  proto_ip4 : bytes → P; proto_ip6 : bytes → P; proto_tcp : Z → P; proto_ws : bytes → P;
  #[global] proto_eq_dec :: EqDecision P;
}.

(** [ed25519::PublicKey::try_from_bytes]: the bytes of a key, if they are one. *)
Class EdKeys := ed_try_from_bytes : bytes → option bytes.

Definition unpack_node_id `{EdKeys} (id : bytes) : option bytes := ed_try_from_bytes id.

Section addr.
Context {A P : Type} `{Multiaddr A P}.

Definition unpack_node_addr (addr : NodeAddress) : A :=
  let (addr, port) := node_address_into addr in
  multiaddr_with
    (multiaddr_with multiaddr_empty (match addr with V4 ip => proto_ip4 ip | V6 ip => proto_ip6 ip end))
    (proto_tcp port).

(* Route::new *)
Definition route_new (pk : bytes) (addr : A) : Route A := {| id := be_value pk; addr := addr |}.

(* ASCII of the path of the websocket listener *)
Definition ws_path : bytes := [47].

Inductive ConnectionDenied := NotRegistered.

(* the filter of the dht behaviour; the table is looked at only for connections from nodes *)
Definition filter_incoming (table : RoutingTable A) (peer : PeerId) (local_addr _remote : A) :
    outcome (result unit ConnectionDenied * RoutingTable A) :=
  if existsb (λ p, bool_decide (p = proto_ws ws_path)) (multiaddr_iter local_addr) then Done (Ok tt, table)
  else
    try! found := get_route peer table in
    match found with
    | None => Done (Err NotRegistered, table)
    | Some _ => Done (Ok tt, table)
    end.
End addr.

(** ** The node *)

Section node.
Context {R St A P : Type}.
Context `{RpcNet R, ClientStream St, Ed25519, Blake3, Signatures, Multiaddr A P, EdKeys}.
Notation Cx := (Cx R St A).
Notation Stream := (Stream St).

(** [main::Server]: [cx] holds the swarm, the clients and the storage. The stake events are an
    argument of their handler. *)
Record Node := MkNode {
  cx : Cx;
  buffer : bytes;
  internal : nests (R := R) (St := St) (Addr := A) internal_server;
  external : nests (R := R) (St := St) (Addr := A) external_server;
}.
Implicit Types (n : Node).

Definition with_cx n (c : Cx) : Node := MkNode c (buffer n) (internal n) (external n).

(* Server::new: a node of the list with an invalid key is an error *)
Fixpoint routes_of (node_list : list (NodeStaker.NodeData * NodeAddress)) : option (list (Route A)) :=
  match node_list with
  | [] => Some []
  | (node, addr) :: node_list =>
      match unpack_node_id (NodeStaker.data_id node), routes_of node_list with
      | Some pk, Some routes => Some (route_new pk (unpack_node_addr addr) :: routes)
      | _, _ => None
      end
  end.

Definition server_new (us : PeerId) (net : R) (node_list : list (NodeStaker.NodeData * NodeAddress)) :
    outcome (option Node) :=
  match routes_of node_list with
  | None => Done None
  | Some node_data =>
      try! table := bulk_insert node_data [] in
      Done (Some (MkNode {| table := table; rpc := net; local_peer_id := us; clients := [];
                            storage := storage_default |}
                    [] (nests_default _) (nests_default _)))
  end.

(** *** Answers *)

Definition stream_new (id : PathId) (inner : St) : Stream :=
  {| stream_id := id; subscriptions := LinearMap.default; inner := inner |}.

Definition respond_to (peer : PeerId) (id : CallId) n : Node :=
  with_cx n (with_rpc (cx n) (rpc_respond peer id (buffer n) (rpc (cx n)))).

(* a failed write only makes a log entry *)
Definition write_to (i : nat) (id : CallId) n : Node :=
  with_cx n (with_clients (cx n)
    (alter (λ s, snd (stream_put (pair_codec usize_codec reminder_codec) (id, buffer n) s)) i
       (clients (cx n)))).

(** *** Events of the swarm *)

(** [BehaviourEvent], as far as the node tells events apart; [EvOther] are the other events of the
    onion and those of the dht and the report behaviours. *)
Inductive BehaviourEvent :=
  | EvRpc (ev : RpcEvent)
  | EvInboundStream (inner : St) (id : PathId)
  | EvOther.
Inductive SwarmEvent := Behaviour (ev : BehaviourEvent) | SwarmOther.

(* TryUnwrap<rpc::Event> *)
Definition try_unwrap (ev : BehaviourEvent) : option RpcEvent :=
  match ev with EvRpc ev => Some ev | _ => None end.

(* the routers' try_complete: an event that is not for the handlers is given back *)
Definition complete_event (ev : BehaviourEvent) n : outcome (option (RequestOrigin * CallId) * Node) :=
  match try_unwrap ev with
  | None => Done (None, n)
  | Some ev =>
      try! (res, buffer, internal, cx) :=
        router_try_complete internal_server (internal n) ev (buffer n) (cx n) in
      let n := MkNode cx buffer internal (external n) in
      match res with
      | Some done => Done (Some done, n)
      | None =>
          try! (res, buffer, external, cx) :=
            router_try_complete external_server (external n) ev buffer cx in
          Done (res, MkNode cx buffer internal external)
      end
  end.

Definition handle_request (peer : PeerId) (id : CallId) (body : bytes) n : outcome Node :=
  try! found := get_route peer (table (cx n)) in
  match found with
  | None => Done n
  | Some _ =>
      match body with
      | [] => Done n
      | prefix :: body =>
          let req := {| r_prefix := prefix; r_id := id; r_origin := Server peer; r_body := body |} in
          try! (res, buffer, internal, cx) :=
            router_execute internal_server (internal n) req [] (cx n) in
          let n := MkNode cx buffer internal (external n) in
          match res with
          | Ok true => Done (respond_to peer id n)
          | Ok false | Err _ => Done n
          end
      end
  end.

Definition handle_event (ev : SwarmEvent) n : outcome Node :=
  match ev with
  | Behaviour (EvRpc (RpcRequest peer id body)) => handle_request peer id body n
  | Behaviour (EvInboundStream inner id) =>
      Done (with_cx n (with_clients (cx n) (clients (cx n) ++ [stream_new id inner])))
  | Behaviour ev =>
      try! (res, n) := complete_event ev (MkNode (cx n) [] (internal n) (external n)) in
      match res with
      | None => Done n
      | Some (Client pid, id) =>
          match find_stream pid (clients (cx n)) with
          | None => Done n
          | Some i => Done (write_to i id n)
          end
      | Some (Server mid, id) => Done (respond_to mid id n)
      end
  | SwarmOther => Done n
  end.

(** *** Messages of clients *)

Definition handle_client_message (id : PathId) (req : result bytes unit) n : outcome Node :=
  match req with
  | Err _ => Done n
  | Ok req =>
      match fst (decode client_request_codec req) with
      | None => Done n
      | Some r =>
          let req := {| r_prefix := req_prefix r; r_id := req_id r; r_origin := Client id;
                        r_body := req_body r |} in
          try! (res, buffer, external, cx) :=
            router_execute external_server (external n) req [] (cx n) in
          let n := MkNode cx buffer (internal n) external in
          match res with
          | Ok true =>
              try! i := unwrap (find_stream id (clients cx)) in
              Done (write_to i (req_id r) n)
          | Ok false | Err _ => Done n
          end
      end
  end.

(** *** Events of the chain *)

Definition with_node_table n (t : RoutingTable A) : Node := with_cx n (with_table (cx n) t).

(* identity::PublicKey::from(pk).to_peer_id() is [ed_peer_id] *)
Definition handle_stake_event (event : result StakeEvent unit) n : outcome Node :=
  match event with
  | Err _ => Done n
  | Ok (NodeStaker.Joined identity addr) | Ok (NodeStaker.AddrChanged identity addr) =>
      match unpack_node_id identity with
      | None => Done n
      | Some pk =>
          let route := route_new pk (unpack_node_addr addr) in
          Done (with_node_table n (insert_route route (table (cx n))))
      end
  | Ok (NodeStaker.Reclaimed identity) =>
      match unpack_node_id identity with
      | None => Done n
      | Some pk =>
          try! (_, t) := remove_route (ed_peer_id pk) (table (cx n)) in
          Done (with_node_table n t)
      end
  end.

(** *** The loop *)

Inductive NodeEvent :=
  | ClientMessage (id : PathId) (req : result bytes unit)
  | ClientGone (id : PathId)
  | Swarm (ev : SwarmEvent)
  | Stake (ev : result StakeEvent unit).

(* SelectAll drops a stream that has ended *)
Definition drop_client (id : PathId) n : Node :=
  with_cx n (with_clients (cx n) (filter (λ s, stream_id s ≠ id) (clients (cx n)))).

Definition node_step (ev : NodeEvent) n : outcome Node :=
  match ev with
  | ClientMessage id req => handle_client_message id req n
  | ClientGone id => Done (drop_client id n)
  | Swarm ev => handle_event ev n
  | Stake ev => handle_stake_event ev n
  end.

Fixpoint node_run (evs : list NodeEvent) n : outcome Node :=
  match evs with
  | [] => Done n
  | ev :: evs => try! n := node_step ev n in node_run evs n
  end.

Lemma node_run_app evs evs' n :
  node_run (evs ++ evs') n = try! n := node_run evs n in node_run evs' n.
Proof.
  revert n. induction evs as [|ev evs IH]; intros n; [done|]. simpl.
  destruct (node_step ev n) as [n'|]; [apply IH|done].
Qed.

(* poll: what the clients sent, then the swarm, then the chain *)
Definition poll (messages : list (PathId * result bytes unit)) (events : list SwarmEvent)
    (stake_events : list (result StakeEvent unit)) n : outcome Node :=
  node_run (map (λ m, ClientMessage m.1 m.2) messages ++ map Swarm events ++ map Stake stake_events) n.
End node.
Arguments Node R St A {_ _ _ _ _}.
