(* ===== verification/Safety.v ===== *)
(** What holds of a node whatever its clients, the other nodes and the chain do: profiles stay
    genuine and nonces are never taken back; and what it takes from whom.

    Each property is a relation that every operation preserves (Router.v carries it through the
    adapters, the nests and the routers), closed under the steps of Node.v. *)

From S2P Require Import Prelude Codec Messages Streams Collections Dht ChatSpec Chat Server.
From S2P Require Import ChatHandlers Profiles Replication Router Node.

(** ** Profiles *)

Section profiles.
Context {R St A : Type} `{RpcNet R, ClientStream St, Ed25519, Blake3, Signatures}.
Notation Cx := (Cx R St A).
Implicit Types (cx : Cx) (p : Profile) (i : Identity).

(** The keys that ever signed anything do not collide under BLAKE3. *)
Definition keys_distinct : Prop := ∀ p q : Proof bytes,
  verify p = true → verify q = true → from_raw (pk p) = from_raw (pk q) → pk p = pk q.

Definition genuine i p : Prop := from_raw (sign p) = i ∧ is_valid p = true.
Definition all_genuine cx : Prop := map_Forall genuine (profiles (storage cx)).

(** The vault of a profile is only replaced by a newer one of the same key. *)
Definition succeeds p p' : Prop :=
  sign p' = sign p ∧ vault_version p ≤ vault_version p' ∧
  (vault_version p' = vault_version p → vault p' = vault p ∧ last_sig p' = last_sig p).

Definition profiles_kept cx cx' : Prop :=
  all_genuine cx → all_genuine cx' ∧
  ∀ i p, get_profile cx i = Some p → ∃ p', get_profile cx' i = Some p' ∧ succeeds p p'.

#[global] Instance succeeds_preorder : PreOrder succeeds.
Proof.
  split; [done|]. intros p1 p2 p3 (?&?&E1) (?&?&E2). split; [congruence|]. split; [lia|].
  intros Hv. destruct E1 as [? ?]; [lia|]. destruct E2 as [? ?]; [lia|]. split; congruence.
Qed.

#[global] Instance profiles_kept_preorder : PreOrder profiles_kept.
Proof.
  split; [intros cx Hok; split; [done|]; intros i p Hp; by exists p|].
  intros cx1 cx2 cx3 H12 H23 Hok. destruct (H12 Hok) as [Hok2 He12]. destruct (H23 Hok2) as [Hok3 He23].
  split; [done|]. intros i p Hp. destruct (He12 i p Hp) as (p2 & Hp2 & Hn2).
  destruct (He23 i p2 Hp2) as (p3 & Hp3 & Hn3). exists p3. split; [done|]. by etrans.
Qed.

Lemma same_profiles_kept cx cx' :
  profiles (storage cx') = profiles (storage cx) → profiles_kept cx cx'.
Proof.
  intros He Hok. unfold all_genuine, get_profile. rewrite He. split; [done|].
  intros i p Hp. by exists p.
Qed.

(** One profile is written; the old one is known to be genuine. *)
Lemma put_profile_kept cx cx' i p :
  profiles (storage cx') = <[i:=p]> (profiles (storage cx)) →
  (all_genuine cx → genuine i p ∧ ∀ old, get_profile cx i = Some old → succeeds old p) →
  profiles_kept cx cx'.
Proof.
  intros He Hp Hok. destruct (Hp Hok) as [Hg Hs]. unfold all_genuine, get_profile. rewrite He.
  split; [by apply map_Forall_insert_2|]. intros j old Hj. destruct (decide (i = j)) as [<-|Hne].
  - exists p. rewrite lookup_insert_eq. auto.
  - exists old. by rewrite lookup_insert_ne.
Qed.

Lemma with_mail_kept cx cx' i p m n :
  get_profile cx i = Some p → profiles (storage cx') = <[i:=with_mail (with_mail_action p n) m]> (profiles (storage cx)) →
  profiles_kept cx cx'.
Proof.
  intros Hg He. eapply put_profile_kept; [done|]. intros Hok. split; [exact (Hok i p Hg)|].
  intros old Ho. rewrite Hg in Ho. injection Ho as <-. split; [done|]. simpl. split; [lia|done].
Qed.

(** A signed vault that is newer succeeds the stored one. *)
Lemma with_vault_kept cx cx' i p (proof : Proof bytes) :
  keys_distinct → verify proof = true → i = from_raw (pk proof) →
  get_profile cx i = Some p → vault_version p < nonce proof →
  profiles (storage cx') =
    <[i:=with_vault p (nonce proof) (signature proof) (context proof)]> (profiles (storage cx)) →
  profiles_kept cx cx'.
Proof.
  intros Hd Hv -> Hg Hlt He. eapply put_profile_kept; [done|]. intros Hok.
  destruct (Hok _ _ Hg) as [Hi Hvalid].
  assert (sign p = pk proof) as Hs by exact (Hd _ _ Hvalid Hv Hi).
  split; [split; [done|]; unfold is_valid, with_vault; simpl; rewrite Hs; by destruct proof|].
  intros old Ho. rewrite Hg in Ho. injection Ho as <-. split; [done|]. simpl. split; [lia|].
  intros Heq. lia.
Qed.

Lemma create_profile_kept req cx : keys_distinct → profiles_kept cx (snd (create_profile req cx)).
Proof.
  intros Hd. destruct req as [proof enc]. unfold create_profile.
  destruct (verify proof) eqn:Hv; [|by apply same_profiles_kept]. cbn [negb].
  destruct (get_profile cx (from_raw (pk proof))) as [old|] eqn:Hg.
  - case_decide; [|by apply same_profiles_kept]. by eapply with_vault_kept.
  - eapply put_profile_kept; [done|]. intros _. split; [split; [done|by destruct proof]|].
    intros old Ho. by rewrite Hg in Ho.
Qed.

Lemma set_vault_kept proof cx : keys_distinct → profiles_kept cx (snd (set_vault proof cx)).
Proof.
  intros Hd. unfold set_vault.
  destruct (verify proof) eqn:Hv; [|by apply same_profiles_kept]. cbn [negb].
  destruct (get_profile cx (from_raw (pk proof))) as [old|] eqn:Hg; [|by apply same_profiles_kept].
  unfold advance_nonce. case_bool_decide; [|by apply same_profiles_kept].
  cbn [negb snd]. eapply with_vault_kept; try done. lia.
Qed.

Lemma read_mail_kept o proof cx : profiles_kept cx (snd (read_mail_handler o proof cx)).
Proof.
  unfold read_mail_handler.
  destruct (verify proof); [|by apply same_profiles_kept]. cbn [negb].
  destruct (get_profile cx (from_raw (pk proof))) as [old|] eqn:Hg; [|by apply same_profiles_kept].
  unfold advance_nonce. case_bool_decide; [|by apply same_profiles_kept].
  by eapply with_mail_kept.
Qed.

Lemma send_mail_kept_genuine : keeps profiles_kept (send_mail_handler (R := R) (S := St) (Addr := A)).
Proof.
  split.
  - intros sc [i m] cx r cx' He%send_mail_execute_spec.
    destruct r as [[u|e]|h]; [|by apply same_profiles_kept|];
      destruct He as (p & Hg & _ & Hp); by eapply (with_mail_kept _ _ _ p _ (mail_action p)).
  - intros h sc ev cx r cx'. simpl. unfold send_mail_resume.
    destruct ev as [peer call res|]; [|by intros [= _ <-]; apply same_profiles_kept].
    case_decide; [|by intros [= _ <-]; apply same_profiles_kept].
    destruct res as [response|]; [|by intros [= _ <-]; apply same_profiles_kept].
    destruct (fst (decode send_mail_response_codec response)) as [[u|[]]|];
      try by intros [= _ <-]; apply same_profiles_kept.
    unfold pop_pushed_mail. intros [= _ <-].
    destruct (get_profile cx (for_who h)) as [p|] eqn:Hg; [|by apply same_profiles_kept].
    by eapply (with_mail_kept _ _ _ p _ (mail_action p)).
Qed.

(** A profile another replicator sends is checked before it replaces ours. *)
Lemma restore_profile_kept i response cx : keys_distinct → profiles_kept cx (restore_profile i response cx).
Proof.
  intros Hd. unfold restore_profile.
  destruct (fst _) as [[p|]|]; try by apply same_profiles_kept.
  case_decide as Hi; [|by apply same_profiles_kept].
  destruct (is_valid p) eqn:Hv; [|by apply same_profiles_kept].
  assert (∀ old, get_profile cx i = Some old → all_genuine cx → sign p = sign old) as Hsign.
  { intros old Hg Hok. destruct (Hok _ _ Hg) as [Ho Hvo]. exact (Hd _ _ Hv Hvo (eq_trans Hi (eq_sym Ho))). }
  destruct (get_profile cx i) as [old|] eqn:Hg; [case_decide; [by apply same_profiles_kept|]|];
    (eapply put_profile_kept; [done|]; intros Hok; split; [done|]); intros old' Ho; [|by rewrite Hg in Ho].
  rewrite Hg in Ho. injection Ho as <-. split; [by apply Hsign|]. split; [lia|]. intros. lia.
Qed.

(** The requests of chats leave the profiles alone. *)
Lemma put_chat_profiles cx name c : profiles_kept cx (put_chat cx name c).
Proof. by apply same_profiles_kept. Qed.
End profiles.

(** ** Chats *)

Section chats.
Context {R St A : Type} `{RpcNet R, ClientStream St, Ed25519, Blake3, Signatures}.
Notation Cx := (Cx R St A).
Implicit Types (cx : Cx) (c : Chat).

(** No member is lost and no spent nonce becomes fresh again. *)
Definition chat_succeeds c c' : Prop := ∀ id m, members c !! id = Some m →
  ∃ m', members c' !! id = Some m' ∧ Chat.action m ≤ Chat.action m'.
Definition chats_kept cx cx' : Prop := ∀ name c, get_chat cx name = Some c →
  ∃ c', get_chat cx' name = Some c' ∧ chat_succeeds c c'.

#[global] Instance chat_succeeds_preorder : PreOrder chat_succeeds.
Proof.
  split; [intros c id m Hm; by exists m|]. intros c1 c2 c3 H12 H23 id m Hm.
  destruct (H12 id m Hm) as (m2 & Hm2 & ?). destruct (H23 id m2 Hm2) as (m3 & Hm3 & ?).
  exists m3. split; [done|lia].
Qed.

#[global] Instance chats_kept_preorder : PreOrder chats_kept.
Proof.
  split; [intros cx name c Hc; by exists c|]. intros cx1 cx2 cx3 H12 H23 name c Hc.
  destruct (H12 name c Hc) as (c2 & Hc2 & ?). destruct (H23 name c2 Hc2) as (c3 & Hc3 & ?).
  exists c3. split; [done|]. by etrans.
Qed.

Lemma same_members_succeed c c' : members c' = members c → chat_succeeds c c'.
Proof. intros He id m Hm. rewrite He. by exists m. Qed.

Lemma same_chats_kept cx cx' : chats (storage cx') = chats (storage cx) → chats_kept cx cx'.
Proof. intros He name c Hc. unfold get_chat. rewrite He. by exists c. Qed.

Lemma put_chat_kept cx cx' name c c' :
  chats (storage cx') = chats (storage (put_chat cx name c')) →
  get_chat cx name = Some c → chat_succeeds c c' → chats_kept cx cx'.
Proof.
  intros He Hg Hs name1 c1 Hc1. unfold get_chat. rewrite He. fold (get_chat (put_chat cx name c') name1).
  destruct (decide (name1 = name)) as [->|Hne].
  - rewrite get_put_chat. rewrite Hg in Hc1. injection Hc1 as <-. by exists c'.
  - rewrite get_put_chat_ne by done. by exists c1.
Qed.

(** A request about chats: profiles are not touched. *)
Definition chat_request cx cx' : Prop :=
  profiles (storage cx') = profiles (storage cx) ∧ chats_kept cx cx'.

Lemma create_chat_kept req cx : chat_request cx (snd (create_chat req cx)).
Proof.
  destruct req as [name i]. unfold create_chat.
  destruct (get_chat cx name) as [c|] eqn:Hg; [done|]. split; [done|]. simpl.
  intros name1 c1 Hc1. rewrite get_put_chat_ne by congruence. by exists c1.
Qed.

Lemma propose_block_members number phash index c r c' :
  propose_block number phash index c = Done (r, c') → members c' = members c.
Proof. unfold propose_block, finalize_current_block, push_to_finalized. repeat case_match; by intros; simplify_eq. Qed.

Lemma send_block_members number block index c r c' :
  send_block number block index c = Done (r, c') → members c' = members c.
Proof.
  unfold send_block. repeat case_match; try by intros; simplify_eq.
  all: destruct (hash_block block) as [[h t]|]; [|done]; cbn [obind].
  all: unfold finalize_current_block, push_to_finalized; repeat case_match; by intros; simplify_eq.
Qed.

Lemma spend_succeeds c id m n :
  members c !! id = Some m → Chat.action m ≤ n →
  chat_succeeds c (with_members c (<[id:={| Chat.action := n |}]> (members c))).
Proof.
  intros Hm Hn id1 m1 Hm1. simpl. destruct (decide (id = id1)) as [<-|Hne].
  - rewrite lookup_insert_eq. eexists. split; [done|]. simpl. by replace m1 with m by congruence.
  - rewrite lookup_insert_ne by done. by exists m1.
Qed.

Lemma add_succeeds c id :
  members c !! id = None → chat_succeeds c (with_members c (<[id:=member_new]> (members c))).
Proof.
  intros Hm id1 m1 Hm1. simpl. rewrite lookup_insert_ne by congruence. by exists m1.
Qed.

Lemma proposals_storage name number h cx cx' :
  send_block_proposals name number h cx = Done cx' → storage cx' = storage cx.
Proof. unfold send_block_proposals. destruct (encode _ _ _) as [[u|] msg]; [|done]. by intros [= <-]. Qed.

(** The sender's nonce was advanced, and then the message was sent. *)
Lemma send_message_request proof msg cx chat current r cx' :
  (let bn := block_number chat in
   let message := MkMessage (from_raw (pk proof)) (wrap 64 (current - 1)) msg in
   try! (res, chat) := push_message message_codec message chat in
   let cx := put_chat cx (context proof) chat in
   match res with
   | Err None => Done (Err MessageBlockNotFinalized, cx)
   | Err (Some h) =>
       try! cx := send_block_proposals (context proof) bn h cx in
       Done (Ok tt, push_chat_event (context proof) (EvMessage proof msg) cx)
   | Ok _ => Done (Ok tt, push_chat_event (context proof) (EvMessage proof msg) cx)
   end) = Done (r, cx') →
  ∃ chat', members chat' = members chat ∧ storage cx' = storage (put_chat cx (context proof) chat').
Proof.
  cbn zeta. intros ([res chat'] & Hp & Hd)%obind_done. apply push_message_frame in Hp as [_ Hm].
  exists chat'. split; [done|]. destruct res as [x|[h|]].
  - injection Hd as _ <-. apply storage_push_event.
  - apply obind_done in Hd as (cx1 & Hp1%proposals_storage & [= _ <-]).
    by rewrite storage_push_event.
  - by injection Hd as _ <-.
Qed.

Lemma perform_chat_action_kept req cx r cx' :
  perform_chat_action req cx = Done (r, cx') → chat_request cx cx'.
Proof.
  destruct req as [proof a]. unfold perform_chat_action.
  destruct (verify proof); [|by intros [= _ <-]]. cbn [negb].
  destruct (get_chat cx (context proof)) as [chat|] eqn:Hg; [|by intros [= _ <-]].
  destruct (members chat !! _) as [m|] eqn:Hm; [|by intros [= _ <-]].
  unfold advance_nonce. case_bool_decide as Hn; [|by intros [= _ <-]]. cbn [negb].
  set (chat1 := with_members chat _). cbn zeta.
  assert (chat_succeeds chat chat1) as Hs1 by (eapply spend_succeeds; [done|lia]).
  assert (∀ chat2, chat_succeeds chat1 chat2 →
    storage cx' = storage (put_chat (put_chat cx (context proof) chat1) (context proof) chat2) →
    chat_request cx cx') as Hput.
  { intros chat2 Hs2 Hst. rewrite put_put_chat in Hst. split; [by rewrite Hst|].
    eapply (put_chat_kept cx cx' (context proof) chat chat2); [by rewrite Hst|done|by etrans]. }
  assert (storage cx' = storage (put_chat cx (context proof) chat1) → chat_request cx cx') as Hspent.
  { intros Hst. apply (Hput chat1); [done|]. by rewrite put_put_chat. }
  destruct a as [id|msg].
  - destruct (members chat1 !! id) as [m2|] eqn:Hid; intros [= _ <-]; [by apply Hspent|].
    by apply (Hput _ (add_succeeds _ _ Hid)).
  - case_decide; [intros [= _ <-]; by apply Hspent|].
    intros (chat2 & Hmem & Hst)%send_message_request.
    by apply (Hput chat2 (same_members_succeed _ _ Hmem)).
Qed.

(** The two requests of replicators store the chat their operation left. *)
Lemma put_operated cx cx' name c c' :
  get_chat cx name = Some c → members c' = members c →
  storage cx' = storage (put_chat cx name c') → chat_request cx cx'.
Proof.
  intros Hg Hm Hst. split; [by rewrite Hst|].
  eapply put_chat_kept; [by rewrite Hst|done|by apply same_members_succeed].
Qed.

Lemma propose_msg_block_kept o req cx r cx' :
  propose_msg_block o req cx = Done (r, cx') → chat_request cx cx'.
Proof.
  destruct req as [name [number phash]]. unfold propose_msg_block.
  destruct o as [|peer]; [by intros [= _ <-]|].
  destruct (replicator_index _ _ _) as [index|]; [|by intros [= _ <-]].
  destruct (get_chat cx name) as [chat|] eqn:Hg; [|by intros [= _ <-]].
  intros ([res chat'] & Hp%propose_block_members & Hd)%obind_done. cbn zeta in Hd.
  apply (put_operated cx cx' name chat chat' Hg Hp).
  destruct res as [[data|]|e]; [|by injection Hd as _ <-|by injection Hd as _ <-].
  destruct (to_bytes _ _); [|done]. by injection Hd as _ <-.
Qed.

Lemma send_block_kept o req cx r cx' :
  send_block_handler o req cx = Done (r, cx') → chat_request cx cx'.
Proof.
  destruct req as [name [number block]]. unfold send_block_handler.
  destruct (replicator_index _ _ _) as [index|]; [|by intros [= _ <-]].
  destruct (get_chat cx name) as [chat|] eqn:Hg; [|by intros [= _ <-]].
  intros ([res chat'] & Hp%send_block_members & [= _ <-])%obind_done.
  by apply (put_operated cx (put_chat cx name chat') name chat chat' Hg Hp).
Qed.
End chats.

(** ** The whole node *)

Section node.
Context {R St A P : Type}.
Context `{RpcNet R, ClientStream St, Ed25519, Blake3, Signatures, Multiaddr A P, EdKeys}.
Notation Cx := (Cx R St A).
Notation Node := (Node R St A).
Implicit Types (c : Cx) (n : Node).

(* only the profiles rely on keys that do not collide *)
Definition storage_kept c c' : Prop := (keys_distinct → profiles_kept c c') ∧ chats_kept c c'.

#[global] Instance storage_kept_preorder : PreOrder storage_kept.
Proof.
  split; [by intros c|]. intros c1 c2 c3 [Ha Hb] [Hc Hd]. split; [|by etrans].
  intros Hk. etrans; [by apply Ha|by apply Hc].
Qed.

Lemma quiet_kept c c' : storage c' = storage c → storage_kept c c'.
Proof. intros He. split; [intros _; apply same_profiles_kept|apply same_chats_kept]; by rewrite He. Qed.

Lemma chat_request_kept c c' : chat_request c c' → storage_kept c c'.
Proof. intros [Hp Hc]. split; [intros _; by apply same_profiles_kept|done]. Qed.

Lemma profile_request_kept c c' :
  (keys_distinct → profiles_kept c c') → chats (storage c') = chats (storage c) → storage_kept c c'.
Proof. intros Hp Hc. split; [done|by apply same_chats_kept]. Qed.

Lemma restore_storage_kept i response c : storage_kept c (restore_profile i response c).
Proof.
  apply profile_request_kept; [apply restore_profile_kept|].
  unfold restore_profile. by repeat case_match.
Qed.

Lemma storage_operations : operations_keep (R := R) (St := St) (Addr := A) storage_kept.
Proof.
  split.
  - intros req c. apply profile_request_kept; [by apply create_profile_kept|].
    unfold create_profile. by repeat case_match.
  - intros req c. apply profile_request_kept; [by apply set_vault_kept|].
    unfold set_vault. by repeat case_match.
  - destruct (send_mail_kept_genuine (R := R) (St := St) (A := A)) as [He Hr]. split.
    + intros sc [i m] c r c' Hs. apply profile_request_kept; [intros _; by eapply He|].
      cbn [execute send_mail_handler] in Hs. unfold send_mail_execute in Hs. cbn zeta in Hs.
      repeat case_match; simplify_eq; try done;
        apply obind_done in Hs as (packet & _ & Hs); repeat case_match; by simplify_eq.
    + intros h sc ev c r c' Hs. apply profile_request_kept; [intros _; by eapply Hr|].
      cbn [resume send_mail_handler] in Hs.
      unfold send_mail_resume, clear_presence, pop_pushed_mail in Hs. repeat case_match; by simplify_eq.
  - intros o req c. apply profile_request_kept; [intros _; apply read_mail_kept|].
    unfold read_mail_handler. by repeat case_match.
  - intros req c. apply chat_request_kept, create_chat_kept.
  - intros req c r c' Hs. by eapply chat_request_kept, perform_chat_action_kept.
  - intros o req c r c' Hs. by eapply chat_request_kept, propose_msg_block_kept.
  - intros o req c r c' Hs. by eapply chat_request_kept, send_block_kept.
Qed.

(** *** Steps *)

(** No nest has an empty slot, so none of their [expect]s fails. *)
Definition nests_ok n : Prop :=
  kept_all internal_server (internal n) ∧ kept_all external_server (external n).

(** What one step keeps, for any relation on the storage. *)
Definition step_keeps n n' : Prop := storage_kept (cx n) (cx n') ∧ (nests_ok n → nests_ok n').

#[global] Instance step_keeps_preorder : PreOrder step_keeps.
Proof.
  split; [by intros n|]. intros n1 n2 n3 [Ha Hb] [Hc Hd]. split; [by etrans|]. auto.
Qed.

Lemma quiet_step n n' :
  storage (cx n') = storage (cx n) → internal n' = internal n → external n' = external n → step_keeps n n'.
Proof. intros Hs Hi He. split; [by apply quiet_kept|]. unfold nests_ok. by rewrite Hi, He. Qed.

Lemma served_kept :
  Forall (keeps_served (R := R) (St := St) (Addr := A) storage_kept) internal_server ∧
  Forall (keeps_served (R := R) (St := St) (Addr := A) storage_kept) external_server.
Proof.
  apply servers_keep; [apply _| | |by apply storage_operations].
  - intros c c' _. apply quiet_kept.
  - intros i response c. by apply restore_storage_kept.
Qed.

Lemma complete_event_keeps ev n res n' : complete_event ev n = Done (res, n') → step_keeps n n'.
Proof.
  unfold complete_event. destruct (try_unwrap ev) as [rev|]; [|by intros [= _ <-]].
  destruct served_kept as [Hin Hex].
  intros ([[[r b] i] c1] & Ha%(router_try_complete_keeps storage_kept) & Hz)%obind_done; [|done].
  destruct r as [done|].
  - injection Hz as _ <-. split; [apply Ha|]. intros [? ?]. split; [by apply Ha|done].
  - apply obind_done in Hz as ([[[r2 b2] e] c2] & Hb%(router_try_complete_keeps storage_kept) & [= _ <-]); [|done].
    split; [by etrans; [apply Ha|apply Hb]|]. intros [? ?]. split; [by apply Ha|by apply Hb].
Qed.

Lemma handle_request_keeps peer id body n n' : handle_request peer id body n = Done n' → step_keeps n n'.
Proof.
  unfold handle_request. intros (found & _ & Hz)%obind_done.
  destruct found; [|by injection Hz as <-]. destruct body as [|prefix body]; [by injection Hz as <-|].
  cbn zeta in Hz. destruct served_kept as [Hin _].
  apply obind_done in Hz as ([[[r b] i] c1] & Ha%(router_execute_keeps storage_kept) & Hz); [|done].
  assert (step_keeps n (MkNode c1 b i (external n))) as Hs.
  { split; [apply Ha|]. intros [? ?]. split; [by apply Ha|done]. }
  destruct r as [[]|]; injection Hz as <-; [|done|done]. etrans; [exact Hs|by apply quiet_step].
Qed.

Lemma handle_client_message_keeps id req n n' : handle_client_message id req n = Done n' → step_keeps n n'.
Proof.
  unfold handle_client_message. destruct req as [req|]; [|by intros [= <-]].
  destruct (fst _) as [r|]; [|by intros [= <-]]. cbn zeta. destruct served_kept as [_ Hex].
  intros ([[[res b] e] c1] & Ha%(router_execute_keeps storage_kept) & Hz)%obind_done; [|done].
  assert (step_keeps n (MkNode c1 b (internal n) e)) as Hs.
  { split; [apply Ha|]. intros [? ?]. split; [done|by apply Ha]. }
  destruct res as [[]|]; [|by injection Hz as <-|by injection Hz as <-].
  destruct (find_stream _ _); [|done]. injection Hz as <-. etrans; [exact Hs|by apply quiet_step].
Qed.

Lemma handle_event_keeps ev n n' : handle_event ev n = Done n' → step_keeps n n'.
Proof.
  assert (∀ bev, (try! (res, n) := complete_event bev (MkNode (cx n) [] (internal n) (external n)) in
    match res with
    | None => Done n
    | Some (Client pid, id) =>
        match find_stream pid (clients (cx n)) with None => Done n | Some i => Done (write_to i id n) end
    | Some (Server mid, id) => Done (respond_to mid id n)
    end) = Done n' → step_keeps n n') as Hev.
  { intros bev ([res n1] & Ha%complete_event_keeps & Hz)%obind_done.
    assert (step_keeps n n1) as Hs by (etrans; [by apply quiet_step|exact Ha]).
    destruct res as [[[pid|mid] id]|]; [|injection Hz as <-|by injection Hz as <-].
    - destruct (find_stream _ _); injection Hz as <-; [|done]. etrans; [exact Hs|by apply quiet_step].
    - etrans; [exact Hs|by apply quiet_step]. }
  destruct ev as [[[peer call res|peer call body]|inner id|]|]; simpl.
  - apply Hev.
  - apply handle_request_keeps.
  - intros [= <-]. by apply quiet_step.
  - apply (Hev EvOther).
  - by intros [= <-].
Qed.

Lemma handle_stake_event_keeps ev n n' : handle_stake_event ev n = Done n' → step_keeps n n'.
Proof.
  unfold handle_stake_event. destruct ev as [[identity addr|identity addr|identity]|]; [..|by intros [= <-]].
  all: destruct (unpack_node_id identity); [|by intros [= <-]].
  - intros [= <-]. by apply quiet_step.
  - intros [= <-]. by apply quiet_step.
  - intros ([old t] & _ & [= <-])%obind_done. by apply quiet_step.
Qed.

Lemma node_run_keeps evs n n' : node_run evs n = Done n' → step_keeps n n'.
Proof.
  revert n. induction evs as [|ev evs IH]; intros n; [by intros [= <-]|].
  intros (n1 & Ha & Hb%IH)%obind_done. etrans; [|exact Hb].
  destruct ev as [id req|id|ev|ev]; simpl in Ha.
  - by apply handle_client_message_keeps in Ha.
  - injection Ha as <-. by apply quiet_step.
  - by apply handle_event_keeps in Ha.
  - by apply handle_stake_event_keeps in Ha.
Qed.
End node.

(** ** Properties *)

(** C1: Whatever a node receives, in whatever order (client messages, requests and responses of
    other nodes, new and lost client streams, events of the chain), as long as it does not stop:
    every stored profile stays under the hash of its key with a vault signed by that key, no
    profile is lost, its key never changes and its vault is only replaced by a newer signed one;
    no chat and no member is lost and no member's nonce decreases; and no slot of a handler nest
    stays empty. The keys in use are assumed not to collide under BLAKE3. *)
Theorem node_storage_safe {R St A P}
    `{RpcNet R, ClientStream St, Ed25519, Blake3, Signatures, Multiaddr A P, EdKeys}
    (evs : list (NodeEvent (St := St))) (n n' : Node R St A) :
  keys_distinct → node_run evs n = Done n' → all_genuine (cx n) →
  all_genuine (cx n') ∧
  (∀ i p, get_profile (cx n) i = Some p → ∃ p', get_profile (cx n') i = Some p' ∧ succeeds p p') ∧
  (∀ name c, get_chat (cx n) name = Some c →
     ∃ c', get_chat (cx n') name = Some c' ∧ chat_succeeds c c') ∧
  (nests_ok n → nests_ok n').
Proof.
  intros Hd Hr Hg. destruct (node_run_keeps evs n n' Hr) as [[Hp Hc] Hn].
  destruct (Hp Hd Hg) as [Hg' Hs]. done.
Qed.

(** C2: A nonce spent on a node is spent for good: once a member of a chat acted with a nonce,
    then after any further events every signed action of that member with the same or an older
    nonce is refused as invalid, and nothing changes. *)
Theorem node_never_replays {R St A P}
    `{RpcNet R, ClientStream St, Ed25519, Blake3, Signatures, Multiaddr A P, EdKeys}
    (evs : list (NodeEvent (St := St))) (n n' : Node R St A) (replay : Proof ChatName) (a : ChatAction)
    (chat : Chat) (m : Member) :
  node_run evs n = Done n' →
  get_chat (cx n) (context replay) = Some chat → members chat !! from_raw (pk replay) = Some m →
  verify replay = true → nonce replay ≤ Chat.action m →
  ∃ spent, Chat.action m ≤ spent ∧
    perform_chat_action (replay, a) (cx n') = Done (Err (ActInvalidAction spent), cx n').
Proof.
  intros Hr Hg Hm Hv Hle. destruct (node_run_keeps evs n n' Hr) as [[_ Hc] _].
  destruct (Hc _ _ Hg) as (chat' & Hg' & Hs). destruct (Hs _ _ Hm) as (m' & Hm' & Hlt).
  exists (Chat.action m'). split; [done|]. unfold perform_chat_action. rewrite Hv, Hg', Hm'. cbn [negb].
  unfold advance_nonce. by rewrite bool_decide_false by lia.
Qed.

(** C5: Who may ask for what. A request of a peer without a route is dropped before anything is
    decoded, and its connections are refused unless they come in over the websocket. A client
    cannot reach the protocols that replicators speak among themselves (proposals, blocks, full
    profiles), nor a node the subscriptions, vaults and messages that are for clients: such a
    request changes nothing but the response buffer and is not answered. *)
Theorem node_gates {R St A P}
    `{RpcNet R, ClientStream St, Ed25519, Blake3, Signatures, Multiaddr A P, EdKeys}
    (n : Node R St A) (peer : PeerId) (id : CallId) (prefix : u8) (body : bytes) (local remote : A)
    (client : PathId) (message : bytes) (r : ClientRequest) (rest : bytes) :
  (get_route peer (table (cx n)) = Done None →
     handle_event (Behaviour (EvRpc (RpcRequest peer id (prefix :: body)))) n = Done n ∧
     (proto_ws ws_path ∉ multiaddr_iter local →
        filter_incoming (table (cx n)) peer local remote = Done (Err NotRegistered, table (cx n)))) ∧
  (decode client_request_codec message = (Some r, rest) →
     req_prefix r ∈ [PREFIX PProposeMsgBlock; PREFIX PSendBlock; PREFIX PFetchLatestBlock;
                     PREFIX PFetchFullProfile] →
     handle_client_message client (Ok message) n = Done (MkNode (cx n) [] (internal n) (external n))) ∧
  (∀ a, get_route peer (table (cx n)) = Done (Some a) →
     prefix ∈ [PREFIX PSubscribe; PREFIX PFetchVault; PREFIX PFetchMessages] →
     handle_event (Behaviour (EvRpc (RpcRequest peer id (prefix :: body)))) n =
       Done (MkNode (cx n) [] (internal n) (external n))).
Proof.
  split; [|split].
  - intros Hr. split; [simpl; unfold handle_request; by rewrite Hr|]. intros Hws. unfold filter_incoming.
    destruct (existsb _ _) eqn:He; [|by rewrite Hr].
    apply existsb_exists in He as (p & Hp%list_elem_of_In & ->%bool_decide_eq_true). done.
  - intros Hd Hp. unfold handle_client_message. rewrite Hd. cbn [fst]. cbn zeta.
    rewrite router_unknown; [done|]. rewrite external_prefixes. cbn [r_prefix].
    repeat (apply elem_of_cons in Hp as [->|Hp]; [decided|]). by apply elem_of_nil in Hp.
  - intros a Hr Hp. simpl. unfold handle_request. rewrite Hr. cbn [obind]. cbn zeta.
    rewrite router_unknown; [done|]. rewrite internal_prefixes. cbn [r_prefix].
    repeat (apply elem_of_cons in Hp as [->|Hp]; [decided|]). by apply elem_of_nil in Hp.
Qed.

(** A restored profile is only as good as its signature, which covers the vault and its version:
    when another replicator answers with a genuine newer vault but an older mail nonce (and any
    encryption key and mailbox), a request to read mail that was refused as spent is answered. *)
Theorem restore_reopens_mail_nonce {R St A} `{RpcNet R, ClientStream St, Ed25519, Blake3, Signatures}
    (c : Cx R St A) (o : RequestOrigin) (old new : Profile) (response rest : bytes) (proof : Proof Mail) :
  let i := from_raw (pk proof) in
  get_profile c i = Some old → decode fetch_full_profile_response response = (Some (Ok new), rest) →
  genuine i new → vault_version old < vault_version new → verify proof = true →
  mail_action new < nonce proof ≤ mail_action old →
  fst (read_mail_handler o proof c) = Err RmInvalidAction ∧
  fst (read_mail_handler o proof (restore_profile i response c)) = Ok (mail new).
Proof.
  intros i Hg Hdec [Hi Hvalid] Hlt Hv Hn.
  assert (restore_profile i response c = put_profile c i new) as ->.
  { unfold restore_profile. rewrite Hdec. cbn [fst]. rewrite decide_True by done. rewrite Hvalid, Hg.
    by rewrite decide_False by lia. }
  assert (get_profile (put_profile c i new) i = Some new) as Hg' by apply lookup_insert_eq.
  unfold read_mail_handler. rewrite Hv. cbn [negb]. fold i. rewrite Hg, Hg'. unfold advance_nonce.
  rewrite bool_decide_false, bool_decide_true by lia. done.
Qed.

(** ** A node on four routes *)

Section demo.
#[local] Existing Instance demo_net.
#[local] Existing Instance demo_streams.
#[local] Existing Instance demo_ed.
#[local] Existing Instance demo_blake3.

(** Two keys sign, and they have different hashes. *)
Definition demo_two_keys : Signatures :=
  {| PK_SIZE := 2; SIG_SIZE := 1; ENC_PK_SIZE := 2;
     verify_sig pk data sig := bool_decide (pk ∈ [[1; 2]; [2; 2]] ∧ sig = [9]) |}.
#[local] Existing Instance demo_two_keys.

(** Addresses are lists of bytes, a protocol is a byte string. *)
Definition demo_multiaddr : Multiaddr (list bytes) bytes := {|
  multiaddr_empty := []; multiaddr_with a p := a ++ [p]; multiaddr_iter a := a;
  proto_ip4 ip := 4 :: ip; proto_ip6 ip := 6 :: ip; proto_tcp port := [8; port]; proto_ws p := 9 :: p;
  proto_eq_dec := _;
|}.
Definition demo_keys : EdKeys := λ id, if decide (length id = 32%nat) then Some id else None.
#[local] Existing Instance demo_multiaddr.
#[local] Existing Instance demo_keys.

Lemma demo_distinct : keys_distinct.
Proof.
  assert (∀ p : Proof bytes, verify p = true → pk p = [1; 2] ∨ pk p = [2; 2]) as Hk.
  { intros p [Hp _]%bool_decide_eq_true.
    apply elem_of_cons in Hp as [?|[?|[]%elem_of_nil]%elem_of_cons]; auto. }
  intros p q Hp%Hk Hq%Hk. destruct Hp as [-> | ->], Hq as [-> | ->]; try done; vm_compute; congruence.
Qed.

(** Node 3 of five, without chats. *)
Definition demo_node : Node (list (PeerId * bytes)) (list (list Z)) (list bytes) :=
  MkNode {| table := map (λ i, {| id := i; addr := [] |}) [1; 2; 3; 4; 5]; rpc := [];
            local_peer_id := be_bytes 32 3; clients := []; storage := storage_default |}
    [] (nests_default _) (nests_default _).

Definition demo_peer : PeerId := be_bytes 32 2.
Definition demo_request {T} (p : ChatHandlers.Protocol) (c : Codec T) (req : T) (from : PeerId) (call : CallId) :
    NodeEvent (St := list (list Z)) :=
  Swarm (Behaviour (EvRpc (RpcRequest from call
    (match to_bytes (rpc_codec c) (PREFIX p, req) with Some b => b | None => [] end)))).
(** Key [1; 2] makes an account and a chat, and adds a member. *)
Definition demo_key : bytes := [1; 2].
Definition demo_chat_name : ChatName := [104; 105].
Definition demo_events : list (NodeEvent (St := list (list Z))) := [
  demo_request PCreateProfile (pair_codec (proof_codec slice_codec) (array_codec ENC_PK_SIZE u8_codec))
    (MkProof demo_key 1 [9] [5; 6], [3; 4]) demo_peer 0%nat;
  demo_request PCreateChat (pair_codec chat_name_codec hash_codec)
    (demo_chat_name, from_raw demo_key) demo_peer 1%nat;
  demo_request PPerformChatAction (pair_codec (proof_codec chat_name_codec) chat_action_codec)
    (MkProof demo_key 7 [9] demo_chat_name, AddUser zero_hash) demo_peer 2%nat ].
Definition demo_later : list (NodeEvent (St := list (list Z))) := [
  Stake (Err tt);
  demo_request PPerformChatAction (pair_codec (proof_codec chat_name_codec) chat_action_codec)
    (MkProof demo_key 8 [9] demo_chat_name, SendMessage [33]) demo_peer 3%nat ].

(** The node after events that it handles. *)
Definition demo_after evs (n : Node (list (PeerId * bytes)) (list (list Z)) (list bytes)) :=
  match node_run evs n with Done n => n | Panic => n end.

Definition demo_handles evs n : bool := match node_run evs n with Done _ => true | Panic => false end.

Lemma demo_handles_after evs n : demo_handles evs n = true → node_run evs n = Done (demo_after evs n).
Proof. unfold demo_handles, demo_after. by destruct (node_run evs n). Qed.

Definition demo_n1 := demo_after demo_events demo_node.
Definition demo_n2 := demo_after demo_later demo_n1.

Lemma demo_runs : node_run demo_events demo_node = Done demo_n1.
Proof. apply demo_handles_after. vm_compute. reflexivity. Qed.

Lemma demo_runs_later : node_run demo_later demo_n1 = Done demo_n2.
Proof. apply demo_handles_after. vm_compute. reflexivity. Qed.

Lemma demo_account : ∃ p, get_profile (cx demo_n1) (from_raw demo_key) = Some p ∧ vault p = [5; 6].
Proof.
  assert (vault <$> get_profile (cx demo_n1) (from_raw demo_key) = Some [5; 6]) as Hv by decided.
  apply fmap_Some in Hv as (p & Hp & Hv). exists p. split; [exact Hp|exact (eq_sym Hv)].
Qed.

Lemma demo_members : ∃ c m, get_chat (cx demo_n1) demo_chat_name = Some c ∧ size (members c) = 2%nat ∧
  members c !! from_raw demo_key = Some m ∧ Chat.action m = 7.
Proof.
  assert ((λ c, (size (members c), Chat.action <$> members c !! from_raw demo_key)) <$>
    get_chat (cx demo_n1) demo_chat_name = Some (2%nat, Some 7)) as Hc by decided.
  apply fmap_Some in Hc as (c & Hc & [= Hs Hm]). symmetry in Hm. apply fmap_Some in Hm as (m & Hm & Ha).
  exists c, m. split; [exact Hc|]. split; [exact (eq_sym Hs)|]. split; [exact Hm|exact (eq_sym Ha)].
Qed.

Lemma node_storage_safe_witness :
  all_genuine (cx demo_n1) ∧
  (∃ p p', get_profile (cx demo_n1) (from_raw demo_key) = Some p ∧ vault p = [5; 6] ∧
     get_profile (cx demo_n2) (from_raw demo_key) = Some p' ∧ succeeds p p') ∧
  ∃ c c', get_chat (cx demo_n1) demo_chat_name = Some c ∧ get_chat (cx demo_n2) demo_chat_name = Some c' ∧
    size (members c) = 2%nat ∧ chat_succeeds c c'.
Proof.
  destruct (node_storage_safe demo_events demo_node demo_n1 demo_distinct demo_runs) as (Hg & _).
  { apply map_Forall_empty. }
  split; [exact Hg|].
  destruct (node_storage_safe demo_later demo_n1 demo_n2 demo_distinct demo_runs_later Hg)
    as (_ & Hp & Hc & _).
  split.
  - destruct demo_account as (p & Hp1 & Hv). destruct (Hp _ _ Hp1) as (p' & Hp2 & Hs). exists p, p'.
    split; [exact Hp1|]. split; [exact Hv|]. split; [exact Hp2|exact Hs].
  - destruct demo_members as (c & m & Hc1 & Hsz & _). destruct (Hc _ _ Hc1) as (c' & Hc2 & Hs).
    exists c, c'. split; [exact Hc1|]. split; [exact Hc2|]. split; [exact Hsz|exact Hs].
Defined.

Lemma node_never_replays_witness :
  ∃ spent, 7 ≤ spent ∧
    perform_chat_action (MkProof demo_key 7 [9] demo_chat_name, AddUser zero_hash) (cx demo_n2) =
      Done (Err (ActInvalidAction spent), cx demo_n2).
Proof.
  destruct demo_members as (c & m & Hc & _ & Hm & Ha).
  destruct (node_never_replays demo_later demo_n1 demo_n2 (MkProof demo_key 7 [9] demo_chat_name)
    (AddUser zero_hash) c m demo_runs_later Hc Hm) as (spent & Hle & He).
  - reflexivity.
  - rewrite Ha. cbn [nonce]. lia.
  - exists spent. split; [rewrite <-Ha; exact Hle|exact He].
Defined.

Lemma node_gates_witness :
  handle_event (Behaviour (EvRpc (RpcRequest (be_bytes 32 9) 0%nat [2; 3]))) demo_n1 = Done demo_n1 ∧
  filter_incoming (table (cx demo_n1)) (be_bytes 32 9) [[4; 127]] [] =
    Done (Err NotRegistered, table (cx demo_n1)) ∧
  handle_client_message 5 (Ok [5; 0; 1]) demo_n1 =
    Done (MkNode (cx demo_n1) [] (internal demo_n1) (external demo_n1)).
Proof.
  destruct (node_gates demo_n1 (be_bytes 32 9) 0%nat 2 [3] [[4; 127]] [] 5%nat [5; 0; 1]
              (MkClientRequest 5 0 [1]) []) as (H1 & H2 & _).
  destruct H1 as [H1 H3]; [vm_compute; reflexivity|].
  split; [exact H1|]. split; [apply H3; decided|].
  apply H2; [vm_compute; reflexivity|decided].
Defined.

(** The owner of key [1; 2] read mail up to nonce 9; a replicator answers with nonce 1. *)
Definition demo_read_profile : Profile := MkProfile demo_key [3; 4] [9] 5 9 [6] [].
Definition demo_rolled_back : Profile := MkProfile demo_key [0; 0] [9] 6 1 [7] [8].
Definition demo_reader : Cx (list (PeerId * bytes)) (list (list Z)) (list bytes) :=
  with_profiles (cx demo_node) {[from_raw demo_key := demo_read_profile]}.
Definition demo_response : bytes :=
  match to_bytes fetch_full_profile_response (Ok demo_rolled_back) with Some b => b | None => [] end.

Lemma restore_reopens_mail_nonce_witness :
  let proof := MkProof demo_key 4 [9] mail_unit in
  fst (read_mail_handler (Client 1) proof demo_reader) = Err RmInvalidAction ∧
  fst (read_mail_handler (Client 1) proof (restore_profile (from_raw demo_key) demo_response demo_reader)) =
    Ok [8].
Proof.
  intros proof.
  apply (restore_reopens_mail_nonce demo_reader (Client 1) demo_read_profile demo_rolled_back demo_response [] proof).
  - apply lookup_singleton_eq.
  - vm_compute. reflexivity.
  - split; reflexivity.
  - reflexivity.
  - reflexivity.
  - split; [reflexivity|discriminate].
Defined.
End demo.
