(* ===== verification/Membership.v ===== *)
(** The routing table of a node against the staking contract: what [Server::new] reads from the
    contract's list and [handle_stake_event] makes of its events, as long as no two stakes are
    made with the same node key, which the contract does not check. *)

From S2P Require Import Prelude Collections Dht ChatSpec Server Router Node.
From S2P Require Import NodeStaker.

Section membership.
Context {R St A P : Type}.
Context `{RpcNet R, ClientStream St, !Ed25519, Blake3, Signatures, Multiaddr A P, EdKeys}.
Context (transfer : Z → Z → option Z).
Notation Node := (Node R St A).
Implicit Types (w : World) (m : gmap NodeIdentity Stake) (t : RoutingTable A) (n : Node).

(** The peer id of an Ed25519 key is the key behind a fixed prefix (an identity multihash). *)
Hypothesis peer_id_tail : ∀ key, length key = 32%nat → ∃ prefix, ed_peer_id key = prefix ++ key.

(** Every stake has a valid node key of its own. *)
Definition key_ok (key : bytes) : Prop :=
  length key = 32%nat ∧ Forall (fits 8) key ∧ ed_try_from_bytes key = Some key.
Definition keys_ok m : Prop :=
  map_Forall (λ _ s, key_ok (stake_id s)) m ∧
  ∀ i j s s', m !! i = Some s → m !! j = Some s' → stake_id s = stake_id s' → i = j.

(** The table has the stakes' keys and addresses. *)
Definition listed m (key : Z) (a : A) : Prop :=
  ∃ i s, m !! i = Some s ∧ be_value (stake_id s) = key ∧ unpack_node_addr (stake_addr s) = a.
Definition mirrors m t : Prop := table_ok t ∧ ∀ key a, to_map t !! key = Some a ↔ listed m key a.

Lemma key_fits key : key_ok key → fits 256 (be_value key).
Proof. intros (Hl & Hf & _). pose proof (be_value_range key Hf) as Hr. rewrite Hl in Hr. exact Hr. Qed.

Lemma key_inj key key' : key_ok key → key_ok key' → be_value key = be_value key' → key = key'.
Proof.
  intros (Hl & Hf & _) (Hl' & Hf' & _) He.
  by rewrite <-(be_bytes_value key Hf), <-(be_bytes_value key' Hf'), Hl, Hl', He.
Qed.

Lemma key_owner m i j s s' :
  keys_ok m → m !! i = Some s → m !! j = Some s' → be_value (stake_id s) = be_value (stake_id s') →
  i = j ∧ s = s'.
Proof.
  intros [Hk Hd] Hi Hj He. apply key_inj in He; [|by eapply Hk..].
  assert (i = j) as -> by by eapply Hd. split; congruence.
Qed.

(** Votes change no key and no address. *)
Lemma listed_same m m' :
  (∀ i, (λ s, (stake_id s, stake_addr s)) <$> m' !! i = (λ s, (stake_id s, stake_addr s)) <$> m !! i) →
  ∀ key a, listed m' key a ↔ listed m key a.
Proof.
  assert (∀ m m', (∀ i, (λ s, (stake_id s, stake_addr s)) <$> m' !! i =
      (λ s, (stake_id s, stake_addr s)) <$> m !! i) → ∀ key a, listed m' key a → listed m key a) as Hl.
  { intros m1 m2 He key a (i & s & Hi & Hk & Ha). specialize (He i). rewrite Hi in He. simpl in He.
    symmetry in He. apply fmap_Some in He as (s1 & Hs1 & [= Hid Had]).
    exists i, s1. rewrite <-Hid, <-Had. done. }
  intros He key a. split; apply Hl; [done|]. intros i. by rewrite He.
Qed.

Lemma join_mirrors m t i s :
  mirrors m t → m !! i = None → keys_ok (<[i:=s]> m) →
  mirrors (<[i:=s]> m) (insert_route (route_new (stake_id s) (unpack_node_addr (stake_addr s))) t).
Proof.
  intros [Ht Hm] Hi Hk. set (r := route_new _ _).
  assert (key_ok (stake_id s)) as Hks by (eapply (proj1 Hk); apply lookup_insert_eq).
  destruct (insert_route_spec r t Ht) as [Ht' Ht'']; [by apply key_fits|]. split; [done|].
  intros key a. rewrite Ht''. destruct (decide (key = be_value (stake_id s))) as [->|Hne].
  - change (be_value (stake_id s)) with (id r) at 1. rewrite lookup_insert_eq. split.
    + intros [= <-]. exists i, s. by rewrite lookup_insert_eq.
    + intros (j & s' & Hj & He & <-).
      destruct (key_owner _ j i s' s Hk Hj) as [_ ->]; [apply lookup_insert_eq|done|done].
  - rewrite lookup_insert_ne by (intros Hx; by apply Hne). rewrite Hm. split.
    + intros (j & s' & Hj & He & Ha). exists j, s'. rewrite lookup_insert_ne by congruence. done.
    + intros (j & s' & Hj & He & Ha). destruct (decide (i = j)) as [<-|Hij].
      * rewrite lookup_insert_eq in Hj. injection Hj as <-. by destruct Hne.
      * rewrite lookup_insert_ne in Hj by done. by exists j, s'.
Qed.

Lemma leave_mirrors m t i s :
  mirrors m t → m !! i = Some s → keys_ok m →
  ∃ old t', remove_route (ed_peer_id (stake_id s)) t = Done (old, t') ∧ mirrors (delete i m) t'.
Proof.
  intros [Ht Hm] Hi Hk. pose proof (proj1 Hk i s Hi) as (Hl & _).
  destruct (peer_id_tail (stake_id s) Hl) as [prefix Hp].
  destruct (peer_route_spec (ed_peer_id (stake_id s)) t Ht) as (_ & old & t' & Hr & Ht' & _ & Hd);
    [rewrite Hp, length_app; lia|].
  rewrite Hp, length_app, Hl, drop_app_n in Hd by lia.
  exists old, t'. split; [done|]. split; [done|]. intros key a. rewrite Hd.
  destruct (decide (key = be_value (stake_id s))) as [->|Hne].
  - rewrite lookup_delete_eq. split; [done|]. intros (j & s' & Hj & He & _).
    apply lookup_delete_Some in Hj as [Hij Hj]. by destruct (key_owner m i j s s' Hk Hi Hj).
  - rewrite lookup_delete_ne by congruence. rewrite Hm. split; intros (j & s' & Hj & He & Ha); exists j, s'.
    + rewrite lookup_delete_ne; [done|]. intros ->. rewrite Hi in Hj. injection Hj as <-. congruence.
    + by apply lookup_delete_Some in Hj as [_ Hj].
Qed.

(** One message of the contract, and the node once it got the events. *)
Lemma staker_step_mirrors w w' n :
  staker_step transfer w w' → keys_ok (stakes (contract w)) → keys_ok (stakes (contract w')) →
  mirrors (stakes (contract w)) (table (cx n)) →
  ∃ events n', emitted w' = emitted w ++ events ∧
    node_run (map (λ e, Node.Stake (Ok e)) events) n = Done n' ∧
    mirrors (stakes (contract w')) (table (cx n')).
Proof.
  intros Hs Hk Hk' Hm. destruct Hs as [env data addr w w' _ Hj|env i j rate w w' Hv|env i w w' Hr].
  - apply join_inv in Hj as (_ & Hn & ->). cbn zeta in *. simpl in Hk' |- *.
    set (s := {| owner := _ |}) in *.
    assert (key_ok (stake_id s)) as (_ & _ & Hed) by (eapply (proj1 Hk'); apply lookup_insert_eq).
    eexists [Joined (data_id data) addr], _. split; [done|]. simpl in Hed |- *.
    unfold unpack_node_id. rewrite Hed. split; [done|]. by apply (join_mirrors _ _ _ s).
  - apply vote_inv in Hv as (s & s' & Hi & Hj & Hne & _ & _ & _ & _ & ->).
    exists [], n. split; [by rewrite app_nil_r|]. split; [done|]. destruct Hm as [Ht Hm].
    split; [done|]. intros key a. rewrite Hm. symmetry. apply listed_same. intros k. simpl.
    destruct (decide (j = k)) as [<-|Hjk]; [by rewrite lookup_insert_eq, Hj|].
    rewrite lookup_insert_ne by done.
    destruct (decide (i = k)) as [<-|Hik]; [by rewrite lookup_insert_eq, Hi|].
    by rewrite lookup_insert_ne.
  - apply reclaim_inv in Hr as (s & value & left & Hi & _ & _ & _ & _ & _ & Hst & He & _).
    destruct (leave_mirrors _ _ i s Hm Hi Hk) as (old & t' & Hrm & Hm').
    pose proof (proj1 Hk i s Hi) as (_ & _ & Hed).
    eexists [Reclaimed (stake_id s)], _. split; [done|]. simpl. unfold unpack_node_id. rewrite Hed, Hrm.
    split; [done|]. simpl. by rewrite Hst.
Qed.

(** What the contract does while its stakes have keys of their own. *)
Definition keyed_step w w' : Prop := staker_step transfer w w' ∧ keys_ok (stakes (contract w')).

Lemma keyed_steps_mirror w w' n :
  rtc keyed_step w w' → keys_ok (stakes (contract w)) → mirrors (stakes (contract w)) (table (cx n)) →
  ∃ events n', emitted w' = emitted w ++ events ∧
    node_run (map (λ e, Node.Stake (Ok e)) events) n = Done n' ∧
    mirrors (stakes (contract w')) (table (cx n')).
Proof.
  intros Hr. revert n. induction Hr as [w|w1 w2 w3 [Hs Hk2] _ IH]; intros n Hk Hm.
  { exists [], n. by rewrite app_nil_r. }
  destruct (staker_step_mirrors w1 w2 n Hs Hk Hk2 Hm) as (e1 & n1 & He1 & Hn1 & Hm1).
  destruct (IH n1 Hk2 Hm1) as (e2 & n2 & He2 & Hn2 & Hm2).
  exists (e1 ++ e2), n2. rewrite He2, He1, <-app_assoc. split; [done|]. split; [|done].
  rewrite map_app, node_run_app, Hn1. exact Hn2.
Qed.

(** *** The list a new node starts from *)

Lemma list_routes ids m :
  (∀ i, i ∈ ids → is_Some (m !! i)) → keys_ok m → NoDup ids →
  ∃ l routes, list_loop ids m = Done l ∧ routes_of l = Some routes ∧
    NoDup (map (@id A) routes) ∧ Forall (λ r, fits 256 (id r)) routes ∧
    ∀ r, r ∈ routes ↔ ∃ i s, i ∈ ids ∧ m !! i = Some s ∧
                              r = route_new (stake_id s) (unpack_node_addr (stake_addr s)).
Proof.
  intros Hin Hk. induction ids as [|i ids IH]; intros Hn.
  { exists [], []. repeat (split; [done || constructor|]). intros r. split; [by intros ?%elem_of_nil|].
    by intros (i & s & Hi%elem_of_nil & _). }
  apply NoDup_cons in Hn as [Hi Hn]. destruct (Hin i) as [s Hs]; [constructor|].
  destruct IH as (l & routes & Hl & Hr & Hnd & Hf & Hel); [intros j Hj; apply Hin; by constructor|done|].
  pose proof (proj1 Hk i s Hs) as Hkey. simpl. rewrite Hs. simpl. rewrite Hl. simpl.
  eexists _, (route_new (stake_id s) (unpack_node_addr (stake_addr s)) :: routes).
  split; [done|]. split; [simpl; unfold unpack_node_id; by rewrite (proj2 (proj2 Hkey)), Hr|]. split.
  - simpl. apply NoDup_cons. split; [|done]. intros (r & He & Hr')%list_elem_of_fmap.
    apply Hel in Hr' as (j & s' & Hj & Hs' & ->). simpl in He.
    destruct (key_owner m i j s s' Hk Hs Hs' He) as [<- _]. done.
  - split; [constructor; [by apply key_fits|done]|]. intros r. rewrite elem_of_cons, Hel. split.
    + intros [->|(j & s' & Hj & Hs' & ->)]; [exists i, s|exists j, s']; (split; [by constructor|done]).
    + intros (j & s' & [->|Hj]%elem_of_cons & Hs' & ->); [left; congruence|right; by exists j, s'].
Qed.

Lemma to_map_elem t key a :
  NoDup (map (@id A) t) → to_map t !! key = Some a ↔ ∃ r, r ∈ t ∧ id r = key ∧ addr r = a.
Proof.
  intros Hn. unfold to_map. rewrite <-elem_of_list_to_map by (by rewrite entries_fst).
  unfold entries. rewrite list_elem_of_fmap. split.
  - intros (r & [= -> ->] & Hr). by exists r.
  - intros (r & Hr & <- & <-). by exists r.
Qed.

Lemma server_new_mirrors (us : PeerId) (net : R) w :
  world_ok w → keys_ok (stakes (contract w)) →
  ∃ l n, list_stakes w = Done l ∧ server_new us net l = Done (Some n) ∧
    mirrors (stakes (contract w)) (table (cx n)).
Proof.
  intros Hw Hk. set (m := stakes (contract w)) in *.
  destruct (list_routes (stake_list (contract w)) m) as (l & routes & Hl & Hr & Hn & Hf & Hel);
    [intros i Hi; by apply (ok_dom w Hw)|done|apply (ok_list w Hw)|].
  destruct (sort_by_id_ok routes Hn Hf) as [Hok Hp].
  exists l. unfold server_new. rewrite Hr. simpl. eexists. split; [exact Hl|]. split; [done|]. simpl.
  split; [done|]. intros key a. rewrite to_map_elem by (by rewrite Hp). split.
  - intros (r & Hr' & <- & <-). rewrite Hp, Hel in Hr'. destruct Hr' as (i & s & _ & Hs & ->).
    by exists i, s.
  - intros (i & s & Hs & <- & <-). exists (route_new (stake_id s) (unpack_node_addr (stake_addr s))).
    rewrite Hp, Hel. split; [|done]. exists i, s. split; [apply (ok_dom w Hw); by eexists|done].
Qed.
End membership.

(** ** Properties *)

(** C4: The routing table of a node is the set of current stakes. A node that starts from the
    list of the staking contract and handles the events the contract emits from then on has,
    after any sequence of the contract's messages, exactly the stakes' node keys and addresses
    in its table, which stays sorted. It is needed that every stake is made with a valid node
    key and that no two current stakes share one: [join] checks neither. *)
Theorem table_follows_chain {R St A P}
    `{RpcNet R, ClientStream St, !Ed25519, Blake3, Signatures, Multiaddr A P, EdKeys}
    (transfer : Z → Z → option Z) (us : PeerId) (net : R) (w w' : World) :
  (∀ key, length key = 32%nat → ∃ prefix, ed_peer_id key = prefix ++ key) →
  world_ok w → keys_ok (stakes (contract w)) → rtc (keyed_step transfer) w w' →
  ∃ node_list (n n' : Node R St A) events,
    list_stakes w = Done node_list ∧ server_new us net node_list = Done (Some n) ∧
    emitted w' = emitted w ++ events ∧
    node_run (map (λ e, Node.Stake (Ok e)) events) n = Done n' ∧
    table_ok (table (cx n')) ∧
    ∀ key a, to_map (table (cx n')) !! key = Some a ↔
      ∃ i s, stakes (contract w') !! i = Some s ∧ be_value (stake_id s) = key ∧
             unpack_node_addr (stake_addr s) = a.
Proof.
  intros Htail Hw Hk Hr. destruct (server_new_mirrors us net w Hw Hk) as (l & n & Hl & Hn & Hm).
  destruct (keyed_steps_mirror transfer Htail w w' n Hr Hk Hm) as (events & n' & He & Hrun & Hok & Hm').
  by exists l, n, n', events.
Qed.

(** What shared keys do: when two nodes joined with the same key, the first one to leave takes
    the route of the other with it. *)
Theorem shared_key_loses_route {R St A P}
    `{RpcNet R, ClientStream St, !Ed25519, Blake3, Signatures, Multiaddr A P, EdKeys}
    (key : bytes) (a a' : NodeStaker.NodeAddress) (n : Node R St A) :
  (∃ prefix, ed_peer_id key = prefix ++ key) → key_ok key → table_ok (table (cx n)) →
  ∃ n', node_run [Node.Stake (Ok (Joined key a)); Node.Stake (Ok (Joined key a'));
                  Node.Stake (Ok (Reclaimed key))] n = Done n' ∧
    to_map (table (cx n')) !! be_value key = None.
Proof.
  intros [prefix Hp] Hk Ht. pose proof Hk as (Hl & _ & Hed). simpl. unfold unpack_node_id. rewrite Hed.
  destruct (insert_route_spec (route_new key (unpack_node_addr a)) (table (cx n)) Ht) as [Ht1 _];
    [by apply key_fits|].
  destruct (insert_route_spec (route_new key (unpack_node_addr a')) _ Ht1) as [Ht2 _]; [by apply key_fits|].
  destruct (peer_route_spec (ed_peer_id key) _ Ht2) as (_ & old & t' & Hr & _ & _ & Hd);
    [rewrite Hp, length_app; lia|].
  simpl. rewrite Hr. simpl. eexists. split; [done|]. simpl. rewrite Hd, Hp, length_app, drop_app_n by lia.
  apply lookup_delete_eq.
Qed.

(** The address a node joins with is the address the others dial: packing it for the contract
    and unpacking it gives the same address and port. *)
Theorem node_address_roundtrip (a : IpAddr) (port : Z) :
  fits 16 port → match a with V4 ip => length ip = 4%nat | V6 ip => length ip = 16%nat end →
  node_address_into (node_address_from (a, port)) = (a, port).
Proof.
  intros Hp Ha. assert (be_value (be_bytes 2 port) = port) as Hv by exact (be_value_bytes 2 port Hp).
  destruct a as [ip|ip]; unfold node_address_into, node_address_from;
    (rewrite take_app_n, drop_app_n by lia; rewrite take_ge by (by rewrite be_bytes_length); by rewrite Hv).
Qed.

(** ** A contract with two nodes, of which one leaves *)

Section demo.
#[local] Existing Instance Server.demo_net.
#[local] Existing Instance demo_streams.
#[local] Existing Instance demo_ed.
#[local] Existing Instance demo_blake3.
#[local] Existing Instance demo_signatures.

(** Addresses are lists of bytes, a protocol is a byte string. *)
Definition demo_multiaddr : Multiaddr (list bytes) bytes := {|
  multiaddr_empty := []; multiaddr_with a p := a ++ [p]; multiaddr_iter a := a;
  proto_ip4 ip := 4 :: ip; proto_ip6 ip := 6 :: ip; proto_tcp port := [8; port]; proto_ws p := 9 :: p;
  proto_eq_dec := _;
|}.
Definition demo_keys : EdKeys := λ id, if decide (length id = 32%nat) then Some id else None.
#[local] Existing Instance demo_multiaddr.
#[local] Existing Instance demo_keys.

Definition demo_member (n : Z) : NodeData :=
  {| data_sign := [n]; data_enc := [n]; data_id := be_bytes 32 n |}.
Definition demo_place (n : Z) : NodeStaker.NodeAddress := node_address_from (V4 [127; 0; 0; n], 8000).
Definition demo_staked (n : Z) (w : World) : World :=
  match join (demo_env n STAKE_AMOUNT 0) (demo_member n) (demo_place n) w with
  | Done w => w
  | Panic => w
  end.
Definition demo_one : World := demo_staked 1 (world_new 0).
Definition demo_two : World := demo_staked 2 demo_one.
Definition demo_left : World :=
  match reclaim demo_transfer (demo_env 1 0 STAKE_DURATION_MILIS) (demo_node 1) demo_two with
  | Done w => w
  | Panic => demo_two
  end.

(** The keys of the contract, as a test on its list of stakes. *)
Lemma keys_ok_list (m : gmap NodeIdentity Stake) (l : list (NodeIdentity * Stake)) :
  map_to_list m = l → Forall (λ p, key_ok (stake_id p.2)) l → NoDup (map (λ p, stake_id p.2) l) → keys_ok m.
Proof.
  intros <- Hf Hn. rewrite Forall_forall in Hf. split.
  - intros i s Hs. by apply (Hf (i, s)), elem_of_map_to_list.
  - intros i j s s' Hs Hs' He.
    apply elem_of_map_to_list, list_elem_of_lookup in Hs as [k Hk].
    apply elem_of_map_to_list, list_elem_of_lookup in Hs' as [k' Hk'].
    assert (k = k') as <-; [|congruence].
    eapply (NoDup_lookup _ k k' (stake_id s) Hn); [by rewrite list_lookup_fmap, Hk|].
    by rewrite list_lookup_fmap, Hk', He.
Qed.

Lemma demo_keys_ok : keys_ok (stakes (contract demo_one)) ∧ keys_ok (stakes (contract demo_two)) ∧
  keys_ok (stakes (contract demo_left)).
Proof.
  split; [|split]; (eapply keys_ok_list; [vm_compute; reflexivity|..]; [|decided]);
    repeat apply Forall_cons_2; try apply Forall_nil_2;
    (split; [reflexivity|split; [decided|reflexivity]]).
Qed.

Lemma demo_steps : rtc (keyed_step demo_transfer) demo_one demo_left.
Proof.
  destruct demo_keys_ok as (_ & Hk2 & Hk3).
  apply (rtc_l _ _ demo_two); [split; [|exact Hk2]|apply rtc_once; split; [|exact Hk3]].
  - apply (step_join _ (demo_env 2 STAKE_AMOUNT 0) (demo_member 2) (demo_place 2));
      [decided|vm_compute; reflexivity].
  - apply (step_reclaim _ (demo_env 1 0 STAKE_DURATION_MILIS) (demo_node 1)). vm_compute. reflexivity.
Qed.

Lemma demo_one_ok : world_ok demo_one.
Proof.
  apply (staker_reachable_ok demo_transfer demo_transfer_pays (world_new 0));
    [apply rtc_once|by apply world_new_ok].
  apply (step_join _ (demo_env 1 STAKE_AMOUNT 0) (demo_member 1) (demo_place 1));
    [decided|vm_compute; reflexivity].
Qed.

Lemma table_follows_chain_witness :
  ∃ (n' : Node.Node (list (PeerId * bytes)) (list (list Z)) (list bytes)) events,
    emitted demo_left = emitted demo_one ++ events ∧ length events = 2%nat ∧
    to_map (table (cx n')) !! 2 = Some [[4; 127; 0; 0; 2]; [8; 8000]] ∧
    to_map (table (cx n')) !! 1 = None.
Proof.
  destruct (table_follows_chain (A := list bytes) (St := list (list Z)) demo_transfer [] [] demo_one demo_left)
    as (l & n & n' & events & _ & _ & He & _ & _ & Hm).
  - intros key _. exists []. reflexivity.
  - exact demo_one_ok.
  - exact (proj1 demo_keys_ok).
  - exact demo_steps.
  - exists n', events. split; [exact He|]. split.
    { apply (f_equal length) in He. rewrite length_app in He. vm_compute in He.
      by injection He as He. }
    split.
    + apply Hm. eexists (demo_node 2), _. split; [vm_compute; reflexivity|]. split; vm_compute; reflexivity.
    + destruct (to_map (table (cx n')) !! 1) as [a|] eqn:Hn; [|reflexivity].
      apply Hm in Hn as (i & s & Hi & Hs & _). exfalso.
      apply elem_of_map_to_list in Hi. revert Hi Hs.
      assert (∃ s2, map_to_list (stakes (contract demo_left)) = [(demo_node 2, s2)] ∧ be_value (stake_id s2) = 2)
        as (s2 & -> & Hb) by (eexists; split; vm_compute; reflexivity).
      intros [[= -> ->]|Hx%elem_of_nil]%elem_of_cons Hs; [rewrite Hb in Hs; discriminate|done].
Defined.

Lemma shared_key_loses_route_witness :
  let n : Node.Node (list (PeerId * bytes)) (list (list Z)) (list bytes) :=
    MkNode {| table := []; rpc := []; local_peer_id := []; clients := []; storage := storage_default |}
      [] (nests_default _) (nests_default _) in
  ∃ n', node_run [Node.Stake (Ok (Joined (be_bytes 32 5) (Ip4 [127; 0; 0; 1; 0; 80])));
                  Node.Stake (Ok (Joined (be_bytes 32 5) (Ip4 [127; 0; 0; 2; 0; 80])));
                  Node.Stake (Ok (Reclaimed (be_bytes 32 5)))] n = Done n' ∧
    to_map (table (cx n')) !! 5 = None.
Proof.
  intros n. apply (shared_key_loses_route (be_bytes 32 5) _ _ n).
  - exists []. reflexivity.
  - split; [reflexivity|]. split; [decided|reflexivity].
  - split; constructor.
Defined.

Lemma node_address_roundtrip_witness :
  node_address_into (node_address_from (V4 [127; 0; 0; 1], 8080)) = (V4 [127; 0; 0; 1], 8080).
Proof. apply (node_address_roundtrip (V4 [127; 0; 0; 1]) 8080); [decided|reflexivity]. Defined.
End demo.
