(* ===== verification/Galois.v ===== *)
(** The field of the erasure code, [utils/berkleamp-welch/build.rs] and
    [utils/berkleamp-welch/src/galois.rs]: the tables the build script generates and the byte and
    slice operations that read them. A byte is a [Z] from 0 to 255. *)

From S2P Require Import Prelude.

(** ** The tables of build.rs *)

Definition FIELD_SIZE : nat := 256.
Definition GENERATING_POLYNOMIAL : Z := 29.

Definition index (t : list Z) (i : Z) : Z := nth (Z.to_nat i) t 0.

(* b <<= 1, reduced by the polynomial *)
Definition next_power (polynomial b : Z) : Z :=
  let b := Z.shiftl b 1 in
  if 256 <=? b then Z.lxor (b - 256) polynomial else b.

Fixpoint gen_log_loop (n : nat) (polynomial log b : Z) (result : list Z) : list Z :=
  match n with
  | O => result
  | S n => gen_log_loop n polynomial (log + 1) (next_power polynomial b) (<[Z.to_nat b:=log]> result)
  end.
Definition gen_log_table (polynomial : Z) : list Z :=
  gen_log_loop (FIELD_SIZE - 1) polynomial 0 1 (replicate FIELD_SIZE 0).

Definition EXP_TABLE_SIZE : nat := FIELD_SIZE * 2 - 2.
Definition gen_exp_table (log_table : list Z) : list Z :=
  fold_left (λ result i,
    let log := Z.to_nat (nth i log_table 0%Z) in
    <[log + FIELD_SIZE - 1:=Z.of_nat i]> (<[log:=Z.of_nat i]> result))%nat
    (seq 1 (FIELD_SIZE - 1)) (replicate EXP_TABLE_SIZE 0).

Definition multiply (log_table exp_table : list Z) (a b : Z) : Z :=
  if (a =? 0) || (b =? 0) then 0
  else index exp_table (index log_table a + index log_table b).

Definition gen_mul_table (log_table exp_table : list Z) : list (list Z) :=
  map (λ a, map (λ b, multiply log_table exp_table (Z.of_nat a) (Z.of_nat b)) (seq 0 FIELD_SIZE))
    (seq 0 FIELD_SIZE).

(* the products with the bytes that have only a low, or only a high, half *)
Definition gen_mul_table_half (log_table exp_table : list Z) : list (list Z) * list (list Z) :=
  (map (λ a, map (λ b, multiply log_table exp_table (Z.of_nat a) (Z.of_nat b)) (seq 0 16)) (seq 0 FIELD_SIZE),
   map (λ a, map (λ b, multiply log_table exp_table (Z.of_nat a) (Z.shiftl (Z.of_nat b) 4)) (seq 0 16))
     (seq 0 FIELD_SIZE)).

Definition gen_inv_table (log_table exp_table : list Z) : list Z :=
  0 :: map (λ i, index exp_table (256 - index log_table (Z.of_nat i) - 1)) (seq 1 (FIELD_SIZE - 1)).

(** What the build writes out. *)
Definition LOG_TABLE : list Z := Eval vm_compute in gen_log_table GENERATING_POLYNOMIAL.
Definition EXP_TABLE : list Z := Eval vm_compute in gen_exp_table LOG_TABLE.
Definition INV_TABLE : list Z := Eval vm_compute in gen_inv_table LOG_TABLE EXP_TABLE.
Definition MUL_TABLE : list (list Z) := gen_mul_table LOG_TABLE EXP_TABLE.
Definition MUL_TABLE_LOW : list (list Z) := fst (gen_mul_table_half LOG_TABLE EXP_TABLE).
Definition MUL_TABLE_HIGH : list (list Z) := snd (gen_mul_table_half LOG_TABLE EXP_TABLE).

(** ** galois.rs *)

Definition add (a b : Z) : Z := Z.lxor a b.
Definition mul_row (a : Z) : list Z := nth (Z.to_nat a) MUL_TABLE [].
Definition mul (a b : Z) : Z := index (mul_row a) b.

Definition div (a b : Z) : option Z :=
  if b =? 0 then None
  else if a =? 0 then Some 0
  else if a =? 1 then Some (index INV_TABLE b)
  else
    let log_result := index LOG_TABLE a - index LOG_TABLE b in
    let log_result := if log_result <? 0 then log_result + 255 else log_result in
    Some (index EXP_TABLE log_result).

(* the loop that subtracts 255 while it can *)
Definition exp (a : Z) (n : nat) : Z :=
  if Nat.eqb n 0 then 1
  else if a =? 0 then 0
  else index EXP_TABLE ((index LOG_TABLE a * Z.of_nat n) mod 255).

(* mul_slice_xor_low: out gets c * input added to it *)
Definition mul_slice_xor_low (c : Z) (input out : list Z) : outcome (list Z) :=
  try! _ := assert_that (length input = length out) in
  Done (zip_with (λ i o, Z.lxor o (index (mul_row c) i)) input out).
Definition mul_slice_in_place_low (c : Z) (out : list Z) : list Z := map (index (mul_row c)) out.

(** *** The vector instructions, with the lanes of the target *)

Section simd.
Context (LANES : nat).

(* array_chunks: the whole chunks and the remainder *)
Definition whole (l : list Z) : nat := (length l / LANES * LANES)%nat.

(* swizzle_dyn of the 16-byte table, repeated to fill the lanes *)
Definition swizzle (table : list Z) (i : Z) : Z :=
  if (Z.to_nat i <? LANES)%nat then nth (Z.to_nat i mod 16) table 0 else 0.
Definition low_part (c b : Z) : Z := swizzle (nth (Z.to_nat c) MUL_TABLE_LOW []) (Z.land b 15).
Definition high_part (c b : Z) : Z :=
  swizzle (nth (Z.to_nat c) MUL_TABLE_HIGH []) (Z.land (Z.shiftr b 4) 15).

Definition mul_slice_xor (c : Z) (input out : list Z) : outcome (list Z) :=
  try! _ := assert_that (length input = length out) in
  let n := whole input in
  try! rest := mul_slice_xor_low c (drop n input) (drop n out) in
  Done (zip_with (λ i o, Z.lxor (Z.lxor o (low_part c i)) (high_part c i)) (take n input) (take n out) ++ rest).

Definition mul_slice_in_place (c : Z) (out : list Z) : list Z :=
  let n := whole out in
  map (λ o, Z.lxor (Z.lxor o (low_part c o)) (high_part c o)) (take n out) ++
    mul_slice_in_place_low c (drop n out).
End simd.

(** A target without vector instructions has the loops over bytes, one with them the vectorised
    versions; only the multiplication in place is not the same in both, see
    [mul_slice_in_place_defect]. *)
Definition Target : Type := option nat.
Definition slice_xor (t : Target) (c : Z) (input out : list Z) : outcome (list Z) :=
  match t with Some LANES => mul_slice_xor LANES c input out | None => mul_slice_xor_low c input out end.
Definition slice_in_place (t : Target) (c : Z) (out : list Z) : list Z :=
  match t with Some LANES => mul_slice_in_place LANES c out | None => mul_slice_in_place_low c out end.

(** ** The field *)

Notation xtime := (next_power GENERATING_POLYNOMIAL).
Definition byte (b : Z) : Prop := 0 ≤ b < 256.
Notation xpow n := (Nat.iter n xtime).

(** The product of polynomials over two elements, reduced by [x^8 + x^4 + x^3 + x^2 + 1]: the sum
    of [x^i * b] over the bits of [a]. *)
Definition gf_mul (a b : Z) : Z :=
  fold_right Z.lxor 0 (map (λ i, if Z.testbit a (Z.of_nat i) then xpow i b else 0) (seq 0 8)).

Lemma xtime_alt b : byte b → xtime b = Z.lxor (Z.land (Z.shiftl b 1) 255) (if Z.testbit b 7 then 29 else 0).
Proof.
  intros [H0 H1]. unfold next_power, GENERATING_POLYNOMIAL. rewrite Z.shiftl_mul_pow2 by lia.
  change (2 ^ 1) with 2. rewrite land_255. rewrite Z.testbit_odd, Z.shiftr_div_pow2 by lia.
  change (2 ^ 7) with 128. destruct (256 <=? b * 2) eqn:Hb.
  - apply Z.leb_le in Hb. replace (b / 128) with 1 by (apply (Z.div_unique b 128 1 (b - 128)); lia).
    replace ((b * 2) mod 256) with (b * 2 - 256) by (apply (Z.mod_unique _ _ 1); lia). done.
  - apply Z.leb_gt in Hb. rewrite Z.div_small by lia. simpl Z.odd. cbv iota.
    rewrite Z.mod_small by lia. by rewrite Z.lxor_0_r.
Qed.

Lemma byte_log b : 0 ≤ b → byte b ↔ Z.log2 b < 8.
Proof.
  intros Hb. destruct (decide (b = 0)) as [->|Hz]; [done|].
  rewrite <-Z.log2_lt_pow2 by lia. change (2 ^ 8) with 256. unfold byte. lia.
Qed.

Lemma lxor_byte a b : byte a → byte b → byte (Z.lxor a b).
Proof.
  intros Ha Hb. assert (0 ≤ a ∧ 0 ≤ b) as [Ha0 Hb0] by (unfold byte in *; lia).
  assert (0 ≤ Z.lxor a b) as H0 by by apply Z.lxor_nonneg.
  apply byte_log; [done|]. pose proof (Z.log2_lxor a b Ha0 Hb0).
  apply byte_log in Ha, Hb; [|done..]. lia.
Qed.

Lemma xtime_byte b : byte b → byte (xtime b).
Proof.
  intros Hb. rewrite xtime_alt by done. apply lxor_byte; [|by destruct (Z.testbit b 7)].
  rewrite land_255. pose proof (Z.mod_pos_bound (Z.shiftl b 1) 256). unfold byte. lia.
Qed.

Lemma xtime_lxor a b : byte a → byte b → xtime (Z.lxor a b) = Z.lxor (xtime a) (xtime b).
Proof.
  intros Ha Hb. rewrite !xtime_alt by (done || by apply lxor_byte). rewrite Z.lxor_spec.
  apply Z.bits_inj'. intros n Hn. rewrite !Z.lxor_spec, !Z.land_spec, !Z.shiftl_spec, !Z.lxor_spec by done.
  destruct (Z.testbit a 7), (Z.testbit b 7); simpl xorb; cbv iota; rewrite ?Z.bits_0;
    destruct (Z.testbit a (n - 1)), (Z.testbit b (n - 1)), (Z.testbit 255 n), (Z.testbit 29 n); reflexivity.
Qed.

Lemma xpow_byte n b : byte b → byte (xpow n b).
Proof. intros Hb. induction n; [done|]. simpl. by apply xtime_byte. Qed.

Lemma xpow_lxor n a b : byte a → byte b → xpow n (Z.lxor a b) = Z.lxor (xpow n a) (xpow n b).
Proof. intros Ha Hb. induction n as [|n IH]; [done|]. simpl. by rewrite IH, xtime_lxor by by apply xpow_byte. Qed.

Lemma xpow_0 n : xpow n 0 = 0.
Proof. induction n as [|n IH]; [done|]. simpl. by rewrite IH. Qed.

(** *** What the tables hold, checked entry by entry *)

Fixpoint powers (n : nat) (b : Z) : list Z := match n with O => [] | S n => b :: powers n (xtime b) end.
Fixpoint list_eqb (l l' : list Z) : bool :=
  match l, l' with
  | [], [] => true
  | x :: l, y :: l' => (x =? y) && list_eqb l l'
  | _, _ => false
  end.

Lemma list_eqb_eq l l' : list_eqb l l' = true → l = l'.
Proof.
  revert l'. induction l as [|x l IH]; intros [|y l']; simpl; [done..|].
  intros [->%Z.eqb_eq ->%IH]%andb_true_iff. done.
Qed.

Lemma powers_nth n b i d : (i < n)%nat → nth i (powers n b) d = xpow i b.
Proof.
  revert b i. induction n as [|n IH]; intros b [|i] Hi; [lia..|done|]. simpl. rewrite IH by lia.
  by rewrite <-Nat.iter_succ_r.
Qed.

Lemma exp_table_powers : EXP_TABLE = powers EXP_TABLE_SIZE 1.
Proof. apply list_eqb_eq. reflexivity. Qed.

Lemma exp_table_nth i : (i < EXP_TABLE_SIZE)%nat → index EXP_TABLE (Z.of_nat i) = xpow i 1.
Proof. intros Hi. unfold index. rewrite Nat2Z.id, exp_table_powers. by apply powers_nth. Qed.

Definition log_good (i : nat) : bool :=
  let l := index LOG_TABLE (Z.of_nat i) in
  (0 <=? l) && (l <? 255) && (index EXP_TABLE l =? Z.of_nat i).

Lemma log_table_good : forallb log_good (seq 1 255) = true.
Proof. reflexivity. Qed.

(** Checking all bytes. *)
Definition all_bytes (p : Z → bool) : bool := forallb (λ i, p (Z.of_nat i)) (seq 0 256).

Lemma all_bytes_spec p b : all_bytes p = true → byte b → p b = true.
Proof.
  intros Hp Hb. unfold all_bytes in Hp. rewrite forallb_forall in Hp.
  specialize (Hp (Z.to_nat b)). rewrite Z2Nat.id in Hp by (unfold byte in Hb; lia).
  apply Hp, in_seq. unfold byte in Hb. lia.
Qed.

Lemma log_spec a : byte a → a ≠ 0 →
  ∃ n, (n < 255)%nat ∧ index LOG_TABLE a = Z.of_nat n ∧ xpow n 1 = a.
Proof.
  intros Ha Hz. pose proof log_table_good as Hg. rewrite forallb_forall in Hg.
  specialize (Hg (Z.to_nat a)). unfold log_good in Hg. rewrite Z2Nat.id in Hg by (unfold byte in Ha; lia).
  destruct (andb_prop _ _ (Hg ltac:(apply in_seq; unfold byte in Ha; lia))) as [[H0 H1]%andb_prop H2].
  apply Z.leb_le in H0. apply Z.ltb_lt in H1. apply Z.eqb_eq in H2.
  exists (Z.to_nat (index LOG_TABLE a)). rewrite Z2Nat.id by done. split; [lia|]. split; [done|].
  rewrite <-exp_table_nth by (unfold EXP_TABLE_SIZE, FIELD_SIZE; lia). by rewrite Z2Nat.id.
Qed.

Lemma xpow_add n m b : xpow (n + m) b = xpow n (xpow m b).
Proof. apply Nat.iter_add. Qed.

Lemma xpow_255 b : byte b → xpow 255 b = b.
Proof.
  intros Hb. destruct (decide (b = 0)) as [->|Hz]; [apply xpow_0|].
  destruct (log_spec b Hb Hz) as (n & _ & _ & <-). rewrite <-xpow_add, Nat.add_comm, xpow_add. reflexivity.
Qed.

Lemma xpow_mod n b : byte b → xpow (n mod 255) b = xpow n b.
Proof.
  intros Hb. trans (xpow (255 * (n / 255) + n mod 255) b); [|by rewrite <-Nat.div_mod_eq].
  generalize (n mod 255)%nat. intros r.
  induction (n / 255)%nat as [|q IH]; [by rewrite Nat.mul_0_r|].
  rewrite IH. replace (255 * S q + r)%nat with (255 + (255 * q + r))%nat by lia.
  rewrite (xpow_add 255), xpow_255; [done|by apply xpow_byte].
Qed.

Lemma xpow_nonzero n b : byte b → b ≠ 0 → xpow n b ≠ 0.
Proof.
  intros Hb Hz Hn. apply Hz. assert (xpow (254 * n + n) b = b) as <-.
  - replace (254 * n + n)%nat with (n * 255)%nat by lia.
    rewrite <-xpow_mod by done. by rewrite Nat.Div0.mod_mul.
  - by rewrite xpow_add, Hn, xpow_0.
Qed.

Lemma nth_map_seq {A} (f : nat → A) n i d : (i < n)%nat → nth i (map f (seq 0 n)) d = f i.
Proof.
  intros Hi. rewrite nth_indep with (d' := f 0%nat) by (rewrite length_map, length_seq; lia).
  rewrite map_nth, seq_nth by lia. done.
Qed.

Lemma mul_table a b : byte a → byte b → mul a b = multiply LOG_TABLE EXP_TABLE a b.
Proof.
  intros Ha Hb. unfold mul, mul_row, index, MUL_TABLE, gen_mul_table, byte in *.
  rewrite nth_map_seq by (unfold FIELD_SIZE; lia). rewrite nth_map_seq by (unfold FIELD_SIZE; lia).
  by rewrite !Z2Nat.id by lia.
Qed.

(** To multiply by a power of [x] is to multiply by [x] that often. *)
Lemma mul_xpow n b : (n < 255)%nat → byte b → mul (xpow n 1) b = xpow n b.
Proof.
  intros Hn Hb. assert (byte (xpow n 1)) as Ha by by apply xpow_byte.
  assert (xpow n 1 ≠ 0) as Hz by by apply xpow_nonzero.
  rewrite mul_table by done. unfold multiply. apply Z.eqb_neq in Hz as Hz'. rewrite Hz'. simpl.
  destruct (Z.eqb_spec b 0) as [->|Hbz]; [by rewrite xpow_0|].
  destruct (log_spec _ Ha Hz) as (m & Hm & -> & Hx). destruct (log_spec b Hb Hbz) as (k & Hk & -> & <-).
  rewrite <-Nat2Z.inj_add, exp_table_nth by (unfold EXP_TABLE_SIZE, FIELD_SIZE; lia).
  rewrite Nat.add_comm, xpow_add, Hx, <-!xpow_add. f_equal. lia.
Qed.

(** ** The laws of the field *)

Lemma mul_0_l b : byte b → mul 0 b = 0.
Proof. intros Hb. by rewrite mul_table. Qed.

Lemma mul_by a b : byte a → a ≠ 0 → byte b →
  ∃ n, (n < 255)%nat ∧ index LOG_TABLE a = Z.of_nat n ∧ xpow n 1 = a ∧ mul a b = xpow n b.
Proof.
  intros Ha Hz Hb. destruct (log_spec a Ha Hz) as (n & Hn & Hl & <-). exists n. by rewrite mul_xpow.
Qed.

Lemma mul_byte a b : byte a → byte b → byte (mul a b).
Proof.
  intros Ha Hb. destruct (decide (a = 0)) as [->|Hz]; [by rewrite mul_0_l|].
  destruct (mul_by a b) as (n & _ & _ & _ & ->); [done..|]. by apply xpow_byte.
Qed.

Lemma mul_comm a b : byte a → byte b → mul a b = mul b a.
Proof.
  intros Ha Hb. rewrite !mul_table by done. unfold multiply. rewrite orb_comm.
  by rewrite Z.add_comm.
Qed.

Lemma mul_0_r a : byte a → mul a 0 = 0.
Proof. intros Ha. by rewrite mul_comm, mul_0_l. Qed.

Lemma mul_1_l b : byte b → mul 1 b = b.
Proof. intros Hb. apply (mul_xpow 0 b); [lia|done]. Qed.

Lemma mul_1_r b : byte b → mul b 1 = b.
Proof. intros Hb. by rewrite mul_comm, mul_1_l. Qed.

Lemma mul_assoc a b c : byte a → byte b → byte c → mul a (mul b c) = mul (mul a b) c.
Proof.
  intros Ha Hb Hc. destruct (decide (a = 0)) as [->|Hz]; [by rewrite !mul_0_l by auto using mul_byte|].
  destruct (decide (b = 0)) as [->|Hbz]; [by rewrite mul_0_l, mul_0_r, mul_0_l|].
  destruct (mul_by a (mul b c)) as (n & Hn & _ & Hx & ->); [done..|by apply mul_byte|].
  destruct (mul_by b c) as (m & Hm & _ & <- & ->); [done..|]. rewrite <-Hx, mul_xpow by auto using xpow_byte.
  rewrite <-!xpow_add, <-(xpow_mod (n + m) c), <-(xpow_mod (n + m) 1) by done.
  symmetry. apply mul_xpow; [|done]. apply Nat.mod_upper_bound. lia.
Qed.

Lemma mul_lxor_r a b c : byte a → byte b → byte c → mul a (Z.lxor b c) = Z.lxor (mul a b) (mul a c).
Proof.
  intros Ha Hb Hc. destruct (decide (a = 0)) as [->|Hz]; [by rewrite !mul_0_l by auto using lxor_byte|].
  destruct (log_spec a Ha Hz) as (n & Hn & _ & <-). rewrite !mul_xpow by auto using lxor_byte. by apply xpow_lxor.
Qed.

Lemma mul_lxor_l a b c : byte a → byte b → byte c → mul (Z.lxor a b) c = Z.lxor (mul a c) (mul b c).
Proof.
  intros Ha Hb Hc. rewrite (mul_comm (Z.lxor a b)), (mul_comm a), (mul_comm b) by auto using lxor_byte.
  by apply mul_lxor_r.
Qed.

Lemma mul_nonzero a b : byte a → byte b → a ≠ 0 → b ≠ 0 → mul a b ≠ 0.
Proof. intros Ha Hb Hz Hbz. destruct (mul_by a b) as (n & _ & _ & _ & ->); [done..|]. by apply xpow_nonzero. Qed.

(** *** Division and powers *)

Definition inv_good (b : Z) : bool := (b =? 0) || ((0 <=? index INV_TABLE b) && (index INV_TABLE b <? 256) &&
  (multiply LOG_TABLE EXP_TABLE (index INV_TABLE b) b =? 1)).
Lemma inv_table_good : all_bytes inv_good = true.
Proof. reflexivity. Qed.

Lemma inv_spec b : byte b → b ≠ 0 → byte (index INV_TABLE b) ∧ mul (index INV_TABLE b) b = 1.
Proof.
  intros Hb Hz. pose proof (all_bytes_spec _ b inv_table_good Hb) as Hg. unfold inv_good in Hg.
  apply orb_prop in Hg as [Hg%Z.eqb_eq|Hg]; [done|].
  apply andb_prop in Hg as [[H0%Z.leb_le H1%Z.ltb_lt]%andb_prop H2%Z.eqb_eq].
  split; [done|]. by rewrite mul_table.
Qed.

Lemma div_spec a b : byte a → byte b → b ≠ 0 → ∃ c, div a b = Some c ∧ byte c ∧ mul c b = a.
Proof.
  intros Ha Hb Hz. unfold div. pose proof (proj2 (Z.eqb_neq b 0) Hz) as ->.
  destruct (Z.eqb_spec a 0) as [->|Haz]; [exists 0; split; [done|]; split; [done|by apply mul_0_l]|].
  destruct (Z.eqb_spec a 1) as [->|_]; [eexists; split; [done|]; by apply inv_spec|].
  destruct (log_spec a Ha Haz) as (n & Hn & -> & <-). destruct (log_spec b Hb Hz) as (m & Hm & -> & <-).
  set (k := if (Nat.ltb n m) then (n + 255 - m)%nat else (n - m)%nat).
  assert ((k < 255)%nat ∧ xpow (k + m) 1 = xpow n 1) as [Hk Hx].
  { unfold k. destruct (Nat.ltb_spec n m); (split; [lia|]).
    - replace (n + 255 - m + m)%nat with (255 + n)%nat by lia. rewrite xpow_add. apply xpow_255. by apply xpow_byte.
    - f_equal. lia. }
  exists (xpow k 1). split; [|split; [by apply xpow_byte|]].
  - f_equal. rewrite <-exp_table_nth by (unfold EXP_TABLE_SIZE, FIELD_SIZE; lia). f_equal.
    unfold k. destruct (Z.ltb_spec (Z.of_nat n - Z.of_nat m) 0), (Nat.ltb_spec n m); lia.
  - rewrite mul_xpow by auto using xpow_byte. by rewrite <-xpow_add.
Qed.

Lemma exp_iter a n : byte a → exp a n = Nat.iter n (mul a) 1.
Proof.
  intros Ha. unfold exp. destruct n as [|n]; [done|]. simpl Nat.eqb. cbv iota.
  destruct (Z.eqb_spec a 0) as [->|Hz].
  { simpl. rewrite mul_0_l; [done|]. induction n as [|n IH]; [done|]. simpl. by apply mul_byte. }
  destruct (log_spec a Ha Hz) as (l & Hl & -> & <-).
  rewrite <-Nat2Z.inj_mul. change 255 with (Z.of_nat 255). rewrite <-Nat2Z.inj_mod.
  rewrite exp_table_nth, xpow_mod; [|done|].
  2:{ pose proof (Nat.mod_upper_bound (l * S n) 255). unfold EXP_TABLE_SIZE, FIELD_SIZE. lia. }
  generalize (S n). intros m. induction m as [|m IH]; [by rewrite Nat.mul_0_r|].
  rewrite Nat.mul_succ_r, Nat.add_comm, xpow_add, IH. simpl. rewrite mul_xpow; [done|done|].
  clear IH. induction m as [|m IH]; [done|]. simpl. apply mul_byte; [done|exact IH].
Qed.

(** *** The tables compute the reference product *)

Definition xor_sum (l : list Z) : Z := fold_right Z.lxor 0 l.

Lemma xor_sum_byte l : Forall byte l → byte (xor_sum l).
Proof. induction 1; [done|]. by apply lxor_byte. Qed.

Lemma xor_sum_linear (f : Z → Z) l :
  f 0 = 0 → (∀ a b, byte a → byte b → f (Z.lxor a b) = Z.lxor (f a) (f b)) → Forall byte l →
  f (xor_sum l) = xor_sum (map f l).
Proof.
  intros H0 Hf. induction 1 as [|a l Ha Hl IH]; [done|]. simpl. rewrite Hf, IH; [done|done|by apply xor_sum_byte].
Qed.

Lemma gf_mul_1 a : byte a → gf_mul a 1 = a.
Proof. intros Ha. apply Z.eqb_eq. by apply (all_bytes_spec (λ a, gf_mul a 1 =? a)). Qed.

Lemma mul_gf_mul a b : byte a → byte b → mul a b = gf_mul a b.
Proof.
  intros Ha Hb. destruct (decide (b = 0)) as [->|Hz].
  { rewrite mul_0_r by done. unfold gf_mul. rewrite (map_ext _ (λ _, 0)); [done|].
    intros i. rewrite xpow_0. by destruct (Z.testbit a (Z.of_nat i)). }
  rewrite mul_comm by done. destruct (mul_by b a) as (n & _ & _ & Hx & ->); [done..|].
  rewrite <-(gf_mul_1 a) at 1 by done. unfold gf_mul. fold (xor_sum (map (λ i, if Z.testbit a (Z.of_nat i) then xpow i 1 else 0) (seq 0 8))).
  rewrite (xor_sum_linear (xpow n)).
  - unfold xor_sum. rewrite map_map. f_equal. apply map_ext. intros i. destruct (Z.testbit a (Z.of_nat i)); [|apply xpow_0].
    by rewrite <-Hx, <-!xpow_add, Nat.add_comm.
  - apply xpow_0.
  - intros. by apply xpow_lxor.
  - apply Forall_map, Forall_forall. intros i _. simpl. destruct (Z.testbit a (Z.of_nat i)); [by apply xpow_byte|done].
Qed.

(** ** Slices *)

Lemma halves_good : all_bytes (λ b, (Z.lxor (Z.land b 15) (Z.shiftl (Z.land (Z.shiftr b 4) 15) 4) =? b) &&
  (Z.to_nat (Z.land b 15) <? 16)%nat && (Z.to_nat (Z.land (Z.shiftr b 4) 15) <? 16)%nat) = true.
Proof. reflexivity. Qed.

Lemma parts_mul LANES c b : (16 ≤ LANES)%nat → byte c → byte b →
  Z.lxor (low_part LANES c b) (high_part LANES c b) = mul c b.
Proof.
  intros HL Hc Hb. pose proof (all_bytes_spec _ b halves_good Hb) as Hg. simpl in Hg.
  apply andb_prop in Hg as [[He%Z.eqb_eq Hl%Nat.ltb_lt]%andb_prop Hh%Nat.ltb_lt].
  set (lo := Z.land b 15) in *. set (hi := Z.land (Z.shiftr b 4) 15) in *.
  assert (0 ≤ lo) as Hlo by (apply Z.land_nonneg; unfold byte in Hb; lia).
  assert (0 ≤ hi) as Hhi by (apply Z.land_nonneg; right; lia).
  assert (byte lo) as Hlb by (unfold byte; lia).
  assert (byte (Z.shiftl hi 4)) as Hhb by (rewrite Z.shiftl_mul_pow2 by lia; change (2 ^ 4) with 16; unfold byte; lia).
  trans (mul c (Z.lxor lo (Z.shiftl hi 4))); [|by rewrite He]. rewrite mul_lxor_r by done. rewrite !mul_table by done.
  unfold low_part, high_part, swizzle. fold lo hi. unfold MUL_TABLE_LOW, MUL_TABLE_HIGH, gen_mul_table_half. cbn [fst snd].
  rewrite (proj2 (Nat.ltb_lt (Z.to_nat lo) LANES)), (proj2 (Nat.ltb_lt (Z.to_nat hi) LANES)) by lia.
  unfold byte in Hc. rewrite !Nat.mod_small by lia.
  do 4 rewrite nth_map_seq by (unfold FIELD_SIZE; lia). by rewrite !Z2Nat.id by lia.
Qed.

Lemma zip_with_app_split {A B C} (f : A → B → C) n l k :
  length l = length k → zip_with f (take n l) (take n k) ++ zip_with f (drop n l) (drop n k) = zip_with f l k.
Proof. intros Hl. rewrite <-zip_with_app by (rewrite !length_take; lia). by rewrite !take_drop. Qed.

Lemma mul_slice_xor_low_eq (LANES : nat) (c : Z) (input out : list Z) :
  (16 ≤ LANES)%nat → byte c → Forall byte input →
  mul_slice_xor LANES c input out = mul_slice_xor_low c input out.
Proof.
  intros HL Hc Hi. unfold mul_slice_xor, mul_slice_xor_low, assert_that.
  destruct (decide (length input = length out)) as [Hl|]; [|done]. simpl.
  rewrite decide_True by (rewrite !length_drop; lia). simpl. f_equal.
  rewrite <-(zip_with_app_split _ (whole LANES input) input out) by done. f_equal.
  generalize (take (whole LANES input) out). intros k.
  assert (Forall byte (take (whole LANES input) input)) as Ht by by apply Forall_take.
  revert k. induction Ht as [|i l Hb _ IH]; intros [|o k]; simpl; [done..|].
  f_equal; [|apply IH]. rewrite Z.lxor_assoc. f_equal. by apply parts_mul.
Qed.

(** A target has no vector instructions or 16 lanes and more. *)
Definition target_ok (t : Target) : Prop := match t with Some LANES => (16 ≤ LANES)%nat | None => True end.

Lemma slice_xor_low t c input out :
  target_ok t → byte c → Forall byte input → slice_xor t c input out = mul_slice_xor_low c input out.
Proof. intros Ht Hc Hi. destruct t as [LANES|]; [by apply mul_slice_xor_low_eq|done]. Qed.

Lemma index_byte l i : Forall byte l → byte (index l i).
Proof.
  intros Hl. unfold index. rewrite nth_lookup. destruct (l !! Z.to_nat i) as [x|] eqn:Hx; [|done].
  rewrite Forall_forall in Hl. eapply Hl, list_elem_of_lookup_2, Hx.
Qed.

(** Whatever is looked up in the table is a byte. *)
Lemma mul_any_byte a b : byte (mul a b).
Proof.
  unfold mul. apply index_byte. unfold mul_row. rewrite nth_lookup.
  destruct (MUL_TABLE !! Z.to_nat a) as [l|] eqn:Hl; [|constructor]. simpl.
  unfold MUL_TABLE, gen_mul_table in Hl. apply list_lookup_fmap_Some in Hl as (n & -> & Hn).
  apply Forall_map, Forall_forall. intros m Hm. apply lookup_seq in Hn as [-> Hn]. apply elem_of_seq in Hm.
  unfold FIELD_SIZE in *. rewrite <-mul_table by (unfold byte; lia). apply mul_byte; unfold byte; lia.
Qed.

(** ** Properties *)

(** The tables the build script generates are the multiplication and division of the field
    with 256 elements: the product is the product of polynomials modulo
    [x^8 + x^4 + x^3 + x^2 + 1], dividing by a byte other than zero gives the factor and by zero
    nothing, and a power is the repeated product. *)
Theorem galois_tables_correct (a b : Z) (n : nat) :
  byte a → byte b →
  mul a b = gf_mul a b ∧ byte (mul a b) ∧ exp a n = Nat.iter n (mul a) 1 ∧
  if decide (b = 0) then div a b = None
  else ∃ c, div a b = Some c ∧ byte c ∧ mul c b = a ∧ ∀ d, byte d → mul d b = a → d = c.
Proof.
  intros Ha Hb. split; [by apply mul_gf_mul|]. split; [by apply mul_byte|]. split; [by apply exp_iter|].
  destruct (decide (b = 0)) as [->|Hz]; [done|].
  destruct (div_spec a b Ha Hb Hz) as (c & Hd & Hc & Hm). exists c. split; [done|]. split; [done|]. split; [done|].
  intros d Hdb Hdm. apply Z.lxor_eq. destruct (decide (Z.lxor d c = 0)) as [|Hne]; [done|]. exfalso.
  apply (mul_nonzero (Z.lxor d c) b); [by apply lxor_byte|done..|].
  by rewrite mul_lxor_l, Hdm, Hm, Z.lxor_nilpotent.
Qed.

(** The vectorised addition of a multiple, with its tables of half bytes, gives what the loop
    over bytes gives, for every number of lanes of at least 16 and every length; and the lengths
    have to agree in both. *)
Theorem mul_slice_xor_equiv (LANES : nat) (c : Z) (input out : list Z) :
  (16 ≤ LANES)%nat → byte c → Forall byte input →
  mul_slice_xor LANES c input out = mul_slice_xor_low c input out.
Proof. apply mul_slice_xor_low_eq. Qed.

(** The vectorised multiplication in place does not multiply by [c]: it adds the product to
    the byte it should replace, so every whole chunk is multiplied by [c + 1] instead, which
    differs from the loop over bytes in every byte that is not zero. *)
Theorem mul_slice_in_place_defect (LANES : nat) (c : Z) (out : list Z) (i : nat) (b : Z) :
  (16 ≤ LANES)%nat → byte c → Forall byte out → (i < whole LANES out)%nat → out !! i = Some b →
  mul_slice_in_place LANES c out !! i = Some (mul (Z.lxor c 1) b) ∧
  (b ≠ 0 → mul_slice_in_place LANES c out !! i ≠ mul_slice_in_place_low c out !! i).
Proof.
  intros HL Hc Ho Hi Hb. assert (byte b) as Hbb by (rewrite Forall_forall in Ho; eapply Ho, list_elem_of_lookup_2, Hb).
  assert (mul_slice_in_place LANES c out !! i = Some (mul (Z.lxor c 1) b)) as Hv.
  { unfold mul_slice_in_place. rewrite lookup_app_l.
    - rewrite list_lookup_fmap, lookup_take_lt, Hb by done. simpl. f_equal.
      rewrite Z.lxor_assoc, parts_mul by done. by rewrite mul_lxor_l, mul_1_l, Z.lxor_comm.
    - rewrite length_map, length_take. apply lookup_lt_Some in Hb. lia. }
  split; [done|]. intros Hz. rewrite Hv. unfold mul_slice_in_place_low.
  rewrite list_lookup_fmap, Hb. simpl. intros [= Heq]. fold (mul c b) in Heq.
  rewrite mul_lxor_l, mul_1_l in Heq by done. apply (f_equal (Z.lxor (mul c b))) in Heq.
  by rewrite <-Z.lxor_assoc, !Z.lxor_nilpotent, Z.lxor_0_l in Heq.
Qed.

Lemma galois_tables_correct_witness : mul 7 9 = 63 ∧ exp 2 8 = 29.
Proof.
  assert (byte 7 ∧ byte 9) as [H7 H9] by done.
  destruct (galois_tables_correct 7 9 0 H7 H9) as (Hm & _). split; [rewrite Hm; reflexivity|].
  destruct (galois_tables_correct 2 9 8 ltac:(done) H9) as (_ & _ & He & _). rewrite He.
  unfold mul. reflexivity.
Defined.

Lemma mul_slice_xor_equiv_witness :
  mul_slice_xor 16 3 (replicate 17 5) (replicate 17 1) = Done (replicate 17 14).
Proof.
  assert (byte 3 ∧ Forall byte (replicate 17 5)) as [H3 H5] by (split; [done|by apply Forall_replicate]).
  rewrite (mul_slice_xor_equiv 16 3 _ (replicate 17 1) (le_n 16) H3 H5). reflexivity.
Defined.

Lemma mul_slice_in_place_defect_witness :
  mul_slice_in_place 16 3 (replicate 16 5) !! 0%nat = Some (mul 2 5).
Proof.
  assert (byte 3 ∧ Forall byte (replicate 16 5)) as [H3 H5] by (split; [done|by apply Forall_replicate]).
  exact (proj1 (mul_slice_in_place_defect 16 3 (replicate 16 5) 0 5 (le_n 16) H3 H5 ltac:(decided) eq_refl)).
Defined.
