(* ===== verification/Matrix.v ===== *)
(** Linear algebra of the erasure code, [utils/berkleamp-welch/src/math.rs]: matrices, the inverse
    of the Vandermonde matrix and polynomials. A slice of [r * c] bytes that holds a matrix is
    kept as the list of its [r] rows of length [c]. *)

From S2P Require Import Prelude Galois.

Notation Matrix := (list (list Z)).
Definition row (mx : Matrix) (j : nat) : list Z := nth j mx [].
Definition entry (mx : Matrix) (j i : nat) : Z := nth i (row mx j) 0.
(* mx.len() == r * c *)
Definition is_matrix (r c : nat) (mx : Matrix) : Prop := length mx = r ∧ Forall (λ l, length l = c) mx.
#[global] Instance is_matrix_dec r c mx : Decision (is_matrix r c mx).
Proof. unfold is_matrix. apply _. Defined.

Definition matrix_swap_rows (a b : nat) (mx : Matrix) : outcome Matrix :=
  try! _ := assert_that (a < b < length mx)%nat in
  Done (<[a:=row mx b]> (<[b:=row mx a]> mx)).

Section target.
Context (t : Target).

(* row b gets fac * row a added; slicing the same row twice is out of range *)
Definition matrix_add_mul_rows (a b : nat) (fac : Z) (mx : Matrix) : outcome Matrix :=
  try! _ := assert_that (a ≠ b ∧ a < length mx ∧ b < length mx)%nat in
  try! dest := slice_xor t fac (row mx a) (row mx b) in
  Done (<[b:=dest]> mx).

(** A loop whose body may panic. *)
Fixpoint for_each {A S} (l : list A) (f : A → S → outcome S) (s : S) : outcome S :=
  match l with [] => Done s | x :: l => try! s := f x s in for_each l f s end.

Definition range (a b : nat) : list nat := seq a (b - a).

(* the first row from i on with an entry in column i *)
Definition find_row (mx : Matrix) (i r : nat) : option nat :=
  find (λ j, negb (entry mx j i =? 0)) (range i r).

Definition standardize_matrix (r c : nat) (mx : Matrix) : outcome Matrix :=
  try! _ := assert_that (is_matrix r c mx) in
  try! mx := for_each (range 0 r) (λ i mx,
    match find_row mx i r with
    | None => Done mx
    | Some p_row =>
        let p_val := entry mx p_row i in
        try! mx := (if decide (p_row ≠ i) then matrix_swap_rows i p_row mx else Done mx) in
        try! inv := unwrap (div 1 p_val) in
        let mx := <[i:=slice_in_place t inv (row mx i)]> mx in
        for_each (range (i + 1) r) (λ j mx, matrix_add_mul_rows i j (entry mx j i) mx) mx
    end) mx in
  for_each (rev (range 0 r)) (λ i mx,
    for_each (rev (range 0 i)) (λ j mx, matrix_add_mul_rows i j (entry mx j i) mx) mx) mx.

(* the same steps on mx and out; debug: whether debug assertions are checked *)
Definition invert_matrix_with (debug : bool) (k : nat) (mx out : Matrix) : outcome (Matrix * Matrix) :=
  try! _ := assert_that (is_matrix k k mx) in
  try! _ := assert_that (is_matrix k k out) in
  let add_mul i j (s : Matrix * Matrix) :=
    let fac := entry s.1 j i in
    try! mx := matrix_add_mul_rows i j fac s.1 in
    try! out := matrix_add_mul_rows i j fac s.2 in
    Done (mx, out) in
  try! s := for_each (range 0 k) (λ i s,
    match find_row s.1 i k with
    | None => Done s
    | Some p_row =>
        let p_val := entry s.1 p_row i in
        try! s := (if decide (p_row ≠ i) then
            try! mx := matrix_swap_rows i p_row s.1 in
            try! out := matrix_swap_rows i p_row s.2 in
            Done (mx, out)
          else Done s) in
        try! inv := unwrap (div 1 p_val) in
        let s := (<[i:=slice_in_place t inv (row s.1 i)]> s.1,
                  <[i:=slice_in_place t inv (row s.2 i)]> s.2) in
        try! _ := debug_assert debug (entry s.1 i i = 1) in
        for_each (range (i + 1) k) (λ j s, add_mul i j s) s
    end) (mx, out) in
  try! s := for_each (rev (range 0 k)) (λ i s, for_each (rev (range 0 i)) (λ j s, add_mul i j s) s) s in
  try! _ := debug_assert debug (Forall (λ i, entry s.1 i i = 1) (range 0 k)) in
  Done s.

(* out has c - r rows of c columns *)
Definition parity_matrix (r c : nat) (mx out : Matrix) : outcome Matrix :=
  try! _ := assert_that (is_matrix r c mx) in
  try! _ := assert_that (r ≤ c)%nat in
  try! _ := assert_that (is_matrix (c - r) c out) in
  let out := imap (λ i l, <[(i + r)%nat:=1]> l) out in
  Done (imap (λ i l, fold_left (λ l j, <[j:=entry mx j (i + r)]> l) (range 0 r) l) out).

(** *** invert_matrix *)

(* the first row with an entry in column i that is still unused *)
Definition find_pivot (mx : Matrix) (unused : list bool) (i : nat) : option nat :=
  find (λ j, negb (entry mx j i =? 0) && nth j unused false) (seq 0 (length unused)).

Definition eliminate (i : nat) (pivot_row l : list Z) : outcome (list Z) :=
  slice_xor t (nth i l 0) pivot_row (<[i:=0]> l).

Definition eliminate_rows (i : nat) (pivot_row : list Z) (mx : Matrix) : outcome Matrix :=
  for_each (seq 0 (length mx)) (λ j mx,
    if decide (j = i) then Done mx
    else try! l := eliminate i pivot_row (row mx j) in Done (<[j:=l]> mx)) mx.

(* the pivot row divided by its pivot, the inverse left in the pivot's place *)
Definition scale_pivot (i : nat) (l : list Z) : option (list Z) :=
  let c := nth i l 0 in
  if decide (c = 1) then Some l
  else match div 1 c with
       | Some c => Some (slice_in_place t c (<[i:=1]> l))
       | None => None
       end.

Definition others_zero (i : nat) (l : list Z) : bool :=
  forallb (λ x, x =? 0) (take i l ++ drop (i + 1) l).

Record InvertState := { im_mx : Matrix; im_unused : list bool; im_swaps : list (nat * nat) }.

(* one turn of the loop; None is the early return *)
Definition invert_step (i : nat) (s : InvertState) : outcome (option InvertState) :=
  match find_pivot (im_mx s) (im_unused s) i with
  | None => Done None
  | Some pivot =>
      let unused := <[pivot:=false]> (im_unused s) in
      try! ms := (if decide (pivot ≠ i) then
          let a := Nat.min pivot i in let b := Nat.max pivot i in
          try! mx := matrix_swap_rows a b (im_mx s) in Done (mx, im_swaps s ++ [(a, b)])
        else Done (im_mx s, im_swaps s)) in
      match scale_pivot i (row ms.1 i) with
      | None => Done None
      | Some pivot_row =>
          let mx := <[i:=pivot_row]> ms.1 in
          try! mx := (if others_zero i pivot_row then Done mx else eliminate_rows i pivot_row mx) in
          Done (Some {| im_mx := mx; im_unused := unused; im_swaps := ms.2 |})
      end
  end.

Fixpoint invert_loop (l : list nat) (s : InvertState) : outcome (option InvertState) :=
  match l with
  | [] => Done (Some s)
  | i :: l =>
      try! r := invert_step i s in
      match r with Some s => invert_loop l s | None => Done None end
  end.

Definition invert_matrix (k : nat) (mx : Matrix) : outcome (option Matrix) :=
  try! _ := assert_that (is_matrix k k mx) in
  try! r := invert_loop (seq 0 k) {| im_mx := mx; im_unused := replicate k true; im_swaps := [] |} in
  match r with
  | None => Done None
  | Some s =>
      try! mx := for_each (rev (im_swaps s)) (λ ab mx, matrix_swap_rows ab.1 ab.2 mx) (im_mx s) in
      Done (Some mx)
  end.
End target.

(** *** The inverse of the Vandermonde matrix *)

(* b and c are indexed from the end, as the source does *)
Definition at_ (l : list Z) (i : nat) : Z := nth i l 0.

Definition vdm_coefficients (k : nat) : list Z :=
  fold_left (λ c i,
    let p_i := index EXP_TABLE (Z.of_nat i) in
    let c := fold_left (λ c j, <[j:=Z.lxor (at_ c j) (mul p_i (at_ c (j + 1)))]> c)
      (range (k - 1 - (i - 1)) (k - 1)) c in
    <[(k - 1)%nat:=Z.lxor (at_ c (k - 1)) p_i]> c) (range 1 k) (replicate k 0).

(* the column of the result a row computes *)
Definition vdm_column (k row : nat) (c : list Z) : list Z :=
  let p_row := if decide (row ≠ 0)%nat then index EXP_TABLE (Z.of_nat row) else 0 in
  let '(b, t) := fold_left (λ bt i,
      let '(b, t) := bt in
      let b := <[i:=Z.lxor (at_ c (i + 1)) (mul p_row (at_ b (i + 1)))]> b in
      (b, Z.lxor (at_ b i) (mul p_row t)))
    (rev (range 0 (k - 1))) (<[(k - 1)%nat:=1]> (replicate k 0), 1) in
  map (mul (index INV_TABLE t)) b.

(* the first k rows of vdm are overwritten *)
Definition create_inverted_vdm (k : nat) (vdm : Matrix) : outcome Matrix :=
  try! _ := assert_that (k ≤ length vdm)%nat in
  if decide (k = 1)%nat then Done (<[0%nat:=<[0%nat:=1]> (row vdm 0)]> vdm)
  else
    let c := vdm_coefficients k in
    Done (fold_left (λ vdm r,
      imap (λ col l, if decide (col < k)%nat then <[r:=at_ (vdm_column k r c) col]> l else l) vdm)
      (range 0 k) vdm).

(** ** Inverting a matrix that differs from the identity in one row *)

Section one_row.
Context (k r : nat) (Hr : (r < k)%nat).

Definition unit_row (j : nat) : list Z := <[j:=1]> (replicate k 0).
(** The identity with [u] in place of row [r]. *)
Definition with_row (u : list Z) : Matrix := <[r:=u]> (map unit_row (seq 0 k)).

Lemma length_unit_row j : length (unit_row j) = k.
Proof. unfold unit_row. by rewrite length_insert, length_replicate. Qed.

Lemma nth_unit_row j i : (j < k)%nat → nth i (unit_row j) 0 = if decide (i = j) then 1 else 0.
Proof.
  intros Hj. rewrite nth_lookup. unfold unit_row. case_decide as Hd.
  - subst. by rewrite list_lookup_insert_eq by by rewrite length_replicate.
  - rewrite list_lookup_insert_ne by done. destruct (replicate k 0 !! i) eqn:He; [|done].
    by apply lookup_replicate in He as [-> _].
Qed.

Lemma length_with_row u : length (with_row u) = k.
Proof. unfold with_row. by rewrite length_insert, length_map, length_seq. Qed.

Lemma row_with_row u j : (j < k)%nat → row (with_row u) j = if decide (j = r) then u else unit_row j.
Proof.
  intros Hj. unfold row, with_row. rewrite nth_lookup. case_decide as Hd.
  - subst. by rewrite list_lookup_insert_eq by by rewrite length_map, length_seq.
  - rewrite list_lookup_insert_ne, list_lookup_fmap, lookup_seq_lt by done. done.
Qed.

Lemma with_row_same u j : (j < k)%nat → <[j:=row (with_row u) j]> (with_row u) = with_row u.
Proof.
  intros Hj. apply list_insert_id. destruct (lookup_lt_is_Some_2 (with_row u) j) as [l Hl]; [by rewrite length_with_row|].
  unfold row. by rewrite (nth_lookup_Some _ _ _ _ Hl).
Qed.

Lemma with_row_over u u' : <[r:=u']> (with_row u) = with_row u'.
Proof. unfold with_row. by rewrite list_insert_insert_eq. Qed.

Lemma with_row_split u :
  with_row u = map unit_row (seq 0 r) ++ u :: map unit_row (seq (S r) (k - S r)).
Proof.
  unfold with_row. replace k with (r + S (k - S r))%nat at 1 by lia. rewrite seq_app, map_app. simpl.
  rewrite insert_app_r_alt by (rewrite length_map, length_seq; lia). by rewrite length_map, length_seq, Nat.sub_diag.
Qed.

Lemma with_row_matrix u : length u = k → is_matrix k k (with_row u).
Proof.
  intros Hu. split; [apply length_with_row|]. apply Forall_insert; [|done].
  apply Forall_map, Forall_forall. intros j _. apply length_unit_row.
Qed.

Lemma for_each_id {A S} (l : list A) (f : A → S → outcome S) s :
  Forall (λ x, f x s = Done s) l → for_each l f s = Done s.
Proof. induction 1 as [|x l Hx _ IH]; [done|]. simpl. by rewrite Hx. Qed.

Lemma find_first (q : nat → bool) n m i :
  (n ≤ i < n + m)%nat → (∀ j, (n ≤ j < i)%nat → q j = false) → q i = true → find q (seq n m) = Some i.
Proof.
  revert n. induction m as [|m IH]; intros n Hi Hlt Hq; [lia|]. simpl.
  destruct (decide (n = i)) as [->|Hne]; [by rewrite Hq|]. rewrite Hlt by lia.
  apply IH; [lia| |done]. intros j Hj. apply Hlt. lia.
Qed.

Lemma eliminate_unit u j : Forall byte u → length u = k → (j < k)%nat → j ≠ r →
  eliminate None r u (unit_row j) = Done (unit_row j).
Proof.
  intros Hu Hlen Hj Hne. unfold eliminate. rewrite nth_unit_row, decide_False by done.
  assert (<[r:=0]> (unit_row j) = unit_row j) as ->.
  { apply list_insert_id. assert (nth r (unit_row j) 0 = 0) as Hn by by rewrite nth_unit_row, decide_False.
    destruct (lookup_lt_is_Some_2 (unit_row j) r) as [x Hx]; [by rewrite length_unit_row|].
    by rewrite (nth_lookup_Some _ _ _ _ Hx) in Hn; subst. }
  simpl. unfold mul_slice_xor_low, assert_that. rewrite decide_True by by rewrite length_unit_row. simpl. f_equal.
  assert (length u = length (unit_row j)) as Hl by by rewrite length_unit_row.
  clear Hlen. revert Hl. generalize (unit_row j). clear -Hu. induction Hu as [|x u Hx _ IH]; intros [|y l] Hl; simplify_eq/=; [done|].
  rewrite IH by done. f_equal. fold (mul 0 x). by rewrite mul_0_l, Z.lxor_0_r.
Qed.

Definition unused_from (i : nat) : list bool := replicate i false ++ replicate (k - i) true.

Lemma find_pivot_at u i : (i < k)%nat → entry (with_row u) i i ≠ 0 →
  find_pivot (with_row u) (unused_from i) i = Some i.
Proof.
  intros Hi He. unfold find_pivot, unused_from. rewrite length_app, !length_replicate.
  apply find_first; [lia| |].
  - intros j Hj. rewrite app_nth1 by (rewrite length_replicate; lia). rewrite nth_lookup.
    rewrite lookup_replicate_2 by lia. simpl. apply andb_false_r.
  - rewrite app_nth2 by (rewrite length_replicate; lia). rewrite length_replicate, Nat.sub_diag.
    replace (k - i)%nat with (S (k - i - 1)) by lia. simpl. rewrite andb_true_r.
    by apply negb_true_iff, Z.eqb_neq.
Qed.

Lemma unused_next i : (i < k)%nat → <[i:=false]> (unused_from i) = unused_from (S i).
Proof.
  intros Hi. unfold unused_from. rewrite insert_app_r_alt by (rewrite length_replicate; lia).
  rewrite length_replicate, Nat.sub_diag. replace (k - i)%nat with (S (k - S i)) by lia. simpl.
  by rewrite cons_middle, app_assoc, <-replicate_cons_app.
Qed.

Lemma others_zero_unit i : (i < k)%nat → others_zero i (unit_row i) = true.
Proof.
  intros Hi. unfold others_zero, unit_row.
  replace k with (i + S (k - S i))%nat at 1 2 by lia. rewrite replicate_add.
  rewrite insert_app_r_alt by (rewrite length_replicate; lia). rewrite length_replicate, Nat.sub_diag. simpl.
  rewrite take_app_n, cons_middle, app_assoc, drop_app_n by (rewrite ?length_app, length_replicate; simpl; lia).
  apply forallb_forall. intros x Hx. apply Z.eqb_eq. apply list_elem_of_In in Hx.
  by apply elem_of_app in Hx as [Hx%elem_of_replicate_inv|Hx%elem_of_replicate_inv].
Qed.

(** The row that is not a unit is divided by its entry on the diagonal; the others stay. *)
Lemma invert_step_one_row u u' i :
  (i < k)%nat → (if decide (i = r) then nth r u 0 ≠ 0 ∧ scale_pivot None r u = Some u' else u' = u) →
  Forall byte u' → length u' = k →
  invert_step None i {| im_mx := with_row u; im_unused := unused_from i; im_swaps := [] |} =
    Done (Some {| im_mx := with_row u'; im_unused := unused_from (S i); im_swaps := [] |}).
Proof.
  intros Hi Hu Hb Hlen. unfold invert_step. simpl.
  assert (entry (with_row u) i i ≠ 0) as He.
  { unfold entry. rewrite row_with_row by done. case_decide as Hd; [subst; by destruct Hu|].
    by rewrite nth_unit_row, decide_True. }
  rewrite find_pivot_at, unused_next, decide_False by (done || auto). simpl.
  assert (scale_pivot None i (row (with_row u) i) = Some (row (with_row u') i)) as ->.
  { rewrite !row_with_row by done. case_decide as Hd; [subst; by destruct Hu|].
    unfold scale_pivot. rewrite nth_unit_row by done. by rewrite (decide_True (P := i = i)). }
  assert (<[i:=row (with_row u') i]> (with_row u) = with_row u') as ->.
  { case_decide as Hd; [|subst; by apply with_row_same]. subst i.
    rewrite row_with_row, decide_True by done. apply with_row_over. }
  destruct (others_zero i (row (with_row u') i)) eqn:Ho; [done|].
  assert (i = r) as ->.
  { destruct (decide (i = r)) as [|Hne]; [done|]. exfalso. rewrite row_with_row, decide_False in Ho by done.
    by rewrite others_zero_unit in Ho. }
  rewrite row_with_row, decide_True by done.
  assert (eliminate_rows None r u' (with_row u') = Done (with_row u')) as ->; [|done].
  unfold eliminate_rows. apply for_each_id, Forall_forall. intros j Hj. rewrite length_with_row in Hj.
  apply elem_of_seq in Hj. destruct (decide (j = r)) as [|Hd]; [done|].
  rewrite (row_with_row u' j) by lia. rewrite (decide_False (P := j = r)) by done. rewrite eliminate_unit by (done || lia). cbn [obind].
  f_equal. pose proof (with_row_same u' j ltac:(lia)) as Hs.
  rewrite row_with_row, (decide_False (P := j = r)) in Hs by (done || lia). by rewrite Hs.
Qed.

Lemma invert_loop_units u n i :
  (i + n ≤ k)%nat → Forall byte u → length u = k → (r < i ∨ i + n ≤ r)%nat →
  invert_loop None (seq i n) {| im_mx := with_row u; im_unused := unused_from i; im_swaps := [] |} =
    Done (Some {| im_mx := with_row u; im_unused := unused_from (i + n); im_swaps := [] |}).
Proof.
  revert i. induction n as [|n IH]; intros i Hk Hu Hlen Hi; [by rewrite Nat.add_0_r|]. simpl.
  rewrite (invert_step_one_row u u); [|lia|by rewrite decide_False by lia|done..]. simpl.
  rewrite IH by (lia || done). by rewrite Nat.add_succ_r.
Qed.

Lemma invert_one_row u u' :
  length u = k → length u' = k → Forall byte u → Forall byte u' → nth r u 0 ≠ 0 →
  scale_pivot None r u = Some u' → invert_matrix None k (with_row u) = Done (Some (with_row u')).
Proof.
  intros Hu Hu' Hb Hb' Hz Hs. unfold invert_matrix, assert_that. rewrite decide_True by by apply with_row_matrix. simpl.
  assert (replicate k true = unused_from 0) as -> by (unfold unused_from; by rewrite Nat.sub_0_r).
  replace (seq 0 k) with (seq 0 r ++ r :: seq (S r) (k - S r)) by
    (replace k with (r + S (k - S r))%nat at 2 by lia; by rewrite seq_app).
  assert (∀ l l' s, invert_loop None (l ++ l') s =
    try! o := invert_loop None l s in match o with Some s => invert_loop None l' s | None => Done None end) as Happ.
  { clear. induction l as [|i l IH]; intros l' s; simpl; [done|]. destruct (invert_step None i s) as [[s'|]|]; simpl; [|done..]. by rewrite IH. }
  rewrite Happ, invert_loop_units by (done || lia). simpl.
  rewrite (invert_step_one_row u u') by (done || by rewrite decide_True). simpl.
  rewrite invert_loop_units by (done || lia). done.
Qed.
End one_row.
