(* ===== verification/Poly.v ===== *)
(** Polynomials over the field of the erasure code, [Poly] of
    [utils/berkleamp-welch/src/math.rs]: 256 coefficients of which the first [len] are in use. *)

From S2P Require Import Prelude Galois.

Definition POLY_CAP : nat := 256.
Record Poly := { poly_data : list Z; poly_len : nat }.

Definition as_slice (p : Poly) : list Z := take (poly_len p) (poly_data p).
(* as_mut_slice, overwritten by as many bytes *)
Definition with_slice (p : Poly) (l : list Z) : Poly :=
  {| poly_data := l ++ drop (poly_len p) (poly_data p); poly_len := poly_len p |}.

Definition poly_from_iter (l : list Z) : outcome Poly :=
  try! _ := assert_that (length l ≤ POLY_CAP)%nat in
  Done {| poly_data := l ++ replicate (POLY_CAP - length l) 0; poly_len := length l |}.
Definition poly_zero (size : nat) : Poly := {| poly_data := replicate POLY_CAP 0; poly_len := size |}.
Definition is_zero (p : Poly) : bool := forallb (λ x, x =? 0) (as_slice p).
Definition deg (p : Poly) : option nat := if decide (1 ≤ poly_len p)%nat then Some (poly_len p - 1)%nat else None.

Definition poly_add (p b : Poly) : Poly :=
  let n := Nat.min (poly_len p) (poly_len b) in
  with_slice p (zip_with add (take n (as_slice p)) (take n (as_slice b)) ++ drop n (as_slice p)).

Fixpoint leading_zeros (l : list Z) : nat :=
  match l with x :: l => if x =? 0 then S (leading_zeros l) else 0%nat | [] => 0%nat end.
Definition sanitize (p : Poly) : Poly :=
  {| poly_data := poly_data p;
     poly_len := Nat.max (poly_len p - leading_zeros (rev (as_slice p))) 1 |}.

Definition poly_push (p : Poly) (x : Z) : option Poly :=
  if decide (poly_len p < length (poly_data p))%nat then
    Some {| poly_data := <[poly_len p:=x]> (poly_data p); poly_len := S (poly_len p) |}
  else None.
(* the byte that is returned is the one after the last *)
Definition poly_pop (p : Poly) : outcome (option Z * Poly) :=
  match poly_len p with
  | O => Done (None, p)
  | S n => try! out := unwrap (poly_data p !! poly_len p) in
           Done (Some out, {| poly_data := poly_data p; poly_len := n |})
  end.

Definition poly_eval (p : Poly) (x : Z) : Z :=
  fold_left add (imap (λ i coef, mul coef (exp x i)) (as_slice p)) 0.

Section target.
Context (t : Target).

Definition poly_scale (p : Poly) (factor : Z) : Poly := with_slice p (slice_in_place t factor (as_slice p)).

(* Option's order: None is below everything *)
Definition deg_le (a b : option nat) : bool :=
  match a, b with None, _ => true | Some _, None => false | Some a, Some b => (a <=? b)%nat end.

(* the loop of div: each turn shortens p by one, so its length is enough fuel *)
Fixpoint div_loop (fuel : nat) (b q p : Poly) : outcome (option (Poly * Poly)) :=
  match fuel with
  | O => Done (Some (q, p))
  | S fuel =>
      if deg_le (deg b) (deg p) then
        let leading_p := List.last (as_slice p) 0 in
        try! leading_b := unwrap (last (as_slice b)) in
        match div leading_p leading_b with
        | None => Done None
        | Some coef =>
            match poly_push q coef with
            | None => Done None
            | Some q =>
                let scaled := poly_scale b coef in
                match deg p, deg scaled with
                | Some dp, Some ds =>
                    try! _ := assert_that (ds ≤ dp)%nat in
                    try! padded := poly_from_iter (replicate (dp - ds) 0 ++ as_slice scaled) in
                    let p := poly_add p padded in
                    try! r := poly_pop p in
                    try! _ := assert_that (r.1 = Some 0) in
                    div_loop fuel b q r.2
                | _, _ => Done None
                end
            end
        end
      else Done (Some (q, p))
  end.

Definition poly_div (p b : Poly) : outcome (option (Poly * Poly)) :=
  let p := sanitize p in
  let b := sanitize b in
  match as_slice b with
  | [] => Done None
  | _ =>
      match as_slice p with
      | [] => Done (Some (poly_zero 1, poly_zero 1))
      | _ =>
          try! r := div_loop (S (poly_len p)) b (poly_zero 1) p in
          match r with
          | None => Done None
          | Some (q, p) =>
              let q := with_slice q (rev (as_slice q)) in
              Done (Some (sanitize q, sanitize p))
          end
      end
  end.
End target.

(** ** Evaluation *)

(** Horner's scheme. *)
Fixpoint horner (l : list Z) (x : Z) : Z :=
  match l with [] => 0 | a :: l => Z.lxor a (mul x (horner l x)) end.
Definition gpow (x : Z) (n : nat) : Z := Nat.iter n (mul x) 1.
#[global] Arguments gpow : simpl never.

Lemma gpow_byte x n : byte x → byte (gpow x n).
Proof. intros Hx. induction n as [|n IH]; [done|]. by apply mul_byte. Qed.

Lemma horner_byte l x : Forall byte l → byte x → byte (horner l x).
Proof. intros Hl Hx. induction Hl; [done|]. simpl. apply lxor_byte; [done|]. by apply mul_byte. Qed.

#[export] Hint Resolve lxor_byte mul_byte gpow_byte horner_byte : orion.
Ltac bytes := solve [auto 7 with orion | done].

Lemma gpow_S x n : gpow x (S n) = mul x (gpow x n).
Proof. done. Qed.

Lemma horner_app l k x : Forall byte l → Forall byte k → byte x →
  horner (l ++ k) x = Z.lxor (horner l x) (mul (gpow x (length l)) (horner k x)).
Proof.
  intros Hl Hk Hx. induction Hl as [|a l Ha Hl IH]; simpl; [by rewrite mul_1_l by bytes|].
  rewrite IH, mul_lxor_r by bytes. rewrite Z.lxor_assoc. do 2 f_equal.
  rewrite gpow_S. by rewrite mul_assoc by bytes.
Qed.

Lemma horner_zeros n x : byte x → horner (replicate n 0) x = 0.
Proof. intros Hx. induction n as [|n IH]; [done|]. simpl. by rewrite IH, mul_0_r. Qed.

Lemma horner_zeros_end l n x : Forall byte l → byte x → horner (l ++ replicate n 0) x = horner l x.
Proof.
  intros Hl Hx. rewrite horner_app by (done || by apply Forall_replicate).
  by rewrite horner_zeros, mul_0_r, Z.lxor_0_r by bytes.
Qed.

Lemma horner_xor l k x : length l = length k → Forall byte l → Forall byte k → byte x →
  horner (zip_with add l k) x = Z.lxor (horner l x) (horner k x).
Proof.
  intros Hlen Hl Hk Hx. revert k Hlen Hk. induction Hl as [|a l Ha Hl IH]; intros [|b k] Hlen Hk; simplify_eq/=; [done|].
  apply Forall_cons in Hk as [Hb Hk]. rewrite IH by done. unfold add. rewrite mul_lxor_r by bytes.
  rewrite !Z.lxor_assoc. f_equal. rewrite <-!Z.lxor_assoc. f_equal. apply Z.lxor_comm.
Qed.

Lemma horner_scale c l x : byte c → Forall byte l → byte x →
  horner (map (mul c) l) x = mul c (horner l x).
Proof.
  intros Hc Hl Hx. induction Hl as [|a l Ha Hl IH]; simpl; [by rewrite mul_0_r|].
  rewrite IH, mul_lxor_r by bytes. f_equal.
  rewrite !mul_assoc by bytes. by rewrite (mul_comm x c).
Qed.

Lemma fold_add_acc (l : list Z) a : fold_left add l a = Z.lxor a (fold_left add l 0).
Proof.
  revert a. induction l as [|b l IH]; intros a; simpl; [by rewrite Z.lxor_0_r|].
  rewrite IH, (IH (add 0 b)). unfold add. by rewrite Z.lxor_0_l, Z.lxor_assoc.
Qed.

Lemma eval_from l n x : Forall byte l → byte x →
  fold_left add (imap (λ i coef, mul coef (exp x (n + i))) l) 0 = mul (gpow x n) (horner l x).
Proof.
  intros Hl Hx. revert n. induction Hl as [|a l Ha Hl IH]; intros n; simpl; [by rewrite mul_0_r by bytes|].
  rewrite fold_add_acc. unfold add at 1. rewrite Z.lxor_0_l, mul_lxor_r by bytes. f_equal.
  - rewrite Nat.add_0_r, exp_iter by done. apply mul_comm; bytes.
  - rewrite (imap_ext _ (λ i coef, mul coef (exp x (S n + i)))).
    + rewrite IH. rewrite gpow_S, mul_assoc by bytes. by rewrite (mul_comm x (gpow x n)) by bytes.
    + intros i y _. simpl. by rewrite Nat.add_succ_r.
Qed.

Lemma poly_eval_horner p x : Forall byte (as_slice p) → byte x → poly_eval p x = horner (as_slice p) x.
Proof. intros Hp Hx. unfold poly_eval. rewrite (eval_from _ 0) by done. by rewrite mul_1_l by bytes. Qed.

(** ** Polynomials as the list of their coefficients *)

(** What [poly_from_iter] builds: every byte after the coefficients is zero. *)
Definition poly_of (l : list Z) : Poly :=
  {| poly_data := l ++ replicate (POLY_CAP - length l) 0; poly_len := length l |}.

Lemma as_slice_of l : as_slice (poly_of l) = l.
Proof. apply take_app_length. Qed.

Lemma from_iter_of l : (length l ≤ POLY_CAP)%nat → poly_from_iter l = Done (poly_of l).
Proof. intros Hl. unfold poly_from_iter, assert_that. by rewrite decide_True. Qed.

Lemma with_slice_of l k : length l = length k → with_slice (poly_of l) k = poly_of k.
Proof.
  intros Hl. unfold with_slice, poly_of. simpl. rewrite drop_app_length. by rewrite Hl.
Qed.

Lemma poly_add_of l k : length l = length k → poly_add (poly_of l) (poly_of k) = poly_of (zip_with add l k).
Proof.
  intros Hl. unfold poly_add. rewrite !as_slice_of. simpl. rewrite Hl, Nat.min_id.
  rewrite !take_ge, drop_ge, app_nil_r by lia. apply with_slice_of. rewrite length_zip_with. lia.
Qed.

Lemma poly_scale_of l c : poly_scale None (poly_of l) c = poly_of (map (mul c) l).
Proof. unfold poly_scale. rewrite as_slice_of. simpl. apply with_slice_of. by rewrite length_map. Qed.

Lemma poly_push_of l x : (length l < POLY_CAP)%nat → poly_push (poly_of l) x = Some (poly_of (l ++ [x])).
Proof.
  intros Hl. unfold poly_push, poly_of. simpl. rewrite length_app, length_replicate, decide_True by lia.
  rewrite length_app. simpl. do 2 f_equal; [|lia]. rewrite insert_app_r_alt by lia. rewrite Nat.sub_diag.
  replace (POLY_CAP - length l)%nat with (S (POLY_CAP - (length l + 1))) by lia. simpl. by rewrite <-app_assoc.
Qed.

Lemma poly_pop_of l : (length l + 1 < POLY_CAP)%nat →
  poly_pop (poly_of (l ++ [0])) = Done (Some 0, poly_of l).
Proof.
  unfold poly_pop, poly_of. generalize POLY_CAP. intros cap Hl. simpl. rewrite length_app, Nat.add_comm. simpl.
  rewrite lookup_app_r by (rewrite length_app; simpl; lia).
  rewrite lookup_replicate_2 by (rewrite length_app; simpl; lia). simpl.
  replace (cap - length l)%nat with (S (cap - S (length l))) by lia. simpl. by rewrite <-app_assoc.
Qed.

Lemma leading_zeros_split l : ∃ k, l = replicate (leading_zeros l) 0 ++ k ∧ match k with [] => True | c :: _ => c ≠ 0 end.
Proof.
  induction l as [|x l IH]; [by exists []|]. simpl. destruct (Z.eqb_spec x 0) as [->|Hx]; [|by exists (x :: l)].
  destruct IH as (k & Hk & Hc). exists k. split; [|done]. simpl. by rewrite <-Hk.
Qed.

Lemma rev_replicate {A} n (x : A) : rev (replicate n x) = replicate n x.
Proof. induction n as [|n IH]; [done|]. simpl. rewrite IH. symmetry. apply replicate_cons_app. Qed.

(** [sanitize] drops the zeros at the end but keeps one coefficient. *)
Lemma sanitize_of l : (length l ≤ POLY_CAP)%nat → ∃ k n, l ++ [0] = k ++ replicate n 0 ∧
  sanitize (poly_of l) = poly_of k ∧ (k = [0] ∨ ∃ k' c, k = k' ++ [c] ∧ c ≠ 0) ∧
  (length k ≤ Nat.max (length l) 1)%nat.
Proof.
  intros Hl. destruct (leading_zeros_split (rev l)) as (k & Hk & Hc).
  set (n := leading_zeros (rev l)) in *. apply (f_equal (@rev Z)) in Hk.
  rewrite rev_involutive, rev_app_distr in Hk.
  pose proof (rev_replicate n 0) as Hr.
  rewrite Hr in Hk. assert (length l = length (rev k) + n)%nat as Hlen by (rewrite Hk at 1; by rewrite length_app, length_replicate).
  unfold sanitize. rewrite as_slice_of. fold n. simpl poly_len. simpl poly_data.
  destruct k as [|c k].
  - exists [0], n. rewrite Hk. simpl app. rewrite length_replicate.
    assert (replicate n 0 ++ [0] = 0 :: replicate n 0) as Hz by (symmetry; apply (replicate_cons_app n 0)).
    split; [done|]. split; [|split; [by left|simpl; lia]].
    replace (Nat.max (n - n) 1) with 1%nat by lia. unfold poly_of. f_equal. simpl in Hlen.
    rewrite <-replicate_add. change ([0] ++ ?l) with (0 :: l). cbn [length app].
    change (0 :: replicate (POLY_CAP - 1) 0) with (replicate POLY_CAP 0). f_equal. unfold POLY_CAP in *. lia.
  - simpl in Hk, Hlen. rewrite length_app in Hlen. simpl in Hlen.
    exists (rev k ++ [c]), (S n). rewrite length_app. simpl length. split; [|split; [|split; [right; by exists (rev k), c|]]].
    + rewrite Hk, <-app_assoc. f_equal. symmetry. apply (replicate_cons_app n 0).
    + unfold poly_of. rewrite !length_app. simpl length. rewrite Hlen. f_equal; [|lia].
      rewrite Hk, <-app_assoc, <-replicate_add. do 2 f_equal. unfold POLY_CAP in *. lia.
    + lia.
Qed.

Lemma sanitize_horner l k n x : l ++ [0] = k ++ replicate n 0 → Forall byte l → byte x →
  Forall byte k ∧ horner k x = horner l x.
Proof.
  intros Heq Hl Hx. assert (Forall byte (k ++ replicate n 0)) as Hf
    by (rewrite <-Heq; apply Forall_app; split; [done|by constructor]).
  apply Forall_app in Hf as [Hk Hz]. split; [done|].
  rewrite <-(horner_zeros_end k n x), <-Heq by done. by apply (horner_zeros_end l 1).
Qed.

(** ** Division *)

Lemma deg_of l : l ≠ [] → deg (poly_of l) = Some (length l - 1)%nat.
Proof. intros Hl. unfold deg. simpl. destruct l; [done|]. rewrite decide_True; [done|simpl; lia]. Qed.

(** One turn: [a] is the leading coefficient of the dividend, [c] the new one of the quotient. *)
Lemma div_turn (l bs : list Z) a lb c x :
  Forall byte l → Forall byte bs → byte a → byte lb → byte c → byte x →
  mul c lb = a → (length bs ≤ length l)%nat →
  let n := (length l - length bs)%nat in
  let padded := replicate n 0 ++ map (mul c) (bs ++ [lb]) in
  let l' := zip_with add l (replicate n 0 ++ map (mul c) bs) in
  zip_with add (l ++ [a]) padded = l' ++ [0] ∧ Forall byte l' ∧ length l' = length l ∧
  horner (l ++ [a]) x = Z.lxor (mul (mul (gpow x n) c) (horner (bs ++ [lb]) x)) (horner l' x).
Proof.
  intros Hl Hbs Ha Hlb Hc Hx Hm Hle n padded l'.
  assert (length (replicate n 0 ++ map (mul c) bs) = length l) as Hlen
    by (rewrite length_app, length_replicate, length_map; lia).
  assert (Forall byte (replicate n 0)) as Hz by by apply Forall_replicate.
  assert (Forall byte (map (mul c) (bs ++ [lb]))) as Hmb.
  { apply Forall_map. eapply Forall_impl; [apply Forall_app; split; [exact Hbs|by constructor]|].
    intros y Hy. by apply mul_byte. }
  assert (Forall byte (replicate n 0 ++ map (mul c) bs)) as Hpb.
  { apply Forall_app. split; [done|]. rewrite map_app in Hmb. by apply Forall_app in Hmb as [? _]. }
  assert (zip_with add (l ++ [a]) padded = l' ++ [0]) as Hzip.
  { unfold padded. rewrite map_app, app_assoc. simpl. rewrite zip_with_app by done. simpl.
    unfold add at 2. by rewrite Hm, Z.lxor_nilpotent. }
  assert (Forall byte l') as Hl'.
  { unfold l'. apply Forall_zip_with_1 with (P := byte) (Q := byte) || idtac.
    clear -Hl Hpb. revert Hpb. generalize (replicate n 0 ++ map (mul c) bs). intros k Hk. revert k Hk.
    induction Hl as [|y l Hy Hl IH]; intros [|z k] Hk; simpl; [constructor..|].
    apply Forall_cons in Hk as [Hz Hk]. constructor; [by apply lxor_byte|by apply IH]. }
  split; [done|]. split; [done|]. split; [unfold l'; rewrite length_zip_with; lia|].
  assert (horner (zip_with add (l ++ [a]) padded) x =
    Z.lxor (horner (l ++ [a]) x) (mul (mul (gpow x n) c) (horner (bs ++ [lb]) x))) as He.
  { rewrite horner_xor; [|unfold padded; rewrite !length_app, length_replicate, length_map, length_app; simpl; lia|..|done].
    - unfold padded. rewrite (horner_app (replicate n 0)), horner_zeros, Z.lxor_0_l by done.
      rewrite length_replicate, horner_scale by (done || by (apply Forall_app; split; [|constructor])).
      rewrite mul_assoc; [done|bytes|done|]. apply horner_byte; [|done]. by apply Forall_app; split; [|constructor].
    - apply Forall_app. split; [done|by constructor].
    - by apply Forall_app. }
  rewrite Hzip, (horner_zeros_end l' 1) in He by done. rewrite He.
  rewrite (Z.lxor_comm (horner (l ++ [a]) x)), <-Z.lxor_assoc, Z.lxor_nilpotent. by rewrite Z.lxor_0_l.
Qed.

Lemma last_of {A} (l : list A) a d : List.last (l ++ [a]) d = a.
Proof. apply List.last_last. Qed.

Lemma div_loop_spec fuel l bs lb cs :
  (length l < fuel)%nat → (length l ≤ 255)%nat → (length cs + length l ≤ 256 + length bs)%nat →
  Forall byte l → Forall byte (bs ++ [lb]) → lb ≠ 0 →
  ∃ qs r, div_loop None fuel (poly_of (bs ++ [lb])) (poly_of cs) (poly_of l) =
    Done (Some (poly_of (cs ++ qs), poly_of r)) ∧
  Forall byte qs ∧ Forall byte r ∧ length qs = (length l - length bs)%nat ∧
  (length r ≤ Nat.min (length l) (length bs))%nat ∧
  ∀ x, byte x → horner l x = Z.lxor (mul (horner (rev qs) x) (horner (bs ++ [lb]) x)) (horner r x).
Proof.
  revert l cs. induction fuel as [|fuel IH]; intros l cs Hf Hl Hq Hlb Hbb Hz; [lia|].
  pose proof Hbb as [Hbs Hlbb]%Forall_app. apply Forall_cons in Hlbb as [Hlbb _].
  simpl. rewrite (deg_of (bs ++ [lb])) by (by destruct bs).
  destruct (decide (length l ≤ length bs)%nat) as [Hle|Hgt].
  - assert (deg_le (Some (length (bs ++ [lb]) - 1)%nat) (deg (poly_of l)) = false) as ->.
    { unfold deg. simpl. case_decide; [|done]. apply Nat.leb_gt. rewrite length_app. simpl. lia. }
    exists [], l. rewrite app_nil_r. split; [done|]. split; [constructor|]. split; [done|]. simpl length.
    split; [lia|]. split; [lia|]. intros x Hx. simpl. rewrite mul_0_l; [by rewrite Z.lxor_0_l|by apply horner_byte].
  - assert (∃ l0 a, l = l0 ++ [a]) as (l0 & a & ->).
    { destruct (exists_last (l := l)) as (l0 & a & ->); [by intros ->; simpl in Hgt; lia|]. by exists l0, a. }
    apply Forall_app in Hlb as [Hl0 [Ha _]%Forall_cons]. rewrite length_app in Hl, Hq, Hf, Hgt. simpl in Hl, Hq, Hf, Hgt.
    rewrite (deg_of (l0 ++ [a])) by (by destruct l0). rewrite !as_slice_of, last_of, last_snoc. simpl unwrap.
    assert (deg_le (Some (length (bs ++ [lb]) - 1)%nat) (Some (length (l0 ++ [a]) - 1)%nat) = true) as ->
      by (simpl; apply Nat.leb_le; rewrite !length_app; simpl; lia).
    simpl obind. destruct (div_spec a lb Ha Hlbb Hz) as (c & -> & Hc & Hm).
    rewrite poly_push_of by (unfold POLY_CAP; lia). rewrite poly_scale_of.
    rewrite deg_of by (by rewrite map_app; destruct (map (mul c) bs)).
    rewrite as_slice_of, length_map, !length_app. simpl length.
    rewrite (proj2 (assert_done _ tt)) by lia. simpl obind.
    replace (length l0 + 1 - 1 - (length bs + 1 - 1))%nat with (length l0 - length bs)%nat by lia.
    rewrite from_iter_of by (rewrite length_app, length_replicate, length_map, length_app; unfold POLY_CAP; simpl; lia).
    simpl obind. pose proof (λ x Hx, div_turn l0 bs a lb c x Hl0 Hbs Ha Hlbb Hc Hx Hm ltac:(lia)) as Hturn.
    cbv zeta in Hturn. set (padded := replicate _ 0 ++ map (mul c) (bs ++ [lb])) in *.
    set (l' := zip_with add l0 _) in *. destruct (Hturn 0 ltac:(done)) as (Hzip & Hl' & Hlen' & _).
    rewrite poly_add_of by (unfold padded; rewrite !length_app, length_replicate, length_map, length_app; simpl; lia).
    rewrite Hzip, poly_pop_of by (unfold POLY_CAP; lia). simpl obind.
    destruct (IH l' (cs ++ [c])) as (qs & r & Hd & Hqs & Hr & Hlq & Hlr & Hx);
      [lia|lia|rewrite length_app; simpl; lia|done|done|done|].
    exists (c :: qs), r. rewrite Hd, <-app_assoc. split; [done|]. split; [by constructor|]. split; [done|].
    simpl length. split; [lia|]. split; [lia|]. intros x Hxb.
    destruct (Hturn x Hxb) as (_ & _ & _ & Hh). rewrite Hh, (Hx x Hxb), <-Z.lxor_assoc. f_equal. simpl rev.
    assert (Forall byte (rev qs)) as Hrq by by apply Forall_rev.
    rewrite (horner_app (rev qs) [c]) by (done || by constructor). rewrite length_rev, Hlq, Hlen'.
    assert (horner [c] x = c) as -> by (simpl; by rewrite mul_0_r, Z.lxor_0_r).
    rewrite mul_lxor_l by bytes. apply Z.lxor_comm.
Qed.

(** ** Properties *)

(** Dividing polynomials terminates and is a division: for every dividend and every divisor
    with at most 255 coefficients, on a target without vector instructions, the code panics
    nowhere; it gives nothing exactly when all coefficients of the divisor are zero, and
    otherwise a quotient and a remainder that add up to the dividend at every point, the
    remainder being zero or of smaller degree than the divisor. *)
Theorem poly_div_correct (l k : list Z) :
  (length l ≤ 255)%nat → (length k ≤ 255)%nat → Forall byte l → Forall byte k →
  if forallb (λ x, x =? 0) k then poly_div None (poly_of l) (poly_of k) = Done None
  else ∃ q r, poly_div None (poly_of l) (poly_of k) = Done (Some (q, r)) ∧
    (∀ x, byte x → poly_eval (poly_of l) x =
      add (mul (poly_eval q x) (poly_eval (poly_of k) x)) (poly_eval r x)) ∧
    (as_slice r = [0] ∨ (poly_len r < poly_len (sanitize (poly_of k)))%nat).
Proof.
  intros Hl Hk Hlb Hkb. unfold poly_div.
  destruct (sanitize_of l ltac:(unfold POLY_CAP; lia)) as (l' & n & El & -> & Hl' & Hll).
  destruct (sanitize_of k ltac:(unfold POLY_CAP; lia)) as (k' & m & Ek & -> & Hk' & Hkl).
  assert (∃ a l0, l' = a :: l0) as (a & l0 & Hcons).
  { destruct l' as [|a l0]; [|by eauto]. destruct Hl' as [[=]|(k0 & c & Hnil & _)]. by destruct k0. }
  assert (Forall byte l' ∧ Forall byte k') as [Hl'b Hk'b].
  { split; [apply (sanitize_horner l l' n 0 El Hlb)|apply (sanitize_horner k k' m 0 Ek Hkb)]; done. }
  rewrite !as_slice_of. destruct Hk' as [->|(bs & lb & -> & Hz)].
  - assert (forallb (λ x, x =? 0) k = true) as ->.
    { apply forallb_forall. intros y Hy. apply Z.eqb_eq.
      assert (In y (k ++ [0])) as Hin by (apply in_or_app; by left). rewrite Ek in Hin.
      destruct Hin as [<-|Hin]; [done|]. apply list_elem_of_In in Hin. by apply elem_of_replicate_inv in Hin. }
    subst l'. cbn [div_loop]. rewrite !deg_of, !as_slice_of by done. reflexivity.
  - assert (forallb (λ x, x =? 0) k = false) as ->.
    { apply not_true_iff_false. rewrite forallb_forall. intros Hall. apply Hz, Z.eqb_eq.
      assert (In lb (k ++ [0])) as Hin by (rewrite Ek; apply in_or_app; left; apply in_or_app; right; by left).
      apply in_app_or in Hin as [Hin|[<-|[]]]; [by apply Hall|done]. }
    destruct (div_loop_spec (S (length l')) l' bs lb [0]) as (qs & r & Hd & Hqs & Hr & Hlq & Hlr & Hx);
      [lia|lia|simpl; lia|done|done|done|].
    assert (∃ b0 bs', bs ++ [lb] = b0 :: bs') as (b0 & bs' & Hb) by (destruct bs; by eauto).
    change (poly_zero 1) with (poly_of [0]). simpl (poly_len (poly_of l')). rewrite Hd.
    rewrite Hb, Hcons. cbn [obind]. rewrite <-Hb.
    rewrite as_slice_of, with_slice_of by by rewrite length_rev. simpl rev.
    destruct (sanitize_of (rev qs ++ [0])) as (q' & n' & Eq & -> & _ & _);
      [rewrite length_app, length_rev; unfold POLY_CAP; simpl; lia|].
    destruct (sanitize_of r ltac:(unfold POLY_CAP; lia)) as (r' & m' & Er & -> & Hr' & Hrl).
    exists (poly_of q'), (poly_of r'). split; [done|].
    assert (Forall byte (rev qs ++ [0])) as Hrq by (apply Forall_app; split; [by apply Forall_rev|by constructor]).
    split.
    + intros x Hxb. destruct (sanitize_horner _ q' n' x Eq Hrq Hxb) as [Hq'b Hq'].
      destruct (sanitize_horner r r' m' x Er Hr Hxb) as [Hr'b Hr'x].
      destruct (sanitize_horner l l' n x El Hlb Hxb) as [_ Hlx].
      destruct (sanitize_horner k _ m x Ek Hkb Hxb) as [_ Hkx].
      rewrite !poly_eval_horner by (rewrite ?as_slice_of; done). rewrite !as_slice_of.
      rewrite <-Hlx, <-Hkx, Hq', Hr'x, (horner_zeros_end (rev qs) 1) by (done || by apply Forall_rev). by apply Hx.
    + rewrite as_slice_of. simpl poly_len. rewrite length_app. simpl length.
      destruct r as [|r0 r]; [left|right; simpl in *; lia].
      destruct Hr' as [?|(r1 & c & -> & Hc)]; [done|]. exfalso. simpl in Er.
      destruct r1 as [|? [|? ?]]; simplify_eq/=.
Qed.

Lemma poly_div_correct_witness :
  let l := [6; 5; 1] in let k := [3; 1] in
  ∃ q r, poly_div None (poly_of l) (poly_of k) = Done (Some (q, r)) ∧
    poly_eval (poly_of l) 9 = add (mul (poly_eval q 9) (poly_eval (poly_of k) 9)) (poly_eval r 9).
Proof.
  intros l k. assert (Forall byte l ∧ Forall byte k) as [Hl Hk] by (split; repeat constructor; done).
  destruct (poly_div_correct l k ltac:(simpl; lia) ltac:(simpl; lia) Hl Hk) as (q & r & Hd & Hx & _).
  exists q, r. split; [exact Hd|]. apply Hx. done.
Defined.
