(* ===== verification/Fec.v ===== *)
(** The erasure code, [utils/berkleamp-welch/src/fec.rs]: its matrices, encoding, and rebuilding
    of lost data from any [required] shares; and the [Codec] of [core/storage-spec/src/lib.rs]. *)

From S2P Require Import Prelude Galois Matrix.

Record Fec := { required : nat; total : nat; enc_matrix : Matrix; vand_matrix : Matrix }.

Definition zeros (n : nat) : list Z := replicate n 0.

(* one row of the product of the Vandermonde matrix and the inverse of its top *)
Definition enc_row (k : nat) (vdm : Matrix) (r : nat) : list Z :=
  map (λ col, fold_left (λ acc i, Z.lxor acc (mul (entry vdm r i) (entry vdm i col))) (range 0 k) 0) (range 0 k).

Fixpoint vand_powers (n : nat) (g a : Z) : list Z :=
  match n with O => [] | S n => a :: vand_powers n g (mul g a) end.
Fixpoint vand_rows (rows total : nat) (first g : Z) : Matrix :=
  match rows with
  | O => []
  | S rows => (first :: vand_powers (total - 1) g 1) :: vand_rows rows total 0 (mul 2 g)
  end.

Definition fec_new (required total : nat) : outcome Fec :=
  try! _ := assert_that (0 < required)%nat in
  try! _ := assert_that (required < total)%nat in
  try! _ := assert_that (required ≤ 256)%nat in
  try! _ := assert_that (total ≤ 256)%nat in
  try! vdm := create_inverted_vdm required (replicate total (zeros required)) in
  let vdm := imap (λ r l, if decide (r < required)%nat then l
    else map (λ c, index EXP_TABLE (Z.of_nat (r * c mod 255))) (range 0 required)) vdm in
  let unit_row r := <[r:=1]> (zeros required) in
  let enc := map (λ r, if decide (r < required)%nat then unit_row r else enc_row required vdm r) (range 0 total) in
  Done {| required := required; total := total; enc_matrix := enc;
          vand_matrix := vand_rows required total 1 1 |}.

Inductive EncodeError := InvalidParityLength | InvalidDataLength.
Inductive RebuildError := NotEnoughShares | NotEqualLengths | InvertMatrix.

Fixpoint chunks_loop (fuel n : nat) (l : list Z) : list (list Z) :=
  match fuel with
  | O => []
  | S fuel => if (n <=? length l)%nat then take n l :: chunks_loop fuel n (drop n l) else []
  end.
(* chunks of zero bytes panic *)
Definition chunks_exact (n : nat) (l : list Z) : outcome (list (list Z)) :=
  try! _ := assert_that (n ≠ 0)%nat in Done (chunks_loop (length l) n l).

Section target.
Context (t : Target).

(* for every coefficient and block: buf += coefficient * block *)
Fixpoint add_blocks (coefs : list Z) (blocks : list (list Z)) (buf : list Z) : outcome (list Z) :=
  match coefs, blocks with
  | c :: coefs, b :: blocks => try! buf := slice_xor t c b buf in add_blocks coefs blocks buf
  | _, _ => Done buf
  end.

Fixpoint encode_loop (rows : Matrix) (data parity : list (list Z)) : outcome (list (list Z)) :=
  match rows, parity with
  | r :: rows, par :: parity =>
      try! par := add_blocks r data par in
      try! parity := encode_loop rows data parity in
      Done (par :: parity)
  | _, _ => Done parity
  end.

(** The parity is overwritten; what was in it does not matter. *)
Definition encode (f : Fec) (data parity : list Z) : outcome (result (list Z) EncodeError) :=
  let block_size := (length data / required f)%nat in
  if decide (block_size * required f ≠ length data)%nat then Done (Err InvalidDataLength)
  else if decide (block_size * (total f - required f) ≠ length parity)%nat then Done (Err InvalidParityLength)
  else
    try! pars := chunks_exact block_size (zeros (length parity)) in
    try! dats := chunks_exact block_size data in
    try! pars := encode_loop (drop (required f) (enc_matrix f)) dats pars in
    Done (Ok (concat pars)).

(** ** Rebuilding *)

(** [number] is a [usize]; rebuilding marks the shares it fills with numbers from the top. *)
Record Share := { number : Z; share_data : list Z }.
Definition USIZE_MAX : Z := 2 ^ 64 - 1.

Definition key_le (key : Share → Z) : relation Share := λ a b, key a ≤ key b.
#[global] Instance key_le_dec key : RelDecision (key_le key).
Proof. unfold key_le. intros a b. apply _. Defined.
(* an unstable sort differs on equal keys only *)
Definition sort_by_key (key : Share → Z) (l : list Share) : list Share :=
  merge_sort (key_le key) l.

(* take_while(..).count() *)
Fixpoint count_while {A} (q : A → bool) (l : list A) : nat :=
  match l with x :: l => if q x then S (count_while q l) else 0%nat | [] => 0%nat end.

Definition zrange (a b : Z) : list Z := map (λ i, a + Z.of_nat i) (seq 0 (Z.to_nat (b - a))).
Fixpoint gaps (l : list Share) : list Z :=
  match l with
  | a :: (b :: _) as l => zrange (number a + 1) (number b) ++ gaps l
  | _ => []
  end.

(* the data shares that are missing, in the order the parity shares stand in for them *)
Definition missing_ids (required : nat) (data : list Share) : list Z :=
  let first_id := match data with [] => 0 | s :: _ => number s end in
  let last_id := match last data with None => 0 | Some s => number s + 1 end in
  gaps data ++ zrange last_id (Z.of_nat required) ++ zrange 0 first_id.

Fixpoint stand_in (f : Fec) (ids : list Z) (parity : list Share) (m_dec : Matrix) :
    outcome (list Share * Matrix) :=
  match ids, parity with
  | i :: ids, p :: parity =>
      try! src := unwrap (if decide (0 ≤ number p) then enc_matrix f !! Z.to_nat (number p) else None) in
      try! r := stand_in f ids parity (<[Z.to_nat i:=src]> m_dec) in
      Done ({| number := USIZE_MAX - i; share_data := share_data p |} :: r.1, r.2)
  | _, _ => Done (parity, m_dec)
  end.

Fixpoint fill_loop (f : Fec) (block_size i : nat) (m_dec : Matrix) (shares : list Share) :
    outcome (list Share) :=
  match m_dec with
  | [] => Done shares
  | r :: m_dec =>
      try! s := unwrap (shares !! i) in
      if decide (number s < Z.of_nat (required f)) then fill_loop f block_size (S i) m_dec shares
      else
        try! buf := add_blocks r (map share_data shares) (zeros block_size) in
        fill_loop f block_size (S i) m_dec (<[i:={| number := number s; share_data := buf |}]> shares)
  end.

Definition rebuild (f : Fec) (shares : list Share) : outcome (result (list Share) RebuildError) :=
  let shares := sort_by_key number shares in
  if decide (length shares < required f)%nat then Done (Err NotEnoughShares)
  else
    let shares := take (required f) shares in
    try! s0 := unwrap (shares !! 0%nat) in
    let block_size := length (share_data s0) in
    if decide (Exists (λ s, length (share_data s) ≠ block_size) shares) then Done (Err NotEqualLengths)
    else
      let m_dec := map (λ i, <[i:=1]> (zeros (required f))) (range 0 (required f)) in
      let data_count := count_while (λ s, number s <? Z.of_nat (required f)) shares in
      let data := take data_count shares in
      try! r := stand_in f (missing_ids (required f) data) (drop data_count shares) m_dec in
      let shares := sort_by_key
        (λ s, if decide (Z.of_nat (required f) < number s) then USIZE_MAX - number s else number s)
        (data ++ r.1) in
      try! inv := invert_matrix t (required f) r.2 in
      match inv with
      | None => Done (Err InvertMatrix)
      | Some m_dec =>
          try! shares := fill_loop f block_size 0 m_dec shares in
          Done (Ok shares)
      end.
End target.

(** ** storage-spec *)

Definition PIECE_SIZE : nat := 1024.
Definition DATA_PIECES (debug : bool) : nat := if debug then 4 else 16.
Definition PARITY_PIECES (debug : bool) : nat := if debug then 4 else 16.

(* Codec::default *)
Definition codec_default (debug : bool) : outcome Fec := fec_new (DATA_PIECES debug) (PARITY_PIECES debug).

(** ** Linear combinations of blocks *)

Definition dot (coefs v : list Z) : Z := xor_sum (zip_with mul coefs v).
(** Byte [x] of every block. *)
Definition column (x : nat) (blocks : list (list Z)) : list Z := map (λ b, nth x b 0) blocks.

Lemma dot_byte c v : byte (dot c v).
Proof.
  apply xor_sum_byte. revert v. induction c as [|a c IH]; intros [|b v]; simpl; constructor; [apply mul_any_byte|apply IH].
Qed.

Lemma dot_app c1 c2 v1 v2 :
  length c1 = length v1 → dot (c1 ++ c2) (v1 ++ v2) = Z.lxor (dot c1 v1) (dot c2 v2).
Proof.
  intros Hl. unfold dot. rewrite zip_with_app by done. unfold xor_sum. rewrite foldr_app.
  generalize (foldr Z.lxor 0 (zip_with mul c2 v2)). intros z. generalize (zip_with mul c1 v1). intros l.
  induction l as [|a l IH]; simpl; [by rewrite Z.lxor_0_l|]. by rewrite IH, Z.lxor_assoc.
Qed.

Lemma dot_cons a c b v : dot (a :: c) (b :: v) = Z.lxor (mul a b) (dot c v).
Proof. done. Qed.

Lemma dot_scale i c v : byte i → Forall byte c → Forall byte v → dot (map (mul i) c) v = mul i (dot c v).
Proof.
  intros Hi Hc. revert v. induction Hc as [|a c Ha _ IH]; intros v Hv; [by rewrite mul_0_r|].
  destruct Hv as [|b v Hb Hv]; [unfold dot; simpl; by rewrite mul_0_r|]. simpl map. rewrite !dot_cons, IH by done.
  rewrite mul_lxor_r by (apply mul_any_byte || apply dot_byte || done). by rewrite mul_assoc.
Qed.

Lemma column_byte x blocks : Forall (Forall byte) blocks → Forall byte (column x blocks).
Proof.
  intros Hb. apply Forall_map. eapply Forall_impl; [exact Hb|]. intros b Hbb. simpl.
  rewrite nth_lookup. destruct (b !! x) as [y|] eqn:Hy; [|done]. rewrite Forall_forall in Hbb.
  eapply Hbb, list_elem_of_lookup_2, Hy.
Qed.

Lemma nth_zip_with (f : Z → Z → Z) l k x : length l = length k → (x < length l)%nat →
  nth x (zip_with f l k) 0 = f (nth x l 0) (nth x k 0).
Proof.
  revert k x. induction l as [|a l IH]; intros [|b k] [|x] Hl Hx; simplify_eq/=; [lia|lia|done|]. apply IH; lia.
Qed.

Lemma add_blocks_spec t coefs blocks buf n :
  target_ok t → Forall byte coefs → Forall (Forall byte) blocks → Forall (λ b, length b = n) blocks → length buf = n →
  ∃ out, add_blocks t coefs blocks buf = Done out ∧ length out = n ∧
    ∀ x, (x < n)%nat → nth x out 0 = Z.lxor (nth x buf 0) (dot coefs (column x blocks)).
Proof.
  intros Ht Hc Hb Hl. revert coefs buf Hc. induction blocks as [|b blocks IH]; intros coefs buf Hc Hn.
  { exists buf. destruct coefs; (split; [done|]; split; [done|]; intros x _; by rewrite Z.lxor_0_r). }
  apply Forall_cons in Hb as [Hbb Hb]. apply Forall_cons in Hl as [Hbl Hl].
  destruct Hc as [|c coefs Hc Hcs].
  { exists buf. split; [done|]. split; [done|]. intros x _. unfold dot. simpl. by rewrite Z.lxor_0_r. }
  simpl. rewrite slice_xor_low by done. unfold mul_slice_xor_low, assert_that.
  rewrite decide_True by congruence. simpl.
  destruct (IH Hb Hl coefs (zip_with (λ i o, Z.lxor o (index (mul_row c) i)) b buf) Hcs) as (out & Ho & Hlen & Hx).
  { rewrite length_zip_with. lia. }
  exists out. split; [done|]. split; [done|]. intros x Hxn. rewrite Hx by done.
  rewrite nth_zip_with by lia. rewrite dot_cons, Z.lxor_assoc. done.
Qed.

(** ** The encoder *)

Record fec_ok (f : Fec) : Prop := {
  ok_required : (0 < required f < total f)%nat;
  ok_total : (total f ≤ 256)%nat;
  ok_enc : is_matrix (total f) (required f) (enc_matrix f);
  ok_bytes : Forall (Forall byte) (enc_matrix f);
  ok_unit j : (j < required f)%nat → enc_matrix f !! j = Some (unit_row (required f) j);
}.

Lemma zeros_byte n : Forall byte (zeros n).
Proof. by apply Forall_replicate. Qed.

Lemma unit_row_byte k j : Forall byte (unit_row k j).
Proof. apply Forall_insert; [apply zeros_byte|done]. Qed.

Lemma enc_row_byte k vdm r : Forall byte (enc_row k vdm r).
Proof.
  apply Forall_map, Forall_forall. intros col _. simpl.
  assert (∀ l a, byte a → byte (fold_left (λ acc i, Z.lxor acc (mul (entry vdm r i) (entry vdm i col))) l a)) as Hf; [|by apply Hf].
  induction l as [|i l IH]; intros a Ha; simpl; [done|]. apply IH, lxor_byte; [done|apply mul_any_byte].
Qed.

Lemma fec_new_spec k n :
  if decide (0 < k < n ∧ n ≤ 256)%nat then ∃ f, fec_new k n = Done f ∧ fec_ok f ∧ required f = k ∧ total f = n
  else fec_new k n = Panic.
Proof.
  unfold fec_new, assert_that. destruct (decide (0 < k < n ∧ n ≤ 256)%nat) as [[[H0 Hk] Hn]|Hbad].
  - rewrite !decide_True by lia. simpl.
    assert (∃ vdm, create_inverted_vdm k (replicate n (zeros k)) = Done vdm) as [vdm ->].
    { unfold create_inverted_vdm, assert_that. rewrite length_replicate, decide_True by lia. simpl.
      destruct (decide (k = 1)%nat); by eexists. }
    simpl. eexists. split; [done|]. split; [|done]. unfold range. rewrite !Nat.sub_0_r.
    constructor; simpl; [lia|done|..].
    + split; [by rewrite length_map, length_seq|]. apply Forall_map, Forall_forall. intros r _. simpl.
      case_decide; [apply (length_unit_row k)|]. unfold enc_row, range. by rewrite length_map, length_seq, Nat.sub_0_r.
    + apply Forall_map, Forall_forall. intros r _. simpl. case_decide; [apply unit_row_byte|apply enc_row_byte].
    + intros j Hj. rewrite list_lookup_fmap, lookup_seq_lt by lia. simpl. by rewrite decide_True.
  - repeat (destruct (decide _); simpl; [|done]). lia.
Qed.

Lemma chunks_loop_spec fuel n m l :
  (0 < n)%nat → length l = (m * n)%nat → (length l ≤ fuel)%nat →
  chunks_loop fuel n l = map (λ j, take n (drop (j * n) l)) (seq 0 m).
Proof.
  intros Hn. revert m l. induction fuel as [|fuel IH]; intros m l Hl Hf.
  { destruct m; [done|]. simpl in Hl. lia. }
  destruct m as [|m]; simpl in Hl |- *.
  { destruct l; [|done]. simpl. by rewrite (proj2 (Nat.leb_gt n 0)) by lia. }
  rewrite (proj2 (Nat.leb_le n (length l))) by lia. rewrite drop_0. f_equal.
  rewrite (IH m) by (rewrite length_drop; lia). rewrite <-seq_shift, map_map. apply map_ext. intros j.
  by rewrite drop_drop.
Qed.

Lemma encode_loop_spec t rows data pars n :
  target_ok t → Forall (Forall byte) rows → Forall (Forall byte) data → Forall (λ b, length b = n) data →
  length rows = length pars → Forall (λ b, b = zeros n) pars →
  ∃ out, encode_loop t rows data pars = Done out ∧ Forall2 (λ r o, length o = n ∧
    ∀ x, (x < n)%nat → nth x o 0 = dot r (column x data)) rows out.
Proof.
  intros Ht Hr Hd Hn. revert pars. induction Hr as [|r rows Hrb _ IH]; intros [|p pars] Hl Hp; simplify_eq/=; [by exists []|].
  apply Forall_cons in Hp as [-> Hp].
  destruct (add_blocks_spec t r data (zeros n) n) as (o & -> & Ho & Hx); [done..|apply length_replicate|]. simpl.
  destruct (IH pars ltac:(lia) Hp) as (out & -> & Hout). simpl. exists (o :: out). split; [done|]. constructor; [|done].
  split; [done|]. intros x Hxn. rewrite Hx, nth_lookup by done. unfold zeros. rewrite lookup_replicate_2 by done. simpl.
  by rewrite Z.lxor_0_l.
Qed.

Lemma concat_nth (ls : list (list Z)) n i x d :
  Forall (λ b, length b = n) ls → (x < n)%nat → (i < length ls)%nat →
  nth (i * n + x) (concat ls) d = nth x (nth i ls []) d.
Proof.
  intros Hl Hx. revert i. induction Hl as [|b ls Hb _ IH]; intros i Hi; simpl in *; [lia|].
  destruct i as [|i]; simpl; [by rewrite app_nth1 by lia|]. rewrite app_nth2 by lia. rewrite Hb.
  rewrite <-IH by lia. f_equal. lia.
Qed.

(** ** Rebuilding one lost block *)

(** Block [j] of the data as a share. *)
Definition data_share (ds : list (list Z)) (j : nat) : Share :=
  {| number := Z.of_nat j; share_data := nth j ds [] |}.

Lemma sort_by_key_unique key l l' :
  StronglySorted (λ a b, key a < key b) l' → l ≡ₚ l' → sort_by_key key l = l'.
Proof.
  intros Hs Hp. unfold sort_by_key.
  assert (Transitive (key_le key)) by (intros a b c; unfold key_le; lia).
  assert (Total (key_le key)) by (intros a b; unfold key_le; lia).
  apply (StronglySorted_unique_strong (key_le key)); [|by apply StronglySorted_merge_sort| |].
  - intros a b Ha Hb Hab Hba. rewrite merge_sort_Permutation, Hp in Ha.
    unfold key_le in *. assert (key a = key b) as Hk by lia. clear -Hs Ha Hb Hk. induction Hs as [|x l Hl IH Hx]; [by apply elem_of_nil in Ha|].
    rewrite Forall_forall in Hx.
    apply elem_of_cons in Ha as [->|Ha], Hb as [->|Hb]; [done| | |by apply IH].
    + specialize (Hx _ Hb). simpl in Hx. lia.
    + specialize (Hx _ Ha). simpl in Hx. lia.
  - clear -Hs. induction Hs as [|x l Hl IH Hx]; constructor; [done|].
    eapply Forall_impl; [exact Hx|]. intros y. unfold key_le. simpl. lia.
  - by rewrite merge_sort_Permutation.
Qed.

Lemma sorted_seq ds s n : StronglySorted (λ a b, number a < number b) (map (data_share ds) (seq s n)).
Proof.
  revert s. induction n as [|n IH]; intros s; simpl; constructor; [apply IH|].
  apply Forall_map, Forall_forall. intros j Hj%elem_of_seq. simpl. lia.
Qed.

Lemma sorted_shares_app (R : relation Share) l k :
  StronglySorted R l → StronglySorted R k → Forall (λ x, Forall (R x) k) l → StronglySorted R (l ++ k).
Proof.
  intros Hl Hk Hlk. induction Hl as [|x l Hl IH Hx]; [done|]. apply Forall_cons in Hlk as [Hxk Hlk]. simpl.
  constructor; [by apply IH|]. by apply Forall_app.
Qed.

Lemma gaps_seq ds s n : gaps (map (data_share ds) (seq s n)) = [].
Proof.
  revert s. induction n as [|[|n] IH]; intros s; [done..|].
  change (gaps (map (data_share ds) (seq s (S (S n))))) with
    (zrange (Z.of_nat s + 1) (Z.of_nat (S s)) ++ gaps (map (data_share ds) (seq (S s) (S n)))).
  rewrite IH. unfold zrange. by replace (Z.of_nat (S s) - (Z.of_nat s + 1)) with 0 by lia.
Qed.

Lemma gaps_app ds s n t m :
  (0 < n)%nat → (0 < m)%nat →
  gaps (map (data_share ds) (seq s n) ++ map (data_share ds) (seq t m)) = zrange (Z.of_nat (s + n)) (Z.of_nat t).
Proof.
  revert s. induction n as [|[|n] IH]; intros s Hn Hm; [lia| |].
  - destruct m as [|m]; [lia|]. change (gaps (map (data_share ds) (seq s 1) ++ map (data_share ds) (seq t (S m)))) with
      (zrange (Z.of_nat s + 1) (Z.of_nat t) ++ gaps (map (data_share ds) (seq t (S m)))).
    rewrite gaps_seq, app_nil_r. f_equal. lia.
  - change (gaps (map (data_share ds) (seq s (S (S n))) ++ map (data_share ds) (seq t m))) with
      (zrange (Z.of_nat s + 1) (Z.of_nat (S s)) ++ gaps (map (data_share ds) (seq (S s) (S n)) ++ map (data_share ds) (seq t m))).
    rewrite IH by lia. unfold zrange at 1. replace (Z.of_nat (S s) - (Z.of_nat s + 1)) with 0 by lia. simpl. f_equal. lia.
Qed.

Lemma zrange_one a : zrange a (a + 1) = [a].
Proof. unfold zrange. replace (a + 1 - a) with 1 by lia. simpl. f_equal. lia. Qed.
Lemma zrange_none a b : b ≤ a → zrange a b = [].
Proof. intros Hb. unfold zrange. by replace (Z.to_nat (b - a)) with 0%nat by lia. Qed.

(** All blocks but [r] are there: [r] is what is missing. *)
Lemma missing_one ds k r : (r < k)%nat →
  missing_ids k (map (data_share ds) (seq 0 r) ++ map (data_share ds) (seq (S r) (k - S r))) = [Z.of_nat r].
Proof.
  intros Hr. unfold missing_ids.
  assert (∀ s n, last (map (data_share ds) (seq s (S n))) = Some (data_share ds (s + n))) as Hlast.
  { intros s n. rewrite seq_S, map_app. simpl. apply last_snoc. }
  assert (∀ r l, match map (data_share ds) (seq 0 (S r)) ++ l with [] => 0 | s :: _ => number s end = 0) as Hfirst by done.
  destruct r as [|r], (k - _)%nat as [|m] eqn:Hm; rewrite ?Hfirst.
  - simpl. replace (Z.of_nat k) with (0 + 1) by lia. by rewrite zrange_one.
  - rewrite app_nil_l, gaps_seq, Hlast. simpl number. rewrite zrange_none by lia. simpl. apply (zrange_one 0).
  - rewrite app_nil_r, gaps_seq, Hlast. simpl number. rewrite (zrange_none 0 0) by lia. rewrite app_nil_r. simpl app.
    replace (Z.of_nat k) with (Z.of_nat r + 1 + 1) by lia. rewrite zrange_one. f_equal. lia.
  - rewrite gaps_app, last_app, Hlast by lia. simpl number.
    rewrite (zrange_none (Z.of_nat _ + 1)), (zrange_none 0 0) by lia. rewrite app_nil_r.
    rewrite Nat.add_0_l. replace (Z.of_nat (S (S r))) with (Z.of_nat (S r) + 1) by lia. apply zrange_one.
Qed.

Lemma count_while_all {A} (q : A → bool) l k :
  Forall (λ x, q x = true) l → match k with x :: _ => q x = false | [] => True end →
  count_while q (l ++ k) = length l.
Proof. intros Hl Hk. induction Hl as [|x l Hx _ IH]; simpl; [|by rewrite Hx, IH]. destruct k; [done|]. simpl. by rewrite Hk. Qed.

Lemma lxor_cancel a b c : Z.lxor a (Z.lxor (Z.lxor a (Z.lxor b c)) c) = b.
Proof.
  apply Z.bits_inj'. intros n Hn. rewrite !Z.lxor_spec.
  by destruct (Z.testbit a n), (Z.testbit b n), (Z.testbit c n).
Qed.

(** The pivot row divided by its pivot. *)
Lemma scale_pivot_spec va vr vb :
  Forall byte va → byte vr → Forall byte vb → vr ≠ 0 →
  ∃ inv, byte inv ∧ mul inv vr = 1 ∧
    scale_pivot None (length va) (va ++ vr :: vb) = Some (map (mul inv) va ++ inv :: map (mul inv) vb).
Proof.
  intros Ha Hr Hb Hz. unfold scale_pivot. rewrite nth_middle. destruct (decide (vr = 1)) as [->|Hne].
  - exists 1. split; [done|]. split; [by rewrite mul_1_l|]. do 2 f_equal; [|f_equal].
    + clear -Ha. induction Ha as [|a l Ha' _ IH]; [done|]. simpl. by rewrite mul_1_l, <-IH.
    + clear -Hb. induction Hb as [|a l Ha' _ IH]; [done|]. simpl. by rewrite mul_1_l, <-IH.
  - destruct (div_spec 1 vr) as (inv & -> & Hi & Hm); [done..|]. exists inv. split; [done|]. split; [done|].
    simpl. unfold mul_slice_in_place_low. rewrite insert_app_r_alt by lia. rewrite Nat.sub_diag. simpl.
    rewrite map_app. simpl. fold (mul inv 1). by rewrite mul_1_r.
Qed.

(** What the lost block is computed to be. *)
Lemma rebuilt_byte inv va vr vb ca d cb :
  byte inv → Forall byte va → byte vr → Forall byte vb → mul inv vr = 1 →
  Forall byte ca → byte d → Forall byte cb → length va = length ca →
  dot (map (mul inv) va ++ inv :: map (mul inv) vb) (ca ++ dot (va ++ vr :: vb) (ca ++ d :: cb) :: cb) = d.
Proof.
  intros Hi Hva Hvr Hvb Hm Hca Hd Hcb Hl. rewrite !dot_app by by rewrite ?length_map. rewrite !dot_cons, !dot_scale by done.
  rewrite <-!mul_lxor_r by (done || (repeat apply lxor_byte; apply dot_byte || apply mul_any_byte)).
  rewrite lxor_cancel, mul_assoc by done. by rewrite Hm, mul_1_l.
Qed.

Lemma fill_loop_skip f n rows i shares :
  (∀ j s, (i ≤ j < i + length rows)%nat → shares !! j = Some s → number s < Z.of_nat (required f)) →
  (i + length rows ≤ length shares)%nat → fill_loop None f n i rows shares = Done shares.
Proof.
  revert i. induction rows as [|r rows IH]; intros i Hs Hl; [done|]. simpl in Hl |- *.
  destruct (lookup_lt_is_Some_2 shares i) as [s Hsi]; [lia|]. rewrite Hsi. simpl.
  rewrite decide_True by (apply (Hs i); [simpl; lia|done]). apply IH; [intros j s' Hj; apply Hs; simpl; lia|lia].
Qed.

Lemma fill_loop_app f n rows rows' i shares :
  fill_loop None f n i (rows ++ rows') shares =
  try! s := fill_loop None f n i rows shares in fill_loop None f n (i + length rows) rows' s.
Proof.
  revert i shares. induction rows as [|r rows IH]; intros i shares; simpl; [by rewrite Nat.add_0_r|].
  destruct (shares !! i); simpl; [|done]. rewrite Nat.add_succ_r. case_decide; [apply IH|].
  destruct (add_blocks _ _ _ _); simpl; [apply IH|done].
Qed.

Section one_lost.
Context (f : Fec) (Hf : fec_ok f) (ds : list (list Z)) (n : nat).
Context (Hlen : length ds = required f) (Hn : Forall (λ b, length b = n) ds) (Hb : Forall (Forall byte) ds).
Context (r p : nat) (v pb : list Z).
Context (Hr : (r < required f)%nat) (Hv : enc_matrix f !! p = Some v) (Hvr : nth r v 0 ≠ 0).
Context (Hp : (required f ≤ p)%nat) (Hpl : length pb = n).
Context (Hpb : ∀ x, (x < n)%nat → nth x pb 0 = dot v (column x ds)).
Notation k := (required f).
Notation before := (map (data_share ds) (seq 0 r)).
Notation after := (map (data_share ds) (seq (S r) (k - S r))).
Notation parity := {| number := Z.of_nat p; share_data := pb |}.
Notation stand := {| number := USIZE_MAX - Z.of_nat r; share_data := pb |}.

Lemma one_lost_bounds : (p < total f)%nat ∧ (total f ≤ 256)%nat ∧ length v = k ∧ Forall byte v.
Proof.
  destruct Hf as [? Ht [Hm Hmk] Hby _]. pose proof (lookup_lt_Some _ _ _ Hv) as Hlt. rewrite Hm in Hlt.
  rewrite Forall_forall in Hmk, Hby. apply list_elem_of_lookup_2 in Hv. auto.
Qed.

Lemma one_lost_sorted shares : shares ≡ₚ before ++ after ++ [parity] →
  sort_by_key number shares = before ++ after ++ [parity].
Proof.
  intros Hs. apply sort_by_key_unique; [|done]. apply sorted_shares_app; [apply sorted_seq|apply sorted_shares_app|].
  - apply sorted_seq.
  - repeat constructor.
  - apply Forall_map, Forall_forall. intros j Hj%elem_of_seq. repeat constructor. simpl. lia.
  - apply Forall_map, Forall_forall. intros j Hj%elem_of_seq. apply Forall_app. split; [|repeat constructor; simpl; lia].
    apply Forall_map, Forall_forall. intros i Hi%elem_of_seq. simpl. lia.
Qed.

Lemma one_lost_resorted :
  sort_by_key (λ s, if decide (Z.of_nat k < number s) then USIZE_MAX - number s else number s)
    ((before ++ after) ++ [stand]) = before ++ stand :: after.
Proof.
  destruct one_lost_bounds as (? & ? & _). set (key := λ s, _).
  assert (key stand = Z.of_nat r) as Hks by (unfold key; simpl; rewrite decide_True by (unfold USIZE_MAX; lia); lia).
  assert (∀ j, (j < k)%nat → key (data_share ds j) = Z.of_nat j) as Hkd
    by (intros j Hj; unfold key; simpl; by rewrite decide_False by lia).
  assert (∀ s m, (s + m ≤ k)%nat → StronglySorted (λ a b, key a < key b) (map (data_share ds) (seq s m))) as Hseq.
  { intros s m. revert s. induction m as [|m IH]; intros s Hs; simpl; constructor; [apply IH; lia|].
    apply Forall_map, Forall_forall. intros j Hj%elem_of_seq. rewrite !Hkd by lia. lia. }
  apply sort_by_key_unique; [apply sorted_shares_app; [apply Hseq; lia|constructor; [apply Hseq; lia|]|]|].
  - apply Forall_map, Forall_forall. intros j Hj%elem_of_seq. rewrite Hks, Hkd by lia. lia.
  - apply Forall_map, Forall_forall. intros j Hj%elem_of_seq. rewrite (Hkd j) by lia. constructor; [lia|].
    apply Forall_map, Forall_forall. intros i Hi%elem_of_seq. rewrite Hkd by lia. lia.
  - rewrite <-app_assoc. by rewrite <-Permutation_cons_append.
Qed.

Lemma map_nth_seq (l : list (list Z)) s m :
  (s + m ≤ length l)%nat → map (λ j, nth j l []) (seq s m) = take m (drop s l).
Proof.
  revert s. induction m as [|m IH]; intros s Hs; [done|]. simpl. rewrite IH by lia.
  destruct (lookup_lt_is_Some_2 l s) as [b Hb']; [lia|]. rewrite (drop_S l b s) by done. simpl.
  by rewrite (nth_lookup_Some _ _ _ _ Hb').
Qed.

Lemma share_data_seq s m : (s + m ≤ k)%nat → map share_data (map (data_share ds) (seq s m)) = take m (drop s ds).
Proof. intros Hs. rewrite map_map. simpl. apply map_nth_seq. lia. Qed.

Lemma lost_block : ∃ d, ds = take r ds ++ d :: drop (S r) ds ∧ length d = n ∧ Forall byte d.
Proof.
  destruct (lookup_lt_is_Some_2 ds r) as [d Hd]; [lia|]. exists d. split; [by rewrite take_drop_middle|].
  rewrite !Forall_forall in *. split; [eapply Hn|apply Forall_forall, Hb]; by eapply list_elem_of_lookup_2.
Qed.

(** The share that stands in for the lost block is filled with that block. *)
Lemma fill_one w inv va vr vb d :
  v = va ++ vr :: vb → length va = r → w = map (mul inv) va ++ inv :: map (mul inv) vb →
  byte inv → mul inv vr = 1 → ds = take r ds ++ d :: drop (S r) ds → length d = n → Forall byte d →
  ∃ out, fill_loop None f n 0 (with_row k r w) (before ++ stand :: after) = Done out ∧ map share_data out = ds.
Proof.
  intros Ev Hva Ew Hi Hm Ed Hd Hdb. destruct one_lost_bounds as (? & ? & Hvl & Hvb).
  assert (length before = r) as Hlb by by rewrite length_map, length_seq.
  assert (length after = (k - S r)%nat) as Hla by by rewrite length_map, length_seq.
  assert (map share_data before = take r ds) as Hmb by (rewrite share_data_seq by lia; by rewrite drop_0).
  assert (map share_data after = drop (S r) ds) as Hma
    by (rewrite share_data_seq by lia; apply take_ge; rewrite length_drop; lia).
  assert (∀ j s, before !! j = Some s → number s < Z.of_nat k) as Hnb.
  { intros j s (i & -> & Hi')%list_lookup_fmap_Some. apply lookup_seq in Hi' as [-> ?]. simpl. lia. }
  assert (∀ j s, after !! j = Some s → number s < Z.of_nat k) as Hna.
  { intros j s (i & -> & Hi')%list_lookup_fmap_Some. apply lookup_seq in Hi' as [-> ?]. simpl. lia. }
  rewrite with_row_split, fill_loop_app by done. rewrite fill_loop_skip.
  2:{ intros j s Hj Hs. rewrite length_map, length_seq in Hj. rewrite lookup_app_l in Hs by lia. by apply (Hnb j). }
  2:{ rewrite length_app, length_map, length_seq. simpl. lia. }
  cbn [obind]. rewrite length_map, length_seq, Nat.add_0_l. cbn [fill_loop].
  rewrite list_lookup_middle by done. cbn [obind unwrap number].
  rewrite decide_False by (unfold USIZE_MAX; lia). rewrite map_app. cbn [map share_data]. rewrite Hmb, Hma.
  subst v. apply Forall_app in Hvb as [Hvab [Hvrb Hvbb]%Forall_cons].
  assert (Forall byte w) as Hwb.
  { subst w. apply Forall_app. split; [|constructor; [done|]]; apply Forall_map, Forall_forall; intros; apply mul_any_byte. }
  rewrite Ed in Hn, Hb. apply Forall_app in Hn as [Hn1 [_ Hn2]%Forall_cons]. apply Forall_app in Hb as [Hb1 [_ Hb2]%Forall_cons].
  assert (Forall byte pb) as Hpbb.
  { apply Forall_lookup_2. intros x y Hy. pose proof (lookup_lt_Some _ _ _ Hy) as Hx.
    rewrite <-(nth_lookup_Some _ _ 0 _ Hy), Hpb by lia. apply dot_byte. }
  destruct (add_blocks_spec None w (take r ds ++ pb :: drop (S r) ds) (zeros n) n) as (buf & -> & Hbl & Hbx);
    [done|done|by (apply Forall_app; split; [|constructor])|by (apply Forall_app; split; [|constructor])|apply length_replicate|].
  assert (buf = d) as ->.
  { apply (nth_ext _ _ 0 0); [lia|]. intros x Hx. rewrite Hbx by lia.
    assert (nth x (zeros n) 0 = 0) as -> by (rewrite nth_lookup; unfold zeros; by rewrite lookup_replicate_2 by lia).
    rewrite Z.lxor_0_l. unfold column. rewrite map_app. cbn [map]. rewrite Hpb by lia. subst w.
    assert (column x ds = map (λ b, nth x b 0) (take r ds) ++ nth x d 0 :: map (λ b, nth x b 0) (drop (S r) ds)) as ->
      by (rewrite Ed at 1; unfold column; by rewrite map_app).
    apply rebuilt_byte; try done; [apply (column_byte x), Hb1| |apply (column_byte x), Hb2|].
    - pose proof (column_byte x [d] ltac:(by constructor)) as Hc. by apply Forall_cons in Hc as [? _].
    - rewrite length_map, length_take. lia. }
  cbn [obind]. rewrite insert_app_r_alt by lia. rewrite Hlb, Nat.sub_diag. cbn [insert list_insert].
  rewrite fill_loop_skip.
  - eexists. split; [done|]. rewrite map_app. cbn [map share_data]. by rewrite Hmb, Hma, <-Ed.
  - intros j s Hj Hs. rewrite length_map, length_seq in Hj. rewrite lookup_app_r in Hs by lia. rewrite Hlb in Hs.
    replace (j - r)%nat with (S (j - S r)) in Hs by lia. simpl in Hs. by apply (Hna (j - S r)%nat).
  - rewrite length_app, length_map, length_seq. simpl. lia.
Qed.

Lemma one_lost_rebuild shares : shares ≡ₚ before ++ after ++ [parity] →
  ∃ out, rebuild None f shares = Done (Ok out) ∧ map share_data out = ds.
Proof.
  intros Hs. destruct one_lost_bounds as (? & ? & Hvl & Hvb). unfold rebuild. cbv zeta. rewrite (one_lost_sorted _ Hs).
  assert (length (before ++ after ++ [parity]) = k) as Hl
    by (rewrite !length_app, !length_map, !length_seq; simpl; lia).
  rewrite decide_False by (rewrite Hl; lia). rewrite take_ge by (rewrite Hl; lia).
  assert (Forall (λ s, length (share_data s) = n) (before ++ after ++ [parity])) as Hbl.
  { assert (∀ s m, (s + m ≤ k)%nat → Forall (λ s, length (share_data s) = n) (map (data_share ds) (seq s m))) as Hd.
    { intros s m Hsm. apply Forall_map, Forall_forall. intros j Hj%elem_of_seq. simpl.
      destruct (lookup_lt_is_Some_2 ds j) as [b Hb']; [lia|]. rewrite (nth_lookup_Some _ _ _ _ Hb').
      rewrite Forall_forall in Hn. eapply Hn, list_elem_of_lookup_2, Hb'. }
    apply Forall_app. split; [apply Hd; lia|]. apply Forall_app. split; [apply Hd; lia|]. by constructor. }
  destruct (lookup_lt_is_Some_2 (before ++ after ++ [parity]) 0) as [s0 Hs0]; [lia|]. rewrite Hs0. cbn [unwrap obind].
  assert (length (share_data s0) = n) as -> by (rewrite Forall_forall in Hbl; eapply Hbl, list_elem_of_lookup_2, Hs0).
  rewrite decide_False.
  2:{ rewrite Exists_exists. intros (s & Hin & Hne). rewrite Forall_forall in Hbl. auto. }
  rewrite app_assoc, count_while_all.
  2:{ apply Forall_app. split; apply Forall_map, Forall_forall; intros j Hj%elem_of_seq; apply Z.ltb_lt; simpl; lia. }
  2:{ apply Z.ltb_ge. simpl. lia. }
  rewrite take_app_length, drop_app_length, missing_one by done. cbn [stand_in number share_data].
  rewrite (decide_True (P := 0 ≤ Z.of_nat p)), !Nat2Z.id, Hv by lia. cbn [unwrap obind fst snd].
  rewrite one_lost_resorted. unfold range. rewrite Nat.sub_0_r.
  change (map (λ i, <[i:=1]> (zeros k)) (seq 0 k)) with (map (unit_row k) (seq 0 k)).
  change (<[r:=v]> (map (unit_row k) (seq 0 k))) with (with_row k r v).
  assert (∃ vr, v !! r = Some vr) as [vr Hvrl] by (apply lookup_lt_is_Some_2; lia).
  assert (nth r v 0 = vr) as Hnr by by apply nth_lookup_Some.
  assert (v = take r v ++ vr :: drop (S r) v) as Ev by by rewrite take_drop_middle.
  assert (length (take r v) = r) as Hvt by (rewrite length_take; lia).
  pose proof Hvb as Hvb'. rewrite Ev in Hvb'. apply Forall_app in Hvb' as [Hva [Hvrb Hvd]%Forall_cons].
  destruct (scale_pivot_spec (take r v) vr (drop (S r) v)) as (inv & Hi & Hm & Hsc); [done..|by rewrite <-Hnr|].
  rewrite Hvt, <-Ev in Hsc. set (w := map (mul inv) (take r v) ++ inv :: map (mul inv) (drop (S r) v)) in *.
  assert (Forall byte w) as Hwb.
  { apply Forall_app. split; [|constructor; [done|]]; apply Forall_map, Forall_forall; intros; apply mul_any_byte. }
  rewrite (invert_one_row k r Hr v w); [|done| |done..].
  2:{ unfold w. rewrite length_app. simpl. rewrite !length_map, length_take, length_drop. lia. }
  cbn [obind]. destruct lost_block as (d & Ed & Hd & Hdb).
  destruct (fill_one w inv (take r v) vr (drop (S r) v) d) as (out & -> & Ho); try done.
  cbn [obind]. by exists out.
Qed.
End one_lost.

(** Encoding whole blocks. *)
Lemma encode_blocks (t : Target) (f : Fec) (data parity : list Z) :
  target_ok t → fec_ok f → Forall byte data → data ≠ [] →
  let b := (length data / required f)%nat in
  (b * required f = length data)%nat → (b * (total f - required f) = length parity)%nat →
  ∃ out, encode t f data parity = Done (Ok out) ∧ length out = length parity ∧
    ∀ i x, (i < total f - required f)%nat → (x < b)%nat →
      nth (i * b + x) out 0 =
        dot (row (enc_matrix f) (required f + i)) (map (λ j, nth (j * b + x) data 0) (seq 0 (required f))).
Proof.
  intros Ht Hf Hd Hne b Hbd' Hbp'. pose proof Hf as [Hk _ [Hm Hmk] Hby _]. unfold encode. fold b.
  rewrite !decide_False by lia.
  unfold chunks_exact, assert_that.
  assert (0 < b)%nat as Hb0 by (destruct b; [destruct data; [done|simpl in Hbd'; lia]|lia]).
  rewrite decide_True by lia. cbn [obind].
  rewrite (chunks_loop_spec _ b (total f - required f) (zeros (length parity))) by (unfold zeros; rewrite ?length_replicate; nia).
  rewrite (chunks_loop_spec _ b (required f) data) by nia. set (blocks := map _ (seq 0 (required f))).
  set (pars := map _ (seq 0 (total f - required f))).
  assert (Forall (λ l, length l = b) blocks) as Hlb.
  { apply Forall_map, Forall_forall. intros j Hj%elem_of_seq. rewrite length_take, length_drop. nia. }
  destruct (encode_loop_spec t (drop (required f) (enc_matrix f)) blocks pars b) as (out & Ho & Hout); try done.
  - by apply Forall_drop.
  - apply Forall_map, Forall_forall. intros j _. by apply Forall_take, Forall_drop.
  - unfold pars. rewrite length_drop, length_map, length_seq. lia.
  - apply Forall_map, Forall_forall. intros j Hj%elem_of_seq. unfold zeros. rewrite drop_replicate, take_replicate. f_equal. nia.
  - rewrite Ho. cbn [obind]. eexists. split; [done|].
    assert (length out = (total f - required f)%nat) as Hol
      by (rewrite <-(Forall2_length _ _ _ Hout), length_drop; lia).
    assert (Forall (λ l, length l = b) out) as Hob.
    { apply Forall_lookup_2. intros i o Hi. destruct (Forall2_lookup_r _ _ _ _ _ Hout Hi) as (r & _ & ? & _). done. }
    split.
    + rewrite <-Hbp', <-Hol. clear -Hob. induction Hob as [|o l Ho _ IH]; simpl; [lia|]. rewrite length_app. lia.
    + intros i x Hi Hx. rewrite concat_nth by (done || lia).
      destruct (lookup_lt_is_Some_2 out i) as [o Hoi]; [lia|]. rewrite (nth_lookup_Some _ _ _ _ Hoi).
      destruct (Forall2_lookup_r _ _ _ _ _ Hout Hoi) as (r & Hri & _ & Hrx). rewrite Hrx by done.
      rewrite lookup_drop in Hri. unfold row. rewrite (nth_lookup_Some _ _ _ _ Hri). f_equal.
      unfold column, blocks. rewrite map_map. apply map_ext. intros j.
      rewrite !nth_lookup, lookup_take_lt, lookup_drop by done. done.
Qed.

(** ** Properties *)

(** C40: Building the code succeeds exactly for [0 < required < total <= 256]; the matrix then has
    [total] rows of [required] bytes and starts with the identity, so the data itself is the
    first part of a codeword. The codec of the storage crate asks for as many blocks in total
    as there are data blocks, and so panics in every build. *)
Theorem fec_new_systematic (k n : nat) (debug : bool) :
  (if decide (0 < k < n ∧ n ≤ 256)%nat then ∃ f, fec_new k n = Done f ∧ fec_ok f ∧ required f = k ∧ total f = n
   else fec_new k n = Panic) ∧
  codec_default debug = Panic.
Proof.
  split; [apply fec_new_spec|]. unfold codec_default. pose proof (fec_new_spec (DATA_PIECES debug) (PARITY_PIECES debug)) as Hs.
  rewrite decide_False in Hs; [done|]. destruct debug; simpl; lia.
Qed.

(** Encoding refuses data that is not a whole number of blocks and parity of another size;
    on empty data it panics; otherwise byte [x] of parity block [i] is the sum over the data
    blocks of their byte [x] times the matrix entry, whatever vector instructions are used and
    whatever the parity held before. *)
Theorem encode_correct (t : Target) (f : Fec) (data parity : list Z) :
  target_ok t → fec_ok f → Forall byte data →
  let b := (length data / required f)%nat in
  if decide (b * required f ≠ length data)%nat then encode t f data parity = Done (Err InvalidDataLength)
  else if decide (b * (total f - required f) ≠ length parity)%nat then encode t f data parity = Done (Err InvalidParityLength)
  else if decide (data = []) then encode t f data parity = Panic
  else ∃ out, encode t f data parity = Done (Ok out) ∧ length out = length parity ∧
    ∀ i x, (i < total f - required f)%nat → (x < b)%nat →
      nth (i * b + x) out 0 =
        dot (row (enc_matrix f) (required f + i)) (map (λ j, nth (j * b + x) data 0) (seq 0 (required f))).
Proof.
  intros Ht Hf Hd b. pose proof Hf as [Hk _ _ _ _].
  destruct (decide (b * required f ≠ length data)%nat) as [Hbd|Hbd]; [|destruct (decide (b * _ ≠ length parity)%nat) as [Hbp|Hbp]].
  - unfold encode. fold b. by rewrite decide_True.
  - unfold encode. fold b. by rewrite decide_False, decide_True by lia.
  - destruct (decide (data = [])) as [->|Hne]; [|apply encode_blocks; (done || fold b; lia)].
    unfold encode. fold b. rewrite !decide_False by lia. assert (b = 0)%nat as -> by (simpl in Hbd; destruct b; lia). done.
Qed.

(** With one data block lost the code gives the data back: take any code, any data of whole
    blocks, its other data blocks and one parity block whose coefficient for the lost block is
    not zero, in any order; on a target without vector instructions rebuilding succeeds and
    returns all data blocks in their order. *)
Theorem rebuild_one_lost (f : Fec) (ds : list (list Z)) (n r p : nat) (v pb : list Z) (shares : list Share) :
  fec_ok f → length ds = required f → Forall (λ b, length b = n) ds → Forall (Forall byte) ds →
  (r < required f ≤ p)%nat → enc_matrix f !! p = Some v → nth r v 0 ≠ 0 →
  length pb = n → (∀ x, (x < n)%nat → nth x pb 0 = dot v (map (λ b, nth x b 0) ds)) →
  shares ≡ₚ map (data_share ds) (seq 0 r) ++ map (data_share ds) (seq (S r) (required f - S r)) ++
    [{| number := Z.of_nat p; share_data := pb |}] →
  ∃ out, rebuild None f shares = Done (Ok out) ∧ map share_data out = ds.
Proof. intros Hf Hl Hn Hb [Hr Hp] Hv Hz Hpl Hpb Hs. by apply (one_lost_rebuild f Hf ds n Hl Hn Hb r p v pb). Qed.

Definition demo_fec : Fec :=
  match fec_new 2 4 with
  | Done f => f
  | Panic => {| required := 0; total := 0; enc_matrix := []; vand_matrix := [] |}
  end.
Definition demo_data : list Z := [1; 2; 3; 4; 5; 6; 7; 8].
Definition demo_share (n : Z) (l : list Z) : Share := {| number := n; share_data := l |}.

Lemma demo_fec_new : fec_new 2 4 = Done demo_fec.
Proof. reflexivity. Qed.

Lemma demo_fec_ok : fec_ok demo_fec.
Proof.
  pose proof (fec_new_spec 2 4) as Hs. rewrite decide_True in Hs by lia. destruct Hs as (f & Hf & Hok & _).
  rewrite demo_fec_new in Hf. by injection Hf as <-.
Qed.

(** With two data blocks lost the code returns success and wrong data: the first block it
    fills overwrites the parity the second one is computed from. *)
Theorem rebuild_two_lost_wrong :
  ∃ out, encode None demo_fec [1; 5] [0; 0] = Done (Ok [9; 17]) ∧
  rebuild None demo_fec [demo_share 2 [9]; demo_share 3 [17]] = Done (Ok out) ∧
  map share_data out = [[1]; [9]].
Proof.
  exists [demo_share USIZE_MAX [1]; demo_share (USIZE_MAX - 1) [9]].
  split; [vm_compute; reflexivity|]. split; vm_compute; reflexivity.
Qed.

Lemma encode_correct_witness :
  ∃ out, encode (Some 32%nat) demo_fec demo_data (zeros 8) = Done (Ok out) ∧ length out = 8%nat.
Proof.
  assert (Forall byte demo_data) as Hd by (repeat constructor; done).
  pose proof (encode_correct (Some 32%nat) demo_fec demo_data (zeros 8) ltac:(simpl; lia) demo_fec_ok Hd) as He.
  cbv zeta in He. change (length demo_data / required demo_fec)%nat with 4%nat in He.
  change (required demo_fec) with 2%nat in He. change (total demo_fec) with 4%nat in He.
  rewrite decide_False in He by (simpl; lia). rewrite decide_False in He by (simpl; lia).
  rewrite decide_False in He by done. destruct He as (out & H1 & H2 & _). exists out. split; [exact H1|exact H2].
Defined.

Lemma rebuild_one_lost_witness :
  ∃ out, rebuild None demo_fec [demo_share 2 [9; 10; 11; 28]; demo_share 1 [5; 6; 7; 8]] = Done (Ok out) ∧
    map share_data out = [[1; 2; 3; 4]; [5; 6; 7; 8]].
Proof.
  apply (rebuild_one_lost demo_fec [[1; 2; 3; 4]; [5; 6; 7; 8]] 4 0 2 [3; 2] [9; 10; 11; 28]).
  - exact demo_fec_ok.
  - reflexivity.
  - repeat constructor.
  - repeat constructor; done.
  - change (required demo_fec) with 2%nat. lia.
  - reflexivity.
  - done.
  - reflexivity.
  - intros [|[|[|[|x]]]] Hx; [reflexivity..|lia].
  - change (required demo_fec) with 2%nat. simpl. apply Permutation_swap.
Defined.
