(* ===== verification/Elimination.v ===== *)
(** Gaussian elimination as [utils/berkleamp-welch/src/math.rs] does it ([standardize_matrix] and
    [invert_matrix_with] of Matrix.v): row operations, what they preserve, and the shape they
    leave. Used by the correction of damaged shares in FecDecode.v. *)

From S2P Require Import Prelude Galois Matrix Poly Fec.

(** ** Row operations *)

Definition axpy (fac : Z) (a b : list Z) : list Z := zip_with (λ i o, Z.lxor o (mul fac i)) a b.

Inductive row_op (r : nat) (mx : Matrix) : Matrix → Prop :=
  | op_swap a b : (a < b < r)%nat → row_op r mx (<[a:=row mx b]> (<[b:=row mx a]> mx))
  | op_scale i c : (i < r)%nat → byte c → c ≠ 0 → row_op r mx (<[i:=map (mul c) (row mx i)]> mx)
  | op_add a b fac : a ≠ b → (a < r)%nat → (b < r)%nat → byte fac →
      row_op r mx (<[b:=axpy fac (row mx a) (row mx b)]> mx).
Notation row_ops r := (rtc (row_op r)).

(** A matrix of bytes. *)
Definition mat (r c : nat) (mx : Matrix) : Prop := is_matrix r c mx ∧ Forall (Forall byte) mx.
(** [w] is orthogonal to every row. *)
Definition kernel (r : nat) (mx : Matrix) (w : list Z) : Prop := ∀ j, (j < r)%nat → dot (row mx j) w = 0.
(** A property of rows that linear combinations keep. *)
Definition linear (c : nat) (P : list Z → Prop) : Prop :=
  (∀ f l, byte f → length l = c → Forall byte l → P l → P (map (mul f) l)) ∧
  (∀ f a b, byte f → length a = c → length b = c → Forall byte a → Forall byte b → P a → P b → P (axpy f a b)).

Lemma row_insert (mx : Matrix) b l j : (b < length mx)%nat → row (<[b:=l]> mx) j = if decide (j = b) then l else row mx j.
Proof.
  intros Hb. unfold row. rewrite !nth_lookup. case_decide as Hd.
  - subst. by rewrite list_lookup_insert_eq.
  - by rewrite list_lookup_insert_ne.
Qed.
Lemma row_lookup (mx : Matrix) j : (j < length mx)%nat → mx !! j = Some (row mx j).
Proof.
  intros Hj. destruct (lookup_lt_is_Some_2 mx j Hj) as [l Hl]. unfold row. by rewrite (nth_lookup_Some _ _ _ _ Hl).
Qed.
Lemma mat_row r c mx j : mat r c mx → (j < r)%nat → length (row mx j) = c ∧ Forall byte (row mx j).
Proof.
  intros [[Hr Hc] Hb] Hj. assert (row mx j ∈ mx) as Hin by (eapply list_elem_of_lookup_2, row_lookup; lia).
  rewrite Forall_forall in Hc, Hb. auto.
Qed.
Lemma mat_insert r c mx b l : mat r c mx → length l = c → Forall byte l → mat r c (<[b:=l]> mx).
Proof.
  intros [[Hr Hc] Hb] Hl Hlb. split; [split|]; [by rewrite length_insert|by apply Forall_insert..].
Qed.
Lemma mul_map_byte c l : Forall byte (map (mul c) l).
Proof. apply Forall_map, Forall_forall. intros x _. apply mul_any_byte. Qed.
Lemma axpy_rows_length f a b : length a = length b → length (axpy f a b) = length b.
Proof. intros Hl. unfold axpy. rewrite length_zip_with. lia. Qed.
Lemma axpy_bytes f a b : Forall byte b → Forall byte (axpy f a b).
Proof.
  intros Hb. unfold axpy. revert a. induction Hb as [|y b Hy _ IH]; intros [|x a]; simpl; constructor; [|apply IH].
  apply lxor_byte; [done|apply mul_any_byte].
Qed.
Lemma nth_axpy f a b l : length a = length b → byte f →
  nth l (axpy f a b) 0 = Z.lxor (nth l b 0) (mul f (nth l a 0)).
Proof.
  intros Hl Hf. unfold axpy. revert b l Hl. induction a as [|x a IH]; intros [|y b] [|l] Hl; simplify_eq/=; auto.
  1,2: by rewrite mul_0_r by done.
Qed.
Lemma nth_scale c l i : byte c → nth i (map (mul c) l) 0 = mul c (nth i l 0).
Proof. intros Hc. revert i. induction l as [|x l IH]; intros [|i]; simpl; auto; by rewrite mul_0_r. Qed.

(* equal up to the order of a sum *)
Ltac xor_solve := apply Z.bits_inj'; intros ? _; rewrite ?Z.lxor_spec, ?Z.bits_0;
  repeat match goal with |- context [Z.testbit ?a ?n] => destruct (Z.testbit a n) end; reflexivity.

Lemma dot_axpy f a b w : byte f → length a = length b → Forall byte a → Forall byte b → Forall byte w →
  dot (axpy f a b) w = Z.lxor (dot b w) (mul f (dot a w)).
Proof.
  intros Hf Hl Ha. revert b w Hl. induction Ha as [|x a Hx Ha IH]; intros [|y b] w Hl Hb Hw; simplify_eq/=.
  { by rewrite mul_0_r by done. }
  apply Forall_cons in Hb as [Hy Hb]. destruct Hw as [|z w Hz Hw]; [unfold dot; simpl; by rewrite mul_0_r|].
  change (axpy f (x :: a) (y :: b)) with (Z.lxor y (mul f x) :: axpy f a b). rewrite !dot_cons, IH by done.
  rewrite mul_lxor_l by (done || apply mul_any_byte). rewrite mul_lxor_r by (done || apply mul_any_byte || apply dot_byte).
  rewrite mul_assoc by done. xor_solve.
Qed.
Lemma dot_map_scale c l w : byte c → Forall byte l → Forall byte w → dot (map (mul c) l) w = mul c (dot l w).
Proof. apply dot_scale. Qed.

Section ops.
Context (r c : nat).
Implicit Types (mx : Matrix) (w : list Z).

Lemma row_op_mat mx mx' : mat r c mx → row_op r mx mx' → mat r c mx'.
Proof.
  intros Hm [a b Hab|i f Hi Hf Hz|a b f Hne Ha Hb Hf].
  - destruct (mat_row _ _ _ a Hm), (mat_row _ _ _ b Hm); [lia..|]. by do 2 (apply mat_insert; [|done..]).
  - destruct (mat_row _ _ _ i Hm); [done|]. apply mat_insert; [done|by rewrite length_map|apply mul_map_byte].
  - destruct (mat_row _ _ _ a Hm), (mat_row _ _ _ b Hm); [done..|].
    apply mat_insert; [done|rewrite axpy_rows_length; congruence|by apply axpy_bytes].
Qed.

(* the rows after an operation *)
Lemma row_op_linear P mx mx' : linear c P → mat r c mx → row_op r mx mx' →
  (∀ j, (j < r)%nat → P (row mx j)) → ∀ j, (j < r)%nat → P (row mx' j).
Proof.
  intros [Hs Ha] Hm Ho HP j Hj. pose proof Hm as [[Hr _] _].
  destruct Ho as [a b Hab|i f Hi Hf Hz|a b f Hne Hai Hb Hf]; rewrite !row_insert by (rewrite ?length_insert; lia).
  - repeat case_decide; apply HP; lia.
  - case_decide; [|by apply HP]. destruct (mat_row _ _ _ i Hm); [done|]. by apply Hs; auto.
  - case_decide; [|by apply HP]. destruct (mat_row _ _ _ a Hm), (mat_row _ _ _ b Hm); [done..|]. by apply Ha; auto.
Qed.

(* what is orthogonal afterwards was so before *)
Lemma row_op_kernel_back mx mx' w : mat r c mx → Forall byte w → row_op r mx mx' → kernel r mx' w → kernel r mx w.
Proof.
  intros Hm Hw Ho Hk. pose proof Hm as [[Hr _] _]. intros j Hj.
  destruct Ho as [a b Hab|i f Hi Hf Hz|a b f Hne Hai Hb Hf].
  - destruct (decide (j = a)) as [->|Hja]; [pose proof (Hk b ltac:(lia)) as Hkj|destruct (decide (j = b)) as [->|Hjb];
      [pose proof (Hk a ltac:(lia)) as Hkj|pose proof (Hk j Hj) as Hkj]];
      rewrite !row_insert in Hkj by (rewrite ?length_insert; lia); by repeat (case_decide; try lia).
  - pose proof (Hk j Hj) as Hkj. rewrite row_insert in Hkj by lia. case_decide as Hd; [|done]. subst i.
    destruct (mat_row _ _ _ j Hm) as [_ Hb]; [done|]. rewrite dot_map_scale in Hkj by done.
    apply dec_stable. intros Hne. by apply (mul_nonzero f (dot (row mx j) w)) in Hkj; [|done|apply dot_byte|done|].
  - pose proof (Hk j Hj) as Hkj. pose proof (Hk a Hai) as Hka. rewrite row_insert in Hkj, Hka by lia.
    rewrite decide_False in Hka by done. case_decide as Hd; [|done]. subst j.
    destruct (mat_row _ _ _ a Hm), (mat_row _ _ _ b Hm); [done..|].
    rewrite dot_axpy, Hka, mul_0_r, Z.lxor_0_r in Hkj by (done || congruence). done.
Qed.

Lemma row_ops_mat mx mx' : mat r c mx → row_ops r mx mx' → mat r c mx'.
Proof. intros Hm Ho. induction Ho; [done|]. eauto using row_op_mat. Qed.
Lemma row_ops_linear P mx mx' : linear c P → mat r c mx → row_ops r mx mx' →
  (∀ j, (j < r)%nat → P (row mx j)) → ∀ j, (j < r)%nat → P (row mx' j).
Proof.
  intros HP Hm Ho. induction Ho as [|x y z Hxy _ IH]; [done|]. intros Hx.
  apply IH; [by eapply row_op_mat|by eapply row_op_linear].
Qed.
Lemma row_ops_kernel_back mx mx' w : mat r c mx → Forall byte w → row_ops r mx mx' → kernel r mx' w → kernel r mx w.
Proof. intros Hm Hw Ho. induction Ho; [done|]. intros ?. eauto using row_op_mat, row_op_kernel_back. Qed.
Lemma linear_orthogonal w : Forall byte w → linear c (λ l, dot l w = 0).
Proof.
  intros Hw. split; intros.
  - rewrite dot_map_scale by done. by rewrite H2, mul_0_r.
  - rewrite dot_axpy by (done || congruence). by rewrite H4, H5, mul_0_r by done.
Qed.
Lemma row_ops_kernel mx mx' w : mat r c mx → Forall byte w → row_ops r mx mx' → kernel r mx w → kernel r mx' w.
Proof. intros Hm Hw Ho. exact (row_ops_linear _ mx mx' (linear_orthogonal w Hw) Hm Ho). Qed.
End ops.

(** ** Sums of products *)

Lemma dot_comm a b : Forall byte a → Forall byte b → dot a b = dot b a.
Proof.
  intros Ha. revert b. induction Ha as [|x a Hx _ IH]; intros b Hb; [by destruct b|].
  destruct Hb as [|y b Hy Hb]; [done|]. by rewrite !dot_cons, IH, mul_comm.
Qed.
Lemma dot_axpy_r f a b l : byte f → length a = length b → Forall byte a → Forall byte b → Forall byte l →
  dot l (axpy f a b) = Z.lxor (dot l b) (mul f (dot l a)).
Proof.
  intros Hf Hl Ha Hb Hlb. rewrite dot_comm, dot_axpy by (done || by apply axpy_bytes). by rewrite (dot_comm b), (dot_comm a).
Qed.
Lemma nth_byte l i : Forall byte l → byte (nth i l 0).
Proof.
  intros Hl. rewrite nth_lookup. destruct (l !! i) as [x|] eqn:Hx; [|done]. rewrite Forall_forall in Hl.
  eapply Hl, list_elem_of_lookup_2, Hx.
Qed.
(* a sum with at most one term *)
Lemma dot_only i a w : length a = length w → Forall byte a → Forall byte w →
  (∀ l, l ≠ i → nth l a 0 = 0 ∨ nth l w 0 = 0) → dot a w = mul (nth i a 0) (nth i w 0).
Proof.
  intros Hl Ha. revert i w Hl. induction Ha as [|x a Hx Ha IH]; intros i w Hl Hw Hz.
  { destruct w; [|done]. simpl. by destruct i. }
  destruct Hw as [|y w Hy Hw]; [done|]. simpl in Hl. rewrite dot_cons. destruct i as [|i].
  - rewrite (IH (length a)); [|lia|done|].
    + rewrite (nth_overflow a) by lia. rewrite mul_0_l by by apply nth_byte. simpl. by rewrite Z.lxor_0_r.
    + intros l Hne. exact (Hz (S l) ltac:(done)).
  - rewrite (IH i); [|lia|done|intros l Hne; apply (Hz (S l)); congruence].
    destruct (Hz 0%nat ltac:(done)) as [H0|H0]; simpl in H0; rewrite H0.
    + rewrite mul_0_l by done. by rewrite Z.lxor_0_l.
    + rewrite mul_0_r by done. by rewrite Z.lxor_0_l.
Qed.
Lemma dot_none a w : length a = length w → Forall byte a → Forall byte w →
  (∀ l, nth l a 0 = 0 ∨ nth l w 0 = 0) → dot a w = 0.
Proof.
  intros Hl Ha Hw Hz. rewrite (dot_only (length a)) by auto. rewrite (nth_overflow a) by lia.
  by rewrite mul_0_l by by apply nth_byte.
Qed.
Lemma dot_unit l k n : length l = k → Forall byte l → (n < k)%nat → dot l (unit_row k n) = nth n l 0.
Proof.
  intros Hl Hb Hn. rewrite (dot_only n); [|by rewrite length_unit_row|done|apply unit_row_byte|].
  - rewrite nth_unit_row, decide_True by done. apply mul_1_r. by apply nth_byte.
  - intros j Hj. right. by rewrite nth_unit_row, decide_False.
Qed.

(** ** The steps of elimination *)

Section steps.
Context (r c : nat).
Implicit Types (mx : Matrix) (w : list Z).

Lemma entry_byte mx j l : mat r c mx → (j < r)%nat → byte (entry mx j l).
Proof. intros Hm Hj. by apply nth_byte, (mat_row r c mx). Qed.

Lemma add_mul_rows_done mx a b fac : mat r c mx → a ≠ b → (a < r)%nat → (b < r)%nat →
  matrix_add_mul_rows None a b fac mx = Done (<[b:=axpy fac (row mx a) (row mx b)]> mx).
Proof.
  intros Hm Hne Ha Hb. pose proof Hm as [[Hr _] _]. unfold matrix_add_mul_rows, assert_that.
  rewrite decide_True by (split_and!; [done|lia|lia]). cbn [obind slice_xor]. unfold mul_slice_xor_low, assert_that.
  destruct (mat_row _ _ _ a Hm), (mat_row _ _ _ b Hm); [done..|]. rewrite decide_True by congruence. done.
Qed.

(* a row is used to clear others *)
Lemma clear_rows i js mx : mat r c mx → (i < r)%nat → NoDup js → Forall (λ j, (j < r)%nat ∧ j ≠ i) js →
  ∃ mx', for_each js (λ j mx, matrix_add_mul_rows None i j (entry mx j i) mx) mx = Done mx' ∧ rtc (row_op r) mx mx' ∧
    ∀ j, (j < r)%nat → row mx' j = if decide (j ∈ js) then axpy (entry mx j i) (row mx i) (row mx j) else row mx j.
Proof.
  intros Hm Hi Hnd. revert mx Hm. induction Hnd as [|j js Hnin _ IH]; intros mx Hm Hjs.
  { exists mx. split; [done|]. split; [done|]. intros j _. by rewrite decide_False by apply not_elem_of_nil. }
  apply Forall_cons in Hjs as [[Hj Hne] Hjs]. cbn [for_each]. rewrite add_mul_rows_done by done. cbn [obind].
  pose proof Hm as [[Hr _] _].
  assert (row_op r mx (<[j:=axpy (entry mx j i) (row mx i) (row mx j)]> mx)) as Ho
    by (apply op_add; [done..|by apply entry_byte]).
  destruct (IH _ (row_op_mat r c _ _ Hm Ho) Hjs) as (mx' & -> & Hops & Hrow). exists mx'. split; [done|].
  split; [by eapply rtc_l|]. intros l Hl. rewrite Hrow by done. unfold entry. rewrite !row_insert by lia.
  rewrite (decide_False (P := i = j)) by done. destruct (decide (l = j)) as [->|Hlj].
  - rewrite decide_False, decide_True by (done || by left). done.
  - case_decide as Hin; [rewrite decide_True by by right|rewrite decide_False by (intros [?|?]%elem_of_cons; done)]; done.
Qed.

(** The first [i] columns are those of an upper triangular matrix with a unit diagonal. *)
Definition upper (i : nat) mx : Prop :=
  (∀ l, (l < i)%nat → entry mx l l = 1) ∧ (∀ l j, (l < i)%nat → (l < j < r)%nat → entry mx j l = 0).
(** The first [c0] columns are independent. *)
Definition independent (c0 : nat) mx : Prop := ∀ w, length w = c → Forall byte w →
  (∀ l, (c0 ≤ l)%nat → nth l w 0 = 0) → kernel r mx w → ∀ l, nth l w 0 = 0.
(** Column [i] is a combination of the first [c0]. *)
Definition dependent (c0 i : nat) mx : Prop := ∃ w, length w = c ∧ Forall byte w ∧ nth i w 0 = 1 ∧
  (∀ l, (c0 ≤ l)%nat → l ≠ i → nth l w 0 = 0) ∧ kernel r mx w.

Lemma independent_ops c0 mx mx' : mat r c mx → rtc (row_op r) mx mx' → independent c0 mx → independent c0 mx'.
Proof. intros Hm Ho Hi w Hl Hw Hz Hk. apply Hi; try done. by eapply row_ops_kernel_back. Qed.
Lemma dependent_ops c0 i mx mx' : mat r c mx → rtc (row_op r) mx mx' → dependent c0 i mx → dependent c0 i mx'.
Proof. intros Hm Ho (w & ? & ? & ? & ? & Hk). exists w. split_and!; try done. by eapply row_ops_kernel. Qed.

(* back substitution: with no pivot in column [i] there is a vector that ends in it *)
Lemma no_pivot_kernel i mx : mat r c mx → (i < r)%nat → (i < c)%nat → upper i mx →
  (∀ j, (i ≤ j < r)%nat → entry mx j i = 0) →
  ∃ w, length w = c ∧ Forall byte w ∧ nth i w 0 = 1 ∧ (∀ l, (i < l)%nat → nth l w 0 = 0) ∧ kernel r mx w.
Proof.
  intros Hm Hi Hic [Hd Hz] Hp.
  assert (∀ n, (n ≤ i)%nat → ∃ w, length w = c ∧ Forall byte w ∧ nth i w 0 = 1 ∧ (∀ l, (i < l)%nat → nth l w 0 = 0) ∧
    ∀ j, (i - n ≤ j < r)%nat → dot (row mx j) w = 0) as H.
  { induction n as [|n IH]; intros Hn.
    - exists (unit_row c i). split_and!; [apply length_unit_row|apply unit_row_byte|by rewrite nth_unit_row, decide_True| |].
      + intros l Hl. by rewrite nth_unit_row, decide_False by lia.
      + intros j Hj. destruct (mat_row _ _ _ j Hm); [lia|]. rewrite dot_unit by done. apply Hp. lia.
    - destruct IH as (w & Hlw & Hw & Hwi & Hwz & Hk); [lia|]. set (m := (i - S n)%nat) in *.
      set (d := dot (row mx m) w). exists (axpy d (unit_row c m) w).
      assert (length (unit_row c m) = length w) as Hlen by by rewrite length_unit_row.
      assert (byte d) as Hbd by apply dot_byte.
      split_and!; [by rewrite axpy_rows_length|by apply axpy_bytes|..].
      + rewrite nth_axpy, nth_unit_row, decide_False, mul_0_r, Z.lxor_0_r by (done || lia). done.
      + intros l Hl. rewrite nth_axpy, nth_unit_row, decide_False, mul_0_r, Z.lxor_0_r by (done || lia). by apply Hwz.
      + intros j Hj. destruct (mat_row _ _ _ j Hm); [lia|].
        rewrite dot_axpy_r, dot_unit by (done || apply unit_row_byte || lia).
        destruct (decide (j = m)) as [->|Hjm].
        * change (nth m (row mx m) 0) with (entry mx m m). rewrite Hd, mul_1_r by (done || lia).
          fold d. apply Z.lxor_nilpotent.
        * change (nth m (row mx j) 0) with (entry mx j m). rewrite Hz, mul_0_r, Z.lxor_0_r by (done || lia). apply Hk. lia. }
  destruct (H i ltac:(lia)) as (w & ? & ? & ? & ? & Hk). exists w. split_and!; try done.
  intros j Hj. apply Hk. lia.
Qed.
End steps.

(** ** Elimination *)

(* the bodies of the two loops of [standardize_matrix] *)
Definition forward_body (r i : nat) (mx : Matrix) : outcome Matrix :=
  match find_row mx i r with
  | None => Done mx
  | Some p_row =>
      let p_val := entry mx p_row i in
      try! mx := (if decide (p_row ≠ i) then matrix_swap_rows i p_row mx else Done mx) in
      try! inv := unwrap (div 1 p_val) in
      let mx := <[i:=slice_in_place None inv (row mx i)]> mx in
      for_each (range (i + 1) r) (λ j mx, matrix_add_mul_rows None i j (entry mx j i) mx) mx
  end.
Definition backward_body (i : nat) (mx : Matrix) : outcome Matrix :=
  for_each (rev (range 0 i)) (λ j mx, matrix_add_mul_rows None i j (entry mx j i) mx) mx.
Lemma standardize_bodies r c mx : is_matrix r c mx →
  standardize_matrix None r c mx = try! mx := for_each (range 0 r) (forward_body r) mx in for_each (rev (range 0 r)) backward_body mx.
Proof. intros Hm. unfold standardize_matrix, assert_that. by rewrite decide_True. Qed.

Lemma range_elem a b i : i ∈ range a b ↔ (a ≤ i < b)%nat.
Proof. unfold range. rewrite elem_of_seq. lia. Qed.
Lemma range_nodup a b : NoDup (range a b).
Proof. apply NoDup_seq. Qed.
Lemma rev_nodup (l : list nat) : NoDup l → NoDup (rev l).
Proof. intros H. by apply NoDup_ListNoDup, NoDup_rev, NoDup_ListNoDup. Qed.
Lemma elem_rev (x : nat) l : x ∈ rev l ↔ x ∈ l.
Proof. rewrite !list_elem_of_In. symmetry. apply in_rev. Qed.

Lemma find_row_some r mx i p : find_row mx i r = Some p → (i ≤ p < r)%nat ∧ entry mx p i ≠ 0.
Proof.
  unfold find_row. intros [Hin Hne]%List.find_some. apply list_elem_of_In, range_elem in Hin.
  by apply negb_true_iff, Z.eqb_neq in Hne.
Qed.
Lemma find_row_none r mx i : find_row mx i r = None ↔ ∀ j, (i ≤ j < r)%nat → entry mx j i = 0.
Proof.
  unfold find_row. split.
  - intros Hf j Hj. apply Z.eqb_eq. pose proof (List.find_none _ _ Hf j) as Hn.
    rewrite <-list_elem_of_In, range_elem in Hn. apply negb_false_iff. by apply Hn.
  - intros H. destruct (find _ _) as [p|] eqn:E; [|done].
    apply find_row_some in E as [Hp Hne]. by rewrite H in Hne.
Qed.

Section eliminate.
Context (r c c0 : nat) (Hc0 : (c0 ≤ r ≤ c)%nat).
Implicit Types (mx : Matrix) (w : list Z).

(* one column of the triangle *)
Lemma forward_step i mx : mat r c mx → (i < c0)%nat → upper r i mx → independent r c c0 mx →
  ∃ mx', forward_body r i mx = Done mx' ∧ rtc (row_op r) mx mx' ∧ upper r (S i) mx'.
Proof.
  intros Hm Hi [Hd Hz] Hind. pose proof Hm as [[Hr _] _]. unfold forward_body.
  destruct (find_row mx i r) as [p|] eqn:Ef.
  2:{ rewrite find_row_none in Ef. destruct (no_pivot_kernel r c i mx) as (w & Hl & Hw & Hwi & Hwz & Hk); [done|lia|lia|done|done|].
      pose proof (Hind w Hl Hw (λ l H, Hwz l ltac:(lia)) Hk i) as H0. by rewrite H0 in Hwi. }
  apply find_row_some in Ef as [Hp Hne].
  set (mx1 := if decide (p ≠ i) then <[i:=row mx p]> (<[p:=row mx i]> mx) else mx).
  assert ((if decide (p ≠ i) then matrix_swap_rows i p mx else Done mx) = Done mx1) as ->.
  { unfold mx1, matrix_swap_rows, assert_that. case_decide; [|done]. by rewrite decide_True by lia. }
  assert (rtc (row_op r) mx mx1) as Ho1.
  { unfold mx1. case_decide; [|done]. apply rtc_once, op_swap. lia. }
  assert (∀ j, (j < r)%nat → row mx1 j = if decide (j = i) then row mx p else if decide (j = p) then row mx i else row mx j) as Hrow1.
  { intros j Hj. unfold mx1. destruct (decide (p ≠ i)) as [Hpi|Hpi].
    - by rewrite !row_insert by (rewrite ?length_insert; lia).
    - assert (p = i) as -> by by apply dec_stable. repeat case_decide; subst; done. }
  assert (mat r c mx1) as Hm1 by by eapply row_ops_mat.
  cbn [obind]. destruct (div_spec 1 (entry mx p i)) as (inv & -> & Hib & Hinv);
    [done|apply (entry_byte r c); [done|lia]|done|]. cbn [unwrap obind].
  assert (inv ≠ 0) as Hi0.
  { intros ->. rewrite mul_0_l in Hinv; [done|]. apply (entry_byte r c); [done|lia]. }
  cbn [slice_in_place]. change (mul_slice_in_place_low inv (row mx1 i)) with (map (mul inv) (row mx1 i)).
  set (mx2 := <[i:=map (mul inv) (row mx1 i)]> mx1).
  assert (row_op r mx1 mx2) as Ho2 by (apply op_scale; [lia|done|done]).
  assert (mat r c mx2) as Hm2 by by eapply row_op_mat.
  pose proof Hm1 as [[Hr1 _] _].
  destruct (clear_rows r c i (range (i + 1) r) mx2) as (mx3 & E & Ho3 & Hrow3);
    [done|lia|apply range_nodup|apply Forall_forall; intros j Hj%range_elem; lia|].
  exists mx3. split; [exact E|]. split; [by etrans; [|eapply rtc_l]|].
  assert (∀ j l, (j < r)%nat → entry mx2 j l = if decide (j = i) then mul inv (entry mx p l)
    else entry mx (if decide (j = p) then i else j) l) as He2.
  { intros j l Hj. unfold mx2, entry. rewrite row_insert by lia. rewrite !Hrow1 by lia.
    rewrite (decide_True (P := i = i)) by done. repeat case_decide; try done. by apply nth_scale. }
  assert (∀ j l, (j < r)%nat → (l < i)%nat → entry mx2 j l = if decide (j < i)%nat then entry mx j l else 0) as Hlow2.
  { intros j l Hj Hl. rewrite He2 by done. repeat case_decide; subst; try lia; try done.
    - rewrite (Hz l p) by lia. by apply mul_0_r.
    - by apply Hz; lia.
    - by apply Hz; lia. }
  assert (entry mx2 i i = 1) as Hii by (rewrite He2, decide_True by (done || lia); exact Hinv).
  assert (∀ j l, (j < r)%nat → entry mx3 j l = if decide (i < j)%nat then
    Z.lxor (entry mx2 j l) (mul (entry mx2 j i) (entry mx2 i l)) else entry mx2 j l) as He3.
  { intros j l Hj. unfold entry at 1. rewrite Hrow3 by done. destruct (decide (j ∈ range (i + 1) r)) as [Hin|Hin];
      rewrite range_elem in Hin.
    - rewrite decide_True by lia. pose proof (mat_row r c mx2 i Hm2 ltac:(lia)) as [? ?]. pose proof (mat_row r c mx2 j Hm2 Hj) as [? ?].
      rewrite nth_axpy by (congruence || by apply (entry_byte r c)). done.
    - by rewrite decide_False by lia. }
  split.
  - intros l Hl. rewrite He3 by lia. case_decide as Hil; [lia|]. destruct (decide (l = i)) as [->|]; [done|].
    rewrite Hlow2, decide_True by lia. apply Hd. lia.
  - intros l j Hl Hj. rewrite He3 by lia. destruct (decide (i < j)%nat) as [Hij|Hij].
    + destruct (decide (l = i)) as [->|Hli].
      * rewrite Hii, mul_1_r by (apply (entry_byte r c); [done|lia]). apply Z.lxor_nilpotent.
      * rewrite !(Hlow2 _ l), !decide_False by lia. rewrite mul_0_r by (apply (entry_byte r c); [done|lia]). done.
    + rewrite Hlow2 by lia. case_decide; [apply Hz; lia|done].
Qed.

(** The rows below the first [c0] are zero where pivots are looked for. *)
Definition low_zero mx : Prop := ∀ j l, (c0 ≤ j < r)%nat → (l < r)%nat → entry mx j l = 0.

Lemma forward_loop n mx : mat r c mx → (n ≤ c0)%nat → upper r (c0 - n) mx → independent r c c0 mx →
  ∃ mx', for_each (seq (c0 - n) n) (forward_body r) mx = Done mx' ∧ rtc (row_op r) mx mx' ∧ upper r c0 mx'.
Proof.
  revert mx. induction n as [|n IH]; intros mx Hm Hn Hu Hind.
  { exists mx. rewrite Nat.sub_0_r in Hu. by split_and!. }
  cbn [seq for_each]. destruct (forward_step (c0 - S n) mx) as (mx1 & -> & Ho & Hu1); [done|lia|done|done|].
  cbn [obind]. replace (S (c0 - S n)) with (c0 - n)%nat in * by lia.
  destruct (IH mx1) as (mx' & -> & Ho' & Hu'); [by eapply row_ops_mat|lia|done|by eapply independent_ops|].
  exists mx'. split; [done|]. split; [by etrans|done].
Qed.
Lemma dependent_low i mx : mat r c mx → upper r c0 mx → (c0 ≤ i < r)%nat → dependent r c c0 i mx →
  ∀ j, (c0 ≤ j < r)%nat → entry mx j i = 0.
Proof.
  intros Hm [_ Hz] Hi (w & Hl & Hw & Hwi & Hwz & Hk) j Hj. pose proof (mat_row r c mx j Hm ltac:(lia)) as [? ?].
  pose proof (Hk j ltac:(lia)) as Hj0. rewrite (dot_only i) in Hj0 by
    (congruence || done || (intros l Hli; destruct (decide (l < c0)%nat); [left; apply Hz; lia|right; apply Hwz; lia])).
  rewrite Hwi, mul_1_r in Hj0; [done|]. by apply nth_byte.
Qed.
Lemma forward_idle js mx : low_zero mx → Forall (λ i, c0 ≤ i < r)%nat js → for_each js (forward_body r) mx = Done mx.
Proof.
  intros Hlz. induction 1 as [|i js Hi _ IH]; [done|]. cbn [for_each]. unfold forward_body.
  assert (find_row mx i r = None) as ->; [|exact IH]. apply find_row_none. intros j Hj. apply Hlz; lia.
Qed.

(* the triangle cleared from the right *)
Definition cleared (n : nat) mx : Prop := ∀ l j, (n ≤ l < c0)%nat → (j < l)%nat → entry mx j l = 0.
Lemma backward_step i mx : mat r c mx → (i < r)%nat → upper r c0 mx → low_zero mx → cleared (S i) mx →
  ∃ mx', backward_body i mx = Done mx' ∧ rtc (row_op r) mx mx' ∧ upper r c0 mx' ∧ low_zero mx' ∧ cleared i mx'.
Proof.
  intros Hm Hi [Hd Hz] Hlz Hcl. unfold backward_body.
  destruct (clear_rows r c i (rev (range 0 i)) mx) as (mx' & -> & Ho & Hrow);
    [done|done|apply rev_nodup, range_nodup|apply Forall_forall; intros j; rewrite elem_rev, range_elem; lia|].
  assert (∀ j l, (j < r)%nat → entry mx' j l = if decide (j < i)%nat then
    Z.lxor (entry mx j l) (mul (entry mx j i) (entry mx i l)) else entry mx j l) as He.
  { intros j l Hj. unfold entry at 1. rewrite Hrow by done. destruct (decide (j ∈ rev (range 0 i))) as [Hin|Hin];
      rewrite elem_rev, range_elem in Hin.
    - rewrite decide_True by lia. pose proof (mat_row r c mx i Hm Hi) as [? ?]. pose proof (mat_row r c mx j Hm Hj) as [? ?].
      rewrite nth_axpy by (congruence || by apply (entry_byte r c)). done.
    - by rewrite decide_False by lia. }
  assert (∀ j l, (j < r)%nat → entry mx i l = 0 → entry mx' j l = entry mx j l) as Hsame.
  { intros j l Hj Hil. rewrite He by done. case_decide; [|done]. rewrite Hil, mul_0_r by by apply (entry_byte r c).
    apply Z.lxor_0_r. }
  exists mx'. split; [done|]. split; [done|]. destruct (decide (c0 ≤ i)%nat) as [Hci|Hci].
  - assert (∀ j l, (j < r)%nat → (l < r)%nat → entry mx' j l = entry mx j l) as Hall.
    { intros j l Hj Hl. apply Hsame; [done|]. apply Hlz; lia. }
    split_and!.
    + split; intros; rewrite Hall by lia; [by apply Hd|by apply Hz].
    + intros j l Hj Hl. rewrite Hall by lia. by apply Hlz.
    + intros l j Hl Hj. lia.
  - split_and!.
    + split.
      * intros l Hl. rewrite He by lia. case_decide; [|by apply Hd]. rewrite (Hz l i) by lia.
        rewrite mul_0_r, Z.lxor_0_r by (apply (entry_byte r c); [done|lia]). by apply Hd.
      * intros l j Hl Hj. rewrite He by lia. case_decide; [|by apply Hz; lia]. rewrite (Hz l i), (Hz l j) by lia.
        by rewrite mul_0_r by (apply (entry_byte r c); [done|lia]).
    + intros j l Hj Hl. rewrite He, decide_False by lia. by apply Hlz.
    + intros l j Hl Hj. rewrite He by lia. destruct (decide (j < i)%nat) as [Hji|Hji].
      * destruct (decide (l = i)) as [->|Hli].
        -- rewrite Hd, mul_1_r by (lia || (apply (entry_byte r c); [done|lia])). apply Z.lxor_nilpotent.
        -- rewrite (Hcl l i), (Hcl l j) by lia. by rewrite mul_0_r by (apply (entry_byte r c); [done|lia]).
      * apply Hcl; lia.
Qed.
Lemma backward_loop n mx : mat r c mx → (n ≤ r)%nat → upper r c0 mx → low_zero mx → cleared n mx →
  ∃ mx', for_each (rev (seq 0 n)) backward_body mx = Done mx' ∧ rtc (row_op r) mx mx' ∧ upper r c0 mx' ∧ low_zero mx' ∧ cleared 0 mx'.
Proof.
  revert mx. induction n as [|n IH]; intros mx Hm Hn Hu Hlz Hcl; [by exists mx|].
  rewrite seq_S, rev_app_distr. cbn [rev app for_each Nat.add].
  destruct (backward_step n mx) as (mx1 & -> & Ho & Hu1 & Hlz1 & Hcl1); [done..|]. cbn [obind].
  destruct (IH mx1) as (mx' & -> & Ho' & Hu' & Hlz' & Hcl'); [by eapply row_ops_mat|lia|done..|].
  exists mx'. split; [done|]. split; [by etrans|done].
Qed.

(** Where the first [c0] columns are independent and those after them, up to [r], are not, the
    first [c0] columns become those of the identity. *)
Lemma standardize_spec mx : mat r c mx → independent r c c0 mx → (∀ i, (c0 ≤ i < r)%nat → dependent r c c0 i mx) →
  ∃ mx', standardize_matrix None r c mx = Done mx' ∧ rtc (row_op r) mx mx' ∧
    (∀ j l, (j < r)%nat → (l < c0)%nat → entry mx' j l = if decide (j = l) then 1 else 0) ∧
    (∀ j l, (c0 ≤ j < r)%nat → (l < r)%nat → entry mx' j l = 0).
Proof.
  intros Hm Hi Hdep. rewrite standardize_bodies by apply Hm. unfold range. rewrite Nat.sub_0_r.
  assert (∀ l l' (f : nat → Matrix → outcome Matrix) m, for_each (l ++ l') f m = try! m := for_each l f m in for_each l' f m) as Happ.
  { clear. intros l l' f. induction l as [|x l IH]; intros m; [done|]. simpl. destruct (f x m); [apply IH|done]. }
  destruct (forward_loop c0 mx) as (mx1 & E1 & Ho1 & Hu1); [done|done|by rewrite Nat.sub_diag; split; lia|done|].
  rewrite Nat.sub_diag in E1. assert (mat r c mx1) as Hm1 by by eapply row_ops_mat.
  assert (low_zero mx1) as Hlz1.
  { intros j l Hj Hl. destruct (decide (l < c0)%nat) as [Hlc|]; [by apply Hu1; lia|].
    apply (dependent_low l mx1); [done|done|lia| |done]. eapply dependent_ops; [exact Hm|done|apply Hdep; lia]. }
  assert (for_each (seq 0 r) (forward_body r) mx = Done mx1) as ->.
  { replace (seq 0 r) with (seq 0 c0 ++ seq c0 (r - c0)) by (rewrite <-seq_app; f_equal; lia).
    rewrite Happ, E1. cbn [obind]. apply forward_idle; [done|]. apply Forall_forall. intros i Hin%elem_of_seq. lia. }
  cbn [obind].
  destruct (backward_loop r mx1) as (mx' & -> & Ho & Hu & Hlz & Hcl); [done|done|done|done|intros l j Hl; lia|].
  exists mx'. split; [done|]. split; [by etrans|]. split; [|exact Hlz].
  intros j l Hj Hl. case_decide as Hjl; [subst; by apply Hu|].
  destruct (decide (j < l)%nat); [apply Hcl; lia|apply Hu; lia].
Qed.
End eliminate.

(** ** Inverting: the same steps on the matrix and on the identity beside it *)

Section beside.
Context (k : nat) (debug : bool).
Implicit Types (mx out : Matrix) (s : Matrix * Matrix).

Definition beside s : Matrix := zip_with (++) s.1 s.2.
Definition pair_ok s : Prop := mat k k s.1 ∧ mat k k s.2.

Lemma row_beside s j : pair_ok s → (j < k)%nat → row (beside s) j = row s.1 j ++ row s.2 j.
Proof.
  intros [[[H1 _] _] [[H2 _] _]] Hj. unfold row at 1, beside. rewrite nth_lookup, lookup_zip_with.
  rewrite (row_lookup s.1), (row_lookup s.2) by lia. done.
Qed.
Lemma entry_beside s j l : pair_ok s → (j < k)%nat → (l < k)%nat → entry (beside s) j l = entry s.1 j l.
Proof.
  intros Hs Hj Hl. unfold entry. rewrite row_beside by done. apply app_nth1. destruct Hs as [Hm _].
  destruct (mat_row k k s.1 j Hm Hj). lia.
Qed.
Lemma beside_mat s : pair_ok s → mat k (k + k) (beside s).
Proof.
  intros Hs. pose proof Hs as [[[H1 _] _] [[H2 _] _]].
  assert (length (beside s) = k) as Hl by (unfold beside; rewrite length_zip_with; lia).
  split; [split; [exact Hl|]|]; apply Forall_lookup_2; intros j l Hj;
    pose proof (lookup_lt_Some _ _ _ Hj) as Hlt; rewrite row_lookup in Hj by lia; injection Hj as <-;
    rewrite row_beside by (done || lia); destruct Hs as [Hm Ho];
    destruct (mat_row k k s.1 j Hm), (mat_row k k s.2 j Ho); try lia; [rewrite length_app; lia|by apply Forall_app].
Qed.
Lemma beside_insert i l l' s : <[i:=l ++ l']> (beside s) = beside (<[i:=l]> s.1, <[i:=l']> s.2).
Proof. unfold beside. cbn [fst snd]. apply insert_zip_with. Qed.

Lemma for_each_sim {St T A} (I : St → Prop) (g : St → T) (l : list A) (f : A → St → outcome St) (f' : A → T → outcome T) (st : St) :
  (∀ x (st : St), x ∈ l → I st → ∃ st', f x st = Done st' ∧ f' x (g st) = Done (g st') ∧ I st') → I st →
  ∃ st', for_each l f st = Done st' ∧ for_each l f' (g st) = Done (g st') ∧ I st'.
Proof.
  revert st. induction l as [|x l IH]; intros st Hf Hs; [by exists st|]. cbn [for_each].
  destruct (Hf x st) as (s1 & -> & -> & Hs1); [by left|done|]. cbn [obind]. apply IH; [|done].
  intros y s2 Hy. apply Hf. by right.
Qed.

Lemma add_mul_beside i j fac s : pair_ok s → i ≠ j → (i < k)%nat → (j < k)%nat → byte fac →
  ∃ s', (try! mx := matrix_add_mul_rows None i j fac s.1 in try! out := matrix_add_mul_rows None i j fac s.2 in Done (mx, out)) = Done s' ∧
    matrix_add_mul_rows None i j fac (beside s) = Done (beside s') ∧ pair_ok s'.
Proof.
  intros Hs Hij Hi Hj Hf. pose proof Hs as [Hm Ho]. rewrite (add_mul_rows_done k k), (add_mul_rows_done k k) by done.
  cbn [obind]. eexists. split; [done|]. split.
  - rewrite (add_mul_rows_done k (k + k)) by (done || by apply beside_mat). rewrite !row_beside by done.
    destruct (mat_row k k s.1 i Hm Hi), (mat_row k k s.1 j Hm Hj), (mat_row k k s.2 i Ho Hi), (mat_row k k s.2 j Ho Hj).
    assert (axpy fac (row s.1 i ++ row s.2 i) (row s.1 j ++ row s.2 j) =
      axpy fac (row s.1 i) (row s.1 j) ++ axpy fac (row s.2 i) (row s.2 j)) as -> by (apply zip_with_app; congruence).
    by rewrite beside_insert.
  - split; [apply (row_op_mat k k s.1); [done|]|apply (row_op_mat k k s.2); [done|]]; by apply op_add.
Qed.

Lemma clear_beside i js s : pair_ok s → (i < k)%nat → (∀ j, j ∈ js → (j < k)%nat ∧ i ≠ j) →
  ∃ s', for_each js (λ j s, let fac := entry s.1 j i in
      try! mx := matrix_add_mul_rows None i j fac s.1 in try! out := matrix_add_mul_rows None i j fac s.2 in Done (mx, out)) s = Done s' ∧
    for_each js (λ j mx, matrix_add_mul_rows None i j (entry mx j i) mx) (beside s) = Done (beside s') ∧ pair_ok s'.
Proof.
  intros Hs Hi Hjs. apply (for_each_sim pair_ok beside); [|done]. intros j s1 Hj Hs1. cbn zeta.
  destruct (Hjs j Hj) as [Hjk Hij]. rewrite entry_beside by done. apply add_mul_beside; try done.
  apply (entry_byte k k); [apply Hs1|done].
Qed.

(* one pivot; the debug assertion holds *)
Lemma forward_beside i s : pair_ok s → (i < k)%nat →
  ∃ s', match find_row s.1 i k with
    | None => Done s
    | Some p_row =>
        let p_val := entry s.1 p_row i in
        try! s := (if decide (p_row ≠ i) then
            try! mx := matrix_swap_rows i p_row s.1 in
            try! out := matrix_swap_rows i p_row s.2 in
            Done (mx, out)
          else Done s) in
        try! inv := unwrap (div 1 p_val) in
        let s := (<[i:=slice_in_place None inv (row s.1 i)]> s.1,
                  <[i:=slice_in_place None inv (row s.2 i)]> s.2) in
        try! _ := debug_assert debug (entry s.1 i i = 1) in
        for_each (range (i + 1) k) (λ j s, let fac := entry s.1 j i in
          try! mx := matrix_add_mul_rows None i j fac s.1 in
          try! out := matrix_add_mul_rows None i j fac s.2 in Done (mx, out)) s
    end = Done s' ∧ forward_body k i (beside s) = Done (beside s') ∧ pair_ok s'.
Proof.
  intros Hs Hi. unfold forward_body.
  assert (find_row (beside s) i k = find_row s.1 i k) as ->.
  { unfold find_row. assert (∀ j, j ∈ range i k → entry (beside s) j i = entry s.1 j i) as He
      by (intros j Hj%range_elem; apply entry_beside; [done|lia|done]).
    revert He. generalize (range i k). intros l He. induction l as [|j l IH]; [done|]. cbn [find].
    rewrite He by by left. rewrite IH; [done|]. intros j' Hj'. apply He. by right. }
  destruct (find_row s.1 i k) as [p|] eqn:Ef; [|by exists s]. apply find_row_some in Ef as [Hp Hne].
  cbn zeta. rewrite entry_beside by (done || lia).
  destruct (div_spec 1 (entry s.1 p i)) as (inv & -> & Hib & Hinv); [done|apply (entry_byte k k); [apply Hs|lia]|done|].
  set (s1 := if decide (p ≠ i) then (<[i:=row s.1 p]> (<[p:=row s.1 i]> s.1), <[i:=row s.2 p]> (<[p:=row s.2 i]> s.2)) else s).
  pose proof Hs as [[[Hk1 _] _] [[Hk2 _] _]].
  assert (pair_ok s1 ∧ (if decide (p ≠ i) then matrix_swap_rows i p (beside s) else Done (beside s)) = Done (beside s1) ∧
    (if decide (p ≠ i) then try! mx := matrix_swap_rows i p s.1 in try! out := matrix_swap_rows i p s.2 in Done (mx, out)
      else Done s) = Done s1) as (Hs1 & -> & ->).
  { unfold s1. destruct (decide (p ≠ i)) as [Hpi|Hpi]; [|done]. destruct Hs as [Hm Ho]. split.
    { split; cbn [fst snd]; [apply (row_op_mat k k s.1); [done|]|apply (row_op_mat k k s.2); [done|]]; apply op_swap; lia. }
    unfold matrix_swap_rows, assert_that. rewrite !decide_True by (unfold beside; rewrite ?length_zip_with; lia).
    cbn [obind]. split; [|done]. f_equal.
    rewrite !row_beside by (done || lia). rewrite beside_insert. by rewrite (beside_insert i (row s.1 p) (row s.2 p)). }
  cbn [unwrap obind]. pose proof Hs1 as [Hm1 Ho1].
  pose proof (mat_row k k s1.1 i Hm1 Hi) as [? ?]. pose proof (mat_row k k s1.2 i Ho1 Hi) as [? ?].
  rewrite row_beside by done. cbn [slice_in_place]. unfold mul_slice_in_place_low. rewrite map_app, beside_insert.
  rewrite debug_assert_true; cbn [obind].
  2:{ unfold entry. cbn [fst]. rewrite row_insert, decide_True by (done || (destruct Hm1 as [[? _] _]; lia)).
      change (index (mul_row inv)) with (mul inv). rewrite nth_scale by done. change (nth i (row s1.1 i) 0) with (entry s1.1 i i).
      assert (entry s1.1 i i = entry s.1 p i) as ->; [|exact Hinv]. unfold entry, s1. destruct (decide (p ≠ i)) as [Hpi|Hpi].
      - cbn [fst]. by rewrite row_insert, decide_True by (done || rewrite length_insert; lia).
      - by apply dec_stable in Hpi as ->. }
  apply clear_beside; [|done|intros j Hj%range_elem; lia].
  split; cbn [fst snd]; (apply mat_insert; [done|by rewrite length_map|apply mul_map_byte]).
Qed.

(** Inverting is standardizing beside the identity; a build with debug assertions then panics
    unless every column had a pivot. *)
Lemma invert_with_standardize mx out : mat k k mx → mat k k out →
  ∃ s', invert_matrix_with None debug k mx out =
    (try! _ := debug_assert debug (Forall (λ i, entry s'.1 i i = 1) (range 0 k)) in Done s') ∧ standardize_matrix None k (k + k) (beside (mx, out)) = Done (beside s') ∧ pair_ok s'.
Proof.
  intros Hm Ho. assert (pair_ok (mx, out)) as Hs by done. unfold invert_matrix_with, assert_that.
  rewrite !decide_True by (apply Hm || apply Ho). cbn [obind]. rewrite standardize_bodies by by apply beside_mat.
  destruct (for_each_sim pair_ok beside (range 0 k) _ (forward_body k) (mx, out)
    (λ i s Hi Hs, forward_beside i s Hs (proj2 (proj1 (range_elem 0 k i) Hi))) Hs) as (s1 & E1 & E2 & Hs1).
  cbn zeta in E1 |- *. rewrite E1, E2. cbn [obind].
  edestruct (for_each_sim pair_ok beside (rev (range 0 k))) as (s2 & E3 & E4 & Hs2); [|exact Hs1|].
  2:{ exists s2. rewrite E3, E4. by cbn [obind]. }
  intros i s2 Hi Hs2. unfold backward_body.
  rewrite elem_rev, range_elem in Hi. apply clear_beside; [done|lia|]. intros j. rewrite elem_rev, range_elem. lia.
Qed.
End beside.
