(* ===== verification/PolyRoots.v ===== *)
(** Polynomials over the field of the erasure code as functions: roots, products and
    interpolation, on lists of coefficients evaluated by [horner] (Poly.v), and the division of
    Poly.v where it leaves no remainder. Used by the correction of damaged shares in FecDecode.v. *)

From S2P Require Import Prelude Galois Matrix Poly Fec Elimination.

Definition all_zero (l : list Z) : Prop := Forall (λ a, a = 0) l.
#[global] Instance all_zero_dec l : Decision (all_zero l).
Proof. unfold all_zero. apply _. Defined.

Lemma all_zero_replicate l : all_zero l → l = replicate (length l) 0.
Proof. induction 1 as [|x l -> _ IH]; [done|]. simpl. by rewrite <-IH. Qed.
Lemma horner_all_zero l x : byte x → all_zero l → horner l x = 0.
Proof. intros Hx Hl. rewrite (all_zero_replicate l Hl). by apply horner_zeros. Qed.
Lemma horner_mem l x : Forall byte l → byte x → byte (horner l x).
Proof. apply horner_byte. Qed.

(** ** Roots *)

(* the quotient by [X + a] *)
Fixpoint synth (l : list Z) (a : Z) : list Z :=
  match l with
  | [] => []
  | _ :: l => match l with [] => [] | _ => horner l a :: synth l a end
  end.
Lemma synth_cons c d l a : synth (c :: d :: l) a = horner (d :: l) a :: synth (d :: l) a.
Proof. done. Qed.
Lemma synth_length l a : length (synth l a) = (length l - 1)%nat.
Proof.
  induction l as [|c [|d l] IH]; [done..|]. rewrite synth_cons. cbn [length] in *. rewrite IH. lia.
Qed.
Lemma synth_byte l a : Forall byte l → byte a → Forall byte (synth l a).
Proof.
  intros Hl Ha. induction Hl as [|c [|d l] Hc Hl IH]; [done|constructor|]. rewrite synth_cons.
  constructor; [by apply horner_mem|done].
Qed.
Lemma synth_spec l a x : Forall byte l → byte a → byte x → l ≠ [] →
  horner l x = Z.lxor (mul (Z.lxor x a) (horner (synth l a) x)) (horner l a).
Proof.
  intros Hl Ha Hx. induction Hl as [|c l Hc Hl IH]; intros Hne; [done|]. destruct l as [|d l].
  { simpl. rewrite !mul_0_r, Z.lxor_0_l by bytes. done. }
  rewrite synth_cons. change (horner (c :: d :: l) x) with (Z.lxor c (mul x (horner (d :: l) x))).
  change (horner (c :: d :: l) a) with (Z.lxor c (mul a (horner (d :: l) a))).
  rewrite IH by done. set (h := horner (d :: l) a). set (q := synth (d :: l) a).
  change (horner (h :: q) x) with (Z.lxor h (mul x (horner q x))).
  assert (byte h) as Hh by by apply horner_mem.
  assert (byte (horner q x)) as Hq by (apply horner_mem; [by apply synth_byte|done]).
  rewrite (mul_lxor_r x) by bytes. rewrite (mul_lxor_r (Z.lxor x a)) by bytes.
  rewrite !(mul_lxor_l x a) by bytes. rewrite (mul_lxor_r x (mul x _)) by bytes.
  rewrite (mul_assoc x a), (mul_comm x a), <-(mul_assoc a x) by bytes. xor_solve.
Qed.
Lemma synth_zero l a : byte a → all_zero (synth l a) → horner l a = 0 → all_zero l.
Proof.
  intros Ha. induction l as [|c l IH]; intros Hq Hr; [constructor|]. destruct l as [|d l].
  { simpl in Hr. rewrite mul_0_r, Z.lxor_0_r in Hr by done. by constructor. }
  rewrite synth_cons in Hq. apply Forall_cons in Hq as [Hh Hq].
  change (horner (c :: d :: l) a) with (Z.lxor c (mul a (horner (d :: l) a))) in Hr.
  rewrite Hh, mul_0_r, Z.lxor_0_r in Hr by done. constructor; [done|]. by apply IH.
Qed.

Lemma lxor_neq a b : a ≠ b → Z.lxor a b ≠ 0.
Proof. intros Hne H. by apply Z.lxor_eq in H. Qed.

(** A polynomial with more roots than its degree is zero. *)
Lemma roots_zero l xs : NoDup xs → Forall byte xs → Forall byte l → (length l ≤ length xs)%nat →
  (∀ x, x ∈ xs → horner l x = 0) → all_zero l.
Proof.
  intros Hnd. revert l. induction Hnd as [|a xs Hin _ IH]; intros l Hxs Hl Hlen Hr.
  { destruct l; [constructor|simpl in Hlen; lia]. }
  apply Forall_cons in Hxs as [Ha Hxs]. assert (horner l a = 0) as Hra by (apply Hr; by left).
  apply (synth_zero l a Ha); [|done]. destruct l as [|c l]; [constructor|].
  apply IH; [done|by apply synth_byte|rewrite synth_length; simpl in *; lia|].
  intros x Hx. assert (byte x) as Hxb by (rewrite Forall_forall in Hxs; auto).
  pose proof (Hr x ltac:(by right)) as H0. rewrite (synth_spec _ a), Hra, Z.lxor_0_r in H0 by done.
  apply dec_stable. intros Hne. apply (mul_nonzero (Z.lxor x a)) in H0; [done|bytes|apply horner_mem; [by apply synth_byte|done]|
    |done]. apply lxor_neq. by intros ->.
Qed.

(* every byte, once *)
Definition all_points : list Z := map Z.of_nat (seq 0 256).
Lemma all_points_nodup : NoDup all_points.
Proof. apply NoDup_fmap_2; [intros ? ? ?; lia|apply NoDup_seq]. Qed.
Lemma all_points_byte : Forall byte all_points.
Proof. apply Forall_map, Forall_forall. intros i Hi%elem_of_seq. unfold byte. lia. Qed.
Lemma all_points_length : length all_points = 256%nat.
Proof. reflexivity. Qed.
Lemma vanishing_zero l : Forall byte l → (length l ≤ 256)%nat → (∀ x, byte x → horner l x = 0) → all_zero l.
Proof.
  intros Hl Hlen Hz. apply (roots_zero l all_points); [apply all_points_nodup|apply all_points_byte|done|by rewrite all_points_length|].
  intros x Hx. apply Hz. pose proof all_points_byte as Hb. rewrite Forall_forall in Hb. auto.
Qed.

(** ** Sums and products *)

Lemma zip_add_byte a b : Forall byte a → Forall byte b → Forall byte (zip_with add a b).
Proof.
  intros Ha. revert b. induction Ha as [|x a Hx _ IH]; intros b Hb; [constructor|].
  destruct Hb as [|y b Hy Hb]; [constructor|]. simpl. constructor; [by apply lxor_byte|by apply IH].
Qed.
Lemma zip_add_len a b : length a = length b → length (zip_with add a b) = length b.
Proof. intros H. rewrite length_zip_with. lia. Qed.
Lemma pad_byte n l : Forall byte l → Forall byte (l ++ zeros n).
Proof. intros Hl. apply Forall_app. split; [done|]. apply zeros_byte. Qed.
Lemma horner_pad l n x : Forall byte l → byte x → horner (l ++ zeros n) x = horner l x.
Proof. apply horner_zeros_end. Qed.
Lemma horner_shift n l x : Forall byte l → byte x → horner (zeros n ++ l) x = mul (gpow x n) (horner l x).
Proof.
  intros Hl Hx. rewrite horner_app by (done || apply zeros_byte). unfold zeros. rewrite horner_zeros by done.
  by rewrite Z.lxor_0_l, length_replicate.
Qed.

(* the product, as long as both together: the last coefficient is zero *)
Fixpoint pmul (p b : list Z) : list Z :=
  match p with
  | [] => zeros (length b)
  | a :: p => zip_with add (map (mul a) b ++ zeros (S (length p))) (0 :: pmul p b)
  end.
Lemma zeros_length n : length (zeros n) = n.
Proof. apply length_replicate. Qed.
Lemma gf_pmul_length p b : length (pmul p b) = (length p + length b)%nat.
Proof.
  induction p as [|a p IH]; [apply zeros_length|]. cbn [pmul]. rewrite zip_add_len; cbn [length]; [by rewrite IH|].
  rewrite length_app, length_map, zeros_length, IH. lia.
Qed.
Lemma pmul_byte p b : Forall byte (pmul p b).
Proof.
  induction p as [|a p IH]; [apply zeros_byte|]. cbn [pmul]. apply zip_add_byte; [|by constructor].
  apply pad_byte, mul_map_byte.
Qed.
Lemma horner_pmul p b x : Forall byte p → Forall byte b → byte x → horner (pmul p b) x = mul (horner p x) (horner b x).
Proof.
  intros Hp Hb Hx. induction Hp as [|a p Ha Hp IH]; cbn [pmul horner].
  { unfold zeros. rewrite horner_zeros by done. by rewrite mul_0_l by by apply horner_mem. }
  rewrite horner_xor; [|cbn [length]; rewrite length_app, length_map, zeros_length, gf_pmul_length; lia|by apply pad_byte, mul_map_byte|
    constructor; [done|apply pmul_byte]|done].
  rewrite horner_pad, horner_scale by (done || apply mul_map_byte). cbn [horner]. rewrite Z.lxor_0_l, IH.
  assert (byte (horner p x)) by by apply horner_mem. assert (byte (horner b x)) by by apply horner_mem.
  rewrite mul_lxor_l by bytes. by rewrite mul_assoc by bytes.
Qed.
Lemma zeros_S n : zeros (S n) = zeros n ++ [0].
Proof. unfold zeros. by rewrite <-replicate_S_end. Qed.
Lemma pmul_last p b : p ≠ [] → ∃ h, pmul p b = h ++ [0].
Proof.
  induction p as [|a p IH]; [done|]. intros _. cbn [pmul]. rewrite zeros_S, app_assoc.
  assert (∃ h, 0 :: pmul p b = h ++ [0]) as [h Hh].
  { destruct p as [|a' p].
    - exists (zeros (length b)). cbn [pmul]. by rewrite <-zeros_S.
    - destruct IH as [h ->]; [done|]. by exists (0 :: h). }
  rewrite Hh. exists (zip_with add (map (mul a) b ++ zeros (length p)) h).
  rewrite zip_with_app; [done|]. apply (f_equal length) in Hh. cbn [length] in Hh.
  rewrite gf_pmul_length, length_app in Hh. rewrite length_app, length_map, zeros_length. simpl in Hh. lia.
Qed.

Lemma nth_zeros n i : nth i (zeros n) 0 = 0.
Proof.
  rewrite nth_lookup. unfold zeros. destruct (replicate n 0 !! i) as [y|] eqn:E; [|done]. by apply lookup_replicate in E as [-> _].
Qed.

(** [p] times the monic polynomial [X^e + low]. *)
Definition pmul_monic (p low : list Z) : list Z := zip_with add (pmul p low) (zeros (length low) ++ p).
Definition monic (low : list Z) : list Z := low ++ [1].
Lemma pmul_monic_length p low : length (pmul_monic p low) = (length p + length low)%nat.
Proof. unfold pmul_monic. rewrite zip_add_len; rewrite ?gf_pmul_length, length_app, zeros_length; lia. Qed.
Lemma pmul_monic_byte p low : Forall byte p → Forall byte (pmul_monic p low).
Proof. intros Hp. apply zip_add_byte; [apply pmul_byte|]. apply Forall_app. split; [apply zeros_byte|done]. Qed.
Lemma horner_monic low x : Forall byte low → byte x → horner (monic low) x = Z.lxor (horner low x) (gpow x (length low)).
Proof.
  intros Hl Hx. unfold monic. rewrite horner_app by (done || by repeat constructor). cbn [horner].
  rewrite mul_0_r, Z.lxor_0_r, mul_1_r by bytes. done.
Qed.
Lemma horner_pmul_monic p low x : Forall byte p → Forall byte low → byte x →
  horner (pmul_monic p low) x = mul (horner p x) (horner (monic low) x).
Proof.
  intros Hp Hl Hx. unfold pmul_monic.
  rewrite horner_xor; [|rewrite gf_pmul_length, length_app, zeros_length; lia|apply pmul_byte|apply Forall_app; split; [apply zeros_byte|done]|done].
  rewrite horner_pmul, horner_shift, horner_monic by done.
  assert (byte (horner p x)) by by apply horner_mem. assert (byte (horner low x)) by by apply horner_mem.
  rewrite mul_lxor_r by bytes. f_equal. apply mul_comm; bytes.
Qed.

(** Only a multiple of zero has a smaller degree than a monic factor. *)
Lemma monic_multiple_zero g low r : Forall byte g → Forall byte low → Forall byte r →
  (length r ≤ length low)%nat → (length g + length low ≤ 256)%nat →
  (∀ x, byte x → mul (horner g x) (horner (monic low) x) = horner r x) → all_zero g ∧ all_zero r.
Proof.
  intros Hg Hl Hr Hrl Hlen Heq.
  assert (all_zero g) as Hz.
  2:{ split; [done|]. apply vanishing_zero; [done|lia|]. intros x Hx. rewrite <-Heq by done.
      rewrite horner_all_zero by done. apply mul_0_l. apply horner_mem; [|done].
      apply Forall_app. split; [done|repeat constructor; done]. }
  destruct (decide (all_zero g)) as [|Hnz]; [done|]. exfalso.
  assert (∃ g1 a n, g = g1 ++ a :: zeros n ∧ a ≠ 0) as (g1 & a & n & -> & Ha).
  { clear -Hnz. induction g as [|c g IH]; [by destruct Hnz; constructor|].
    destruct (decide (all_zero g)) as [Hz|Hz].
    - exists [], c, (length g). split; [by rewrite (all_zero_replicate g Hz) at 1|]. intros ->. apply Hnz. by constructor.
    - destruct (IH Hz) as (g1 & a & n & -> & Ha). by exists (c :: g1), a, n. }
  assert (Forall byte (g1 ++ [a])) as Hgb.
  { apply Forall_app in Hg as [Hg1 [Ha' _]%Forall_cons]. apply Forall_app. split; [done|by constructor]. }
  set (s := zip_with add (pmul_monic (g1 ++ [a]) low) (r ++ zeros (length (g1 ++ [a]) + length low - length r))).
  assert (length (pmul_monic (g1 ++ [a]) low) = length (r ++ zeros (length (g1 ++ [a]) + length low - length r))) as Hlen'.
  { rewrite pmul_monic_length, !length_app, zeros_length. simpl. lia. }
  assert (all_zero s) as Hs.
  { apply vanishing_zero.
    - apply zip_add_byte; [by apply pmul_monic_byte|by apply pad_byte].
    - unfold s. rewrite zip_add_len by done. rewrite <-Hlen', pmul_monic_length.
      rewrite length_app in *. simpl in *. rewrite zeros_length in Hlen. lia.
    - intros x Hx. unfold s. rewrite horner_xor by (done || by apply pmul_monic_byte || by apply pad_byte).
      rewrite horner_pmul_monic, horner_pad, <-Heq by done.
      assert (horner (g1 ++ a :: zeros n) x = horner (g1 ++ [a]) x) as ->; [|apply Z.lxor_nilpotent].
      rewrite (cons_middle a g1), app_assoc. by apply horner_pad. }
  set (n0 := (length g1 + length low)%nat).
  assert (nth n0 s 0 = a) as Hna.
  { assert (length (g1 ++ [a]) + length low = S n0)%nat as Hn0 by (unfold n0; rewrite length_app; simpl; lia).
    assert (length (pmul_monic (g1 ++ [a]) low) = S n0) as Hl1 by by rewrite pmul_monic_length.
    unfold s. rewrite nth_zip_with by lia. rewrite (app_nth2 r) by (unfold n0; lia). rewrite nth_zeros. unfold pmul_monic. rewrite nth_zip_with by
      (rewrite gf_pmul_length, ?length_app, ?zeros_length, ?length_app in *; simpl in *; lia).
    destruct (pmul_last (g1 ++ [a]) low ltac:(by destruct g1)) as [h Hh]. rewrite Hh.
    assert (length h = n0) as Hhl by (apply (f_equal length) in Hh; rewrite gf_pmul_length, (length_app h) in Hh; simpl in Hh; lia).
    rewrite <-Hhl at 1. rewrite nth_middle. rewrite app_assoc.
    replace n0 with (length (zeros (length low) ++ g1)) by (rewrite length_app, zeros_length; unfold n0; lia).
    rewrite nth_middle. unfold add. by rewrite Z.lxor_0_l, Z.lxor_0_r. }
  apply Ha. rewrite <-Hna, nth_lookup. destruct (s !! n0) as [y|] eqn:Ey; [|done].
  unfold all_zero in Hs. rewrite Forall_forall in Hs. by apply Hs, (list_elem_of_lookup_2 _ n0).
Qed.

(** ** Interpolation *)

(* the product of [X + a] *)
Fixpoint root_poly (xs : list Z) : list Z :=
  match xs with [] => [1] | a :: xs => let p := root_poly xs in zip_with add (map (mul a) p ++ [0]) (0 :: p) end.
Lemma root_poly_length xs : length (root_poly xs) = S (length xs).
Proof.
  induction xs as [|a xs IH]; [done|]. cbn [root_poly]. rewrite zip_add_len; cbn [length]; [by rewrite IH|].
  rewrite length_app, length_map. simpl. lia.
Qed.
Lemma root_poly_byte xs : Forall byte (root_poly xs).
Proof.
  induction xs as [|a xs IH]; [by repeat constructor|]. cbn [root_poly]. apply zip_add_byte; [|by constructor].
  apply (pad_byte 1), mul_map_byte.
Qed.
Lemma horner_root_poly a xs x : byte a → byte x → horner (root_poly (a :: xs)) x = mul (Z.lxor x a) (horner (root_poly xs) x).
Proof.
  intros Ha Hx. cbn [root_poly]. pose proof (root_poly_byte xs) as Hb. assert (byte (horner (root_poly xs) x)) by by apply horner_mem.
  rewrite horner_xor; [|rewrite length_app, length_map; simpl; lia|apply (pad_byte 1), mul_map_byte|by constructor|done].
  rewrite (horner_pad _ 1), horner_scale by (done || apply mul_map_byte). cbn [horner].
  rewrite Z.lxor_0_l, mul_lxor_l by bytes. apply Z.lxor_comm.
Qed.
Lemma root_poly_root xs x : Forall byte xs → x ∈ xs → horner (root_poly xs) x = 0.
Proof.
  induction 1 as [|a xs Ha Hxs IH]; intros Hin; [by apply elem_of_nil in Hin|].
  assert (byte x) as Hx by (assert (Forall byte (a :: xs)) as Hall by (by constructor); rewrite Forall_forall in Hall; auto).
  rewrite horner_root_poly by done. apply elem_of_cons in Hin as [->|Hin].
  - rewrite Z.lxor_nilpotent. apply mul_0_l, horner_mem; [apply root_poly_byte|done].
  - rewrite IH by done. apply mul_0_r. bytes.
Qed.
Lemma root_poly_nonroot xs x : Forall byte xs → byte x → x ∉ xs → horner (root_poly xs) x ≠ 0.
Proof.
  intros Hxs Hx. induction Hxs as [|a xs Ha Hxs IH]; intros Hin.
  { simpl. by rewrite mul_0_r. }
  apply not_elem_of_cons in Hin as [Hne Hin]. rewrite horner_root_poly by done.
  apply mul_nonzero; [bytes|apply horner_mem; [apply root_poly_byte|done]|by apply lxor_neq|by apply IH].
Qed.

Lemma interpolate xs v : NoDup xs → Forall byte xs → (∀ x, x ∈ xs → byte (v x)) →
  ∃ p, length p = length xs ∧ Forall byte p ∧ ∀ x, x ∈ xs → horner p x = v x.
Proof.
  induction 1 as [|a xs Hin _ IH]; intros Hxs Hv.
  { exists []. split; [done|]. split; [constructor|]. intros x Hx. by apply elem_of_nil in Hx. }
  apply Forall_cons in Hxs as [Ha Hxs]. destruct IH as (p & Hl & Hp & Hpv); [done|intros x Hx; apply Hv; by right|].
  set (n := root_poly xs). assert (byte (horner p a)) as Hpa by by apply horner_mem.
  assert (Forall byte n) as Hn by apply root_poly_byte. assert (byte (horner n a)) as Hna by by apply horner_mem.
  assert (byte (v a)) as Hva by (apply Hv; by left).
  destruct (div_spec (Z.lxor (v a) (horner p a)) (horner n a)) as (d & _ & Hd & Hm);
    [bytes|done|by apply root_poly_nonroot|].
  assert (length (p ++ [0]) = length (map (mul d) n)) as Hlen
    by (rewrite length_app, length_map; unfold n; rewrite root_poly_length; simpl; lia).
  exists (zip_with add (p ++ [0]) (map (mul d) n)). split.
  { rewrite zip_add_len, length_map by done. unfold n. by rewrite root_poly_length. }
  split; [apply zip_add_byte; [by apply (pad_byte 1)|apply mul_map_byte]|].
  intros x Hx. assert (byte x) as Hxb.
  { assert (Forall byte (a :: xs)) as Hall by by constructor. rewrite Forall_forall in Hall. auto. }
  rewrite horner_xor, (horner_pad p 1), horner_scale by (done || (by apply (pad_byte 1)) || apply mul_map_byte).
  apply elem_of_cons in Hx as [->|Hx].
  - rewrite Hm. xor_solve.
  - unfold n. rewrite root_poly_root, mul_0_r, Z.lxor_0_r by done. by apply Hpv.
Qed.

(** A monic polynomial of degree [k] with the given roots and few coefficients below the first. *)
Lemma locator errs k : NoDup errs → Forall byte errs → (length errs ≤ k)%nat →
  ∃ low, length low = length errs ∧ Forall byte low ∧
    ∀ x, x ∈ errs → horner (monic (low ++ zeros (k - length errs))) x = 0.
Proof.
  intros Hnd Hb Hk. destruct (interpolate errs (λ x, gpow x k) Hnd Hb) as (low & Hl & Hlow & Hx).
  { intros x Hx. apply gpow_byte. rewrite Forall_forall in Hb. auto. }
  exists low. split; [done|]. split; [done|]. intros x Hin.
  assert (byte x) as Hxb by (rewrite Forall_forall in Hb; auto).
  rewrite horner_monic by (done || by apply pad_byte). rewrite horner_pad, Hx by done.
  rewrite length_app, zeros_length. replace (length low + (k - length errs))%nat with k by lia. apply Z.lxor_nilpotent.
Qed.

(** ** Exact division *)

Lemma sanitize_last l c : c ≠ 0 → (length (l ++ [c]) ≤ POLY_CAP)%nat → sanitize (poly_of (l ++ [c])) = poly_of (l ++ [c]).
Proof.
  intros Hc Hl. unfold sanitize. rewrite as_slice_of, rev_app_distr. cbn [rev app leading_zeros].
  destruct (Z.eqb_spec c 0); [done|]. unfold poly_of. cbn [poly_data poly_len]. f_equal. rewrite length_app. simpl. lia.
Qed.
Lemma is_zero_sanitize l : (length l ≤ POLY_CAP)%nat → all_zero l → is_zero (sanitize (poly_of l)) = true.
Proof.
  intros Hl Hz. destruct (sanitize_of l Hl) as (k & n & Ek & -> & Hk & _). unfold is_zero. rewrite as_slice_of.
  apply forallb_forall. intros y Hy. apply Z.eqb_eq. assert (all_zero (l ++ [0])) as Ha
    by (apply Forall_app; split; [done|by constructor]).
  rewrite Ek in Ha. apply Forall_app in Ha as [Ha _]. rewrite Forall_forall in Ha. by apply Ha, list_elem_of_In.
Qed.
Lemma eval_sanitize l x : Forall byte l → byte x → (length l ≤ POLY_CAP)%nat → poly_eval (sanitize (poly_of l)) x = horner l x.
Proof.
  intros Hl Hx Hlen. destruct (sanitize_of l Hlen) as (k & n & Ek & -> & _).
  destruct (sanitize_horner l k n x Ek Hl Hx) as [Hk <-]. by rewrite poly_eval_horner; rewrite ?as_slice_of.
Qed.

(** Dividing a product by its monic factor gives the other factor. *)
Lemma div_exact p low : Forall byte p → Forall byte low → p ≠ [] → (length p + length low ≤ 255)%nat →
  ∃ q r, poly_div None (poly_of (pmul_monic p low)) (poly_of (monic low)) = Done (Some (q, r)) ∧ is_zero r = true ∧
    ∀ x, byte x → poly_eval q x = horner p x.
Proof.
  intros Hp Hlow Hne Hlen. set (l := pmul_monic p low).
  assert (length l = (length p + length low)%nat) as Hll by apply pmul_monic_length.
  assert (Forall byte l) as Hlb by by apply pmul_monic_byte.
  unfold poly_div, monic. rewrite sanitize_last by (done || (rewrite length_app; unfold POLY_CAP; simpl; lia)).
  destruct (sanitize_of l ltac:(unfold POLY_CAP; lia)) as (l' & n & El & -> & Hl' & Hl'len).
  destruct (sanitize_horner l l' n 0 El Hlb ltac:(done)) as [Hl'b _].
  destruct (div_loop_spec (S (length l')) l' low 1 [0]) as (qs & r & Hd & Hqs & Hr & Hlq & Hlr & Hx);
    [lia|lia|simpl; lia|done|apply Forall_app; split; [done|by repeat constructor]|done|].
  assert (Forall byte (rev qs)) as Hrq by by apply Forall_rev.
  assert (length l' ≤ length p + length low)%nat as Hl'p by (destruct p; [done|simpl in *; lia]).
  set (g := zip_with add (rev qs ++ zeros (length p - length qs)) p).
  assert (length (rev qs ++ zeros (length p - length qs)) = length p) as Hgl
    by (rewrite length_app, length_rev, zeros_length; lia).
  destruct (monic_multiple_zero g low r) as [Hg Hr0].
  { apply zip_add_byte; [by apply pad_byte|done]. }
  { done. } { done. } { lia. } { unfold g. rewrite zip_add_len; lia. }
  { intros x Hxb. unfold g. rewrite horner_xor, horner_pad by (done || by apply pad_byte).
    assert (Forall byte (monic low)) by (apply Forall_app; split; [done|by repeat constructor]).
    assert (byte (horner (rev qs) x)) by by apply horner_mem. assert (byte (horner p x)) by by apply horner_mem.
    assert (byte (horner (monic low) x)) by by apply horner_mem. assert (byte (horner r x)) by by apply horner_mem.
    rewrite mul_lxor_l by done. rewrite <-(horner_pmul_monic p low x) by done. fold l.
    destruct (sanitize_horner l l' n x El Hlb Hxb) as [_ <-]. rewrite (Hx x Hxb). unfold monic. xor_solve. }
  assert (∀ x, byte x → horner (rev qs) x = horner p x) as Hqp.
  { intros x Hxb. pose proof (horner_all_zero g x Hxb Hg) as H0. unfold g in H0.
    rewrite horner_xor, horner_pad in H0 by (done || by apply pad_byte). by apply Z.lxor_eq. }
  assert (∃ a l0, l' = a :: l0) as (a & l0 & Hcons).
  { destruct l' as [|a l0]; [|by eauto]. destruct Hl' as [[=]|(k0 & c & Hnil & _)]. by destruct k0. }
  assert (∃ b0 bs', low ++ [1] = b0 :: bs') as (b0 & bs' & Hb) by (destruct low; by eauto).
  rewrite !as_slice_of. change (poly_zero 1) with (poly_of [0]). simpl (poly_len (poly_of l')). rewrite Hd.
  rewrite Hb, Hcons. cbn [obind]. rewrite as_slice_of, with_slice_of by by rewrite length_rev.
  exists (sanitize (poly_of (rev ([0] ++ qs)))), (sanitize (poly_of r)). split; [done|].
  split; [apply is_zero_sanitize; [unfold POLY_CAP; lia|done]|]. intros x Hxb. cbn [app rev].
  rewrite eval_sanitize; [|by apply (pad_byte 1)|done|rewrite length_app, length_rev; unfold POLY_CAP; simpl; lia].
  rewrite (horner_pad _ 1) by done. by apply Hqp.
Qed.
