(* ===== verification/FecDecode.v ===== *)
(** The correction of damaged shares, [decode], [correct] and [berklekamp_welch] of
    [utils/berkleamp-welch/src/fec.rs]: what it repairs, and what it does not. *)

From S2P Require Import Prelude Galois Matrix Poly Fec Elimination PolyRoots.

Inductive BerklekampWelchError := BNotEnoughShares | BInvertMatrix | DivPoly | CannotRecover.
Inductive SyndromeMatrixError := FailedToStandardize.
Inductive CorrectError :=
  InvalidShares (l : list Z) | SyndromeMatrix (e : SyndromeMatrixError) | BerklekampWelch (e : BerklekampWelchError).
Inductive ResourcesError := DuplicateShares | RNotEnoughShares | RNotEqualLengths.
Inductive DecodeError := InitResources (e : ResourcesError) | Correct (e : CorrectError) | Rebuild (e : RebuildError).

(* galois::exp for an exponent that need not be small *)
Definition exp_usize (a n : Z) : Z :=
  if n =? 0 then 1 else if a =? 0 then 0 else index EXP_TABLE ((index LOG_TABLE a * n) mod 255).
Definition interp_base : Z := 2.
Definition eval_point (num : Z) : Z := if num =? 0 then 0 else exp_usize interp_base (num - 1).

(** The sizes of the buffers that [Resources::new] zeroes and cuts up. *)
Record Resources := { share_len : nat; rs_e : nat; rs_q : nat }.

Fixpoint duplicates (l : list Share) : bool :=
  match l with a :: (b :: _) as l => bool_decide (number a = number b) || duplicates l | _ => false end.
Definition resources_new (required : nat) (shares : list Share) :
    outcome (result (list Share * Resources) ResourcesError) :=
  let shares := sort_by_key number shares in
  if duplicates shares then Done (Err DuplicateShares)
  else if decide (length shares < required)%nat then Done (Err RNotEnoughShares)
  else
    try! s0 := unwrap (shares !! 0%nat) in
    let share_len := length (share_data s0) in
    if decide (Exists (λ s, length (share_data s) ≠ share_len) shares) then Done (Err RNotEqualLengths)
    else
      let e := ((length shares - required) / 2)%nat in
      if decide (e = 0)%nat then Done (Err RNotEnoughShares)
      else Done (Ok (shares, {| share_len := share_len; rs_e := e; rs_q := e + required |})).

(* the columns of the shares that are there; a number past the end is out of range *)
Definition kept_columns (total : nat) (shares : list Share) : list nat :=
  List.filter (λ col, existsb (λ s, number s =? Z.of_nat col) shares) (range 0 total).

Section target.
Context (t : Target).

Definition syndrome_matrix (f : Fec) (shares : list Share) : outcome Matrix :=
  try! _ := assert_that (Forall (λ s, 0 ≤ number s < Z.of_nat (total f)) shares) in
  let out := map (λ row, map (entry (vand_matrix f) row) (kept_columns (total f) shares)) (range 0 (required f)) in
  try! out := standardize_matrix t (required f) (length shares) out in
  let n := length shares in
  parity_matrix (required f) n out (replicate (n - required f) (zeros n)).

(* debug: whether debug assertions are checked *)

(* row of the system for one share: powers of its point, then times what was received *)
Definition bw_row (e q : nat) (x_i r_i : Z) : list Z :=
  map (exp x_i) (range 0 q) ++ map (λ k, mul (exp x_i k) r_i) (range 0 e).

Definition berklekamp_welch (debug : bool) (f : Fec) (res : Resources) (shares : list Share) (j : nat) :
    outcome (result (list Z) BerklekampWelchError) :=
  let e := rs_e res in
  let q := rs_q res in
  let dim := (q + e)%nat in
  let shares := take dim shares in
  try! _ := assert_that (Forall (λ s, j < length (share_data s))%nat shares) in
  let x_i s := eval_point (number s) in
  let r_i s := nth j (share_data s) 0 in
  let f_ := map (λ s, mul (exp (x_i s) e) (r_i s)) shares in
  let s := map (λ s, bw_row e q (x_i s) (r_i s)) shares in
  let a := map (λ i, <[i:=1]> (zeros dim)) (range 0 dim) in
  try! sa := invert_matrix_with t debug dim s a in
  let u := map (λ ri, fold_left add (zip_with mul ri f_) 0) sa.2 in
  try! q_poly := poly_from_iter (take q u) in
  try! e_poly := poly_from_iter (drop q u ++ [1]) in
  try! d := poly_div t q_poly e_poly in
  match d with
  | None => Done (Err DivPoly)
  | Some (p_poly, rem) =>
      if negb (is_zero rem) then Done (Err CannotRecover)
      else Done (Ok (map (λ i, poly_eval p_poly (eval_point (Z.of_nat i))) (range 0 (total f))))
  end.

(* the number is flipped the first time, whether the share was damaged or not *)
Fixpoint write_correction (f : Fec) (j : nat) (correction : list Z) (shares : list Share) : outcome (list Share) :=
  match shares with
  | [] => Done []
  | s :: shares =>
      let number := if decide (number s < Z.of_nat (total f)) then USIZE_MAX - number s else number s in
      try! c := unwrap (correction !! Z.to_nat (USIZE_MAX - number)) in
      try! _ := assert_that (j < length (share_data s))%nat in
      try! shares := write_correction f j correction shares in
      Done ({| number := number; share_data := <[j:=c]> (share_data s) |} :: shares)
  end.

(* the columns of one row of the parity check that are not zero *)
Fixpoint correct_columns (debug : bool) (f : Fec) (res : Resources) (js : list nat) (shares : list Share) :
    outcome (result (list Share) BerklekampWelchError) :=
  match js with
  | [] => Done (Ok shares)
  | j :: js =>
      try! r := berklekamp_welch debug f res shares j in
      match r with
      | Err e => Done (Err e)
      | Ok correction =>
          try! shares := write_correction f j correction shares in
          correct_columns debug f res js shares
      end
  end.
Definition damaged_columns (buf : list Z) : list nat := List.filter (λ j, negb (nth j buf 0 =? 0)) (range 0 (length buf)).
Fixpoint correct_rows (debug : bool) (f : Fec) (res : Resources) (synd : Matrix) (shares : list Share) :
    outcome (result (list Share) BerklekampWelchError) :=
  match synd with
  | [] => Done (Ok shares)
  | row :: synd =>
      try! buf := add_blocks t row (map share_data shares) (zeros (share_len res)) in
      try! r := correct_columns debug f res (damaged_columns buf) shares in
      match r with Err e => Done (Err e) | Ok shares => correct_rows debug f res synd shares end
  end.

Definition correct (debug : bool) (f : Fec) (shares : list Share) (report_invalid : bool) (res : Resources) :
    outcome (result (list Share) CorrectError) :=
  try! synd := syndrome_matrix f shares in
  try! r := correct_rows debug f res synd shares in
  match r with
  | Err e => Done (Err (BerklekampWelch e))
  | Ok shares =>
      let shares := sort_by_key number shares in
      let valid_count := count_while (λ s, number s <? Z.of_nat (total f)) shares in
      let invalid := map (λ s, {| number := USIZE_MAX - number s; share_data := share_data s |}) (drop valid_count shares) in
      let shares := take valid_count shares ++ invalid in
      if report_invalid && negb (valid_count =? length shares)%nat then Done (Err (InvalidShares (map number invalid)))
      else Done (Ok shares)
  end.

Definition decode (debug : bool) (f : Fec) (shares : list Share) (report_invalid : bool) : outcome (result (list Share) DecodeError) :=
  try! r := resources_new (required f) shares in
  match r with
  | Err e => Done (Err (InitResources e))
  | Ok (shares, allocs) =>
      try! r := correct debug f shares report_invalid allocs in
      match r with
      | Err e => Done (Err (Correct e))
      | Ok shares =>
          try! r := rebuild t f shares in
          Done (match r with Err e => Err (Rebuild e) | Ok shares => Ok shares end)
      end
  end.
End target.

(** ** The linear system of a column *)

Lemma exp_gpow a n : byte a → exp a n = gpow a n.
Proof. apply exp_iter. Qed.
Lemma dot_powers x s n l : byte x → Forall byte l → length l = n →
  dot (map (exp x) (seq s n)) l = mul (gpow x s) (horner l x).
Proof.
  intros Hx Hl. revert s n. induction Hl as [|a l Ha Hl IH]; intros s n Hn; subst n; cbn [length seq map].
  { change (0 = mul (gpow x s) 0). by rewrite mul_0_r by bytes. }
  rewrite dot_cons, (IH (S s)), exp_gpow by done. cbn [horner]. assert (byte (horner l x)) by by apply horner_mem.
  rewrite mul_lxor_r by bytes. f_equal. rewrite gpow_S, mul_assoc by bytes. by rewrite (mul_comm x (gpow x s)) by bytes.
Qed.
Lemma dot_powers_times x r s n l : byte x → byte r → Forall byte l → length l = n →
  dot (map (λ k, mul (exp x k) r) (seq s n)) l = mul r (mul (gpow x s) (horner l x)).
Proof.
  intros Hx Hr Hl Hn. rewrite <-(dot_powers x s n l) by done.
  rewrite <-(dot_map_scale r (map (exp x) (seq s n))); [|done| |done].
  - f_equal. rewrite map_map. apply map_ext. intros k. rewrite exp_gpow by done. apply mul_comm; bytes.
  - apply Forall_map, Forall_forall. intros k _. simpl. rewrite exp_gpow by done. bytes.
Qed.

Lemma nth_app_zero (a b : list Z) i : nth i (a ++ b) 0 = if decide (i < length a)%nat then nth i a 0 else nth (i - length a) b 0.
Proof. case_decide; [by apply app_nth1|apply app_nth2; lia]. Qed.
Lemma all_zero_nth (a : list Z) : all_zero a ↔ ∀ i, nth i a 0 = 0.
Proof.
  split.
  - intros Hz i. rewrite (all_zero_replicate a Hz). apply nth_zeros.
  - intros Hz. apply Forall_lookup_2. intros i x Hx. rewrite <-(Hz i). by rewrite (nth_lookup_Some _ _ _ _ Hx).
Qed.

Section system.
Context (l : list (Z * Z)) (P : list Z) (e k : nat).
Notation q := (e + k)%nat.
Notation dim := (e + k + e)%nat.
Context (Hlen : length l = dim) (Hnd : NoDup l.*1) (Hl : Forall (λ p, byte p.1 ∧ byte p.2) l).
Context (HP : length P = k) (HPb : Forall byte P).
(** the points with the value of [P], and the others *)
Definition right (p : Z * Z) : Prop := p.2 = horner P p.1.
#[global] Instance right_dec p : Decision (right p).
Proof. unfold right. apply _. Defined.
Notation good := (filter right l).
Notation errs := (filter (λ p, ¬ right p) l).
Context (Herr : (length errs ≤ e)%nat) (Hsize : (k + e ≤ 255)%nat) (Hk : (0 < k)%nat).
Notation m := (length errs).
Notation rows := (map (λ p, bw_row e q p.1 p.2) l).
Notation units := (map (λ i, <[i:=1]> (zeros dim)) (range 0 dim)).
Notation rhs := (map (λ p, mul (exp p.1 e) p.2) l).

Lemma point_bytes p : p ∈ l → byte p.1 ∧ byte p.2.
Proof. intros Hp. rewrite Forall_forall in Hl. auto. Qed.
Lemma good_bad_length : (length good + m = dim)%nat.
Proof.
  rewrite <-Hlen. clear. induction l as [|p l' IH]; [done|]. rewrite !filter_cons.
  destruct (decide (right p)), (decide (¬ right p)); try done; simpl; lia.
Qed.
Lemma filter_points (R : Z * Z → Prop) `{!∀ p, Decision (R p)} : NoDup (filter R l).*1 ∧ Forall byte (filter R l).*1.
Proof.
  split; [eapply sublist_NoDup; [exact Hnd|]; apply fmap_sublist, sublist_filter|].
  apply Forall_fmap, Forall_forall. intros p [_ Hp]%list_elem_of_filter. by apply point_bytes.
Qed.
Lemma good_point p : p ∈ l → right p → p.1 ∈ good.*1.
Proof. intros Hp Hr. apply list_elem_of_fmap. exists p. split; [done|]. by apply list_elem_of_filter. Qed.
Lemma bad_point p : p ∈ l → ¬ right p → p.1 ∈ errs.*1.
Proof. intros Hp Hr. apply list_elem_of_fmap. exists p. split; [done|]. by apply list_elem_of_filter. Qed.

Lemma rows_mat : mat dim dim rows ∧ mat dim dim units.
Proof.
  split; (split; [split|]).
  - by rewrite length_map.
  - apply Forall_map, Forall_forall. intros p _. unfold bw_row, range. rewrite length_app, !length_map, !length_seq. lia.
  - apply Forall_map, Forall_forall. intros p Hp%point_bytes. simpl. unfold bw_row. apply Forall_app.
    split; apply Forall_map, Forall_forall; intros i _; simpl; [|apply mul_any_byte].
    rewrite exp_gpow by apply Hp. apply gpow_byte, Hp.
  - unfold range. rewrite length_map, length_seq. lia.
  - apply Forall_map, Forall_forall. intros i _. by rewrite length_insert, zeros_length.
  - apply Forall_map, Forall_forall. intros i _. apply (unit_row_byte dim).
Qed.
Lemma rows_ok : pair_ok dim (rows, units).
Proof. apply rows_mat. Qed.
Lemma row_units j : (j < dim)%nat → row units j = unit_row dim j.
Proof.
  intros Hj. unfold row. rewrite nth_lookup, list_lookup_fmap. unfold range. rewrite lookup_seq_lt by lia. done.
Qed.

(* what it means to be orthogonal to the system and the identity beside it *)
Lemma row_equation j Q L y p : l !! j = Some p → length Q = q → length L = e → length y = dim →
  Forall byte Q → Forall byte L → Forall byte y →
  dot (row (beside (rows, units)) j) (Q ++ L ++ y) =
    Z.lxor (Z.lxor (horner Q p.1) (mul p.2 (horner L p.1))) (nth j y 0).
Proof.
  intros Hp HQ HL Hy HQb HLb Hyb. pose proof (lookup_lt_Some _ _ _ Hp) as Hj. rewrite Hlen in Hj.
  assert (p ∈ l) as Hin by by eapply list_elem_of_lookup_2. destruct (point_bytes p Hin) as [Hx Hr].
  rewrite (row_beside dim) by (apply rows_ok || done). cbn [fst snd]. rewrite row_units by done.
  assert (row rows j = bw_row e q p.1 p.2) as ->.
  { unfold row. rewrite nth_lookup, list_lookup_fmap, Hp. done. }
  unfold bw_row. rewrite <-app_assoc. unfold range. rewrite !Nat.sub_0_r.
  rewrite dot_app by by rewrite length_map, length_seq. rewrite dot_app by by rewrite length_map, length_seq.
  rewrite dot_powers, dot_powers_times by done. rewrite (dot_comm (unit_row dim j)) by (done || apply unit_row_byte).
  rewrite dot_unit by done. assert (byte (horner Q p.1)) by by apply horner_mem. assert (byte (horner L p.1)) by by apply horner_mem.
  change (gpow p.1 0) with 1. rewrite !mul_1_l by done. xor_solve.
Qed.
Lemma in_kernel Q L y : length Q = q → length L = e → length y = dim → Forall byte Q → Forall byte L → Forall byte y →
  kernel dim (beside (rows, units)) (Q ++ L ++ y) ↔
  ∀ j p, l !! j = Some p → Z.lxor (horner Q p.1) (mul p.2 (horner L p.1)) = nth j y 0.
Proof.
  intros HQ HL Hy HQb HLb Hyb. split.
  - intros Hk' j p Hp. pose proof (lookup_lt_Some _ _ _ Hp) as Hj. rewrite Hlen in Hj.
    pose proof (Hk' j Hj) as H0. rewrite (row_equation j Q L y p) in H0 by done. by apply Z.lxor_eq.
  - intros He j Hj. destruct (lookup_lt_is_Some_2 l j) as [p Hp]; [lia|]. rewrite (row_equation j Q L y p) by done.
    rewrite (He j p Hp). apply Z.lxor_nilpotent.
Qed.

(** Only polynomials that vanish at the errors solve the homogeneous system. *)
Lemma columns_independent : independent dim (dim + dim) (q + m) (beside (rows, units)).
Proof.
  intros w Hw Hwb Hwz Hker.
  set (Q := take q w). set (L := take e (drop q w)). set (y := drop dim w).
  assert (w = Q ++ L ++ y) as Ew.
  { unfold Q, L, y. assert (drop dim w = drop e (drop q w)) as -> by by rewrite drop_drop. by rewrite !take_drop. }
  assert (length Q = q) as HQ by (unfold Q; rewrite length_take; lia).
  assert (length L = e) as HLl by (unfold L; rewrite length_take, length_drop; lia).
  assert (length y = dim) as Hy by (unfold y; rewrite length_drop; lia).
  assert (Forall byte Q ∧ Forall byte L ∧ Forall byte y) as (HQb & HLb & Hyb)
    by (rewrite Ew in Hwb; by rewrite !Forall_app in Hwb).
  rewrite Ew in Hker. rewrite in_kernel in Hker by done.
  assert (∀ i, nth i y 0 = 0) as Hy0.
  { intros i. pose proof (Hwz (dim + i)%nat ltac:(lia)) as Hi. rewrite Ew, !nth_app_zero, HQ, HLl in Hi.
    rewrite !decide_False in Hi by lia. by replace (dim + i - q - e)%nat with i in Hi by lia. }
  assert (∀ i, (m ≤ i)%nat → nth i L 0 = 0) as HL0.
  { intros i Hi. destruct (decide (i < e)%nat); [|by apply nth_overflow; lia].
    pose proof (Hwz (q + i)%nat ltac:(lia)) as Hqi. rewrite Ew, nth_app_zero, HQ, decide_False in Hqi by lia.
    rewrite nth_app_zero, HLl, decide_True in Hqi by lia. by replace (q + i - q)%nat with i in Hqi by lia. }
  set (Lm := take m L). assert (L = Lm ++ zeros (e - m)) as EL.
  { apply (nth_ext _ _ 0 0).
    - unfold Lm. rewrite length_app, length_take, zeros_length. lia.
    - intros i Hi. unfold Lm. rewrite nth_app_zero, length_take. case_decide.
      + rewrite !nth_lookup, lookup_take_lt by lia. done.
      + rewrite nth_zeros. apply HL0. lia. }
  assert (Forall byte Lm) as HLmb by by apply Forall_take.
  assert (length Lm = m) as HLm by (unfold Lm; rewrite length_take; lia).
  assert (∀ x, byte x → horner L x = horner Lm x) as HLx by (intros x Hx; rewrite EL; by apply horner_pad).
  assert (∀ p, p ∈ l → horner Q p.1 = mul p.2 (horner L p.1)) as Heq.
  { intros p [j Hj]%list_elem_of_lookup_1. apply Z.lxor_eq. by rewrite (Hker j p Hj). }
  set (G := zip_with add Q (pmul P Lm ++ zeros (e - m))).
  assert (length Q = length (pmul P Lm ++ zeros (e - m))) as HG by (rewrite length_app, gf_pmul_length, zeros_length; lia).
  assert (Forall byte G) as HGb by (apply zip_add_byte; [done|apply pad_byte, pmul_byte]).
  assert (∀ x, byte x → horner G x = Z.lxor (horner Q x) (mul (horner P x) (horner L x))) as HGx.
  { intros x Hx. unfold G. rewrite horner_xor by (done || apply pad_byte, pmul_byte).
    rewrite horner_pad, horner_pmul, HLx by (done || apply pmul_byte). done. }
  assert (all_zero G) as HGz.
  { destruct (filter_points right) as [Hn Hb]. apply (roots_zero G good.*1); [done|done|done| |].
    - unfold G. rewrite zip_add_len by done. rewrite <-HG, HQ. pose proof good_bad_length. rewrite length_fmap. lia.
    - intros x Hx. apply list_elem_of_fmap in Hx as (p & -> & [Hr Hp]%list_elem_of_filter).
      destruct (point_bytes p Hp). rewrite HGx, Heq by done. unfold right in Hr. rewrite Hr. apply Z.lxor_nilpotent. }
  assert (∀ x, byte x → horner Q x = mul (horner P x) (horner L x)) as HQx.
  { intros x Hx. apply Z.lxor_eq. rewrite <-HGx by done. by apply horner_all_zero. }
  assert (all_zero Lm) as HLz.
  { destruct (filter_points (λ p, ¬ right p)) as [Hn Hb].
    apply (roots_zero Lm errs.*1); [done|done|done|rewrite length_fmap; lia|].
    intros x Hx. apply list_elem_of_fmap in Hx as (p & -> & [Hr Hp]%list_elem_of_filter).
    destruct (point_bytes p Hp) as [Hx Hp2]. rewrite <-HLx by done.
    pose proof (Heq p Hp) as H0. rewrite HQx in H0 by done. apply dec_stable. intros Hne. apply Hr. unfold right.
    assert (byte (horner P p.1)) by by apply horner_mem. assert (byte (horner L p.1)) by by apply horner_mem.
    symmetry. apply Z.lxor_eq. apply dec_stable. intros Hne2.
    apply (mul_nonzero (Z.lxor (horner P p.1) p.2) (horner L p.1)); [bytes|done|done|done|].
    rewrite mul_lxor_l by done. rewrite H0. apply Z.lxor_nilpotent. }
  assert (all_zero L) as HLzz by (rewrite EL; apply Forall_app; split; [done|by apply Forall_replicate]).
  assert (all_zero Q) as HQz.
  { apply vanishing_zero; [done|lia|]. intros x Hx. rewrite HQx, (horner_all_zero L) by done.
    apply mul_0_r. by apply horner_mem. }
  apply all_zero_nth. rewrite Ew. apply Forall_app. split; [done|]. apply Forall_app. split; [done|]. by apply all_zero_nth.
Qed.

(* the locator of the errors, of degree [d] *)
Lemma locate d : (m ≤ d)%nat → ∃ low, length low = m ∧ Forall byte low ∧
  ∀ p, p ∈ l → ¬ right p → horner (monic (low ++ zeros (d - m))) p.1 = 0.
Proof.
  intros Hd. destruct (filter_points (λ p, ¬ right p)) as [Hn Hb].
  destruct (locator errs.*1 d Hn Hb) as (low & Hlow & Hlb & Hz); rewrite ?length_fmap in *; [done|].
  exists low. split; [done|]. split; [done|]. intros p Hp Hr. apply Hz. by apply bad_point.
Qed.
(* where the locator does not vanish, what was received is the value of [P] *)
Lemma received_times low d p : Forall byte low → p ∈ l → (¬ right p → horner (monic (low ++ zeros d)) p.1 = 0) →
  mul p.2 (horner (monic (low ++ zeros d)) p.1) = horner (pmul_monic P (low ++ zeros d)) p.1.
Proof.
  intros Hlb Hp Hz. destruct (point_bytes p Hp). rewrite horner_pmul_monic by (done || by apply pad_byte).
  destruct (decide (right p)) as [Hr|Hr]; [by rewrite <-Hr|]. rewrite Hz by done.
  rewrite !mul_0_r; [done|by apply horner_mem|done].
Qed.

Lemma columns_dependent i : (q + m ≤ i < dim)%nat → dependent dim (dim + dim) (q + m) i (beside (rows, units)).
Proof.
  intros Hi. set (d := (i - q)%nat). destruct (locate d) as (low & Hlow & Hlb & Hz); [lia|].
  set (lz := low ++ zeros (d - m)). assert (length lz = d) as Hlz by (unfold lz; rewrite length_app, zeros_length; lia).
  assert (Forall byte lz) as Hlzb by by apply pad_byte.
  set (Q := pmul_monic P lz ++ zeros (q - k - d)). set (L := monic lz ++ zeros (e - S d)).
  assert (length Q = q) as HQ by (unfold Q; rewrite length_app, pmul_monic_length, zeros_length; lia).
  assert (length L = e) as HL by (unfold L, monic; rewrite !length_app, zeros_length; simpl; lia).
  assert (Forall byte (monic lz)) as Hmb by (apply Forall_app; split; [done|by repeat constructor]).
  exists (Q ++ L ++ zeros dim). split_and!.
  - rewrite !length_app, zeros_length. lia.
  - apply Forall_app. split; [by apply pad_byte, pmul_monic_byte|]. apply Forall_app. split; [by apply pad_byte|apply zeros_byte].
  - rewrite nth_app_zero, HQ, decide_False by lia. rewrite nth_app_zero, HL, decide_True by lia. fold d.
    unfold L, monic. rewrite <-app_assoc, nth_app_zero, Hlz, decide_False, Nat.sub_diag by lia. done.
  - intros j Hj Hne. rewrite nth_app_zero, HQ, decide_False by lia. rewrite nth_app_zero, HL.
    case_decide; [|apply nth_zeros]. unfold L, monic. rewrite nth_app_zero, length_app. cbn [length]. case_decide; [|apply nth_zeros].
    rewrite nth_app_zero, Hlz. case_decide as Hjd; [|lia]. unfold lz. rewrite nth_app_zero, decide_False by lia. apply nth_zeros.
  - apply in_kernel; [done|done|apply zeros_length|by apply pad_byte, pmul_monic_byte|by apply pad_byte|apply zeros_byte|].
    intros j p Hp. rewrite nth_zeros. assert (p ∈ l) as Hin by by eapply list_elem_of_lookup_2.
    destruct (point_bytes p Hin). unfold Q, L. rewrite !horner_pad by (done || by apply pmul_monic_byte).
    unfold lz. rewrite received_times by (done || by apply Hz). apply Z.lxor_nilpotent.
Qed.

(* a diagonal that ends in zeros *)
Lemma singular_asserted (debug : bool) (s' : Matrix * Matrix) :
  (∀ i, (i < dim)%nat → entry s'.1 i i = if decide (i < q + m)%nat then 1 else 0) →
  (try! _ := debug_assert debug (Forall (λ i, entry s'.1 i i = 1) (range 0 dim)) in Done s') =
    if debug && (m <? e)%nat then Panic else Done s'.
Proof.
  intros Hd. destruct debug; [|done]. cbn [debug_assert andb]. unfold assert_that.
  destruct (Nat.ltb_spec m e) as [Hlt|Hge].
  - rewrite decide_False; [done|]. rewrite Forall_forall. intros Hall.
    assert (entry s'.1 (q + m) (q + m) = 1) as H1 by (apply Hall, range_elem; lia).
    rewrite Hd, decide_False in H1 by lia. done.
  - rewrite decide_True; [done|]. apply Forall_forall. intros i Hi%range_elem. rewrite Hd, decide_True by lia. done.
Qed.

(** The elimination finds the locator of the errors and its product with [P]. With fewer errors than
    there could be the system is singular, which a debug assertion takes for a bug. *)
Lemma system_solved (debug : bool) : ∃ s' low,
  invert_matrix_with None debug dim rows units = (if debug && (m <? e)%nat then Panic else Done s') ∧
  length low = e ∧ Forall byte low ∧ map (λ ri, dot ri rhs) s'.2 = pmul_monic P low ++ low.
Proof.
  destruct rows_mat as [Hrm Hum]. destruct (invert_with_standardize dim debug rows units Hrm Hum) as (s' & Hinv & Hstd & Hs').
  destruct (standardize_spec dim (dim + dim) (q + m) ltac:(lia) (beside (rows, units))) as (mx' & Hstd' & Hops & Hid & Hlow0).
  { apply (beside_mat dim), rows_ok. } { apply columns_independent. } { apply columns_dependent. }
  rewrite Hstd in Hstd'. injection Hstd' as <-.
  destruct (locate e Herr) as (low & Hlow & Hlb & Hz). set (lz := low ++ zeros (e - m)) in *.
  assert (length lz = e) as Hlz by (unfold lz; rewrite length_app, zeros_length; lia).
  assert (Forall byte lz) as Hlzb by by apply pad_byte.
  assert (∀ i, (i < dim)%nat → entry s'.1 i i = if decide (i < q + m)%nat then 1 else 0) as Hdiag.
  { intros i Hi. rewrite <-(entry_beside dim) by done. case_decide; [by rewrite Hid, decide_True by lia|apply Hlow0; lia]. }
  exists s', lz. split; [rewrite Hinv; by apply singular_asserted|]. split; [done|]. split; [done|].
  set (Q := pmul_monic P lz). assert (length Q = q) as HQ by (unfold Q; rewrite pmul_monic_length; lia).
  assert (Forall byte Q) as HQb by by apply pmul_monic_byte.
  assert (length rhs = dim) as Hrl by by rewrite length_map.
  assert (Forall byte rhs) as Hrb by (apply Forall_map, Forall_forall; intros p _; apply mul_any_byte).
  assert (kernel dim (beside (rows, units)) (Q ++ lz ++ rhs)) as Hk0.
  { apply in_kernel; try done. intros j p Hp. assert (p ∈ l) as Hin by by eapply list_elem_of_lookup_2.
    destruct (point_bytes p Hin) as [Hx Hr]. rewrite nth_lookup, list_lookup_fmap, Hp. simpl.
    unfold Q, lz. rewrite <-received_times by (done || by apply Hz). fold lz.
    rewrite horner_monic, Hlz, exp_gpow by done. assert (byte (horner lz p.1)) by by apply horner_mem.
    rewrite mul_lxor_r by bytes. rewrite (mul_comm (gpow p.1 e)) by bytes. xor_solve. }
  assert (Forall byte (Q ++ lz ++ rhs)) as Hwb by by rewrite !Forall_app.
  pose proof (row_ops_kernel dim (dim + dim) _ _ _ (beside_mat dim _ rows_ok) Hwb Hops Hk0) as Hk1.
  destruct Hs' as [Hm1 Hm2]. pose proof Hm2 as [[Hl2 _] _].
  assert (length (Q ++ lz) = dim) as Hzl by (rewrite length_app; lia).
  assert (∀ i, (q + m ≤ i)%nat → nth i (Q ++ lz) 0 = 0) as Hz0.
  { intros i Hi. rewrite nth_app_zero, decide_False by lia. unfold lz. rewrite nth_app_zero, decide_False by lia. apply nth_zeros. }
  apply (nth_ext _ _ 0 0); [by rewrite length_map, Hl2|]. intros j Hj. rewrite length_map, Hl2 in Hj.
  rewrite nth_lookup, list_lookup_fmap, (row_lookup s'.2) by lia. simpl.
  pose proof (Hk1 j Hj) as Hkj. rewrite (row_beside dim) in Hkj by done.
  destruct (mat_row _ _ _ j Hm1 Hj) as [Hr1 Hr1b]. rewrite (app_assoc Q), dot_app in Hkj by congruence.
  apply Z.lxor_eq in Hkj. rewrite <-Hkj.
  assert (∀ i, i ≠ j → nth i (row s'.1 j) 0 = 0 ∨ nth i (Q ++ lz) 0 = 0) as Honly.
  { intros i Hij. destruct (decide (i < q + m)%nat); [left|right; apply Hz0; lia].
    change (nth i (row s'.1 j) 0) with (entry s'.1 j i). rewrite <-(entry_beside dim) by (done || lia).
    rewrite Hid by lia. by rewrite decide_False by congruence. }
  rewrite (dot_only j) by (congruence || done || by rewrite Forall_app).
  destruct (decide (j < q + m)%nat) as [Hjm|Hjm].
  - change (nth j (row s'.1 j) 0) with (entry s'.1 j j). rewrite <-(entry_beside dim) by (done || lia).
    rewrite Hid, decide_True by lia. apply mul_1_l. apply nth_byte. by rewrite Forall_app.
  - rewrite Hz0 by lia. apply mul_0_r. by apply nth_byte.
Qed.
End system.

(** ** The points of the shares *)

Lemma eval_point_exp n : eval_point (Z.of_nat n) = match n with O => 0 | S n => exp interp_base n end.
Proof.
  unfold eval_point, exp_usize, exp. destruct n as [|n]; [done|]. destruct (Z.eqb_spec (Z.of_nat (S n)) 0); [lia|].
  replace (Z.of_nat (S n) - 1) with (Z.of_nat n) by lia. by destruct n as [|n].
Qed.
Lemma eval_point_byte n : byte (eval_point (Z.of_nat n)).
Proof. rewrite eval_point_exp. destruct n as [|n]; [done|]. rewrite exp_gpow by done. by apply gpow_byte. Qed.
Lemma eval_points_nodup : NoDup (map (λ n, eval_point (Z.of_nat n)) (seq 0 256)).
Proof. decided. Qed.
Lemma eval_point_inj a b : (a < 256)%nat → (b < 256)%nat → eval_point (Z.of_nat a) = eval_point (Z.of_nat b) → a = b.
Proof.
  intros Ha Hb He. apply (NoDup_lookup _ a b (eval_point (Z.of_nat a)) eval_points_nodup);
    rewrite list_lookup_fmap, lookup_seq_lt by done; [done|]. simpl. by rewrite He.
Qed.

(** [P] at the point of every share of the code, a column of the code word. *)
Definition values (P : list Z) (n : nat) : list Z := map (λ i, horner P (eval_point (Z.of_nat i))) (range 0 n).
(** the share has a byte [j] that is not the one of the code word *)
Definition wrong (P : list Z) (j : nat) (s : Share) : Prop := nth j (share_data s) 0 ≠ horner P (eval_point (number s)).
#[global] Instance wrong_dec P j s : Decision (wrong P j s).
Proof. unfold wrong. apply _. Defined.
Definition share_ok (n : nat) (s : Share) : Prop := 0 ≤ number s < 256 ∧ length (share_data s) = n ∧ Forall byte (share_data s).

Definition received (j : nat) (s : Share) : Z * Z := (eval_point (number s), nth j (share_data s) 0).

Lemma share_point n s : share_ok n s → byte (eval_point (number s)).
Proof. intros [Hs _]. rewrite <-(Z2Nat.id (number s)) by lia. apply eval_point_byte. Qed.
Lemma received_bytes n j shares : Forall (share_ok n) shares → Forall (λ p, byte p.1 ∧ byte p.2) (map (received j) shares).
Proof.
  intros Hs. apply Forall_map. eapply Forall_impl; [exact Hs|]. intros s Hok. split; [by eapply share_point|].
  by apply nth_byte, Hok.
Qed.
Lemma received_nodup n j shares : Forall (share_ok n) shares → NoDup (map number shares) → NoDup (map (received j) shares).*1.
Proof.
  intros Hs Hnd. rewrite <-list_fmap_compose. apply (NoDup_fmap_1 number) in Hnd as Hnd'. clear Hnd'.
  induction Hs as [|s shares Hok Hs IH]; [constructor|]. cbn [map] in *. apply NoDup_cons in Hnd as [Hin Hnd].
  constructor; [|by apply IH]. intros (s' & He & Hs')%list_elem_of_fmap. apply Hin. apply list_elem_of_fmap.
  exists s'. split; [|done]. rewrite Forall_forall in Hs. destruct (Hs s' Hs') as [Hr' _], Hok as [Hr _]. simpl in He.
  rewrite <-(Z2Nat.id (number s)), <-(Z2Nat.id (number s')) in He |- * by lia.
  f_equal. apply eval_point_inj; [lia..|done].
Qed.
Lemma received_wrong P j shares :
  length (filter (λ p, ¬ right P p) (map (received j) shares)) = length (filter (wrong P j) shares).
Proof.
  induction shares as [|s shares IH]; [done|]. cbn [map]. rewrite !filter_cons.
  destruct (decide (¬ right P (received j s))) as [Hr|Hr], (decide (wrong P j s)) as [Hw|Hw]; simpl; by rewrite ?IH.
Qed.

Lemma fold_add_dot (a b : list Z) : fold_left add (zip_with mul a b) 0 = dot a b.
Proof. unfold dot. generalize (zip_with mul a b). intros l. induction l as [|x l IH]; [done|]. simpl. rewrite fold_add_acc, IH. done. Qed.

(** With at most [e] wrong bytes among the first shares, [berklekamp_welch] gives the whole column;
    with fewer, a build with debug assertions panics. *)
Lemma berklekamp_welch_column debug f P res shares j n : (0 < required f)%nat →
  rs_q res = (rs_e res + required f)%nat → (required f + rs_e res ≤ 255)%nat →
  length P = required f → Forall byte P → Forall (share_ok n) shares → NoDup (map number shares) → (j < n)%nat →
  (rs_q res + rs_e res ≤ length shares)%nat →
  (length (filter (wrong P j) (take (rs_q res + rs_e res) shares)) ≤ rs_e res)%nat →
  berklekamp_welch None debug f res shares j =
    if debug && (length (filter (wrong P j) (take (rs_q res + rs_e res) shares)) <? rs_e res)%nat then Panic
    else Done (Ok (values P (total f))).
Proof.
  intros Hk Hq Hsize HPl HP Hok Hnd Hj Hlen Hw. unfold berklekamp_welch. cbv zeta. rewrite Hq in *.
  set (e := rs_e res) in *. set (k := required f) in *. set (sh := take _ shares) in *.
  assert (Forall (share_ok n) sh) as Hoks by by apply Forall_take.
  assert (length (map (received j) sh) = (e + k + e)%nat) as Hl by (rewrite length_map; unfold sh; rewrite length_take; lia).
  assert (NoDup (map number sh)) as Hnds by (eapply sublist_NoDup; [exact Hnd|]; apply fmap_sublist, sublist_take).
  unfold assert_that. rewrite decide_True.
  2:{ eapply Forall_impl; [exact Hoks|]. intros s (_ & Hs & _). simpl in Hs |- *. lia. }
  destruct (system_solved (map (received j) sh) P e k Hl (received_nodup n j sh Hoks Hnds) (received_bytes n j sh Hoks)
    HPl HP ltac:(by rewrite received_wrong) Hsize Hk debug) as (s' & low & Hinv & Hlow & Hlowb & Hu).
  rewrite received_wrong in Hinv.
  rewrite !map_map in Hinv, Hu. cbn [received fst snd] in Hinv, Hu. unfold received in Hinv, Hu. cbn [fst snd] in Hinv, Hu.
  unfold obind at 1. rewrite Hinv. destruct (debug && _); [done|]. cbn [obind]. erewrite (map_ext (λ ri, fold_left _ _ _)) by (intros ri; apply fold_add_dot).
  rewrite Hu. assert (length (pmul_monic P low) = (e + k)%nat) as HQ by (rewrite pmul_monic_length; lia).
  rewrite take_app_length', drop_app_length' by done.
  rewrite !from_iter_of by (rewrite ?length_app; unfold POLY_CAP; simpl; lia). cbn [obind].
  destruct (div_exact P low) as (p & r & Hd & Hr & Hx); [done|done|by destruct P; [simpl in *; lia|]|lia|].
  unfold monic in Hd. rewrite Hd. cbn [obind]. rewrite Hr. cbn [negb]. do 2 f_equal. apply map_ext. intros i.
  apply Hx, eval_point_byte.
Qed.

(** ** The parity check *)

Lemma dot_two i j a w : length a = length w → Forall byte a → Forall byte w → (i < j)%nat →
  (∀ l, l ≠ i → l ≠ j → nth l a 0 = 0 ∨ nth l w 0 = 0) → dot a w = Z.lxor (mul (nth i a 0) (nth i w 0)) (mul (nth j a 0) (nth j w 0)).
Proof.
  intros Hl Ha Hw Hij Hz. rewrite <-(take_drop j a), <-(take_drop j w).
  rewrite dot_app by (rewrite !length_take; lia).
  assert (∀ (l : list Z) m, nth m (take j l ++ drop j l) 0 = nth m l 0) as Hnth by (intros; by rewrite take_drop).
  rewrite !Hnth.
  rewrite (dot_only i); [|rewrite !length_take; lia|by apply Forall_take..|].
  - rewrite (dot_only 0); [|rewrite !length_drop; lia|by apply Forall_drop..|].
    + rewrite !nth_lookup, !lookup_take_lt, !lookup_drop, Nat.add_0_r by done. done.
    + intros l Hl0. rewrite !nth_lookup, !lookup_drop, <-!nth_lookup. apply Hz; lia.
  - intros l Hli. rewrite !nth_lookup. destruct (decide (l < j)%nat).
    + rewrite !lookup_take_lt, <-!nth_lookup by done. apply Hz; lia.
    + rewrite lookup_take_ge by lia. by left.
Qed.

Lemma fold_insert_length (g : nat → Z) js (l : list Z) : length (fold_left (λ l j, <[j:=g j]> l) js l) = length l.
Proof. revert l. induction js as [|j js IH]; intros l; [done|]. simpl. by rewrite IH, length_insert. Qed.
Lemma fold_insert_nth (g : nat → Z) r (l : list Z) i : (r ≤ length l)%nat →
  nth i (fold_left (λ l j, <[j:=g j]> l) (seq 0 r) l) 0 = if decide (i < r)%nat then g i else nth i l 0.
Proof.
  intros Hr. induction r as [|r IH]; [done|]. rewrite seq_S, fold_left_app. cbn [fold_left Nat.add].
  rewrite nth_lookup. destruct (decide (i = r)) as [->|Hne].
  - rewrite list_lookup_insert_eq by (rewrite fold_insert_length; lia). by rewrite decide_True by lia.
  - rewrite list_lookup_insert_ne by done. rewrite <-nth_lookup, IH by lia. repeat case_decide; done || lia.
Qed.
Lemma fold_insert_byte (g : nat → Z) js (l : list Z) : (∀ j, j ∈ js → byte (g j)) → Forall byte l → Forall byte (fold_left (λ l j, <[j:=g j]> l) js l).
Proof.
  revert l. induction js as [|j js IH]; intros l Hg Hl; [done|]. apply IH; [intros; apply Hg; by right|].
  apply Forall_insert; [done|]. apply Hg. by left.
Qed.
Lemma imap_replicate_rows {A} (f : nat → list Z → A) (h : nat → list Z → list Z) m (z : list Z) :
  imap f (imap h (replicate m z)) = map (λ i, f i (h i z)) (seq 0 m).
Proof.
  apply list_eq. intros i. rewrite !list_lookup_imap, list_lookup_fmap.
  destruct (decide (i < m)%nat).
  - by rewrite lookup_replicate_2, lookup_seq_lt by done.
  - rewrite (lookup_ge_None_2 (replicate m z)) by (rewrite length_replicate; lia).
    by rewrite (lookup_ge_None_2 (seq 0 m)) by (rewrite length_seq; lia).
Qed.
Lemma parity_spec k n mx : mat k n mx → (k ≤ n)%nat → ∃ out, parity_matrix k n mx (replicate (n - k) (zeros n)) = Done out ∧
  mat (n - k) n out ∧ ∀ i, (i < n - k)%nat → ∀ l,
    nth l (row out i) 0 = if decide (l < k)%nat then entry mx l (i + k) else nth l (unit_row n (i + k)) 0.
Proof.
  intros Hm Hk. unfold parity_matrix, assert_that. rewrite decide_True by apply Hm. cbn [obind]. rewrite decide_True by done.
  cbn [obind]. rewrite decide_True by (split; [apply length_replicate|]; apply Forall_replicate, zeros_length). cbn [obind].
  rewrite imap_replicate_rows. set (g i j := entry mx j (i + k)).
  eexists. split; [done|].
  assert (∀ i, (i < n - k)%nat → row (map (λ i, fold_left (λ l j, <[j:=g i j]> l) (range 0 k) (unit_row n (i + k))) (seq 0 (n - k))) i
    = fold_left (λ l j, <[j:=g i j]> l) (range 0 k) (unit_row n (i + k))) as Hrow.
  { intros i Hi. unfold row. rewrite nth_lookup, list_lookup_fmap, lookup_seq_lt by done. done. }
  split.
  - split; [split|]; [by rewrite length_map, length_seq|..]; apply Forall_map, Forall_forall; intros i Hi%elem_of_seq; cbv beta.
    + rewrite fold_insert_length. apply length_unit_row.
    + apply fold_insert_byte; [|apply unit_row_byte]. intros j Hj%range_elem. apply (entry_byte k n); [done|lia].
  - intros i Hi l. rewrite Hrow by done. unfold range. rewrite Nat.sub_0_r. by rewrite (fold_insert_nth (g i)) by by rewrite length_unit_row.
Qed.

Section check.
Context (xs : list Z) (k : nat) (Hnd : NoDup xs) (Hxs : Forall byte xs) (Hk : (0 < k ≤ length xs)%nat).
Notation n := (length xs).
Definition evals (p : list Z) : list Z := map (horner p) xs.
Notation vand := (map (λ r, map (λ x, gpow x r) xs) (range 0 k)).

Lemma point_byte x : x ∈ xs → byte x.
Proof. rewrite Forall_forall in Hxs. auto. Qed.
Lemma evals_byte p : Forall byte p → Forall byte (evals p).
Proof. intros Hp. apply Forall_map, Forall_forall. intros x Hx. simpl. apply horner_mem; [done|by apply point_byte]. Qed.
Lemma evals_length p : length (evals p) = n.
Proof. apply length_map. Qed.
Lemma code_evals_nth p i : (i < n)%nat → nth i (evals p) 0 = horner p (nth i xs 0).
Proof. intros Hi. destruct (lookup_lt_is_Some_2 xs i Hi) as [x Hx]. unfold evals. by rewrite !nth_lookup, list_lookup_fmap, Hx. Qed.
Lemma axpy_map (g h : Z → Z) c l : axpy c (map g l) (map h l) = map (λ x, Z.lxor (h x) (mul c (g x))) l.
Proof. unfold axpy. induction l as [|x l IH]; [done|]. simpl. by rewrite IH. Qed.
Lemma evals_linear : linear n (λ l, ∃ p, length p = k ∧ Forall byte p ∧ l = evals p).
Proof.
  split.
  - intros f l Hf _ _ (p & Hp & Hpb & ->). exists (map (mul f) p). split; [by rewrite length_map|].
    split; [apply mul_map_byte|]. unfold evals. rewrite map_map. apply map_ext_in. intros x Hx.
    symmetry. apply horner_scale; [done|done|]. by apply point_byte, list_elem_of_In.
  - intros f a b Hf _ _ _ _ (p & Hp & Hpb & ->) (p' & Hp' & Hpb' & ->).
    exists (zip_with add p' (map (mul f) p)). rewrite zip_add_len by by rewrite length_map, Hp.
    split; [by rewrite length_map|]. split; [apply zip_add_byte; [done|apply mul_map_byte]|].
    unfold evals. rewrite axpy_map. apply map_ext_in. intros x Hx%list_elem_of_In%point_byte.
    rewrite horner_xor, horner_scale; [done|done|done|done|by rewrite length_map, Hp|done|apply mul_map_byte|done].
Qed.

Lemma vand_mat : mat k n vand.
Proof.
  split; [split|].
  - unfold range. rewrite length_map, length_seq. lia.
  - apply Forall_map, Forall_forall. intros r _. apply length_map.
  - apply Forall_map, Forall_forall. intros r _. simpl. apply Forall_map, Forall_forall. intros x Hx. by apply gpow_byte, point_byte.
Qed.
Lemma vand_row r : (r < k)%nat → row vand r = map (λ x, gpow x r) xs.
Proof. intros Hr. unfold row. rewrite nth_lookup, list_lookup_fmap. unfold range. by rewrite lookup_seq_lt by lia. Qed.
Lemma vand_evals r : (r < k)%nat → ∃ p, length p = k ∧ Forall byte p ∧ row vand r = evals p.
Proof.
  intros Hr. exists (zeros r ++ [1] ++ zeros (k - S r)). split; [rewrite !length_app, !zeros_length; simpl; lia|].
  assert (Forall byte ([1] ++ zeros (k - S r))) as Hb by (apply Forall_app; split; [by repeat constructor|apply zeros_byte]).
  split; [apply Forall_app; split; [apply zeros_byte|done]|]. rewrite vand_row by done. apply map_ext_in.
  intros x Hx%list_elem_of_In%point_byte. rewrite horner_shift, horner_pad by (done || by repeat constructor). simpl.
  by rewrite mul_0_r, mul_1_r by bytes.
Qed.

(* what is orthogonal to the powers is orthogonal to every polynomial *)
Lemma kernel_evals w : length w = n → Forall byte w → kernel k vand w → ∀ p, length p = k → Forall byte p → dot (evals p) w = 0.
Proof.
  intros Hw Hwb Hker p Hp Hpb.
  assert (∀ s, (s + length p ≤ k)%nat → dot (map (λ x, mul (gpow x s) (horner p x)) xs) w = 0) as Hs.
  2:{ rewrite <-(Hs 0%nat) by lia. f_equal. apply map_ext_in. intros x Hx%list_elem_of_In%point_byte. change (gpow x 0) with 1.
      symmetry. apply mul_1_l. by apply horner_mem. }
  clear Hp. induction Hpb as [|a p Ha Hpb IH]; intros s Hs; cbn [length] in Hs.
  - apply dot_none; [by rewrite length_map|apply Forall_map, Forall_forall; intros x _; apply mul_any_byte|done|].
    intros i. left. rewrite nth_lookup, list_lookup_fmap. destruct (xs !! i) as [x|] eqn:Hx; [|done]. simpl.
    apply mul_0_r. by eapply gpow_byte, point_byte, list_elem_of_lookup_2.
  - rewrite (map_ext_in _ (λ x, Z.lxor (mul (gpow x (S s)) (horner p x)) (mul a (gpow x s)))).
    2:{ intros x Hx%list_elem_of_In%point_byte. cbn [horner]. assert (byte (horner p x)) by by apply horner_mem.
        rewrite mul_lxor_r, gpow_S, mul_assoc by bytes. rewrite (mul_comm (gpow x s) x), (mul_comm a) by bytes. apply Z.lxor_comm. }
    rewrite <-axpy_map, dot_axpy; [|done|by rewrite !length_map| |apply Forall_map, Forall_forall; intros x _; apply mul_any_byte|done].
    + rewrite IH by lia. rewrite <-vand_row, Hker by lia. by rewrite mul_0_r.
    + apply Forall_map, Forall_forall. intros x Hx. by apply gpow_byte, point_byte.
Qed.

(** a polynomial through the values of [v] at the first [k] points *)
Lemma through v : length v = n → Forall byte v → ∃ p, length p = k ∧ Forall byte p ∧ ∀ i, (i < k)%nat → nth i (evals p) 0 = nth i v 0.
Proof.
  intros Hv Hvb.
  assert (∀ i, (i < n)%nat → xs !! i = Some (nth i xs 0)) as Hnth.
  { intros i Hi. destruct (lookup_lt_is_Some_2 xs i Hi) as [x Hx]. by rewrite (nth_lookup_Some _ _ _ _ Hx). }
  set (val x := match list_find (eq x) xs with Some (i, _) => nth i v 0 | None => 0 end).
  destruct (interpolate (take k xs) val) as (p & Hp & Hpb & Hpv).
  { eapply sublist_NoDup; [exact Hnd|apply sublist_take]. } { by apply Forall_take. }
  { intros x _. unfold val. destruct (list_find _ _) as [[i y]|]; [by apply nth_byte|done]. }
  exists p. split; [rewrite Hp, length_take; lia|]. split; [done|]. intros i Hi. rewrite code_evals_nth by lia.
  rewrite Hpv.
  - unfold val. destruct (list_find (eq (nth i xs 0)) xs) as [[i' y]|] eqn:Hf.
    + apply list_find_Some in Hf as (Hi' & <- & _). by rewrite (NoDup_lookup _ _ _ _ Hnd Hi' (Hnth i ltac:(lia))).
    + apply list_find_None in Hf. rewrite Forall_forall in Hf. destruct (Hf (nth i xs 0)); [|done].
      eapply list_elem_of_lookup_2, Hnth. lia.
  - eapply list_elem_of_lookup_2. rewrite lookup_take_lt by done. apply Hnth. lia.
Qed.
Lemma vand_independent : independent k n k vand.
Proof.
  intros w Hw Hwb Hwz Hker i. destruct (decide (i < k)%nat) as [Hi|]; [|apply Hwz; lia].
  destruct (through (unit_row n i)) as (p & Hp & Hpb & Hpv); [apply length_unit_row|apply unit_row_byte|].
  pose proof (kernel_evals w Hw Hwb Hker p Hp Hpb) as Hd.
  rewrite (dot_only i) in Hd; [|by rewrite evals_length|by apply evals_byte|done|].
  - rewrite Hpv, nth_unit_row, decide_True in Hd by lia. by rewrite mul_1_l in Hd by by apply nth_byte.
  - intros l Hl. destruct (decide (l < k)%nat); [left|right; apply Hwz; lia].
    rewrite Hpv by done. by rewrite nth_unit_row, decide_False by (done || lia).
Qed.

(** The rows that [syndrome_matrix] makes check a word: all products are zero for the values of a
    polynomial of degree below [k], and only for those. *)
Lemma parity_checks : ∃ mx synd, standardize_matrix None k n vand = Done mx ∧
  parity_matrix k n mx (replicate (n - k) (zeros n)) = Done synd ∧ mat (n - k) n synd ∧
  ∀ y, length y = n → Forall byte y →
    kernel (n - k) synd y ↔ ∃ p, length p = k ∧ Forall byte p ∧ y = evals p.
Proof.
  destruct (standardize_spec k n k ltac:(lia) vand vand_mat vand_independent ltac:(lia)) as (mx & Hstd & Hops & Hid & _).
  pose proof (row_ops_mat k n _ _ vand_mat Hops) as Hm.
  destruct (parity_spec k n mx Hm ltac:(lia)) as (synd & Hpar & Hsm & Hnth). exists mx, synd. do 3 (split; [done|]).
  assert (∀ i, (i < n - k)%nat → length (row synd i) = n ∧ Forall byte (row synd i)) as Hrow by (intros i Hi; by apply (mat_row (n - k) n)).
  assert (∀ p, length p = k → Forall byte p → kernel (n - k) synd (evals p)) as Hzero.
  { intros p Hp Hpb i Hi. destruct (Hrow i Hi) as [Hl Hb]. rewrite dot_comm by (done || by apply evals_byte).
    apply kernel_evals; [done|done| |done|done]. apply (row_ops_kernel_back k n vand mx); [apply vand_mat|done|done|].
    intros j Hj. destruct (mat_row k n mx j Hm Hj) as [Hjl Hjb].
    rewrite (dot_two j (i + k)); [|congruence|done|done|lia|].
    - change (nth j (row mx j) 0) with (entry mx j j). change (nth (i + k) (row mx j) 0) with (entry mx j (i + k)).
      rewrite Hid, decide_True by lia. rewrite !Hnth by done. rewrite decide_True, decide_False by lia.
      rewrite nth_unit_row, decide_True by lia. assert (byte (entry mx j (i + k))) by by apply (entry_byte k n).
      rewrite mul_1_l, mul_1_r by done. apply Z.lxor_nilpotent.
    - intros l Hlj Hli. rewrite Hnth by done. change (nth l (row mx j) 0) with (entry mx j l).
      destruct (decide (l < k)%nat); [left|right].
      + rewrite Hid by lia. by rewrite decide_False by congruence.
      + by rewrite nth_unit_row, decide_False by lia. }
  intros y Hy Hyb. split; [|intros (p & Hp & Hpb & ->); by apply Hzero]. intros Hker.
  destruct (through y Hy Hyb) as (p & Hp & Hpb & Hpv). exists p. do 2 (split; [done|]).
  apply (nth_ext _ _ 0 0); [by rewrite evals_length|]. rewrite Hy. intros l Hl.
  destruct (decide (l < k)%nat) as [Hlk|Hlk]; [by rewrite Hpv|].
  set (i := (l - k)%nat). destruct (Hrow i ltac:(lia)) as [Hil Hib].
  assert (dot (row synd i) (axpy 1 (evals p) y) = 0) as Hd.
  { rewrite dot_axpy_r, (Hker i), (Hzero p Hp Hpb i), mul_0_r; try done; [lia..|by rewrite evals_length|by apply evals_byte]. }
  assert (∀ m, nth m (axpy 1 (evals p) y) 0 = Z.lxor (nth m y 0) (nth m (evals p) 0)) as Hax.
  { intros m. rewrite nth_axpy, mul_1_l; [done|by apply nth_byte, evals_byte|by rewrite evals_length|done]. }
  rewrite (dot_only l) in Hd; [|rewrite axpy_rows_length, Hy; [done|by rewrite evals_length]|done|by apply axpy_bytes|].
  - rewrite Hax, Hnth, decide_False in Hd by lia. replace (i + k)%nat with l in Hd by lia.
    rewrite nth_unit_row, decide_True, mul_1_l in Hd;
      [by apply Z.lxor_eq|apply lxor_byte; by apply nth_byte, evals_byte || by apply nth_byte|done|done].
  - intros m Hm'. destruct (decide (m < k)%nat); [right|left].
    + rewrite Hax, Hpv by done. apply Z.lxor_nilpotent.
    + rewrite Hnth, decide_False by lia. rewrite nth_unit_row, decide_False by lia. done.
Qed.
End check.
