(* ===== verification/FecRepair.v ===== *)
(** What [decode] of [utils/berkleamp-welch/src/fec.rs] repairs: the rows that [syndrome_matrix] makes,
    the loops of [correct], and the two outcomes of one damaged column. *)

From S2P Require Import Prelude Galois Matrix Poly Fec Elimination PolyRoots FecDecode.

(** ** The Vandermonde matrix *)

Lemma gpow_add x a b : byte x → gpow x (a + b) = mul (gpow x a) (gpow x b).
Proof.
  intros Hx. induction a as [|a IH]; [symmetry; apply mul_1_l; bytes|]. cbn [Nat.add]. rewrite !gpow_S, IH. apply mul_assoc; bytes.
Qed.
Lemma gpow_gpow x a b : byte x → gpow (gpow x a) b = gpow x (a * b).
Proof.
  intros Hx. induction b as [|b IH]; [by rewrite Nat.mul_0_r|]. rewrite gpow_S, IH, <-gpow_add by done. f_equal. lia.
Qed.
Lemma gpow_0_l n : gpow 0 n = if decide (n = 0)%nat then 1 else 0.
Proof. destruct n as [|n]; [done|]. rewrite gpow_S. apply mul_0_l. by apply gpow_byte. Qed.

Lemma vand_powers_nth n g a c : byte g → byte a → (c < n)%nat → nth c (vand_powers n g a) 0 = mul (gpow g c) a.
Proof.
  intros Hg. revert a c. induction n as [|n IH]; intros a c Ha Hc; [lia|]. destruct c as [|c]; [by rewrite mul_1_l|].
  simpl. rewrite IH by (bytes || lia). rewrite gpow_S, mul_assoc by bytes. by rewrite (mul_comm g) by bytes.
Qed.
Lemma vand_rows_spec rows m first s r : (r < rows)%nat → row (vand_rows rows m first (gpow 2 s)) r =
  (if decide (r = 0)%nat then first else 0) :: vand_powers (m - 1) (gpow 2 (s + r)) 1.
Proof.
  revert first s r. induction rows as [|rows IH]; intros first s r Hr; [lia|]. destruct r as [|r].
  { by rewrite Nat.add_0_r. }
  change (row (vand_rows rows m 0 (gpow 2 (S s))) r = 0 :: vand_powers (m - 1) (gpow 2 (s + S r)) 1).
  rewrite IH by lia. rewrite Nat.add_succ_r. by case_decide.
Qed.
(** The column of a share holds the powers of its point. *)
Lemma vand_entry k m r c : (r < k)%nat → (c < m)%nat → entry (vand_rows k m 1 1) r c = gpow (eval_point (Z.of_nat c)) r.
Proof.
  intros Hr Hc. unfold entry. change (vand_rows k m 1 1) with (vand_rows k m 1 (gpow 2 0)). rewrite vand_rows_spec by done. rewrite eval_point_exp.
  destruct c as [|c]; cbn [nth]; [by rewrite gpow_0_l|]. rewrite exp_gpow by done. unfold interp_base.
  assert (∀ i, byte (gpow 2 i)) as Hg by (intros; by apply gpow_byte).
  rewrite vand_powers_nth by (done || lia). rewrite mul_1_r, !gpow_gpow by (done || by apply gpow_byte). f_equal. cbn [Nat.add]. lia.
Qed.
Lemma fec_new_vand k m f : fec_new k m = Done f →
  (0 < k < m ∧ m ≤ 256)%nat ∧ required f = k ∧ total f = m ∧ vand_matrix f = vand_rows k m 1 1.
Proof.
  intros Hf. pose proof (fec_new_spec k m) as Hs. case_decide as Hd; [|congruence]. split; [done|].
  unfold fec_new, assert_that in Hf. rewrite !decide_True in Hf by lia. cbn [obind] in Hf.
  destruct (create_inverted_vdm _ _) as [vdm|]; [|done]. cbn [obind] in Hf. by injection Hf as <-.
Qed.

(** ** Shares in order *)

Definition by_number : relation Share := λ a b, number a < number b.

Lemma sorted_numbers l : StronglySorted by_number l → NoDup (map number l).
Proof.
  induction 1 as [|s l _ IH Hs]; [constructor|]. simpl. constructor; [|done].
  intros (s' & He & Hs')%list_elem_of_fmap. rewrite Forall_forall in Hs. pose proof (Hs s' Hs') as Hlt. unfold by_number in Hlt. lia.
Qed.
Lemma sort_by_number l : NoDup (map number l) → StronglySorted by_number (sort_by_key number l) ∧ sort_by_key number l ≡ₚ l.
Proof.
  intros Hnd. assert (sort_by_key number l ≡ₚ l) as Hp by apply merge_sort_Permutation. split; [|done].
  assert (StronglySorted (key_le number) (sort_by_key number l)) as Hs.
  { apply StronglySorted_merge_sort; [intros a b c; unfold key_le; lia|intros a b; unfold key_le; lia]. }
  assert (NoDup (map number (sort_by_key number l))) as Hnd' by by rewrite Hp.
  clear Hp Hnd. induction Hs as [|s k Hs IH Hle]; [constructor|]. cbn [map] in Hnd'. apply NoDup_cons in Hnd' as [Hin Hnd'].
  constructor; [by apply IH|]. apply Forall_forall. intros s' Hs'. rewrite Forall_forall in Hle.
  pose proof (Hle s' Hs') as H. unfold key_le in H. unfold by_number.
  assert (number s ≠ number s'); [|lia]. intros He. apply Hin. rewrite He. by apply list_elem_of_fmap_2.
Qed.
Lemma duplicates_none l : NoDup (map number l) → duplicates l = false.
Proof.
  induction l as [|a [|b l] IH]; [done..|]. intros [Hin Hnd]%NoDup_cons. change (bool_decide (number a = number b) || duplicates (b :: l) = false).
  rewrite IH by done. rewrite bool_decide_eq_false_2; [done|]. intros He. apply Hin. rewrite He. by left.
Qed.

Lemma sorted_rev {A} (R : relation A) l : StronglySorted R l → StronglySorted (flip R) (rev l).
Proof.
  induction 1 as [|x l _ IH Hx]; [constructor|]. simpl. apply StronglySorted_app_2; [|done|by repeat constructor].
  intros y z Hy ->%list_elem_of_singleton. rewrite Forall_forall in Hx. apply Hx. by rewrite list_elem_of_In, in_rev, <-list_elem_of_In.
Qed.
Lemma count_while_none {A} (q : A → bool) l : Forall (λ x, q x = false) l → count_while q l = 0%nat.
Proof. by intros [|x l' Hx _]; simpl; rewrite ?Hx. Qed.
Lemma filter_take {A} (Q : A → Prop) `{!∀ x, Decision (Q x)} i (l : list A) : (length (filter Q (take i l)) ≤ length (filter Q l))%nat.
Proof. rewrite <-(take_drop i l) at 2. rewrite filter_app, length_app. lia. Qed.

(** The columns that are kept are the numbers, in order. *)
Lemma kept_from s n l : StronglySorted by_number l → Forall (λ a, Z.of_nat s ≤ number a < Z.of_nat (s + n)) l →
  List.filter (λ col, existsb (λ a, number a =? Z.of_nat col) l) (seq s n) = map (λ a, Z.to_nat (number a)) l.
Proof.
  revert s l. induction n as [|n IH]; intros s l Hs Hb.
  { destruct Hb as [|a l Ha Hb]; [done|lia]. }
  assert (∀ l', StronglySorted by_number l' → Forall (λ a, Z.of_nat s < number a < Z.of_nat (s + S n)) l' →
    existsb (λ a, number a =? Z.of_nat s) l' = false ∧
    List.filter (λ col, existsb (λ a, number a =? Z.of_nat col) l') (seq (S s) n) = map (λ a, Z.to_nat (number a)) l') as Hlater.
  { intros l' Hs' Hb'. split.
    - apply not_true_iff_false. intros (a & Ha & He)%existsb_exists. rewrite Forall_forall in Hb'.
      apply list_elem_of_In, Hb' in Ha. lia.
    - apply IH; [done|]. eapply Forall_impl; [exact Hb'|]. simpl. lia. }
  cbn [seq List.filter]. destruct Hs as [|a l Hs Ha]; [by destruct (Hlater [] ltac:(constructor) ltac:(constructor)) as [_ ->]|].
  apply Forall_cons in Hb as [Hab Hb].
  assert (Forall (λ a, Z.of_nat s < number a < Z.of_nat (s + S n)) l) as Hb'.
  { apply Forall_forall. intros b Hin. rewrite Forall_forall in Ha, Hb. pose proof (Ha b Hin) as Hlt. unfold by_number in Hlt.
    specialize (Hb b Hin). lia. }
  destruct (decide (number a = Z.of_nat s)) as [He|He].
  - cbn [existsb]. rewrite He, Z.eqb_refl. cbn [orb map]. rewrite He, Nat2Z.id. f_equal.
    destruct (Hlater l Hs Hb') as [_ <-]. apply filter_ext_in. intros c Hc%list_elem_of_In%elem_of_seq.
    replace (Z.of_nat s =? Z.of_nat c) with false by (symmetry; apply Z.eqb_neq; lia). done.
  - destruct (Hlater (a :: l)) as [-> ->]; [by constructor|constructor; [lia|done]|done].
Qed.
Lemma kept_numbers m l : StronglySorted by_number l → Forall (λ s, 0 ≤ number s < Z.of_nat m) l →
  kept_columns m l = map (λ s, Z.to_nat (number s)) l.
Proof. intros Hs Hb. unfold kept_columns, range. rewrite Nat.sub_0_r. by apply kept_from. Qed.

(** ** The loops of [correct] *)

Lemma damaged_columns_spec buf js : StronglySorted lt js →
  (∀ x, x ∈ js ↔ (x < length buf)%nat ∧ nth x buf 0 ≠ 0) → damaged_columns buf = js.
Proof.
  intros Hs Hj. unfold damaged_columns, range. rewrite Nat.sub_0_r.
  assert (∀ n s js, StronglySorted lt js → (∀ x, x ∈ js ↔ (s ≤ x < s + n)%nat ∧ nth x buf 0 ≠ 0) →
    List.filter (λ j, negb (nth j buf 0 =? 0)) (seq s n) = js) as Hg; [|apply Hg; [done|]; intros x; rewrite Hj; naive_solver lia].
  clear. induction n as [|n IH]; intros s js Hs Hj.
  { destruct js as [|x js]; [done|]. destruct (Hj x) as [Hx _]. destruct Hx; [by left|lia]. }
  cbn [seq List.filter]. destruct (Z.eqb_spec (nth s buf 0) 0) as [Hz|Hz]; cbn [negb].
  - apply IH; [done|]. intros x. rewrite Hj. split; [|naive_solver lia]. intros [Hx Hnz]. split; [|done].
    assert (x ≠ s) by (intros ->; done). lia.
  - destruct js as [|x js]; [destruct (Hj s) as [_ Hin]; destruct (not_elem_of_nil s); apply Hin; split; [lia|done]|].
    inversion Hs as [|? ? Hs' Hx]; subst. rewrite Forall_forall in Hx.
    assert (x = s) as ->.
    { assert (s ∈ x :: js) as [Heq|Hin]%elem_of_cons by (apply Hj; split; [lia|done]); [by symmetry|]. specialize (Hx s Hin).
      destruct (Hj x) as [Hxr _]. destruct Hxr; [by left|lia]. }
    f_equal. apply IH; [done|]. intros y. split.
    + intros Hy. pose proof (Hx y Hy). destruct (Hj y) as [Hyr _]. destruct Hyr; [by right|]. split; [lia|done].
    + intros [Hy Hnz]. assert (y ∈ s :: js) as [Heq|Hin]%elem_of_cons by (apply Hj; split; [lia|done]); [lia|done].
Qed.

Lemma damaged_none buf : (∀ x, (x < length buf)%nat → nth x buf 0 = 0) → damaged_columns buf = [].
Proof.
  intros Hz. apply damaged_columns_spec; [apply SSorted_nil|]. intros x. split; [intros Hin; by apply elem_of_nil in Hin|].
  intros [Hx Hne]. by destruct Hne; apply Hz.
Qed.
Lemma damaged_one buf j : (j < length buf)%nat → nth j buf 0 ≠ 0 →
  (∀ x, (x < length buf)%nat → x ≠ j → nth x buf 0 = 0) → damaged_columns buf = [j].
Proof.
  intros Hj Hne Hz. apply damaged_columns_spec; [by repeat constructor|]. intros x. rewrite list_elem_of_singleton.
  split; [by intros ->|]. intros [Hx Hxne]. destruct (decide (x = j)); [done|]. by destruct Hxne; apply Hz.
Qed.

(** a share with one byte put right, and its number as it was or flipped *)
Definition repaired (P : list Z) (j : nat) (s : Share) : Share :=
  {| number := number s; share_data := <[j:=horner P (eval_point (number s))]> (share_data s) |}.
Definition flipped (s : Share) : Share := {| number := USIZE_MAX - number s; share_data := share_data s |}.

Lemma write_correction_spec f P j n l : Forall (λ s, share_ok n s ∧ number s < Z.of_nat (total f)) l →
  (total f ≤ 256)%nat → (j < n)%nat → write_correction f j (values P (total f)) l = Done (map (flipped ∘ repaired P j) l).
Proof.
  intros Hl Ht Hj. induction Hl as [|s l [(Hs & Hsl & _) Hst] _ IH]; [done|]. cbn [write_correction map].
  rewrite decide_True by done. replace (USIZE_MAX - (USIZE_MAX - number s)) with (number s) by lia.
  assert (values P (total f) !! Z.to_nat (number s) = Some (horner P (eval_point (number s)))) as ->.
  { unfold values, range. rewrite list_lookup_fmap, lookup_seq_lt by lia. simpl. by rewrite Z2Nat.id by lia. }
  unfold assert_that, unwrap. cbn [obind]. rewrite decide_True by lia. cbn [obind]. rewrite IH. done.
Qed.

Section loops.
Context (debug : bool) (f : Fec) (res : Resources) (n : nat) (Hn : share_len res = n).
Definition row_ok (len : nat) (r : list Z) : Prop := length r = len ∧ Forall byte r.
Definition data_ok (s : Share) : Prop := length (share_data s) = n ∧ Forall byte (share_data s).
Notation col x l := (column x (map share_data l)).

Lemma row_products r l : row_ok (length l) r → Forall data_ok l →
  ∃ buf, add_blocks None r (map share_data l) (zeros (share_len res)) = Done buf ∧ length buf = n ∧
    ∀ x, (x < n)%nat → nth x buf 0 = dot r (col x l).
Proof.
  intros [Hr Hrb] Hl.
  destruct (add_blocks_spec None r (map share_data l) (zeros n) n) as (buf & Hb & Hbl & Hx); [done|done| | |apply zeros_length|].
  { apply Forall_map. eapply Forall_impl; [exact Hl|]. intros s Hs. apply Hs. }
  { apply Forall_map. eapply Forall_impl; [exact Hl|]. intros s Hs. apply Hs. }
  exists buf. rewrite Hn. split; [done|]. split; [done|]. intros x Hxn. rewrite Hx by done. rewrite nth_zeros. apply Z.lxor_0_l.
Qed.
Lemma rows_clean rows l : Forall (row_ok (length l)) rows → Forall data_ok l →
  (∀ x, (x < n)%nat → Forall (λ r, dot r (col x l) = 0) rows) → correct_rows None debug f res rows l = Done (Ok l).
Proof.
  intros Hrows Hl. induction Hrows as [|r rows Hr _ IH]; intros Hz; [done|]. cbn [correct_rows].
  destruct (row_products r l Hr Hl) as (buf & -> & Hbl & Hx). cbn [obind].
  rewrite damaged_none.
  2:{ rewrite Hbl. intros x Hxn. rewrite Hx by done. assert (Hzx := Hz x Hxn). by apply Forall_cons in Hzx as [-> _]. }
  cbn [correct_columns obind]. apply IH. intros x Hxn. pose proof (Hz x Hxn) as Hzx. by apply Forall_cons in Hzx as [_ Hzx].
Qed.
(** One column with a product that is not zero: it is put right, and every number is flipped; unless
    a debug assertion fails on the way. *)
Lemma rows_damaged rows l j P (fails : bool) : (total f ≤ 256)%nat → (j < n)%nat →
  Forall (row_ok (length l)) rows → Forall (λ s, share_ok n s ∧ number s < Z.of_nat (total f)) l → Forall byte P →
  (∀ x, (x < n)%nat → x ≠ j → Forall (λ r, dot r (col x l) = 0) rows) →
  ¬ Forall (λ r, dot r (col j l) = 0) rows →
  (∀ x, (x < n)%nat → Forall (λ r, dot r (col x (map (repaired P j) l)) = 0) rows) →
  berklekamp_welch None debug f res l j = (if fails then Panic else Done (Ok (values P (total f)))) →
  correct_rows None debug f res rows l = if fails then Panic else Done (Ok (map (flipped ∘ repaired P j) l)).
Proof.
  intros Ht Hj Hrows Hl HP. assert (Forall data_ok l) as Hd by (eapply Forall_impl; [exact Hl|]; intros s [(_ & Hs) _]; exact Hs).
  induction Hrows as [|r rows Hr Hrows IH]; intros Hother Hbad Hfixed Hbw; [by destruct Hbad|]. cbn [correct_rows].
  destruct (row_products r l Hr Hd) as (buf & -> & Hbl & Hx). cbn [obind].
  assert (∀ x, (x < n)%nat → x ≠ j → nth x buf 0 = 0) as Hzero.
  { intros x Hxn Hxj. rewrite Hx by done. assert (Hzx := Hother x Hxn Hxj). by apply Forall_cons in Hzx as [-> _]. }
  assert (∀ x, (x < n)%nat → Forall (λ r, dot r (col x (map (repaired P j) l)) = 0) rows) as Hfixed'.
  { intros x Hxn. pose proof (Hfixed x Hxn) as Hzx. by apply Forall_cons in Hzx as [_ Hzx]. }
  destruct (decide (dot r (col j l) = 0)) as [Hz|Hz].
  - rewrite damaged_none by (rewrite Hbl; intros x Hxn; destruct (decide (x = j)) as [->|]; [by rewrite Hx|by apply Hzero]).
    cbn [correct_columns obind]. apply IH; [|by intros Hall; apply Hbad; constructor|done|done].
    intros x Hxn Hxj. assert (Hzx := Hother x Hxn Hxj). by apply Forall_cons in Hzx as [_ Hzx].
  - rewrite (damaged_one buf j) by (rewrite ?Hbl, ?Hx by done; done).
    cbn [correct_columns]. rewrite Hbw. destruct fails; [done|]. cbn [obind]. rewrite (write_correction_spec f P j n) by done. cbn [obind].
    apply rows_clean.
    + by rewrite length_map.
    + apply Forall_map. eapply Forall_impl; [exact Hl|]. intros s [(Hs & Hsl & Hsb) _]. split; simpl.
      * by rewrite length_insert.
      * apply Forall_insert; [done|]. apply horner_mem; [done|]. by eapply (share_point n).
    + intros x Hxn. rewrite map_map in *. by apply Hfixed'.
Qed.
End loops.

(** ** [correct] on the shares of a code word *)

Section word.
Context (f : Fec) (k m : nat) (Hf : fec_new k m = Done f) (sh : list Share) (n : nat).
Context (Hs : StronglySorted by_number sh) (Hok : Forall (λ s, share_ok n s ∧ number s < Z.of_nat m) sh).
Context (Hlen : (k + 2 ≤ length sh)%nat).
(** the polynomial of each byte of the blocks *)
Context (W : nat → list Z) (HW : ∀ x, length (W x) = k ∧ Forall byte (W x)).
Notation e := ((length sh - k) / 2)%nat.
Notation xs := (map (λ s, eval_point (number s)) sh).
Notation res := {| share_len := n; rs_e := e; rs_q := e + k |}.
Notation col x l := (column x (map share_data l)).
Definition clean (x : nat) : Prop := Forall (λ s, ¬ wrong (W x) x s) sh.

Lemma word_sizes : (0 < k < m)%nat ∧ (m ≤ 256)%nat ∧ required f = k ∧ total f = m ∧ (length sh ≤ m)%nat ∧ (0 < e)%nat ∧ (k + e ≤ 255)%nat.
Proof.
  destruct (fec_new_vand k m f Hf) as ((Hk & Hm) & Hr & Ht & _). do 4 (split; [done|]).
  assert (length sh ≤ m)%nat as Hl.
  { rewrite <-(length_seq m 0), <-(length_map (λ s, Z.to_nat (number s))). apply submseteq_length, NoDup_submseteq.
    - rewrite <-(map_map number Z.to_nat). apply (NoDup_fmap_2_strong Z.to_nat); [|by apply sorted_numbers].
      intros a b (s & -> & Hin)%list_elem_of_fmap (s' & -> & Hin')%list_elem_of_fmap Heq. rewrite Forall_forall in Hok.
      destruct (Hok s Hin) as [[Hb _] _], (Hok s' Hin') as [[Hb' _] _]. lia.
    - intros i (s & -> & Hin)%list_elem_of_fmap. rewrite Forall_forall in Hok. destruct (Hok s Hin) as [[Hb _] Hbm].
      apply elem_of_seq. lia. }
  split; [done|]. assert (2 * 1 ≤ 2 * e + 1)%nat; [|split; [lia|]].
  - pose proof (Nat.div_mod_eq (length sh - k) 2). pose proof (Nat.mod_upper_bound (length sh - k) 2). lia.
  - pose proof (Nat.div_mod_eq (length sh - k) 2). lia.
Qed.
Lemma shares_ok : Forall (share_ok n) sh.
Proof. eapply Forall_impl; [exact Hok|]. by intros s [Hs' _]. Qed.
Lemma points_ok : NoDup xs ∧ Forall byte xs.
Proof.
  split; [|apply Forall_map; eapply Forall_impl; [apply shares_ok|]; intros s; apply share_point].
  rewrite <-(map_map (received 0) fst). eapply received_nodup; [apply shares_ok|by apply sorted_numbers].
Qed.

Lemma point_ok s : s ∈ sh → byte (eval_point (number s)).
Proof. intros Hin. pose proof shares_ok as Ho. rewrite Forall_forall in Ho. by eapply share_point, Ho. Qed.

Lemma syndrome_spec : ∃ synd, syndrome_matrix None f sh = Done synd ∧ Forall (row_ok (length sh)) synd ∧
  ∀ y, length y = length sh → Forall byte y →
    Forall (λ r, dot r y = 0) synd ↔ ∃ p, length p = k ∧ Forall byte p ∧ y = evals xs p.
Proof.
  destruct word_sizes as (Hk & Hm & Hr & Ht & Hl & _). destruct points_ok as [Hnd Hb].
  destruct (fec_new_vand k m f Hf) as (_ & _ & _ & Hv).
  destruct (parity_checks xs k Hnd Hb) as (mx & synd & Hstd & Hpar & [[Hsl Hsr] Hsb] & Hker); [rewrite length_map; lia|].
  rewrite !length_map in *. exists synd. split; [|split].
  - unfold syndrome_matrix. unfold assert_that. rewrite decide_True; cbn [obind].
    2:{ rewrite Ht. eapply Forall_impl; [exact Hok|]. intros s [[Hb' _] Hbm]. simpl. lia. }
    rewrite Ht, Hr, (kept_numbers m).
    2:{ done. } 2:{ eapply Forall_impl; [exact Hok|]. intros s [[Hb' _] Hbm]. simpl. lia. }
    assert (map (λ row, map (entry (vand_matrix f) row) (map (λ s, Z.to_nat (number s)) sh)) (range 0 k)
      = map (λ r, map (λ x, gpow x r) xs) (range 0 k)) as ->.
    { apply map_ext_in. intros r Hr'%list_elem_of_In%range_elem. rewrite !map_map. apply map_ext_in.
      intros s Hin%list_elem_of_In. rewrite Forall_forall in Hok. destruct (Hok s Hin) as [[Hb' _] Hbm].
      rewrite Hv, vand_entry, Z2Nat.id by lia. done. }
    by rewrite Hstd.
  - apply Forall_forall. intros r Hin. rewrite Forall_forall in Hsr, Hsb. split; auto.
  - intros y Hy Hyb. rewrite <-Hker by done. unfold kernel. rewrite Forall_lookup. split.
    + intros Hall j Hj. apply (Hall j), row_lookup. lia.
    + intros Hall j r Hj. pose proof (lookup_lt_Some _ _ _ Hj). rewrite <-(Hall j) by lia. unfold row. by rewrite (nth_lookup_Some _ _ _ _ Hj).
Qed.

Lemma column_shares x l : col x l = map (λ s, nth x (share_data s) 0) l.
Proof. unfold column. by rewrite map_map. Qed.
Lemma evals_shares p : evals xs p = map (λ s, horner p (eval_point (number s))) sh.
Proof. unfold evals. by rewrite map_map. Qed.
Lemma clean_column x : clean x → col x sh = evals xs (W x).
Proof.
  intros Hc. rewrite column_shares, evals_shares. apply map_ext_in. intros s Hin%list_elem_of_In.
  unfold clean in Hc. rewrite Forall_forall in Hc. specialize (Hc s Hin). unfold wrong in Hc. by apply dec_stable.
Qed.
Lemma column_ok x : length (col x sh) = length sh ∧ Forall byte (col x sh).
Proof.
  unfold column. rewrite !length_map. split; [done|]. apply (column_byte x), Forall_map.
  eapply Forall_impl; [apply shares_ok|]. intros s Hs'. apply Hs'.
Qed.
(* with few wrong bytes a column is not the values of another polynomial *)
Lemma damaged_column j p : length p = k → Forall byte p → (length (filter (wrong (W j) j) sh) ≤ e)%nat →
  col j sh = evals xs p → clean j.
Proof.
  intros Hp Hpb Hw He. destruct (HW j) as [HWl HWb]. destruct word_sizes as (Hk & Hm & _ & _ & Hl & _). destruct points_ok as [Hnd Hb].
  assert (∀ s, s ∈ sh → nth j (share_data s) 0 = horner p (eval_point (number s))) as Hval.
  { intros s Hin. rewrite column_shares, evals_shares in He. apply list_elem_of_lookup_1 in Hin as [i Hi].
    apply (f_equal (λ l, l !! i)) in He. rewrite !list_lookup_fmap, Hi in He. by injection He. }
  set (g := zip_with add p (W j)). set (rs := filter (λ s, ¬ wrong (W j) j s) sh).
  assert (∀ x, byte x → horner g x = Z.lxor (horner p x) (horner (W j) x)) as Hg by (intros x Hx; by apply horner_xor; [congruence|..]).
  assert (length rs + length (filter (wrong (W j) j) sh) = length sh)%nat as Hsum.
  { unfold rs. clear. induction sh as [|s l IH]; [done|]. rewrite !filter_cons.
    destruct (decide (¬ wrong (W j) j s)), (decide (wrong (W j) j s)); try done; simpl; lia. }
  assert (all_zero g) as Hz.
  { apply (roots_zero g (map (λ s, eval_point (number s)) rs)).
    - eapply sublist_NoDup; [exact Hnd|]. apply fmap_sublist, sublist_filter.
    - apply Forall_map, Forall_forall. intros s [_ Hin]%list_elem_of_filter. by apply point_ok.
    - by apply zip_add_byte.
    - unfold g. rewrite zip_add_len, length_map by congruence. pose proof (Nat.div_mod_eq (length sh - k) 2). lia.
    - intros x (s & -> & [Hright Hin]%list_elem_of_filter)%list_elem_of_fmap.
      rewrite Hg by by apply point_ok. rewrite <-(Hval s Hin). unfold wrong in Hright. apply dec_stable in Hright. rewrite Hright. apply Z.lxor_nilpotent. }
  apply Forall_forall. intros s Hin Hbad. apply Hbad. rewrite (Hval s Hin). apply Z.lxor_eq. rewrite <-Hg by by apply point_ok.
  apply horner_all_zero; [by apply point_ok|done].
Qed.

Lemma repaired_column j x : clean x ∨ x = j → (x < n)%nat → (j < n)%nat →
  col x (map (repaired (W j) j) sh) = evals xs (W x).
Proof.
  intros Hc Hx Hj. rewrite column_shares, evals_shares, map_map. apply map_ext_in. intros s Hin%list_elem_of_In. simpl.
  pose proof shares_ok as Ho. rewrite Forall_forall in Ho. destruct (Ho s Hin) as (_ & Hl & _).
  rewrite nth_lookup. destruct (decide (x = j)) as [->|Hne]; [by rewrite list_lookup_insert_eq by lia|].
  rewrite list_lookup_insert_ne, <-nth_lookup by done. destruct Hc as [Hc|]; [|done].
  unfold clean in Hc. rewrite Forall_forall in Hc. specialize (Hc s Hin). by apply dec_stable in Hc.
Qed.
Lemma evals_ok x : length (evals xs (W x)) = length sh ∧ Forall byte (evals xs (W x)).
Proof. split; [by rewrite evals_length, length_map|]. apply evals_byte; [apply points_ok|apply HW]. Qed.

Lemma correct_clean debug report : (∀ x, (x < n)%nat → clean x) → correct None debug f sh report res = Done (Ok sh).
Proof.
  intros Hc. destruct word_sizes as (_ & _ & _ & Ht & _). destruct syndrome_spec as (synd & Hsy & Hrows & Hspec).
  unfold correct. rewrite Hsy. cbn [obind]. rewrite (rows_clean debug f res n); [|done|done| |].
  - cbn [obind]. rewrite (sort_by_key_unique _ _ sh) by done. rewrite Ht.
    assert (count_while (λ s, number s <? Z.of_nat m) sh = length sh) as ->.
    { rewrite <-(app_nil_r sh) at 1. apply count_while_all; [|done].
      eapply Forall_impl; [exact Hok|]. intros s [_ Hb]. by apply Z.ltb_lt. }
    rewrite drop_ge, take_ge by done. cbn [map]. rewrite app_nil_r, Nat.eqb_refl, andb_false_r. done.
  - eapply Forall_impl; [apply shares_ok|]. intros s Hs'. apply Hs'.
  - intros x Hx. destruct (evals_ok x). rewrite clean_column by auto. apply Hspec; [done..|]. exists (W x). by destruct (HW x).
Qed.

(** fewer of the shares that [berklekamp_welch] looks at are wrong than it could find *)
Definition singular (j : nat) : bool := (length (filter (wrong (W j) j) (take (e + k + e) sh)) <? e)%nat.
(** what [correct] leaves of one damaged column: every share counts as invalid, and comes in reverse *)
Lemma correct_damaged debug report j : (j < n)%nat → (∀ x, (x < n)%nat → x ≠ j → clean x) → ¬ clean j →
  (length (filter (wrong (W j) j) sh) ≤ e)%nat →
  correct None debug f sh report res = if debug && singular j then Panic
    else Done (if report then Err (InvalidShares (rev (map number sh))) else Ok (rev (map (repaired (W j) j) sh))).
Proof.
  intros Hj Hc Hbad Hw. destruct word_sizes as (Hk & Hm & Hr & Ht & Hl & He & Hke). destruct (HW j) as [HWl HWb].
  destruct syndrome_spec as (synd & Hsy & Hrows & Hspec). unfold correct. rewrite Hsy. cbn [obind].
  rewrite (rows_damaged debug f res n eq_refl synd sh j (W j) (debug && singular j)).
  2-4: rewrite ?Ht; done. 2: by rewrite Ht. 2: done.
  2:{ intros x Hx Hne. destruct (evals_ok x). rewrite clean_column by auto. apply Hspec; [done..|]. exists (W x). by destruct (HW x). }
  2:{ intros Hall. apply Hbad. destruct (column_ok j). apply Hspec in Hall as (p & Hp & Hpb & Hcol); [|done|done]. by apply (damaged_column j p). }
  2:{ intros x Hx. destruct (evals_ok x). rewrite repaired_column; [| |done|done].
      - apply Hspec; [done..|]. exists (W x). by destruct (HW x).
      - destruct (decide (x = j)); auto. }
  2:{ apply (berklekamp_welch_column debug f (W j) res sh j n); cbn [rs_e rs_q]; rewrite ?Hr; try done; [lia|apply shares_ok|by apply sorted_numbers| |].
      - pose proof (Nat.div_mod_eq (length sh - k) 2). lia.
      - etransitivity; [|exact Hw]. apply filter_take. }
  destruct (debug && singular j); [done|].
  cbn [obind]. rewrite (sort_by_key_unique number _ (rev (map (flipped ∘ repaired (W j) j) sh)));
    [|rewrite <-map_rev; apply StronglySorted_fmap with (R1 := flip by_number);
      [intros a b; unfold by_number, flip; simpl; lia|by apply sorted_rev]|apply Permutation_rev].
  rewrite count_while_none, drop_0, take_0.
  2:{ rewrite Ht. apply Forall_rev, Forall_map. eapply Forall_impl; [exact Hok|]. intros s [[Hb _] _]. apply Z.ltb_ge. simpl.
      unfold USIZE_MAX. lia. }
  assert (map (λ s, {| number := USIZE_MAX - number s; share_data := share_data s |}) (rev (map (flipped ∘ repaired (W j) j) sh))
    = rev (map (repaired (W j) j) sh)) as ->.
  { rewrite <-!map_rev, map_map. apply map_ext. intros s. unfold repaired. simpl. f_equal. lia. }
  cbn [app]. assert (length (rev (map (repaired (W j) j) sh)) = length sh) as -> by by rewrite length_rev, length_map.
  replace (0 =? length sh)%nat with false by (symmetry; apply Nat.eqb_neq; lia).
  cbn [negb]. rewrite andb_true_r. destruct report; [|done]. by rewrite map_rev, map_map.
Qed.
End word.
