(* ===== verification/Lagrange.v ===== *)
(** The matrix that [create_inverted_vdm] of [utils/berkleamp-welch/src/math.rs] computes: its columns are
    the coefficients of the Lagrange polynomials of the points of the data blocks. *)

From S2P Require Import Prelude Galois Matrix Poly Fec Elimination PolyRoots FecDecode FecRepair.

(** the point of block [i] in the matrix that encodes *)
Definition enc_point (i : nat) : Z := if decide (i ≠ 0)%nat then gpow 2 i else 0.

Lemma enc_point_byte i : byte (enc_point i).
Proof. unfold enc_point. case_decide; [by apply gpow_byte|done]. Qed.
Lemma enc_eval i : enc_point i = mul 2 (eval_point (Z.of_nat i)).
Proof.
  rewrite eval_point_exp. unfold enc_point. destruct i as [|i]; [done|]. rewrite exp_gpow by done. by case_decide.
Qed.
Lemma exp_index n : index EXP_TABLE (Z.of_nat (n mod 255)) = gpow 2 n.
Proof.
  rewrite <-exp_gpow by done. unfold exp. destruct n as [|n]; [done|]. cbn [Nat.eqb]. change (2 =? 0) with false. cbv iota.
  change (index LOG_TABLE 2) with 1. by rewrite Nat2Z.inj_mod, Z.mul_1_l.
Qed.
Lemma exp_index_small n : (n < 255)%nat → index EXP_TABLE (Z.of_nat n) = gpow 2 n.
Proof. intros Hn. rewrite <-exp_index. by rewrite Nat.mod_small. Qed.
Lemma enc_points_inj a b : (a < 256)%nat → (b < 256)%nat → enc_point a = enc_point b → a = b.
Proof.
  intros Ha Hb He. assert (NoDup (map enc_point (seq 0 256))) as Hnd by decided.
  apply (NoDup_lookup _ a b (enc_point a) Hnd); rewrite list_lookup_fmap, lookup_seq_lt by done; [done|]. simpl. by rewrite He.
Qed.

(** ** The product of the factors *)

Definition coef_step (k : nat) (c : list Z) (i : nat) : list Z :=
  let p_i := index EXP_TABLE (Z.of_nat i) in
  let c := fold_left (λ c j, <[j:=Z.lxor (at_ c j) (mul p_i (at_ c (j + 1)))]> c) (range (k - 1 - (i - 1)) (k - 1)) c in
  <[(k - 1)%nat:=Z.lxor (at_ c (k - 1)) p_i]> c.
Lemma vdm_coefficients_steps k : vdm_coefficients k = fold_left (coef_step k) (range 1 k) (replicate k 0).
Proof. done. Qed.

Lemma nth_insert (l : list Z) i j v : nth j (<[i:=v]> l) 0 = if decide (j = i ∧ i < length l)%nat then v else nth j l 0.
Proof.
  rewrite !nth_lookup. destruct (decide (j = i)) as [->|Hne].
  - destruct (decide (i < length l)%nat).
    + rewrite list_lookup_insert_eq, decide_True by done. done.
    + rewrite list_insert_ge, decide_False by lia. done.
  - rewrite list_lookup_insert_ne, decide_False by (done || naive_solver). done.
Qed.
Lemma sweep_spec p a n (c : list Z) : (a + n < length c)%nat →
  let c' := fold_left (λ c j, <[j:=Z.lxor (at_ c j) (mul p (at_ c (j + 1)))]> c) (seq a n) c in
  length c' = length c ∧ ∀ x, nth x c' 0 = if decide (a ≤ x < a + n)%nat then Z.lxor (nth x c 0) (mul p (nth (x + 1) c 0)) else nth x c 0.
Proof.
  revert a c. induction n as [|n IH]; intros a c Hl; cbn [seq fold_left].
  { split; [done|]. intros x. by rewrite decide_False by lia. }
  set (c1 := <[a:=_]> c). destruct (IH (S a) c1) as [Hl' Hx]; [unfold c1; rewrite length_insert; lia|].
  split; [by unfold c1 in *; rewrite Hl', length_insert|]. intros x. rewrite Hx. unfold c1. rewrite !nth_insert. unfold at_.
  repeat case_decide; try lia; try done. by replace x with a by lia.
Qed.

(** after the factors of the first [i] points *)
Definition factors (k i : nat) (c : list Z) : Prop := ∃ low, length low = i ∧ Forall byte low ∧ c = zeros (k - i) ++ low ∧
  nth 0 low 0 = 0 ∧ ∀ t, (t < i)%nat → horner (monic low) (enc_point t) = 0.

Lemma coef_step_factors k i c : (0 < i < k)%nat → (k ≤ 255)%nat → factors k i c → factors k (S i) (coef_step k c i).
Proof.
  intros Hi Hk (low & Hlow & Hlb & -> & H0 & Hroots). unfold coef_step. rewrite exp_index_small by lia. set (p := gpow 2 i).
  assert (byte p) as Hp by by apply gpow_byte.
  assert (enc_point i = p) as Hpi by (unfold enc_point; by rewrite decide_True by lia).
  unfold range. replace (k - 1 - (k - 1 - (i - 1)))%nat with (i - 1)%nat by lia.
  destruct (sweep_spec p (k - 1 - (i - 1)) (i - 1) (zeros (k - i) ++ low)) as [Hl Hx];
    [rewrite length_app, zeros_length; lia|]. set (c1 := fold_left _ _ _) in *.
  rewrite length_app, zeros_length in Hl. set (low' := zip_with add (0 :: low) (map (mul p) low ++ [p])).
  assert (length low' = S i) as Hlow' by (unfold low'; rewrite zip_add_len; rewrite ?length_app, length_map; simpl; lia).
  assert (Forall byte (map (mul p) low ++ [p])) as Hmb by (apply Forall_app; split; [apply mul_map_byte|by apply Forall_singleton]).
  assert (∀ x, (x < S i)%nat → nth x low' 0 = Z.lxor (nth x (0 :: low) 0) (nth x (map (mul p) low ++ [p]) 0)) as Hnth.
  { intros x Hxi. apply nth_zip_with; [rewrite length_app, length_map|]; simpl; lia. }
  exists low'. split; [done|]. split; [apply zip_add_byte; [by constructor|done]|]. split; [|split].
  - apply (nth_ext _ _ 0 0); [rewrite length_insert, length_app, zeros_length; lia|]. intros x Hxk. rewrite length_insert, Hl in Hxk.
    rewrite nth_insert, (nth_app_zero (zeros _)), zeros_length, nth_zeros. unfold at_. rewrite !Hx, !nth_app_zero, !zeros_length, !nth_zeros.
    destruct (decide (x < k - S i)%nat); [repeat case_decide; done || lia|]. rewrite Hnth, nth_app_zero, length_map by lia.
    rewrite nth_scale by done. destruct (decide (x = k - 1)%nat) as [->|].
    + rewrite decide_True, !decide_False by lia. replace (k - 1 - (k - S i))%nat with i by lia.
      rewrite Hlow, Nat.sub_diag. destruct i as [|i']; [lia|]. simpl. do 2 f_equal. lia.
    + rewrite decide_False by lia. destruct (decide (x = k - S i)%nat) as [->|].
      * rewrite decide_False, decide_True, Nat.sub_diag, decide_True, H0, mul_0_r by (done || lia). done.
      * rewrite decide_True, !decide_False, decide_True by lia. destruct (x - (k - S i))%nat as [|y] eqn:Ey; [lia|].
        simpl. do 2 f_equal; [lia|]. f_equal. lia.
  - rewrite Hnth by lia. destruct low as [|a low]; [simpl in *; lia|]. simpl in *. rewrite H0, mul_0_r by done. done.
  - assert (monic low' = zip_with add (0 :: monic low) (map (mul p) (monic low) ++ [0])) as ->.
    { unfold monic, low'. rewrite map_app. cbn [map]. rewrite mul_1_r by done. change (0 :: low ++ [1]) with ((0 :: low) ++ [1]).
      rewrite (zip_with_app add (0 :: low) [1]); [done|]. rewrite length_app, length_map. simpl. lia. }
    assert (Forall byte (monic low)) as Hmon by (apply Forall_app; split; [done|by repeat constructor]).
    intros t Ht. pose proof (enc_point_byte t) as Htb. assert (byte (horner (monic low) (enc_point t))) by by apply horner_mem.
    rewrite horner_xor; [|rewrite length_app, length_map; simpl; lia|by constructor|apply (pad_byte 1), mul_map_byte|done].
    rewrite (horner_pad _ 1), horner_scale by (done || apply mul_map_byte). cbn [horner]. rewrite Z.lxor_0_l.
    destruct (decide (t = i)) as [->|Hti]; [rewrite Hpi; apply Z.lxor_nilpotent|].
    rewrite Hroots by lia. rewrite !mul_0_r by done. done.
Qed.
Lemma vdm_coefficients_spec k : (1 < k ≤ 255)%nat → length (vdm_coefficients k) = k ∧ Forall byte (vdm_coefficients k) ∧
  ∀ t, (t < k)%nat → horner (monic (vdm_coefficients k)) (enc_point t) = 0.
Proof.
  intros Hk. rewrite vdm_coefficients_steps. unfold range.
  assert (∀ d i c, (0 < i)%nat → (i + d ≤ k)%nat → factors k i c → factors k (i + d) (fold_left (coef_step k) (seq i d) c)) as Hf.
  { induction d as [|d IH]; intros i c Hi Hd Hc; [by rewrite Nat.add_0_r|]. cbn [seq fold_left].
    rewrite Nat.add_succ_r. apply (IH (S i)); [lia|lia|]. apply coef_step_factors; [lia|lia|done]. }
  destruct (Hf (k - 1)%nat 1%nat (replicate k 0)) as (low & Hl & Hb & He & _ & Hr); [lia|lia| |].
  - exists [0]. split; [done|]. split; [by repeat constructor|]. split; [|split; [done|]].
    + change [0] with (zeros 1). unfold zeros. rewrite <-replicate_add. f_equal. lia.
    + intros t Ht. replace t with 0%nat by lia. by vm_compute.
  - replace (1 + (k - 1))%nat with k in * by lia. rewrite Nat.sub_diag in He. cbn [zeros replicate app] in He. rewrite He. done.
Qed.

(** ** The quotient by one factor *)

Lemma synth_nth l a i : (S i < length l)%nat → nth i (synth l a) 0 = horner (drop (S i) l) a.
Proof.
  revert i. induction l as [|c [|d l] IH]; intros i Hi; simpl in Hi; [lia|lia|]. rewrite synth_cons.
  destruct i as [|i]; [done|]. cbn [nth]. rewrite IH by (simpl; lia). done.
Qed.
Lemma horner_drop (l : list Z) i a : (i < length l)%nat → horner (drop i l) a = Z.lxor (nth i l 0) (mul a (horner (drop (S i) l) a)).
Proof.
  intros Hi. destruct (lookup_lt_is_Some_2 l i Hi) as [x Hx]. rewrite (drop_S l x i Hx). simpl.
  by rewrite (nth_lookup_Some _ _ _ _ Hx).
Qed.

(* [b] and [t] when the entries from [s] on are done *)
Definition divided (c : list Z) (p : Z) (s : nat) : list Z * Z :=
  let b := synth (monic c) p in (zeros s ++ drop s b, horner (drop s b) p).
Definition divide_step (c : list Z) (p : Z) (bt : list Z * Z) (i : nat) : list Z * Z :=
  let '(b, t) := bt in
  let b := <[i:=Z.lxor (at_ c (i + 1)) (mul p (at_ b (i + 1)))]> b in (b, Z.lxor (at_ b i) (mul p t)).
Lemma divided_step c p s : (S s < length c)%nat → divide_step c p (divided c p (S s)) s = divided c p s.
Proof.
  intros Hs. unfold divided, divide_step. set (b := synth (monic c) p).
  assert (length b = length c) as Hb by (unfold b; rewrite synth_length; unfold monic; rewrite length_app; simpl; lia).
  assert (drop s b = nth s b 0 :: drop (S s) b) as Hd.
  { destruct (lookup_lt_is_Some_2 b s) as [x Hx]; [lia|]. rewrite (drop_S b x s Hx). by rewrite (nth_lookup_Some _ _ _ _ Hx). }
  assert (nth s b 0 = Z.lxor (at_ c (s + 1)) (mul p (at_ (zeros (S s) ++ drop (S s) b) (s + 1)))) as Hn.
  { unfold at_. rewrite nth_app_zero, zeros_length, decide_False by lia. replace (s + 1 - S s)%nat with 0%nat by lia.
    rewrite (nth_lookup (drop _ _)), lookup_drop, Nat.add_0_r, <-nth_lookup. unfold b.
    assert (length (monic c) = S (length c)) as Hm by (unfold monic; rewrite length_app; simpl; lia).
    rewrite !synth_nth, horner_drop by lia. unfold monic at 1. rewrite nth_app_zero, decide_True by lia. by rewrite Nat.add_1_r. }
  rewrite <-Hn. unfold at_. rewrite nth_insert, decide_True by (split; [done|rewrite length_app, zeros_length; lia]).
  f_equal; [|by rewrite Hd].
  rewrite Hd. replace (zeros (S s)) with (zeros s ++ [0]) by (symmetry; apply replicate_cons_app).
  rewrite <-app_assoc. apply (nth_ext _ _ 0 0); [by rewrite length_insert, !length_app|]. intros x Hx.
  rewrite nth_insert, !(nth_app_zero (zeros s)), zeros_length. rewrite length_insert, !length_app, zeros_length in Hx. cbn [length] in Hx.
  rewrite !length_app, zeros_length. cbn [length]. destruct (decide (x < s)%nat); [rewrite decide_False by lia; done|].
  destruct (decide (x = s)) as [->|]; [rewrite decide_True by lia; by rewrite Nat.sub_diag|]. rewrite decide_False by lia.
  destruct (x - s)%nat eqn:E; [lia|done].
Qed.

(** the polynomial of row [r] *)
Definition basis (k r : nat) : list Z :=
  if decide (k = 1)%nat then [1] else vdm_column k r (vdm_coefficients k).
Lemma vdm_column_spec k r : (1 < k ≤ 255)%nat → (r < k)%nat → let b := synth (monic (vdm_coefficients k)) (enc_point r) in
  vdm_column k r (vdm_coefficients k) = map (mul (index INV_TABLE (horner b (enc_point r)))) b.
Proof.
  intros Hk Hr b. destruct (vdm_coefficients_spec k Hk) as (Hl & Hb & _). unfold vdm_column.
  assert ((if decide (r ≠ 0)%nat then index EXP_TABLE (Z.of_nat r) else 0) = enc_point r) as ->.
  { unfold enc_point. case_decide; [|done]. apply exp_index_small. lia. }
  set (c := vdm_coefficients k) in *. set (p := enc_point r) in *.
  assert (length b = k) as Hbl by (unfold b; rewrite synth_length; unfold monic; rewrite length_app; simpl; lia).
  assert (fold_left (divide_step c p) (rev (range 0 (k - 1))) (<[(k - 1)%nat:=1]> (replicate k 0), 1) = (b, horner b p)) as Hfold.
  { change (b, horner b p) with (divided c p 0). unfold range. rewrite Nat.sub_0_r.
    assert (∀ s, (s < k)%nat → fold_left (divide_step c p) (rev (seq 0 s)) (divided c p s) = divided c p 0) as Hs.
    { induction s as [|s IH]; intros Hs; [done|]. rewrite seq_S, rev_app_distr. cbn [rev app fold_left Nat.add].
      rewrite divided_step by lia. apply IH. lia. }
    rewrite <-(Hs (k - 1)%nat) by lia. f_equal. unfold divided. fold b.
    assert (drop (k - 1) b = [1]) as ->.
    { destruct (lookup_lt_is_Some_2 b (k - 1)) as [x Hx]; [lia|]. rewrite (drop_S b x (k - 1) Hx), drop_ge by lia. f_equal.
      rewrite <-(nth_lookup_Some _ _ 0 _ Hx). unfold b. assert (length (monic c) = S k) as Hm by (unfold monic; rewrite length_app; simpl; lia).
      rewrite synth_nth by lia. replace (S (k - 1)) with (length c) by lia. unfold monic. rewrite drop_app_length. simpl.
      rewrite mul_0_r; [done|]. apply enc_point_byte. }
    simpl. rewrite mul_0_r by apply enc_point_byte. f_equal. apply (nth_ext _ _ 0 0).
    { rewrite length_insert, length_replicate, length_app, zeros_length. simpl. lia. }
    intros x Hx. rewrite length_insert, length_replicate in Hx. change (replicate k 0) with (zeros k).
    rewrite nth_insert, zeros_length, nth_app_zero, zeros_length, !nth_zeros. destruct (decide (x = k - 1)%nat) as [->|].
    - rewrite decide_True, decide_False, Nat.sub_diag by lia. done.
    - rewrite decide_False, decide_True by lia. done. }
  unfold divide_step in Hfold. rewrite Hfold. done.
Qed.
(** 1 at its own point and 0 at the points of the other data blocks *)
Lemma basis_spec k r : (r < k ≤ 255)%nat → length (basis k r) = k ∧ Forall byte (basis k r) ∧
  ∀ i, (i < k)%nat → horner (basis k r) (enc_point i) = if decide (i = r) then 1 else 0.
Proof.
  intros Hr. unfold basis. destruct (decide (k = 1)%nat) as [->|Hk1].
  { split; [done|]. split; [by repeat constructor|]. intros i Hi. rewrite decide_True by lia. simpl.
    rewrite mul_0_r; [done|apply enc_point_byte]. }
  assert (1 < k ≤ 255)%nat as Hk by lia. rewrite vdm_column_spec by lia.
  destruct (vdm_coefficients_spec k Hk) as (Hl & Hb & Hroots). set (M := monic (vdm_coefficients k)) in *.
  assert (Forall byte M) as HM by (apply Forall_app; split; [done|by repeat constructor]).
  assert (length M = S k) as HMl by (unfold M, monic; rewrite length_app; simpl; lia).
  pose proof (enc_point_byte r) as Hpb. set (p := enc_point r) in *. set (b := synth M p).
  assert (length b = k) as Hbl by (unfold b; rewrite synth_length; lia).
  assert (Forall byte b) as Hbb by by apply synth_byte.
  assert (∀ i, (i < k)%nat → i ≠ r → horner b (enc_point i) = 0) as Hother.
  { intros i Hi Hir. pose proof (enc_point_byte i) as Hib. apply dec_stable. intros Hne.
    pose proof (synth_spec M p (enc_point i) HM Hpb Hib) as Hsy. fold b in Hsy.
    unfold p in Hsy. rewrite !Hroots in Hsy by lia. fold p in Hsy. rewrite Z.lxor_0_r in Hsy.
    apply (mul_nonzero (Z.lxor (enc_point i) p) (horner b (enc_point i))); [bytes|by apply horner_mem| |done|].
    - apply lxor_neq. intros He. apply Hir. apply enc_points_inj; [lia|lia|done].
    - symmetry. apply Hsy. by destruct M. }
  assert (horner b p ≠ 0) as Hne.
  { intros Hz. assert (all_zero b) as Hall.
    { apply (roots_zero b (map enc_point (seq 0 k))); [|apply Forall_map, Forall_forall; intros; apply enc_point_byte|done| |].
      - apply (NoDup_fmap_2_strong enc_point); [|apply NoDup_seq]. intros x y Hx%elem_of_seq Hy%elem_of_seq. apply enc_points_inj; lia.
      - rewrite length_map, length_seq. lia.
      - intros x (i & -> & Hi%elem_of_seq)%list_elem_of_fmap. destruct (decide (i = r)) as [->|]; [done|apply Hother; [lia|done]]. }
    assert (all_zero M) as HMz by (apply (synth_zero M p); [done|done|apply Hroots; lia]).
    unfold M, monic in HMz. apply Forall_app in HMz as [_ H1]. inversion H1 as [|? ? Hone]. discriminate Hone. }
  destruct (inv_spec (horner b p)) as [Hi1 Hi2]; [by apply horner_mem|done|]. set (inv := index INV_TABLE _) in *.
  split; [by rewrite length_map|]. split; [apply mul_map_byte|]. intros i Hi. pose proof (enc_point_byte i).
  rewrite horner_scale by done. case_decide as Hd; [by rewrite Hd|]. rewrite Hother by done. by apply mul_0_r.
Qed.

(** ** The matrix *)

Lemma inverted_columns (vdm : Matrix) (v : nat → list Z) k n : (k ≤ length vdm)%nat → Forall (λ l, (n ≤ length l)%nat) vdm →
  let out := fold_left (λ vdm r, imap (λ col l, if decide (col < k)%nat then <[r:=at_ (v r) col]> l else l) vdm) (seq 0 n) vdm in
  length out = length vdm ∧ Forall2 (λ l l', length l = length l') vdm out ∧
  ∀ i r, (i < k)%nat → (r < n)%nat → entry out i r = nth i (v r) 0.
Proof.
  intros Hk Hl. induction n as [|n IH].
  { split; [done|]. split; [by apply Forall_Forall2_diag, Forall_true|]. lia. }
  destruct IH as (Hlen & H2 & He); [eapply Forall_impl; [exact Hl|]; simpl; lia|].
  rewrite seq_S, fold_left_app. cbn [fold_left Nat.add]. set (o := fold_left _ (seq 0 n) vdm) in *.
  split; [by rewrite length_imap|]. split.
  - apply Forall2_same_length_lookup_2; [by rewrite length_imap|]. intros i l l' Hli Hli'. rewrite list_lookup_imap in Hli'.
    destruct (o !! i) as [l0|] eqn:Ho; [|done]. injection Hli' as <-. pose proof (Forall2_lookup_lr _ _ _ _ _ _ H2 Hli Ho) as ->.
    case_decide; [by rewrite length_insert|done].
  - intros i r Hi Hr. destruct (lookup_lt_is_Some_2 vdm i) as [l Hli]; [lia|].
    destruct (lookup_lt_is_Some_2 o i) as [l0 Ho]; [lia|]. pose proof (Forall2_lookup_lr _ _ _ _ _ _ H2 Hli Ho) as Hll.
    rewrite Forall_forall in Hl. pose proof (Hl l (list_elem_of_lookup_2 _ _ _ Hli)) as Hln.
    unfold entry, row. rewrite (nth_lookup (imap _ _)), list_lookup_imap, Ho. simpl. rewrite decide_True, nth_insert by done.
    cbv beta in Hll.
    destruct (decide (r = n)) as [->|]; [by rewrite decide_True by lia|]. rewrite decide_False by lia.
    rewrite <-(He i r) by lia. unfold entry, row. by rewrite (nth_lookup_Some _ _ _ _ Ho).
Qed.
Lemma inverted_vdm_spec k m : (0 < k < m)%nat → ∃ vdm, create_inverted_vdm k (replicate m (zeros k)) = Done vdm ∧
  length vdm = m ∧ ∀ i r, (i < k)%nat → (r < k)%nat → entry vdm i r = nth i (basis k r) 0.
Proof.
  intros Hk. unfold create_inverted_vdm, assert_that. rewrite length_replicate, decide_True by lia. cbn [obind]. unfold basis.
  destruct (decide (k = 1)%nat) as [->|Hk1].
  - eexists. split; [done|]. split; [by rewrite length_insert, length_replicate|]. intros i r Hi Hr.
    replace i with 0%nat by lia. replace r with 0%nat by lia. destruct m as [|m]; [lia|]. done.
  - destruct (inverted_columns (replicate m (zeros k)) (λ r, vdm_column k r (vdm_coefficients k)) k k) as (Hl & _ & He).
    + rewrite length_replicate. lia.
    + apply Forall_replicate. by rewrite zeros_length.
    + unfold range. rewrite Nat.sub_0_r. eexists. split; [done|]. split; [by rewrite Hl, length_replicate|]. exact He.
Qed.

(** ** Code words *)

Lemma fold_left_ext_in {A B} (f g : A → B → A) l a : (∀ a x, x ∈ l → f a x = g a x) → fold_left f l a = fold_left g l a.
Proof.
  revert a. induction l as [|x l IH]; intros a Hfg; [done|]. simpl. rewrite (Hfg a x) by by left. apply IH. intros. apply Hfg. by right.
Qed.
Lemma fold_powers x l s a : Forall byte l → byte x → byte a →
  fold_left (λ acc i, Z.lxor acc (mul (gpow x i) (nth (i - s) l 0))) (seq s (length l)) a = Z.lxor a (mul (gpow x s) (horner l x)).
Proof.
  intros Hl Hx. revert s a. induction Hl as [|c l Hc Hl IH]; intros s a Ha; cbn [length seq fold_left horner].
  { rewrite mul_0_r by bytes. by rewrite Z.lxor_0_r. }
  rewrite Nat.sub_diag. cbn [nth]. assert (byte (horner l x)) by by apply horner_mem.
  rewrite (fold_left_ext_in _ (λ acc i, Z.lxor acc (mul (gpow x i) (nth (i - S s) l 0)))).
  - rewrite IH by bytes. rewrite mul_lxor_r, gpow_S, mul_assoc, (mul_comm (gpow x s) x) by bytes. apply Z.lxor_assoc.
  - intros acc i Hi%elem_of_seq. replace (i - s)%nat with (S (i - S s)) by lia. done.
Qed.

Lemma enc_rows k m f i : fec_new k m = Done f → (i < m)%nat → enc_matrix f !! i =
  Some (if decide (i < k)%nat then unit_row k i else map (λ c, horner (basis k c) (enc_point i)) (seq 0 k)).
Proof.
  intros Hf Hi. pose proof (fec_new_spec k m) as Hs. destruct (decide (0 < k < m ∧ m ≤ 256)%nat) as [[Hk Hm]|]; [|congruence].
  clear Hs. unfold fec_new, assert_that in Hf. rewrite !decide_True in Hf by lia. cbn [obind] in Hf.
  destruct (inverted_vdm_spec k m Hk) as (vdm & Hv & Hvl & He). rewrite Hv in Hf. cbn [obind] in Hf. injection Hf as <-.
  cbn [enc_matrix]. rewrite list_lookup_fmap. unfold range. rewrite !Nat.sub_0_r, lookup_seq_lt by done. cbn [fmap option_fmap option_map Nat.add].
  f_equal. case_decide as Hik; [done|]. set (vdm' := imap _ vdm). unfold enc_row, range. rewrite Nat.sub_0_r.
  apply map_ext_in. intros c Hc%list_elem_of_In%elem_of_seq.
  destruct (basis_spec k c) as (Hbl & Hbb & _); [lia|].
  rewrite (fold_left_ext_in _ (λ acc j, Z.lxor acc (mul (gpow (enc_point i) j) (nth (j - 0) (basis k c) 0)))).
  - pose proof (fold_powers (enc_point i) (basis k c) 0 0 Hbb (enc_point_byte i) ltac:(done)) as Hfp. rewrite Hbl in Hfp.
    rewrite Hfp, Z.lxor_0_l. change (gpow (enc_point i) 0) with 1. apply mul_1_l. apply horner_mem; [done|apply enc_point_byte].
  - intros acc j Hj%elem_of_seq. rewrite Nat.sub_0_r, <-He by lia. do 2 f_equal.
    + destruct (lookup_lt_is_Some_2 vdm i) as [l Hl]; [lia|]. unfold entry, row, vdm'.
      rewrite (nth_lookup (imap _ _)), list_lookup_imap, Hl.
      cbn [fmap option_fmap option_map default from_option]. unfold id. rewrite decide_False by done.
      rewrite nth_lookup, list_lookup_fmap, lookup_seq_lt by lia. cbn [fmap option_fmap option_map default from_option Nat.add]. unfold id.
      change (254 - (Nat.divmod (i * j) 254 0 254).2)%nat with (i * j mod 255)%nat. rewrite exp_index.
      unfold enc_point. rewrite decide_True by lia. rewrite gpow_gpow; done.
    + destruct (lookup_lt_is_Some_2 vdm j) as [l Hl]; [lia|]. unfold entry, row, vdm'.
      rewrite (nth_lookup (imap _ _)), list_lookup_imap, Hl. simpl. rewrite decide_True by lia. by rewrite (nth_lookup vdm), Hl.
Qed.

(* a combination of polynomials of [k] coefficients *)
Lemma combination k (bs : list (list Z)) v : Forall (λ b, length b = k ∧ Forall byte b) bs → Forall byte v → length bs = length v →
  ∃ p, length p = k ∧ Forall byte p ∧ ∀ x, byte x → horner p x = dot (map (λ b, horner b x) bs) v.
Proof.
  intros Hb. revert v. induction Hb as [|b bs [Hbl Hbb] _ IH]; intros [|a v] Hv Hl; simplify_eq/=.
  { exists (zeros k). split; [apply zeros_length|]. split; [apply zeros_byte|]. intros x Hx. by apply horner_zeros. }
  apply Forall_cons in Hv as [Ha Hv]. destruct (IH v Hv Hl) as (p & Hp & Hpb & Hx).
  exists (zip_with add p (map (mul a) b)). assert (length p = length (map (mul a) b)) as Hlen by by rewrite length_map, Hp.
  split; [by rewrite zip_add_len, length_map|]. split; [apply zip_add_byte; [done|apply mul_map_byte]|]. intros x Hxb.
  rewrite horner_xor, horner_scale, Hx by (done || apply mul_map_byte). rewrite dot_cons, Z.lxor_comm. f_equal.
  apply mul_comm; [done|by apply horner_mem].
Qed.
(* the polynomial of [2 * x] *)
Lemma doubled p : Forall byte p → ∃ p', length p' = length p ∧ Forall byte p' ∧ ∀ x, byte x → horner p' x = horner p (mul 2 x).
Proof.
  induction 1 as [|a p Ha Hp IH]; [by exists []|]. destruct IH as (p' & Hl & Hb & Hx).
  exists (a :: map (mul 2) p'). split; [simpl; by rewrite length_map, Hl|]. split; [constructor; [done|apply mul_map_byte]|].
  intros x Hxb. cbn [horner]. assert (byte (mul 2 x)) by by apply mul_byte. assert (byte (horner p (mul 2 x))) by by apply horner_mem.
  rewrite horner_scale, Hx by done. rewrite mul_assoc, (mul_comm x 2) by done. done.
Qed.

(** What a column of data is encoded to is the values of one polynomial at the points of the shares. *)
Lemma encoded_column k m f v : fec_new k m = Done f → length v = k → Forall byte v →
  ∃ P, length P = k ∧ Forall byte P ∧ ∀ i r, enc_matrix f !! i = Some r → dot r v = horner P (eval_point (Z.of_nat i)).
Proof.
  intros Hf Hv Hvb. destruct (fec_new_vand k m f Hf) as ([Hk Hm] & _ & Ht & _).
  destruct (combination k (map (basis k) (seq 0 k)) v) as (Q & HQ & HQb & HQx).
  { apply Forall_map, Forall_forall. intros c Hc%elem_of_seq. destruct (basis_spec k c) as (? & ? & _); [lia|done]. }
  { done. } { by rewrite length_map, length_seq. }
  destruct (doubled Q HQb) as (P & HP & HPb & HPx). exists P. split; [congruence|]. split; [done|]. intros i r Hr.
  assert (i < m)%nat as Hi.
  { pose proof (fec_new_spec k m) as Hs. rewrite decide_True in Hs by done. destruct Hs as (f' & Hf' & Hok & _).
    rewrite Hf in Hf'. injection Hf' as <-. destruct Hok as [_ _ [Hl _] _ _]. rewrite <-Ht, <-Hl. by eapply lookup_lt_Some. }
  rewrite (enc_rows k m f i Hf Hi) in Hr. injection Hr as <-. rewrite HPx, <-enc_eval, HQx by (apply eval_point_byte || apply enc_point_byte).
  f_equal. rewrite map_map. case_decide as Hik; [|done]. apply (nth_ext _ _ 0 0); [by rewrite length_unit_row, length_map, length_seq|].
  intros c Hc. rewrite length_unit_row in Hc. rewrite nth_unit_row by done.
  rewrite nth_lookup, list_lookup_fmap, lookup_seq_lt by done. simpl. destruct (basis_spec k c) as (_ & _ & ->); [lia| |done].
  repeat case_decide; congruence.
Qed.
