(* ===== verification/FecRoundtrip.v ===== *)
(** Encoding, damage and [decode] of [utils/berkleamp-welch/src/fec.rs] together: one damaged column of bytes
    is repaired, a second one is an error. *)

From S2P Require Import Prelude Galois Matrix Poly Fec Elimination PolyRoots FecDecode FecRepair Lagrange.

(** ** Rebuilding when nothing is lost *)

Lemma sorted_prefix s k l : StronglySorted by_number l → Forall (λ a, Z.of_nat s ≤ number a) l →
  (∀ i, (s ≤ i < s + k)%nat → Z.of_nat i ∈ map number l) → map number (take k l) = map Z.of_nat (seq s k).
Proof.
  intros Hs. revert s k. induction Hs as [|a l Hs IH Ha]; intros s k Hb Hin.
  { destruct k as [|k]; [done|]. destruct (not_elem_of_nil (Z.of_nat s)). apply Hin. lia. }
  destruct k as [|k]; [done|]. apply Forall_cons in Hb as [Hab Hb]. rewrite Forall_forall in Ha.
  assert (number a = Z.of_nat s) as Has.
  { assert (Z.of_nat s ∈ map number (a :: l)) as [He|(b & He & Hbl)%list_elem_of_fmap]%elem_of_cons by (apply Hin; lia); [done|].
    pose proof (Ha b Hbl) as Hlt. unfold by_number in Hlt. lia. }
  cbn [take map seq]. rewrite Has. f_equal. apply IH.
  - apply Forall_forall. intros b Hbl. pose proof (Ha b Hbl) as Hlt. unfold by_number in Hlt. lia.
  - intros i Hi. assert (Z.of_nat i ∈ map number (a :: l)) as [He|Hil]%elem_of_cons by (apply Hin; lia); [lia|done].
Qed.

Section intact.
Context (f : Fec) (Hf : fec_ok f) (ds : list (list Z)) (n : nat).
Context (Hlen : length ds = required f) (Hn : Forall (λ b, length b = n) ds).
Notation k := (required f).
Notation D := (map (data_share ds) (seq 0 k)).

Lemma identity_inverted : invert_matrix None k (map (unit_row k) (seq 0 k)) = Done (Some (map (unit_row k) (seq 0 k))).
Proof.
  assert (0 < k)%nat as Hk by apply Hf.
  assert (with_row k 0 (unit_row k 0) = map (unit_row k) (seq 0 k)) as <-.
  { unfold with_row. apply list_insert_id. by rewrite list_lookup_fmap, lookup_seq_lt. }
  apply invert_one_row; try done; try apply length_unit_row; try apply unit_row_byte.
  - by rewrite nth_unit_row.
  - unfold scale_pivot. by rewrite nth_unit_row.
Qed.
Lemma sorted_by_data s m : (s + m ≤ k)%nat → let key s := if decide (Z.of_nat k < number s) then USIZE_MAX - number s else number s in
  StronglySorted (λ a b, key a < key b) (map (data_share ds) (seq s m)).
Proof.
  intros Hm key. revert s Hm. induction m as [|m IH]; intros s Hm; simpl; constructor; [apply IH; lia|].
  apply Forall_map, Forall_forall. intros j Hj%elem_of_seq. unfold key. simpl. rewrite !decide_False by lia. lia.
Qed.
Lemma rebuild_intact l l' : l ≡ₚ l' → StronglySorted by_number l' → take k l' = D →
  ∃ out, rebuild None f l = Done (Ok out) ∧ map share_data out = ds.
Proof.
  intros Hp Hs Htake. assert (0 < k)%nat as Hk by apply Hf. assert (length D = k) as HD by by rewrite length_map, length_seq.
  assert (map share_data D = ds) as Hds by (rewrite map_map; apply (nth_ext _ _ [] []); [by rewrite length_map, length_seq|];
    intros i Hi; rewrite length_map, length_seq in Hi; rewrite nth_lookup, list_lookup_fmap, lookup_seq_lt by done; done).
  assert (Forall (λ s, length (share_data s) = n) D) as Hbl.
  { apply Forall_lookup_2. intros i s Hi. assert (ds !! i = Some (share_data s)) as Hd by by rewrite <-Hds, list_lookup_fmap, Hi.
    rewrite Forall_lookup in Hn. by apply (Hn i). }
  unfold rebuild. rewrite (sort_by_key_unique _ _ l') by done. cbv zeta.
  assert (k ≤ length l')%nat by (rewrite <-HD, <-Htake, length_take; lia). rewrite decide_False, Htake by lia.
  destruct (lookup_lt_is_Some_2 D 0) as [s0 Hs0]; [lia|]. rewrite Hs0. cbn [unwrap obind].
  assert (length (share_data s0) = n) as -> by (rewrite Forall_lookup in Hbl; by apply (Hbl 0%nat)).
  rewrite decide_False by (rewrite Exists_exists; intros (s & Hin & Hne); rewrite Forall_forall in Hbl; auto).
  assert (Forall (λ s, (number s <? Z.of_nat k) = true) D) as Hlow
    by (apply Forall_map, Forall_forall; intros j Hj%elem_of_seq; apply Z.ltb_lt; simpl; lia).
  assert (count_while (λ s, number s <? Z.of_nat k) D = k) as ->.
  { rewrite <-HD at 2. rewrite <-(app_nil_r D) at 1. by apply count_while_all. }
  rewrite drop_ge, take_ge by lia. unfold range. rewrite Nat.sub_0_r.
  change (map (λ i, <[i:=1]> (zeros k)) (seq 0 k)) with (map (unit_row k) (seq 0 k)).
  assert (∀ ids mx, stand_in f ids [] mx = Done ([], mx)) as -> by (by intros [|]). cbn [obind fst snd].
  rewrite app_nil_r, (sort_by_key_unique _ D D), identity_inverted;
    [|by apply sorted_by_data|done]. cbn [obind].
  rewrite fill_loop_skip; [by exists D| |rewrite length_map, length_seq; lia].
  intros j s _ Hj. rewrite Forall_lookup in Hlow. by apply Z.ltb_lt, (Hlow j).
Qed.
End intact.

(** ** [decode] on the shares of a code word *)

Lemma resources_new_spec k n shares : NoDup (map number shares) → (k + 2 ≤ length shares)%nat →
  Forall (λ s, length (share_data s) = n) shares → resources_new k shares = Done (Ok (sort_by_key number shares,
    {| share_len := n; rs_e := (length shares - k) / 2; rs_q := (length shares - k) / 2 + k |})).
Proof.
  intros Hnd Hl Hn. destruct (sort_by_number shares Hnd) as [Hs Hp]. unfold resources_new. set (sh := sort_by_key number shares) in *.
  rewrite duplicates_none by by rewrite Hp. assert (length sh = length shares) as -> by by rewrite Hp.
  rewrite decide_False by lia. destruct (lookup_lt_is_Some_2 sh 0) as [s0 Hs0]; [rewrite Hp; lia|].
  assert (Forall (λ s, length (share_data s) = n) sh) as Hb by by rewrite Hp.
  rewrite Hs0. cbn [unwrap obind]. assert (length (share_data s0) = n) as -> by (rewrite Forall_lookup in Hb; by apply (Hb 0%nat)).
  rewrite decide_False by (rewrite Exists_exists; intros (s & Hin & Hne); rewrite Forall_forall in Hb; auto).
  rewrite decide_False; [done|]. pose proof (Nat.div_mod_eq (length shares - k) 2). pose proof (Nat.mod_upper_bound (length shares - k) 2). lia.
Qed.

Section decode.
Context (f : Fec) (k m : nat) (Hf : fec_new k m = Done f) (shares : list Share) (n : nat).
Context (Hnd : NoDup (map number shares)) (Hok : Forall (λ s, share_ok n s ∧ number s < Z.of_nat m) shares).
Context (Hlen : (k + 2 ≤ length shares)%nat) (Hdata : ∀ i, (i < k)%nat → Z.of_nat i ∈ map number shares).
Context (W : nat → list Z) (HW : ∀ x, length (W x) = k ∧ Forall byte (W x)).
Context (j : nat) (Hj : (j < n)%nat) (Hclean : ∀ x, (x < n)%nat → x ≠ j → clean shares W x).
Context (Hfew : (length (filter (wrong (W j) j) shares) ≤ (length shares - k) / 2)%nat).
(** the data blocks of the code word *)
Definition word_data : list (list Z) := map (λ i, map (λ x, horner (W x) (eval_point (Z.of_nat i))) (seq 0 n)) (seq 0 k).
Notation sh := (sort_by_key number shares).
Notation res := {| share_len := n; rs_e := (length sh - k) / 2; rs_q := (length sh - k) / 2 + k |}.

Lemma sorted_shares : StronglySorted by_number sh ∧ sh ≡ₚ shares.
Proof. by apply sort_by_number. Qed.
Lemma sorted_ok : Forall (λ s, share_ok n s ∧ number s < Z.of_nat m) sh ∧ (k + 2 ≤ length sh)%nat ∧
  (∀ x, clean sh W x ↔ clean shares W x) ∧ length (filter (wrong (W j) j) sh) = length (filter (wrong (W j) j) shares).
Proof.
  destruct sorted_shares as [_ Hp]. split; [by rewrite Hp|]. split; [by rewrite Hp|]. split; [intros x; unfold clean; by rewrite Hp|].
  by rewrite Hp.
Qed.
(* shares whose bytes are those of the code word start with the data *)
Lemma data_first l : StronglySorted by_number l → map number l = map number sh →
  Forall (λ s, length (share_data s) = n ∧ ∀ x, (x < n)%nat → nth x (share_data s) 0 = horner (W x) (eval_point (number s))) l →
  take k l = map (data_share word_data) (seq 0 k).
Proof.
  intros Hs Hnum Hl. destruct sorted_ok as (Hsok & Hsl & _). destruct sorted_shares as [_ Hp].
  assert (map number (take k l) = map Z.of_nat (seq 0 k)) as Htk.
  { apply (sorted_prefix 0); [done| |].
    - apply Forall_forall. intros s Hin. assert (number s ∈ map number sh) as (s' & -> & Hin')%list_elem_of_fmap
        by (rewrite <-Hnum; by apply list_elem_of_fmap_2).
      rewrite Forall_forall in Hsok. destruct (Hsok s' Hin') as [[Hb _] _]. lia.
    - intros i Hi. rewrite Hnum, Hp. apply Hdata. lia. }
  apply list_eq. intros i. destruct (decide (i < k)%nat) as [Hi|Hi].
  - apply (f_equal (λ l, l !! i)) in Htk. rewrite !list_lookup_fmap, lookup_seq_lt in Htk by done.
    rewrite list_lookup_fmap, lookup_seq_lt by done. destruct (take k l !! i) as [s|] eqn:Es; [|done]. simpl in Htk |- *.
    injection Htk as Hns. f_equal. unfold data_share. destruct s as [ns d]. cbn [number] in Hns. f_equal; [done|].
    rewrite lookup_take_lt in Es by done. rewrite Forall_lookup in Hl. destruct (Hl i _ Es) as [Hd Hx]. cbn [number share_data] in Hd, Hx.
    unfold word_data. rewrite nth_lookup, list_lookup_fmap, lookup_seq_lt by done. simpl.
    apply (nth_ext _ _ 0 0); [by rewrite Hd, length_map, length_seq|]. intros x Hxn. rewrite Hd in Hxn. rewrite Hx, Hns by done.
    rewrite nth_lookup, list_lookup_fmap, lookup_seq_lt by done. done.
  - rewrite !lookup_ge_None_2; [done|rewrite length_map, length_seq; lia|rewrite length_take; lia].
Qed.
Lemma word_data_ok : fec_ok f ∧ length word_data = required f ∧ Forall (λ b, length b = n) word_data.
Proof.
  destruct (fec_new_vand k m f Hf) as (Hkm & -> & _). split; [|split].
  - pose proof (fec_new_spec k m) as Hs. rewrite decide_True in Hs by done. destruct Hs as (f' & Hf' & Hfok & _).
    rewrite Hf in Hf'. by injection Hf' as <-.
  - unfold word_data. by rewrite length_map, length_seq.
  - apply Forall_map, Forall_forall. intros i _. by rewrite length_map, length_seq.
Qed.
Lemma rebuild_word l l' : l ≡ₚ l' → StronglySorted by_number l' → map number l' = map number sh →
  Forall (λ s, length (share_data s) = n ∧ ∀ x, (x < n)%nat → nth x (share_data s) 0 = horner (W x) (eval_point (number s))) l' →
  ∃ out, rebuild None f l = Done (Ok out) ∧ map share_data out = word_data.
Proof.
  intros Hp Hs Hnum Hl. destruct word_data_ok as (Hfok & Hwl & Hwn). destruct (fec_new_vand k m f Hf) as (_ & Hr & _).
  apply (rebuild_intact f Hfok word_data n Hwl Hwn l l' Hp Hs). rewrite Hr. by apply data_first.
Qed.
Lemma clean_bytes x s : clean sh W x → s ∈ sh → nth x (share_data s) 0 = horner (W x) (eval_point (number s)).
Proof. intros Hc Hin. unfold clean in Hc. rewrite Forall_forall in Hc. by apply dec_stable, Hc. Qed.

Lemma decode_word debug report :
  if decide (clean shares W j) then ∃ out, decode None debug f shares report = Done (Ok out) ∧ map share_data out = word_data
  else if debug && singular k sh W j then decode None debug f shares report = Panic
  else if report then decode None debug f shares report = Done (Err (Correct (InvalidShares (rev (map number sh)))))
  else ∃ out, decode None debug f shares report = Done (Ok out) ∧ map share_data out = word_data.
Proof.
  destruct sorted_shares as [Hs Hp]. destruct sorted_ok as (Hsok & Hsl & Hc & Hw). destruct (fec_new_vand k m f Hf) as (_ & Hr & _).
  assert (Forall (λ s, share_ok n s) sh) as Hso by by apply (shares_ok m).
  assert (Forall (λ s, length (share_data s) = n) shares) as Hn
    by (eapply Forall_impl; [exact Hok|]; intros s [(_ & Hb & _) _]; exact Hb).
  unfold decode. rewrite Hr, (resources_new_spec k n) by done. cbn [obind].
  assert (length shares = length sh) as Hll by by rewrite Hp. rewrite Hll.
  assert (∀ x, (x < n)%nat → x ≠ j → clean sh W x) as Hclean' by (intros; apply Hc; by apply Hclean).
  destruct (decide (clean shares W j)) as [Hcj|Hcj].
  - assert (∀ x, (x < n)%nat → clean sh W x) as Hall by (intros x Hx; destruct (decide (x = j)) as [->|]; [by apply Hc|by apply Hclean']).
    rewrite (correct_clean f k m Hf sh n Hs Hsok Hsl W HW debug report Hall). cbn [obind].
    destruct (rebuild_word sh sh) as (out & -> & Ho); [done|done|done| |cbn [obind]; by exists out].
    apply Forall_forall. intros s Hin. rewrite Forall_forall in Hso. split; [apply Hso, Hin|]. intros x Hx. apply clean_bytes; auto.
  - rewrite (correct_damaged f k m Hf sh n Hs Hsok Hsl W HW debug report j Hj Hclean'); [|by rewrite Hc|by rewrite Hw, <-Hll].
    destruct (debug && singular k sh W j); [done|]. cbn [obind]. destruct report; [done|]. cbn [obind].
    destruct (rebuild_word (rev (map (repaired (W j) j) sh)) (map (repaired (W j) j) sh)) as (out & -> & Ho);
      [symmetry; apply Permutation_rev| | | |cbn [obind]; by exists out].
    + by apply StronglySorted_fmap with (R1 := by_number).
    + by rewrite map_map.
    + apply Forall_map, Forall_forall. intros s Hin. rewrite Forall_forall in Hso. destruct (Hso s Hin) as (_ & Hb & _). simpl.
      split; [by rewrite length_insert|]. intros x Hx. rewrite nth_insert. case_decide as Hd; [by destruct Hd as [-> _]|].
      apply clean_bytes; [|done]. apply Hclean'; [done|]. intros ->. apply Hd. split; [done|lia].
Qed.
End decode.

(** ** [decode] after [encode] *)

(** the byte that was encoded for position [x] of a share *)
Definition sent (data parity : list Z) (n x : nat) (s : Share) : Z := nth (Z.to_nat (number s) * n + x) (data ++ parity) 0.
Definition damaged (data parity : list Z) (n x : nat) (s : Share) : Prop := nth x (share_data s) 0 ≠ sent data parity n x s.
#[global] Instance damaged_dec data parity n x s : Decision (damaged data parity n x s).
Proof. unfold damaged. apply _. Defined.

Lemma concat_blocks b (ls : list (list Z)) : Forall (λ l, length l = b) ls → length (concat ls) = (b * length ls)%nat.
Proof. induction 1 as [|l ls Hl _ IH]; simpl; [lia|]. rewrite length_app, Hl, IH. lia. Qed.

Section encoded.
Context (f : Fec) (k m : nat) (Hf : fec_new k m = Done f) (data parity : list Z) (Hdata : Forall byte data).
Context (Henc : encode None f data (zeros (length parity)) = Done (Ok parity)).
Notation n := (length data / k)%nat.
Context (Hn : (0 < n)%nat).
Notation datum x := (map (λ c, nth (c * n + x) data 0) (seq 0 k)).

Lemma encoded_sizes : (n * k = length data)%nat ∧ ∀ i x, (i < m - k)%nat → (x < n)%nat →
  nth (i * n + x) parity 0 = dot (row (enc_matrix f) (k + i)) (datum x).
Proof.
  destruct (fec_new_vand k m f Hf) as ([Hk Hm] & Hr & Ht & _).
  assert (fec_ok f) as Hok by (pose proof (fec_new_spec k m) as Hs; rewrite decide_True in Hs by done;
    destruct Hs as (f' & Hf' & Hok & _); congruence).
  pose proof Henc as He. unfold encode in He. rewrite Hr, Ht in He.
  destruct (decide (n * k ≠ length data)%nat) as [|Hnk]; [done|].
  destruct (decide (n * (m - k) ≠ length (zeros (length parity)))%nat) as [|Hp]; [done|]. clear He.
  destruct (encode_blocks None f data (zeros (length parity))) as (out & He & _ & Hx);
    [done|done|done|intros Hnil; pose proof Hn as H0; rewrite Hnil, Nat.Div0.div_0_l in H0; lia|rewrite Hr; lia|rewrite Hr, Ht; lia|].
  rewrite Henc in He. injection He as <-. rewrite Hr, Ht in Hx. split; [lia|done].
Qed.
Lemma datum_byte x : Forall byte (datum x).
Proof. apply Forall_map, Forall_forall. intros c _. by apply nth_byte. Qed.
Lemma datum_length x : length (datum x) = k.
Proof. by rewrite length_map, length_seq. Qed.

Lemma sent_row s x : 0 ≤ number s < Z.of_nat m → (x < n)%nat → ∃ r, enc_matrix f !! Z.to_nat (number s) = Some r ∧
  sent data parity n x s = dot r (datum x).
Proof.
  intros Hs Hx. destruct (fec_new_vand k m f Hf) as ([Hk Hm] & _). destruct encoded_sizes as [Hnk Hpar].
  set (i := Z.to_nat (number s)) in *. rewrite (enc_rows k m f i Hf) by lia. eexists. split; [done|].
  unfold sent. fold i. rewrite nth_app_zero. destruct (decide (i < k)%nat) as [Hik|Hik].
  - rewrite decide_True by nia. rewrite dot_comm by (apply unit_row_byte || apply datum_byte).
    rewrite dot_unit by (apply datum_length || apply datum_byte || done).
    rewrite (nth_lookup (datum x)), list_lookup_fmap, lookup_seq_lt by done. done.
  - rewrite decide_False by nia. replace (i * n + x - length data)%nat with ((i - k) * n + x)%nat by nia.
    rewrite Hpar by lia. f_equal. replace (k + (i - k))%nat with i by lia. unfold row.
    rewrite nth_lookup, (enc_rows k m f i Hf), decide_False by lia. done.
Qed.

(** one polynomial for every position in a block *)
Lemma encoded_word : ∃ W : nat → list Z, (∀ x, length (W x) = k ∧ Forall byte (W x)) ∧
  ∀ s x, 0 ≤ number s < Z.of_nat m → (x < n)%nat → sent data parity n x s = horner (W x) (eval_point (number s)).
Proof.
  assert (∀ b, ∃ W : nat → list Z, (∀ x, length (W x) = k ∧ Forall byte (W x)) ∧
    ∀ i r x, (x < b)%nat → enc_matrix f !! i = Some r → dot r (datum x) = horner (W x) (eval_point (Z.of_nat i))) as Hall.
  { induction b as [|b (W & HW & Hx)].
    - exists (λ _, zeros k). split; [|lia]. intros _. split; [apply zeros_length|apply zeros_byte].
    - destruct (encoded_column k m f (datum b) Hf (datum_length b) (datum_byte b)) as (P & HP & HPb & HPx).
      exists (λ x, if decide (x = b) then P else W x). split; [intros x; by case_decide|].
      intros i r x Hxb Hr. case_decide as Hd; [subst; by apply HPx|]. apply Hx; [lia|done]. }
  destruct (Hall n) as (W & HW & Hx). exists W. split; [done|]. intros s x Hs Hxn.
  destruct (sent_row s x Hs Hxn) as (r & Hr & ->). rewrite (Hx _ _ _ Hxn Hr), Z2Nat.id by lia. done.
Qed.
Lemma word_is_data W : (∀ s x, 0 ≤ number s < Z.of_nat m → (x < n)%nat → sent data parity n x s = horner (W x) (eval_point (number s))) →
  concat (word_data k n W) = data.
Proof.
  intros HW. destruct encoded_sizes as [Hnk _]. destruct (fec_new_vand k m f Hf) as ([Hk Hm] & _).
  assert (Forall (λ b, length b = n) (word_data k n W)) as Hb
    by (apply Forall_map, Forall_forall; intros i _; by rewrite length_map, length_seq).
  assert (length (word_data k n W) = k) as Hl by (unfold word_data; by rewrite length_map, length_seq).
  assert (length (concat (word_data k n W)) = length data) as Hcl.
  { rewrite (concat_blocks n), Hl by done. exact Hnk. }
  apply (nth_ext _ _ 0 0); [done|]. rewrite Hcl.
  intros p Hp. rewrite (Nat.div_mod_eq p n), (Nat.mul_comm n). set (i := (p / n)%nat). set (x := (p mod n)%nat).
  assert (x < n)%nat as Hx by (apply Nat.mod_upper_bound; lia).
  assert (i < k)%nat as Hi by (apply Nat.Div0.div_lt_upper_bound; lia).
  rewrite concat_nth by (done || lia). unfold word_data. rewrite (nth_lookup (map _ _)), list_lookup_fmap, lookup_seq_lt by lia.
  cbn [fmap option_fmap option_map default from_option Nat.add]. unfold id.
  rewrite nth_lookup, list_lookup_fmap, lookup_seq_lt by lia. cbn [fmap option_fmap option_map default from_option Nat.add]. unfold id.
  pose proof (HW {| number := Z.of_nat i; share_data := [] |} x ltac:(cbn [number]; lia) Hx) as Hw. cbn [number] in Hw.
  rewrite <-Hw. unfold sent. cbn [number]. rewrite Nat2Z.id.
  apply app_nth1. nia.
Qed.
End encoded.

Lemma filter_none {A} (P : A → Prop) `{!∀ x, Decision (P x)} (l : list A) : filter P l = [] ↔ ∀ x, x ∈ l → ¬ P x.
Proof.
  split.
  - intros Hf x Hx Hp. destruct (not_elem_of_nil x). rewrite <-Hf. by apply list_elem_of_filter.
  - intros Hn. apply elem_of_nil_inv. intros x [Hp Hx]%list_elem_of_filter. by apply (Hn x).
Qed.

(** ** Properties *)

(** C38: Encoding and decoding: take data of whole blocks and the parity [encode] computes for it; of
    the shares of all data blocks and at least two parity blocks, in any order, let some be wrong
    in one byte position [j], in at most [e] shares, half as many as there are parity blocks, on a
    target without vector instructions. When no share is wrong, [decode] gives the data back. When
    some are, a build without debug assertions gives the data back, unless it is asked to report
    invalid shares, when it names every share, the sound ones too; and a build with debug assertions
    does the same if [e] of the first [k + 2 * e] shares are wrong, and panics if fewer are: the
    system of equations is singular, and [invert_matrix_with] asserts that it is not. *)
Theorem decode_after_encode (debug : bool) (f : Fec) (k m : nat) (data parity : list Z) (shares : list Share) (j : nat)
    (report_invalid : bool) :
  let n := (length data / k)%nat in
  let e := ((length shares - k) / 2)%nat in
  let sorted := sort_by_key number shares in
  let bad := filter (damaged data parity n j) in
  fec_new k m = Done f → Forall byte data → encode None f data (zeros (length parity)) = Done (Ok parity) →
  NoDup (map number shares) →
  Forall (λ s, 0 ≤ number s < Z.of_nat m ∧ length (share_data s) = n ∧ Forall byte (share_data s)) shares →
  (∀ i, (i < k)%nat → Z.of_nat i ∈ map number shares) → (k + 2 ≤ length shares)%nat → (j < n)%nat →
  (∀ s x, s ∈ shares → (x < n)%nat → x ≠ j → ¬ damaged data parity n x s) →
  (length (bad shares) ≤ e)%nat →
  if decide (bad shares = []) then ∃ out, decode None debug f shares report_invalid = Done (Ok out) ∧ concat (map share_data out) = data
  else if debug && (length (bad (take (k + 2 * e) sorted)) <? e)%nat then decode None debug f shares report_invalid = Panic
  else if report_invalid then
    decode None debug f shares report_invalid = Done (Err (Correct (InvalidShares (rev (map number sorted)))))
  else ∃ out, decode None debug f shares report_invalid = Done (Ok out) ∧ concat (map share_data out) = data.
Proof.
  intros n e sorted bad Hf Hd Henc Hnd Hs Hin Hlen Hj Hother Hfew. assert (0 < length data / k)%nat as Hn by (fold n; lia).
  destruct (encoded_word f k m Hf data parity Hd Henc Hn) as (W & HW & Hsent). fold n in Hsent.
  destruct (fec_new_vand k m f Hf) as ([Hk Hm] & _). rewrite Forall_forall in Hs.
  assert (Forall (λ s, share_ok n s ∧ number s < Z.of_nat m) shares) as Hok
    by (apply Forall_forall; intros s Hsin; destruct (Hs s Hsin) as (? & ? & ?); split; [split; [lia|done]|lia]).
  assert (∀ x s, s ∈ shares → (x < n)%nat → wrong (W x) x s ↔ damaged data parity n x s) as Hwd.
  { intros x s Hsin Hx. unfold wrong, damaged. rewrite <-Hsent; [done|apply Hs, Hsin|done]. }
  assert (∀ l, (∀ s, s ∈ l → s ∈ shares) → filter (wrong (W j) j) l = bad l) as Hfil.
  { intros l Hl. apply filter_iff_in. intros s Hsin. apply Hwd; auto. }
  assert (∀ x, (x < n)%nat → clean shares W x ↔ ∀ s, s ∈ shares → ¬ damaged data parity n x s) as Hclean.
  { intros x Hx. unfold clean. rewrite Forall_forall. split; intros Hc s Hsin; rewrite <-?Hwd || rewrite ?Hwd; auto. }
  pose proof (decode_word f k m Hf shares n Hnd Hok Hlen Hin W HW j Hj ltac:(intros x Hx Hne; apply Hclean; eauto)
    ltac:(by rewrite Hfil) debug report_invalid) as Hdec.
  destruct (sort_by_number shares Hnd) as [_ Hp].
  assert (singular k sorted W j = (length (bad (take (k + 2 * e) sorted)) <? e)%nat) as Hsing.
  { fold sorted in Hp. unfold singular. rewrite (Permutation_length Hp). fold e. rewrite Hfil.
    - replace (e + k + e)%nat with (k + 2 * e)%nat by lia. done.
    - intros s Hsin. rewrite <-Hp, <-(take_drop (e + k + e) sorted). apply elem_of_app. by left. }
  fold sorted in Hdec. rewrite Hsing in Hdec.
  assert (clean shares W j ↔ bad shares = []) as Hcj by (unfold bad; by rewrite Hclean, filter_none).
  assert (∀ out, map share_data out = word_data k n W → concat (map share_data out) = data) as Hword
    by (intros out ->; by apply (word_is_data f k m Hf data parity Hd Henc Hn)).
  destruct (decide (clean shares W j)), (decide (bad shares = [])); try tauto; repeat case_match; try exact Hdec;
    destruct Hdec as (out & -> & Ho); exists out; auto.
Qed.

Definition demo_code : Fec :=
  match fec_new 2 6 with
  | Done f => f
  | Panic => {| required := 0; total := 0; enc_matrix := []; vand_matrix := [] |}
  end.
Definition demo_blocks : list Z := [1; 2; 3; 4; 5; 6].
Definition demo_parity : list Z :=
  match encode None demo_code demo_blocks (zeros 12) with Done (Ok p) => p | _ => [] end.
Definition demo_sent : list Share :=
  map (λ i, {| number := Z.of_nat i; share_data := take 3 (drop (i * 3) (demo_blocks ++ demo_parity)) |}) (seq 0 6).
(** the shares, one of them with other bytes in the given positions *)
Definition demo_damaged (i : nat) (xs : list nat) : list Share :=
  alter (λ s, {| number := number s; share_data := foldr (λ x d, alter (λ b, Z.lxor b 77) x d) (share_data s) xs |}) i demo_sent.

(** A second damaged column cannot be repaired: one share with two wrong bytes among the six of a
    code that needs two, well within what its parity could repair, and [decode] answers that the
    data cannot be recovered, because repairing the first column changed the numbers, and with
    them the points, of all shares. With one wrong byte the same share is repaired. A build with
    debug assertions panics on both. *)
Theorem decode_second_column :
  decode None false demo_code (demo_damaged 3 [0%nat; 1%nat]) false = Done (Err (Correct (BerklekampWelch CannotRecover))) ∧
  (∃ out, decode None false demo_code (demo_damaged 3 [1%nat]) false = Done (Ok out) ∧ concat (map share_data out) = demo_blocks) ∧
  decode None true demo_code (demo_damaged 3 [0%nat; 1%nat]) false = Panic ∧
  decode None true demo_code (demo_damaged 3 [1%nat]) false = Panic.
Proof.
  split; [by vm_compute|]. split; [|split; by vm_compute].
  destruct (decode None false demo_code (demo_damaged 3 [1%nat]) false) as [[out|]|] eqn:E; vm_compute in E; [|done|done].
  injection E as <-. eexists. split; [done|]. by vm_compute.
Qed.

(** ** Witnesses *)

(* one wrong share of a code that corrects two, with and without debug assertions *)
Lemma decode_after_encode_witness :
  (∃ out, decode None false demo_code (demo_damaged 1 [2%nat]) false = Done (Ok out) ∧ concat (map share_data out) = demo_blocks) ∧
  decode None true demo_code (demo_damaged 1 [2%nat]) false = Panic.
Proof.
  assert (∀ s x, s ∈ demo_damaged 1 [2%nat] → (x < 3)%nat → x ≠ 2%nat → ¬ damaged demo_blocks demo_parity 3 x s) as Hx.
  { intros s x Hs Hx Hne. assert (Forall (λ s, ¬ damaged demo_blocks demo_parity 3 0 s ∧ ¬ damaged demo_blocks demo_parity 3 1 s)
      (demo_damaged 1 [2%nat])) as Hall by decided.
    rewrite Forall_forall in Hall. destruct (Hall s Hs) as [H0 H1]. destruct x as [|[|[|x]]]; [done|done|done|lia]. }
  assert (∀ i, (i < 2)%nat → Z.of_nat i ∈ map number (demo_damaged 1 [2%nat])) as Hd by (intros [|[|i]] Hi; [decided|decided|lia]).
  split; [pose proof (decode_after_encode false demo_code 2 6 demo_blocks demo_parity (demo_damaged 1 [2%nat]) 2 false) as H
    |pose proof (decode_after_encode true demo_code 2 6 demo_blocks demo_parity (demo_damaged 1 [2%nat]) 2 false) as H];
    cbv zeta in H; apply H; clear H; first [exact Hd|exact Hx|by vm_compute|decided].
Defined.
