(* ===== verification/Onion.v ===== *)
(** Onion packets: the hybrid key encapsulation of [core/crypto/src/enc.rs], the sealed payloads
    of [core/crypto/src/lib.rs], and the layered packet of [core/onion/src/packet.rs] that opens a
    path through relays, with the key order that [Behaviour::open_path] gives it.

    Kyber, X25519 and AES-GCM are interfaces with the laws of their documentation; the random
    draws of an operation are its arguments. *)

From S2P Require Import Prelude.

Notation SharedSecret := bytes (only parsing).

(** ** Interfaces *)

(** Kyber: [kyber_enc pk seed] gives the ciphertext and the secret. *)
Class Kyber (KP : Type) := {
  PUBLICKEYBYTES : nat;
  CIPHERTEXTBYTES : nat;
  kyber_publickey : KP → bytes;
  kyber_enc : bytes → bytes → bytes * bytes;
  kyber_dec : KP → bytes → option bytes;
}.
Class X25519 (SK : Type) := {
  x_public : SK → bytes;
  diffie_hellman : SK → bytes → bytes;
}.
(** AES-256-GCM: [aead_encrypt key nonce data asoc] gives the ciphertext and the tag. *)
Class Aead := {
  aead_encrypt : bytes → bytes → bytes → bytes → bytes * bytes;
  aead_decrypt : bytes → bytes → bytes → bytes → bytes → option bytes;
}.

Definition SHARED_SECRET_SIZE : nat := 32.
Definition X_SIZE : nat := 32.
Definition TAG_SIZE : nat := 16.
Definition NONCE_SIZE : nat := 12.
Definition CONFIRM_PACKET_SIZE : nat := TAG_SIZE + NONCE_SIZE.

(** [impl_transmute!]: a value is its bytes. *)
Class TransmutationCircle (T : Type) := {
  T_SIZE : nat;
  into_bytes : T → bytes;
  from_bytes : bytes → T;
}.
Arguments T_SIZE T {_}.

Definition try_from_slice {T} `{TransmutationCircle T} (slice : bytes) : option T :=
  if decide (length slice = T_SIZE T) then Some (from_bytes slice) else None.

(** [PeerId]s and the bytes of their multihash. *)
Class Peers (Peer : Type) := {
  #[global] peer_eq_dec :: EqDecision Peer;
  multihash : Peer → bytes;
  peer_from_bytes : bytes → option Peer;
}.

(** ** Hybrid encapsulation *)

Record PublicKey := { post : bytes; pre : bytes }.
Record Ciphertext := { pl : bytes; x : bytes }.

(* array::from_fn(|i| k_secret[i] ^ x_secret[i]): 32 bytes; indexing past an end panics *)
Fixpoint xor_secrets (n : nat) (k_secret x_secret : bytes) : outcome SharedSecret :=
  match n, k_secret, x_secret with
  | O, _, _ => Done []
  | S n, k :: ks, x :: xs => try! rest := xor_secrets n ks xs in Done (Z.lxor k x :: rest)
  | S n, _, _ => Panic
  end.

Section enc.
Context {KP SK : Type} `{Kyber KP, X25519 SK, Aead}.

Record Keypair := { k_post : KP; k_pre : SK }.

Definition public_key (kp : Keypair) : PublicKey :=
  {| post := kyber_publickey (k_post kp); pre := x_public (k_pre kp) |}.

Definition encapsulate (kp : Keypair) (public : PublicKey) (seed : bytes) :
    outcome (Ciphertext * SharedSecret) :=
  let (data, k_secret) := kyber_enc (post public) seed in
  let x_secret := diffie_hellman (k_pre kp) (pre public) in
  try! secret := xor_secrets SHARED_SECRET_SIZE k_secret x_secret in
  Done ({| pl := data; x := x_public (k_pre kp) |}, secret).

Inductive DecapsulationError := KyberError | AesError.

Definition decapsulate (kp : Keypair) (ciphertext : Ciphertext) :
    outcome (result SharedSecret DecapsulationError) :=
  let x_secret := diffie_hellman (k_pre kp) (x ciphertext) in
  match kyber_dec (k_post kp) (pl ciphertext) with
  | None => Done (Err KyberError)
  | Some k_secret =>
      try! secret := xor_secrets SHARED_SECRET_SIZE k_secret x_secret in Done (Ok secret)
  end.

(** *** Sealed payloads *)

Record FixedAesPayload := { data : bytes; tag : bytes; nonce : bytes }.

Definition payload_new (data key asoc_data nonce : bytes) : FixedAesPayload :=
  let (data, tag) := aead_encrypt key nonce data asoc_data in
  {| data := data; tag := tag; nonce := nonce |}.
Definition payload_decrypt (p : FixedAesPayload) (key asoc_data : bytes) : option bytes :=
  aead_decrypt key (nonce p) (data p) asoc_data (tag p).

(** [crypto::ASOC_DATA] and [packet::ASOC_DATA], which name the version of the crate. *)
Context (CRYPTO_ASOC PACKET_ASOC : bytes).

Record ChoosenCiphertext := { c_pl : FixedAesPayload; c_cp : Ciphertext }.

Definition encapsulate_choosen (kp : Keypair) (public : PublicKey) (secret seed nonce : bytes) :
    outcome ChoosenCiphertext :=
  try! (cp, key) := encapsulate kp public seed in
  Done {| c_pl := payload_new secret key CRYPTO_ASOC nonce; c_cp := cp |}.
Definition decapsulate_choosen (kp : Keypair) (ciphertext : ChoosenCiphertext) :
    outcome (result bytes DecapsulationError) :=
  try! secret := decapsulate kp (c_cp ciphertext) in
  match secret with
  | Err e => Done (Err e)
  | Ok secret =>
      match payload_decrypt (c_pl ciphertext) secret CRYPTO_ASOC with
      | Some data => Done (Ok data)
      | None => Done (Err AesError)
      end
  end.

(* encrypt: the data in place, and the tag and the nonce to append to it *)
Definition encrypt (data secret nonce : bytes) : bytes * bytes :=
  let (data, tag) := aead_encrypt secret nonce data CRYPTO_ASOC in (data, tag ++ nonce).
Definition decrypt (data secret : bytes) : option bytes :=
  if decide (length data < NONCE_SIZE + TAG_SIZE)%nat then None
  else
    let data_len := (length data - NONCE_SIZE - TAG_SIZE)%nat in
    let postfix := drop data_len data in
    aead_decrypt secret (drop TAG_SIZE postfix) (take data_len data) CRYPTO_ASOC (take TAG_SIZE postfix).

(** ** Packets *)

Context `{TransmutationCircle PublicKey, TransmutationCircle Ciphertext} {Peer : Type} `{Peers Peer}.

(* peel_wih_key: the length of the plaintext, and the buffer, decrypted in place *)
Definition peel_wih_key (key : SharedSecret) (buffer : bytes) : option (nat * bytes) :=
  if decide (length buffer < TAG_SIZE + NONCE_SIZE)%nat then None
  else
    let nonce_at := (length buffer - NONCE_SIZE)%nat in
    let tag_at := (nonce_at - TAG_SIZE)%nat in
    let nonce := drop nonce_at buffer in
    let tag := drop tag_at (take nonce_at buffer) in
    match aead_decrypt key nonce (take tag_at buffer) PACKET_ASOC tag with
    | None => None
    | Some plain => Some (tag_at, plain ++ drop tag_at buffer)
    end.

(* copy_from_slice panics unless the lengths agree *)
Definition write_confirm (key : SharedSecret) (nonce buffer : bytes) : outcome bytes :=
  let (_, tag) := aead_encrypt key nonce [] PACKET_ASOC in
  try! _ := assert_that (length tag ≤ length buffer)%nat in
  try! _ := assert_that (length buffer - length tag = length nonce)%nat in
  Done (tag ++ nonce).
Definition verify_confirm (key : SharedSecret) (buffer : bytes) : bool :=
  match peel_wih_key key buffer with Some _ => true | None => false end.

Definition wrap_packet (client_kp : Keypair) (sender : PublicKey) (seed nonce buffer : bytes) : outcome bytes :=
  try! (cp, key) := encapsulate client_kp sender seed in
  let (buffer, tag) := aead_encrypt key nonce buffer PACKET_ASOC in
  Done (buffer ++ tag ++ nonce ++ into_bytes cp).

(* one turn of the loop of new_initial; the length is cast to a byte *)
Definition add_hop (client_kp : Keypair) (pk : PublicKey) (id : Peer) (draw : bytes * bytes)
    (buffer : bytes) : outcome bytes :=
  let mh := multihash id in
  let buffer := buffer ++ mh in
  let buffer := buffer ++ [wrap 8 (Z.of_nat (length mh))] in
  wrap_packet client_kp pk (fst draw) (snd draw) buffer.

Fixpoint add_hops (client_kp : Keypair) (path : list (PublicKey * Peer)) (draws : list (bytes * bytes))
    (buffer : bytes) : outcome bytes :=
  match path, draws with
  | (pk, id) :: path, draw :: draws =>
      try! buffer := add_hop client_kp pk id draw buffer in
      add_hops client_kp path draws buffer
  | _, _ => Done buffer
  end.

Definition new_initial (recipient : PublicKey) (path : list (PublicKey * Peer)) (client_kp : Keypair)
    (seed : bytes) (draws : list (bytes * bytes)) (buffer : bytes) : outcome (SharedSecret * bytes) :=
  try! (cp, key) := encapsulate client_kp recipient seed in
  let buffer := buffer ++ into_bytes cp in
  try! buffer := add_hops client_kp path draws buffer in
  Done (key, buffer ++ into_bytes (public_key client_kp)).

(* peel_initial: where the packet goes next (nowhere when it is for this node), the secret shared
   with the client, the length of what is passed on, and the buffer *)
Definition peel_initial (node_kp : Keypair) (original_buffer : bytes) :
    outcome (option (option Peer * SharedSecret * nat * bytes)) :=
  let PKS := T_SIZE PublicKey in
  let CS := T_SIZE Ciphertext in
  if decide (length original_buffer < PKS + CS)%nat then Done None
  else
    let pk_at := (length original_buffer - PKS)%nat in
    let cp_at := (pk_at - CS)%nat in
    let sender : PublicKey := from_bytes (drop pk_at original_buffer) in
    let ciphertext : Ciphertext := from_bytes (drop cp_at (take pk_at original_buffer)) in
    let buffer := take cp_at original_buffer in
    try! ss := decapsulate node_kp ciphertext in
    match ss with
    | Err _ => Done None
    | Ok ss =>
        if decide (buffer = []) then Done (Some (None, ss, O, original_buffer))
        else
          match peel_wih_key ss buffer with
          | None => Done None
          | Some (packet_len, buffer) =>
              let original_buffer := buffer ++ drop cp_at original_buffer in
              let buffer := take packet_len buffer in
              match last buffer with
              | None => Done None
              | Some len =>
                  let buffer := removelast buffer in
                  try! _ := assert_that (Z.to_nat len ≤ length buffer)%nat in
                  let id_at := (length buffer - Z.to_nat len)%nat in
                  match peer_from_bytes (drop id_at buffer) with
                  | None => Done None
                  | Some id =>
                      try! _ := assert_that (id_at + PKS ≤ length original_buffer)%nat in
                      Done (Some (Some id, ss, (id_at + PKS)%nat,
                                  take id_at original_buffer ++ into_bytes sender ++
                                  drop (id_at + PKS) original_buffer))
                  end
              end
          end
    end.

(** ** Opening a path *)

Record StreamRequest := { to : Peer; recipient : PublicKey; path : list (PublicKey * Peer) }.

(* path.iter_mut().rev().for_each(|(k, _)| mem::swap(k, &mut recipient)): on the reversed path *)
Fixpoint swap_keys (rev_path : list (PublicKey * Peer)) (recipient : PublicKey) :
    list (PublicKey * Peer) * PublicKey :=
  match rev_path with
  | [] => ([], recipient)
  | (k, id) :: rev_path =>
      let (rest, recipient') := swap_keys rev_path k in ((recipient, id) :: rest, recipient')
  end.

(* [path.array_windows().all(|[a, b]| a.1 != b.1)] *)
Fixpoint no_repeat (path : list (PublicKey * Peer)) : bool :=
  match path with
  | a :: ((b :: _) as rest) => negb (bool_decide (a.2 = b.2)) && no_repeat rest
  | _ => true
  end.

(* the request that open_path pushes; the array has its last element apart *)
Definition open_path_request (path : list (PublicKey * Peer)) (last : PublicKey * Peer) : outcome StreamRequest :=
  let (recipient, to) := last in
  try! _ := assert_that (no_repeat path = true) in
  let (rev_path, recipient) := swap_keys (rev path) recipient in
  Done {| to := to; recipient := recipient; path := rev rev_path |}.
End enc.
Arguments Keypair : clear implicits.
Arguments StreamRequest : clear implicits.

(** ** Laws of the interfaces *)

Class KyberOk KP `{Kyber KP} : Prop := {
  kyber_dec_enc kp seed ct ss :
    kyber_enc (kyber_publickey kp) seed = (ct, ss) → kyber_dec kp ct = Some ss;
  kyber_secret_length public seed ct ss : kyber_enc public seed = (ct, ss) → length ss = SHARED_SECRET_SIZE;
  kyber_public_length kp : length (kyber_publickey kp) = PUBLICKEYBYTES;
  kyber_ciphertext_length public seed ct ss :
    kyber_enc public seed = (ct, ss) → length ct = CIPHERTEXTBYTES;
}.
Class X25519Ok SK `{X25519 SK} : Prop := {
  dh_agrees a b : diffie_hellman a (x_public b) = diffie_hellman b (x_public a);
  x_public_length a : length (x_public a) = X_SIZE;
  dh_length a public : length (diffie_hellman a public) = SHARED_SECRET_SIZE;
}.
Class AeadOk `{Aead} : Prop := {
  aead_decrypt_encrypt key nonce plain asoc ct tag :
    aead_encrypt key nonce plain asoc = (ct, tag) → aead_decrypt key nonce ct asoc tag = Some plain;
  aead_lengths key nonce plain asoc ct tag :
    aead_encrypt key nonce plain asoc = (ct, tag) → length ct = length plain ∧ length tag = TAG_SIZE;
}.
(** A value of a type with a fixed size, by the sizes of its parts. *)
Class Sized T := sized : T → Prop.
Class TransmuteOk T `{TransmutationCircle T, Sized T} : Prop := {
  from_into (t : T) : sized t → from_bytes (into_bytes t) = t;
  into_length (t : T) : sized t → length (into_bytes t) = T_SIZE T;
}.
#[global] Instance public_key_sized `{Kyber KP} : Sized PublicKey :=
  λ p, length (post p) = PUBLICKEYBYTES ∧ length (pre p) = X_SIZE.
#[global] Instance ciphertext_sized `{Kyber KP} : Sized Ciphertext :=
  λ c, length (pl c) = CIPHERTEXTBYTES ∧ length (x c) = X_SIZE.
Class PeersOk Peer `{Peers Peer} : Prop := {
  peer_from_multihash p : peer_from_bytes (multihash p) = Some p;
  multihash_length p : (length (multihash p) < 256)%nat;
}.

Lemma xor_secrets_done n ks xs :
  (n ≤ length ks)%nat → (n ≤ length xs)%nat → ∃ s, xor_secrets n ks xs = Done s ∧ length s = n.
Proof.
  revert ks xs. induction n as [|n IH]; intros ks xs Hk Hx; [by exists []|].
  destruct ks as [|k ks], xs as [|y ys]; simpl in Hk, Hx; try lia. simpl.
  destruct (IH ks ys) as (s & -> & Hs); [lia..|]. eexists. split; [done|]. simpl. by rewrite Hs.
Qed.

Section laws.
Context {KP SK : Type} `{KyberOk KP, X25519Ok SK, AeadOk}.
Context (PACKET_ASOC CRYPTO_ASOC : bytes).
Context `{!TransmutationCircle PublicKey, !TransmuteOk PublicKey}.
Context `{!TransmutationCircle Ciphertext, !TransmuteOk Ciphertext} {Peer : Type} `{PeersOk Peer}.
Implicit Types (kp node : Keypair KP SK).

Lemma public_key_ok kp : sized (public_key kp).
Proof. exact (conj (kyber_public_length (k_post kp)) (x_public_length (k_pre kp))). Qed.

Lemma public_key_length kp : length (into_bytes (public_key kp)) = T_SIZE PublicKey.
Proof. apply into_length, public_key_ok. Qed.

(** Both ends get the same secret. *)
Lemma encapsulate_decapsulate kp node seed :
  ∃ cp key, encapsulate kp (public_key node) seed = Done (cp, key) ∧ decapsulate node cp = Done (Ok key) ∧
    sized cp.
Proof.
  unfold encapsulate, decapsulate, public_key. cbn [post pre].
  destruct (kyber_enc _ _) as [ct ss] eqn:He.
  destruct (xor_secrets_done SHARED_SECRET_SIZE ss (diffie_hellman (k_pre kp) (x_public (k_pre node))))
    as (s & Hs & Hl).
  { by rewrite (kyber_secret_length _ _ _ _ He). }
  { by rewrite dh_length. }
  rewrite Hs. eexists _, s. split; [done|]. cbn [pl x obind].
  rewrite (kyber_dec_enc _ _ _ _ He), dh_agrees, Hs. split; [done|].
  exact (conj (kyber_ciphertext_length _ _ _ _ He) (x_public_length (k_pre kp))).
Qed.

(** A sealed layer opens to what was sealed, in place. *)
Lemma peel_sealed key nonce plain ct tag :
  aead_encrypt key nonce plain PACKET_ASOC = (ct, tag) → length nonce = NONCE_SIZE →
  peel_wih_key PACKET_ASOC key (ct ++ tag ++ nonce) = Some (length plain, plain ++ tag ++ nonce).
Proof.
  intros He Hn. destruct (aead_lengths _ _ _ _ _ _ He) as [Hc Ht]. unfold peel_wih_key.
  unfold TAG_SIZE, NONCE_SIZE in *. rewrite !length_app, Hc, Ht, Hn.
  rewrite decide_False by lia.
  replace (length plain + (16 + 12) - 12)%nat with (length (ct ++ tag)) by (rewrite length_app; lia).
  rewrite (app_assoc ct), take_app_length, drop_app_length.
  replace (length (ct ++ tag) - 16)%nat with (length ct) by (rewrite length_app; lia).
  rewrite <-app_assoc, take_app_length, drop_app_length, drop_app_length.
  rewrite (aead_decrypt_encrypt _ _ _ _ _ _ He), Hc. done.
Qed.

(** A packet for a node: its ciphertext and the sender's key at the end. *)
Lemma peel_initial_shape kp node seed cp key buffer :
  encapsulate kp (public_key node) seed = Done (cp, key) →
  let packet := buffer ++ into_bytes cp ++ into_bytes (public_key kp) in
  peel_initial (Peer := Peer) PACKET_ASOC node packet =
    if decide (buffer = []) then Done (Some (None, key, O, packet))
    else match peel_wih_key PACKET_ASOC key buffer with
      | None => Done None
      | Some (packet_len, opened) =>
          let original_buffer := opened ++ into_bytes cp ++ into_bytes (public_key kp) in
          let opened := take packet_len opened in
          match last opened with
          | None => Done None
          | Some len =>
              let opened := removelast opened in
              try! _ := assert_that (Z.to_nat len ≤ length opened)%nat in
              let id_at := (length opened - Z.to_nat len)%nat in
              match peer_from_bytes (drop id_at opened) with
              | None => Done None
              | Some id =>
                  try! _ := assert_that (id_at + T_SIZE PublicKey ≤ length original_buffer)%nat in
                  Done (Some (Some id, key, (id_at + T_SIZE PublicKey)%nat,
                    take id_at original_buffer ++ into_bytes (public_key kp) ++
                    drop (id_at + T_SIZE PublicKey) original_buffer))
              end
          end
      end.
Proof.
  intros He packet. destruct (encapsulate_decapsulate kp node seed) as (cp' & key' & He' & Hd & Hsz).
  rewrite He in He'. injection He' as <- <-.
  unfold peel_initial, packet. rewrite !length_app, public_key_length, into_length by done.
  rewrite decide_False by lia.
  replace (length buffer + (T_SIZE Ciphertext + T_SIZE PublicKey) - T_SIZE PublicKey)%nat
    with (length (buffer ++ into_bytes cp)) by (rewrite length_app, (into_length cp Hsz); lia).
  rewrite (app_assoc buffer), take_app_length, drop_app_length.
  replace (length (buffer ++ into_bytes cp) - T_SIZE Ciphertext)%nat
    with (length buffer) by (rewrite length_app, (into_length cp Hsz); lia).
  rewrite drop_app_length, (from_into cp Hsz), (from_into _ (public_key_ok kp)), Hd. cbn [obind].
  rewrite <-app_assoc, take_app_length, drop_app_length. done.
Qed.

Lemma wrap_packet_done kp node seed nonce buffer :
  ∃ cp key ct tag, wrap_packet PACKET_ASOC kp (public_key node) seed nonce buffer =
      Done ((ct ++ tag ++ nonce) ++ into_bytes cp) ∧
    encapsulate kp (public_key node) seed = Done (cp, key) ∧
    aead_encrypt key nonce buffer PACKET_ASOC = (ct, tag).
Proof.
  destruct (encapsulate_decapsulate kp node seed) as (cp & key & He & _).
  destruct (aead_encrypt key nonce buffer PACKET_ASOC) as [ct tag] eqn:Ha.
  exists cp, key, ct, tag. unfold wrap_packet. rewrite He. simpl. rewrite Ha. by rewrite <-!app_assoc.
Qed.

Lemma removelast_snoc {A} (l : list A) a : removelast (l ++ [a]) = l.
Proof. by rewrite removelast_app, app_nil_r. Qed.

(** The node of a layer learns the next hop, and passes on what is inside under the sender's key. *)
Lemma peel_hop kp node (id : Peer) seed nonce buffer :
  length nonce = NONCE_SIZE →
  ∃ layer ss n rest, add_hop PACKET_ASOC kp (public_key node) id (seed, nonce) buffer = Done layer ∧
    peel_initial PACKET_ASOC node (layer ++ into_bytes (public_key kp)) = Done (Some (Some id, ss, n, rest)) ∧
    take n rest = buffer ++ into_bytes (public_key kp) ∧ n = length (buffer ++ into_bytes (public_key kp)).
Proof.
  intros Hn. unfold add_hop. cbn zeta. cbn [fst snd].
  pose proof (multihash_length id) as Hl. rewrite wrap_small by (unfold fits; lia).
  set (plain := (buffer ++ multihash id) ++ [Z.of_nat (length (multihash id))]).
  destruct (wrap_packet_done kp node seed nonce plain) as (cp & key & ct & tag & -> & He & Ha).
  destruct (aead_lengths _ _ _ _ _ _ Ha) as [Hc Ht].
  eexists _, key, _, _. split; [done|]. rewrite <-app_assoc.
  rewrite (peel_initial_shape kp node seed cp key (ct ++ tag ++ nonce) He).
  rewrite decide_False by (intros Hx; apply (f_equal length) in Hx; rewrite !length_app in Hx;
    unfold NONCE_SIZE in Hn; simpl in Hx; lia).
  rewrite (peel_sealed key nonce plain ct tag Ha Hn). cbn zeta.
  assert (last plain = Some (Z.of_nat (length (multihash id)))) as Hlast by apply last_snoc.
  assert (removelast plain = buffer ++ multihash id) as Hrl by apply removelast_snoc.
  assert (length buffer ≤ length plain)%nat as Hple by (unfold plain; rewrite !length_app; lia).
  rewrite take_app_length, Hlast, Hrl, Nat2Z.id. rewrite !length_app. unfold assert_that. rewrite decide_True by lia. cbn [obind].
  replace (length buffer + length (multihash id) - length (multihash id))%nat with (length buffer) by lia.
  rewrite drop_app_length, peer_from_multihash, public_key_length.
  rewrite decide_True by lia. cbn [obind]. split; [done|]. split; [|done].
  unfold plain. rewrite <-!app_assoc, take_app_length, app_assoc.
  apply take_app_n. by rewrite length_app, public_key_length.
Qed.

(** What the nodes of a path do with a packet in turn: the hops they learn, and the secret of the
    node that the packet is for. *)
Fixpoint relay (nodes : list (Keypair KP SK)) (packet : bytes) : outcome (option (list Peer * SharedSecret)) :=
  match nodes with
  | [] => Done None
  | node :: nodes =>
      try! peeled := peel_initial PACKET_ASOC node packet in
      match peeled with
      | None => Done None
      | Some (None, ss, _, _) => Done (Some ([], ss))
      | Some (Some id, _, len, buffer) =>
          try! rest := relay nodes (take len buffer) in
          Done ((λ r, (id :: r.1, r.2)) <$> rest)
      end
  end.

(** The layers of a path open from the outside in. *)
Lemma relay_hops kp (hops : list (Keypair KP SK * Peer)) draws buffer rest :
  length draws = length hops → Forall (λ d, length (snd d) = NONCE_SIZE) draws →
  ∃ packet, add_hops PACKET_ASOC kp (map (λ h, (public_key h.1, h.2)) hops) draws buffer = Done packet ∧
    relay (rev (map fst hops) ++ rest) (packet ++ into_bytes (public_key kp)) =
      try! r := relay rest (buffer ++ into_bytes (public_key kp)) in
      Done ((λ r, (rev (map snd hops) ++ r.1, r.2)) <$> r).
Proof.
  revert draws buffer rest. induction hops as [|[node id] hops IH]; intros draws buffer rest Hl Hd.
  { exists buffer. destruct draws; [|done]. split; [done|]. simpl.
    by destruct (relay rest _) as [[[]|]|]. }
  destruct draws as [|[seed nonce] draws]; [done|]. apply Forall_cons in Hd as [Hn Hd].
  destruct (peel_hop kp node id seed nonce buffer Hn) as (layer & ss & n & opened & Hadd & Hp & Hnext & _).
  destruct (IH draws layer (node :: rest)) as (packet & Hpacket & Hrelay); [by injection Hl|done|].
  exists packet. simpl. rewrite Hadd. split; [exact Hpacket|].
  rewrite <-(app_assoc (rev (map fst hops)) [node] rest). cbn [app].
  rewrite Hrelay. simpl. rewrite Hp. cbn [obind]. rewrite Hnext.
  destruct (relay rest _) as [[[ids key]|]|]; simpl; by rewrite <-?app_assoc.
Qed.


(** The hops of a path in the order of the jumps, entry node first: the key of each layer belongs
    to the node that opens it, the peer in it is the one after. *)
Fixpoint jumps (entry : Keypair KP SK) (rest : list (Keypair KP SK * Peer)) : list (Keypair KP SK * Peer) :=
  match rest with [] => [] | (node, id) :: rest => (entry, id) :: jumps node rest end.
Definition destination (entry : Keypair KP SK) (rest : list (Keypair KP SK * Peer)) : Keypair KP SK :=
  default entry (fst <$> last rest).
Definition public_hop (h : Keypair KP SK * Peer) : PublicKey * Peer := (public_key h.1, h.2).

Lemma destination_cons entry node id rest : destination entry ((node, id) :: rest) = destination node rest.
Proof.
  unfold destination. destruct rest as [|h rest]; [done|]. rewrite last_cons_cons.
  destruct (last (h :: rest)) eqn:Hl; [done|]. by apply last_None in Hl.
Qed.

Lemma swap_keys_jumps entry rest :
  swap_keys (map public_hop rest) (public_key entry) =
    (map public_hop (jumps entry rest), public_key (destination entry rest)).
Proof.
  revert entry. induction rest as [|[node id] rest IH]; intros entry; [done|]. simpl.
  rewrite (IH node), destination_cons. done.
Qed.

Lemma jumps_nodes entry rest : map fst (jumps entry rest) ++ [destination entry rest] = entry :: map fst rest.
Proof.
  revert entry. induction rest as [|[node id] rest IH]; intros entry; [done|].
  rewrite destination_cons. simpl. by rewrite IH.
Qed.

Lemma jumps_ids entry rest : map snd (jumps entry rest) = map snd rest.
Proof. revert entry. induction rest as [|[node id] rest IH]; intros entry; [done|]. simpl. by rewrite IH. Qed.

Lemma relay_destination kp node seed cp key :
  encapsulate kp (public_key node) seed = Done (cp, key) →
  relay [node] (into_bytes cp ++ into_bytes (public_key kp)) = Done (Some ([], key)).
Proof.
  intros He. pose proof (peel_initial_shape kp node seed cp key [] He) as Hp. cbn zeta in Hp.
  rewrite decide_True, app_nil_l in Hp by done. simpl. by rewrite Hp.
Qed.

(** Every layer adds at most the id of a hop, its length, the tag, the nonce and the ciphertext. *)
Definition layer_size : nat := 255 + 1 + CONFIRM_PACKET_SIZE + T_SIZE Ciphertext.

Lemma add_hop_size kp node (id : Peer) draw buffer packet :
  length (snd draw) = NONCE_SIZE → add_hop PACKET_ASOC kp (public_key node) id draw buffer = Done packet →
  (length packet ≤ length buffer + layer_size)%nat.
Proof.
  intros Hn. unfold add_hop.
  set (plain := (buffer ++ multihash id) ++ [wrap 8 (Z.of_nat (length (multihash id)))]).
  destruct (wrap_packet_done kp node (fst draw) (snd draw) plain) as (cp & key & ct & tag & -> & He & Ha).
  intros [= <-]. destruct (aead_lengths _ _ _ _ _ _ Ha) as [Hc Ht].
  destruct (encapsulate_decapsulate kp node (fst draw)) as (cp' & key' & He' & _ & Hsz).
  rewrite He' in He. injection He as -> ->.
  unfold layer_size, CONFIRM_PACKET_SIZE. rewrite !length_app, Hc, Ht, Hn, (into_length cp Hsz).
  unfold plain, TAG_SIZE, NONCE_SIZE. rewrite !length_app. cbn [length]. pose proof (multihash_length id). lia.
Qed.

Lemma add_hops_size kp (hops : list (Keypair KP SK * Peer)) draws buffer packet :
  Forall (λ d, length (snd d) = NONCE_SIZE) draws →
  add_hops PACKET_ASOC kp (map public_hop hops) draws buffer = Done packet →
  (length packet ≤ length buffer + length hops * layer_size)%nat.
Proof.
  revert draws buffer. induction hops as [|[node id] hops IH]; intros draws buffer Hd.
  { destruct draws; intros [= <-]; simpl; lia. }
  destruct draws as [|draw draws]; [intros [= <-]; simpl; lia|]. apply Forall_cons in Hd as [Hn Hd].
  cbn [map public_hop fst snd add_hops].
  destruct (add_hop _ _ _ _ _ _) as [layer|] eqn:Ha; [|done]. cbn [obind]. intros Hp.
  apply add_hop_size in Ha; [|done]. apply (IH draws layer) in Hp; [|done].
  change (length ((node, id) :: hops)) with (Datatypes.S (length hops)). rewrite Nat.mul_succ_l. lia.
Qed.

(** Layers only add to a packet. *)
Lemma add_hop_grows kp node (id : Peer) draw buffer packet :
  add_hop PACKET_ASOC kp (public_key node) id draw buffer = Done packet → (length buffer ≤ length packet)%nat.
Proof.
  unfold add_hop. set (plain := (buffer ++ multihash id) ++ [wrap 8 (Z.of_nat (length (multihash id)))]).
  destruct (wrap_packet_done kp node (fst draw) (snd draw) plain) as (cp & key & ct & tag & -> & _ & Ha).
  intros [= <-]. destruct (aead_lengths _ _ _ _ _ _ Ha) as [Hc _]. rewrite !length_app, Hc.
  unfold plain. rewrite !length_app. lia.
Qed.

Lemma add_hops_grow kp (hops : list (Keypair KP SK * Peer)) draws buffer packet :
  add_hops PACKET_ASOC kp (map public_hop hops) draws buffer = Done packet → (length buffer ≤ length packet)%nat.
Proof.
  revert draws buffer. induction hops as [|[node id] hops IH]; intros draws buffer;
    [by destruct draws; intros [= <-]|].
  destruct draws as [|draw draws]; [by intros [= <-]|]. cbn [map public_hop fst snd add_hops].
  destruct (add_hop _ _ _ _ _ _) as [layer|] eqn:Ha; [|done]. cbn [obind].
  intros Hp%IH. apply add_hop_grows in Ha. lia.
Qed.

(** The packet for a path, from the client to the destination. *)
Lemma new_initial_relayed (client entry : Keypair KP SK) (rest : list (Keypair KP SK * Peer)) seed draws :
  length draws = length rest → Forall (λ d, length (snd d) = NONCE_SIZE) draws →
  ∃ key packet,
    new_initial PACKET_ASOC (public_key (destination entry rest)) (map public_hop (rev (jumps entry rest)))
      client seed draws [] = Done (key, packet) ∧
    relay (entry :: map fst rest) packet = Done (Some (map snd rest, key)) ∧
    (length packet ≤ T_SIZE Ciphertext + T_SIZE PublicKey + length rest * layer_size)%nat.
Proof.
  intros Hl Hd.
  destruct (encapsulate_decapsulate client (destination entry rest) seed) as (cp & key & He & _ & Hsz).
  assert (length (jumps entry rest) = length rest) as Hj
    by (by rewrite <-(length_map snd rest), <-(jumps_ids entry rest), length_map).
  destruct (relay_hops client (rev (jumps entry rest)) draws (into_bytes cp)
              [destination entry rest]) as (packet & Hp & Hr); [by rewrite length_rev, Hj|done|].
  fold public_hop in Hp. exists key, (packet ++ into_bytes (public_key client)).
  unfold new_initial. rewrite He. cbn [obind app]. rewrite Hp. cbn [obind]. split; [done|]. split.
  - rewrite <-map_rev, rev_involutive, jumps_nodes in Hr. rewrite Hr.
    rewrite (relay_destination client (destination entry rest) seed cp key He). simpl.
    by rewrite <-map_rev, rev_involutive, jumps_ids, app_nil_r.
  - apply add_hops_size in Hp; [|done].
    rewrite length_app, public_key_length. rewrite (into_length cp Hsz), length_rev, Hj in Hp. lia.
Qed.

(** The request of a path whose neighbours differ. *)
Lemma open_path_jumps (entry : Keypair KP SK) (entry_id : Peer) rest :
  no_repeat (map public_hop (rev rest)) = true →
  open_path_request (map public_hop (rev rest)) (public_key entry, entry_id) =
    Done {| to := entry_id; recipient := public_key (destination entry rest);
            path := map public_hop (rev (jumps entry rest)) |}.
Proof.
  intros Hr. unfold open_path_request, assert_that. rewrite decide_True by done. cbn [obind].
  by rewrite map_rev, rev_involutive, swap_keys_jumps, <-map_rev.
Qed.

(** A confirmation is accepted under the key it was made with. *)
Lemma confirm_verifies (key nonce buffer : bytes) :
  length nonce = NONCE_SIZE → length buffer = CONFIRM_PACKET_SIZE →
  ∃ confirm, write_confirm PACKET_ASOC key nonce buffer = Done confirm ∧
    length confirm = CONFIRM_PACKET_SIZE ∧ verify_confirm PACKET_ASOC key confirm = true.
Proof.
  intros Hn Hb. unfold write_confirm, verify_confirm. destruct (aead_encrypt _ _ _ _) as [ct tag] eqn:Ha.
  destruct (aead_lengths _ _ _ _ _ _ Ha) as [Hc Ht]. unfold assert_that.
  unfold CONFIRM_PACKET_SIZE, TAG_SIZE, NONCE_SIZE in *.
  rewrite decide_True by lia. cbn [obind]. rewrite decide_True by lia. cbn [obind].
  eexists. split; [done|]. rewrite length_app, Ht, Hn. split; [done|]. destruct ct; [|done].
  change (tag ++ nonce) with ([] ++ tag ++ nonce). by rewrite (peel_sealed _ _ _ _ _ Ha Hn).
Qed.
End laws.

(** ** Properties *)

(** C19: A path through relays works out. [open_path] takes the nodes in the reverse order of the
    jumps and swaps their keys; the packet that [new_initial] builds for the resulting request,
    handed to the entry node and passed on by every relay to the peer it finds in its layer, takes
    exactly the jumps of the path, and the destination ends up with the secret the client kept.
    A path with a repeated neighbour is refused, except that the entry node is not compared. *)
Theorem onion_path_delivers {KP SK Peer} `{KyberOk KP, X25519Ok SK, AeadOk}
    `{!TransmutationCircle PublicKey, !TransmuteOk PublicKey, !TransmutationCircle Ciphertext,
      !TransmuteOk Ciphertext, PeersOk Peer} (PACKET_ASOC : bytes)
    (client entry : Keypair KP SK) (entry_id : Peer) (rest : list (Keypair KP SK * Peer))
    (seed : bytes) (draws : list (bytes * bytes)) :
  length draws = length rest → Forall (λ d, length (snd d) = NONCE_SIZE) draws →
  let opened := open_path_request (map public_hop (rev rest)) (public_key entry, entry_id) in
  if no_repeat (map public_hop (rev rest))
  then ∃ request key packet, opened = Done request ∧ to request = entry_id ∧
    new_initial PACKET_ASOC (recipient request) (path request) client seed draws [] = Done (key, packet) ∧
    relay PACKET_ASOC (entry :: map fst rest) packet = Done (Some (map snd rest, key))
  else opened = Panic.
Proof.
  intros Hl Hd opened. unfold opened. destruct (no_repeat _) eqn:Hr.
  - destruct (new_initial_relayed PACKET_ASOC client entry rest seed draws Hl Hd) as (key & packet & Hp & Hk & _).
    eexists _, key, packet. split; [by apply open_path_jumps|done].
  - unfold open_path_request, assert_that. by rewrite Hr.
Qed.

(** Any sender can stop the node that opens its packet: a layer whose plaintext is one byte
    that promises a longer peer id than there is makes [peel_initial] subtract below zero. *)
Theorem peel_initial_can_panic {KP SK Peer} `{KyberOk KP, X25519Ok SK, AeadOk}
    `{!TransmutationCircle PublicKey, !TransmuteOk PublicKey, !TransmutationCircle Ciphertext,
      !TransmuteOk Ciphertext, PeersOk Peer} (PACKET_ASOC : bytes)
    (client node : Keypair KP SK) (seed nonce : bytes) (len : Z) :
  length nonce = NONCE_SIZE → 0 < len →
  ∃ layer, wrap_packet PACKET_ASOC client (public_key node) seed nonce [len] = Done layer ∧
    peel_initial (Peer := Peer) PACKET_ASOC node (layer ++ into_bytes (public_key client)) = Panic.
Proof.
  intros Hn Hlen.
  destruct (wrap_packet_done PACKET_ASOC client node seed nonce [len]) as (cp & key & ct & tag & -> & He & Ha).
  eexists. split; [done|]. rewrite <-app_assoc.
  rewrite (peel_initial_shape PACKET_ASOC client node seed cp key (ct ++ tag ++ nonce) He).
  rewrite decide_False by (intros Hx; apply (f_equal length) in Hx; rewrite !length_app in Hx;
    unfold NONCE_SIZE in Hn; simpl in Hx; lia).
  rewrite (peel_sealed PACKET_ASOC key nonce [len] ct tag Ha Hn). cbn zeta.
  rewrite take_app_length. cbn [last removelast length]. unfold assert_that.
  by rewrite decide_False by (simpl; lia).
Qed.

(** Sealed secrets open: a secret chosen by the sender and encrypted data come back, and the
    confirmation of a path is accepted under the key it was made with. *)
Theorem sealed_roundtrip {KP SK} `{KyberOk KP, X25519Ok SK, AeadOk} (CRYPTO_ASOC PACKET_ASOC : bytes)
    (kp node : Keypair KP SK) (secret data seed nonce buffer : bytes) :
  length nonce = NONCE_SIZE → length buffer = CONFIRM_PACKET_SIZE →
  (∃ c, encapsulate_choosen CRYPTO_ASOC kp (public_key node) secret seed nonce = Done c ∧
        decapsulate_choosen CRYPTO_ASOC node c = Done (Ok secret)) ∧
  (let (ct, postfix) := encrypt CRYPTO_ASOC data secret nonce in
   decrypt CRYPTO_ASOC (ct ++ postfix) secret = Some data) ∧
  ∃ confirm, write_confirm PACKET_ASOC secret nonce buffer = Done confirm ∧
             verify_confirm PACKET_ASOC secret confirm = true.
Proof.
  intros Hn Hb. split; [|split].
  - destruct (encapsulate_decapsulate kp node seed) as (cp & key & He & Hd & _).
    unfold encapsulate_choosen, decapsulate_choosen, payload_new, payload_decrypt. rewrite He. cbn [obind].
    destruct (aead_encrypt _ _ _ _) as [ct tag] eqn:Ha.
    eexists. split; [done|]. cbn. rewrite Hd. cbn [obind].
    by rewrite (aead_decrypt_encrypt _ _ _ _ _ _ Ha).
  - unfold encrypt, decrypt. destruct (aead_encrypt _ _ _ _) as [ct tag] eqn:Ha.
    destruct (aead_lengths _ _ _ _ _ _ Ha) as [_ Ht]. cbn zeta.
    unfold TAG_SIZE, NONCE_SIZE in *. rewrite !length_app, Ht, Hn, decide_False by lia.
    replace (length ct + (16 + 12) - 12 - 16)%nat with (length ct) by lia.
    rewrite take_app_length, drop_app_length, <-Ht, take_app_length, drop_app_length.
    exact (aead_decrypt_encrypt _ _ _ _ _ _ Ha).
  - destruct (confirm_verifies PACKET_ASOC secret nonce buffer Hn Hb) as (confirm & ? & _ & ?). by exists confirm.
Qed.

(** ** A toy cipher to run the model on *)

Section demo.
Definition demo_kyber : Kyber Z := {|
  PUBLICKEYBYTES := 1; CIPHERTEXTBYTES := 1;
  kyber_publickey kp := [kp];
  kyber_enc public seed := ([hd 0 seed], replicate 32 (hd 0 seed));
  kyber_dec kp ct := Some (replicate 32 (hd 0 ct));
|}.
Definition demo_x25519 : X25519 Z := {|
  x_public a := replicate 32 a; diffie_hellman a public := replicate 32 (a * hd 0 public);
|}.
Definition demo_aead : Aead := {|
  aead_encrypt key nonce plain asoc := (map (Z.lxor (hd 0 key)) plain, replicate 16 (hd 0 key));
  aead_decrypt key nonce ct asoc tag :=
    if decide (tag = replicate 16 (hd 0 key)) then Some (map (Z.lxor (hd 0 key)) ct) else None;
|}.
Definition demo_public_bytes : TransmutationCircle PublicKey := {|
  T_SIZE := 33; into_bytes p := post p ++ pre p;
  from_bytes b := {| post := take 1 b; pre := drop 1 b |};
|}.
Definition demo_cipher_bytes : TransmutationCircle Ciphertext := {|
  T_SIZE := 33; into_bytes c := pl c ++ x c;
  from_bytes b := {| pl := take 1 b; x := drop 1 b |};
|}.
Definition demo_peers : Peers Z := {|
  peer_eq_dec := _; multihash p := [p]; peer_from_bytes b := match b with [p] => Some p | _ => None end;
|}.
#[local] Existing Instance demo_kyber.
#[local] Existing Instance demo_x25519.
#[local] Existing Instance demo_aead.
#[local] Existing Instance demo_public_bytes.
#[local] Existing Instance demo_cipher_bytes.
#[local] Existing Instance demo_peers.

#[local] Instance demo_kyber_ok : KyberOk Z.
Proof. by split; intros; simplify_eq/=. Qed.
#[local] Instance demo_x25519_ok : X25519Ok Z.
Proof.
  split; [|done|done]. intros a b. change (replicate 32 (a * b) = replicate 32 (b * a)).
  by rewrite Z.mul_comm.
Qed.
#[local] Instance demo_aead_ok : AeadOk.
Proof.
  split; intros key nonce plain asoc ct tag [= <- <-].
  - simpl. rewrite decide_True by done. f_equal. rewrite map_map.
    rewrite (map_ext _ (λ z, z)), map_id; [done|]. intros z. by rewrite <-Z.lxor_assoc, Z.lxor_nilpotent.
  - by rewrite length_map.
Qed.
#[local] Instance demo_public_ok : TransmuteOk PublicKey.
Proof.
  split; intros [p q] [Hp Hq]; simpl in *.
  - rewrite take_app_n, drop_app_n by done. done.
  - by rewrite length_app, Hp, Hq.
Qed.
#[local] Instance demo_cipher_ok : TransmuteOk Ciphertext.
Proof.
  split; intros [p q] [Hp Hq]; simpl in *.
  - rewrite take_app_n, drop_app_n by done. done.
  - by rewrite length_app, Hp, Hq.
Qed.
#[local] Instance demo_peers_ok : PeersOk Z.
Proof. split; intros p; [done|]. by apply Nat.ltb_lt. Qed.

Definition demo_kp (a b : Z) : Keypair Z Z := {| k_post := a; k_pre := b |}.
Definition demo_draws : list (bytes * bytes) := [([11], replicate 12 1); ([12], replicate 12 2)].
(** From the entry node 30 through 20 to 10. *)
Definition demo_rest : list (Keypair Z Z * Z) := [(demo_kp 3 4, 20); (demo_kp 7 8, 10)].

Lemma onion_path_delivers_witness :
  ∃ request key packet,
    open_path_request (map public_hop (rev demo_rest)) (public_key (demo_kp 1 2), 30) = Done request ∧
    new_initial [] (recipient request) (path request) (demo_kp 5 6) [13] demo_draws [] = Done (key, packet) ∧
    length packet = 192%nat ∧
    relay [] [demo_kp 1 2; demo_kp 3 4; demo_kp 7 8] packet = Done (Some ([20; 10], key)).
Proof.
  assert (length demo_draws = length demo_rest) as Hl by reflexivity.
  assert (Forall (λ d : bytes * bytes, length (snd d) = NONCE_SIZE) demo_draws) as Hd
    by (repeat constructor).
  pose proof (onion_path_delivers [] (demo_kp 5 6) (demo_kp 1 2) 30 demo_rest [13] demo_draws Hl Hd) as H.
  destruct H as (request & key & packet & Hr & _ & Hp & Hk).
  exists request, key, packet. split; [exact Hr|]. split; [exact Hp|]. split; [|exact Hk].
  vm_compute in Hr. injection Hr as <-. vm_compute in Hp. injection Hp as _ <-. reflexivity.
Defined.

Lemma peel_initial_can_panic_witness :
  ∃ layer, wrap_packet [] (demo_kp 5 6) (public_key (demo_kp 1 2)) [13] (replicate 12 0) [200] = Done layer ∧
    peel_initial (Peer := Z) [] (demo_kp 1 2) (layer ++ into_bytes (public_key (demo_kp 5 6))) = Panic.
Proof.
  apply (peel_initial_can_panic (Peer := Z) [] (demo_kp 5 6) (demo_kp 1 2) [13] (replicate 12 0) 200);
    [reflexivity|lia].
Defined.

Lemma sealed_roundtrip_witness :
  ∃ confirm, write_confirm [] (replicate 32 9) (replicate 12 1) (replicate 28 0) = Done confirm ∧
    verify_confirm [] (replicate 32 9) confirm = true.
Proof.
  apply (sealed_roundtrip [1] [] (demo_kp 5 6) (demo_kp 1 2) (replicate 32 9) [1; 2] [13]
           (replicate 12 1) (replicate 28 0)); reflexivity.
Defined.
End demo.
