(* ===== verification/Relay.v ===== *)
(** The channels of [core/onion/src/behaviour.rs], with which a relay passes bytes on between two
    streams in both directions. The streams and the clock of libp2p are parameters. *)

From S2P Require Import Prelude Codec Streams Collections Onion.

Notation ConnectionId := nat (only parsing).
Notation PathId := nat (only parsing).

(** ** Channels *)

Section channel.
Context {D : Type} `{AsyncRead D, AsyncWrite D}.

(** [behaviour::Stream]: one end of a channel, with what it could not take yet. *)
Record RelayStream := MkRelayStream { r_inner : D; poll_cache : bytes; written : nat }.
Definition relay_stream_new (inner : D) : RelayStream := MkRelayStream inner [] 0.

(* while self.written < self.poll_cache.len(); every round writes at least one byte *)
Fixpoint flush (fuel : nat) (s : RelayStream) : Poll (option io_error) * RelayStream :=
  if decide (length (poll_cache s) ≤ written s)%nat then (Ready None, s)
  else match fuel with
  | O => (Pending, s)
  | Datatypes.S fuel =>
      match poll_write (drop (written s) (poll_cache s)) (r_inner s) with
      | (Pending, inner) => (Pending, MkRelayStream inner (poll_cache s) (written s))
      | (Ready (Err e), inner) => (Ready (Some e), MkRelayStream inner (poll_cache s) (written s))
      | (Ready (Ok w), inner) =>
          if decide (w = 0%nat) then (Ready (Some ErrWriteZero), MkRelayStream inner (poll_cache s) (written s))
          else flush fuel (MkRelayStream inner (poll_cache s) (written s + w))
      end
  end.

Inductive pump_result := Broke | Stopped (r : Poll io_error).

(* the inner loop: read into the buffer of [cap] bytes and write on, until a write is partial;
   [last] is the time of the last packet *)
Fixpoint pump (fuel cap : nat) (now last : Z) (s : RelayStream) (from : D) :
    option (pump_result * Z * RelayStream * D) :=
  match fuel with
  | O => None
  | Datatypes.S fuel =>
      match poll_read cap from with
      | (Pending, from) => Some (Stopped Pending, last, s, from)
      | (Ready (Err e), from) => Some (Stopped (Ready e), last, s, from)
      | (Ready (Ok []), from) => Some (Stopped (Ready ErrUnexpectedEof), last, s, from)
      | (Ready (Ok bs), from) =>
          let (res, inner) := poll_write bs (r_inner s) in
          let s := MkRelayStream inner (poll_cache s) (written s) in
          match res with
          | Ready (Err e) => Some (Stopped (Ready e), now, s, from)
          | Ready (Ok O) | Pending => Some (Stopped (Ready ErrWriteZero), now, s, from)
          | Ready (Ok w) =>
              if decide (w ≠ length bs)
              then Some (Broke, now, MkRelayStream inner (poll_cache s ++ drop w bs) (written s), from)
              else pump fuel cap now now s from
          end
      end
  end.

(* forward_from; [None] when the fuel runs out *)
Fixpoint forward_from (fuel cap : nat) (now last : Z) (s : RelayStream) (from : D) :
    option (Poll io_error * Z * RelayStream * D) :=
  match fuel with
  | O => None
  | Datatypes.S fuel =>
      match flush (length (poll_cache s)) s with
      | (Pending, s) => Some (Pending, last, s, from)
      | (Ready (Some e), s) => Some (Ready e, last, s, from)
      | (Ready None, s) =>
          match pump (Datatypes.S (length (content from))) cap now last (MkRelayStream (r_inner s) [] (written s)) from with
          | None => None
          | Some (Stopped r, last, s, from) => Some (r, last, s, from)
          | Some (Broke, last, s, from) => forward_from fuel cap now last s from
          end
      end
  end.

Record Channel := MkChannel { ch_from : RelayStream; ch_to : RelayStream; invalid : bool; last_packet : Z }.
Definition channel_new (from to : D) (now : Z) : Channel :=
  MkChannel (relay_stream_new from) (relay_stream_new to) false now.

(* [temp] is the shared buffer of 1 << 16 bytes; the fuel covers what is there to be read *)
Definition TEMP_SIZE : nat := Z.to_nat 65536.
Definition forward (now last : Z) (s : RelayStream) (from : D) :
    option (Poll io_error * Z * RelayStream * D) :=
  forward_from (Datatypes.S (length (content from))) TEMP_SIZE now last s from.

(* Channel::poll; an error to be aborted is [ErrOther] *)
Definition channel_poll (now : Z) (c : Channel) : option (Poll io_error * Channel) :=
  if invalid c then Some (Ready ErrOther, c)
  else
    match forward now (last_packet c) (ch_from c) (r_inner (ch_to c)) with
    | None => None
    | Some (r, last, from, to_inner) =>
        let c := MkChannel from (MkRelayStream to_inner (poll_cache (ch_to c)) (written (ch_to c))) false last in
        match r with
        | Ready e => Some (Ready e, c)
        | Pending =>
            match forward now last (ch_to c) (r_inner (ch_from c)) with
            | None => None
            | Some (r, last, to, from_inner) =>
                Some (r, MkChannel (MkRelayStream from_inner (poll_cache (ch_from c)) (written (ch_from c)))
                           to false last)
            end
        end
    end.

Definition channel_is_valid (timeout now : Z) (c : Channel) : bool * Channel :=
  if invalid c then (false, c)
  else if decide (now < last_packet c + timeout) then (true, c)
  else (false, MkChannel (ch_from c) (ch_to c) true (last_packet c)).
End channel.
Arguments RelayStream : clear implicits.
Arguments Channel : clear implicits.

(** *** Laws of forwarding *)

Section channel_laws.
Context {D : Type} `{AsyncRead D, AsyncWrite D}.
Implicit Types (s : RelayStream D) (d from : D).

(** What was read from one end: the rest is still to be read. *)
Definition consumed (bs : bytes) from from' : Prop := content from = bs ++ content from'.

Lemma flush_done fuel s : (length (poll_cache s) ≤ written s)%nat → flush fuel s = (Ready None, s).
Proof. intros Hl. destruct fuel; simpl; by rewrite decide_True. Qed.

Lemma flush_empty fuel s : poll_cache s = [] → flush fuel s = (Ready None, s).
Proof. intros He. apply flush_done. rewrite He. simpl. lia. Qed.

Lemma pump_waits fuel cap now last s from from' :
  poll_read cap from = (Pending, from') →
  pump (S fuel) cap now last s from = Some (Stopped Pending, last, s, from').
Proof. intros Hr. cbn [pump]. by rewrite Hr. Qed.

(** Enough fuel: every round of the inner loop reads something, and so does every round of the
    outer loop that comes back. *)
Lemma pump_total fuel cap now last s from :
  (0 < cap)%nat → (length (content from) < fuel)%nat →
  ∃ r last' s' from', pump fuel cap now last s from = Some (r, last', s', from') ∧
    match r with Broke => (length (content from') < length (content from))%nat | _ => True end.
Proof.
  intros Hcap. revert last s from. induction fuel as [|fuel IH]; intros last s from Hf; [lia|]. simpl.
  pose proof (poll_read_law cap from Hcap) as Hr.
  destruct (poll_read cap from) as [[[[|b bs]|e]|] from1]; try by eexists _, _, _, _.
  destruct Hr as (_ & Hc & _). rewrite Hc, length_app in Hf |- *. simpl in Hf |- *.
  destruct (poll_write (b :: bs) (r_inner s)) as [[[[|w]|e]|] inner]; try by eexists _, _, _, _.
  destruct (decide (S w ≠ S (length bs))).
  - eexists _, _, _, _. split; [done|]. simpl. lia.
  - destruct (IH now (MkRelayStream inner (poll_cache s) (written s)) from1) as (r & l & s' & f & -> & Hd); [lia|].
    eexists _, _, _, _. split; [done|]. destruct r; [lia|done].
Qed.

Lemma forward_from_total fuel cap now last s from :
  (0 < cap)%nat → (length (content from) < fuel)%nat →
  is_Some (forward_from fuel cap now last s from).
Proof.
  intros Hcap. revert last s from. induction fuel as [|fuel IH]; intros last s from Hf; [lia|].
  cbn [forward_from]. destruct (flush _ s) as [[[e|]|] s1]; [by eexists| |by eexists].
  destruct (pump_total (S (length (content from))) cap now last (MkRelayStream (r_inner s1) [] (written s1)) from)
    as (r & l & s' & f & Hp & Hd); [done|lia|]. rewrite Hp.
  destruct r; [apply IH; lia|by eexists].
Qed.

(** A destination that takes what it is given whole. *)
Definition whole_writes : Prop := ∀ bs d n d', poll_write bs d = (Ready (Ok n), d') → n = length bs.

Lemma pump_forwards fuel cap now last s from r last' s' from' :
  whole_writes → (0 < cap)%nat →
  pump fuel cap now last s from = Some (r, last', s', from') →
  r ≠ Broke ∧ poll_cache s' = poll_cache s ∧ written s' = written s ∧
  (r = Stopped Pending → ∃ bs, consumed bs from from' ∧ received (r_inner s') = received (r_inner s) ++ bs).
Proof.
  intros Hw Hcap. revert last s from. induction fuel as [|fuel IH]; intros last s from; [done|]. simpl.
  pose proof (poll_read_law cap from Hcap) as Hr.
  destruct (poll_read cap from) as [[[[|b bs]|e]|] from1]; try (intros; simplify_eq; done).
  - destruct (poll_write (b :: bs) (r_inner s)) as [res inner] eqn:Hp.
    pose proof (poll_write_law (b :: bs) (r_inner s)) as Hl. rewrite Hp in Hl.
    destruct res as [[[|w]|e]|]; try (intros; simplify_eq; done).
    pose proof (Hw _ _ _ _ Hp) as Hn. rewrite decide_False by (simpl in *; lia).
    intros Hpump. destruct (IH _ _ _ Hpump) as (Hb & Hc & Hwr & Hf). split; [done|].
    split; [done|]. split; [done|]. intros Hs. destruct (Hf Hs) as (rest & Hcon & Hrec).
    destruct Hr as (_ & Hc1 & _). destruct Hl as [_ Hl]. exists ((b :: bs) ++ rest).
    unfold consumed in *. split; [by rewrite Hc1, Hcon, <-app_assoc|].
    rewrite Hrec. cbn [r_inner]. rewrite Hl, take_ge by lia. by rewrite <-app_assoc.
  - intros; simplify_eq. split; [done|]. split; [done|]. split; [done|]. intros _. exists [].
    split; [by unfold consumed; rewrite Hr|by rewrite app_nil_r].
Qed.
End channel_laws.

(** C27: A channel hands on what it reads, in order and without loss, as long as the other end takes
    every write whole: one call either fails, or stops because there is nothing to read and has
    then written exactly the bytes that it read. A call always returns. *)
Theorem forward_in_order {D} `{AsyncRead D, AsyncWrite D} (now last : Z) (s : RelayStream D) (from : D) :
  poll_cache s = [] →
  (∃ r last' s' from', forward now last s from = Some (r, last', s', from')) ∧
  ∀ r last' s' from', forward now last s from = Some (r, last', s', from') →
    whole_writes (D := D) →
    poll_cache s' = [] ∧ written s' = written s ∧
    (r = Pending → ∃ bs, content from = bs ++ content from' ∧
                         received (r_inner s') = received (r_inner s) ++ bs).
Proof.
  intros He. assert (0 < TEMP_SIZE)%nat as Hcap by (unfold TEMP_SIZE; lia). unfold forward. split.
  - destruct (forward_from_total (S (length (content from))) TEMP_SIZE now last s from Hcap) as [[[[r l] s'] f] Hf];
      [lia|by eexists _, _, _, _].
  - intros r last' s' from' Hf Hw. cbn [forward_from] in Hf. rewrite flush_empty in Hf by done.
    destruct (pump _ _ _ _ _ _) as [[[[[|x] l] s1] f1]|] eqn:Hp; [| |done].
    + by destruct (pump_forwards _ _ _ _ _ _ _ _ _ _ Hw Hcap Hp) as [Hb _].
    + destruct (pump_forwards _ _ _ _ _ _ _ _ _ _ Hw Hcap Hp) as (_ & Hc & Hwr & Hr). simplify_eq.
      split; [done|]. split; [done|]. intros ->. by apply Hr.
Qed.

(** What a partial write does to a channel. [written] is never reset, so after a first cache of
    [k] bytes was flushed, the next bytes that do not fit are not kept: when the other end takes
    [w] bytes of a chunk and at most [k] are left over, the call reports that it waits for more
    data while those bytes are gone for good. And a destination that is merely not ready fails
    the channel. *)
Theorem forward_loses_bytes {D} `{AsyncRead D, AsyncWrite D} (now last : Z) (s : RelayStream D)
    (from from1 from2 : D) (bs : bytes) (inner : D) :
  poll_cache s = [] → poll_read TEMP_SIZE from = (Ready (Ok bs), from1) → bs ≠ [] →
  (∀ w, poll_write bs (r_inner s) = (Ready (Ok w), inner) → (0 < w < length bs)%nat →
     (length bs - w ≤ written s)%nat → poll_read TEMP_SIZE from1 = (Pending, from2) →
     forward now last s from = Some (Pending, now, MkRelayStream inner [] (written s), from2) ∧
     received inner = received (r_inner s) ++ take w bs ∧
     content from = bs ++ content from2) ∧
  (poll_write bs (r_inner s) = (Pending, inner) →
     forward now last s from = Some (Ready ErrWriteZero, now, MkRelayStream inner [] (written s), from1)).
Proof.
  intros He Hr Hbs. assert (0 < TEMP_SIZE)%nat as Hcap by (unfold TEMP_SIZE; lia).
  pose proof (poll_read_law TEMP_SIZE from Hcap) as Hl. rewrite Hr in Hl. destruct Hl as (_ & Hc & _).
  destruct bs as [|b bs]; [done|]. unfold forward. cbn [forward_from pump].
  rewrite flush_empty by done. rewrite Hr. cbn [r_inner poll_cache written]. split.
  - intros w Hw Hlt Hk Hp.
    pose proof (poll_write_law (b :: bs) (r_inner s)) as Hwl. rewrite Hw in Hwl.
    pose proof (poll_read_law TEMP_SIZE from1 Hcap) as Hl1. rewrite Hp in Hl1.
    rewrite Hw. destruct w as [|w]; [lia|]. rewrite decide_True by lia.
    rewrite Hc. split; [|split; [apply Hwl|by rewrite Hl1]].
    change (length ((b :: bs) ++ content from1)) with (S (length (bs ++ content from1))).
    cbn [forward_from]. rewrite flush_done by (cbn [poll_cache written app]; rewrite length_drop; lia).
    by rewrite (pump_waits _ _ _ _ _ _ _ Hp).
  - intros Hw. by rewrite Hw.
Qed.

(** *** Scripted ends *)

Section channel_demo.
#[local] Existing Instance duplex_read.
#[local] Existing Instance duplex_write.

Definition demo_end (s : list read_event) (budgets : list nat) : list read_event * ScriptSink :=
  (s, {| budgets := budgets; sunk := [] |}).

(** Two chunks of three bytes for an end that takes one byte, two, one, and then as much as it gets:
    bytes 5 and 6 never arrive, and the channel waits for more. *)
Definition demo_reader_end := demo_end [Chunk [1; 2; 3]; Chunk [4; 5; 6]; Wait] [].
Definition demo_writer_end := demo_end [] [1; 2; 1; 9; 9]%nat.

(** An end that takes everything. *)
Definition demo_sink : AsyncWrite bytes.
Proof.
  refine {| poll_write bs d := (Ready (Ok (length bs)), d ++ bs); received d := d |}.
  intros bs d. split; [lia|]. by rewrite take_ge by lia.
Defined.

Lemma forward_in_order_witness : let _ := demo_sink in
  ∃ s' from', forward 5 0 (relay_stream_new ([], [7])) ([Chunk [1; 2; 3]; Chunk [4; 5; 6]; Wait], []) =
      Some (Pending, 5, s', from') ∧
    content from' = [4; 5; 6] ∧ received (r_inner s') = [7; 1; 2; 3].
Proof.
  intros W.
  destruct (forward_in_order 5 0 (relay_stream_new ([], [7])) ([Chunk [1; 2; 3]; Chunk [4; 5; 6]; Wait], [])
              eq_refl) as [(r & l & s' & f & Hf) Hok].
  assert (whole_writes (D := list read_event * bytes)) as Hw by (intros bs d n d' [= <- _]; reflexivity).
  destruct (Hok r l s' f Hf Hw) as (_ & _ & Hr). exists s', f.
  assert (r = Pending ∧ l = 5 ∧ content f = [4; 5; 6]) as (-> & -> & Hc)
    by (revert Hf; vm_compute; intros [= <- <- _ <-]; repeat split; reflexivity).
  split; [exact Hf|]. split; [exact Hc|]. destruct (Hr eq_refl) as (bs & Hb & ->).
  rewrite Hc in Hb. change (content ([Chunk [1; 2; 3]; Chunk [4; 5; 6]; Wait], [] : bytes)) with
    ([1; 2; 3] ++ [4; 5; 6]) in Hb. apply (app_inj_2 [1; 2; 3] bs) in Hb as [<- _]; reflexivity.
Defined.

(** The channel after the first chunk: [written] stays at 2. *)
Definition demo_flushed : RelayStream (list read_event * ScriptSink) :=
  MkRelayStream ([], {| budgets := [1; 9; 9]%nat; sunk := [1; 2; 3] |}) [] 2.
Definition demo_rest : list read_event * ScriptSink := demo_end [Chunk [4; 5; 6]; Wait] [].

Lemma forward_loses_bytes_witness :
  forward 5 0 (relay_stream_new demo_writer_end) demo_reader_end = Some (Pending, 5, demo_flushed, demo_rest) ∧
  ∃ s2 f2, forward 6 5 demo_flushed demo_rest = Some (Pending, 6, s2, f2) ∧
    received (r_inner s2) = [1; 2; 3] ++ [4] ∧ content demo_rest = [4; 5; 6] ++ content f2.
Proof.
  split; [vm_compute; reflexivity|].
  destruct (forward_loses_bytes 6 5 demo_flushed demo_rest (demo_end [Chunk []; Wait] []) (demo_end [Wait] [])
    [4; 5; 6] ([], {| budgets := [9; 9]%nat; sunk := [1; 2; 3; 4] |})) as [Hl _];
    [reflexivity|vm_compute; reflexivity|discriminate|].
  destruct (Hl 1%nat) as (Hf & Hr & Hc); [vm_compute; reflexivity|simpl; lia|simpl; lia|vm_compute; reflexivity|].
  eexists _, _. split; [exact Hf|]. split; [exact Hr|exact Hc].
Defined.
End channel_demo.
