(* ===== verification/Encrypted.v ===== *)
(** The encrypted stream of [core/onion/src/behaviour.rs]: packets of [PacketWriter] and
    [PacketReader] whose payload is sealed in place with the secret of the path. It is what a node
    writes its answers to clients on ([ClientStream] of Server.v).

    The stream is a connection of Streams.v, AES-GCM the interface of Onion.v; the nonce of a write
    is its argument. *)

From S2P Require Import Prelude Codec Dht ChatSpec Chat Server Streams Onion.

Section encrypted.
Context {D : Type} `{AsyncRead D, AsyncWrite D, Aead} (PACKET_ASOC : bytes).

(** [inner] is the stream until it fails. *)
Record EncryptedStream := {
  inner : option D; key : SharedSecret; reader : PacketReader; writer : PacketWriter;
}.
Implicit Types (s : EncryptedStream).

Definition encrypted_new (stream : D) (key : SharedSecret) (memory : bytes) : EncryptedStream :=
  {| inner := Some stream; key := key; reader := packet_reader_default; writer := packet_writer_new memory |}.

Definition with_writer s (w : PacketWriter) : EncryptedStream :=
  {| inner := inner s; key := key s; reader := reader s; writer := w |}.

(* EncryptedStream::write: the packet is encrypted where the writer has put it *)
Definition encrypted_write {A} (c : Codec A) (data : A) (nonce : bytes) s : option unit * EncryptedStream :=
  let (w, writer) := guard (writer s) in
  match guard_write header [0; 0] w writer with
  | (None, w, writer) => (None, with_writer s (guard_drop w writer))
  | (Some (reserved, _), w, writer) =>
      match guard_write c data w writer with
      | (None, w, writer) => (None, with_writer s (guard_drop w writer))
      | (Some (raw, n), w, writer) =>
          let (ct, tag) := aead_encrypt (key s) nonce (take n (drop raw (mem w))) PACKET_ASOC in
          let w := copy_to w raw ct in
          let full_len := (n + length tag + length nonce)%nat in
          match guard_write reminder_codec tag w writer with
          | (None, w, writer) => (None, with_writer s (guard_drop w writer))
          | (Some _, w, writer) =>
              match guard_write reminder_codec nonce w writer with
              | (None, w, writer) => (None, with_writer s (guard_drop w writer))
              | (Some _, w, writer) =>
                  (Some tt, with_writer s (guard_drop (copy_to w reserved (encode_len full_len)) writer))
              end
          end
      end
  end.

(* EncryptedStream::poll: a stream that fails is dropped; [InvalidData] is [ErrOther] *)
Definition encrypted_poll s : Poll (result bytes io_error) * EncryptedStream :=
  match inner s with
  | None => (Pending, s)
  | Some stream =>
      let '(written, w, stream) := writer_poll (writer s) stream in
      let gone r w := {| inner := None; key := key s; reader := r; writer := w |} in
      match written with
      | Ready (Err e) => (Ready (Err e), gone (reader s) w)
      | _ =>
          let '(read, r, stream) := poll_packet (reader s) stream in
          match read with
          | Pending => (Pending, {| inner := Some stream; key := key s; reader := r; writer := w |})
          | Ready (Err e) => (Ready (Err e), gone r w)
          | Ready (Ok packet) =>
              match peel_wih_key PACKET_ASOC (key s) packet with
              | None => (Ready (Err ErrOther), gone r w)
              | Some (len, plain) =>
                  let buffer := take PACKET_LEN_WIDTH (read_buffer r) ++ plain ++
                                drop (PACKET_LEN_WIDTH + length packet) (read_buffer r) in
                  (Ready (Ok (take len plain)),
                   {| inner := Some stream; key := key s;
                      reader := {| read_buffer := buffer; read_offset := read_offset r |}; writer := w |})
              end
          end
      end
  end.

(* Stream::poll_next: [Ready None] is the end of the stream *)
Definition is_terminated s : bool := match inner s with None => true | Some _ => false end.
Definition encrypted_poll_next s : Poll (option (result bytes io_error)) * EncryptedStream :=
  if is_terminated s then (Ready None, s)
  else
    match encrypted_poll s with
    | (Ready r, s) => (Ready (Some r), s)
    | (Pending, s) => (Pending, s)
    end.

(** The packets returned by [n] polls in a row. *)
Fixpoint encrypted_polls (n : nat) s : list bytes * EncryptedStream :=
  match n with
  | O => ([], s)
  | Datatypes.S n =>
      match encrypted_poll s with
      | (Ready (Ok p), s) => let (ps, s) := encrypted_polls n s in (p :: ps, s)
      | (_, s) => encrypted_polls n s
      end
  end.
End encrypted.
Arguments EncryptedStream : clear implicits.

(** ** What a write queues *)

Section write.
Context {D : Type} `{AsyncRead D, AsyncWrite D, AeadOk} (PACKET_ASOC : bytes).
Context {A : Type} (c : Codec A) `{!TailCodec c}.
Implicit Types (a : A) (s : EncryptedStream D) (p nonce : bytes).

(** The sealed packet: the ciphertext, the tag, the nonce. *)
Definition sealed (key nonce p : bytes) : bytes :=
  let (ct, tag) := aead_encrypt key nonce p PACKET_ASOC in ct ++ tag ++ nonce.
(** What sealing adds. *)
Definition OVERHEAD : nat := TAG_SIZE + NONCE_SIZE.

Lemma sealed_length key nonce p :
  length nonce = NONCE_SIZE → length (sealed key nonce p) = (length p + OVERHEAD)%nat.
Proof.
  intros Hn. unfold sealed. destruct (aead_encrypt _ _ _ _) as [ct tag] eqn:Ha.
  destruct (aead_lengths _ _ _ _ _ _ Ha) as [Hc Ht]. rewrite !length_app, Hc, Ht, Hn. unfold OVERHEAD. lia.
Qed.

(** The steps of a write at a guard, until the packet is encrypted in place. *)
Lemma encrypted_in_place a w0 g X T Y key nonce ct tag :
  tvalid c a → guard_at w0 g X T Y → (2 + length (twire c a) ≤ length T)%nat →
  aead_encrypt key nonce (twire c a) PACKET_ASOC = (ct, tag) →
  let n := (2 + length (twire c a))%nat in
  ∃ w1 g1 w2,
    guard_write header [0; 0] w0 g = (Some (length X, 2%nat), w1, g1) ∧
    guard_write c a w1 g1 = (Some (length X + 2, length (twire c a))%nat, w2, adv_g n g) ∧
    take (length (twire c a)) (drop (length X + 2) (mem w2)) = twire c a ∧
    copy_to w2 (length X + 2) ct = adv_w n (set_mem w0 (X ++ ([0; 0] ++ ct) ++ drop n T ++ Y)) g ∧
    guard_at (copy_to w2 (length X + 2) ct) (adv_g n g) (X ++ [0; 0] ++ ct) (drop n T) Y ∧
    (∀ w' g', rolls_back (copy_to w2 (length X + 2) ct) (adv_g n g) (X ++ [0; 0] ++ ct) (drop n T) Y w' g' →
       rolls_back w0 g X T Y w' g').
Proof.
  intros Ha Hat Hl He n. destruct (aead_lengths _ _ _ _ _ _ He) as [Hc _].
  assert (length ([0; 0] ++ ct) = n) as Hn by (unfold n; rewrite length_app, Hc; done).
  pose proof (guard_at_adv w0 g X T Y [0; 0] [0; 0] Hat eq_refl ltac:(simpl; lia)) as Hat1.
  eexists _, _, _. split.
  { rewrite (guard_write_ok header [0; 0] w0 g X T Y header_valid Hat) by (simpl; lia). done. }
  split.
  { change (length (twire header [0; 0])) with (length [0; 0]). change (twire header [0; 0]) with [0; 0].
    rewrite (guard_write_ok c a _ _ _ _ _ Ha Hat1) by (rewrite length_drop; simpl; lia).
    rewrite adv_g_add, length_app. done. }
  rewrite adv_w_add, mem_adv, drop_drop, <-!(assoc_L (++)).
  replace (length X + 2)%nat with (length (X ++ [0; 0])) by (rewrite length_app; done).
  change (length [0; 0]) with 2%nat. fold n.
  split; [by rewrite (assoc_L (++) X), drop_app_length, take_app_length|].
  assert (copy_to (adv_w n (set_mem w0 (X ++ [0; 0] ++ twire c a ++ drop n T ++ Y)) g) (length (X ++ [0; 0])) ct =
    adv_w n (set_mem w0 (X ++ ([0; 0] ++ ct) ++ drop n T ++ Y)) g) as Hcopy.
  { erewrite (copy_to_at _ (X ++ [0; 0]) ct (twire c a)) by (rewrite ?mem_adv, ?(assoc_L (++) X); done).
    rewrite set_mem_adv, <-!(assoc_L (++)). done. }
  rewrite Hcopy. split; [done|].
  pose proof (guard_at_adv w0 g X T Y ([0; 0] ++ ct) ([0; 0] ++ ct) Hat eq_refl ltac:(lia)) as Hat2.
  rewrite Hn in Hat2. split; [exact Hat2|]. intros w' g' Hr.
  eapply (rolls_back_adv _ _ _ _ _ ([0; 0] ++ ct)); [lia|]. rewrite Hn. exact Hr.
Qed.

Lemma bytes_valid (b : bytes) : tvalid reminder_codec b.
Proof. exact I. Qed.

Lemma bytes_in_place (b : bytes) : in_place (encode reminder_codec b).
Proof. apply in_place_extend. Qed.

(** A write that fits is the write of the sealed packet. *)
Lemma encrypted_write_fits a nonce s w0 g X T Y :
  tvalid c a → guard (writer s) = (w0, g) → guard_at w0 g X T Y → length nonce = NONCE_SIZE →
  (2 + (length (twire c a) + OVERHEAD) ≤ length T)%nat →
  encrypted_write PACKET_ASOC c a nonce s =
    (Some tt, with_writer s (framed w0 g X T Y (sealed (key s) nonce (twire c a)))).
Proof.
  intros Ha Hg Hat Hn Hl. unfold encrypted_write, sealed, OVERHEAD in *. rewrite Hg.
  destruct (aead_encrypt (key s) nonce (twire c a) PACKET_ASOC) as [ct tag] eqn:He.
  destruct (aead_lengths _ _ _ _ _ _ He) as [Hc Ht].
  destruct (encrypted_in_place a w0 g X T Y (key s) nonce ct tag Ha Hat ltac:(lia) He)
    as (w1 & g1 & w2 & -> & -> & -> & Hcopy & Hat2 & _).
  rewrite He. set (n := (2 + length (twire c a))%nat) in *.
  assert (length (drop n T) = length T - n)%nat as Hd by apply length_drop.
  rewrite (guard_write_ok reminder_codec tag _ _ _ _ _ (bytes_valid _) Hat2) by (simpl; lia).
  change (twire reminder_codec tag) with tag.
  pose proof (guard_at_adv _ _ _ _ _ tag tag Hat2 eq_refl ltac:(lia)) as Hat3.
  rewrite (guard_write_ok reminder_codec nonce _ _ _ _ _ (bytes_valid _) Hat3) by (rewrite length_drop; simpl; lia).
  change (twire reminder_codec nonce) with nonce. rewrite Hcopy.
  rewrite !adv_w_add, !adv_g_add, !drop_drop, <-!(assoc_L (++)).
  replace (n + (length tag + length nonce))%nat with (2 + length (ct ++ tag ++ nonce))%nat
    by (unfold n; rewrite !length_app; lia).
  replace (length (twire c a) + length tag + length nonce)%nat with (length (ct ++ tag ++ nonce))
    by (rewrite !length_app; lia).
  rewrite <-(header_filled w0 g X T Y (ct ++ tag ++ nonce)), <-!(assoc_L (++)). done.
Qed.

(** One that does not is undone. *)
Lemma encrypted_write_undone a nonce s w0 g X T Y :
  tvalid c a → in_place (encode c a) → guard (writer s) = (w0, g) → guard_at w0 g X T Y →
  length nonce = NONCE_SIZE → (length T < 2 + (length (twire c a) + OVERHEAD))%nat →
  ∃ w' g', encrypted_write PACKET_ASOC c a nonce s = (None, with_writer s (guard_drop w' g')) ∧
    rolls_back w0 g X T Y w' g'.
Proof.
  intros Ha Hi Hg Hat Hn Hl. unfold encrypted_write, OVERHEAD in *. rewrite Hg.
  destruct (decide (2 + length (twire c a) ≤ length T)%nat) as [Hfit|Hfit].
  2: { pose proof (write_packet_rolled_back c a (writer s) w0 g X T Y Ha Hi Hg Hat ltac:(lia)) as Hw.
       unfold write_packet in Hw. rewrite Hg in Hw.
       destruct (guard_write header [0; 0] w0 g) as [[[[r k]|] w1] g1]; [|destruct Hw as (w' & g' & [= Hd] & Hr)].
       - destruct (guard_write c a w1 g1) as [[[[r' k']|] w2] g2]; [by destruct Hw as (w' & g' & [=] & _)|].
         destruct Hw as (w' & g' & [= ->] & Hr). by exists w', g'.
       - rewrite Hd. by exists w', g'. }
  destruct (aead_encrypt (key s) nonce (twire c a) PACKET_ASOC) as [ct tag] eqn:He.
  destruct (aead_lengths _ _ _ _ _ _ He) as [Hc Ht].
  destruct (encrypted_in_place a w0 g X T Y (key s) nonce ct tag Ha Hat Hfit He)
    as (w1 & g1 & w2 & -> & -> & -> & _ & Hat2 & Hback).
  rewrite He. set (n := (2 + length (twire c a))%nat) in *.
  assert (length (drop n T) = length T - n)%nat as Hd by apply length_drop.
  destruct (decide (length tag ≤ length (drop n T))%nat) as [Htag|Htag].
  - rewrite (guard_write_ok reminder_codec tag _ _ _ _ _ (bytes_valid _) Hat2) by (simpl; lia).
    change (twire reminder_codec tag) with tag.
    pose proof (guard_at_adv _ _ _ _ _ tag tag Hat2 eq_refl Htag) as Hat3.
    destruct (guard_write_none reminder_codec nonce _ _ _ _ _ (bytes_valid _) (bytes_in_place nonce) Hat3)
      as (w' & g' & -> & Hr); [rewrite length_drop; simpl; unfold n in *; lia|].
    exists w', g'. split; [done|]. apply Hback. by eapply rolls_back_adv.
  - destruct (guard_write_none reminder_codec tag _ _ _ _ _ (bytes_valid _) (bytes_in_place tag) Hat2)
      as (w' & g' & -> & Hr); [simpl; lia|].
    exists w', g'. split; [done|]. by apply Hback.
Qed.

(** A write that fits does to the ring what writing the sealed packet does. *)
Lemma encrypted_write_is_packet a nonce s (p := sealed (key s) nonce (twire c a)) :
  tvalid c a → writer_settled (writer s) → length nonce = NONCE_SIZE →
  (length (len_frame p) ≤ write_room (writer s))%nat →
  ∃ w, write_packet reminder_codec p (writer s) = (Some tt, w) ∧
    encrypted_write PACKET_ASOC c a nonce s = (Some tt, with_writer s w).
Proof.
  intros Ha Hs Hn Hw. rewrite len_frame_length in Hw.
  assert (length (twire reminder_codec p) = length (twire c a) + OVERHEAD)%nat as Hl by by apply sealed_length.
  change (twire reminder_codec p) with p in Hl.
  pose proof (guard_opens (writer s) Hs) as Hat. destruct (guard_lengths (writer s) Hs) as (_ & Hlr & _).
  destruct (guard (writer s)) as [w0 g] eqn:Hg. eexists. split.
  - apply (write_packet_framed reminder_codec p _ _ _ _ _ _ (bytes_valid p) Hg Hat). by rewrite Hlr.
  - apply (encrypted_write_fits a nonce s _ _ _ _ _ Ha Hg Hat Hn). by rewrite <-Hl, Hlr.
Qed.

(** A write that leaves the ring unambiguous queues the sealed packet. *)
Lemma encrypted_write_queues_sealed a nonce s :
  tvalid c a → writer_settled (writer s) → length nonce = NONCE_SIZE →
  safe_write (2 + (length (twire c a) + OVERHEAD)) (writer s) →
  ∃ w, encrypted_write PACKET_ASOC c a nonce s = (Some tt, with_writer s w) ∧ writer_settled w ∧
    pending_bytes w = pending_bytes (writer s) ++ len_frame (sealed (key s) nonce (twire c a)).
Proof.
  intros Ha Hs Hn Hw. rewrite <-(sealed_length (key s) nonce (twire c a) Hn) in Hw.
  destruct (encrypted_write_is_packet a nonce s Ha Hs Hn) as (w & Hok & He).
  { rewrite len_frame_length. unfold safe_write in Hw. destruct (replaces (writer s)); lia. }
  destruct (safe_write_pending reminder_codec _ (writer s) (bytes_valid _) Hs Hw) as (w' & Hok' & Hp & Hset).
  rewrite Hok in Hok'. injection Hok' as <-. by exists w.
Qed.

(** One that fits and does not leave the ring unambiguous goes through as well, but the queue is
    forgotten, or the packet goes in front of bytes that were queued earlier. *)
Lemma encrypted_write_scrambles a nonce s (frame := len_frame (sealed (key s) nonce (twire c a))) :
  tvalid c a → writer_settled (writer s) → length nonce = NONCE_SIZE →
  (length frame ≤ write_room (writer s))%nat → ¬ safe_write (length frame) (writer s) →
  ∃ w, encrypted_write PACKET_ASOC c a nonce s = (Some tt, with_writer s w) ∧
    (pending_bytes w = [] ∨ ∃ first second, pending_bytes (writer s) = first ++ second ∧
       length second = end_ (writer s) ∧ pending_bytes w = first ++ frame ++ second).
Proof.
  intros Ha Hs Hn Hw Hu. destruct (encrypted_write_is_packet a nonce s Ha Hs Hn Hw) as (w & Hok & He).
  exists w. split; [done|]. unfold safe_write in Hu.
  destruct (write_packet_ring_defects reminder_codec (sealed (key s) nonce (twire c a)) (writer s) (bytes_valid _) Hs)
    as [Hlost Hsplit].
  change (twire reminder_codec ?x) with x in *. fold frame in Hlost, Hsplit. destruct (replaces (writer s)) eqn:Hr.
  - left. destruct (Hlost eq_refl) as (w' & Hok' & Hp); [lia|]. rewrite Hok in Hok'. by injection Hok' as <-.
  - right. destruct (Hsplit eq_refl) as (w' & first & second & Hok' & Hp); [lia|done|].
    rewrite Hok in Hok'. injection Hok' as <-. by exists first, second.
Qed.

Lemma encrypted_write_fails a nonce s :
  tvalid c a → in_place (encode c a) → writer_settled (writer s) → length nonce = NONCE_SIZE →
  (write_room (writer s) < 2 + (length (twire c a) + OVERHEAD))%nat →
  ∃ w, encrypted_write PACKET_ASOC c a nonce s = (None, with_writer s w) ∧ writer_settled w ∧
    pending_bytes w = pending_bytes (writer s).
Proof.
  intros Ha Hi Hs Hn Hw. pose proof (guard_opens (writer s) Hs) as Hat.
  pose proof (λ w' g', rollback_pending (writer s) w' g' Hs) as Hp.
  destruct (guard_lengths (writer s) Hs) as (_ & Hl & _). destruct (guard (writer s)) as [w0 g] eqn:Hg.
  destruct (encrypted_write_undone a nonce s w0 g _ _ _ Ha Hi Hg Hat Hn) as (w' & g' & -> & Hb); [by rewrite Hl|].
  destruct (Hp w' g' Hb). by eexists.
Qed.
End write.

(** ** From one end to the other *)

Section ends.
Context {D : Type} `{Duplex D, AeadOk} (PACKET_ASOC : bytes).
Implicit Types (s : EncryptedStream D) (d : D).
Notation encrypted_poll := (encrypted_poll PACKET_ASOC).
Notation encrypted_polls := (encrypted_polls PACKET_ASOC).

Definition seals (key frame msg : bytes) : Prop :=
  ∃ nonce, length nonce = NONCE_SIZE ∧ frame = sealed PACKET_ASOC key nonce msg.
(** A message whose sealed packet has a length of two bytes. *)
Definition sendable (msg : bytes) : Prop := Z.of_nat (length msg + OVERHEAD) < 65536.

(** What a sender does: writes that are queued, writes that are refused for want of room, and
    polls. Every write finds the ring settled, that is without stale bytes behind the queue; a write that
    goes through is smaller than the hole it goes into, or is not appended to a wrapped queue. *)
Inductive sends : EncryptedStream D → list bytes → EncryptedStream D → Prop :=
  | sends_nil s : sends s [] s
  | sends_write {A} (c : Codec A) `{!TailCodec c} a nonce s s1 msgs s2 :
      tvalid c a → length nonce = NONCE_SIZE → writer_settled (writer s) →
      safe_write (2 + (length (twire c a) + OVERHEAD)) (writer s) →
      encrypted_write PACKET_ASOC c a nonce s = (Some tt, s1) → sends s1 msgs s2 →
      sends s (twire c a :: msgs) s2
  | sends_refused {A} (c : Codec A) `{!TailCodec c} a nonce s s1 msgs s2 :
      tvalid c a → in_place (encode c a) → length nonce = NONCE_SIZE → writer_settled (writer s) →
      (write_room (writer s) < 2 + (length (twire c a) + OVERHEAD))%nat →
      encrypted_write PACKET_ASOC c a nonce s = (None, s1) → sends s1 msgs s2 → sends s msgs s2
  | sends_poll res s s1 msgs s2 : encrypted_poll s = (res, s1) → sends s1 msgs s2 → sends s msgs s2.

Lemma frames_small key frames msgs :
  Forall2 (seals key) frames msgs → Forall sendable msgs →
  Forall (λ f, Z.of_nat (length f) < 65536) frames.
Proof.
  intros Hs. induction Hs as [|f m frames msgs (nonce & Hn & ->) _ IH]; [constructor|].
  intros [Hm Hms]%Forall_cons. constructor; [|by apply IH]. by rewrite sealed_length.
Qed.

Lemma writer_poll_keeps w d res w' d' : writer_poll w d = (res, w', d') → writer_ok w →
  writer_ok w' ∧ received d' ++ pending_bytes w' = received d ++ pending_bytes w ∧ content d' = content d.
Proof.
  intros Hp Hw. pose proof (writer_poll_content w d) as Hc. rewrite Hp in Hc.
  assert (writer_poll w d = poll_loop (length (pending_bytes w)) w d) as Heq
    by (unfold writer_poll, pending_bytes; by destruct (writable_parts w)).
  rewrite Heq in Hp. pose proof (poll_loop_spec _ w d Hw (le_n _)) as Hl. rewrite Hp in Hl.
  by destruct Hl as (? & ? & _).
Qed.

(** What a poll does to what the other end will get. *)
Lemma poll_sent s res s' d' :
  encrypted_poll s = (res, s') → inner s' = Some d' → writer_ok (writer s) →
  ∃ d, inner s = Some d ∧ key s' = key s ∧ writer_ok (writer s') ∧
    received d' ++ pending_bytes (writer s') = received d ++ pending_bytes (writer s).
Proof.
  unfold encrypted_poll. destruct (inner s) as [d|] eqn:Hd; [|intros [= <- <-]; by rewrite Hd].
  intros Hp Hi Hw. exists d. split; [done|].
  destruct (writer_poll (writer s) d) as [[written w] d1] eqn:Hwp.
  destruct (writer_poll_keeps _ _ _ _ _ Hwp Hw) as (Hw' & Hr & _).
  pose proof (poll_packet_received (reader s) d1) as Hrd.
  destruct (poll_packet (reader s) d1) as [[read r] d2]. simpl in Hrd.
  destruct written as [[[]|e]|]; [|by injection Hp as <- <-|];
    (destruct read as [[packet|e]|]; [|by injection Hp as <- <-|];
     [destruct (peel_wih_key _ _ _) as [[n plain]|]; [|by injection Hp as <- <-]|]);
    injection Hp as <- <-; injection Hi as <-; cbn [key writer]; rewrite Hrd; done.
Qed.

Lemma poll_inner s res s' : encrypted_poll s = (res, s') → inner s = None → inner s' = None.
Proof. unfold encrypted_poll. by intros Hp Hi; rewrite Hi in Hp; injection Hp as <- <-. Qed.

Lemma sends_inner s msgs s' d' : sends s msgs s' → inner s' = Some d' → ∃ d, inner s = Some d.
Proof.
  intros Hs Hi. induction Hs as [s|A c Hc a nonce s s1 msgs s2 Ha Hn Hset Hsafe He Hs IH
      |A c Hc a nonce s s1 msgs s2 Ha Hpl Hn Hset Hroom He Hs IH|res s s1 msgs s2 Hp Hs IH].
  - by eexists.
  - destruct (encrypted_write_queues_sealed PACKET_ASOC c a nonce s Ha Hset Hn Hsafe) as (w & He' & _).
    rewrite He' in He. injection He as <-. by apply IH.
  - destruct (encrypted_write_fails PACKET_ASOC c a nonce s Ha Hpl Hset Hn Hroom) as (w & He' & _).
    rewrite He' in He. injection He as <-. by apply IH.
  - destruct (IH Hi) as [d1 Hd1]. destruct (inner s) as [d|] eqn:Hd; [by eexists|].
    by rewrite (poll_inner _ _ _ Hp Hd) in Hd1.
Qed.

Lemma sends_frames s msgs s' d' :
  sends s msgs s' → inner s' = Some d' → writer_ok (writer s) →
  ∃ d frames, inner s = Some d ∧ key s' = key s ∧ Forall2 (seals (key s)) frames msgs ∧
    received d' ++ pending_bytes (writer s') =
      received d ++ pending_bytes (writer s) ++ concat (map len_frame frames).
Proof.
  intros Hs Hi. induction Hs as [s|A c Hc a nonce s s1 msgs s2 Ha Hn Hset Hsafe He Hs IH
      |A c Hc a nonce s s1 msgs s2 Ha Hpl Hn Hset Hroom He Hs IH|res s s1 msgs s2 Hp Hs IH];
    intros Hw.
  - exists d', []. split; [done|]. split; [done|]. split; [constructor|]. by rewrite app_nil_r.
  - destruct (encrypted_write_queues_sealed PACKET_ASOC c a nonce s Ha Hset Hn Hsafe) as (w & He' & Hset' & Hp).
    rewrite He' in He. injection He as <-.
    destruct (IH Hi) as (d & frames & Hd & Hk & Hf & Heq); [apply Hset'|]. cbn [inner key writer with_writer] in *.
    exists d, (sealed PACKET_ASOC (key s) nonce (twire c a) :: frames). split; [done|]. split; [done|].
    split; [constructor; [by exists nonce|done]|]. rewrite Heq, Hp. cbn [map concat]. by rewrite <-!(assoc_L (++)).
  - destruct (encrypted_write_fails PACKET_ASOC c a nonce s Ha Hpl Hset Hn Hroom) as (w & He' & Hset' & Hp).
    rewrite He' in He. injection He as <-.
    destruct (IH Hi) as (d & frames & Hd & Hk & Hf & Heq); [apply Hset'|]. cbn [inner key writer with_writer] in *.
    exists d, frames. by rewrite Heq, Hp.
  - destruct (sends_inner s1 msgs s2 d' Hs Hi) as [d1 Hd1].
    destruct (poll_sent s res s1 d1 Hp Hd1 Hw) as (d & Hd & Hk & Hw1 & Hr).
    destruct (IH Hi Hw1) as (d1' & frames & Hd1' & Hk' & Hf & Heq). rewrite Hd1 in Hd1'. injection Hd1' as <-.
    exists d, frames. rewrite Hk', Hk in *. split; [done|]. split; [done|]. split; [done|].
    rewrite Heq, !(assoc_L (++)), Hr. done.
Qed.

Lemma held_nil (r : PacketReader) : reader_ok r → held r = [] → read_offset r = 0%nat.
Proof. intros [Hr _] Hh. apply (f_equal length) in Hh. unfold held in Hh. rewrite length_take in Hh. simpl in Hh. lia. Qed.

(** What is still to come out of an end. *)
Definition expects s (d : D) (msgs : list bytes) : Prop :=
  reader_ok (reader s) ∧ writer_ok (writer s) ∧ Forall sendable msgs ∧
  ∃ frames, Forall2 (seals (key s)) frames msgs ∧
    held (reader s) ++ content d = concat (map len_frame frames).

(** One poll gives the next message, or changes nothing about what is to come. *)
Lemma poll_expected s d msgs res s' :
  inner s = Some d → expects s d msgs → encrypted_poll s = (res, s') →
  (∃ m msgs' d', res = Ready (Ok m) ∧ msgs = m :: msgs' ∧ inner s' = Some d' ∧ expects s' d' msgs') ∨
  ((∀ m, res ≠ Ready (Ok m)) ∧ (inner s' = None ∨ ∃ d', inner s' = Some d' ∧ expects s' d' msgs)).
Proof.
  intros Hd (Hr & Hw & Hsmall & frames & Hf & Hc). unfold encrypted_poll. rewrite Hd.
  destruct (writer_poll (writer s) d) as [[written w] d1] eqn:Hwp.
  destruct (writer_poll_keeps _ _ _ _ _ Hwp Hw) as (Hw' & _ & Hcd). rewrite <-Hcd in Hc.
  pose proof (poll_packet_spec (reader s) d1 Hr) as Hp.
  destruct (poll_packet (reader s) d1) as [[read r] d2]. destruct Hp as [Hr' Hp].
  destruct written as [[[]|e]|]; [|by intros [= <- <-]; right; split; [|left]|];
    (destruct read as [[packet|e]|];
     [|by intros [= <- <-]; right; split; [|left]
      |intros [= <- <-]; right; split; [done|right]; exists d2; split; [done|]; split; [done|]; split; [done|];
       split; [done|]; exists frames; split; [done|]; cbn [reader]; rewrite <-Hp; exact Hc];
     destruct Hp as (h & Hh & Hdec & Hheld & Heq); rewrite Hc in Heq; symmetry in Heq;
     apply (frames_head h packet (content d2) frames (frames_small _ _ _ Hf Hsmall) Hh Hdec) in Heq
       as (later & -> & Hlater);
     apply Forall2_cons_inv_l in Hf as (m & msgs' & (nonce & Hn & ->) & Hf & ->);
     unfold sealed; destruct (aead_encrypt (key s) nonce m PACKET_ASOC) as [ct tag] eqn:He;
     rewrite (peel_sealed PACKET_ASOC _ _ _ _ _ He Hn); intros [= <- <-]; left; eexists _, msgs', d2;
     split; [by rewrite take_app_length|]; split; [done|]; split; [done|];
     apply Forall_cons in Hsmall as [_ Hsmall]; apply held_nil in Hheld; [|exact Hr'];
     split; [split; cbn [reader read_offset]; lia|]; split; [done|]; split; [done|]; exists later;
     split; [done|]; unfold held; cbn [reader read_offset]; by rewrite Hheld, <-Hlater).
Qed.

Lemma polls_expected n s d msgs :
  inner s = Some d → expects s d msgs → ∃ later, msgs = fst (encrypted_polls n s) ++ later.
Proof.
  assert (∀ n s, inner s = None → fst (encrypted_polls n s) = []) as Hgone.
  { clear. induction n as [|n IH]; intros s Hi; [done|]. cbn [encrypted_polls].
    destruct (encrypted_poll s) as [res s'] eqn:Hp. pose proof (poll_inner _ _ _ Hp Hi) as Hi'.
    unfold Encrypted.encrypted_poll in Hp. rewrite Hi in Hp. injection Hp as <- <-. by apply IH. }
  revert s d msgs. induction n as [|n IH]; intros s d msgs Hd He; cbn [encrypted_polls]; [by exists msgs|].
  destruct (encrypted_poll s) as [res s'] eqn:Hp.
  destruct (poll_expected s d msgs res s' Hd He Hp) as [(m & msgs' & d' & -> & -> & Hd' & He')|[Hres Hs']].
  - destruct (IH s' d' msgs' Hd' He') as [later ->].
    destruct (encrypted_polls n s') as [ps s'']. by exists later.
  - assert (∃ later, msgs = fst (encrypted_polls n s') ++ later) as [later ->].
    { destruct Hs' as [Hi|(d' & Hd' & He')]; [rewrite (Hgone n s' Hi); by exists msgs|by eapply IH]. }
    destruct res as [[m|e]|]; [by destruct (Hres m)|by exists later..].
Qed.
End ends.

(** What a node writes to its clients: every write draws a nonce. *)
Definition encrypted_client {D} `{AsyncRead D, AsyncWrite D, Aead} (PACKET_ASOC : bytes) (draw : nat → bytes) :
    ClientStream (nat * EncryptedStream D) :=
  {| stream_write A c a s :=
       let (r, e) := encrypted_write PACKET_ASOC c a (draw s.1) s.2 in (r, (Datatypes.S s.1, e)) |}.

(** ** Properties *)

(** C18: What is written on one end of an encrypted stream comes out of the other. Whatever the
    sender writes and polls in between, whichever writes are refused for want of room, and however the
    streams cut, delay or fail, the receiver's polls give a prefix of the messages written, decrypted,
    in order, each once; provided that every write finds no stale bytes behind the queue in the sender's
    ring ([writer_settled]), and that one that goes through is smaller than the hole it goes into, or is not
    appended to a queue that wraps around ([safe_write]). The second condition is needed: a write that fits and
    breaks it succeeds all the same, and the queue is forgotten, this packet included, or the packet goes in
    front of bytes that were queued before it. *)
Theorem encrypted_stream_delivers {D} `{Duplex D, AeadOk} (PACKET_ASOC secret memory : bytes) (d : D)
    (msgs : list bytes) (s : EncryptedStream D) :
  sends PACKET_ASOC (encrypted_new d secret memory) msgs s →
  (∀ d' d2 (s2 : EncryptedStream D) (n : nat), inner s = Some d' → Forall sendable msgs →
     inner s2 = Some d2 → key s2 = secret → reader s2 = packet_reader_default → writer_ok (writer s2) →
     received d ++ content d2 = received d' ++ pending_bytes (writer s) →
     ∃ later, msgs = fst (encrypted_polls PACKET_ASOC n s2) ++ later) ∧
  (∀ {A} (c : Codec A) `{!TailCodec c} a nonce, let frame := len_frame (sealed PACKET_ASOC (key s) nonce (twire c a)) in
     tvalid c a → length nonce = NONCE_SIZE → writer_settled (writer s) →
     (length frame ≤ write_room (writer s))%nat → ¬ safe_write (length frame) (writer s) →
     ∃ w, encrypted_write PACKET_ASOC c a nonce s = (Some tt, with_writer s w) ∧
       (pending_bytes w = [] ∨ ∃ first second, pending_bytes (writer s) = first ++ second ∧
          length second = end_ (writer s) ∧ pending_bytes w = first ++ frame ++ second)).
Proof.
  intros Hs. split.
  - intros d' d2 s2 n Hi Hsmall Hd2 Hk Hr Hw Hc.
    assert (writer_ok (packet_writer_new memory)) as Hnew by (unfold writer_ok; simpl; lia).
    destruct (sends_frames PACKET_ASOC _ _ _ _ Hs Hi Hnew) as (d0 & frames & [= <-] & _ & Hf & Heq).
    rewrite Heq in Hc. apply (app_inv_head (received d)) in Hc.
    apply (polls_expected PACKET_ASOC n s2 d2 msgs Hd2). unfold expects. rewrite Hr, Hk.
    split; [split; simpl; lia|]. split; [done|]. split; [done|]. by exists frames.
  - intros A c Hc a nonce frame Ha Hn Hset Hroom Hu. by apply encrypted_write_scrambles.
Qed.

(** A write queues the sealed packet or, when it does not fit, nothing. *)
Theorem encrypted_write_all_or_nothing {D} `{AsyncRead D, AsyncWrite D, AeadOk} (PACKET_ASOC : bytes)
    {A} (c : Codec A) `{!TailCodec c} (a : A) (nonce : bytes) (s : EncryptedStream D) :
  tvalid c a → writer_settled (writer s) → length nonce = NONCE_SIZE →
  let n := (2 + (length (twire c a) + OVERHEAD))%nat in
  let (r, s') := encrypted_write PACKET_ASOC c a nonce s in
  (safe_write n (writer s) →
     r = Some tt ∧ pending_bytes (writer s') =
       pending_bytes (writer s) ++ len_frame (sealed PACKET_ASOC (key s) nonce (twire c a))) ∧
  (in_place (encode c a) → (write_room (writer s) < n)%nat →
     r = None ∧ pending_bytes (writer s') = pending_bytes (writer s)).
Proof.
  intros Ha Hs Hn n. destruct (encrypted_write PACKET_ASOC c a nonce s) as [r s'] eqn:He. split.
  - intros Hw. destruct (encrypted_write_queues_sealed PACKET_ASOC c a nonce s Ha Hs Hn Hw) as (w & He' & _ & Hp).
    rewrite He' in He. by injection He as <- <-.
  - intros Hi Hw. destruct (encrypted_write_fails PACKET_ASOC c a nonce s Ha Hi Hs Hn Hw) as (w & He' & _ & Hp).
    rewrite He' in He. by injection He as <- <-.
Qed.

(** ** An exchange *)

Section demo.
#[local] Existing Instance demo_aead.
#[local] Existing Instance demo_aead_ok.
#[local] Existing Instance duplex_read.
#[local] Existing Instance duplex_write.
Notation End := (list read_event * ScriptSink)%type.

Definition demo_secret : bytes := replicate 32 9.
Definition demo_nonce : bytes := replicate 12 1.
Definition demo_sender_end : End := ([Wait; Wait], {| budgets := [7; 100]%nat; sunk := [] |}).
Definition demo_s0 : EncryptedStream End := encrypted_new demo_sender_end demo_secret (replicate 100 0).
Definition demo_s1 := Eval vm_compute in snd (encrypted_write [] reminder_codec [1; 2; 3] demo_nonce demo_s0).
Definition demo_s2 := Eval vm_compute in snd (encrypted_poll [] demo_s1).
Definition demo_s3 := Eval vm_compute in snd (encrypted_write [] reminder_codec [4] demo_nonce demo_s2).

(** The bytes of both packets, in two pieces. *)
Definition demo_bytes : bytes :=
  match inner demo_s3 with Some d => received d ++ pending_bytes (writer demo_s3) | None => [] end.
Definition demo_receiver : EncryptedStream End :=
  encrypted_new ([Chunk (take 40 demo_bytes); Wait; Chunk (drop 40 demo_bytes)], {| budgets := []; sunk := [] |})
    demo_secret [].

Lemma demo_write (msg : bytes) (s s' : EncryptedStream End) :
  writer_settled (writer s) → safe_write (2 + (length msg + OVERHEAD)) (writer s) →
  encrypted_write [] reminder_codec msg demo_nonce s = (Some tt, s') →
  ∀ msgs s'', sends [] s' msgs s'' → sends [] s (msg :: msgs) s''.
Proof. intros Hs Hw He msgs s''. exact (sends_write [] reminder_codec msg demo_nonce s s' msgs s'' I eq_refl Hs Hw He). Qed.

Lemma demo_sends : sends [] demo_s0 [[1; 2; 3]; [4]] demo_s3.
Proof.
  apply (demo_write [1; 2; 3] demo_s0 demo_s1); [decided|decided|vm_compute; reflexivity|].
  apply (sends_poll [] (fst (encrypted_poll [] demo_s1)) demo_s1 demo_s2); [vm_compute; reflexivity|].
  (* a packet too large for the ring is refused *)
  refine (sends_refused [] reminder_codec (replicate 99 0) demo_nonce demo_s2
    (snd (encrypted_write [] reminder_codec (replicate 99 0) demo_nonce demo_s2)) _ _ I (bytes_in_place _) eq_refl _ _ _ _);
    [decided|decided|vm_compute; reflexivity|].
  apply (demo_write [4] _ demo_s3); [decided|decided|vm_compute; reflexivity|constructor].
Qed.

Lemma encrypted_stream_delivers_witness :
  fst (encrypted_polls [] 2 demo_receiver) = [[1; 2; 3]] ∧
  ∃ later, [[1; 2; 3]; [4]] = fst (encrypted_polls [] 2 demo_receiver) ++ later.
Proof.
  split; [vm_compute; reflexivity|].
  destruct (inner demo_s3) as [d'|] eqn:Hi; [|vm_compute in Hi; discriminate Hi].
  refine (proj1 (encrypted_stream_delivers [] demo_secret (replicate 100 0) demo_sender_end [[1; 2; 3]; [4]]
            demo_s3 demo_sends) d' _ demo_receiver 2%nat Hi _ eq_refl eq_refl eq_refl _ _).
  - decided.
  - decided.
  - vm_compute in Hi. injection Hi as <-. vm_compute. reflexivity.
Defined.

Lemma encrypted_write_all_or_nothing_witness :
  fst (encrypted_write [] reminder_codec [1; 2; 3] demo_nonce demo_s0) = Some tt ∧
  fst (encrypted_write [] reminder_codec (replicate 99 0) demo_nonce demo_s0) = None.
Proof.
  split.
  - pose proof (encrypted_write_all_or_nothing [] reminder_codec [1; 2; 3] demo_nonce demo_s0) as H.
    destruct (encrypted_write [] reminder_codec [1; 2; 3] demo_nonce demo_s0) as [r s'].
    apply H; [exact I|decided|reflexivity|decided].
  - pose proof (encrypted_write_all_or_nothing [] reminder_codec (replicate 99 0) demo_nonce demo_s0) as H.
    destruct (encrypted_write [] reminder_codec (replicate 99 0) demo_nonce demo_s0) as [r s'].
    apply H; [exact I|decided|reflexivity|apply bytes_in_place|decided].
Defined.
End demo.
