(* ===== verification/Paths.v ===== *)
(** The onion behaviour of [core/onion/src/behaviour.rs] as a state machine: the paths this node
    opens, the streams it relays for others, and what it reports; with the events of
    [core/onion/src/handler.rs] that drive it.

    Peers, streams, keys and errors are parameters. Fresh connection and path ids are counters, as
    in libp2p and [gen_unique_id!]. *)

From S2P Require Import Prelude Codec Streams Collections Onion Relay Encrypted.

Section behaviour.
Context {D Peer Pk Err_ : Type} `{AsyncRead D, AsyncWrite D, EqDecision Peer}.
Notation Channel := (Channel D).

(** [handler::StreamRequest] and [IncomingStreamMeta]. *)
Record PathRequest := { q_to : Peer; q_path_id : PathId; q_recipient : Pk; q_path : list (Pk * Peer) }.
Record IncomingStreamMeta := { m_to : Peer; m_buffer : bytes; m_path_id : PathId }.
Record IncomingStream := { i_stream : D; i_meta : IncomingStreamMeta }.
Inductive IncomingOrRequest := PIncoming (m : IncomingStreamMeta) | PRequest (r : PathRequest).

(** The errors an opened path can end with; [MissingPeer] is the one the behaviour makes itself. *)
Inductive OUpgradeError := MissingPeer | UpgradeError (e : Err_).

Inductive OnionEvent :=
  | ConnectRequest (p : Peer)
  | InboundStream (s : EncryptedStream D) (id : PathId)
  | OutboundStream (res : result (EncryptedStream D * Peer) OUpgradeError) (id : PathId).
Inductive ToSwarm :=
  | GenerateEvent (ev : OnionEvent)
  | NotifyHandler (peer : Peer) (conn : ConnectionId) (packet : IncomingOrRequest)
  | Dial (peer : Peer) (conn : ConnectionId).

Record Config := {
  current_peer_id : Peer; max_streams : nat; max_error_streams : nat;
  keep_alive_interval : Z; dial_ : bool;
}.

Record Behaviour := {
  config : Config;
  router : list Channel;
  peer_to_connection : LinearMap.LinearMap Peer ConnectionId;
  dialing_peers : LinearMap.LinearMap ConnectionId Peer;
  events : list ToSwarm;
  pending_connections : list IncomingStream;
  pending_requests : list PathRequest;
  error_streams : list (D * Z);
  next_connection : ConnectionId;
  next_path : PathId;
}.
Implicit Types (b : Behaviour).

Definition behaviour_new (c : Config) : Behaviour :=
  {| config := c; router := []; peer_to_connection := LinearMap.default; dialing_peers := LinearMap.default;
     events := []; pending_connections := []; pending_requests := []; error_streams := [];
     next_connection := 0; next_path := 0 |}.

Definition with_router b (l : list Channel) : Behaviour :=
  {| config := config b; router := l; peer_to_connection := peer_to_connection b;
     dialing_peers := dialing_peers b; events := events b; pending_connections := pending_connections b;
     pending_requests := pending_requests b; error_streams := error_streams b;
     next_connection := next_connection b; next_path := next_path b |}.
Definition with_connections b (m : LinearMap.LinearMap Peer ConnectionId) : Behaviour :=
  {| config := config b; router := router b; peer_to_connection := m;
     dialing_peers := dialing_peers b; events := events b; pending_connections := pending_connections b;
     pending_requests := pending_requests b; error_streams := error_streams b;
     next_connection := next_connection b; next_path := next_path b |}.
Definition with_dialing b (m : LinearMap.LinearMap ConnectionId Peer) (next : ConnectionId) : Behaviour :=
  {| config := config b; router := router b; peer_to_connection := peer_to_connection b;
     dialing_peers := m; events := events b; pending_connections := pending_connections b;
     pending_requests := pending_requests b; error_streams := error_streams b;
     next_connection := next; next_path := next_path b |}.
Definition with_events b (l : list ToSwarm) : Behaviour :=
  {| config := config b; router := router b; peer_to_connection := peer_to_connection b;
     dialing_peers := dialing_peers b; events := l; pending_connections := pending_connections b;
     pending_requests := pending_requests b; error_streams := error_streams b;
     next_connection := next_connection b; next_path := next_path b |}.
Definition with_pending b (l : list IncomingStream) : Behaviour :=
  {| config := config b; router := router b; peer_to_connection := peer_to_connection b;
     dialing_peers := dialing_peers b; events := events b; pending_connections := l;
     pending_requests := pending_requests b; error_streams := error_streams b;
     next_connection := next_connection b; next_path := next_path b |}.
Definition with_requests b (l : list PathRequest) : Behaviour :=
  {| config := config b; router := router b; peer_to_connection := peer_to_connection b;
     dialing_peers := dialing_peers b; events := events b; pending_connections := pending_connections b;
     pending_requests := l; error_streams := error_streams b;
     next_connection := next_connection b; next_path := next_path b |}.
Definition with_errors b (l : list (D * Z)) : Behaviour :=
  {| config := config b; router := router b; peer_to_connection := peer_to_connection b;
     dialing_peers := dialing_peers b; events := events b; pending_connections := pending_connections b;
     pending_requests := pending_requests b; error_streams := l;
     next_connection := next_connection b; next_path := next_path b |}.
(* PathId::new *)
Definition new_path b : PathId * Behaviour :=
  (next_path b,
   {| config := config b; router := router b; peer_to_connection := peer_to_connection b;
      dialing_peers := dialing_peers b; events := events b; pending_connections := pending_connections b;
      pending_requests := pending_requests b; error_streams := error_streams b;
      next_connection := next_connection b; next_path := Datatypes.S (next_path b) |}).

Definition push_event (e : ToSwarm) b : Behaviour := with_events b (events b ++ [e]).

(** The first byte of a refused stream ([packet::MISSING_PEER], [packet::OCCUPIED_PEER]). *)
Definition MISSING_PEER : Z := 1.
Definition OCCUPIED_PEER : Z := 2.

(** ** Connections *)

Definition dial (peer : Peer) b : Behaviour :=
  let conn := next_connection b in
  let b := with_dialing b (snd (LinearMap.insert conn peer (dialing_peers b))) (Datatypes.S conn) in
  push_event (Dial peer conn) b.

Definition handle_missing_connection (to : Peer) b : Behaviour :=
  if dial_ (config b) then dial to b else push_event (GenerateEvent (ConnectRequest to)) b.

Definition add_connection (to : Peer) (to_id : ConnectionId) b : Behaviour :=
  match LinearMap.get to (peer_to_connection b) with
  | Some _ => b
  | None =>
      let b := with_connections b (snd (LinearMap.insert to to_id (peer_to_connection b))) in
      let incoming := map PIncoming (filter (λ m, m_to m = to) (map i_meta (pending_connections b))) in
      let requests := map PRequest (filter (λ r, q_to r = to) (pending_requests b)) in
      foldl (λ b p, push_event (NotifyHandler to to_id p) b) b (incoming ++ requests)
  end.

(** ** Opening paths *)

Definition push_stream_request (sr : PathRequest) b : Behaviour :=
  if decide (q_to sr = current_peer_id (config b)) then b
  else
    let b := with_requests b (pending_requests b ++ [sr]) in
    match LinearMap.get (q_to sr) (peer_to_connection b) with
    | None => handle_missing_connection (q_to sr) b
    | Some conn => push_event (NotifyHandler (q_to sr) conn (PRequest sr)) b
    end.

(* open_path, with the request that Onion.open_path_request computes from the array *)
Definition open_path (to : Peer) (recipient : Pk) (path : list (Pk * Peer)) b : PathId * Behaviour :=
  let (id, b) := new_path b in
  (id, push_stream_request {| q_to := to; q_path_id := id; q_recipient := recipient; q_path := path |} b).

(** ** Relaying *)

(* the count of the channels that are still in use marks the others *)
Definition check_router (now : Z) b : nat * Behaviour :=
  let checked := map (channel_is_valid (keep_alive_interval (config b)) now) (router b) in
  (length (filter (λ c : bool * Channel, c.1 = true) checked), with_router b (map snd checked)).

Definition push_incoming_stream (now : Z) (is_ : IncomingStream) b : Behaviour :=
  let (valid_stream_count, b) := check_router now b in
  if decide (max_streams (config b) < valid_stream_count + length (pending_connections b))%nat then
    if decide (max_error_streams (config b) < length (error_streams b))%nat then b
    else with_errors b (error_streams b ++ [(i_stream is_, OCCUPIED_PEER)])
  else if decide (m_to (i_meta is_) = current_peer_id (config b)) then b
  else
    let meta := i_meta is_ in
    let b := with_pending b (pending_connections b ++ [is_]) in
    match LinearMap.get (m_to meta) (peer_to_connection b) with
    | None => handle_missing_connection (m_to meta) b
    | Some conn => push_event (NotifyHandler (m_to meta) conn (PIncoming meta)) b
    end.

(* extract_if: what matches is taken out, in order *)
Definition report_unreachable (peer : Peer) b : Behaviour :=
  let gone := filter (λ p, m_to (i_meta p) = peer) (pending_connections b) in
  let b := with_pending b (filter (λ p, m_to (i_meta p) ≠ peer) (pending_connections b)) in
  let b := with_errors b (error_streams b ++ map (λ p, (i_stream p, MISSING_PEER)) gone) in
  let lost := filter (λ r, q_to r = peer) (pending_requests b) in
  let b := with_requests b (filter (λ r, q_to r ≠ peer) (pending_requests b)) in
  with_events b (events b ++
    map (λ r, GenerateEvent (OutboundStream (Err MissingPeer) (q_path_id r))) lost).

(** ** The swarm *)

Inductive FromSwarm :=
  | ConnectionClosed (peer : Peer)
  | DialFailure (conn : ConnectionId) (condition_false : bool)
  | OtherSwarmEvent.

(* an inbound or outbound connection was established *)
Definition create_handler (peer : Peer) (conn : ConnectionId) b : Behaviour := add_connection peer conn b.

Definition on_swarm_event (ev : FromSwarm) b : Behaviour :=
  match ev with
  | ConnectionClosed peer =>
      let b :=
        if existsb (λ r, bool_decide (q_to r = peer)) (pending_requests b) ||
           existsb (λ p, bool_decide (m_to (i_meta p) = peer)) (pending_connections b)
        then push_event (GenerateEvent (ConnectRequest peer)) b else b in
      with_connections b (snd (LinearMap.remove peer (peer_to_connection b)))
  | DialFailure conn condition_false =>
      match LinearMap.remove conn (dialing_peers b) with
      | (None, _) => b
      | (Some peer, dialing) =>
          let b := with_dialing b dialing (next_connection b) in
          if condition_false then b else report_unreachable peer b
      end
  | OtherSwarmEvent => b
  end.

(** ** The handler *)

(** [handler::ToBehaviour]. *)
Inductive ToBehaviour :=
  | NewChannel (to : D) (path_id : PathId)
  | OutboundDone (to : result (EncryptedStream D) OUpgradeError) (id : PathId) (from : Peer)
  | Incoming (s : IncomingStream)
  | Response (s : EncryptedStream D).

(** What became of a substream; [OUpgrade] carries the path id, the peer and whether this node asked
    for it. *)
Inductive ConnectionEvent :=
  | FullyNegotiatedInbound (output : option (IncomingStream + EncryptedStream D))
  | RelayNegotiated (path_id : PathId) (to : D)
  | OwnNegotiated (key : bytes) (path_id : PathId) (from : Peer) (to : D)
  | DialUpgradeError (id : PathId) (from : Peer) (own : bool) (error : Err_)
  | OtherConnectionEvent.

(* Handler::on_connection_event: the event for the behaviour, if there is one; [memory] is the
   buffer of a new packet writer, of the handler's [buffer_cap] *)
Definition on_connection_event (memory : bytes) (ev : ConnectionEvent) : option ToBehaviour :=
  match ev with
  | FullyNegotiatedInbound (Some (inl s)) => Some (Incoming s)
  | FullyNegotiatedInbound (Some (inr s)) => Some (Response s)
  | RelayNegotiated from to => Some (NewChannel to from)
  | OwnNegotiated key id from to => Some (OutboundDone (Ok (encrypted_new to key memory)) id from)
  | DialUpgradeError id from true error => Some (OutboundDone (Err (UpgradeError error)) id from)
  | DialUpgradeError _ _ false _ | FullyNegotiatedInbound None | OtherConnectionEvent => None
  end.

Definition on_connection_handler_event (now : Z) (ev : ToBehaviour) b : Behaviour :=
  match ev with
  | NewChannel to path_id =>
      match find_and_remove (λ p, bool_decide (m_path_id (i_meta p) = path_id)) (pending_connections b) with
      | None => b
      | Some (from, pending) =>
          let b := with_pending b pending in
          with_router b (router b ++ [channel_new (i_stream from) to now])
      end
  | Incoming s => push_incoming_stream now s b
  | Response s =>
      let (id, b) := new_path b in push_event (GenerateEvent (InboundStream s id)) b
  | OutboundDone to id from =>
      match find_and_remove (λ p, bool_decide (q_path_id p = id)) (pending_requests b) with
      | None => b
      | Some (_, requests) =>
          let b := with_requests b requests in
          let res := match to with Ok s => Ok (s, from) | Err e => Err e end in
          push_event (GenerateEvent (OutboundStream res id)) b
      end
  end.

(* poll: the oldest event; the channels and refused streams are polled by [router_step] *)
Definition poll_event b : option ToSwarm * Behaviour :=
  match events b with
  | [] => (None, b)
  | e :: events => (Some e, with_events b events)
  end.

(** ** Runs *)

Inductive Input :=
  | OpenPath (to : Peer) (recipient : Pk) (path : list (Pk * Peer))
  | Connected (peer : Peer) (conn : ConnectionId)
  | SwarmEvent (ev : FromSwarm)
  | HandlerEvent (now : Z) (ev : ToBehaviour)
  | ReportUnreachable (peer : Peer)
  | PollEvents
  | PollRouter (now : Z) (i : nat)
  | ErrorStreamClosed (i : nat).

(* FuturesUnordered polls the channel that is ready and drops it when it has failed *)
Definition poll_router (now : Z) (i : nat) b : Behaviour :=
  match router b !! i ≫= channel_poll now with
  | Some (Pending, c) => with_router b (<[i:=c]> (router b))
  | Some (Ready _, _) => with_router b (delete i (router b))
  | None => b
  end.

(* one call, and what it gave to the swarm *)
Definition step (input : Input) b : list ToSwarm * Behaviour :=
  match input with
  | OpenPath to recipient path => ([], snd (open_path to recipient path b))
  | Connected peer conn => ([], create_handler peer conn b)
  | SwarmEvent ev => ([], on_swarm_event ev b)
  | HandlerEvent now ev => ([], on_connection_handler_event now ev b)
  | ReportUnreachable peer => ([], report_unreachable peer b)
  | PollEvents => let (e, b) := poll_event b in (option_list e, b)
  | PollRouter now i => ([], poll_router now i b)
  | ErrorStreamClosed i => ([], with_errors b (delete i (error_streams b)))
  end.

Fixpoint run (inputs : list Input) b : list ToSwarm * Behaviour :=
  match inputs with
  | [] => ([], b)
  | input :: inputs =>
      let (out, b) := step input b in
      let (rest, b) := run inputs b in (out ++ rest, b)
  end.
End behaviour.
Arguments PathRequest : clear implicits.
Arguments IncomingStream : clear implicits.
Arguments OnionEvent : clear implicits.
Arguments ToSwarm : clear implicits.
Arguments Behaviour : clear implicits.
Arguments Config : clear implicits.
Arguments Input : clear implicits.

(** ** What a path and a relayed stream can become *)

Section laws.
Context {D Peer Pk Err_ : Type} `{AsyncRead D, AsyncWrite D, EqDecision Peer}.
Notation Behaviour := (Behaviour D Peer Pk Err_).
Notation ToSwarm := (ToSwarm D Peer Pk Err_).
Notation Input := (Input D Peer Pk Err_).
Implicit Types (b : Behaviour) (l : list ToSwarm).

(** The outcomes of a path among events, and whether it is still pending. *)
Definition is_outcome (id : PathId) (e : ToSwarm) : bool :=
  match e with GenerateEvent (OutboundStream _ id') => bool_decide (id' = id) | _ => false end.
Definition outcomes (id : PathId) l : nat := length (filter (λ e, is_outcome id e = true) l).
Definition waiting (id : PathId) b : nat :=
  length (filter (λ r, q_path_id r = id) (pending_requests b)).
Definition total (id : PathId) b : nat := (outcomes id (events b) + waiting id b)%nat.

#[local] Arguments outcomes : simpl never.

(** The channels that were not given up, and the streams that wait to become one. *)
Definition active b : nat := length (filter (λ c, invalid c = false) (router b)).
Definition load b : nat := (active b + length (pending_connections b))%nat.

Lemma outcomes_app id l l' : outcomes id (l ++ l') = (outcomes id l + outcomes id l')%nat.
Proof. unfold outcomes. by rewrite filter_app, length_app. Qed.

(** A step that leaves paths, relayed streams and the limits alone, whatever else it does. *)
Record quiet b b' : Prop := {
  q_requests : pending_requests b' = pending_requests b;
  q_connections : pending_connections b' = pending_connections b;
  q_router : router b' = router b;
  q_config : config b' = config b;
  q_next : next_path b' = next_path b;
  q_outcomes id : outcomes id (events b') = outcomes id (events b);
}.

#[global] Instance quiet_preorder : PreOrder quiet.
Proof. split; [by intros b|]. intros b1 b2 b3 [] []. split; congruence. Qed.

Lemma push_event_quiet e b : (∀ id, is_outcome id e = false) → quiet b (push_event e b).
Proof.
  intros He. split; try done. intros id. unfold push_event. simpl. rewrite outcomes_app.
  unfold outcomes at 2. simpl. rewrite filter_cons_False by (by rewrite He). simpl. lia.
Qed.

Lemma missing_connection_quiet to b : quiet b (handle_missing_connection to b).
Proof.
  unfold handle_missing_connection, dial. destruct (dial_ _); [|by apply push_event_quiet].
  by etrans; [|by apply push_event_quiet].
Qed.

Lemma notify_quiet to conn packets b :
  quiet b (foldl (λ b p, push_event (NotifyHandler to conn p) b) b packets).
Proof.
  revert b. induction packets as [|p packets IH]; intros b; [done|]. simpl. etrans; [|apply IH]. by apply push_event_quiet.
Qed.

Lemma add_connection_quiet to conn b : quiet b (add_connection to conn b).
Proof.
  unfold add_connection. destruct (LinearMap.get _ _); [done|]. by etrans; [|apply notify_quiet].
Qed.

(** *** Paths *)

(** Every path that is pending or has an outcome still is, or still has it. *)
Definition paths_kept (out : list ToSwarm) b b' : Prop :=
  (∀ id, (outcomes id out + total id b')%nat = total id b) ∧ (next_path b ≤ next_path b')%nat.

Lemma same_paths_kept b b' :
  pending_requests b' = pending_requests b → (∀ id, outcomes id (events b') = outcomes id (events b)) →
  (next_path b ≤ next_path b')%nat → paths_kept [] b b'.
Proof. intros Hr He Hn. split; [|done]. intros id. unfold total, waiting. by rewrite Hr, He. Qed.

Lemma quiet_paths b b' : quiet b b' → paths_kept [] b b'.
Proof. intros []. apply same_paths_kept; [done|done|lia]. Qed.

Lemma waiting_filter (P : PathRequest Peer Pk → Prop) `{∀ r, Decision (P r)} id (requests : list (PathRequest Peer Pk)) :
  length (filter (λ r, q_path_id r = id) requests) =
  (length (filter (λ r, q_path_id r = id) (filter (λ r, ¬ P r) requests)) +
   length (filter (λ r, q_path_id r = id) (filter P requests)))%nat.
Proof.
  induction requests as [|r requests IH]; [done|].
  rewrite (filter_cons P), (filter_cons (λ r, ¬ P r)), (filter_cons _ r requests).
  destruct (decide (P r)) as [Hp|Hp]; [rewrite (decide_False (P := ¬ P r)) by tauto|rewrite (decide_True (P := ¬ P r)) by done];
    rewrite filter_cons; case_decide; simpl; rewrite IH; lia.
Qed.

Lemma lost_outcomes id (lost : list (PathRequest Peer Pk)) :
  outcomes id (map (λ r, GenerateEvent (D := D) (Pk := Pk) (OutboundStream (Err MissingPeer) (q_path_id r))) lost) =
    length (filter (λ r, q_path_id r = id) lost).
Proof.
  induction lost as [|r lost IH]; [done|]. unfold outcomes in *. simpl.
  rewrite !filter_cons. simpl. case_bool_decide as Hid.
  - rewrite decide_True, decide_True by done. simpl. by rewrite IH.
  - rewrite decide_False, decide_False by done. exact IH.
Qed.

Lemma unreachable_paths peer b : paths_kept [] b (report_unreachable peer b).
Proof.
  split; [|done]. intros id. unfold report_unreachable, total, waiting. cbn.
  rewrite outcomes_app, lost_outcomes.
  rewrite (waiting_filter (λ r, q_to r = peer) id (pending_requests b)). unfold outcomes at 1. simpl. lia.
Qed.

Lemma swarm_paths ev b : paths_kept [] b (on_swarm_event ev b).
Proof.
  destruct ev as [peer|conn cond|]; [| |by apply quiet_paths].
  - unfold on_swarm_event. apply quiet_paths.
    destruct (_ || _); [|by split]. etrans; [by apply (push_event_quiet (GenerateEvent (ConnectRequest peer)))|by split].
  - unfold on_swarm_event. destruct (LinearMap.remove _ _) as [[peer|] dialing]; [|by apply quiet_paths].
    destruct cond; [by apply quiet_paths|].
    apply (unreachable_paths peer (with_dialing b dialing (next_connection b))).
Qed.

Lemma incoming_paths now s b : paths_kept [] b (push_incoming_stream now s b).
Proof.
  unfold push_incoming_stream, check_router. cbn zeta.
  set (b1 := with_router b _).
  assert (∀ b', quiet (with_pending b1 (pending_connections b1 ++ [s])) b' → paths_kept [] b b') as Hq.
  { intros b' Hb'. destruct (quiet_paths _ _ Hb') as [Ht Hn]. by split. }
  destruct (decide _); [destruct (decide _); by apply same_paths_kept|].
  destruct (decide _); [by apply same_paths_kept|]. apply Hq.
  destruct (LinearMap.get _ _); [by apply push_event_quiet|apply missing_connection_quiet].
Qed.

Lemma handler_paths now ev b : paths_kept [] b (on_connection_handler_event now ev b).
Proof.
  destruct ev as [to id|to id from|s|s]; unfold on_connection_handler_event.
  - destruct (find_and_remove _ _) as [[p l]|]; by apply same_paths_kept.
  - unfold find_and_remove. destruct (position _ _) as [i|] eqn:Hp; [|by apply quiet_paths].
    apply position_some in Hp as (r & Hr & Hid%bool_decide_eq_true).
    destruct (swap_remove_perm i (pending_requests b) r Hr) as (l & -> & Hl).
    split; [|done]. intros id'. unfold total, waiting, push_event. cbn. rewrite outcomes_app, <-Hl.
    unfold outcomes at 1 3. simpl. rewrite !filter_cons. simpl. rewrite Hid.
    case_bool_decide; [rewrite (decide_True (P := id = id')), decide_True by done|
      rewrite (decide_False (P := id = id')), decide_False by done]; simpl; lia.
  - apply incoming_paths.
  - unfold new_path. apply same_paths_kept; [done| |simpl; lia]. intros id. simpl. rewrite outcomes_app.
    unfold outcomes at 2. simpl. lia.
Qed.

(** Opening a path makes its id pending, unless it leads to the node itself. *)
Lemma open_path_total to recipient path b id :
  let b' := snd (open_path to recipient path b) in
  total id b' = (total id b +
    (if decide (id = next_path b ∧ to ≠ current_peer_id (config b)) then 1 else 0))%nat ∧
  next_path b' = Datatypes.S (next_path b).
Proof.
  unfold open_path, new_path, push_stream_request. cbn.
  destruct (decide (to = _)) as [->|Hne].
  { rewrite (decide_False (P := _ ∧ _)) by tauto. split; [unfold total, waiting; simpl; lia|done]. }
  set (b1 := with_requests _ _).
  assert (∀ b', quiet b1 b' → total id b' = (total id b +
    (if decide (id = next_path b ∧ to ≠ current_peer_id (config b)) then 1 else 0))%nat ∧
    next_path b' = Datatypes.S (next_path b)) as Hq.
  { intros b' []. split; [|done]. unfold total, waiting. rewrite q_requests0, q_outcomes0. simpl.
    rewrite filter_app, length_app, filter_cons. simpl. destruct (decide (next_path b = id)) as [<-|Hid].
    - rewrite decide_True by done. simpl. lia.
    - rewrite decide_False by (intros [-> _]; done). simpl. lia. }
  destruct (LinearMap.get _ _); apply Hq; [by apply push_event_quiet|apply missing_connection_quiet].
Qed.

(** Ids that were not given out yet are nowhere. *)
Definition fresh_ok b : Prop := ∀ id, (next_path b ≤ id)%nat → total id b = 0%nat.

Lemma step_paths input b out b' :
  step input b = (out, b') → fresh_ok b →
  fresh_ok b' ∧ (next_path b ≤ next_path b')%nat ∧
  (∀ id, (id < next_path b)%nat → (outcomes id out + total id b')%nat = total id b) ∧
  (∀ id, (next_path b ≤ id)%nat → outcomes id out = 0%nat ∧ (total id b' ≤ 1)%nat).
Proof.
  intros Hs Hf.
  assert (paths_kept out b b' → fresh_ok b' ∧ (next_path b ≤ next_path b')%nat ∧
    (∀ id, (id < next_path b)%nat → (outcomes id out + total id b')%nat = total id b) ∧
    (∀ id, (next_path b ≤ id)%nat → outcomes id out = 0%nat ∧ (total id b' ≤ 1)%nat)) as Hk.
  { intros [Ht Hn]. split; [|split; [done|split; [done|]]].
    - intros id Hid. specialize (Ht id). rewrite Hf in Ht by lia. lia.
    - intros id Hid. specialize (Ht id). rewrite Hf in Ht by lia. lia. }
  destruct input as [to recipient path|peer conn|ev|now ev|peer| |now i|i]; cbn [step] in Hs.
  - assert (out = []) as -> by congruence.
    assert (b' = snd (open_path to recipient path b)) as -> by congruence. clear Hk Hs. pose proof (open_path_total to recipient path b) as Ho. cbn zeta in Ho.
    destruct (Ho 0%nat) as [_ Hn]. split; [|rewrite Hn; split; [lia|split]]; intros id Hid;
      destruct (Ho id) as [-> _].
    + rewrite Hn in Hid. rewrite Hf, decide_False by (lia || intros [-> _]; lia). done.
    + rewrite decide_False by (intros [-> _]; lia). unfold outcomes at 1. simpl. lia.
    + rewrite Hf by lia. split; [done|]. destruct (decide _); simpl; lia.
  - injection Hs as <- <-. apply Hk, quiet_paths, add_connection_quiet.
  - injection Hs as <- <-. apply Hk, swarm_paths.
  - injection Hs as <- <-. apply Hk, handler_paths.
  - injection Hs as <- <-. apply Hk, unreachable_paths.
  - unfold poll_event in Hs. destruct (events b) as [|e l] eqn:He; injection Hs as <- <-; apply Hk;
      (split; [|done]); intros id; [done|]. unfold total, waiting. simpl. rewrite He.
    change (e :: l) with ([e] ++ l). rewrite outcomes_app. lia.
  - injection Hs as <- <-. apply Hk, same_paths_kept; unfold poll_router;
      destruct (_ ≫= _) as [[[] ?]|]; done.
  - injection Hs as <- <-. by apply Hk, same_paths_kept.
Qed.

Lemma run_paths inputs b out b' :
  run inputs b = (out, b') → fresh_ok b →
  fresh_ok b' ∧ (next_path b ≤ next_path b')%nat ∧
  (∀ id, (id < next_path b)%nat → (outcomes id out + total id b')%nat = total id b) ∧
  (∀ id, (next_path b ≤ id)%nat → (outcomes id out + total id b' ≤ 1)%nat).
Proof.
  revert b out. induction inputs as [|input inputs IH]; intros b out; simpl.
  { intros [= <- <-] Hf. split; [done|]. split; [done|]. split; [done|]. intros id Hid.
    rewrite Hf by done. simpl. lia. }
  destruct (step input b) as [o1 b1] eqn:Hs. destruct (run inputs b1) as [o2 b2] eqn:Hr.
  intros [= <- <-] Hf. destruct (step_paths _ _ _ _ Hs Hf) as (Hf1 & Hn1 & Hc1 & Hl1).
  destruct (IH b1 o2 Hr Hf1) as (Hf2 & Hn2 & Hc2 & Hl2).
  split; [done|]. split; [lia|]. split; intros id Hid; rewrite outcomes_app.
  - specialize (Hc1 id Hid). specialize (Hc2 id). lia.
  - destruct (Hl1 id Hid) as [-> Ht]. specialize (Hc2 id). specialize (Hl2 id). lia.
Qed.

(** *** Relayed streams *)

(** A step adds at most one stream to what is relayed, and only while there is room. *)
Definition load_bounded b b' : Prop :=
  config b' = config b ∧ (load b' ≤ load b ∨ load b' ≤ S (max_streams (config b)))%nat.

Lemma load_le b b' : config b' = config b → (load b' ≤ load b)%nat → load_bounded b b'.
Proof. intros Hc Hl. split; [done|by left]. Qed.

Lemma quiet_load b b' : quiet b b' → load_bounded b b'.
Proof. intros []. apply load_le; [done|]. unfold load, active. by rewrite q_router0, q_connections0. Qed.

(** The count marks what it does not count. *)
Lemma check_router_spec now b :
  let (n, b') := check_router now b in
  n = active b' ∧ (active b' ≤ active b)%nat ∧ pending_connections b' = pending_connections b ∧
  config b' = config b ∧ events b' = events b ∧ pending_requests b' = pending_requests b.
Proof.
  unfold check_router. set (f := channel_is_valid _ now). unfold active. cbn [router with_router].
  assert (length (filter (λ c : bool * Channel D, c.1 = true) (map f (router b))) =
          length (filter (λ c, invalid c = false) (map snd (map f (router b)))) ∧
          (length (filter (λ c, invalid c = false) (map snd (map f (router b)))) ≤
           length (filter (λ c, invalid c = false) (router b)))%nat) as [H1 H2]; [|done].
  induction (router b) as [|c l [IH1 IH2]]; [done|]. cbn [map].
  rewrite !filter_cons. assert ((f c).1 = negb (invalid (f c).2) ∧ (invalid c = true → invalid (f c).2 = true)) as [Hf Hi].
  { unfold f, channel_is_valid. destruct (invalid c) eqn:Hc; [simpl; by rewrite Hc|].
    destruct (decide _); simpl; rewrite ?Hc; done. }
  rewrite Hf. destruct (invalid (f c).2) eqn:Hic, (invalid c) eqn:Hc; simpl; try lia; by specialize (Hi eq_refl).
Qed.

Lemma incoming_load now s b : load_bounded b (push_incoming_stream now s b).
Proof.
  unfold push_incoming_stream. pose proof (check_router_spec now b) as Hc.
  destruct (check_router now b) as [n b1]. destruct Hc as (-> & Ha & Hp & Hcfg & _ & _).
  assert (load b1 ≤ load b)%nat as Hl by (unfold load; rewrite Hp; lia).
  destruct (decide _) as [Hfull|Hroom]; [destruct (decide _); by apply load_le|].
  destruct (decide _); [by apply load_le|].
  assert (∀ b', quiet (with_pending b1 (pending_connections b1 ++ [s])) b' → load_bounded b b') as Hq.
  { intros b' []. split; [by rewrite q_config0|]. right. unfold load, active.
    rewrite q_router0, q_connections0. cbn [with_pending pending_connections router]. rewrite length_app.
    unfold active in Hroom. rewrite Hcfg in Hroom. cbn [length]. lia. }
  apply Hq. destruct (LinearMap.get _ _); [by apply push_event_quiet|apply missing_connection_quiet].
Qed.

Lemma unreachable_load peer b : load_bounded b (report_unreachable peer b).
Proof.
  apply load_le; [done|]. unfold load, active, report_unreachable. cbn.
  pose proof (length_filter (λ p, m_to (i_meta p) ≠ peer) (pending_connections b)). lia.
Qed.

Lemma router_poll_load now i b : load_bounded b (poll_router now i b).
Proof.
  unfold poll_router. destruct (router b !! i) as [c|] eqn:Hi; [|by apply load_le]. simpl.
  destruct (channel_poll now c) as [[r c']|] eqn:Hp; [|by apply load_le].
  destruct (list_elem_of_split_length _ _ _ Hi) as (l1 & l2 & Hl & ->).
  destruct r; (apply load_le; [done|]); unfold load, active; cbn [router with_router pending_connections];
    rewrite Hl.
  - rewrite delete_middle, !filter_app, !length_app, (filter_cons _ c). case_decide; simpl; lia.
  - rewrite insert_app_r_alt, Nat.sub_diag by lia. cbn [insert list_insert].
    assert (invalid c = true → invalid c' = true) as Hinv.
    { intros Hc. unfold channel_poll in Hp. rewrite Hc in Hp. by injection Hp as _ <-. }
    rewrite !filter_app, !length_app, (filter_cons _ c), (filter_cons _ c').
    destruct (invalid c) eqn:Hc, (invalid c') eqn:Hc'; simpl; try lia; by specialize (Hinv eq_refl).
Qed.

Lemma handler_load now ev b : load_bounded b (on_connection_handler_event now ev b).
Proof.
  destruct ev as [to id|to id from|s|s]; unfold on_connection_handler_event.
  - unfold find_and_remove. destruct (position _ _) as [i|] eqn:Hp; [|by apply load_le].
    apply position_some in Hp as (p & Hi & _).
    destruct (swap_remove_perm i (pending_connections b) p Hi) as (l & -> & Hl).
    apply load_le; [done|]. unfold load, active. cbn [with_router with_pending router pending_connections].
    rewrite filter_app, length_app, <-Hl.
    pose proof (length_filter (λ c, invalid c = false) [channel_new (i_stream p) to now]). simpl in *. lia.
  - destruct (find_and_remove _ _) as [[r l]|]; by apply load_le.
  - apply incoming_load.
  - by apply load_le.
Qed.

Lemma step_load input b out b' : step input b = (out, b') → load_bounded b b'.
Proof.
  destruct input as [to recipient path|peer conn|ev|now ev|peer| |now i|i]; cbn [step]; intros Hs.
  - assert (b' = snd (open_path to recipient path b)) as -> by congruence. clear Hs.
    unfold open_path, new_path, push_stream_request. cbn [snd].
    destruct (decide _); [by apply load_le|]. set (b1 := with_requests _ _).
    assert (∀ b', quiet b1 b' → load_bounded b b') as Hq by (intros b2 Hb; exact (quiet_load _ _ Hb)).
    destruct (LinearMap.get _ _); apply Hq; [by apply push_event_quiet|apply missing_connection_quiet].
  - assert (b' = create_handler peer conn b) as -> by congruence. apply quiet_load, add_connection_quiet.
  - assert (b' = on_swarm_event ev b) as -> by congruence. clear Hs.
    destruct ev as [peer|conn cond|]; [| |by apply load_le]; unfold on_swarm_event.
    + destruct (_ || _); by apply load_le.
    + destruct (LinearMap.remove _ _) as [[peer|] dialing]; [|by apply load_le].
      destruct cond; [by apply load_le|].
      exact (unreachable_load peer (with_dialing b dialing (next_connection b))).
  - assert (b' = on_connection_handler_event now ev b) as -> by congruence. apply handler_load.
  - assert (b' = report_unreachable peer b) as -> by congruence. apply unreachable_load.
  - unfold poll_event in Hs. destruct (events b); injection Hs as <- <-; by apply load_le.
  - assert (b' = poll_router now i b) as -> by congruence. apply router_poll_load.
  - injection Hs as <- <-. by apply load_le.
Qed.

Lemma run_load inputs b out b' : run inputs b = (out, b') → load_bounded b b'.
Proof.
  revert b out. induction inputs as [|input inputs IH]; intros b out; simpl.
  { intros [= <- <-]. by apply load_le. }
  destruct (step input b) as [o1 b1] eqn:Hs. destruct (run inputs b1) as [o2 b2] eqn:Hr.
  intros [= <- <-]. apply step_load in Hs as [Hc1 Hl1]. destruct (IH b1 o2 Hr) as [Hc2 Hl2].
  split; [by rewrite Hc2|]. rewrite Hc1 in Hl2. lia.
Qed.
(** A stream that is let in adds one to the load, while the channels in use and the waiting streams
    are not more than the limit. *)
Lemma incoming_accepted now s b :
  (load (snd (check_router now b)) ≤ max_streams (config b))%nat →
  m_to (i_meta s) ≠ current_peer_id (config b) →
  load (push_incoming_stream now s b) = S (load (snd (check_router now b))).
Proof.
  unfold push_incoming_stream. pose proof (check_router_spec now b) as Hc.
  destruct (check_router now b) as [n b1]. destruct Hc as (-> & _ & Hp & Hcfg & _ & _). cbn [snd]. intros Hl Hs.
  rewrite Hcfg, (decide_False (P := (_ < _)%nat)), decide_False by (done || unfold load in Hl; lia).
  assert (∀ b', quiet (with_pending b1 (pending_connections b1 ++ [s])) b' → load b' = S (load b1)) as Hq.
  { intros b' []. unfold load, active. rewrite q_router0, q_connections0. cbn [with_pending pending_connections router].
    rewrite length_app. simpl. lia. }
  apply Hq. destruct (LinearMap.get _ _); [by apply push_event_quiet|apply missing_connection_quiet].
Qed.

Lemma incoming_refused now s b :
  (max_streams (config b) < load (snd (check_router now b)))%nat →
  let b' := push_incoming_stream now s b in
  pending_connections b' = pending_connections b ∧ events b' = events b ∧
  (error_streams b' = error_streams (snd (check_router now b)) ∨
   error_streams b' = error_streams (snd (check_router now b)) ++ [(i_stream s, OCCUPIED_PEER)]).
Proof.
  unfold push_incoming_stream. pose proof (check_router_spec now b) as Hc.
  destruct (check_router now b) as [n b1]. destruct Hc as (-> & _ & Hp & Hcfg & He & _). cbn [snd]. intros Hl.
  rewrite Hcfg, (decide_True (P := (max_streams (config b) < active b1 + _)%nat)) by done.
  destruct (decide _); simpl; rewrite ?Hp; auto.
Qed.

(** What ends the wait of the relayed stream of a path: its channel, or its peer's absence. *)
Definition ends_wait (id : PathId) (peer : Peer) (input : Input) : bool :=
  match input with
  | HandlerEvent _ (NewChannel _ id') => bool_decide (id' = id)
  | ReportUnreachable peer' => bool_decide (peer' = peer)
  | SwarmEvent (DialFailure _ false) => true
  | _ => false
  end.

Lemma quiet_waits p b b' : quiet b b' → p ∈ pending_connections b → p ∈ pending_connections b'.
Proof. intros [] Hp. by rewrite q_connections0. Qed.

Lemma incoming_waits now s p b :
  p ∈ pending_connections b → p ∈ pending_connections (push_incoming_stream now s b).
Proof.
  intros Hin. unfold push_incoming_stream. pose proof (check_router_spec now b) as Hc.
  destruct (check_router now b) as [n b1]. destruct Hc as (_ & _ & Hp & _). rewrite <-Hp in Hin.
  destruct (decide _); [destruct (decide _); exact Hin|]. destruct (decide _); [exact Hin|].
  assert (p ∈ pending_connections (with_pending b1 (pending_connections b1 ++ [s]))) as Hin' by (simpl; set_solver).
  destruct (LinearMap.get _ _); (eapply quiet_waits; [|exact Hin']);
    [by apply push_event_quiet|apply missing_connection_quiet].
Qed.

Lemma step_waits input p b out b' :
  ends_wait (m_path_id (i_meta p)) (m_to (i_meta p)) input = false →
  step input b = (out, b') → p ∈ pending_connections b → p ∈ pending_connections b'.
Proof.
  destruct input as [to recipient path|peer conn|ev|now ev|peer| |now i|i]; cbn [step ends_wait]; intros He Hs Hin.
  - assert (b' = snd (open_path to recipient path b)) as -> by congruence.
    unfold open_path, new_path, push_stream_request. cbn [snd].
    destruct (decide _); [exact Hin|].
    destruct (LinearMap.get _ _); (eapply quiet_waits; [by apply push_event_quiet || apply missing_connection_quiet|exact Hin]).
  - assert (b' = create_handler peer conn b) as -> by congruence.
    eapply quiet_waits; [apply add_connection_quiet|done].
  - assert (b' = on_swarm_event ev b) as -> by congruence.
    destruct ev as [peer|conn [|]|]; unfold on_swarm_event; [by destruct (_ || _)| |done|done].
    by destruct (LinearMap.remove _ _) as [[peer|] dialing].
  - assert (b' = on_connection_handler_event now ev b) as -> by congruence.
    destruct ev as [to id|to id from|s|s]; unfold on_connection_handler_event.
    + unfold find_and_remove. destruct (position _ _) as [i|] eqn:Hpos; [|done].
      apply position_some in Hpos as (p' & Hi & Hid%bool_decide_eq_true).
      destruct (swap_remove_perm i (pending_connections b) p' Hi) as (l & -> & Hl). simpl.
      rewrite <-Hl in Hin. apply elem_of_cons in Hin as [->|Hin]; [|done].
      by rewrite bool_decide_eq_false, Hid in He.
    + by destruct (find_and_remove _ _) as [[r l]|].
    + by apply incoming_waits.
    + done.
  - assert (b' = report_unreachable peer b) as -> by congruence. unfold report_unreachable. simpl.
    apply list_elem_of_filter. split; [|done]. apply bool_decide_eq_false in He. congruence.
  - unfold poll_event in Hs. by destruct (events b); injection Hs as <- <-.
  - assert (b' = poll_router now i b) as -> by congruence. unfold poll_router. by destruct (_ ≫= _) as [[[] ?]|].
  - by injection Hs as <- <-.
Qed.

Lemma new_fresh c : fresh_ok (behaviour_new c : Behaviour).
Proof. by intros id _. Qed.

Lemma new_load c : load (behaviour_new c : Behaviour) = 0%nat.
Proof. done. Qed.

Lemma run_waits inputs p b out b' :
  Forall (λ i, ends_wait (m_path_id (i_meta p)) (m_to (i_meta p)) i = false) inputs →
  run inputs b = (out, b') → p ∈ pending_connections b → p ∈ pending_connections b'.
Proof.
  intros Hi. revert b out. induction Hi as [|input inputs He _ IH]; intros b out; simpl; [by intros [= _ <-]|].
  destruct (step input b) as [o1 b1] eqn:Hs. destruct (run inputs b1) as [o2 b2] eqn:Hr.
  intros [= _ <-] Hp. eapply IH; [done|]. by eapply step_waits.
Qed.

(** Paths that were not opened yet have no outcomes. *)
Lemma run_unopened inputs b out b' id :
  run inputs b = (out, b') → fresh_ok b → (next_path b' ≤ id)%nat → outcomes id out = 0%nat.
Proof.
  revert b out. induction inputs as [|input inputs IH]; intros b out; simpl; [by intros [= <- <-]|].
  destruct (step input b) as [o1 b1] eqn:Hs. destruct (run inputs b1) as [o2 b2] eqn:Hr.
  intros [= <- <-] Hf Hid. destruct (step_paths _ _ _ _ Hs Hf) as (Hf1 & Hn1 & _ & Hl1).
  destruct (run_paths _ _ _ _ Hr Hf1) as (_ & Hn2 & _).
  rewrite outcomes_app, (IH _ _ Hr) by done. destruct (Hl1 id) as [-> _]; lia.
Qed.

(** *** The properties *)

(** C25: Every path that is opened is given an id of its own, which is pending until it has its one
    outcome, and never has a second one: whatever happens before and after [open_path], the outcomes
    that were given to the swarm, those that are queued and the pending requests of the id add up to
    one. A path to the node itself is the exception: [open_path] returns an id, and no outcome of it
    ever comes. *)
Theorem paths_answered_once c before out0 b0 to recipient path id b1 after out b' :
  run before (behaviour_new c) = (out0, b0) → open_path to recipient path b0 = (id, b1) →
  run after b1 = (out, b') →
  outcomes id (out0 ++ events b0) = 0%nat ∧ waiting id b0 = 0%nat ∧
  (outcomes id (out ++ events b') + waiting id b')%nat = if decide (to = current_peer_id c) then 0%nat else 1%nat.
Proof.
  intros Hb Ho Ha. destruct (run_paths _ _ _ _ Hb (new_fresh c)) as (Hf0 & _ & _ & Hout0).
  destruct (run_load _ _ _ _ Hb) as [Hc _]. simpl in Hc.
  pose proof (open_path_total to recipient path b0) as Ht. cbn zeta in Ht.
  assert (id = next_path b0) as -> by (unfold open_path, new_path in Ho; congruence).
  rewrite Ho in Ht. cbn [snd] in Ht.
  destruct (step_paths (OpenPath to recipient path) b0 [] b1) as (Hf1 & _ & _ & _); [cbn [step]; by rewrite Ho|done|].
  destruct (run_paths _ _ _ _ Ha Hf1) as (_ & _ & Hkept & _).
  specialize (Hf0 (next_path b0) (le_n _)). destruct (Ht (next_path b0)) as [Ht1 Hn].
  specialize (Hkept (next_path b0) ltac:(lia)). rewrite Ht1, Hf0, Hc in Hkept. unfold total in *.
  rewrite !outcomes_app.
  split_and!; [|lia|destruct (decide (to = _)); [rewrite decide_False in Hkept by tauto|rewrite decide_True in Hkept by done]; lia].
  rewrite (run_unopened _ _ _ _ _ Hb (new_fresh c)) by done. lia.
Qed.

(** C26: However the behaviour is used, the channels in use and the streams that wait for one are at
    most one more than [max_streams], as the limit is compared with [>]: at the limit itself one more
    stream is let in. Above it a stream is refused: nothing waits for it and nobody is told, except
    that its sender gets the byte [OCCUPIED_PEER] while there is room for that. *)
Theorem relay_capacity c inputs out b now s :
  run inputs (behaviour_new c) = (out, b) →
  (load b ≤ S (max_streams c))%nat ∧
  let b1 := snd (check_router now b) in
  let b2 := push_incoming_stream now s b in
  (load b1 = max_streams c → m_to (i_meta s) ≠ current_peer_id c → load b2 = S (max_streams c)) ∧
  (load b1 = S (max_streams c) →
   pending_connections b2 = pending_connections b ∧ events b2 = events b ∧
   (error_streams b2 = error_streams b1 ∨ error_streams b2 = error_streams b1 ++ [(i_stream s, OCCUPIED_PEER)])).
Proof.
  intros Hr. destruct (run_load _ _ _ _ Hr) as [Hc Hl]. rewrite new_load in Hl. simpl in Hc, Hl.
  split; [lia|]. split.
  - intros Hm Hs. rewrite <-Hc in Hm, Hs. rewrite incoming_accepted by (done || lia). congruence.
  - intros Hm. apply incoming_refused. rewrite Hc. lia.
Qed.

(** When the next hop of a relayed stream cannot be reached with an upgraded stream, the handler
    tells the behaviour nothing, and the stream keeps its place among the pending ones in every run in
    which its path gets no channel, its peer is not reported unreachable and no dial fails. It counts
    against [max_streams] from then on: more such streams than that, and every incoming stream is
    refused. *)
Theorem failed_relays_keep_their_place c inputs out b b' e memory (lost : list (IncomingStream D Peer)) :
  (∀ p, p ∈ lost → on_connection_event (D := D) (Err_ := Err_) memory (DialUpgradeError (m_path_id (i_meta p)) (m_to (i_meta p)) false e) = None) ∧
  ((∀ p, p ∈ lost → p ∈ pending_connections b ∧
     Forall (λ i, ends_wait (m_path_id (i_meta p)) (m_to (i_meta p)) i = false) inputs) →
   config b = c → run inputs b = (out, b') →
   (∀ p, p ∈ lost → p ∈ pending_connections b') ∧
   (NoDup lost → (max_streams c < length lost)%nat → ∀ now s,
    pending_connections (push_incoming_stream now s b') = pending_connections b')).
Proof.
  split; [done|]. intros Hin Hc Hr.
  assert (∀ p, p ∈ lost → p ∈ pending_connections b') as Hkept.
  { intros p Hp. destruct (Hin p Hp) as [Hb Hi]. exact (run_waits _ _ _ _ _ Hi Hr Hb). }
  split; [exact Hkept|]. intros Hnd Hmax now s. apply incoming_refused.
  pose proof (check_router_spec now b') as Hs. destruct (check_router now b') as [n b1]. cbn [snd].
  destruct Hs as (_ & _ & Hp & _). unfold load. rewrite Hp.
  destruct (run_load _ _ _ _ Hr) as [-> _]. rewrite Hc.
  pose proof (NoDup_submseteq _ _ Hnd Hkept) as Hsub%submseteq_length. lia.
Qed.
End laws.

(** *** A small network *)

Section demo.
#[local] Existing Instance duplex_read.
#[local] Existing Instance duplex_write.
Notation End := (list read_event * ScriptSink)%type.
Notation Inp := (Input End Z Z unit).

Definition demo_config : Config Z :=
  {| current_peer_id := 0; max_streams := 1; max_error_streams := 1; keep_alive_interval := 30; dial_ := true |}.
Definition demo_incoming (to : Z) (id : PathId) : IncomingStream End Z :=
  {| i_stream := ([], {| budgets := []; sunk := [] |}); i_meta := {| m_to := to; m_buffer := []; m_path_id := id |} |}.

(** A path to peer 7 whose dial fails. *)
Definition demo_before : list Inp := [OpenPath 5 1 []; Connected 5 0].
Definition demo_after : list Inp := [PollEvents; PollEvents; SwarmEvent (DialFailure 1 false); PollEvents].

Lemma paths_answered_once_witness :
  ∃ out b', run demo_after (snd (open_path 7 1 [(2, 8)] (snd (run demo_before (behaviour_new demo_config))))) = (out, b') ∧
    (outcomes 1 (out ++ events b') + waiting 1 b' = 1)%nat.
Proof.
  destruct (run demo_before (behaviour_new demo_config)) as [out0 b0] eqn:Hb.
  destruct (open_path 7 1 [(2, 8)] b0) as [id b1] eqn:Ho.
  destruct (run demo_after b1) as [out b'] eqn:Ha.
  pose proof (paths_answered_once demo_config demo_before out0 b0 7 1 [(2, 8)] id b1 demo_after out b' Hb Ho Ha)
    as (_ & _ & H).
  assert (id = 1%nat) as Hid.
  { vm_compute in Hb. injection Hb as _ <-. vm_compute in Ho. by injection Ho as <- _. }
  subst id. exists out, b'. cbn [snd]. rewrite Ho. cbn [snd]. split; [exact Ha|]. exact H.
Defined.

Definition demo_relays : list Inp :=
  [HandlerEvent 0 (Incoming (demo_incoming 5 0)); HandlerEvent 1 (Incoming (demo_incoming 6 1));
   HandlerEvent 2 (Incoming (demo_incoming 7 2))].

(** With room for one stream, two are let in and the third is refused. *)
Lemma relay_capacity_witness :
  ∃ out b, run demo_relays (behaviour_new demo_config) = (out, b) ∧ load b = 2%nat ∧
    error_streams b = [(i_stream (demo_incoming 7 2), OCCUPIED_PEER)] ∧
    pending_connections (push_incoming_stream 3 (demo_incoming 8 3) b) = pending_connections b.
Proof.
  destruct (run demo_relays (behaviour_new demo_config)) as [out b] eqn:Hr.
  destruct (relay_capacity demo_config demo_relays out b 3 (demo_incoming 8 3) Hr) as (_ & _ & Hfull).
  exists out, b. split; [reflexivity|].
  assert (load b = 2%nat ∧ load (snd (check_router 3 b)) = 2%nat ∧
          error_streams b = [(i_stream (demo_incoming 7 2), OCCUPIED_PEER)]) as (Hl & Hl1 & He).
  { vm_compute in Hr. injection Hr as _ <-. vm_compute. repeat split; reflexivity. }
  split; [exact Hl|]. split; [exact He|]. apply (Hfull Hl1).
Defined.

Lemma failed_relays_keep_their_place_witness :
  let b := snd (run [HandlerEvent 0 (Incoming (demo_incoming 5 0)); HandlerEvent 1 (Incoming (demo_incoming 6 1))]
                 (behaviour_new demo_config) : list (ToSwarm End Z Z unit) * Behaviour End Z Z unit) in
  pending_connections (push_incoming_stream 9 (demo_incoming 8 3)
    (snd (run [Connected 5 0; Connected 6 1; PollEvents] b))) = [demo_incoming 5 0; demo_incoming 6 1].
Proof.
  intros b. destruct (run [Connected 5 0; Connected 6 1; PollEvents] b) as [out b'] eqn:Hr.
  destruct (failed_relays_keep_their_place demo_config [Connected 5 0; Connected 6 1; PollEvents] out b b' tt []
    [demo_incoming 5 0; demo_incoming 6 1]) as [_ Hk].
  destruct Hk as [_ Hrefused]; [|reflexivity|exact Hr|].
  - intros p Hp. split; [exact Hp|]. repeat constructor.
  - cbn [snd]. rewrite Hrefused; [vm_compute in Hr; injection Hr as _ <-; reflexivity| |simpl; lia].
    apply NoDup_cons_2; [|apply NoDup_singleton]. intros [= ?]%list_elem_of_singleton.
Defined.
End demo.
