(* ===== verification/Handshake.v ===== *)
(** How a path is opened: the connection handler of [core/onion/src/handler.rs] with the upgrade of
    an inbound and of an outbound stream, and the protocol of [core/onion/src/key_share.rs] with
    which a client learns the onion keys of nodes.

    An upgrade runs to its end: [AsyncIo] has the operations of the [futures] crate it awaits, with
    what they promise. A future that is never ready is not modelled. *)

From S2P Require Import Prelude Codec Streams Collections Onion Relay Encrypted Paths.

(** ** Interfaces *)

(** [read_exact], [write_all] and a single [read]. *)
Class AsyncIo (D : Type) := {
  io_content : D → bytes;
  io_received : D → bytes;
  read_exact : nat → D → result bytes io_error * D;
  write_all : bytes → D → result unit io_error * D;
  read_some : nat → D → result bytes io_error * D;
  read_exact_law n d :
    match read_exact n d with
    | (Ok bs, d') => length bs = n ∧ io_content d = bs ++ io_content d' ∧ io_received d' = io_received d
    | (Err _, _) => True
    end;
  write_all_law bs d :
    match write_all bs d with
    | (Ok _, d') => io_received d' = io_received d ++ bs ∧ io_content d' = io_content d
    | (Err _, _) => True
    end;
  read_some_law n d :
    match read_some n d with
    | (Ok bs, d') => (length bs ≤ n)%nat ∧ io_content d = bs ++ io_content d' ∧ io_received d' = io_received d
    | (Err _, _) => True
    end;
}.

(** A network that works: a read succeeds when the bytes are there, a write always does, and [open]
    gives a new stream that the given bytes come in on. *)
Class Reliable (D : Type) `{AsyncIo D} := {
  open : bytes → D;
  open_content bs : io_content (open bs) = bs;
  open_received bs : io_received (open bs) = [];
  read_exact_total n d : (n ≤ length (io_content d))%nat → ∃ bs d', read_exact n d = (Ok bs, d');
  write_all_total bs d : ∃ d', write_all bs d = (Ok tt, d');
}.

(** ** The handler *)

Inductive StreamProtocol := ROUTING_PROTOCOL | KEY_SHARE_PROTOCOL.

(* Vec::resize *)
Definition vec_resize (n : nat) (buffer : bytes) : bytes := take n (buffer ++ replicate (n - length buffer) 0).

(** [packet::OK]. *)
Definition OK : Z := 0.

Inductive IUpgradeError :=
  | IMalformedPacket
  | WriteKeyPacket (e : io_error)
  | ReadPacketLength (e : io_error)
  | IReadPacket (e : io_error)
  | WriteAuthPacket (e : io_error).

Inductive OUpgradeError :=
  | OMissingPeer
  | OccupiedPeer
  | AuthenticationFailed
  | UnknownPacketKind (kind : Z)
  | WritePacketLength (e : io_error)
  | WritePacket (e : io_error)
  | ReadPacketKind (e : io_error)
  | OReadPacket (e : io_error).

Section upgrades.
Context {D KP SK Peer : Type} `{AsyncIo D, Kyber KP, X25519 SK, Aead}.
Context `{!TransmutationCircle PublicKey, !TransmutationCircle Ciphertext, Peers Peer}.
(** [packet::ASOC_DATA], and the buffer of a new packet writer. *)
Context (PACKET_ASOC memory : bytes).
Notation Keypair := (Keypair KP SK).
Notation IncomingOrResponse := (IncomingStream D Peer + EncryptedStream D)%type.
Notation Request := (IncomingOrRequest (Peer := Peer) (Pk := PublicKey)).

(* IUpgrade: without a keypair no protocol is offered *)
Definition inbound_protocols (keypair : option Keypair) : list StreamProtocol :=
  match keypair with Some _ => [ROUTING_PROTOCOL; KEY_SHARE_PROTOCOL] | None => [] end.
Definition outbound_protocols : list StreamProtocol := [ROUTING_PROTOCOL].

(* IUpgrade::upgrade_inbound, and the stream at the end of it *)
Definition upgrade_inbound (keypair : option Keypair) (proto : StreamProtocol) (path_id : PathId)
    (nonce : bytes) (stream : D) : outcome (result (option IncomingOrResponse) IUpgradeError * D) :=
  try! keypair := unwrap keypair in
  match proto with
  | KEY_SHARE_PROTOCOL =>
      match write_all (into_bytes (public_key keypair)) stream with
      | (Err e, stream) => Done (Err (WriteKeyPacket e), stream)
      | (Ok _, stream) => Done (Ok None, stream)
      end
  | ROUTING_PROTOCOL =>
      match read_exact 2 stream with
      | (Err e, stream) => Done (Err (ReadPacketLength e), stream)
      | (Ok len, stream) =>
          match read_exact (decode_len len) stream with
          | (Err e, stream) => Done (Err (IReadPacket e), stream)
          | (Ok buffer, stream) =>
              try! peeled := peel_initial PACKET_ASOC keypair buffer in
              match peeled with
              | None => Done (Err IMalformedPacket, stream)
              | Some (None, ss, _, buffer) =>
                  let buffer := vec_resize (CONFIRM_PACKET_SIZE + 1) buffer in
                  try! confirm := write_confirm PACKET_ASOC ss nonce (drop 1 buffer) in
                  match write_all (OK :: confirm) stream with
                  | (Err e, stream) => Done (Err (WriteAuthPacket e), stream)
                  | (Ok _, stream) => Done (Ok (Some (inr (encrypted_new stream ss memory))), stream)
                  end
              | Some (Some to, ss, new_len, buffer) =>
                  try! _ := assert_that (new_len ≤ length buffer)%nat in
                  let meta := {| m_to := to; m_buffer := take new_len buffer; m_path_id := path_id |} in
                  Done (Ok (Some (inl {| i_stream := stream; i_meta := meta |})), stream)
              end
          end
      end
  end.

Inductive ChannelSource := RelaySource (id : PathId) | ThisNode (key : SharedSecret) (id : PathId) (peer : Peer).
Record ChannelMeta := { c_from : ChannelSource; c_to : D }.

(* what is written to open the stream: the packet, the secret, and the peer the path leads to *)
Definition opening (keypair : Keypair) (incoming : Request) (seed : bytes) (draws : list (bytes * bytes)) :
    outcome (bytes * SharedSecret * Peer) :=
  match incoming with
  | PRequest r =>
      try! (ss, packet) := new_initial PACKET_ASOC (q_recipient r) (q_path r) keypair seed draws [] in
      try! hop := unwrap (head (q_path r)) in
      Done (packet, ss, snd hop)
  | PIncoming i => Done (m_buffer i, replicate 32 0, m_to i)
  end.

(* OUpgrade::upgrade_outbound: after the answer's kind, one read for the confirmation *)
Definition await_confirm (written_packet ss : bytes) (path_id : PathId) (peer_id : Peer) (stream : D) :
    result ChannelMeta OUpgradeError * D :=
  match read_exact 1 stream with
  | (Err e, stream) => (Err (ReadPacketKind e), stream)
  | (Ok kind, stream) =>
      let kind := nth 0 kind 0 in
      if decide (kind = OK) then
        let buffer := vec_resize CONFIRM_PACKET_SIZE written_packet in
        match read_some CONFIRM_PACKET_SIZE stream with
        | (Err e, stream) => (Err (OReadPacket e), stream)
        | (Ok bs, stream) =>
            if negb (verify_confirm PACKET_ASOC ss (bs ++ drop (length bs) buffer))
            then (Err AuthenticationFailed, stream)
            else (Ok {| c_from := ThisNode ss path_id peer_id; c_to := stream |}, stream)
        end
      else if decide (kind = MISSING_PEER) then (Err OMissingPeer, stream)
      else if decide (kind = OCCUPIED_PEER) then (Err OccupiedPeer, stream)
      else (Err (UnknownPacketKind kind), stream)
  end.

Definition upgrade_outbound (keypair : Keypair) (incoming : Request) (seed : bytes)
    (draws : list (bytes * bytes)) (stream : D) : outcome (result ChannelMeta OUpgradeError * D) :=
  try! (buffer, ss, peer_id) := opening keypair incoming seed draws in
  match write_all (encode_len (length buffer)) stream with
  | (Err e, stream) => Done (Err (WritePacketLength e), stream)
  | (Ok _, stream) =>
      match write_all buffer stream with
      | (Err e, stream) => Done (Err (WritePacket e), stream)
      | (Ok _, stream) =>
          match incoming with
          | PIncoming i => Done (Ok {| c_from := RelaySource (m_path_id i); c_to := stream |}, stream)
          | PRequest r => Done (await_confirm buffer ss (q_path_id r) peer_id stream)
          end
      end
  end.

(** [Handler]; [keypair] is [None] at a client, which draws one for every request. *)
Inductive HandlerEvent :=
  | OutboundSubstreamRequest (keypair : Keypair) (incoming : Request) (info : PathId * Peer * bool)
  | NotifyBehaviour (ev : ToBehaviour (D := D) (Peer := Peer) (Err_ := OUpgradeError)).
Record Handler := { h_keypair : option Keypair; h_events : list HandlerEvent }.

Definition handler_new (keypair : option Keypair) : Handler := {| h_keypair := keypair; h_events := [] |}.
Definition push_handler_event (ev : HandlerEvent) (h : Handler) : Handler :=
  {| h_keypair := h_keypair h; h_events := h_events h ++ [ev] |}.

Definition handler_poll (h : Handler) : option HandlerEvent * Handler :=
  match h_events h with
  | [] => (None, h)
  | ev :: evs => (Some ev, {| h_keypair := h_keypair h; h_events := evs |})
  end.

(* on_behaviour_event: InitPacket *)
Definition on_behaviour_event (drawn : Keypair) (incoming : Request) (h : Handler) : Handler :=
  let info := match incoming with
              | PIncoming i => (m_path_id i, m_to i, false)
              | PRequest r => (q_path_id r, q_to r, true)
              end in
  push_handler_event (OutboundSubstreamRequest (default drawn (h_keypair h)) incoming info) h.

Definition handler_connection_event (ev : ConnectionEvent (D := D) (Peer := Peer) (Err_ := OUpgradeError)) (h : Handler) : Handler :=
  match on_connection_event memory ev with
  | None => h
  | Some ev => push_handler_event (NotifyBehaviour ev) h
  end.

(** What the swarm makes of a finished outbound upgrade: its result with the request's info. *)
Definition negotiated (info : PathId * Peer * bool) (res : result ChannelMeta OUpgradeError) :
    ConnectionEvent (D := D) (Peer := Peer) (Err_ := OUpgradeError) :=
  match res with
  | Ok {| c_from := RelaySource id; c_to := to |} => RelayNegotiated id to
  | Ok {| c_from := ThisNode key id peer; c_to := to |} => OwnNegotiated key id peer to
  | Err e => DialUpgradeError info.1.1 info.1.2 info.2 e
  end.
End upgrades.

(** ** What the two sides of a stream do *)

Section laws.
Context {D KP SK Peer : Type} `{Reliable D, KyberOk KP, X25519Ok SK, AeadOk}.
Context `{!TransmutationCircle PublicKey, !TransmuteOk PublicKey, !TransmutationCircle Ciphertext,
          !TransmuteOk Ciphertext, PeersOk Peer}.
Context (PACKET_ASOC memory : bytes).
Notation Keypair := (Keypair KP SK).
Notation upgrade_inbound := (upgrade_inbound (D := D) (KP := KP) (SK := SK) (Peer := Peer) PACKET_ASOC memory).
Notation upgrade_outbound := (upgrade_outbound (D := D) (KP := KP) (SK := SK) (Peer := Peer) PACKET_ASOC).

Lemma read_exact_content (bs rest : bytes) (d : D) :
  io_content d = bs ++ rest →
  ∃ d', read_exact (length bs) d = (Ok bs, d') ∧ io_content d' = rest ∧ io_received d' = io_received d.
Proof.
  intros Hc. destruct (read_exact_total (length bs) d) as (bs' & d' & Hr); [rewrite Hc, length_app; lia|].
  pose proof (read_exact_law (length bs) d) as Hl. rewrite Hr in Hl. destruct Hl as (Hn & Hc' & Hrec).
  rewrite Hc in Hc'. apply app_inj_1 in Hc' as [-> ->]; [|done]. by exists d'.
Qed.

Lemma write_all_ok (bs : bytes) (d : D) :
  ∃ d', write_all bs d = (Ok tt, d') ∧ io_received d' = io_received d ++ bs ∧ io_content d' = io_content d.
Proof.
  destruct (write_all_total bs d) as [d' Hw]. pose proof (write_all_law bs d) as Hl. rewrite Hw in Hl. by exists d'.
Qed.

(** A frame is read and its packet peeled. *)
Lemma inbound_reads (kp : Keypair) path_id nonce packet rest (d : D) :
  io_content d = len_frame packet ++ rest → Z.of_nat (length packet) < 65536 →
  ∃ d', io_content d' = rest ∧ io_received d' = io_received d ∧
    (∀ id ss n buffer, peel_initial PACKET_ASOC kp packet = Done (Some (Some id, ss, n, buffer)) →
       (n ≤ length buffer)%nat →
       upgrade_inbound (Some kp) ROUTING_PROTOCOL path_id nonce d =
         Done (Ok (Some (inl {| i_stream := d'; i_meta :=
           {| m_to := id; m_buffer := take n buffer; m_path_id := path_id |} |})), d')) ∧
    (∀ ss n buffer, peel_initial (Peer := Peer) PACKET_ASOC kp packet = Done (Some (None, ss, n, buffer)) →
       length nonce = NONCE_SIZE →
       ∃ d'' confirm, upgrade_inbound (Some kp) ROUTING_PROTOCOL path_id nonce d =
           Done (Ok (Some (inr (encrypted_new d'' ss memory))), d'') ∧
         io_received d'' = io_received d ++ OK :: confirm ∧ io_content d'' = rest ∧
         length confirm = CONFIRM_PACKET_SIZE ∧ verify_confirm PACKET_ASOC ss confirm = true).
Proof.
  intros Hc Hl. unfold len_frame in Hc. rewrite <-app_assoc in Hc.
  destruct (read_exact_content _ _ _ Hc) as (d1 & Hr1 & Hc1 & Hrec1). rewrite encode_len_length in Hr1.
  destruct (read_exact_content _ _ _ Hc1) as (d2 & Hr2 & Hc2 & Hrec2).
  exists d2. split; [done|]. split; [by rewrite Hrec2|].
  unfold Handshake.upgrade_inbound. cbn [unwrap obind]. rewrite Hr1, decode_encode_len, Hr2 by done. split.
  - intros id ss n buffer -> Hn. cbn [obind]. unfold assert_that. by rewrite decide_True by done.
  - intros ss n buffer -> Hn. cbn [obind].
    destruct (confirm_verifies PACKET_ASOC ss nonce (drop 1 (vec_resize (CONFIRM_PACKET_SIZE + 1) buffer)) Hn)
      as (confirm & -> & Hcl & Hv).
    { unfold vec_resize. rewrite length_drop, length_take, length_app, length_replicate. lia. }
    cbn [obind]. destruct (write_all_ok (OK :: confirm) d2) as (d3 & -> & Hw & Hc3).
    exists d3, confirm. by rewrite Hw, Hrec2, Hrec1, Hc3.
Qed.

(** A relay hands its part of the packet on. *)
Lemma outbound_relays (kp : Keypair) (meta : IncomingStreamMeta) seed draws (d : D) :
  ∃ d', upgrade_outbound kp (PIncoming meta) seed draws d =
      Done (Ok {| c_from := RelaySource (m_path_id meta); c_to := d' |}, d') ∧
    io_received d' = io_received d ++ len_frame (m_buffer meta).
Proof.
  unfold Handshake.upgrade_outbound. cbn [opening obind].
  destruct (write_all_ok (encode_len (length (m_buffer meta))) d) as (d1 & -> & Hr1 & _).
  destruct (write_all_ok (m_buffer meta) d1) as (d2 & -> & Hr2 & _).
  exists d2. split; [done|]. by rewrite Hr2, Hr1, <-app_assoc.
Qed.

(** The client writes its packet and takes the confirmation of the destination. *)
Lemma outbound_requests (kp : Keypair) (r : PathRequest Peer PublicKey) seed draws ss packet hop confirm (d : D) :
  new_initial PACKET_ASOC (q_recipient r) (q_path r) kp seed draws [] = Done (ss, packet) →
  head (q_path r) = Some hop → io_content d = OK :: confirm → length confirm = CONFIRM_PACKET_SIZE →
  ∃ d1, io_received d1 = io_received d ++ len_frame packet ∧ io_content d1 = confirm ∧
    upgrade_outbound kp (PRequest r) seed draws d =
      Done match read_some CONFIRM_PACKET_SIZE d1 with
           | (Err e, d2) => (Err (OReadPacket e), d2)
           | (Ok bs, d2) =>
               if negb (verify_confirm PACKET_ASOC ss (bs ++ drop (length bs) (vec_resize CONFIRM_PACKET_SIZE packet)))
               then (Err AuthenticationFailed, d2)
               else (Ok {| c_from := ThisNode ss (q_path_id r) (snd hop); c_to := d2 |}, d2)
           end.
Proof.
  intros Hnew Hhop Hc Hl. unfold Handshake.upgrade_outbound, opening. rewrite Hnew, Hhop. cbn [obind unwrap].
  destruct (write_all_ok (encode_len (length packet)) d) as (d1 & -> & Hr1 & Hc1).
  destruct (write_all_ok packet d1) as (d2 & -> & Hr2 & Hc2).
  destruct (read_exact_content [OK] confirm d2) as (d3 & Hr3 & Hc3 & Hrec3); [by rewrite Hc2, Hc1|].
  exists d3. split; [by rewrite Hrec3, Hr2, Hr1, <-app_assoc|]. split; [done|].
  unfold await_confirm. change (length [OK]) with 1%nat in Hr3. rewrite Hr3. cbn [nth].
  by rewrite decide_True by done.
Qed.

(** *** Along a path *)

(** [travels nodes d ids key reply]: the stream [d] comes in at the first node and is passed on,
    every relay writing to a new stream that comes in at the next node, until one answers it with
    [reply] and keeps [key]; the relays learn [ids]. *)
Inductive travels : list Keypair → D → list Peer → SharedSecret → bytes → Prop :=
  | travels_end kp nodes path_id nonce d d' s reply :
      upgrade_inbound (Some kp) ROUTING_PROTOCOL path_id nonce d = Done (Ok (Some (inr s)), d') →
      inner s = Some d' → io_received d' = io_received d ++ reply →
      travels (kp :: nodes) d [] (key s) reply
  | travels_on kp nodes path_id nonce d d' meta kp' seed draws out out' next ids key reply :
      upgrade_inbound (Some kp) ROUTING_PROTOCOL path_id nonce d =
        Done (Ok (Some (inl {| i_stream := d'; i_meta := meta |})), d') →
      io_received out = [] →
      upgrade_outbound kp' (PIncoming meta) seed draws out =
        Done (Ok {| c_from := RelaySource path_id; c_to := out' |}, out') →
      io_content next = io_received out' → travels nodes next ids key reply →
      travels (kp :: nodes) d (m_to meta :: ids) key reply.

Lemma travels_hops client (hops : list (Keypair * Peer)) draws buffer nodes ids key reply packet (path_id : PathId) (nonce0 : bytes) :
  Forall (λ d, length (snd d) = NONCE_SIZE) draws → length draws = length hops →
  add_hops PACKET_ASOC client (map public_hop hops) draws buffer = Done packet →
  Z.of_nat (length (packet ++ into_bytes (public_key client))) < 65536 →
  travels nodes (open (len_frame (buffer ++ into_bytes (public_key client)))) ids key reply →
  travels (rev (map fst hops) ++ nodes) (open (len_frame (packet ++ into_bytes (public_key client))))
    (rev (map snd hops) ++ ids) key reply.
Proof.
  revert draws buffer nodes ids. induction hops as [|[node id] hops IH]; intros draws buffer nodes ids Hd Hl Ha Hsize Ht.
  { destruct draws; [|done]. by injection Ha as <-. }
  destruct draws as [|[seed nonce] draws]; [done|]. apply Forall_cons in Hd as [Hn Hd]. injection Hl as Hl.
  destruct (peel_hop PACKET_ASOC client node id seed nonce buffer Hn) as (layer & ss & n & rest & Hadd & Hp & Htake & Hlen).
  cbn [map public_hop fst snd add_hops] in Ha. rewrite Hadd in Ha. cbn [obind] in Ha.
  cbn [map fst snd rev]. rewrite <-!app_assoc. apply (IH draws layer); [done..|].
  pose proof (add_hops_grow PACKET_ASOC client _ _ _ _ Ha) as Hgrow. rewrite length_app in Hsize.
  assert (n ≤ length rest)%nat as Hfit by
    (apply (f_equal length) in Htake; rewrite length_take in Htake; lia).
  destruct (inbound_reads node path_id nonce0 (layer ++ into_bytes (public_key client)) []
              (open (len_frame (layer ++ into_bytes (public_key client))))) as (d1 & _ & _ & Hin & _);
    [by rewrite open_content, app_nil_r|rewrite length_app; lia|].
  specialize (Hin id ss n rest Hp Hfit).
  destruct (outbound_relays node {| m_to := id; m_buffer := take n rest; m_path_id := path_id |} seed [] (open []))
    as (out' & Hout & Hrec).
  refine (travels_on node nodes path_id nonce0 _ d1 _ node seed [] _ out' _ ids key reply Hin (open_received []) Hout _ Ht).
  rewrite open_content, Hrec, open_received. cbn [m_buffer app]. by rewrite Htake.
Qed.

(** The destination answers what is left of the packet. *)
Lemma travels_destination client node seed cp key (nonce : bytes) (path_id : PathId) :
  encapsulate client (public_key node) seed = Done (cp, key) → length nonce = NONCE_SIZE →
  Z.of_nat (length (into_bytes cp ++ into_bytes (public_key client))) < 65536 →
  ∃ confirm, travels [node] (open (len_frame (into_bytes cp ++ into_bytes (public_key client)))) [] key (OK :: confirm) ∧
    length confirm = CONFIRM_PACKET_SIZE ∧ verify_confirm PACKET_ASOC key confirm = true.
Proof.
  intros He Hn Hsize. pose proof (peel_initial_shape (Peer := Peer) PACKET_ASOC client node seed cp key [] He) as Hp.
  cbn zeta in Hp. rewrite decide_True, app_nil_l in Hp by done.
  set (packet := into_bytes cp ++ _) in *.
  destruct (inbound_reads node path_id nonce packet [] (open (len_frame packet))) as (d1 & _ & _ & _ & Hin);
    [by rewrite open_content, app_nil_r|done|].
  destruct (Hin _ _ _ Hp Hn) as (d2 & confirm & Hup & Hrec & _ & Hl & Hv).
  exists confirm. split; [|done].
  exact (travels_end node [] path_id nonce _ d2 (encrypted_new d2 key memory) _ Hup eq_refl Hrec).
Qed.
End laws.

(** ** Properties *)

(** C17: Opening a path works on a network that works. The client's outbound upgrade writes the
    packet of its path; the entry node reads and peels it, passes what is left on to the next node,
    and so on along the jumps of the path; the destination answers with a confirmation, and when
    that has come back over the channels the client's upgrade ends with the secret that the
    destination has, for the peer the path leads to. The confirmation must come in one read. *)
Theorem handshake_completes {D KP SK Peer} `{Reliable D, KyberOk KP, X25519Ok SK, AeadOk}
    `{!TransmutationCircle PublicKey, !TransmuteOk PublicKey, !TransmutationCircle Ciphertext,
      !TransmuteOk Ciphertext, PeersOk Peer} (PACKET_ASOC memory : bytes)
    (client entry relay_ : Keypair KP SK) (entry_id relay_id id : Peer) (node : Keypair KP SK)
    (path_id : PathId) (seed nonce : bytes) (draws : list (bytes * bytes)) :
  let rest := [(relay_, relay_id); (node, id)] in
  relay_id ≠ id → length draws = length rest → Forall (λ d, length (snd d) = NONCE_SIZE) draws →
  length nonce = NONCE_SIZE →
  Z.of_nat (T_SIZE Ciphertext + T_SIZE PublicKey + 2 * layer_size) < 65536 →
  (∀ (d : D), length (io_content d) = CONFIRM_PACKET_SIZE →
     ∃ d', read_some CONFIRM_PACKET_SIZE d = (Ok (io_content d), d')) →
  ∃ request packet key reply,
    open_path_request (map public_hop (rev rest)) (public_key entry, entry_id) = Done request ∧
    travels PACKET_ASOC memory [entry; relay_; node] (open (len_frame packet) : D) [relay_id; id] key reply ∧
    ∃ d', upgrade_outbound PACKET_ASOC client
            (PRequest {| q_to := to request; q_path_id := path_id; q_recipient := recipient request;
                         q_path := path request |}) seed draws (open reply : D) =
        Done (Ok {| c_from := ThisNode key path_id id; c_to := d' |}, d') ∧
      io_received d' = len_frame packet.
Proof.
  intros rest Hne Hl Hd Hn Hsize Hwhole.
  assert (no_repeat (map public_hop (rev rest)) = true) as Hrep
    by (simpl; by rewrite bool_decide_eq_false_2 by congruence).
  destruct (new_initial_relayed PACKET_ASOC client entry rest seed draws Hl Hd) as (key & packet & Hnew & _ & Hlen).
  eexists _, packet, key. rewrite (open_path_jumps entry entry_id rest Hrep).
  change (destination entry rest) with node in *.
  destruct (encapsulate_decapsulate client node seed) as (cp & key' & He & _ & Hsz).
  pose proof Hnew as Hinv. unfold new_initial in Hinv. rewrite He in Hinv. cbn [obind app] in Hinv.
  destruct (add_hops _ _ _ _ _) as [layers|] eqn:Ha; [|done]. injection Hinv as -> <-.
  rewrite length_app, public_key_length in Hlen. simpl (length rest) in Hlen.
  pose proof (add_hops_grow PACKET_ASOC client _ _ _ _ Ha) as Hgrow.
  destruct (travels_destination PACKET_ASOC memory client node seed cp key nonce path_id He Hn)
    as (confirm & Hend & Hcl & Hv); [rewrite length_app, public_key_length; lia|].
  exists (OK :: confirm). split; [done|]. split.
  - apply (travels_hops PACKET_ASOC memory client (rev (jumps entry rest)) draws (into_bytes cp) [node] [] key
             (OK :: confirm) layers path_id nonce Hd); [done|done| |done].
    rewrite length_app, public_key_length. lia.
  - destruct (outbound_requests PACKET_ASOC client
      {| q_to := entry_id; q_path_id := path_id; q_recipient := public_key node;
         q_path := map public_hop (rev (jumps entry rest)) |} seed draws key
      (layers ++ into_bytes (public_key client)) (public_hop (relay_, id)) confirm
      (open (OK :: confirm)) Hnew eq_refl (open_content _) Hcl) as (d1 & Hr & Hc & Hup).
    destruct (Hwhole d1) as [d2 Hread]; [by rewrite Hc|]. rewrite Hread, Hc in Hup.
    rewrite drop_ge, app_nil_r, Hv in Hup by (unfold vec_resize; rewrite length_take, Hcl; lia).
    pose proof (read_some_law CONFIRM_PACKET_SIZE d1) as Hlaw. rewrite Hread in Hlaw. destruct Hlaw as (_ & _ & Hrec).
    exists d2. split; [exact Hup|]. by rewrite Hrec, Hr, open_received.
Qed.

(** When the confirmation comes in pieces: only one read is made for it, into a buffer that still
    holds the first bytes of the packet, so the path of an honest destination is refused as not
    authentic unless what the two make up happens to be a confirmation too. *)
Theorem split_confirmation_refused {D KP SK Peer} `{Reliable D, KyberOk KP, X25519Ok SK, AeadOk}
    `{!TransmutationCircle PublicKey, !TransmuteOk PublicKey, !TransmutationCircle Ciphertext,
      !TransmuteOk Ciphertext, PeersOk Peer} (PACKET_ASOC : bytes)
    (client : Keypair KP SK) (r : PathRequest Peer PublicKey) (hop : PublicKey * Peer)
    (seed ss packet confirm : bytes) (draws : list (bytes * bytes)) (k : nat) :
  new_initial PACKET_ASOC (q_recipient r) (q_path r) client seed draws [] = Done (ss, packet) →
  head (q_path r) = Some hop → length confirm = CONFIRM_PACKET_SIZE →
  (∀ (d : D), io_content d = confirm → ∃ d', read_some CONFIRM_PACKET_SIZE d = (Ok (take k confirm), d')) →
  (k ≤ CONFIRM_PACKET_SIZE)%nat →
  verify_confirm PACKET_ASOC ss (take k confirm ++ drop k (vec_resize CONFIRM_PACKET_SIZE packet)) = false →
  ∃ d', upgrade_outbound PACKET_ASOC client (PRequest r) seed draws (open (OK :: confirm) : D) =
    Done (Err AuthenticationFailed, d') ∧ io_content d' = drop k confirm.
Proof.
  intros Hnew Hhop Hcl Hread Hk Hv.
  destruct (outbound_requests PACKET_ASOC client r seed draws ss packet hop confirm (open (OK :: confirm))
              Hnew Hhop (open_content _) Hcl) as (d1 & _ & Hc & Hup).
  destruct (Hread d1 Hc) as [d2 Hr]. rewrite Hr in Hup.
  pose proof (read_some_law CONFIRM_PACKET_SIZE d1) as Hlaw. rewrite Hr in Hlaw. destruct Hlaw as (_ & Hc2 & _).
  assert (length (take k confirm) = k) as Hlen by (rewrite length_take; lia). rewrite Hlen, Hv in Hup.
  exists d2. split; [exact Hup|]. rewrite Hc in Hc2. rewrite <-(take_drop k confirm) in Hc2 at 1.
  by apply app_inv_head in Hc2.
Qed.

(** ** A network in memory *)

Section demo.
(** A pipe whose single reads give at most [slice] bytes. *)
Record Pipe := { p_content : bytes; p_received : bytes }.
Definition demo_io (slice : nat) : AsyncIo Pipe.
Proof.
  refine {| io_content := p_content; io_received := p_received;
    read_exact n d := if decide (n ≤ length (p_content d))%nat
      then (Ok (take n (p_content d)), {| p_content := drop n (p_content d); p_received := p_received d |})
      else (Err ErrUnexpectedEof, d);
    write_all bs d := (Ok tt, {| p_content := p_content d; p_received := p_received d ++ bs |});
    read_some n d := (Ok (take (Nat.min n slice) (p_content d)),
      {| p_content := drop (Nat.min n slice) (p_content d); p_received := p_received d |}) |}.
  - intros n d. destruct (decide _); [|done]. simpl. rewrite length_take, take_drop. split; [lia|done].
  - done.
  - intros n d. simpl. rewrite length_take, take_drop. split; [lia|done].
Defined.
Definition demo_reliable (slice : nat) : @Reliable Pipe (demo_io slice).
Proof.
  refine {| open bs := {| p_content := bs; p_received := [] |} |}; [done|done| |].
  - intros n d Hn. simpl. rewrite decide_True by done. by eexists _, _.
  - intros bs d. by eexists.
Defined.
#[local] Existing Instance demo_kyber.
#[local] Existing Instance demo_x25519.
#[local] Existing Instance demo_aead.
#[local] Existing Instance demo_public_bytes.
#[local] Existing Instance demo_cipher_bytes.
#[local] Existing Instance demo_peers.
#[local] Existing Instance demo_kyber_ok.
#[local] Existing Instance demo_x25519_ok.
#[local] Existing Instance demo_aead_ok.
#[local] Existing Instance demo_public_ok.
#[local] Existing Instance demo_cipher_ok.
#[local] Existing Instance demo_peers_ok.

(** From the entry node 30 over 20 to 10, as in Onion.v. *)
Lemma handshake_completes_witness : let _ := demo_io 100 in let _ := demo_reliable 100 in
  ∃ request packet key reply d',
    travels [] [] [demo_kp 1 2; demo_kp 3 4; demo_kp 7 8] (open (len_frame packet) : Pipe) [20; 10] key reply ∧
    upgrade_outbound [] (demo_kp 5 6) (PRequest request) [13] demo_draws (open reply : Pipe) =
      Done (Ok {| c_from := ThisNode key 4%nat 10; c_to := d' |}, d').
Proof.
  intros Hio Hrel.
  destruct (handshake_completes (D := Pipe) [] [] (demo_kp 5 6) (demo_kp 1 2) (demo_kp 3 4) 30 20 10 (demo_kp 7 8)
    4 [13] (replicate 12 1) demo_draws) as (request & packet & key & reply & _ & Ht & d' & Hup & _);
    [lia|reflexivity|repeat constructor|reflexivity|vm_compute; reflexivity| |].
  - intros d Hd. eexists. change (io_content d) with (p_content d) in *.
    transitivity (Ok (E := io_error) (take CONFIRM_PACKET_SIZE (p_content d)),
      {| p_content := drop CONFIRM_PACKET_SIZE (p_content d); p_received := p_received d |}); [reflexivity|].
    rewrite take_ge by (rewrite Hd; reflexivity). reflexivity.
  - eexists _, packet, key, reply, d'. split; [exact Ht|exact Hup].
Defined.

(** The packet of a path straight to node 20 over 30, and a confirmation of which one byte comes
    first. *)
Definition demo_request : PathRequest Z PublicKey :=
  {| q_to := 30; q_path_id := 0%nat; q_recipient := public_key (demo_kp 3 4);
     q_path := [(public_key (demo_kp 1 2), 20)] |}.
Definition demo_opened : bytes * bytes := Eval vm_compute in
  match new_initial [] (q_recipient demo_request) (q_path demo_request) (demo_kp 5 6) [13]
          [([11], replicate 12 1)] [] with Done p => p | Panic => ([], []) end.
Definition demo_confirm : bytes := Eval vm_compute in
  match write_confirm [] (fst demo_opened) (replicate 12 1) (replicate 28 0) with Done c => c | Panic => [] end.

Lemma split_confirmation_refused_witness : let _ := demo_io 1 in let _ := demo_reliable 1 in
  verify_confirm [] (fst demo_opened) demo_confirm = true ∧
  ∃ d', upgrade_outbound [] (demo_kp 5 6) (PRequest demo_request) [13] [([11], replicate 12 1)]
      (open (OK :: demo_confirm) : Pipe) = Done (Err AuthenticationFailed, d') ∧
    io_content d' = drop 1 demo_confirm.
Proof.
  intros Hio Hrel. split; [vm_compute; reflexivity|].
  apply (split_confirmation_refused (D := Pipe) [] (demo_kp 5 6) demo_request (public_key (demo_kp 1 2), 20) [13]
    (fst demo_opened) (snd demo_opened) demo_confirm [([11], replicate 12 1)] 1);
    [vm_compute; reflexivity|reflexivity|reflexivity| |unfold CONFIRM_PACKET_SIZE, TAG_SIZE; lia|vm_compute; reflexivity].
  intros d Hd. eexists. change (io_content d) with (p_content d) in Hd. rewrite <-Hd. reflexivity.
Defined.
End demo.
