(* ===== verification/KeyShare.v ===== *)
(** How a client learns the onion keys of the nodes it connects to: [core/onion/src/key_share.rs],
    against the answer of the node in [core/onion/src/handler.rs] (Handshake.v). *)

From S2P Require Import Prelude Codec Streams Onion Relay Encrypted Paths Handshake.

Section key_share.
Context {D Peer : Type} `{AsyncIo D, Countable Peer, !TransmutationCircle PublicKey}.

(** ** The behaviour *)

Record KeyShare := { keys : gmap Peer PublicKey; new_keys : list (Peer * PublicKey) }.
Definition key_share_default : KeyShare := {| keys := ∅; new_keys := [] |}.
Implicit Types (b : KeyShare).

(** [Handler]: one per connection. *)
Record KsHandler := { connect : bool; ks_key : option PublicKey }.
Implicit Types (h : KsHandler).

(* handle_established_inbound_connection *)
Definition established_inbound : KsHandler := {| connect := false; ks_key := None |}.
(* handle_established_outbound_connection: the key is asked for unless it is known *)
Definition established_outbound (peer : Peer) b : KsHandler :=
  {| connect := negb (bool_decide (is_Some (keys b !! peer))); ks_key := None |}.

Definition ks_on_connection_handler_event (peer_id : Peer) (event : PublicKey) b : KeyShare :=
  {| keys := <[peer_id := event]> (keys b); new_keys := new_keys b ++ [(peer_id, event)] |}.

(* poll: Vec::pop, the newest first *)
Definition ks_poll b : option (Peer * PublicKey) * KeyShare :=
  match last (new_keys b) with
  | None => (None, b)
  | Some e => (Some e, {| keys := keys b; new_keys := removelast (new_keys b) |})
  end.

(** ** The handler *)

Inductive KsEvent := KsRequest | KsNotify (key : PublicKey).

Definition ks_handler_poll h : option KsEvent * KsHandler :=
  if connect h then (Some KsRequest, {| connect := false; ks_key := ks_key h |})
  else match ks_key h with
       | Some key => (Some (KsNotify key), {| connect := false; ks_key := None |})
       | None => (None, h)
       end.

(* on_connection_event: [Some] is a finished outbound upgrade *)
Definition ks_on_connection_event (ev : option PublicKey) h : KsHandler :=
  match ev with
  | Some key => {| connect := connect h; ks_key := Some key |}
  | None => h
  end.

(* Protocol::upgrade_outbound *)
Definition ks_upgrade_outbound (socket : D) : result PublicKey io_error * D :=
  match read_exact (T_SIZE PublicKey) socket with
  | (Err e, socket) => (Err e, socket)
  | (Ok key, socket) => (Ok (from_bytes key), socket)
  end.

(** ** Runs *)

(** What a connection goes through: polls of its handler ([None]) and finished substreams. *)
Fixpoint ks_handler_run (inputs : list (option (option PublicKey))) h : list KsEvent * KsHandler :=
  match inputs with
  | [] => ([], h)
  | None :: inputs =>
      let (ev, h) := ks_handler_poll h in
      let (out, h) := ks_handler_run inputs h in (option_list ev ++ out, h)
  | Some ev :: inputs => ks_handler_run inputs (ks_on_connection_event ev h)
  end.

(** Reports of the handlers, and polls ([None]) of the behaviour. *)
Fixpoint ks_run (inputs : list (option (Peer * PublicKey))) b : list (Peer * PublicKey) * KeyShare :=
  match inputs with
  | [] => ([], b)
  | None :: inputs =>
      let (ev, b) := ks_poll b in
      let (out, b) := ks_run inputs b in (option_list ev ++ out, b)
  | Some (peer, key) :: inputs => ks_run inputs (ks_on_connection_handler_event peer key b)
  end.

Definition reports (inputs : list (option (Peer * PublicKey))) : list (Peer * PublicKey) := omap id inputs.
Definition is_request (e : KsEvent) : bool := match e with KsRequest => true | _ => false end.

Lemma ks_poll_emits b :
  let (ev, b') := ks_poll b in option_list ev ++ new_keys b' ≡ₚ new_keys b ∧ keys b' = keys b.
Proof.
  unfold ks_poll. destruct (last (new_keys b)) as [e|] eqn:Hl; [|done].
  apply last_Some in Hl as [l Hl]. cbn [new_keys keys option_list app]. split; [|done].
  rewrite Hl, removelast_snoc. apply Permutation_cons_append.
Qed.

Lemma ks_run_emits inputs b :
  let (out, b') := ks_run inputs b in
  out ++ new_keys b' ≡ₚ new_keys b ++ reports inputs ∧
  keys b' = foldl (λ m e, <[e.1 := e.2]> m) (keys b) (reports inputs).
Proof.
  revert b. induction inputs as [|[[peer key]|] inputs IH]; intros b; cbn [ks_run].
  - by rewrite app_nil_r.
  - specialize (IH (ks_on_connection_handler_event peer key b)). destruct (ks_run inputs _) as [out b'].
    destruct IH as [Hp Hk]. split; [|exact Hk]. rewrite Hp. simpl. by rewrite <-(assoc_L (++)).
  - pose proof (ks_poll_emits b) as Hb. destruct (ks_poll b) as [ev b1]. destruct Hb as [Hb Hkb].
    specialize (IH b1). destruct (ks_run inputs b1) as [out b']. destruct IH as [Hp Hk].
    split; [|by rewrite Hk, Hkb]. by rewrite <-(assoc_L (++)), Hp, (assoc_L (++)), Hb.
Qed.

Lemma ks_handler_asks inputs h :
  let (out, h') := ks_handler_run inputs h in
  (length (List.filter is_request out) + (if connect h' then 1 else 0) = if connect h then 1 else 0)%nat.
Proof.
  revert h. induction inputs as [|[ev|] inputs IH]; intros h; cbn [ks_handler_run].
  - by destruct (connect h).
  - specialize (IH (ks_on_connection_event ev h)). destruct (ks_handler_run inputs _) as [out h'].
    by destruct ev.
  - unfold ks_handler_poll. destruct (connect h) eqn:Hc; [|destruct (ks_key h)].
    + specialize (IH {| connect := false; ks_key := ks_key h |}).
      destruct (ks_handler_run inputs _) as [out h']. cbn in *. lia.
    + specialize (IH {| connect := false; ks_key := None |}).
      destruct (ks_handler_run inputs _) as [out h']. cbn in *. lia.
    + specialize (IH h). destruct (ks_handler_run inputs h) as [out h']. cbn. by rewrite Hc in IH.
Qed.
End key_share.
Arguments KeyShare Peer {_ _}.

(** ** Properties *)

(** A client learns the key that a node has, once per connection. What a node answers on the
    key share protocol is read back as its public key; a handler asks at most once, and not at all
    when the key is known or the other side connected; whatever handlers report and however the
    behaviour is polled in between, every report is emitted exactly once, and the keys that are
    kept are the last ones reported. *)
Theorem key_share_learns {D KP SK Peer} `{Reliable D, KyberOk KP, X25519Ok SK, Aead, Countable Peer}
    `{!TransmutationCircle PublicKey, !TransmuteOk PublicKey, !TransmutationCircle Ciphertext, !Peers Peer}
    (PACKET_ASOC memory nonce : bytes) (node : Keypair KP SK) (path_id : PathId) (socket : D)
    (peer : Peer) (b : KeyShare Peer) (polls : list (option (option PublicKey)))
    (inputs : list (option (Peer * PublicKey))) :
  (∃ d', upgrade_inbound (Peer := Peer) PACKET_ASOC memory (Some node) KEY_SHARE_PROTOCOL path_id nonce socket =
      Done (Ok None, d') ∧
    io_received d' = io_received socket ++ into_bytes (public_key node) ∧
    ∀ rest, ∃ d'', ks_upgrade_outbound (open (into_bytes (public_key node) ++ rest) : D) =
      (Ok (public_key node), d'') ∧ io_content d'' = rest) ∧
  (length (List.filter is_request (fst (ks_handler_run polls (established_outbound peer b)))) ≤
     if bool_decide (is_Some (keys b !! peer)) then 0 else 1)%nat ∧
  List.filter is_request (fst (ks_handler_run polls established_inbound)) = [] ∧
  fst (ks_run inputs b) ++ new_keys (snd (ks_run inputs b)) ≡ₚ new_keys b ++ reports inputs ∧
  keys (snd (ks_run inputs b)) = foldl (λ m e, <[e.1 := e.2]> m) (keys b) (reports inputs).
Proof.
  split; [|split; [|split]].
  - destruct (write_all_ok (into_bytes (public_key node)) socket) as (d' & Hw & Hr & _).
    exists d'. unfold upgrade_inbound. cbn [unwrap obind]. rewrite Hw. split; [done|]. split; [done|].
    intros rest. unfold ks_upgrade_outbound. rewrite <-(public_key_length node).
    destruct (read_exact_content _ rest _ (open_content (into_bytes (public_key node) ++ rest)))
      as (d'' & -> & Hc & _). exists d''. rewrite (from_into _ (public_key_ok node)). done.
  - pose proof (ks_handler_asks polls (established_outbound peer b)) as Ha.
    destruct (ks_handler_run polls _) as [out h']. cbn [fst]. simpl in Ha.
    destruct (bool_decide _); simpl in Ha; lia.
  - pose proof (ks_handler_asks polls established_inbound) as Ha.
    destruct (ks_handler_run polls _) as [out h']. cbn [fst]. simpl in Ha. apply nil_length_inv. lia.
  - pose proof (ks_run_emits inputs b) as He. by destruct (ks_run inputs b).
Qed.

(** ** A client that hears from two nodes, one of them twice *)

Section demo.
#[local] Existing Instance demo_kyber.
#[local] Existing Instance demo_x25519.
#[local] Existing Instance demo_aead.
#[local] Existing Instance demo_public_bytes.
#[local] Existing Instance demo_cipher_bytes.
#[local] Existing Instance demo_peers.
#[local] Existing Instance demo_kyber_ok.
#[local] Existing Instance demo_x25519_ok.
#[local] Existing Instance demo_public_ok.

Definition demo_key (n : Z) : PublicKey := public_key (demo_kp n n).
Definition demo_inputs : list (option (Z * PublicKey)) :=
  [Some (1, demo_key 1); Some (2, demo_key 2); None; Some (1, demo_key 3); None; None].

(** The newest report is emitted first, so the key that was replaced is emitted last. *)
Lemma key_share_learns_witness : let _ := demo_io 100 in let _ := demo_reliable 100 in
  fst (ks_run demo_inputs key_share_default) = [(2, demo_key 2); (1, demo_key 3); (1, demo_key 1)] ∧
  ∃ d'', ks_upgrade_outbound (open (into_bytes (public_key (demo_kp 1 2)) ++ [9]) : Pipe) =
    (Ok (public_key (demo_kp 1 2)), d'') ∧ io_content d'' = [9].
Proof.
  intros Hio Hrel. split; [vm_compute; reflexivity|].
  destruct (key_share_learns (D := Pipe) (Peer := Z) [] [] [] (demo_kp 1 2) 0 {| p_content := []; p_received := [] |}
    1 key_share_default [None; None] demo_inputs) as [(d' & _ & _ & Hread) _]. exact (Hread [9]).
Defined.
End demo.
