(* ===== verification/MerkleTree.v ===== *)
(** The Merkle tree of [utils/merkle-tree/src/lib.rs]: a vector with the leaves at even positions
    and the interior nodes between them, its building, its pushes, its root and its proofs.
    The reference is a binary tree ([mtree]) whose left branches are perfect ([canonical]);
    [layout] is the vector the code should keep for it. *)

From S2P Require Import Prelude.

Class MerkleHash (T : Type) := { combine : T → T → T; merkle_default : T }.

Record MerkleTree (T : Type) := { nodes : list T }.
Arguments nodes {T} _.

(* [a - b] and [v[i] = x] on machine words and vectors *)
Definition sub (a b : nat) : outcome nat := if (b <=? a)%nat then Done (a - b)%nat else Panic.
Definition store {T} (i : nat) (x : T) (l : list T) : outcome (list T) :=
  if (i <? length l)%nat then Done (<[i:=x]> l) else Panic.
Definition ilog2 (n : nat) : outcome nat := if (n =? 0)%nat then Panic else Done (Nat.log2 n).
Definition next_power_of_two (n : nat) : nat := (2 ^ Nat.log2_up n)%nat.

Section tree.
Context {T : Type} `{MerkleHash T}.
Local Open Scope nat_scope.

Definition tree_new (root : T) : MerkleTree T := {| nodes := [root] |}.

(* the slice and the returned hash; [None] when the fuel is out *)
Fixpoint comute_recur (fuel : nat) (ns : list T) : option (outcome (list T * T)) :=
  match fuel with
  | O => None
  | S fuel =>
      match ns with
      | [node] => Some (Done (ns, node))
      | _ =>
          let mid := length ns / 2 in
          match drop mid ns with
          | [] => Some Panic
          | _ :: rest =>
              match comute_recur fuel (take mid ns) with
              | Some (Done (ls, l)) =>
                  match comute_recur fuel rest with
                  | Some (Done (rs, r)) => Some (Done (ls ++ combine l r :: rs, combine l r))
                  | o => o
                  end
              | o => o
              end
          end
      end
  end.

Fixpoint intersperse (sep : T) (l : list T) : list T :=
  match l with
  | [] => []
  | [x] => [x]
  | x :: l => x :: sep :: intersperse sep l
  end.

Definition from_base (base : list T) : outcome (MerkleTree T) :=
  let ns := intersperse merkle_default base in
  match comute_recur (S (length ns)) ns with
  | Some (Done (ns, _)) => Done {| nodes := ns |}
  | _ => Panic
  end.

Definition tree_root (t : MerkleTree T) : outcome T :=
  try! i := sub (next_power_of_two (length (nodes t)) / 2) 1 in unwrap (nodes t !! i).

Fixpoint psuh_loop (n : nat) (ns : list T) (cursor clamp width direction_mask : nat) : outcome (list T) :=
  match n with
  | O => Done ns
  | S n =>
      if Nat.even direction_mask
      then psuh_loop n ns (cursor + width) clamp (width * 2) (direction_mask / 2)
      else
        try! cursor := sub cursor width in
        try! li := sub cursor width in
        try! l := unwrap (ns !! li) in
        try! r := unwrap (ns !! ((cursor + width) `min` clamp)) in
        try! ns := store cursor (combine l r) ns in
        psuh_loop n ns cursor cursor (width * 2) (direction_mask / 2)
  end.

Definition psuh (value : T) (t : MerkleTree T) : outcome (MerkleTree T) :=
  let ns := nodes t ++ [merkle_default; value] in
  try! cursor := sub (length ns) 1 in
  try! n := ilog2 (length ns) in
  try! ns := psuh_loop n ns cursor cursor 1 (length ns / 2) in
  Done {| nodes := ns |}.

(* what the closure of [proof] owns *)
Record ProofIter := {
  clamp_cursor : nat; p_clamp : nat; clamp_mask : nat;
  p_cursor : nat; p_width : nat; p_direction : nat; p_fuel : nat;
}.

Definition proof (t : MerkleTree T) (index : nat) : outcome ProofIter :=
  let len := length (nodes t) in
  try! last := sub len 1 in
  try! fuel := ilog2 len in
  Done {| clamp_cursor := last; p_clamp := last; clamp_mask := len / 2; p_cursor := index; p_width := 1;
          p_direction := (index + 1) / 2; p_fuel := fuel |}.

(* one round of the loop, with [fuel] left after it *)
Definition proof_step (ns : list T) (fuel : nat) (p : ProofIter) : outcome (option T * ProofIter) :=
  let w := p_width p in
  try! (cursor, opposite) :=
    (if Nat.even (p_direction p) then Done (p_cursor p + w, p_cursor p + w + w)
     else try! c := sub (p_cursor p) w in try! o := sub c w in Done (c, o)) in
  try! (value, clamp_cursor, clamp) :=
    (if Nat.even (clamp_mask p) then Done (ns !! opposite, clamp_cursor p + w, p_clamp p)
     else try! cc := sub (clamp_cursor p) w in
          try! v := unwrap (ns !! (opposite `min` p_clamp p)) in Done (Some v, cc, cc)) in
  Done (value, {| clamp_cursor := clamp_cursor; p_clamp := clamp; clamp_mask := clamp_mask p / 2;
                  p_cursor := cursor; p_width := w * 2; p_direction := p_direction p / 2; p_fuel := fuel |}).

Fixpoint proof_loop (ns : list T) (fuel : nat) (p : ProofIter) : outcome (option T * ProofIter) :=
  match fuel with
  | O => Done (None, p)
  | S fuel =>
      try! (value, p) := proof_step ns fuel p in
      match value with Some v => Done (Some v, p) | None => proof_loop ns fuel p end
  end.
Definition proof_next (ns : list T) (p : ProofIter) : outcome (option T * ProofIter) :=
  proof_loop ns (p_fuel p) p.

(* draining the iterator *)
Fixpoint proof_values (n : nat) (ns : list T) (p : ProofIter) : outcome (list T) :=
  match n with
  | O => Done []
  | S n =>
      try! (value, p) := proof_next ns p in
      match value with Some v => try! vs := proof_values n ns p in Done (v :: vs) | None => Done [] end
  end.
Definition proof_collect (t : MerkleTree T) (index : nat) : outcome (list T) :=
  try! p := proof t index in proof_values (S (p_fuel p)) (nodes t) p.

Definition tree_clear (root : T) : MerkleTree T := {| nodes := [root] |}.

(** The reference: trees, their leaves, hashes and audit paths. *)
Inductive mtree := Leaf (v : T) | Branch (l r : mtree).

Fixpoint leaves (t : mtree) : list T :=
  match t with Leaf v => [v] | Branch l r => leaves l ++ leaves r end.
Fixpoint size (t : mtree) : nat := match t with Leaf _ => 1 | Branch l r => size l + size r end.
Fixpoint hash (t : mtree) : T := match t with Leaf v => v | Branch l r => combine (hash l) (hash r) end.
Fixpoint layout (t : mtree) : list T :=
  match t with Leaf v => [v] | Branch l r => layout l ++ combine (hash l) (hash r) :: layout r end.

Fixpoint perfect (h : nat) (t : mtree) : Prop :=
  match h, t with
  | O, Leaf _ => True
  | S h, Branch l r => perfect h l ∧ perfect h r
  | _, _ => False
  end.
Fixpoint canonical (t : mtree) : Prop :=
  match t with
  | Leaf _ => True
  | Branch l r => (∃ h, perfect h l ∧ size r ≤ 2 ^ h) ∧ canonical r
  end.

Inductive side := L | R.
Fixpoint path (t : mtree) (k : nat) : list (side * T) :=
  match t with
  | Leaf _ => []
  | Branch l r =>
      if k <? size l then path l k ++ [(R, hash r)] else path r (k - size l) ++ [(L, hash l)]
  end.
Definition climb (acc : T) (step : side * T) : T :=
  match step with (R, v) => combine acc v | (L, v) => combine v acc end.

(** The vector of the code holds [ls]. *)
Definition holds (t : MerkleTree T) (m : mtree) (ls : list T) : Prop :=
  canonical m ∧ leaves m = ls ∧ nodes t = layout m.
End tree.
Arguments mtree T : clear implicits.

Section shape.
Context {T : Type} `{MerkleHash T}.
Local Open Scope nat_scope.
Implicit Types (t l r : mtree T) (h i k n : nat).

Definition root_index t : nat := match t with Leaf _ => 0 | Branch l _ => length (layout l) end.

Lemma pow_lt_cancel h i : 2 ^ h < 2 ^ i → h < i.
Proof. apply Nat.pow_lt_mono_r_iff. lia. Qed.
Lemma pow_le_mono h i : h ≤ i → 2 ^ h ≤ 2 ^ i.
Proof. apply Nat.pow_le_mono_r. lia. Qed.
Lemma pow_pos h : 1 ≤ 2 ^ h.
Proof. apply (pow_le_mono 0). lia. Qed.

Lemma size_pos t : 1 ≤ size t.
Proof. induction t; simpl; lia. Qed.
Lemma length_layout t : length (layout t) + 1 = 2 * size t.
Proof. induction t; simpl; rewrite ?length_app; simpl; lia. Qed.
Lemma length_leaves t : length (leaves t) = size t.
Proof. induction t; simpl; rewrite ?length_app; lia. Qed.
Lemma perfect_size h t : perfect h t → size t = 2 ^ h.
Proof.
  revert h. induction t as [v|l IHl r IHr]; intros [|h]; simpl; try done.
  intros [Hl Hr]. rewrite (IHl h), (IHr h) by done. lia.
Qed.
Lemma perfect_canonical h t : perfect h t → canonical t.
Proof.
  revert h. induction t as [v|l IHl r IHr]; intros [|h]; simpl; try done.
  intros [Hl Hr]. split; [|by eapply IHr]. exists h. by rewrite (perfect_size h r).
Qed.
Lemma canonical_full h t : canonical t → size t = 2 ^ h → perfect h t.
Proof.
  revert h. induction t as [v|l IHl r IHr]; intros h Hc Hs; simpl in *.
  - by destruct h; [|simpl in Hs; pose proof (pow_pos h); lia].
  - destruct Hc as [(g & Hl & Hr) Hc]. pose proof (perfect_size _ _ Hl) as Hsl.
    pose proof (size_pos r).
    assert (g < h) by (apply pow_lt_cancel; lia).
    assert (2 ^ S g ≤ 2 ^ h) by (apply pow_le_mono; lia). simpl in *.
    assert (¬ S g < h).
    { intros Hlt. assert (2 ^ S (S g) ≤ 2 ^ h) by (apply pow_le_mono; lia). simpl in *. lia. }
    replace h with (S g) in * by lia. split; [done|]. apply IHr; [done|simpl in *; lia].
Qed.

Lemma layout_root t : layout t !! root_index t = Some (hash t).
Proof. destruct t; simpl; [done|]. by rewrite list_lookup_middle. Qed.
Lemma root_index_lt t : root_index t < length (layout t).
Proof. apply lookup_lt_is_Some. by rewrite layout_root. Qed.
Lemma root_index_perfect h t : perfect h t → root_index t + 1 = 2 ^ h.
Proof.
  destruct t as [v|l r], h as [|h]; simpl; try done. intros [Hl _].
  rewrite length_layout, (perfect_size h) by done. lia.
Qed.
Lemma root_index_le h t : canonical t → size t ≤ 2 ^ h → root_index t + 1 ≤ 2 ^ h.
Proof.
  destruct t as [v|l r]; simpl; [intros; apply pow_pos|]. intros [(g & Hl & _) _] Hs.
  rewrite length_layout, (perfect_size g) in * by done. pose proof (size_pos r).
  assert (g < h) by (apply pow_lt_cancel; lia).
  pose proof (pow_le_mono (S g) h). simpl in *. lia.
Qed.

(** Same leaves, same tree. *)
Lemma canonical_unique t t' : canonical t → canonical t' → leaves t = leaves t' → t = t'.
Proof.
  revert t'. induction t as [v|l IHl r IHr]; intros t' Hc Hc' E.
  - destruct t' as [v'|l' r']; simpl in *; [congruence|].
    apply (f_equal length) in E. rewrite length_app, !length_leaves in E. simpl in E.
    pose proof (size_pos l'); pose proof (size_pos r'); lia.
  - destruct t' as [v'|l' r']; simpl in *.
    { apply (f_equal length) in E. rewrite length_app, !length_leaves in E. simpl in E.
      pose proof (size_pos l); pose proof (size_pos r); lia. }
    destruct Hc as [(g & Hl & Hr) Hc], Hc' as [(g' & Hl' & Hr') Hc'].
    pose proof (f_equal length E) as E2. rewrite !length_app, !length_leaves in E2.
    pose proof (perfect_size _ _ Hl) as S1; pose proof (perfect_size _ _ Hl') as S2.
    pose proof (size_pos r); pose proof (size_pos r').
    assert (g = g') as <-.
    { destruct (Nat.lt_trichotomy g g') as [Hg|[?|Hg]]; [|done|];
        apply (pow_le_mono (S _)) in Hg; simpl in Hg; lia. }
    apply app_inj_1 in E as [E3 E4]; [|by rewrite !length_leaves, S1, S2].
    f_equal; [apply IHl|apply IHr]; eauto using perfect_canonical.
Qed.

(** [root] reads the hash of the whole tree, when there are two leaves or more. *)
Lemma root_position t : canonical t → 2 ≤ size t →
  next_power_of_two (length (layout t)) / 2 = root_index t + 1.
Proof.
  destruct t as [v|l r]; [simpl; lia|]. intros [(h & Hl & Hr) _] _. cbn [layout root_index].
  pose proof (length_layout l) as E1; pose proof (length_layout r) as E2.
  rewrite (perfect_size h l) in * by done. pose proof (size_pos r).
  rewrite length_app; cbn [length]. unfold next_power_of_two.
  rewrite (Nat.log2_up_unique _ (S (S h))) by (simpl; lia).
  rewrite (Nat.pow_succ_r' 2 (S h)), Nat.mul_comm, Nat.div_mul by lia.
  simpl. lia.
Qed.
End shape.

(** Between two pushes the vector is a forest of perfect trees, the smallest last, each with the
    slot of the node that will join it to what follows. *)
Section push.
Context {T : Type} `{MerkleHash T}.
Local Open Scope nat_scope.
Implicit Types (t l r : mtree T) (h i n : nat) (f : list (mtree T * T)).

Fixpoint flat f : list T :=
  match f with [] => [] | (t, x) :: f => flat f ++ layout t ++ [x] end.
Fixpoint fsize f : nat := match f with [] => 0 | (t, _) :: f => fsize f + size t end.
Fixpoint fleaves f : list T := match f with [] => [] | (t, _) :: f => fleaves f ++ leaves t end.
Fixpoint ascending i f : Prop :=
  match f with [] => True | (t, _) :: f => ∃ h, i ≤ h ∧ perfect h t ∧ ascending (S h) f end.

Lemma length_flat f : length (flat f) = 2 * fsize f.
Proof.
  induction f as [|[t x] f IH]; simpl; [done|].
  rewrite !length_app; simpl. pose proof (length_layout t). lia.
Qed.
Lemma ascending_le i j f : j ≤ i → ascending i f → ascending j f.
Proof. destruct f as [|[t x] f]; simpl; [done|]. intros ? (h & ? & ?). exists h. split; [lia|done]. Qed.
Lemma ascending_divides i f : ascending i f → ∃ q, fsize f = q * 2 ^ i.
Proof.
  revert i. induction f as [|[t x] f IH]; intros i; simpl; [by exists 0|].
  intros (h & Hi & Hp & Ha). destruct (IH (S h) Ha) as [q ->]. rewrite (perfect_size h t) by done.
  exists ((2 * q + 1) * 2 ^ (h - i)).
  replace h with (h - i + i) at 1 2 by lia. rewrite Nat.pow_succ_r', !Nat.pow_add_r. nia.
Qed.
(* a bit of the number of leaves is set when the forest has a tree of that height *)
Lemma ascending_even i f : ascending i f →
  if Nat.even (fsize f / 2 ^ i) then ascending (S i) f
  else ∃ t x f', f = (t, x) :: f' ∧ perfect i t ∧ ascending (S i) f'.
Proof.
  pose proof (pow_pos i) as Hp0. intros Ha.
  destruct f as [|[t x] f]; [by rewrite Nat.div_small by (simpl; lia)|].
  destruct Ha as (h & Hi & Hp & Ha). simpl. destruct (decide (h = i)) as [->|Hne].
  - destruct (ascending_divides _ _ Ha) as [q ->]. rewrite (perfect_size i t) by done.
    replace (q * 2 ^ S i + 2 ^ i) with ((1 + 2 * q) * 2 ^ i) by (simpl; lia).
    rewrite Nat.div_mul, Nat.even_add_mul_2 by lia. simpl. eauto 10.
  - assert (ascending (S i) ((t, x) :: f)) as Ha' by (exists h; split; [lia|done]).
    destruct (ascending_divides _ _ Ha') as [q E]. simpl in E. rewrite E.
    replace (q * (2 ^ i + (2 ^ i + 0))) with ((0 + 2 * q) * 2 ^ i) by lia.
    by rewrite Nat.div_mul, Nat.even_add_mul_2 by lia.
Qed.
Lemma ascending_big i f : ascending i f → fsize f < 2 ^ i → f = [].
Proof.
  destruct f as [|[t x] f]; [done|]. intros (h & Hi & Hp & _). simpl.
  rewrite (perfect_size h t) by done. pose proof (pow_le_mono i h Hi). lia.
Qed.

Lemma ascending_snoc i h f l x : ascending i f → fsize f < 2 ^ h → i ≤ h → perfect h l →
  ascending i (f ++ [(l, x)]).
Proof.
  revert i. induction f as [|[t y] f IH]; intros i; simpl; [intros; by exists h|].
  intros (g & ? & Hp & Ha) Hs Hi Hl. exists g. split_and!; [done..|].
  rewrite (perfect_size g t) in Hs by done. apply IH; try done; [lia|].
  apply pow_lt_cancel. lia.
Qed.
Lemma flat_snoc f l x : flat (f ++ [(l, x)]) = layout l ++ [x] ++ flat f.
Proof.
  induction f as [|[t y] f IH]; simpl; [done|]. rewrite IH. by rewrite <-!app_assoc.
Qed.
Lemma fsize_snoc f l x : fsize (f ++ [(l, x)]) = size l + fsize f.
Proof. induction f as [|[t y] f IH]; simpl; [lia|]. rewrite IH. lia. Qed.
Lemma fleaves_snoc f l x : fleaves (f ++ [(l, x)]) = leaves l ++ fleaves f.
Proof. induction f as [|[t y] f IH]; simpl; [by rewrite app_nil_r|]. by rewrite IH, app_assoc. Qed.

Lemma tree_forest t x : canonical t →
  ∃ f, ascending 0 f ∧ layout t ++ [x] = flat f ∧ leaves t = fleaves f ∧ size t = fsize f.
Proof.
  assert (∀ h t, perfect h t → ∃ f, ascending 0 f ∧ layout t ++ [x] = flat f ∧ leaves t = fleaves f
    ∧ size t = fsize f) as Hperf.
  { intros h t' Hp. exists [(t', x)]. simpl. split_and!; [|done..]. exists h. split; [lia|done]. }
  induction t as [v|l IHl r IHr]; intros Hc; [by apply (Hperf 0)|].
  destruct Hc as [(h & Hl & Hr) Hc]. destruct (decide (size r = 2 ^ h)) as [E|Hne].
  - apply (Hperf (S h)). split; [done|by apply canonical_full].
  - destruct (IHr Hc) as (f & Ha & E1 & E2 & E3).
    exists (f ++ [(l, combine (hash l) (hash r))]). rewrite flat_snoc, fsize_snoc, fleaves_snoc.
    split_and!; [|simpl; by rewrite <-app_assoc, <-E1|simpl; congruence|simpl; congruence].
    apply (ascending_snoc 0 h); [done|lia|lia|done].
Qed.

Lemma layout_join (ns : list T) l x r :
  <[length (ns ++ layout l) := combine (hash l) (hash r)]> ((ns ++ layout l ++ [x]) ++ layout r)
  = ns ++ layout (Branch l r).
Proof.
  replace ((ns ++ layout l ++ [x]) ++ layout r) with ((ns ++ layout l) ++ x :: layout r)
    by by rewrite <-!app_assoc.
  rewrite insert_app_r_alt, Nat.sub_diag by done. simpl. by rewrite <-!app_assoc.
Qed.

(* what one turn to the left reads and writes, with [c] the slot of the joining node *)
Lemma psuh_left n i f l x t m (c := 2 * fsize f + 2 ^ S i - 1) :
  perfect i l → canonical t → size t ≤ 2 ^ i → Nat.even m = false →
  psuh_loop (S n) (flat ((l, x) :: f) ++ layout t) (c + 2 ^ i) (c + 1 + root_index t) (2 ^ i) m
  = psuh_loop n (flat f ++ layout (Branch l t)) c c (2 ^ S i) (m / 2).
Proof.
  intros Hl Hc Hs Hm. pose proof (pow_pos i) as Hp. pose proof (root_index_perfect _ _ Hl) as Rl.
  pose proof (root_index_le _ _ Hc Hs) as Rt. pose proof (length_layout l) as Ll.
  pose proof (perfect_size _ _ Hl) as Sl. pose proof (length_flat f) as Lf.
  assert (c = length (flat f ++ layout l)) as Ec by (subst c; rewrite length_app; simpl; lia).
  cbn [psuh_loop flat]. rewrite Hm. unfold sub, store.
  rewrite (proj2 (Nat.leb_le _ _)) by lia. cbn [obind]. replace (c + 2 ^ i - 2 ^ i) with c by lia.
  rewrite (proj2 (Nat.leb_le _ _)) by (subst c; simpl; lia). cbn [obind].
  replace (c - 2 ^ i) with (length (flat f) + root_index l) by (subst c; simpl; lia).
  rewrite <-!app_assoc, lookup_app_r, Nat.add_comm, Nat.add_sub by lia.
  rewrite lookup_app_l, layout_root by apply root_index_lt. cbn [unwrap obind].
  replace ((2 ^ i + c) `min` (c + 1 + root_index t)) with (length (flat f ++ layout l) + 1 + root_index t) by lia.
  rewrite app_assoc, lookup_app_r by lia.
  replace (_ - _) with (length [x] + root_index t) by (simpl; lia).
  rewrite lookup_app_r, Nat.add_comm, Nat.add_sub, layout_root by lia. cbn [unwrap obind].
  rewrite (proj2 (Nat.ltb_lt _ _)) by (rewrite length_app; simpl; lia). cbn [obind].
  pose proof (layout_join (flat f) l x t) as E. rewrite <-!app_assoc, app_assoc, <-Ec in E. rewrite E.
  f_equal. simpl. lia.
Qed.

Lemma psuh_loop_joins n i f t :
  ascending i f → canonical t → size t ≤ 2 ^ i → fsize f < 2 ^ (i + n) →
  ∃ t', psuh_loop n (flat f ++ layout t) (2 * fsize f + 2 ^ i - 1) (2 * fsize f + root_index t)
          (2 ^ i) (fsize f / 2 ^ i) = Done (layout t') ∧
    canonical t' ∧ leaves t' = fleaves f ++ leaves t.
Proof.
  revert i f t. induction n as [|n IH]; intros i f t Ha Hc Hs Hn.
  - rewrite Nat.add_0_r in Hn. rewrite (ascending_big i f) by done. by exists t.
  - pose proof (pow_pos i) as Hp. pose proof (ascending_even i f Ha) as Hev.
    replace (i + S n) with (S i + n) in Hn by lia. pose proof (Nat.pow_succ_r' 2 i) as Hpow.
    assert (∀ m, m / 2 ^ i / 2 = m / 2 ^ S i) as Hd.
    { intros m. by rewrite Nat.Div0.div_div, Hpow, Nat.mul_comm. }
    destruct (Nat.even _) eqn:He.
    + destruct (IH (S i) f t) as (t' & E & ?); [done..|lia|done|].
      exists t'. split; [|done]. rewrite <-E. cbn [psuh_loop]. rewrite He, Hd. f_equal; lia.
    + destruct Hev as (l & x & f' & -> & Hl & Ha'). pose proof (perfect_size _ _ Hl) as Sl.
      destruct (IH (S i) f' (Branch l t)) as (t' & E & Hc' & El);
        [done|split; [by exists i|done]|simpl; lia|simpl in Hn; simpl; lia|].
      exists t'. split_and!; [|done|rewrite El; simpl; by rewrite <-app_assoc]. rewrite <-E.
      assert (fsize ((l, x) :: f') / 2 ^ S i = fsize f' / 2 ^ S i) as Hq.
      { destruct (ascending_divides _ _ Ha') as [q Eq]. cbn [fsize]. rewrite Eq, Sl.
        rewrite Nat.div_mul, Nat.div_add_l, Nat.div_small by lia. lia. }
      pose proof (psuh_left n i f' l x t _ Hl Hc Hs He) as Es. cbn zeta in Es.
      rewrite Hd, Hq in Es. cbn [root_index].
      replace (2 * fsize f' + length (layout l)) with (2 * fsize f' + 2 ^ S i - 1)
        by (pose proof (length_layout l); lia).
      rewrite <-Es. f_equal; cbn [fsize]; lia.
Qed.

Lemma psuh_holds (t : MerkleTree T) (ls : list T) (m : mtree T) (v : T) : holds t m ls →
  ∃ (t' : MerkleTree T) m', psuh v t = Done t' ∧ holds t' m' (ls ++ [v]).
Proof.
  intros (Hc & <- & E). destruct (tree_forest m merkle_default Hc) as (f & Ha & E1 & E2 & E3).
  pose proof (length_layout m) as Lm. pose proof (length_flat f) as Lf. pose proof (size_pos m).
  assert (length (flat f ++ [v]) = 2 * fsize f + 1) as Ll by (rewrite length_app; simpl; lia).
  destruct (psuh_loop_joins (Nat.log2 (length (flat f ++ [v]))) 0 f (Leaf v)) as (t' & Ep & Hc' & El);
    [done|done|simpl; lia|rewrite Ll|].
  { pose proof (Nat.log2_spec (2 * fsize f + 1)) as [_ Hlog]; [lia|]. simpl in *. lia. }
  exists {| nodes := layout t' |}, t'. split; [|split_and!; [done|by rewrite El, E2|done]].
  unfold psuh. rewrite E. change (layout m ++ [merkle_default; v]) with (layout m ++ [merkle_default] ++ [v]).
  rewrite app_assoc, E1. unfold sub, ilog2.
  rewrite (proj2 (Nat.leb_le _ _)), (proj2 (Nat.eqb_neq _ _)) by lia. cbn [obind].
  replace (length (flat f ++ [v]) - 1) with (2 * fsize f) by lia.
  replace (length (flat f ++ [v]) / 2) with (fsize f)
    by (rewrite Ll, Nat.mul_comm, Nat.div_add_l by lia; change (1 / 2) with 0; lia).
  change (2 ^ 0) with 1 in Ep. cbn [root_index layout] in Ep.
  rewrite Nat.div_1_r, Nat.add_sub, Nat.add_0_r in Ep. by rewrite Ep.
Qed.
End push.

(** The subtree over the [b]-th block of [2^i] leaves. *)
Section proofs.
Context {T : Type} `{MerkleHash T}.
Local Open Scope nat_scope.
Implicit Types (t l r : mtree T) (h i b k n : nat).

Fixpoint block t i b : mtree T :=
  match t with
  | Leaf _ => t
  | Branch l r =>
      if size t <=? 2 ^ i then t
      else if b * 2 ^ i <? size l then block l i b else block r i (b - size l / 2 ^ i)
  end.

(* a canonical branch wider than a block is cut at a block boundary *)
Lemma branch_cut l r i : canonical (Branch l r) → 2 ^ i < size (Branch l r) →
  ∃ h, i ≤ h ∧ perfect h l ∧ size l = 2 ^ (h - i) * 2 ^ i ∧ canonical l ∧ canonical r ∧
    size r ≤ 2 ^ h ∧ size l / 2 ^ i = 2 ^ (h - i).
Proof.
  simpl. intros [(h & Hl & Hr) Hc] Hi. pose proof (perfect_size _ _ Hl) as Sl. pose proof (pow_pos i).
  assert (i < S h) by (apply pow_lt_cancel; simpl; lia).
  assert (size l = 2 ^ (h - i) * 2 ^ i) as E by (rewrite <-Nat.pow_add_r, Sl; f_equal; lia).
  exists h. split_and!; try done; [lia|by eapply perfect_canonical|]. by rewrite E, Nat.div_mul by lia.
Qed.

Lemma block_spec t i b : canonical t → b * 2 ^ i < size t →
  canonical (block t i b) ∧ size (block t i b) = 2 ^ i `min` (size t - b * 2 ^ i) ∧
  layout t !! (2 * b * 2 ^ i + root_index (block t i b)) = Some (hash (block t i b)) ∧
  (∀ k, b * 2 ^ i ≤ k → k < size t → k < (b + 1) * 2 ^ i →
    leaves t !! k = leaves (block t i b) !! (k - b * 2 ^ i)).
Proof.
  revert b. induction t as [v|l IHl r IHr]; intros b Hc Hb; pose proof (pow_pos i) as Hp.
  { simpl in *. assert (b = 0) as -> by nia. simpl. split_and!; [done|lia|done|].
    intros k _ Hk _. by assert (k = 0) as -> by lia. }
  cbn [block]. destruct (Nat.leb_spec (size (Branch l r)) (2 ^ i)) as [Hle|Hgt].
  { assert (b = 0) as -> by nia. rewrite Nat.mul_0_r, Nat.mul_0_l, Nat.sub_0_r.
    split_and!; [done|lia|apply layout_root|]. intros. by rewrite Nat.sub_0_r. }
  destruct (branch_cut l r i Hc Hgt) as (h & Hi & Hl & El & Hcl & Hcr & Hr & Hq).
  destruct (Nat.ltb_spec (b * 2 ^ i) (size l)) as [Hlt|Hge].
  - destruct (IHl b Hcl Hlt) as (C1 & C2 & C3 & C4).
    rewrite El in Hlt. apply Nat.mul_lt_mono_pos_r in Hlt; [|lia].
    assert ((b + 1) * 2 ^ i ≤ size l) as Hfit by (rewrite El; apply Nat.mul_le_mono_r; lia).
    split_and!; [done|cbn [size]; lia| |].
    + cbn [layout]. rewrite lookup_app_l by (apply lookup_lt_is_Some; eauto). done.
    + intros k ? _ ?. cbn [leaves]. rewrite lookup_app_l by (rewrite length_leaves; lia).
      apply C4; lia.
  - rewrite Hq. set (q := 2 ^ (h - i)) in *. cbn [size] in *.
    assert (q ≤ b) as Hqb by nia.
    assert ((b - q) * 2 ^ i = b * 2 ^ i - size l) as Eb by nia.
    destruct (IHr (b - q) Hcr) as (C1 & C2 & C3 & C4); [lia|].
    split_and!; [done|lia| |].
    + cbn [layout]. rewrite (cons_middle _ (layout l)), app_assoc.
      pose proof (length_layout l) as Ll.
      rewrite lookup_app_r by (rewrite length_app; simpl; lia). rewrite <-C3. f_equal.
      rewrite length_app; simpl. lia.
    + intros k ? Hk ?. cbn [leaves]. rewrite lookup_app_r by (rewrite length_leaves; lia).
      rewrite length_leaves, C4 by nia. f_equal. lia.
Qed.

Lemma block_full t i b : canonical t → (b + 1) * 2 ^ i ≤ size t → perfect i (block t i b).
Proof.
  intros Hc Hb. pose proof (pow_pos i). destruct (block_spec t i b Hc) as (C1 & C2 & _); [lia|].
  apply canonical_full; [done|]. lia.
Qed.

Lemma block_step t i b : canonical t → 2 * b * 2 ^ i < size t →
  block t (S i) b =
    if (2 * b + 1) * 2 ^ i <? size t then Branch (block t i (2 * b)) (block t i (2 * b + 1))
    else block t i (2 * b).
Proof.
  revert b. pose proof (pow_pos i) as Hp. pose proof (Nat.pow_succ_r' 2 i) as Hpow.
  induction t as [v|l IHl r IHr]; intros b Hc Hb.
  { cbn [size] in *. assert (b = 0) as -> by nia. by rewrite (proj2 (Nat.ltb_ge _ _)) by lia. }
  cbn [block]. destruct (Nat.leb_spec (size (Branch l r)) (2 ^ i)) as [Hle|Hgt].
  { assert (b = 0) as -> by nia. rewrite (proj2 (Nat.leb_le _ _)) by lia.
    by rewrite (proj2 (Nat.ltb_ge _ _)) by lia. }
  destruct (branch_cut l r i Hc Hgt) as (h & Hi & Hl & El & Hcl & Hcr & Hr & Hq). rewrite Hq.
  pose proof (perfect_size _ _ Hl) as Sl. cbn [size] in *.
  destruct (Nat.leb_spec (size l + size r) (2 ^ S i)) as [Hle|Hgt2].
  - assert (b = 0) as -> by nia.
    assert (h = i) as -> by (assert (h < S i); [apply pow_lt_cancel; pose proof (size_pos r); lia|lia]).
    rewrite Nat.sub_diag in *. rewrite !(proj2 (Nat.ltb_lt _ _)) by lia.
    rewrite (proj2 (Nat.ltb_ge _ _)) by lia. f_equal; simpl.
    + destruct l as [|l1 l2]; [done|]. cbn [block]. by rewrite (proj2 (Nat.leb_le _ _)) by lia.
    + destruct r as [|r1 r2]; [done|]. cbn [block]. by rewrite (proj2 (Nat.leb_le _ _)) by lia.
  - assert (S i ≤ h) as Hih.
    { destruct (decide (h = i)) as [->|]; [|lia]. lia. }
    assert (2 ^ (h - i) = 2 * 2 ^ (h - S i)) as Eq2 by (rewrite <-Nat.pow_succ_r'; f_equal; lia).
    assert (size l / 2 ^ S i = 2 ^ (h - S i)) as Hq2.
    { rewrite El, Eq2, Hpow. replace (2 * 2 ^ (h - S i) * 2 ^ i) with (2 ^ (h - S i) * (2 * 2 ^ i)) by lia.
      apply Nat.div_mul. lia. }
    rewrite Hq2, Eq2. rewrite Eq2 in El. set (q := 2 ^ (h - S i)) in *.
    destruct (Nat.ltb_spec (b * 2 ^ S i) (size l)) as [Hlt|Hge].
    + assert (b < q) by (apply (Nat.mul_lt_mono_pos_r (2 ^ S i)); lia).
      assert ((2 * b + 1) * 2 ^ i < 2 * q * 2 ^ i) by (apply Nat.mul_lt_mono_pos_r; lia).
      rewrite IHl by (done || lia). by rewrite !(proj2 (Nat.ltb_lt _ _)) by lia.
    + rewrite !(proj2 (Nat.ltb_ge _ (size l))) by nia.
      assert (q ≤ b) by (apply (Nat.mul_le_mono_pos_r _ _ (2 ^ S i)); lia). rewrite IHr by (done || nia).
      replace (2 * (b - q)) with (2 * b - 2 * q) by lia.
      replace (2 * b - 2 * q + 1) with (2 * b + 1 - 2 * q) by lia.
      replace ((2 * b + 1 - 2 * q) * 2 ^ i <? size r) with ((2 * b + 1) * 2 ^ i <? size l + size r); [done|].
      destruct (Nat.ltb_spec ((2 * b + 1) * 2 ^ i) (size l + size r)) as [?|?]; symmetry;
        [apply Nat.ltb_lt|apply Nat.ltb_ge]; nia.
Qed.

(** The proof iterator at height [i] over the leaf [k], with [f] rounds left. *)
Definition node_at i b : nat := 2 * b * 2 ^ i + 2 ^ i - 1.
Definition level (m : mtree T) (k i f : nat) : ProofIter :=
  let c := (size m - 1) / 2 ^ i in
  {| clamp_cursor := node_at i c; p_clamp := 2 * c * 2 ^ i + root_index (block m i c); clamp_mask := c;
     p_cursor := node_at i (k / 2 ^ i); p_width := 2 ^ i; p_direction := k / 2 ^ i; p_fuel := f |}.
Definition sibling (m : mtree T) (i b : nat) : option (side * T) :=
  if Nat.even b then
    if (b + 1) * 2 ^ i <? size m then Some (R, hash (block m i (b + 1))) else None
  else Some (L, hash (block m i (b - 1))).

Lemma even_twice b : if Nat.even b then b = 2 * (b / 2) else b = 2 * (b / 2) + 1.
Proof.
  pose proof (Nat.div_mod_eq b 2). pose proof (Nat.mod_upper_bound b 2).
  destruct (Nat.even b) eqn:E.
  - apply Nat.even_spec in E as [q ->]. rewrite Nat.mul_comm, Nat.div_mul by lia. lia.
  - assert (Nat.odd b = true) as E' by (unfold Nat.odd; by rewrite E).
    apply Nat.odd_spec in E' as [q ->].
    rewrite Nat.mul_comm, Nat.div_add_l by lia. change (1 / 2) with 0. lia.
Qed.
Lemma div_pow_succ m i : m / 2 ^ S i = m / 2 ^ i / 2.
Proof. by rewrite Nat.Div0.div_div, Nat.pow_succ_r', Nat.mul_comm. Qed.
Lemma node_parent i b :
  node_at (S i) (b / 2) = if Nat.even b then node_at i b + 2 ^ i else node_at i b - 2 ^ i.
Proof.
  unfold node_at. pose proof (pow_pos i). rewrite Nat.pow_succ_r'. pose proof (even_twice b) as E.
  destruct (Nat.even b); rewrite E at 2; nia.
Qed.

Lemma lookup_full m i b : canonical m → (b + 1) * 2 ^ i ≤ size m →
  layout m !! node_at i b = Some (hash (block m i b)).
Proof.
  intros Hc Hb. pose proof (pow_pos i). destruct (block_spec m i b Hc) as (_ & _ & E & _); [lia|].
  pose proof (root_index_perfect _ _ (block_full m i b Hc Hb)) as Hr. rewrite <-E. f_equal.
  unfold node_at. lia.
Qed.

(* the block of the last leaf, and its parent *)
Lemma last_block_parent m i c : canonical m → c * 2 ^ i < size m → size m ≤ (c + 1) * 2 ^ i →
  if Nat.even c then block m (S i) (c / 2) = block m i c
  else root_index (block m (S i) (c / 2)) + 1 = 2 ^ S i.
Proof.
  intros Hc Hc1 Hc2. pose proof (even_twice c) as Ec. destruct (Nat.even c) eqn:Hev.
  - rewrite block_step by (done || by rewrite <-Ec). rewrite <-!Ec.
    by rewrite (proj2 (Nat.ltb_ge _ _)) by lia.
  - rewrite block_step by (done || nia). rewrite <-Ec, (proj2 (Nat.ltb_lt _ _)) by lia. cbn [root_index].
    rewrite length_layout, (perfect_size i) by (apply block_full; [done|nia]). by rewrite Nat.pow_succ_r'.
Qed.

(* what a round reads, with [c] the block of the last leaf *)
Lemma sibling_read m i b c (opp := if Nat.even b then node_at i (b + 1) else node_at i (b - 1)) :
  canonical m → c * 2 ^ i < size m → size m ≤ (c + 1) * 2 ^ i → b ≤ c →
  if Nat.even c then layout m !! opp = snd <$> sibling m i b
  else is_Some (sibling m i b) ∧
    layout m !! (opp `min` (2 * c * 2 ^ i + root_index (block m i c))) = snd <$> sibling m i b.
Proof.
  intros Hc Hc1 Hc2 Hbc. pose proof (pow_pos i) as Hp. pose proof (length_layout m) as Lm.
  destruct (block_spec m i c Hc Hc1) as (Cc & Sc & Ec & _).
  pose proof (root_index_le i _ Cc ltac:(lia)) as Rc.
  pose proof (even_twice b) as Eb. pose proof (even_twice c) as Ecc.
  assert (∀ a, a < c → (a + 1) * 2 ^ i ≤ size m ∧ node_at i a < 2 * c * 2 ^ i) as Hfull.
  { intros a Ha. assert ((a + 1) * 2 ^ i ≤ c * 2 ^ i) by (apply Nat.mul_le_mono_r; lia).
    unfold node_at. lia. }
  unfold sibling, opp. destruct (Nat.even b) eqn:Hb.
  - destruct (Nat.even c) eqn:Hev.
    + destruct (decide (b = c)) as [->|Hne].
      * rewrite (proj2 (Nat.ltb_ge _ _)) by done. apply lookup_ge_None. unfold node_at. lia.
      * destruct (Hfull (b + 1)) as [F1 _]; [lia|].
        rewrite (proj2 (Nat.ltb_lt _ _)) by lia. by apply lookup_full.
    + destruct (decide (b + 1 = c)) as [->|Hne].
      * rewrite (proj2 (Nat.ltb_lt _ _)) by done. split; [done|].
        rewrite Nat.min_r by (unfold node_at; lia). done.
      * destruct (Hfull (b + 1)) as [F1 F2]; [lia|]. rewrite (proj2 (Nat.ltb_lt _ _)) by lia.
        split; [done|]. rewrite Nat.min_l by lia. by apply lookup_full.
  - destruct (Hfull (b - 1)) as [F1 F2]; [lia|].
    destruct (Nat.even c); [by apply lookup_full|]. split; [done|].
    rewrite Nat.min_l by lia. by apply lookup_full.
Qed.

Lemma proof_step_level m k i f f' : canonical m → k < size m →
  proof_step (layout m) f (level m k i f') = Done (snd <$> sibling m i (k / 2 ^ i), level m k (S i) f).
Proof.
  intros Hc Hk. pose proof (pow_pos i) as Hp.
  unfold proof_step, level. cbn -[Nat.div Nat.mul Nat.pow].
  rewrite !div_pow_succ, !node_parent. set (c := (size m - 1) / 2 ^ i). set (b := k / 2 ^ i).
  assert (c * 2 ^ i < size m ∧ size m ≤ (c + 1) * 2 ^ i) as [Hc1 Hc2].
  { pose proof (Nat.div_mod_eq (size m - 1) (2 ^ i)) as E.
    pose proof (Nat.mod_upper_bound (size m - 1) (2 ^ i)). fold c in E. nia. }
  pose proof (sibling_read m i b c Hc Hc1 Hc2 ltac:(apply Nat.Div0.div_le_mono; lia)) as Hread.
  pose proof (last_block_parent m i c Hc Hc1 Hc2) as Hpar.
  pose proof (even_twice b) as Eb. pose proof (even_twice c) as Ecc.
  assert (∀ a, node_at i (a + 1) = node_at i a + 2 ^ i + 2 ^ i) as Hn by (intros; unfold node_at; nia).
  replace (2 ^ i * 2) with (2 ^ S i) by (rewrite Nat.pow_succ_r'; lia).
  assert ((if Nat.even b then Done (node_at i b + 2 ^ i, node_at i b + 2 ^ i + 2 ^ i)
     else try! c := sub (node_at i b) (2 ^ i) in try! o := sub c (2 ^ i) in Done (c, o)) =
    Done (if Nat.even b then node_at i b + 2 ^ i else node_at i b - 2 ^ i,
          if Nat.even b then node_at i (b + 1) else node_at i (b - 1))) as ->.
  { destruct (Nat.even b); [by rewrite Hn|]. pose proof (Hn (b - 1)) as Hb.
    replace (b - 1 + 1) with b in Hb by lia. unfold sub.
    rewrite (proj2 (Nat.leb_le _ _)) by lia. cbn [obind]. rewrite (proj2 (Nat.leb_le _ _)) by lia.
    cbn [obind]. do 2 f_equal. lia. }
  cbn [obind]. destruct (Nat.even c).
  - cbn [obind]. rewrite Hread, Hpar. do 3 f_equal. rewrite Nat.pow_succ_r'. nia.
  - destruct Hread as [[x Hx] Hread]. rewrite Hread, Hx. unfold sub.
    rewrite (proj2 (Nat.leb_le _ _)) by (unfold node_at; nia). cbn [obind unwrap fmap option_fmap option_map].
    do 3 f_equal. rewrite Nat.pow_succ_r' in *. unfold node_at. nia.
Qed.

Fixpoint sibs (m : mtree T) k i f : list (side * T) :=
  match f with
  | O => []
  | S f => option_list (sibling m i (k / 2 ^ i)) ++ sibs m k (S i) f
  end.

Lemma proof_values_level m k i f n : canonical m → k < size m → f < n →
  proof_values n (layout m) (level m k i f) = Done (map snd (sibs m k i f)).
Proof.
  intros Hc Hk. revert i n. induction f as [|f IH]; intros i [|n] Hn; try lia; [done|].
  cbn [proof_values]. unfold proof_next at 1. change (p_fuel (level m k i (S f))) with (S f).
  cbn [proof_loop]. rewrite proof_step_level by done. cbn [obind sibs].
  destruct (sibling m i (k / 2 ^ i)) as [[d v]|] eqn:E; cbn [fmap option_fmap option_map snd option_list].
  - cbn [obind option_list map snd app]. by rewrite IH by lia.
  - exact (IH (S i) (S n) ltac:(lia)).
Qed.

Lemma path_grows m k i (b := k / 2 ^ i) : canonical m → k < size m →
  path (block m (S i) (b / 2)) (k - b / 2 * 2 ^ S i)
  = path (block m i b) (k - b * 2 ^ i) ++ option_list (sibling m i b).
Proof.
  intros Hc Hk. pose proof (pow_pos i) as Hp. pose proof (even_twice b) as Eb.
  assert (b * 2 ^ i ≤ k ∧ k < (b + 1) * 2 ^ i) as [Hb1 Hb2].
  { pose proof (Nat.div_mod_eq k (2 ^ i)) as E. pose proof (Nat.mod_upper_bound k (2 ^ i)).
    fold b in E. nia. }
  rewrite Nat.pow_succ_r'. unfold sibling. destruct (Nat.even b).
  - rewrite block_step, <-Eb by (done || nia). replace (b / 2 * (2 * 2 ^ i)) with (b * 2 ^ i) by nia.
    destruct (_ <? _) eqn:Hlt; cbn [option_list]; [|by rewrite app_nil_r]. apply Nat.ltb_lt in Hlt.
    cbn [path]. rewrite (perfect_size i (block m i b)) by (by apply block_full; [|lia]).
    by rewrite (proj2 (Nat.ltb_lt _ _)) by lia.
  - rewrite block_step, <-Eb by (done || nia). rewrite (proj2 (Nat.ltb_lt _ _)) by lia.
    replace (2 * (b / 2)) with (b - 1) by lia. cbn [path].
    rewrite (perfect_size i (block m i (b - 1))) by (apply block_full; [done|]; replace (b - 1 + 1) with b by lia; lia).
    rewrite (proj2 (Nat.ltb_ge _ _)) by nia. cbn [option_list]. f_equal. f_equal. nia.
Qed.

Lemma path_sibs m k i f : canonical m → k < size m →
  path (block m (i + f) (k / 2 ^ (i + f))) (k - k / 2 ^ (i + f) * 2 ^ (i + f))
  = path (block m i (k / 2 ^ i)) (k - k / 2 ^ i * 2 ^ i) ++ sibs m k i f.
Proof.
  intros Hc Hk. revert i. induction f as [|f IH]; intros i; [by rewrite Nat.add_0_r, app_nil_r|].
  cbn [sibs]. rewrite app_assoc, <-path_grows, <-div_pow_succ, <-IH by done.
  by replace (i + S f) with (S i + f) by lia.
Qed.

Lemma proof_collect_path (t : MerkleTree T) m (ls : list T) k : holds t m ls → k < length ls →
  proof_collect t (2 * k) = Done (map snd (path m k)).
Proof.
  intros (Hc & <- & E). rewrite length_leaves. intros Hk. pose proof (length_layout m) as Lm.
  unfold proof_collect, proof, sub, ilog2. rewrite E.
  rewrite (proj2 (Nat.leb_le _ _)), (proj2 (Nat.eqb_neq _ _)) by lia. cbn [obind].
  set (f := Nat.log2 (length (layout m))).
  assert (∀ a, (2 * a + 1) / 2 = a) as Hhalf.
  { intros a. rewrite Nat.mul_comm, Nat.div_add_l by lia. change (1 / 2) with 0. lia. }
  assert (size (block m 0 (size m - 1)) = 1) as Hlast.
  { destruct (block_spec m 0 (size m - 1) Hc) as (_ & Hs & _); change (2 ^ 0) with 1 in *; lia. }
  assert (size (block m 0 k) = 1) as Hown.
  { destruct (block_spec m 0 k Hc) as (_ & Hs & _); change (2 ^ 0) with 1 in *; lia. }
  assert (∀ t : mtree T, size t = 1 → ∃ v, t = Leaf v) as Hone.
  { intros [v|l r]; simpl; [by eauto|]. pose proof (size_pos l); pose proof (size_pos r). lia. }
  replace (Build_ProofIter _ _ _ _ _ _ _) with (level m k 0 f).
  2: { unfold level, node_at. change (2 ^ 0) with 1. rewrite !Nat.div_1_r.
       destruct (Hone _ Hlast) as [v ->]. cbn [root_index].
       replace (length (layout m)) with (2 * (size m - 1) + 1) by lia. rewrite !Hhalf.
       f_equal; lia. }
  rewrite proof_values_level by (done || (simpl; lia)). do 2 f_equal.
  pose proof (path_sibs m k 0 f Hc Hk) as Ep. change (2 ^ 0) with 1 in Ep.
  rewrite !Nat.div_1_r in Ep. destruct (Hone _ Hown) as [v Ev]. rewrite Ev in Ep. simpl (path (Leaf v) _ ++ _) in Ep.
  rewrite <-Ep. simpl (0 + f).
  assert (size m ≤ 2 ^ f) as Hf.
  { pose proof (Nat.log2_spec (length (layout m))) as [_ Hl]; [lia|]. fold f in Hl. simpl in Hl. lia. }
  rewrite Nat.div_small, Nat.sub_0_r by lia. destruct m; simpl; [done|].
  by rewrite (proj2 (Nat.leb_le _ _)).
Qed.

(** Climbing along the audit path of a leaf gives the root. *)
Lemma path_climbs m k (v : T) : leaves m !! k = Some v → fold_left climb (path m k) v = hash m.
Proof.
  revert k. induction m as [w|l IHl r IHr]; intros k; simpl.
  { by destruct k; intros [= ->]. }
  intros Hk. destruct (Nat.ltb_spec k (size l)) as [Hlt|Hge]; rewrite fold_left_app; simpl.
  - rewrite lookup_app_l in Hk by (by rewrite length_leaves). by rewrite IHl.
  - rewrite lookup_app_r, length_leaves in Hk by (by rewrite length_leaves). by rewrite IHr.
Qed.
Lemma climb_comm (p : list (side * T)) (v : T) : (∀ a b : T, combine a b = combine b a) →
  fold_left climb p v = fold_left combine (map snd p) v.
Proof. intros Hcomm. revert v. induction p as [|[[] x] p IH]; intros v; simpl; rewrite ?IH; [done|by rewrite Hcomm|done]. Qed.

Lemma tree_root_holds (t : MerkleTree T) m (ls : list T) : holds t m ls →
  tree_root t = if length ls =? 1 then Panic else Done (hash m).
Proof.
  intros (Hc & <- & E). rewrite length_leaves. unfold tree_root, sub. rewrite E.
  pose proof (size_pos m). destruct (Nat.eqb_spec (size m) 1) as [E1|Hne].
  - destruct m as [v|l r]; simpl in E1; [done|]. pose proof (size_pos l); pose proof (size_pos r). lia.
  - rewrite root_position by (done || lia). rewrite (proj2 (Nat.leb_le _ _)) by lia. cbn [obind].
    by rewrite Nat.add_sub, layout_root.
Qed.
End proofs.

(** [from_base]: a power of two of leaves gives the perfect tree, any other number panics. *)
Section base.
Context {T : Type} `{MerkleHash T}.
Local Open Scope nat_scope.

Lemma length_intersperse (sep : T) l : length (intersperse sep l) = 2 * length l - 1.
Proof.
  induction l as [|x [|y l] IH]; [done|done|]. cbn [intersperse length] in *. rewrite IH. lia.
Qed.
Lemma intersperse_app (sep : T) l k : l ≠ [] → k ≠ [] →
  intersperse sep (l ++ k) = intersperse sep l ++ sep :: intersperse sep k.
Proof.
  intros Hl Hk. induction l as [|x [|y l] IH]; [done|by destruct k|].
  cbn [intersperse app] in *. by rewrite IH.
Qed.

(* the fuel is never the reason *)
Lemma comute_recur_total fuel (ns : list T) : length ns < fuel → ∃ o, comute_recur fuel ns = Some o.
Proof.
  revert ns. induction fuel as [|fuel IH]; intros ns Hf; [lia|]. cbn [comute_recur].
  destruct ns as [|x [|y ns]]; [by eexists|by eexists|]. set (l := x :: y :: ns) in *.
  assert (length l / 2 < length l) by (apply Nat.div_lt; [simpl|]; lia).
  destruct (drop (length l / 2) l) as [|z rest] eqn:E; [by eexists|].
  apply (f_equal length) in E. rewrite length_drop in E. cbn [length] in E.
  destruct (IH (take (length l / 2) l)) as [[[]|] ->]; [rewrite length_take; lia| |by eexists].
  destruct (IH rest) as [[[]|] ->]; [lia|by eexists..].
Qed.

Lemma comute_recur_perfect h fuel (base : list T) : length base = 2 ^ h → 2 * 2 ^ h - 1 < fuel →
  ∃ m, perfect h m ∧ leaves m = base ∧
    comute_recur fuel (intersperse merkle_default base) = Some (Done (layout m, hash m)).
Proof.
  revert fuel base. induction h as [|h IH]; intros fuel base Hl Hf; destruct fuel as [|fuel]; try lia.
  - destruct base as [|v [|]]; try done. by exists (Leaf v).
  - pose proof (pow_pos h) as Hp. rewrite Nat.pow_succ_r' in *.
    rewrite <-(take_drop (2 ^ h) base).
    assert (length (take (2 ^ h) base) = 2 ^ h) as L1 by (rewrite length_take; lia).
    assert (length (drop (2 ^ h) base) = 2 ^ h) as L2 by (rewrite length_drop; lia).
    destruct (IH fuel (take (2 ^ h) base)) as (l & Hl1 & El & Cl); [done|lia|].
    destruct (IH fuel (drop (2 ^ h) base)) as (r & Hr1 & Er & Cr); [done|lia|].
    exists (Branch l r). split_and!; [done|simpl; by rewrite El, Er|].
    rewrite intersperse_app by (intros E; rewrite E in *; cbn [length] in *; lia).
    set (a := intersperse _ (take _ _)) in *. set (b := intersperse _ (drop _ _)) in *.
    assert (length a = 2 * 2 ^ h - 1) as La by (unfold a; rewrite length_intersperse; lia).
    assert (length b = 2 * 2 ^ h - 1) as Lb by (unfold b; rewrite length_intersperse; lia).
    assert (length (a ++ merkle_default :: b) / 2 = length a) as Hmid.
    { rewrite length_app; cbn [length]. rewrite La, Lb.
      replace (_ + _) with (1 + (2 * 2 ^ h - 1) * 2) by lia. rewrite Nat.div_add by lia. change (1 / 2) with 0. lia. }
    cbn [comute_recur].
    destruct (a ++ merkle_default :: b) as [|x [|y ns]] eqn:E.
    { by apply (f_equal length) in E; rewrite length_app in E; simpl in E; lia. }
    { by apply (f_equal length) in E; rewrite length_app in E; simpl in E; lia. }
    rewrite <-E in *. rewrite Hmid, drop_app_length, take_app_length. by rewrite Cl, Cr.
Qed.

Lemma comute_recur_length fuel (ns ns' : list T) v : comute_recur fuel ns = Some (Done (ns', v)) →
  ∃ h, length ns + 1 = 2 ^ S h.
Proof.
  revert ns ns' v. induction fuel as [|fuel IH]; intros ns ns' v; [done|]. cbn [comute_recur].
  destruct ns as [|x [|y ns]]; [done|by exists 0|]. set (l := x :: y :: ns).
  destruct (drop (length l / 2) l) as [|z rest] eqn:E; [done|].
  destruct (comute_recur fuel (take _ l)) as [[[ls lv]|]|] eqn:E1; [|done..].
  destruct (comute_recur fuel rest) as [[[rs rv]|]|] eqn:E2; [|done..]. intros _.
  destruct (IH _ _ _ E1) as [h Hh]. destruct (IH _ _ _ E2) as [g Hg].
  apply (f_equal length) in E. rewrite length_drop in E. cbn [length] in E. rewrite length_take in Hh.
  pose proof (Nat.div_mod_eq (length l) 2). pose proof (Nat.mod_upper_bound (length l) 2).
  rewrite Nat.pow_succ_r' in *. exists (S h). rewrite !Nat.pow_succ_r'.
  assert (length l = length l / 2 + S (length rest)) by lia.
  assert (h = g) as <-; [|lia].
  destruct (Nat.lt_trichotomy h g) as [Hgt|[?|Hgt]]; [|done|];
    apply (pow_le_mono (S _)) in Hgt; rewrite Nat.pow_succ_r' in Hgt; pose proof (pow_pos h); pose proof (pow_pos g); lia.
Qed.

Lemma intersperse_pow base h : length (intersperse (merkle_default : T) base) + 1 = 2 ^ S h →
  length base = 2 ^ h.
Proof. rewrite length_intersperse, Nat.pow_succ_r'. pose proof (pow_pos h). lia. Qed.
End base.

Fixpoint psuh_all {T} `{MerkleHash T} (vs : list T) (t : MerkleTree T) : outcome (MerkleTree T) :=
  match vs with
  | [] => Done t
  | v :: vs => try! t := psuh v t in psuh_all vs t
  end.

Lemma psuh_all_holds {T} `{MerkleHash T} (vs ls : list T) (t : MerkleTree T) m : holds t m ls →
  ∃ t' m', psuh_all vs t = Done t' ∧ holds t' m' (ls ++ vs).
Proof.
  revert t m ls. induction vs as [|v vs IH]; intros t m ls Hh; [exists t, m; by rewrite app_nil_r|].
  destruct (psuh_holds t ls m v Hh) as (t1 & m1 & E & H1). destruct (IH _ _ _ H1) as (t2 & m2 & E2 & H2).
  exists t2, m2. rewrite <-app_assoc in H2. split; [|done]. simpl. by rewrite E.
Qed.
Lemma psuh_all_new {T} `{MerkleHash T} (x : T) (vs : list T) :
  ∃ t m, psuh_all vs (tree_new x) = Done t ∧ holds t m (x :: vs).
Proof. by apply (psuh_all_holds vs [x] (tree_new x) (Leaf x)). Qed.

(** C36: Pushes never panic. After any of them the vector is the in-order layout of the one binary
    tree over the pushed leaves whose left branches are perfect, so [root] is the hash of that
    tree; on a tree of a single leaf, though, [root] panics. *)
Theorem merkle_tree_correct {T} `{MerkleHash T} (x : T) (vs : list T) :
  ∃ t m, psuh_all vs (tree_new x) = Done t ∧
    canonical m ∧ leaves m = x :: vs ∧ (∀ m', canonical m' → leaves m' = x :: vs → m' = m) ∧
    nodes t = layout m ∧ tree_root t = match vs with [] => Panic | _ => Done (hash m) end.
Proof.
  destruct (psuh_all_new x vs) as (t & m & E & Hh). exists t, m.
  rewrite (tree_root_holds _ _ _ Hh). destruct Hh as (Hc & Hl & Hn).
  split_and!; try done; [|by destruct vs].
  intros m' Hc' Hl'. apply canonical_unique; [done..|congruence].
Qed.

(** C37: The proof of any leaf of a tree of two or more is its audit path: climbing it from the
    leaf, with the siblings on their sides, gives the root. For a commutative hash (as for the
    sums of the tests) folding the proof with [combine] does. *)
Theorem merkle_proofs_verify {T} `{MerkleHash T} (x : T) (vs : list T) (t : MerkleTree T) (k : nat) (v root : T) :
  psuh_all vs (tree_new x) = Done t → (x :: vs) !! k = Some v → tree_root t = Done root →
  ∃ m p, canonical m ∧ leaves m = x :: vs ∧ p = path m k ∧ proof_collect t (2 * k) = Done (map snd p) ∧
    fold_left climb p v = root ∧
    ((∀ a b : T, combine a b = combine b a) → fold_left combine (map snd p) v = root).
Proof.
  intros E Hk Hr. destruct (psuh_all_new x vs) as (t' & m & E' & Hh).
  rewrite E in E'. injection E' as <-. rewrite (tree_root_holds _ _ _ Hh) in Hr.
  assert (hash m = root) as <- by (destruct (_ =? 1)%nat; congruence).
  assert (k < length (x :: vs))%nat by (apply lookup_lt_is_Some; eauto).
  pose proof (proof_collect_path _ _ _ _ Hh H0) as Hp. destruct Hh as (Hc & Hl & Hn).
  assert (fold_left climb (path m k) v = hash m) as Hclimb by (apply path_climbs; by rewrite Hl).
  exists m, (path m k). split_and!; try done. intros Hcomm. by rewrite <-climb_comm.
Qed.

(** Building from a base succeeds exactly when its length is a power of two, with the tree that
    pushes give; every other base, the empty one too, panics. *)
Theorem from_base_power_of_two {T} `{MerkleHash T} (base : list T) :
  match from_base base with
  | Done t => ∃ h x vs, length base = (2 ^ h)%nat ∧ base = x :: vs ∧ psuh_all vs (tree_new x) = Done t
  | Panic => ¬ ∃ h, length base = (2 ^ h)%nat
  end.
Proof.
  unfold from_base. set (ns := intersperse merkle_default base).
  destruct (comute_recur_total (S (length ns)) ns) as [o E]; [lia|]. rewrite E. destruct o as [[ns' v]|].
  - destruct (comute_recur_length _ _ _ _ E) as [h Hh]. apply intersperse_pow in Hh.
    destruct (comute_recur_perfect h (S (length ns)) base) as (m & Hm & El & Er);
      [done|unfold ns; rewrite length_intersperse; lia|].
    fold ns in Er. rewrite E in Er. injection Er as -> ->.
    destruct base as [|x vs]; [pose proof (pow_pos h); simpl in Hh; lia|].
    destruct (psuh_all_new x vs) as (t & m' & Et & Hc & Hl & Hn).
    exists h, x, vs. split_and!; [done..|]. rewrite Et. f_equal. destruct t as [ns']. simpl in Hn.
    f_equal. rewrite Hn. f_equal. apply canonical_unique; [done|by eapply perfect_canonical|congruence].
  - intros [h Hh]. destruct (comute_recur_perfect h (S (length ns)) base) as (m & _ & _ & Er);
      [done|unfold ns; rewrite length_intersperse; lia|]. fold ns in Er. congruence.
Qed.

(** Witness: six leaves under a hash that is not commutative. *)
#[local] Instance demo_hash : MerkleHash Z := {| combine := λ a b, 10 * a + b + 1; merkle_default := 0 |}.

Lemma merkle_proofs_verify_witness : ∃ t p, psuh_all [2; 3; 4; 5; 6] (tree_new 1) = Done t ∧
  proof_collect t 6 = Done (map snd p) ∧ map snd p = [3; 13; 57] ∧ fold_left climb p 4 = 1718.
Proof.
  exists {| nodes := [1; 13; 2; 166; 3; 35; 4; 1718; 5; 57; 6] |}.
  destruct (merkle_proofs_verify 1 [2; 3; 4; 5; 6] {| nodes := [1; 13; 2; 166; 3; 35; 4; 1718; 5; 57; 6] |} 3 4 1718)
    as (m & p & _ & _ & _ & Ep & Ec & _); [reflexivity..|].
  exists p. split_and!; [reflexivity|exact Ep| |exact Ec].
  match type of Ep with ?a = _ => replace a with (Done [3; 13; 57]) in Ep by reflexivity end. congruence.
Defined.
