(* ===== verification/KyberArith.v ===== *)
(** The arithmetic under Kyber, [utils/kyber/src]: machine integers with their overflow, the
    Montgomery and Barrett reductions (mondgomery.rs, barrett.rs), multiplication in the field
    ([fqmul] of ntt.rs), and congruence modulo [Q] as a setoid.

    An operation that overflows panics, as in a build with overflow checks; that none does is
    part of the theorems. *)

From Stdlib Require Import Znumtheory.
From S2P Require Import Prelude.

(** params.rs *)
Definition N : nat := 256.
Definition Q : Z := 3329.

(* the casts [as i16] and [as i32] *)
Definition signed (w z : Z) : Z := (z + 2 ^ (w - 1)) mod 2 ^ w - 2 ^ (w - 1).
Notation i16 := (signed 16).
Notation i32 := (signed 32).
(* a result that has to be representable *)
Definition checked (lo hi z : Z) : outcome Z := if decide (lo ≤ z < hi) then Done z else Panic.
Notation c16 := (checked (-32768) 32768).
Notation c32 := (checked (-2147483648) 2147483648).
Notation cu16 := (checked 0 65536).

Definition QINV : Z := -3327.
Definition montgomery_reduce (a : Z) : outcome Z :=
  let t := i16 (i16 a * QINV) in
  try! d := c32 (a - t * Q) in Done (i16 (Z.shiftr d 16)).

Definition V : Z := i16 ((Z.shiftl 1 26 + Q / 2) / Q).
Definition barrett_reduce (a : Z) : outcome Z :=
  try! p := c32 (V * a) in
  try! s := c32 (p + Z.shiftl 1 25) in
  let t := Z.shiftr s 26 in
  try! tq := c32 (t * Q) in
  c16 (a - i16 tq).

Definition fqmul (a b : Z) : outcome Z := try! p := c32 (a * b) in montgomery_reduce p.

(** Total correctness of a computation that could panic. *)
Definition yields {A} (m : outcome A) (P : A → Prop) : Prop := ∃ x, m = Done x ∧ P x.

Lemma yields_done {A} (x : A) (P : A → Prop) : P x → yields (Done x) P.
Proof. intros. by exists x. Qed.
Lemma yields_bind {A B} (m : outcome A) (f : A → outcome B) (P : A → Prop) (R : B → Prop) :
  yields m P → (∀ x, P x → yields (f x) R) → yields (obind m f) R.
Proof. intros (x & -> & Hx) Hf. by apply Hf. Qed.
Lemma yields_mono {A} (m : outcome A) (P R : A → Prop) :
  yields m P → (∀ x, P x → R x) → yields m R.
Proof. intros (x & -> & Hx) Hf. exists x. auto. Qed.
Lemma yields_checked lo hi z (P : Z → Prop) : lo ≤ z < hi → P z → yields (checked lo hi z) P.
Proof. intros. unfold checked. rewrite decide_True by done. by exists z. Qed.
#[export] Hint Resolve yields_done : orion.

(** Elementwise computations. *)
Fixpoint each {A B} (f : A → outcome B) (l : list A) : outcome (list B) :=
  match l with
  | [] => Done []
  | x :: l => try! y := f x in try! ys := each f l in Done (y :: ys)
  end.
Fixpoint each2 {A B C} (f : A → B → outcome C) (l : list A) (k : list B) : outcome (list C) :=
  match l, k with
  | x :: l, y :: k => try! z := f x y in try! zs := each2 f l k in Done (z :: zs)
  | _, _ => Done []
  end.

Lemma yields_each {A B} (f : A → outcome B) (l : list A) (P : A → Prop) (R : A → B → Prop) :
  Forall P l → (∀ x, P x → yields (f x) (R x)) → yields (each f l) (Forall2 R l).
Proof.
  intros Hl Hf. induction Hl as [|x l Hx Hl IH]; simpl; [apply yields_done; constructor|].
  eapply yields_bind; [by apply Hf|]. intros y Hy. eapply yields_bind; [apply IH|].
  intros ys Hys. apply yields_done. by constructor.
Qed.
Lemma yields_each2 {A B C} (f : A → B → outcome C) (l : list A) (k : list B)
    (P : A → B → Prop) (R : A → B → C → Prop) :
  Forall2 P l k → (∀ x y, P x y → yields (f x y) (R x y)) →
  yields (each2 f l k) (λ zs, length zs = length l ∧
    ∀ i x y z, l !! i = Some x → k !! i = Some y → zs !! i = Some z → R x y z).
Proof.
  intros Hl Hf. induction Hl as [|x y l k Hx Hl IH]; simpl; [by apply yields_done|].
  eapply yields_bind; [by apply Hf|]. intros z Hz. eapply yields_bind; [apply IH|].
  intros zs (Hlen & Hzs). apply yields_done. split; [simpl; congruence|].
  intros [|i] x' y' z'; simpl; [congruence|apply Hzs].
Qed.

(** Congruence modulo [Q]. *)
Definition cong (a b : Z) : Prop := a mod Q = b mod Q.
Infix "≡q" := cong (at level 70, no associativity) : orion_scope.

#[export] Instance cong_dec a b : Decision (a ≡q b).
Proof. unfold cong. apply _. Defined.
#[export] Instance cong_equiv : Equivalence cong.
Proof. split; unfold cong; congruence. Qed.
#[export] Instance cong_add : Proper (cong ==> cong ==> cong) Z.add.
Proof. intros a b E c d F. unfold cong in *. rewrite (Z.add_mod a), (Z.add_mod b); by rewrite ?E, ?F. Qed.
#[export] Instance cong_mul : Proper (cong ==> cong ==> cong) Z.mul.
Proof. intros a b E c d F. unfold cong in *. rewrite (Z.mul_mod a), (Z.mul_mod b); by rewrite ?E, ?F. Qed.
#[export] Instance cong_opp : Proper (cong ==> cong) Z.opp.
Proof. intros a b E. rewrite <-(Z.mul_1_l a), <-(Z.mul_1_l b), <-!Z.mul_opp_l. by apply cong_mul. Qed.
#[export] Instance cong_sub : Proper (cong ==> cong ==> cong) Z.sub.
Proof. intros a b E c d F. rewrite <-!Z.add_opp_r. apply cong_add, cong_opp; done. Qed.
#[global] Typeclasses Opaque cong.

Lemma cong_divide a b : a ≡q b ↔ (Q | a - b).
Proof.
  unfold cong. split.
  - intros E. apply Z.mod_divide; [done|]. by rewrite Zminus_mod, E, Z.sub_diag.
  - intros [k E]. replace a with (b + k * Q) by lia. apply Z.mod_add. done.
Qed.
Lemma cong_mod a : a mod Q ≡q a.
Proof. unfold cong. by rewrite Z.mod_mod. Qed.
Lemma cong_add_mul a k : a + k * Q ≡q a.
Proof. by apply Z.mod_add. Qed.
Lemma cong_eq a b : a = b → a ≡q b.
Proof. by intros ->. Qed.
Lemma cong_small a b : 0 ≤ a < Q → 0 ≤ b < Q → a ≡q b → a = b.
Proof. unfold cong. intros ?? E. by rewrite !Z.mod_small in E. Qed.

(* Montgomery's radix and its inverse *)
Definition radix : Z := 65536.
Definition radix_inv : Z := 169.
Lemma radix_cancel : radix * radix_inv ≡q 1.
Proof. done. Qed.
Lemma radix_cancel_l a b : radix * a ≡q b → a ≡q radix_inv * b.
Proof.
  intros <-. transitivity (radix * radix_inv * a); [by rewrite radix_cancel, Z.mul_1_l|].
  by replace (radix * radix_inv * a) with (radix_inv * (radix * a)) by lia.
Qed.

Lemma signed_range w z : 0 < w → - 2 ^ (w - 1) ≤ signed w z < 2 ^ (w - 1).
Proof.
  intros. unfold signed. replace (2 ^ w) with (2 * 2 ^ (w - 1)).
  2: { rewrite <-Z.pow_succ_r by lia. f_equal. lia. }
  pose proof (Z.mod_pos_bound (z + 2 ^ (w - 1)) (2 * 2 ^ (w - 1))). lia.
Qed.
Lemma signed_eq w z : ∃ k, signed w z = z + k * 2 ^ w.
Proof.
  unfold signed. exists (- ((z + 2 ^ (w - 1)) / 2 ^ w)).
  destruct (decide (2 ^ w = 0)) as [->|]; [rewrite Zmod_0_r; lia|].
  rewrite Z.mod_eq by done. lia.
Qed.
Lemma signed_small w z : 0 < w → - 2 ^ (w - 1) ≤ z < 2 ^ (w - 1) → signed w z = z.
Proof.
  intros. unfold signed. replace (2 ^ w) with (2 * 2 ^ (w - 1)).
  2: { rewrite <-Z.pow_succ_r by lia. f_equal. lia. }
  rewrite Z.mod_small; lia.
Qed.

(** Montgomery: below [Q * 2^15] the result is the quotient by the radix, below [Q]. *)
Lemma montgomery_reduce_spec a : Z.abs a ≤ Q * 32768 →
  yields (montgomery_reduce a) (λ r, r ≡q radix_inv * a ∧ Z.abs r ≤ Q).
Proof.
  intros Ha. unfold montgomery_reduce. set (t := i16 (i16 a * QINV)).
  pose proof (signed_range 16 (i16 a * QINV) ltac:(lia)) as Ht. fold t in Ht. simpl in Ht.
  assert (∃ k, a - t * Q = k * 65536) as [k Ek].
  { destruct (signed_eq 16 a) as [i Ei]. destruct (signed_eq 16 (i16 a * QINV)) as [j Ej].
    fold t in Ej. rewrite Ei in Ej. unfold QINV, Q in *.
    (* Q * QINV = 1 - 169 * 65536 *)
    exists (169 * a - i * -3327 * 3329 - j * 3329). change (2 ^ 16) with 65536 in *. rewrite Ej. lia. }
  eapply yields_bind; [apply yields_checked with (P := λ d, d = k * 65536)|].
  { unfold Q in *. lia. }
  { done. }
  intros d ->. apply yields_done. rewrite Z.shiftr_div_pow2 by lia. change (2 ^ 16) with 65536.
  rewrite Z.div_mul by lia. rewrite signed_small; [split|simpl; unfold Q in *; lia..].
  - apply radix_cancel_l. rewrite <-(cong_add_mul (radix * k) t). replace (radix * k + t * Q) with a; [done|].
    unfold radix. lia.
  - unfold Q in *. lia.
Qed.

Lemma fqmul_spec a b : Z.abs (a * b) ≤ Q * 32768 →
  yields (fqmul a b) (λ r, r ≡q radix_inv * (a * b) ∧ Z.abs r ≤ Q).
Proof.
  intros Hab. unfold fqmul. eapply yields_bind; [apply yields_checked with (P := λ p, p = a * b)|].
  - unfold Q in *. lia.
  - done.
  - intros p ->. by apply montgomery_reduce_spec.
Qed.

(** Barrett: up to about nine and a half times [Q], the residue of least absolute value. *)
Lemma barrett_reduce_spec a : Z.abs a ≤ 31000 →
  yields (barrett_reduce a) (λ r, r ≡q a ∧ Z.abs r ≤ 1664).
Proof.
  intros Ha. unfold barrett_reduce. change V with 20159. change (Z.shiftl 1 25) with 33554432.
  eapply yields_bind; [apply yields_checked with (P := λ p, p = 20159 * a); [lia|done]|]. intros ? ->.
  eapply yields_bind; [apply yields_checked with (P := λ p, p = 20159 * a + 33554432); [lia|done]|]. intros ? ->.
  cbn zeta. rewrite Z.shiftr_div_pow2 by lia. change (2 ^ 26) with 67108864.
  set (t := (20159 * a + 33554432) / 67108864).
  assert (67108864 * t ≤ 20159 * a + 33554432 < 67108864 * t + 67108864) as Ht.
  { unfold t. pose proof (Z.div_mod (20159 * a + 33554432) 67108864 ltac:(lia)).
    pose proof (Z.mod_pos_bound (20159 * a + 33554432) 67108864 ltac:(lia)). lia. }
  unfold Q.
  eapply yields_bind; [apply yields_checked with (P := λ p, p = t * 3329); [lia|done]|]. intros ? ->.
  rewrite signed_small by (simpl; lia). apply yields_checked; [lia|]. split; [|lia].
  rewrite <-(cong_add_mul (a - t * 3329) t). by replace (a - t * 3329 + t * Q) with a by (unfold Q; lia).
Qed.
