(* ===== verification/KyberNtt.v ===== *)
(** The number theoretic transform of Kyber, [utils/kyber/src/ntt.rs]: it evaluates a polynomial
    modulo [X^256 + 1] at the 128 square roots' moduli [X^2 - g], where products are cheap.

    The transforms of the code are compared with their exact counterparts over the integers, which
    are linear; a linear map is known by its values on the basis, and those are computed. *)

From S2P Require Import Prelude KyberArith.

Definition ZETAS : list Z := [
  -1044; -758; -359; -1517; 1493; 1422; 287; 202; -171; 622; 1577; 182; 962; -1202; -1474; 1468;
  573; -1325; 264; 383; -829; 1458; -1602; -130; -681; 1017; 732; 608; -1542; 411; -205; -1571;
  1223; 652; -552; 1015; -1293; 1491; -282; -1544; 516; -8; -320; -666; -1618; -1162; 126; 1469;
  -853; -90; -271; 830; 107; -1421; -247; -951; -398; 961; -1508; -725; 448; -1065; 677; -1275;
  -1103; 430; 555; 843; -1251; 871; 1550; 105; 422; 587; 177; -235; -291; -460; 1574; 1653; -246;
  778; 1159; -147; -777; 1483; -602; 1119; -1590; 644; -872; 349; 418; 329; -156; -75; 817; 1097;
  603; 610; 1322; -1285; -1465; 384; -1215; -136; 1218; -1335; -874; 220; -1187; -1659; -1185;
  -1530; -1278; 794; -1510; -854; -870; 478; -108; -308; 996; 991; 958; -1460; 1522; 1628].

(* the two halves of a chunk, in step *)
Fixpoint butterflies (f : Z → Z → Z → outcome (Z * Z)) (zeta : Z) (ls rs : list Z) : outcome (list Z * list Z) :=
  match ls, rs with
  | l :: ls, r :: rs =>
      try! (l, r) := f zeta l r in
      try! (ls, rs) := butterflies f zeta ls rs in
      Done (l :: ls, r :: rs)
  | _, _ => Done ([], [])
  end.

(* [chunks] chunks of [2 * len]; what is lhs of the zetas *)
Fixpoint layer (f : Z → Z → Z → outcome (Z * Z)) (chunks len : nat) (zetas inout : list Z)
    : outcome (list Z * list Z) :=
  match chunks with
  | O => Done (inout, zetas)
  | S chunks =>
      match zetas with
      | [] => Panic
      | zeta :: zetas =>
          try! (lhs, rhs) := butterflies f zeta (take len inout) (take len (drop len inout)) in
          try! (rest, zetas) := layer f chunks len zetas (drop (len * 2) inout) in
          Done (lhs ++ rhs ++ rest, zetas)
      end
  end.

Fixpoint layers (f : Z → Z → Z → outcome (Z * Z)) (lens : list nat) (zetas inout : list Z)
    : outcome (list Z) :=
  match lens with
  | [] => Done inout
  | len :: lens =>
      try! (inout, zetas) := layer f (length inout / (len * 2)) len zetas inout in
      layers f lens zetas inout
  end.

Definition ntt_butterfly (zeta l r : Z) : outcome (Z * Z) :=
  try! t := fqmul zeta r in
  try! r := c16 (l - t) in
  try! l := c16 (l + t) in
  Done (l, r).

Definition ntt_lens : list nat := map (λ i, Nat.shiftl 2 i) (rev (seq 0 7)).
Definition ntt (inout : list Z) : outcome (list Z) := layers ntt_butterfly ntt_lens (drop 1 ZETAS) inout.

Definition invntt_butterfly (zeta l r : Z) : outcome (Z * Z) :=
  let t := l in
  try! s := c16 (t + r) in
  try! l := barrett_reduce s in
  try! r := c16 (r - t) in
  try! r := fqmul zeta r in
  Done (l, r).

Definition invntt_lens : list nat := map (λ i, Nat.shiftl 2 i) (seq 0 7).
Definition invntt (inout : list Z) : outcome (list Z) :=
  try! inout := layers invntt_butterfly invntt_lens (rev ZETAS) inout in
  each (λ r, fqmul r 1441) inout.

Definition basemul (a b : Z * Z) (zeta : Z) : outcome (Z * Z) :=
  try! r0 := fqmul (snd a) (snd b) in
  try! r0 := fqmul r0 zeta in
  try! t := fqmul (fst a) (fst b) in
  try! r0 := c16 (r0 + t) in
  try! r1 := fqmul (fst a) (snd b) in
  try! t := fqmul (snd a) (fst b) in
  try! r1 := c16 (r1 + t) in
  Done (r0, r1).

(** The exact transforms. *)
Section exact.
Context (g : Z → Z → Z → Z * Z).

Fixpoint plain_butterflies (zeta : Z) (ls rs : list Z) : list Z * list Z :=
  match ls, rs with
  | l :: ls, r :: rs =>
      let (l, r) := g zeta l r in let (ls, rs) := plain_butterflies zeta ls rs in (l :: ls, r :: rs)
  | _, _ => ([], [])
  end.
Fixpoint plain_layer (chunks len : nat) (zetas xs : list Z) : list Z :=
  match chunks, zetas with
  | S chunks, zeta :: zetas =>
      let (lhs, rhs) := plain_butterflies zeta (take len xs) (take len (drop len xs)) in
      lhs ++ rhs ++ plain_layer chunks len zetas (drop (len * 2) xs)
  | _, _ => xs
  end.
Fixpoint plain_layers (lens : list nat) (zetas xs : list Z) : list Z :=
  match lens with
  | [] => xs
  | len :: lens =>
      let chunks := (length xs / (len * 2))%nat in
      plain_layers lens (drop chunks zetas) (plain_layer chunks len zetas xs)
  end.
End exact.

(* with or without reduction on the way *)
Definition ntt_plain (zeta l r : Z) : Z * Z := (l + radix_inv * (zeta * r), l - radix_inv * (zeta * r)).
Definition invntt_plain (zeta l r : Z) : Z * Z := (l + r, radix_inv * (zeta * (r - l))).
Definition modq (p : Z * Z) : Z * Z := (fst p mod Q, snd p mod Q).

Definition ntt_lin (xs : list Z) : list Z := plain_layers ntt_plain ntt_lens (drop 1 ZETAS) xs.
Definition invntt_lin (xs : list Z) : list Z :=
  map (λ r, radix_inv * (r * 1441)) (plain_layers invntt_plain invntt_lens (rev ZETAS) xs).

(** Elementwise congruence and bounds. *)
Definition pcong : list Z → list Z → Prop := Forall2 cong.
Infix "≡p" := pcong (at level 70, no associativity) : orion_scope.
Definition bounded (b : Z) : list Z → Prop := Forall (λ x, Z.abs x ≤ b).

#[export] Instance pcong_equiv : Equivalence pcong.
Proof. unfold pcong. apply _. Qed.
#[export] Instance pcong_app : Proper (pcong ==> pcong ==> pcong) app.
Proof. intros ?? E ?? F. by apply Forall2_app. Qed.
#[export] Instance pcong_take n : Proper (pcong ==> pcong) (take n).
Proof. intros ?? E. by apply Forall2_take. Qed.
#[export] Instance pcong_drop n : Proper (pcong ==> pcong) (drop n).
Proof. intros ?? E. by apply Forall2_drop. Qed.
Lemma pcong_length xs ys : xs ≡p ys → length xs = length ys.
Proof. apply Forall2_length. Qed.

Lemma bounded_le b c l : b ≤ c → bounded b l → bounded c l.
Proof. intros ? Hl. eapply Forall_impl; [done|]. simpl. lia. Qed.

(** A butterfly of the code that computes the exact one, from bound [b] to bound [c]. *)
Definition computes (f : Z → Z → Z → outcome (Z * Z)) (g : Z → Z → Z → Z * Z) (b c : Z) : Prop :=
  ∀ zeta l r l' r', Z.abs zeta ≤ 1664 → Z.abs l ≤ b → Z.abs r ≤ b → l ≡q l' → r ≡q r' →
    yields (f zeta l r) (λ p, fst p ≡q fst (g zeta l' r') ∧ snd p ≡q snd (g zeta l' r') ∧
      Z.abs (fst p) ≤ c ∧ Z.abs (snd p) ≤ c).

Section computes.
Context (f : Z → Z → Z → outcome (Z * Z)) (g : Z → Z → Z → Z * Z) (b c : Z) (Hf : computes f g b c).

Lemma butterflies_computes zeta ls rs ls' rs' : Z.abs zeta ≤ 1664 →
  bounded b ls → bounded b rs → ls ≡p ls' → rs ≡p rs' →
  yields (butterflies f zeta ls rs) (λ p, fst p ≡p fst (plain_butterflies g zeta ls' rs') ∧
    snd p ≡p snd (plain_butterflies g zeta ls' rs') ∧ bounded c (fst p) ∧ bounded c (snd p)).
Proof.
  intros Hz Hl Hr El Er. revert rs rs' Hr Er.
  induction El as [|l l' ls ls' E El IH]; intros rs rs' Hr Er;
    [apply yields_done; repeat constructor|].
  destruct Er as [|r r' rs rs' E' Er]; [apply yields_done; repeat constructor|].
  apply Forall_cons in Hl as [? Hl], Hr as [? Hr]. cbn [butterflies plain_butterflies].
  eapply yields_bind; [by apply (Hf zeta l r l' r')|]. intros [l1 r1]; cbn [fst snd].
  destruct (g zeta l' r') as [l2 r2]. intros (?&?&?&?).
  eapply yields_bind; [by apply IH|]. intros [ls1 rs1]; cbn [fst snd].
  destruct (plain_butterflies g zeta ls' rs') as [ls2 rs2]. intros (?&?&?&?).
  apply yields_done. cbn [fst snd]. split_and!; by constructor.
Qed.

Lemma layer_computes chunks len zetas xs xs' : bounded 1664 zetas → (chunks ≤ length zetas)%nat →
  length xs = (chunks * (len * 2))%nat → bounded b xs → xs ≡p xs' →
  yields (layer f chunks len zetas xs) (λ p, fst p ≡p plain_layer g chunks len zetas xs' ∧
    snd p = drop chunks zetas ∧ bounded c (fst p)).
Proof.
  revert zetas xs xs'. induction chunks as [|chunks IH]; intros zetas xs xs' Hz Hn Hlen Hb E;
    cbn [layer plain_layer].
  - apply yields_done. destruct xs; [|done]. inversion E. cbn [fst snd]. split_and!; [done..|constructor].
  - destruct zetas as [|zeta zetas]; [simpl in Hn; lia|]. apply Forall_cons in Hz as [? Hz].
    eapply yields_bind.
    { apply (butterflies_computes zeta _ _ (take len xs') (take len (drop len xs'))); try done.
      - by apply Forall_take.
      - by apply Forall_take, Forall_drop.
      - by rewrite E.
      - by rewrite E. }
    intros [lhs rhs]; cbn [fst snd].
    destruct (plain_butterflies g zeta _ _) as [lhs2 rhs2]. intros (?&?&?&?).
    eapply yields_bind.
    { apply (IH zetas (drop (len * 2) xs) (drop (len * 2) xs')); try done.
      - simpl in Hn. lia.
      - rewrite length_drop. lia.
      - by apply Forall_drop.
      - by rewrite E. }
    intros [rest zs]; cbn [fst snd]. intros (E1 & E2 & E3). apply yields_done. cbn [fst snd drop].
    split_and!; [by repeat apply Forall2_app|done|by repeat apply Forall_app_2].
Qed.
End computes.

Lemma plain_butterflies_length g zeta ls rs : length ls = length rs →
  length (fst (plain_butterflies g zeta ls rs)) = length ls ∧
  length (snd (plain_butterflies g zeta ls rs)) = length ls.
Proof.
  revert rs. induction ls as [|l ls IH]; intros [|r rs]; simpl; try done. intros [= E].
  destruct (IH rs E). destruct (g zeta l r). destruct (plain_butterflies g zeta ls rs). simpl in *. lia.
Qed.
Lemma plain_layer_length g chunks len zetas xs : length xs = (chunks * (len * 2))%nat →
  length (plain_layer g chunks len zetas xs) = length xs.
Proof.
  revert zetas xs. induction chunks as [|chunks IH]; intros [|zeta zetas] xs Hlen; simpl; try done.
  destruct (plain_butterflies_length g zeta (take len xs) (take len (drop len xs))) as [L1 L2].
  { rewrite !length_take, length_drop. lia. }
  destruct (plain_butterflies _ _ _ _) as [ls rs]. simpl in *.
  rewrite !length_app, IH, L1, L2, length_take, !length_drop by (rewrite length_drop; lia). lia.
Qed.

(* the lengths of the layers, against the zetas that are left *)
Fixpoint lens_fit (lens : list nat) (zetas : nat) : Prop :=
  match lens with
  | [] => True
  | len :: lens =>
      let chunks := (256 / (len * 2))%nat in
      256%nat = (chunks * (len * 2))%nat ∧ (chunks ≤ zetas)%nat ∧ lens_fit lens (zetas - chunks)
  end.

Lemma layers_computes f g b d lens zetas xs xs' :
  (∀ i, (i < length lens)%nat → computes f g (b + Z.of_nat i * d) (b + Z.of_nat (S i) * d)) →
  bounded 1664 zetas → lens_fit lens (length zetas) → length xs = 256%nat → bounded b xs → xs ≡p xs' →
  yields (layers f lens zetas xs) (λ ys, ys ≡p plain_layers g lens zetas xs' ∧
    bounded (b + Z.of_nat (length lens) * d) ys ∧ length ys = 256%nat).
Proof.
  intros Hf Hz Hl Hlen Hb E. revert b zetas xs xs' Hf Hz Hl Hlen Hb E.
  induction lens as [|len lens IH]; intros b zetas xs xs' Hf Hz Hl Hlen Hb E; cbn [layers plain_layers].
  - apply yields_done. split_and!; [done| |done]. eapply bounded_le; [|done]. simpl. lia.
  - destruct Hl as (H1 & H2 & H3). rewrite <-(pcong_length _ _ E), Hlen.
    pose proof (pcong_length _ _ E) as Hlen'. rewrite Hlen in Hlen'.
    pose proof (Hf 0%nat ltac:(simpl; lia)) as Hf0. rewrite Z.mul_0_l, Z.add_0_r in Hf0.
    eapply yields_bind.
    { apply (layer_computes _ _ _ _ Hf0 _ _ zetas xs xs'); try done. by rewrite Hlen. }
    intros [ys zs]; cbn [fst snd]. intros (E1 & -> & Hc).
    assert (length ys = 256%nat) as Hys.
    { rewrite (pcong_length _ _ E1), plain_layer_length; [done|]. by rewrite <-Hlen'. }
    eapply yields_mono.
    { apply (IH (b + d) _ ys); try done.
      - intros i Hi. replace (b + d + Z.of_nat i * d) with (b + Z.of_nat (S i) * d) by lia.
        replace (b + d + Z.of_nat (S i) * d) with (b + Z.of_nat (S (S i)) * d) by lia.
        apply Hf. simpl. lia.
      - by apply Forall_drop.
      - by rewrite length_drop.
      - by replace (b + Z.of_nat 1 * d) with (b + d) in Hc by lia. }
    intros zs (?&?&?). split_and!; [done| |done]. eapply bounded_le; [|done]. simpl length. lia.
Qed.

Lemma ntt_butterfly_computes b : 0 ≤ b ≤ 29400 → computes ntt_butterfly ntt_plain b (b + Q).
Proof.
  intros Hb zeta l r l' r' Hz Hl Hr El Er. unfold ntt_butterfly.
  eapply yields_bind; [apply fqmul_spec; unfold Q; nia|]. intros t (Et & Ht).
  eapply yields_bind; [apply yields_checked with (P := λ x, x = l - t); [unfold Q in *; lia|done]|]. intros ? ->.
  eapply yields_bind; [apply yields_checked with (P := λ x, x = l + t); [unfold Q in *; lia|done]|]. intros ? ->.
  apply yields_done. cbn [ntt_plain fst snd]. split_and!; [by rewrite Et, El, Er..|lia|lia].
Qed.

Lemma invntt_butterfly_computes : computes invntt_butterfly invntt_plain Q Q.
Proof.
  intros zeta l r l' r' Hz Hl Hr El Er. unfold invntt_butterfly.
  eapply yields_bind; [apply yields_checked with (P := λ x, x = l + r); [unfold Q in *; lia|done]|]. intros ? ->.
  eapply yields_bind; [apply barrett_reduce_spec; unfold Q in *; lia|]. intros l1 (El1 & Hl1).
  eapply yields_bind; [apply yields_checked with (P := λ x, x = r - l); [unfold Q in *; lia|done]|]. intros ? ->.
  eapply yields_bind; [apply fqmul_spec; unfold Q in *; nia|]. intros r1 (Er1 & Hr1).
  apply yields_done. cbn [invntt_plain fst snd].
  split_and!; [by rewrite El1, El, Er|by rewrite Er1, El, Er|unfold Q; lia|done].
Qed.

Lemma Forall2_pcong_map (h : Z → Z) xs xs' ys : Proper (cong ==> cong) h →
  xs ≡p xs' → Forall2 (λ x y, y ≡q h x) xs ys → ys ≡p map h xs'.
Proof.
  intros Hh E. revert ys. induction E as [|x x' xs xs' Ex E IH]; intros ys Hy;
    inversion Hy as [|? y ? ys' Exy Hy']; subst; constructor; [|by apply IH].
  by rewrite Exy, Ex.
Qed.

Lemma zetas_bounded : bounded 1664 ZETAS.
Proof. apply (bool_decide_unpack _). vm_compute. exact I. Qed.

Lemma ntt_computes xs xs' : length xs = 256%nat → bounded 6000 xs → xs ≡p xs' →
  yields (ntt xs) (λ ys, ys ≡p ntt_lin xs' ∧ bounded 30000 ys ∧ length ys = 256%nat).
Proof.
  intros Hlen Hb E. eapply yields_mono.
  { apply (layers_computes _ ntt_plain 6000 Q); [|apply Forall_drop, zetas_bounded|by vm_compute; lia|exact Hlen|done|exact E].
    intros i Hi. replace (6000 + Z.of_nat (S i) * Q) with (6000 + Z.of_nat i * Q + Q) by lia.
    apply ntt_butterfly_computes. change (length ntt_lens) with 7%nat in Hi. unfold Q. lia. }
  intros ys (?&?&?). split_and!; [done| |done]. eapply bounded_le; [|done]. done.
Qed.

Lemma invntt_computes xs xs' : length xs = 256%nat → bounded Q xs → xs ≡p xs' →
  yields (invntt xs) (λ ys, ys ≡p invntt_lin xs' ∧ bounded Q ys ∧ length ys = 256%nat).
Proof.
  intros Hlen Hb E. unfold invntt. eapply yields_bind.
  { apply (layers_computes _ invntt_plain Q 0); [|apply Forall_rev, zetas_bounded|by vm_compute; lia|exact Hlen|done|exact E].
    intros i Hi. replace (Q + Z.of_nat i * 0) with Q by lia. replace (Q + Z.of_nat (S i) * 0) with Q by lia.
    apply invntt_butterfly_computes. }
  intros ys (E1 & Hb1 & Hlen1). replace (Q + _ * 0) with Q in Hb1 by lia.
  eapply yields_mono.
  { apply (yields_each _ ys (λ r, Z.abs r ≤ Q) (λ r t, t ≡q radix_inv * (r * 1441) ∧ Z.abs t ≤ Q) Hb1).
    intros r Hr. apply fqmul_spec. unfold Q in *. lia. }
  intros zs Hzs. split_and!.
  - eapply (Forall2_pcong_map (λ r, radix_inv * (r * 1441))); [solve_proper|exact E1|].
    eapply Forall2_impl; [exact Hzs|]. by intros ?? [? _].
  - unfold bounded. eapply Forall2_Forall_r; [exact Hzs|]. apply Forall_true. by intros ?? [_ ?].
  - by rewrite <-(Forall2_length _ _ _ Hzs).
Qed.

(** The inverse undoes the transform, layer by layer: the relation is equality up to a factor. *)
Definition scaled (c : Z) : list Z → list Z → Prop := Forall2 (λ x y, x ≡q c * y).

Section cancel.
Context (g1 g2 : Z → Z → Z → Z * Z) (inv : Z → Z → Prop).
Context (Hcancel : ∀ z1 z2 c l r x1 x2, inv z1 z2 →
  x1 ≡q c * fst (g1 z1 l r) → x2 ≡q c * snd (g1 z1 l r) →
  fst (g2 z2 x1 x2) ≡q 2 * c * l ∧ snd (g2 z2 x1 x2) ≡q 2 * c * r).

Lemma butterflies_cancel z1 z2 c ls rs xs ys : inv z1 z2 → length ls = length rs →
  scaled c xs (fst (plain_butterflies g1 z1 ls rs)) → scaled c ys (snd (plain_butterflies g1 z1 ls rs)) →
  scaled (2 * c) (fst (plain_butterflies g2 z2 xs ys)) ls ∧
  scaled (2 * c) (snd (plain_butterflies g2 z2 xs ys)) rs.
Proof.
  intros Hz. revert rs xs ys. induction ls as [|l ls IH]; intros [|r rs] xs ys; simpl; try done.
  { intros _ Hx Hy. inversion Hx; inversion Hy; subst. split; constructor. }
  intros [= E]. specialize (IH rs). destruct (g1 z1 l r) as [l' r'] eqn:Eg.
  destruct (plain_butterflies g1 z1 ls rs) as [ls' rs']. simpl in *. intros Hx Hy.
  inversion Hx as [|x0 ? xs' ? Ex Hxs]; inversion Hy as [|y0 ? ys' ? Ey Hys]; subst.
  destruct (IH xs' ys' E Hxs Hys) as [I1 I2]. simpl.
  destruct (Hcancel z1 z2 c l r x0 y0 Hz) as [C1 C2]; [by rewrite Eg..|].
  destruct (g2 z2 x0 y0). destruct (plain_butterflies g2 z2 xs' ys'). simpl in *. split; by constructor.
Qed.

Lemma scaled_app_inv c xs ls rs n : n = length ls → scaled c xs (ls ++ rs) →
  scaled c (take n xs) ls ∧ scaled c (drop n xs) rs.
Proof.
  intros -> Hs. apply Forall2_app_inv_r in Hs as (a & b & Ha & Hb & ->).
  rewrite <-(Forall2_length _ _ _ Ha), take_app_length, drop_app_length. done.
Qed.

Lemma layer_cancel chunks len zs1 zs2 c xs ys : Forall2 inv (take chunks zs1) (take chunks zs2) →
  (chunks ≤ length zs1)%nat → length ys = (chunks * (len * 2))%nat →
  scaled c xs (plain_layer g1 chunks len zs1 ys) → scaled (2 * c) (plain_layer g2 chunks len zs2 xs) ys.
Proof.
  revert zs1 zs2 xs ys. induction chunks as [|chunks IH]; intros zs1 zs2 xs ys Hz Hn Hlen.
  { destruct ys; [|done]. simpl. intros Hx. inversion Hx. constructor. }
  destruct zs1 as [|z1 zs1]; [simpl in Hn; lia|]. destruct zs2 as [|z2 zs2]; [by inversion Hz|].
  apply Forall2_cons in Hz as [Hz Hzs]. cbn [plain_layer].
  assert (∀ k : list Z, drop (len * 2) k = drop len (drop len k)) as Hd
    by (intros; rewrite drop_drop; f_equal; lia).
  rewrite !Hd. assert (length (take len ys) = len) as Ly1 by (rewrite length_take; lia).
  assert (length (take len (drop len ys)) = len) as Ly2 by (rewrite length_take, length_drop; lia).
  pose proof (butterflies_cancel z1 z2 c (take len ys) (take len (drop len ys)) (take len xs) (take len (drop len xs)) Hz) as Hb.
  destruct (plain_butterflies_length g1 z1 (take len ys) (take len (drop len ys))) as [L1 L2]; [congruence|].
  destruct (plain_butterflies g1 z1 _ _) as [ls rs]. cbn [fst snd] in *. intros Hs.
  apply (scaled_app_inv _ _ _ _ len) in Hs as [S1 Hs]; [|congruence].
  apply (scaled_app_inv _ _ _ _ len) in Hs as [S2 Hs]; [|congruence].
  destruct Hb as [B1 B2]; [congruence|done..|].
  destruct (plain_butterflies g2 z2 _ _) as [ls' rs']. cbn [fst snd] in *.
  rewrite <-(take_drop len ys). apply Forall2_app; [done|].
  rewrite <-(take_drop len (drop len ys)). apply Forall2_app; [done|].
  apply (IH zs1); try done; [simpl in Hn; lia|].
  rewrite !length_drop. simpl in Hlen. lia.
Qed.
End cancel.

(* the layers with the zetas each starts at *)
Fixpoint stages (lens : list nat) (zetas : list Z) : list (nat * list Z) :=
  match lens with
  | [] => []
  | len :: lens => (len, zetas) :: stages lens (drop (256 / (len * 2)) zetas)
  end.
Definition stage (g : Z → Z → Z → Z * Z) (xs : list Z) (st : nat * list Z) : list Z :=
  plain_layer g (256 / (st.1 * 2)) st.1 st.2 xs.
Definition stage_ok (st : nat * list Z) : Prop :=
  256%nat = (256 / (st.1 * 2) * (st.1 * 2))%nat ∧ (256 / (st.1 * 2) ≤ length st.2)%nat.

Lemma plain_layers_stages g lens zetas xs : Forall stage_ok (stages lens zetas) → length xs = 256%nat →
  plain_layers g lens zetas xs = fold_left (stage g) (stages lens zetas) xs.
Proof.
  revert zetas xs. induction lens as [|len lens IH]; intros zetas xs Hok Hlen; [done|].
  cbn [plain_layers stages fold_left]. apply Forall_cons in Hok as [[H1 H2] Hok]. cbn [fst snd] in *.
  rewrite Hlen. apply IH; [done|]. unfold stage. cbn [fst snd]. rewrite plain_layer_length; congruence.
Qed.

Definition stages_inverse (inv : Z → Z → Prop) (s1 s2 : nat * list Z) : Prop :=
  s1.1 = s2.1 ∧ Forall2 inv (take (256 / (s1.1 * 2)) s1.2) (take (256 / (s1.1 * 2)) s2.2).

Lemma stages_cancel g1 g2 inv s1 s2 c xs ys :
  (∀ z1 z2 c l r x1 x2, inv z1 z2 →
    x1 ≡q c * fst (g1 z1 l r) → x2 ≡q c * snd (g1 z1 l r) →
    fst (g2 z2 x1 x2) ≡q 2 * c * l ∧ snd (g2 z2 x1 x2) ≡q 2 * c * r) →
  Forall2 (stages_inverse inv) s1 s2 → Forall stage_ok s1 → length ys = 256%nat →
  scaled c xs (fold_left (stage g1) s1 ys) →
  scaled (2 ^ Z.of_nat (length s1) * c) (fold_left (stage g2) (rev s2) xs) ys.
Proof.
  intros Hc Hi. revert c xs ys. induction Hi as [|[len zs] [len' zs'] s1 s2 [E1 E2] Hi IH];
    intros c xs ys Hok Hlen Hs.
  - cbn [length rev fold_left] in *. by rewrite Z.mul_1_l.
  - apply Forall_cons in Hok as [[H1 H2] Hok]. cbn [fst snd fold_left rev length] in *. subst len'.
    rewrite fold_left_app. cbn [fold_left].
    rewrite Nat2Z.inj_succ, Z.pow_succ_r by lia.
    replace (2 * 2 ^ Z.of_nat (length s1) * c) with (2 * (2 ^ Z.of_nat (length s1) * c)) by lia.
    eapply (layer_cancel g1 g2 inv Hc _ len zs zs'); [done|done|by rewrite Hlen|].
    apply IH; [done| |done].
    unfold stage. cbn [fst snd]. rewrite plain_layer_length; congruence.
Qed.

Definition zeta_inverse (z1 z2 : Z) : Prop := - (radix_inv * radix_inv * (z1 * z2)) ≡q 1.

Lemma ntt_then_invntt z1 z2 c l r x1 x2 : zeta_inverse z1 z2 →
  x1 ≡q c * fst (ntt_plain z1 l r) → x2 ≡q c * snd (ntt_plain z1 l r) →
  fst (invntt_plain z2 x1 x2) ≡q 2 * c * l ∧ snd (invntt_plain z2 x1 x2) ≡q 2 * c * r.
Proof.
  unfold zeta_inverse, ntt_plain, invntt_plain. cbn [fst snd]. intros Hz -> ->. split.
  - by match goal with |- ?a ≡q ?b => replace a with b by lia end.
  - transitivity (- (radix_inv * radix_inv * (z1 * z2)) * (2 * c * r)); [|by rewrite Hz, Z.mul_1_l].
    by match goal with |- ?a ≡q ?b => replace a with b by lia end.
Qed.
Lemma invntt_then_ntt z1 z2 c l r x1 x2 : zeta_inverse z2 z1 →
  x1 ≡q c * fst (invntt_plain z1 l r) → x2 ≡q c * snd (invntt_plain z1 l r) →
  fst (ntt_plain z2 x1 x2) ≡q 2 * c * l ∧ snd (ntt_plain z2 x1 x2) ≡q 2 * c * r.
Proof.
  unfold zeta_inverse, ntt_plain, invntt_plain. cbn [fst snd]. intros Hz -> ->.
  set (w := - (radix_inv * radix_inv * (z2 * z1))) in Hz.
  split; [transitivity (c * (l + r) - w * (c * (r - l)))|transitivity (c * (l + r) + w * (c * (r - l)))];
    try (rewrite Hz; match goal with |- ?a ≡q ?b => by replace a with b by lia end);
    match goal with |- ?a ≡q ?b => by replace a with b by (unfold w; lia) end.
Qed.

#[export] Instance zeta_inverse_dec z1 z2 : Decision (zeta_inverse z1 z2).
Proof. unfold zeta_inverse. apply _. Defined.
#[export] Instance stage_ok_dec st : Decision (stage_ok st).
Proof. unfold stage_ok. apply _. Defined.
#[export] Instance stages_inverse_dec inv `{∀ a b, Decision (inv a b)} s1 s2 : Decision (stages_inverse inv s1 s2).
Proof. unfold stages_inverse. apply _. Defined.

Definition ntt_stages : list (nat * list Z) := Eval vm_compute in stages ntt_lens (drop 1 ZETAS).
Definition invntt_stages : list (nat * list Z) := Eval vm_compute in stages invntt_lens (rev ZETAS).

Lemma ntt_lin_stages xs : length xs = 256%nat → ntt_lin xs = fold_left (stage ntt_plain) ntt_stages xs.
Proof. apply plain_layers_stages. decided. Qed.
Lemma invntt_lin_stages xs : length xs = 256%nat →
  invntt_lin xs = map (λ r, radix_inv * (r * 1441)) (fold_left (stage invntt_plain) invntt_stages xs).
Proof. intros. unfold invntt_lin. f_equal. apply plain_layers_stages; [decided|done]. Qed.

Lemma stages_length g sts xs : Forall stage_ok sts → length xs = 256%nat →
  length (fold_left (stage g) sts xs) = 256%nat.
Proof.
  intros Hok. revert xs. induction Hok as [|[len zs] sts [H1 H2] Hok IH]; intros xs Hlen; [done|].
  cbn [fold_left]. apply IH. unfold stage. cbn [fst snd] in *. rewrite plain_layer_length; congruence.
Qed.
Lemma ntt_lin_length xs : length xs = 256%nat → length (ntt_lin xs) = 256%nat.
Proof. intros. rewrite ntt_lin_stages by done. apply stages_length; [decided|done]. Qed.
Lemma invntt_lin_length xs : length xs = 256%nat → length (invntt_lin xs) = 256%nat.
Proof. intros. rewrite invntt_lin_stages, length_map by done. apply stages_length; [decided|done]. Qed.

Lemma scaled_refl xs : scaled 1 xs xs.
Proof. induction xs as [|x xs IH]; constructor; [by rewrite Z.mul_1_l|exact IH]. Qed.

Lemma ntt_stages_ok : Forall stage_ok ntt_stages.
Proof. decided. Qed.
Lemma invntt_stages_ok : Forall stage_ok invntt_stages.
Proof. decided. Qed.
Lemma stages_inverse_forth : Forall2 (stages_inverse zeta_inverse) ntt_stages (rev invntt_stages).
Proof. decided. Qed.
Lemma stages_inverse_back : Forall2 (stages_inverse (flip zeta_inverse)) invntt_stages (rev ntt_stages).
Proof. decided. Qed.

Lemma scaled_weaken c d xs ys : c ≡q d → scaled c xs ys → scaled d xs ys.
Proof. intros E Hs. eapply Forall2_impl; [exact Hs|]. intros x y Ex. cbn beta in Ex. by rewrite Ex, E. Qed.
Lemma scaled_map c d xs ys : scaled c xs ys → scaled (d * c) (map (Z.mul d) xs) ys.
Proof.
  intros Hs. apply Forall2_fmap_l. eapply Forall2_impl; [exact Hs|]. intros x y Ex.
  change (d * x ≡q d * c * y). by rewrite Ex, Z.mul_assoc.
Qed.
Lemma scaled_unmap c d h xs ys : scaled c xs (map h ys) → (∀ y, c * h y ≡q d * y) → scaled d xs ys.
Proof.
  intros Hs Hh. revert xs Hs. induction ys as [|y ys IH]; intros xs Hs; inversion Hs as [|x ? xs' ? E Hs']; subst;
    constructor; [by rewrite E, Hh|by apply IH].
Qed.

(** The two transforms are inverse up to Montgomery's radix. *)
Lemma invntt_scaled c xs ys : length xs = 256%nat → length ys = 256%nat →
  scaled c xs (ntt_lin ys) → scaled (radix * c) (invntt_lin xs) ys.
Proof.
  intros Hlen Hlen' Hs. rewrite invntt_lin_stages by done. rewrite ntt_lin_stages in Hs by done.
  pose proof (stages_cancel ntt_plain invntt_plain zeta_inverse _ _ c xs ys
    ntt_then_invntt stages_inverse_forth ntt_stages_ok Hlen' Hs) as Hc.
  rewrite rev_involutive in Hc. apply (scaled_map _ (radix_inv * 1441)) in Hc.
  eapply scaled_weaken; [|erewrite map_ext; [exact Hc|]]; [|intros; simpl; lia].
  rewrite Z.mul_assoc. by apply cong_mul.
Qed.
Lemma ntt_scaled c xs ys : length xs = 256%nat → length ys = 256%nat →
  scaled c xs (invntt_lin ys) → scaled (radix * c) (ntt_lin xs) ys.
Proof.
  intros Hlen Hlen' Hs. rewrite ntt_lin_stages by done. rewrite invntt_lin_stages in Hs by done.
  assert (scaled (c * (radix_inv * 1441)) xs (fold_left (stage invntt_plain) invntt_stages ys)) as Hs'.
  { eapply scaled_unmap; [exact Hs|]. intros y. cbn beta.
    by match goal with |- ?a ≡q ?b => replace a with b by lia end. }
  pose proof (stages_cancel invntt_plain ntt_plain (flip zeta_inverse) _ _ _ xs ys invntt_then_ntt
    stages_inverse_back invntt_stages_ok Hlen' Hs') as Hc.
  rewrite rev_involutive in Hc. eapply scaled_weaken; [|exact Hc].
  change (2 ^ Z.of_nat (length invntt_stages)) with 128.
  transitivity (128 * (radix_inv * 1441) * c); [by match goal with |- ?a ≡q ?b => replace a with b by lia end|].
  by apply cong_mul.
Qed.

(** The residue of a polynomial modulo [X^2 - g], by Horner's rule in that ring. *)
Fixpoint ev (g : Z) (xs : list Z) : Z * Z :=
  match xs with
  | [] => (0, 0)
  | a :: xs => let (u, v) := ev g xs in (a + g * v, u)
  end.
Definition evals (gs xs : list Z) : list Z := flat_map (λ g, [(ev g xs).1; (ev g xs).2]) gs.
(* the moduli, in the order of the transform *)
Definition GAMMAS : list Z := flat_map (λ z, [radix_inv * z; - (radix_inv * z)]) (drop 64 ZETAS).

(* elementwise [x + c * y] *)
Definition axpy (c : Z) (xs ys : list Z) : list Z := zip_with (λ x y, x + c * y) xs ys.

Lemma ev_axpy g c xs ys : length xs = length ys →
  ev g (axpy c xs ys) = ((ev g xs).1 + c * (ev g ys).1, (ev g xs).2 + c * (ev g ys).2).
Proof.
  revert ys. induction xs as [|x xs IH]; intros [|y ys] Hl; try done; [simpl; f_equal; lia|].
  cbn [axpy zip_with ev] in *. injection Hl as Hl. fold (axpy c xs ys). rewrite (IH ys Hl).
  destruct (ev g xs), (ev g ys). simpl. f_equal; lia.
Qed.

Lemma ev_app_even g k xs ys : length xs = (k * 2)%nat →
  ev g (xs ++ ys) = ((ev g xs).1 + g ^ Z.of_nat k * (ev g ys).1, (ev g xs).2 + g ^ Z.of_nat k * (ev g ys).2).
Proof.
  revert xs. induction k as [|k IH]; intros xs Hl.
  - destruct xs; [|done]. cbn [app ev fst snd]. change (g ^ Z.of_nat 0) with 1. destruct (ev g ys).
    cbn [fst snd]. f_equal; lia.
  - destruct xs as [|a [|b xs]]; [done|done|]. injection Hl as Hl. cbn [app ev]. rewrite (IH xs Hl).
    rewrite Nat2Z.inj_succ, Z.pow_succ_r by lia. destruct (ev g xs), (ev g ys). cbn [fst snd]. f_equal; lia.
Qed.

(* pairs of integers modulo [Q] *)
Definition cong2 (p r : Z * Z) : Prop := p.1 ≡q r.1 ∧ p.2 ≡q r.2.

#[export] Instance ev_proper : Proper (cong ==> pcong ==> cong2) ev.
Proof.
  intros g g' Eg xs xs' E. induction E as [|x x' xs xs' Ex E [I1 I2]]; [done|]. simpl.
  destruct (ev g xs), (ev g' xs'). simpl in *. split; simpl; [by rewrite Ex, Eg, I2|done].
Qed.

Lemma evals_cong gs xs ys : Forall (λ g, cong2 (ev g xs) (ev g ys)) gs → evals gs xs ≡p evals gs ys.
Proof. induction 1 as [|g gs [E1 E2] _ IH]; [done|]. simpl. by repeat constructor. Qed.

Lemma butterflies_axpy z ls rs : length ls = length rs →
  plain_butterflies ntt_plain z ls rs = (axpy (radix_inv * z) ls rs, axpy (- (radix_inv * z)) ls rs).
Proof.
  revert rs. induction ls as [|l ls IH]; intros [|r rs]; try done. intros [= Hl].
  cbn [plain_butterflies ntt_plain axpy zip_with]. rewrite (IH rs Hl). fold (axpy (radix_inv * z) ls rs).
  fold (axpy (- (radix_inv * z)) ls rs). do 2 f_equal; lia.
Qed.

(** Chunk by chunk, with [h] moduli for each chunk of [2 * h] coefficients. *)
Fixpoint chunk_evals (chunks h : nat) (gs xs : list Z) : list Z :=
  match chunks with
  | O => []
  | S chunks => evals (take h gs) (take (h * 2) xs) ++ chunk_evals chunks h (drop h gs) (drop (h * 2) xs)
  end.

(* a power modulo [Q] *)
Definition powq (g : Z) (k : nat) : Z := Nat.iter k (λ x, g * x mod Q) 1.
Lemma powq_pow g k : powq g k ≡q g ^ Z.of_nat k.
Proof.
  induction k as [|k IH]; [done|]. rewrite Nat2Z.inj_succ, Z.pow_succ_r by lia.
  change (powq g (S k)) with (g * powq g k mod Q). by rewrite cong_mod, IH.
Qed.

(* the moduli of a chunk are the roots of those of its two halves *)
Fixpoint roots_ok (chunks k : nat) (gs zs : list Z) : Prop :=
  match chunks, zs with
  | O, _ => True
  | S chunks, z :: zs =>
      Forall (λ g, powq g k ≡q radix_inv * z) (take k gs) ∧
      Forall (λ g, powq g k ≡q - (radix_inv * z)) (take k (drop k gs)) ∧
      roots_ok chunks k (drop k (drop k gs)) zs
  | _, _ => False
  end.

Lemma layer_evals chunks k gs zs xs : roots_ok chunks k gs zs → length xs = (chunks * (k * 4))%nat →
  chunk_evals (chunks * 2) k gs (plain_layer ntt_plain chunks (k * 2) zs xs) ≡p chunk_evals chunks (k * 2) gs xs.
Proof.
  revert gs zs xs. induction chunks as [|chunks IH]; intros gs zs xs Hr Hlen; [done|].
  destruct zs as [|z zs]; [done|]. destruct Hr as (R1 & R2 & Hr).
  cbn [plain_layer]. set (l := take (k * 2) xs). set (r := take (k * 2) (drop (k * 2) xs)).
  assert (length l = (k * 2)%nat) as Ll by (unfold l; rewrite length_take; lia).
  assert (length r = (k * 2)%nat) as Lr by (unfold r; rewrite length_take, length_drop; lia).
  rewrite butterflies_axpy by congruence.
  assert (∀ c, length (axpy c l r) = (k * 2)%nat) as La.
  { intros c. unfold axpy. rewrite length_zip_with. lia. }
  replace (S chunks * 2)%nat with (S (S (chunks * 2))) by lia. cbn [chunk_evals].
  rewrite !take_app_n, !drop_app_n by (by rewrite La). rewrite !take_app_n by (by rewrite La).
  assert (∀ n, drop (n * 2) gs = drop n (drop n gs)) as Hd by (intros; rewrite drop_drop; f_equal; lia).
  assert (take (k * 2) gs = take k gs ++ take k (drop k gs)) as ->.
  { rewrite <-(take_drop k (take (k * 2) gs)), take_take, skipn_firstn_comm || idtac.
    f_equal; [f_equal; lia|f_equal; lia]. }
  assert (take (k * 2 * 2) xs = l ++ r) as ->.
  { unfold l, r. rewrite <-(take_drop (k * 2) (take (k * 2 * 2) xs)), take_take, skipn_firstn_comm.
    f_equal; f_equal; lia. }
  rewrite Hd. unfold evals at 3. rewrite flat_map_app. fold (evals (take k gs) (l ++ r)).
  fold (evals (take k (drop k gs)) (l ++ r)). rewrite <-app_assoc.
  apply Forall2_app; [|apply Forall2_app].
  - apply evals_cong. eapply Forall_impl; [exact R1|]. intros g Hg. cbn beta in Hg.
    rewrite powq_pow in Hg.
    rewrite ev_axpy, (ev_app_even g k) by congruence. split; cbn [fst snd]; by rewrite Hg.
  - apply evals_cong. eapply Forall_impl; [exact R2|]. intros g Hg. cbn beta in Hg.
    rewrite powq_pow in Hg.
    rewrite ev_axpy, (ev_app_even g k) by congruence. split; cbn [fst snd]; by rewrite Hg.
  - apply IH; [done|]. rewrite length_drop. lia.
Qed.

Lemma chunk_evals_last n gs xs : length gs = n → length xs = (n * 2)%nat → chunk_evals n 1 gs xs = xs.
Proof.
  revert gs xs. induction n as [|n IH]; intros [|g gs] xs Hg Hx; try done; [by destruct xs|].
  destruct xs as [|a [|b xs]]; [done|done|]. cbn [length] in *. simpl. rewrite !drop_0, IH by lia.
  do 2 f_equal; lia.
Qed.

Fixpoint stages_roots (sts : list (nat * list Z)) : Prop :=
  match sts with
  | [] => True
  | (len, zs) :: sts => roots_ok (256 / (len * 2)) (len / 2) GAMMAS zs ∧ stages_roots sts
  end.

#[export] Instance roots_ok_dec chunks k gs zs : Decision (roots_ok chunks k gs zs).
Proof. revert gs zs. induction chunks; intros gs [|z zs]; simpl; apply _. Defined.
#[export] Instance stages_roots_dec sts : Decision (stages_roots sts).
Proof. induction sts as [|[len zs] sts IH]; simpl; apply _. Defined.

Lemma GAMMAS_length : length GAMMAS = 128%nat.
Proof. done. Qed.
Lemma stages_roots_ok : stages_roots ntt_stages.
Proof. decided. Qed.

(* halving the chunks from [len] down to one modulus each *)
Fixpoint halving (len : nat) (sts : list (nat * list Z)) : Prop :=
  match sts with
  | [] => len = 1%nat
  | (len', _) :: sts => len' = len ∧ len = (len / 2 * 2)%nat ∧ 256%nat = (256 / (len * 2) * (len * 2))%nat ∧
      (256 / (len / 2 * 2) = 256 / (len * 2) * 2)%nat ∧ halving (len / 2) sts
  end.
#[export] Instance halving_dec len sts : Decision (halving len sts).
Proof. revert len. induction sts as [|[len' zs] sts IH]; intros len; simpl; apply _. Defined.

Lemma stages_evals len sts xs : halving len sts → stages_roots sts → Forall stage_ok sts → length xs = 256%nat →
  fold_left (stage ntt_plain) sts xs ≡p chunk_evals (256 / (len * 2)) len GAMMAS xs.
Proof.
  revert len xs. induction sts as [|[len' zs] sts IH]; intros len xs Hh Hr Hok Hlen.
  - simpl in Hh. subst len. change (256 / (1 * 2))%nat with 128%nat. by rewrite chunk_evals_last.
  - destruct Hh as (-> & H2 & H256 & Hhalf & Hh). destruct Hr as [Hr Hrs].
    apply Forall_cons in Hok as [[Ho1 Ho2] Hok]. cbn [fold_left fst snd] in *.
    assert (length (stage ntt_plain xs (len, zs)) = 256%nat) as Hl.
    { unfold stage. cbn [fst snd]. rewrite plain_layer_length; congruence. }
    rewrite (IH (len / 2)%nat) by done. rewrite Hhalf. unfold stage. cbn [fst snd].
    pose proof (layer_evals (256 / (len * 2)) (len / 2) GAMMAS zs xs Hr ltac:(lia)) as He.
    by rewrite <-H2 in He.
Qed.

Lemma ntt_halving : halving 128 ntt_stages.
Proof. decided. Qed.

(** The transform evaluates at all the moduli. *)
Lemma ntt_lin_evals xs : length xs = 256%nat → ntt_lin xs ≡p evals GAMMAS xs.
Proof.
  intros Hlen. rewrite ntt_lin_stages by done.
  pose proof (stages_evals 128 ntt_stages xs ntt_halving stages_roots_ok ntt_stages_ok Hlen) as E.
  replace (chunk_evals _ _ _ _) with (evals GAMMAS xs) in E; [exact E|].
  change (256 / (128 * 2))%nat with 1%nat. cbn [chunk_evals]. rewrite app_nil_r.
  f_equal; symmetry; apply take_ge. by rewrite Hlen.
Qed.

(** Polynomials modulo [X^256 + 1]: multiplication by [X], and Horner's rule for the product. *)
Definition zeros : list Z := replicate 256 0.
Definition shiftx (xs : list Z) : list Z := - List.last xs 0 :: removelast xs.
Definition pmul (xs ys : list Z) : list Z := foldr (λ x acc, axpy x (shiftx acc) ys) zeros xs.

Lemma axpy_length c xs ys : length xs = length ys → length (axpy c xs ys) = length xs.
Proof. intros E. unfold axpy. rewrite length_zip_with. lia. Qed.
Lemma shiftx_length xs : xs ≠ [] → length (shiftx xs) = length xs.
Proof.
  intros Hne. destruct (exists_last Hne) as (ys & y & ->). unfold shiftx.
  rewrite removelast_last, length_app. simpl. lia.
Qed.
Lemma pmul_length xs ys : length ys = 256%nat → length (pmul xs ys) = 256%nat.
Proof.
  intros Hy. induction xs as [|x xs IH]; [done|]. cbn [pmul foldr]. fold (pmul xs ys).
  assert (length (shiftx (pmul xs ys)) = 256%nat) as Hs.
  { rewrite shiftx_length; [done|]. intros E. by rewrite E in IH. }
  rewrite axpy_length; congruence.
Qed.

(* products in the ring of a modulus *)
Definition qmul (g : Z) (a b : Z * Z) : Z * Z := (a.1 * b.1 + g * (a.2 * b.2), a.1 * b.2 + a.2 * b.1).

Lemma ev_shiftx g xs : g ^ 128 ≡q -1 → length xs = 256%nat →
  cong2 (ev g (shiftx xs)) (g * (ev g xs).2, (ev g xs).1).
Proof.
  intros Hg Hlen. assert (xs ≠ []) as Hne by by intros ->. destruct (exists_last Hne) as (ys & c & ->).
  unfold shiftx. rewrite removelast_last, last_last. rewrite length_app in Hlen. simpl in Hlen.
  pose proof (ev_app_even g 128 (0 :: ys) [c] ltac:(simpl; lia)) as E.
  change (Z.of_nat 128) with 128 in E. cbn [app ev] in *.
  destruct (ev g (ys ++ [c])) as [u v], (ev g ys) as [u' v']. cbn [fst snd] in *. injection E as E1 E2.
  split; cbn [fst snd].
  - replace (g * v) with (g * v' + g ^ 128 * (c + g * 0)) by lia. rewrite Hg.
    by match goal with |- ?a ≡q ?b => replace a with b by lia end.
  - rewrite E2. by replace (u' + g ^ 128 * 0) with u' by lia.
Qed.

Lemma ev_zeros g : ev g zeros = (0, 0).
Proof.
  unfold zeros. generalize 256%nat as n. induction n as [|n IH]; [done|]. cbn [replicate ev].
  rewrite IH. f_equal; lia.
Qed.

Lemma ev_pmul g xs ys : g ^ 128 ≡q -1 → length ys = 256%nat →
  cong2 (ev g (pmul xs ys)) (qmul g (ev g xs) (ev g ys)).
Proof.
  intros Hg Hy. induction xs as [|x xs [I1 I2]].
  - cbn [pmul foldr ev]. rewrite ev_zeros. split; cbn [qmul fst snd];
      by match goal with |- ?a ≡q ?b => replace b with a by lia end.
  - cbn [pmul foldr]. fold (pmul xs ys). pose proof (pmul_length xs ys Hy) as Hl.
    assert (length (shiftx (pmul xs ys)) = length ys) as Hs.
    { rewrite shiftx_length; [congruence|]. intros E. by rewrite E in Hl. }
    rewrite ev_axpy by done. destruct (ev_shiftx g _ Hg Hl) as [S1 S2].
    cbn [ev]. destruct (ev g xs) as [u v], (ev g ys) as [a b]. cbn [qmul fst snd] in *.
    split; cbn [fst snd]; rewrite ?S1, ?S2, ?I1, ?I2; unfold qmul; cbn [fst snd];
      by match goal with |- ?a ≡q ?b => replace a with b by lia end.
Qed.

Lemma GAMMAS_powq : Forall (λ g, powq g 128 ≡q -1) GAMMAS.
Proof. decided. Qed.
Lemma GAMMAS_roots : Forall (λ g, g ^ 128 ≡q -1) GAMMAS.
Proof. eapply Forall_impl; [exact GAMMAS_powq|]. intros g Hg. cbn beta in Hg. by rewrite powq_pow in Hg. Qed.
