(* ===== verification/KyberPoly.v ===== *)
(** Polynomials and vectors of Kyber, [utils/kyber/src]: poly.rs, polyvec.rs and the noise of cbd.rs.
    A [Poly] is its 256 coefficients, a [Polyvec] three of them, byte arrays are lists. *)

From S2P Require Import Prelude KyberArith KyberNtt.

(** params.rs *)
Definition K : nat := 3.
Definition ETA1 : nat := 2.
Definition ETA2 : nat := 2.
Definition SYMBYTES : nat := 32.
Definition POLYBYTES : nat := 384.
Definition POLYVECBYTES : nat := K * POLYBYTES.
Definition POLYCOMPRESSEDBYTES : nat := 128.
Definition POLYVECCOMPRESSEDBYTES : nat := K * 320.

Notation as_u16 := (wrap 16).
Notation as_u8 := (wrap 8).

(* [u + ((u >> 15) & Q)]: the representative from 0 of a residue around 0 *)
Definition lift (u : Z) : outcome Z := c16 (u + Z.land (Z.shiftr u 15) Q).

Module poly.
Definition compress_coeff (u : Z) : outcome Z :=
  try! u := lift u in
  try! s := cu16 (as_u16 (Z.shiftl (as_u16 u) 4) + Q / 2) in
  Done (as_u8 (Z.land (s / Q) 15)).
(* two nibbles a byte *)
Fixpoint nibbles (l : list Z) : list Z :=
  match l with a :: b :: l => Z.lor a (as_u8 (Z.shiftl b 4)) :: nibbles l | _ => [] end.
Definition compress (input : list Z) : outcome bytes :=
  try! us := each compress_coeff input in Done (nibbles us).

Definition decompress_coeff (u : Z) : outcome Z :=
  try! p := cu16 (u * Q) in try! s := cu16 (p + 8) in Done (i16 (Z.shiftr s 4)).
Definition decompress (input : bytes) : outcome (list Z) :=
  each decompress_coeff (flat_map (λ b, [Z.land b 15; Z.shiftr b 4]) input).

Fixpoint to_bytes (input : list Z) : outcome bytes :=
  match input with
  | t0 :: t1 :: input =>
      try! t0 := lift t0 in
      try! t1 := lift t1 in
      try! out := to_bytes input in
      Done (map as_u8 [t0; Z.lor (Z.shiftr t0 8) (i16 (Z.shiftl t1 4)); Z.shiftr t1 4] ++ out)
  | _ => Done []
  end.
Fixpoint from_bytes (input : bytes) : list Z :=
  match input with
  | t0 :: t1 :: t2 :: input =>
      map (λ u, i16 (Z.land u 4095))
        [Z.lor t0 (Z.shiftl (Z.land t1 15) 8); Z.lor (Z.shiftr t1 4) (Z.shiftl t2 4)] ++ from_bytes input
  | _ => []
  end.

Definition from_msg (input : bytes) : list Z :=
  flat_map (λ b, map (λ i, Z.land (- Z.land (Z.shiftr b i) 1) (i16 ((Q + 1) / 2))) (seqZ 0 8)) input.

(* one bit of the message, and eight of them *)
Definition msg_bit (t : Z) : outcome Z :=
  try! t := lift t in
  try! s := c16 (i16 (Z.shiftl t 1) + Q / 2) in
  Done (Z.land (Z.quot s Q) 1).
Fixpoint pack_bits (i : Z) (l : list Z) : Z :=
  match l with [] => 0 | b :: l => Z.lor (as_u8 (Z.shiftl b i)) (pack_bits (i + 1) l) end.
Fixpoint to_msg_loop (n : nat) (bits : list Z) : bytes :=
  match n with O => [] | S n => pack_bits 0 (take 8 bits) :: to_msg_loop n (drop 8 bits) end.
Definition to_msg (input : list Z) : outcome bytes :=
  try! bits := each msg_bit input in Done (to_msg_loop SYMBYTES bits).

Definition reduce (inout : list Z) : outcome (list Z) := each barrett_reduce inout.
Definition ntt (inout : list Z) : outcome (list Z) := try! l := KyberNtt.ntt inout in reduce l.
Definition invntt_tomont (inout : list Z) : outcome (list Z) := invntt inout.

(* two pairs for each of the zetas from the 64th *)
Fixpoint basemul_loop (zetas a b : list Z) : outcome (list Z) :=
  match zetas, a, b with
  | zeta :: zetas, a0 :: a1 :: a2 :: a3 :: a, b0 :: b1 :: b2 :: b3 :: b =>
      try! (r0, r1) := basemul (a0, a1) (b0, b1) zeta in
      try! nz := c16 (- zeta) in
      try! (r2, r3) := basemul (a2, a3) (b2, b3) nz in
      try! rest := basemul_loop zetas a b in
      Done (r0 :: r1 :: r2 :: r3 :: rest)
  | _, _, _ => Done []
  end.
Definition basemul_montgomery (a b : list Z) : outcome (list Z) := basemul_loop (drop 64 ZETAS) a b.

Definition tomont (inout : list Z) : outcome (list Z) :=
  let f := Z.shiftl 1 32 mod Q in
  each (λ r, try! p := c32 (r * i32 f) in montgomery_reduce p) inout.

Definition add (a b : list Z) : outcome (list Z) := each2 (λ x y, c16 (x + y)) a b.
Definition sub (a b : list Z) : outcome (list Z) := each2 (λ x y, c16 (x - y)) a b.
End poly.

(** cbd.rs: coefficients from -2 to 2, each the difference of two pairs of random bits. *)
Definition cbd_chunk (t : Z) : list Z :=
  let d := Z.land t 0x55555555 + Z.land (Z.shiftr t 1) 0x55555555 in
  map (λ i, i16 (Z.land (Z.shiftr d (4 * i)) 3) - i16 (Z.land (Z.shiftr d (4 * i + 2)) 3)) (seqZ 0 8).
Fixpoint cbd2 (buf : bytes) : list Z :=
  match buf with
  | b0 :: b1 :: b2 :: b3 :: buf =>
      cbd_chunk (b0 + b1 * 2 ^ 8 + b2 * 2 ^ 16 + b3 * 2 ^ 24) ++ cbd2 buf
  | _ => []
  end.
Definition eta1 (buf : bytes) : list Z := cbd2 buf.
Definition eta2 (buf : bytes) : list Z := cbd2 buf.

Module polyvec.
Definition compress_coeff (u : Z) : outcome Z :=
  try! u := lift u in
  try! s := checked 0 (2 ^ 32) (wrap 32 (Z.shiftl (wrap 32 u) 10) + Q / 2) in
  Done (Z.land (s / Q) 1023).
(* five bytes for four coefficients *)
Fixpoint pack10 (l : list Z) : bytes :=
  match l with
  | t0 :: t1 :: t2 :: t3 :: l =>
      map as_u8 [t0; Z.lor (Z.shiftr t0 8) (Z.shiftl t1 2); Z.lor (Z.shiftr t1 6) (Z.shiftl t2 4);
                 Z.lor (Z.shiftr t2 4) (Z.shiftl t3 6); Z.shiftr t3 2] ++ pack10 l
  | _ => []
  end.
Definition compress (input : list (list Z)) : outcome bytes :=
  try! us := each compress_coeff (concat input) in Done (pack10 us).

Definition decompress_coeff (u : Z) : Z := i16 (Z.shiftr (Z.land u 1023 * Q + 512) 10).
Fixpoint unpack10 (l : bytes) : list Z :=
  match l with
  | b0 :: b1 :: b2 :: b3 :: b4 :: l =>
      map (λ '(i, x, y), Z.lor (Z.shiftr x (2 * i)) (as_u16 (Z.shiftl y (8 - 2 * i))))
        [(0, b0, b1); (1, b1, b2); (2, b2, b3); (3, b3, b4)] ++ unpack10 l
  | _ => []
  end.
Fixpoint split_polys (k : nat) (l : list Z) : list (list Z) :=
  match k with O => [] | S k => take N l :: split_polys k (drop N l) end.
Definition decompress (input : bytes) : list (list Z) := split_polys K (map decompress_coeff (unpack10 input)).

Definition to_bytes (input : list (list Z)) : outcome bytes :=
  try! l := each poly.to_bytes input in Done (concat l).
Fixpoint from_bytes_loop (k : nat) (input : bytes) : list (list Z) :=
  match k with
  | O => []
  | S k => poly.from_bytes (take POLYBYTES input) :: from_bytes_loop k (drop POLYBYTES input)
  end.
Definition from_bytes (input : bytes) : list (list Z) := from_bytes_loop K input.

Definition ntt (inout : list (list Z)) : outcome (list (list Z)) := each poly.ntt inout.
Definition invntt_tomont (inout : list (list Z)) : outcome (list (list Z)) := each poly.invntt_tomont inout.

(* [reduce]: the first product, then the others added to it *)
Fixpoint sum_products (acc : list Z) (a b : list (list Z)) : outcome (list Z) :=
  match a, b with
  | x :: a, y :: b =>
      try! p := poly.basemul_montgomery x y in
      try! acc := poly.add acc p in sum_products acc a b
  | _, _ => Done acc
  end.
Definition basemul_acc_montgomery (a b : list (list Z)) : outcome (list Z) :=
  match a, b with
  | x :: a, y :: b =>
      try! p := poly.basemul_montgomery x y in
      try! res := sum_products p a b in poly.reduce res
  | _, _ => Panic
  end.

Definition reduce (inout : list (list Z)) : outcome (list (list Z)) := each poly.reduce inout.
Definition add (a b : list (list Z)) : outcome (list (list Z)) := each2 poly.add a b.
End polyvec.

(** * What the transformed polynomials stand for: a residue for every modulus. *)
Definition padd (a b : Z * Z) : Z * Z := (a.1 + b.1, a.2 + b.2).
Definition psub (a b : Z * Z) : Z * Z := (a.1 - b.1, a.2 - b.2).
Definition pscale (c : Z) (a : Z * Z) : Z * Z := (c * a.1, c * a.2).
Definition gamma (p : nat) : Z := nth p GAMMAS 0.
Definition pair_at (p : nat) (xs : list Z) : Z * Z := (nth (2 * p) xs 0, nth (2 * p + 1) xs 0).
Definition hat (xs : list Z) (f : nat → Z * Z) : Prop :=
  length xs = 256%nat ∧ ∀ p, (p < 128)%nat → cong2 (pair_at p xs) (f p).

#[export] Instance cong2_equiv : Equivalence cong2.
Proof.
  split; unfold cong2; [done|by intros ?? [-> ->]|].
  intros ??? [E1 E2] [F1 F2]. split; etransitivity; eassumption.
Qed.
#[export] Instance padd_proper : Proper (cong2 ==> cong2 ==> cong2) padd.
Proof. intros ?? [E1 E2] ?? [F1 F2]. split; simpl; [by rewrite E1, F1|by rewrite E2, F2]. Qed.
#[export] Instance psub_proper : Proper (cong2 ==> cong2 ==> cong2) psub.
Proof. intros ?? [E1 E2] ?? [F1 F2]. split; simpl; [by rewrite E1, F1|by rewrite E2, F2]. Qed.
#[export] Instance pscale_proper : Proper (cong ==> cong2 ==> cong2) pscale.
Proof. intros ?? Ec ?? [E1 E2]. split; simpl; [by rewrite E1, Ec|by rewrite E2, Ec]. Qed.
#[export] Instance qmul_proper g : Proper (cong2 ==> cong2 ==> cong2) (qmul g).
Proof. intros ?? [E1 E2] ?? [F1 F2]. split; simpl; by rewrite E1, E2, F1, F2. Qed.

Lemma evals_nth gs xs p d : (p < length gs)%nat →
  (nth (2 * p) (evals gs xs) d, nth (2 * p + 1) (evals gs xs) d) = ev (nth p gs 0) xs.
Proof.
  revert p. induction gs as [|g gs IH]; intros [|p] Hp; simpl in Hp; try lia.
  - simpl. by destruct (ev g xs).
  - replace (2 * S p)%nat with (S (S (2 * p))) by lia.
    replace (S (S (2 * p)) + 1)%nat with (S (S (2 * p + 1))) by lia. simpl. apply IH. lia.
Qed.
Lemma pcong_nth xs ys i : xs ≡p ys → nth i xs 0 ≡q nth i ys 0.
Proof. intros E. revert i. induction E as [|x y xs ys Ex E IH]; intros [|i]; simpl; done. Qed.
Lemma nth_pcong xs ys : length xs = length ys → (∀ i, (i < length xs)%nat → nth i xs 0 ≡q nth i ys 0) → xs ≡p ys.
Proof.
  revert ys. induction xs as [|x xs IH]; intros [|y ys]; try done. intros [= Hl] Hn. constructor.
  - apply (Hn 0%nat). simpl. lia.
  - apply IH; [done|]. intros i Hi. apply (Hn (S i)). simpl. lia.
Qed.
Lemma pair_at_cong xs ys p : xs ≡p ys → cong2 (pair_at p xs) (pair_at p ys).
Proof. intros E. split; by apply pcong_nth. Qed.
Lemma hat_ntt xs : length xs = 256%nat → hat (ntt_lin xs) (λ p, ev (gamma p) xs).
Proof.
  intros Hl. split; [by apply ntt_lin_length|]. intros p Hp.
  etransitivity; [apply pair_at_cong, ntt_lin_evals; done|].
  unfold pair_at. by rewrite evals_nth by (rewrite GAMMAS_length; lia).
Qed.
Lemma hat_cong xs ys f : xs ≡p ys → hat ys f → hat xs f.
Proof.
  intros E [Hl Hf]. split; [by rewrite (pcong_length _ _ E)|]. intros p Hp.
  etransitivity; [by apply pair_at_cong|by apply Hf].
Qed.
Lemma hat_pcong xs ys f g : hat xs f → hat ys g → (∀ p, (p < 128)%nat → cong2 (f p) (g p)) → xs ≡p ys.
Proof.
  intros [Hx Hf] [Hy Hg] E. apply nth_pcong; [congruence|]. intros i Hi.
  pose proof (Nat.div_mod_eq i 2) as Hd. pose proof (Nat.mod_upper_bound i 2 ltac:(lia)) as Hm.
  assert (i / 2 < 128)%nat as Hp by lia.
  assert (cong2 (pair_at (i / 2) xs) (pair_at (i / 2) ys)) as [E1 E2].
  { by rewrite (Hf _ Hp), (Hg _ Hp), (E _ Hp). }
  cbn [pair_at fst snd] in *. assert (i mod 2 = 0 ∨ i mod 2 = 1)%nat as [H0|H0] by lia;
    rewrite H0 in Hd; [rewrite Nat.add_0_r in Hd|]; by rewrite Hd.
Qed.

(** A polynomial is known by its residues. *)
Lemma ev_injective xs ys : length xs = 256%nat → length ys = 256%nat →
  (∀ p, (p < 128)%nat → cong2 (ev (gamma p) xs) (ev (gamma p) ys)) → xs ≡p ys.
Proof.
  intros Hx Hy E.
  assert (ntt_lin xs ≡p ntt_lin ys) as En by (eapply hat_pcong; [by apply hat_ntt..|done]).
  assert (∀ zs, length zs = 256%nat → ntt_lin xs ≡p ntt_lin zs →
    scaled 1 (map (Z.mul radix_inv) (invntt_lin (ntt_lin xs))) zs) as Hs.
  { intros zs Hz Ez. eapply scaled_weaken with (c := radix_inv * (radix * 1)); [done|].
    apply scaled_map, invntt_scaled; [by apply ntt_lin_length|done|].
    eapply Forall2_impl; [exact Ez|]. intros x y Exy. by rewrite Z.mul_1_l. }
  pose proof (Hs xs Hx ltac:(done)) as Sx. pose proof (Hs ys Hy En) as Sy.
  assert (∀ l k, scaled 1 l k → k ≡p l) as Hflip.
  { intros l k Hlk. induction Hlk as [|a b l k Eab _ IH]; constructor; [by rewrite Eab, Z.mul_1_l|done]. }
  etransitivity; [by apply Hflip|]. symmetry. by apply Hflip.
Qed.

(** * What the operations compute. *)
Lemma lift_spec u : - Q ≤ u < Q → lift u = Done (u mod Q).
Proof.
  intros Hu. unfold lift, checked. rewrite Z.shiftr_div_pow2 by lia. change (2 ^ 15) with 32768.
  unfold Q in *. destruct (decide (0 ≤ u)).
  - rewrite (Z.div_small u), Z.land_0_l, Z.add_0_r by lia. rewrite decide_True by lia.
    by rewrite Z.mod_small by lia.
  - replace (u / 32768) with (-1) by (apply Z.div_unique with (r := u + 32768); lia).
    rewrite Z.land_m1_l, decide_True by lia. f_equal. apply Z.mod_unique with (q := -1); lia.
Qed.

Lemma reduce_spec xs : bounded 31000 xs →
  yields (poly.reduce xs) (λ ys, ys ≡p xs ∧ bounded 1664 ys ∧ length ys = length xs).
Proof.
  intros Hb. eapply yields_mono; [apply (yields_each _ _ _ (λ x y, y ≡q x ∧ Z.abs y ≤ 1664) Hb)|].
  - apply barrett_reduce_spec.
  - intros ys Hy. split_and!; [|eapply Forall2_Forall_r; [exact Hy|]; apply Forall_true; by intros ?? [_ ?]|
      symmetry; by eapply Forall2_length].
    symmetry. eapply Forall2_impl; [exact Hy|]. by intros ?? [E _].
Qed.

Lemma poly_ntt_spec xs : length xs = 256%nat → bounded 6000 xs →
  yields (poly.ntt xs) (λ ys, hat ys (λ p, ev (gamma p) xs) ∧ bounded 1664 ys).
Proof.
  intros Hl Hb. eapply yields_bind; [by apply (ntt_computes xs xs)|]. intros ys (E & Hy & _).
  eapply yields_mono; [apply reduce_spec; eapply bounded_le; [|exact Hy]; lia|]. intros zs (Ez & Hz & _).
  split; [|done]. eapply hat_cong; [|by apply hat_ntt]. by rewrite Ez.
Qed.

Lemma poly_invntt_spec xs f : hat xs f → bounded Q xs →
  yields (poly.invntt_tomont xs) (λ ys, length ys = 256%nat ∧ bounded Q ys ∧
    ∀ p, (p < 128)%nat → cong2 (ev (gamma p) ys) (pscale radix (f p))).
Proof.
  intros [Hl Hf] Hb. eapply yields_mono; [by apply (invntt_computes xs xs)|].
  intros ys (E & Hy & Hly). split_and!; [done..|]. intros p Hp.
  assert (scaled radix (ntt_lin ys) xs) as Hs.
  { eapply scaled_weaken with (c := radix * 1); [done|]. apply ntt_scaled; [done..|].
    eapply Forall2_impl; [exact E|]. intros x y Exy. by rewrite Z.mul_1_l. }
  destruct (hat_ntt ys Hly) as [_ Hh]. rewrite <-(Hh p Hp), <-(Hf p Hp).
  assert (ntt_lin ys ≡p map (Z.mul radix) xs) as En by (apply Forall2_fmap_r; exact Hs).
  rewrite (pair_at_cong _ _ p En). unfold pair_at, pscale. cbn [fst snd].
  assert (∀ i, nth i (map (Z.mul radix) xs) 0 = radix * nth i xs 0) as Hm.
  { intros i. rewrite <-(map_nth (Z.mul radix)). by rewrite Z.mul_0_r. }
  by rewrite !Hm.
Qed.

Definition small2 (b : Z) (a : Z * Z) : Prop := Z.abs a.1 ≤ b ∧ Z.abs a.2 ≤ b.

Lemma basemul_spec a b zeta : small2 4096 a → small2 4096 b → Z.abs zeta ≤ 1664 →
  yields (basemul a b zeta) (λ r, cong2 r (pscale radix_inv (qmul (radix_inv * zeta) a b)) ∧ small2 (2 * Q) r).
Proof.
  intros [A1 A2] [B1 B2] Hz. unfold basemul.
  eapply yields_bind; [apply fqmul_spec; unfold Q; nia|]. intros r0 (E0 & H0).
  eapply yields_bind; [apply fqmul_spec; unfold Q in *; nia|]. intros r0' (E0' & H0').
  eapply yields_bind; [apply fqmul_spec; unfold Q; nia|]. intros t (Et & Ht).
  eapply yields_bind; [apply yields_checked with (P := λ x, x = r0' + t); [unfold Q in *; lia|done]|]. intros ? ->.
  eapply yields_bind; [apply fqmul_spec; unfold Q; nia|]. intros r1 (E1 & H1).
  eapply yields_bind; [apply fqmul_spec; unfold Q; nia|]. intros t' (Et' & Ht').
  eapply yields_bind; [apply yields_checked with (P := λ x, x = r1 + t'); [unfold Q in *; lia|done]|]. intros ? ->.
  apply yields_done. split; [|split; simpl; lia]. unfold pscale, qmul. split; cbn [fst snd].
  - rewrite E0', Et, E0. by match goal with |- ?a ≡q ?b => replace a with b by ring end.
  - rewrite E1, Et'. by match goal with |- ?a ≡q ?b => replace a with b by ring end.
Qed.

Lemma pair_at_SS p x y xs : pair_at (S p) (x :: y :: xs) = pair_at p xs.
Proof.
  unfold pair_at. replace (2 * S p)%nat with (S (S (2 * p))) by lia.
  by replace (S (S (2 * p)) + 1)%nat with (S (S (2 * p + 1))) by lia.
Qed.

Definition moduli (zetas : list Z) : list Z := flat_map (λ z, [radix_inv * z; - (radix_inv * z)]) zetas.

Lemma basemul_loop_spec zetas a b : bounded 1664 zetas →
  length a = (4 * length zetas)%nat → length b = (4 * length zetas)%nat → bounded 4096 a → bounded 4096 b →
  yields (poly.basemul_loop zetas a b) (λ r, length r = (4 * length zetas)%nat ∧ bounded (2 * Q) r ∧
    ∀ p, (p < 2 * length zetas)%nat →
      cong2 (pair_at p r) (pscale radix_inv (qmul (nth p (moduli zetas) 0) (pair_at p a) (pair_at p b)))).
Proof.
  revert a b. induction zetas as [|z zetas IH]; intros a b Hz La Lb Ba Bb.
  { apply yields_done. split_and!; [done|constructor|]. intros p Hp. simpl in Hp. lia. }
  apply Forall_cons in Hz as [Hz Hzs].
  destruct a as [|a0 [|a1 [|a2 [|a3 a]]]]; try (simpl in La; lia).
  destruct b as [|b0 [|b1 [|b2 [|b3 b]]]]; try (simpl in Lb; lia).
  unfold bounded in Ba, Bb. rewrite !Forall_cons in Ba, Bb. destruct Ba as (?&?&?&?&Ba), Bb as (?&?&?&?&Bb).
  cbn [poly.basemul_loop].
  eapply yields_bind; [by apply basemul_spec|]. intros [r0 r1] [R1 [S0 S1]].
  eapply yields_bind; [apply yields_checked with (P := λ x, x = - z); [lia|done]|]. intros ? ->.
  eapply yields_bind; [apply basemul_spec; [done..|lia]|]. intros [r2 r3] [R2 [S2 S3]].
  eapply yields_bind; [apply (IH a b); simpl in La, Lb; (done || lia)|]. intros r (Lr & Br & Hr).
  apply yields_done. split_and!; [simpl; lia|by repeat constructor|].
  intros [|[|p]] Hp; [done| |].
  - rewrite !pair_at_SS. cbn [moduli flat_map app nth].
    replace (- (radix_inv * z)) with (radix_inv * - z) by lia. done.
  - rewrite !pair_at_SS. apply Hr. simpl in Hp. lia.
Qed.

Lemma basemul_montgomery_spec a b f h : hat a f → hat b h → bounded 4096 a → bounded 4096 b →
  yields (poly.basemul_montgomery a b) (λ r,
    hat r (λ p, pscale radix_inv (qmul (gamma p) (f p) (h p))) ∧ bounded (2 * Q) r).
Proof.
  intros [La Hf] [Lb Hh] Ba Bb. eapply yields_mono.
  { apply (basemul_loop_spec (drop 64 ZETAS) a b); [apply Forall_drop, zetas_bounded|done..]. }
  intros r (Lr & Br & Hr). split; [|done]. split; [done|]. intros p Hp.
  rewrite (Hr p Hp), (Hf p Hp), (Hh p Hp). done.
Qed.

(** Sums and differences. *)
Lemma add_spec a b m n : length a = length b → bounded m a → bounded n b → m + n ≤ 32767 →
  yields (poly.add a b) (λ r, r = zip_with Z.add a b ∧ bounded (m + n) r).
Proof.
  intros Hl Ba Bb Hmn. unfold poly.add. revert b Hl Bb.
  induction Ba as [|x a Hx Ba IH]; intros [|y b] Hl Bb; try done; [apply yields_done; split; [done|constructor]|].
  apply Forall_cons in Bb as [Hy Bb]. injection Hl as Hl. cbn [each2 zip_with].
  eapply yields_bind; [apply yields_checked with (P := λ z, z = x + y); [lia|done]|]. intros ? ->.
  eapply yields_bind; [by apply IH|]. intros r [-> Hr]. apply yields_done. split; [done|].
  constructor; [lia|done].
Qed.
Lemma sub_spec a b m n : length a = length b → bounded m a → bounded n b → m + n ≤ 32767 →
  yields (poly.sub a b) (λ r, r = zip_with Z.sub a b ∧ bounded (m + n) r).
Proof.
  intros Hl Ba Bb Hmn. unfold poly.sub. revert b Hl Bb.
  induction Ba as [|x a Hx Ba IH]; intros [|y b] Hl Bb; try done; [apply yields_done; split; [done|constructor]|].
  apply Forall_cons in Bb as [Hy Bb]. injection Hl as Hl. cbn [each2 zip_with].
  eapply yields_bind; [apply yields_checked with (P := λ z, z = x - y); [lia|done]|]. intros ? ->.
  eapply yields_bind; [by apply IH|]. intros r [-> Hr]. apply yields_done. split; [done|].
  constructor; [lia|done].
Qed.

Lemma tomont_spec xs f : hat xs f → bounded 1664 xs →
  yields (poly.tomont xs) (λ ys, hat ys (λ p, pscale radix (f p)) ∧ bounded Q ys).
Proof.
  intros [Hl Hf] Hb. unfold poly.tomont. change (i32 (Z.shiftl 1 32 mod Q)) with 1353.
  eapply yields_mono.
  { apply (yields_each _ xs _ (λ x y, y ≡q radix * x ∧ Z.abs y ≤ Q) Hb). intros x Hx.
    eapply yields_bind; [apply yields_checked with (P := λ z, z = x * 1353); [lia|done]|]. intros ? ->.
    eapply yields_mono; [apply montgomery_reduce_spec; unfold Q; lia|]. intros y [E Hy].
    split; [|done]. rewrite E. transitivity (radix_inv * 1353 * x); [|by apply cong_mul].
    by match goal with |- ?a ≡q ?b => replace a with b by lia end. }
  intros ys Hy. split; [|eapply Forall2_Forall_r; [exact Hy|]; apply Forall_true; by intros ?? [_ ?]].
  split; [by rewrite <-(Forall2_length _ _ _ Hy)|]. intros p Hp. rewrite <-(Hf p Hp).
  assert (∀ i, nth i ys 0 ≡q radix * nth i xs 0) as Hn.
  { clear -Hy. induction Hy as [|x y xs ys [E _] _ IH]; intros [|i]; simpl; done. }
  split; cbn [pair_at pscale fst snd]; apply Hn.
Qed.

Lemma zip_add_length a b : length a = 256%nat → length b = 256%nat → length (zip_with Z.add a b) = 256%nat.
Proof. intros E F. rewrite length_zip_with, E, F. done. Qed.
Lemma nth_zip_zero (h : Z → Z → Z) a b i : length a = length b → h 0 0 = 0 →
  nth i (zip_with h a b) 0 = h (nth i a 0) (nth i b 0).
Proof.
  revert b i. induction a as [|x a IH]; intros [|y b] [|i] Hl H0; simpl; try done. apply IH; [|done].
  by injection Hl.
Qed.
Lemma hat_add a b f h : hat a f → hat b h → hat (zip_with Z.add a b) (λ p, padd (f p) (h p)).
Proof.
  intros [La Hf] [Lb Hh]. split; [by apply zip_add_length|]. intros p Hp.
  rewrite <-(Hf p Hp), <-(Hh p Hp). unfold pair_at. by rewrite !nth_zip_zero by (done || congruence).
Qed.
Lemma ev_add g a b : length a = length b → ev g (zip_with Z.add a b) = padd (ev g a) (ev g b).
Proof.
  intros Hl. pose proof (ev_axpy g 1 a b Hl) as E. unfold axpy in E.
  replace (zip_with (λ x y, x + 1 * y) a b) with (zip_with Z.add a b) in E.
  - rewrite E. unfold padd. f_equal; lia.
  - apply zip_with_ext; [intros; lia|done|done].
Qed.
Lemma ev_sub g a b : length a = length b → ev g (zip_with Z.sub a b) = psub (ev g a) (ev g b).
Proof.
  intros Hl. pose proof (ev_axpy g (-1) a b Hl) as E. unfold axpy in E.
  replace (zip_with (λ x y, x + -1 * y) a b) with (zip_with Z.sub a b) in E.
  - rewrite E. unfold psub. f_equal; lia.
  - apply zip_with_ext; [intros; lia|done|done].
Qed.

(** Vectors of three. *)
Definition hats (xs : list (list Z)) (F : nat → nat → Z * Z) : Prop :=
  ∃ x0 x1 x2, xs = [x0; x1; x2] ∧ hat x0 (F 0%nat) ∧ hat x1 (F 1%nat) ∧ hat x2 (F 2%nat).
Definition dot (F H : nat → nat → Z * Z) (p : nat) : Z * Z :=
  padd (padd (qmul (gamma p) (F 0%nat p) (H 0%nat p)) (qmul (gamma p) (F 1%nat p) (H 1%nat p)))
       (qmul (gamma p) (F 2%nat p) (H 2%nat p)).

Lemma hat_impl xs f h : hat xs f → (∀ p, (p < 128)%nat → cong2 (f p) (h p)) → hat xs h.
Proof. intros [Hl Hf] E. split; [done|]. intros p Hp. by rewrite (Hf p Hp), (E p Hp). Qed.

Lemma basemul_acc_spec xs ys F H : hats xs F → hats ys H →
  Forall (bounded 4096) xs → Forall (bounded 4096) ys →
  yields (polyvec.basemul_acc_montgomery xs ys) (λ r,
    hat r (λ p, pscale radix_inv (dot F H p)) ∧ bounded 1664 r).
Proof.
  intros (x0 & x1 & x2 & -> & X0 & X1 & X2) (y0 & y1 & y2 & -> & Y0 & Y1 & Y2) Hx Hy.
  rewrite !Forall_cons in Hx, Hy. destruct Hx as (?&?&?&_), Hy as (?&?&?&_).
  unfold polyvec.basemul_acc_montgomery. cbn [polyvec.sum_products].
  eapply yields_bind; [by apply (basemul_montgomery_spec x0 y0 _ _ X0 Y0)|]. intros r0 (R0 & B0).
  pose proof (proj1 R0) as L0.
  eapply yields_bind with (P := λ r, bounded (6 * Q) r ∧ hat r (λ p, pscale radix_inv (dot F H p))).
  - eapply yields_bind; [by apply (basemul_montgomery_spec x1 y1 _ _ X1 Y1)|]. intros r1 (R1 & B1).
    pose proof (proj1 R1) as L1.
    eapply yields_bind; [apply (add_spec r0 r1 (2 * Q) (2 * Q)); [congruence|done|done|unfold Q; lia]|].
    intros ? [-> B01]. pose proof (hat_add _ _ _ _ R0 R1) as R01.
    eapply yields_bind; [by apply (basemul_montgomery_spec x2 y2 _ _ X2 Y2)|]. intros r2 (R2 & B2).
    eapply yields_bind.
    { apply (add_spec _ r2 (4 * Q) (2 * Q)); [by rewrite (proj1 R01), (proj1 R2)| |done|unfold Q; lia].
      eapply bounded_le; [|exact B01]. lia. }
    intros ? [-> B012]. apply yields_done. split; [eapply bounded_le; [|exact B012]; lia|].
    eapply hat_impl; [apply (hat_add _ _ _ _ R01 R2)|]. intros p _. cbn beta. unfold dot, padd, pscale.
    split; cbn [fst snd]; by match goal with |- ?a ≡q ?b => replace a with b by ring end.
  - intros r (Br & Hr). eapply yields_mono; [apply reduce_spec; eapply bounded_le; [|exact Br]; unfold Q; lia|].
    intros zs (Ez & Bz & _). split; [|done]. by eapply hat_cong.
Qed.

(** The product of the transforms is the transform of the product. *)
Lemma transformed_product a b : length a = 256%nat → length b = 256%nat → bounded 6000 a → bounded 6000 b →
  yields (try! x := poly.ntt a in try! y := poly.ntt b in
          try! r := poly.basemul_montgomery x y in try! r := poly.reduce r in poly.invntt_tomont r)
    (λ r, r ≡p pmul a b ∧ bounded Q r).
Proof.
  intros La Lb Ba Bb.
  eapply yields_bind; [by apply poly_ntt_spec|]. intros x (Hx & Bx).
  eapply yields_bind; [by apply poly_ntt_spec|]. intros y (Hy & By).
  eapply yields_bind; [apply (basemul_montgomery_spec x y _ _ Hx Hy); eapply bounded_le; eauto; lia|].
  intros r (Hr & Br).
  eapply yields_bind; [apply reduce_spec; eapply bounded_le; [|exact Br]; unfold Q; lia|].
  intros r' (Er & Br' & _).
  eapply yields_mono; [apply (poly_invntt_spec r' _ (hat_cong _ _ _ Er Hr)); eapply bounded_le; [|exact Br']; unfold Q; lia|].
  intros z (Lz & Bz & Hz). split; [|done]. apply ev_injective; [done|by apply pmul_length|].
  intros p Hp. rewrite (Hz p Hp). pose proof GAMMAS_roots as Hg. rewrite Forall_forall in Hg.
  rewrite (ev_pmul (gamma p) a b); [|apply Hg, list_elem_of_In, nth_In; rewrite GAMMAS_length; lia|done].
  split; cbn [pscale fst snd]; rewrite Z.mul_assoc, radix_cancel, Z.mul_1_l; done.
Qed.

(** The product as it is learnt at school: [X^256] is [-1], so what is shifted out comes back negated. *)
Definition rotated (ys : list Z) (i k : nat) : Z :=
  if (i <=? k)%nat then nth (k - i) ys 0 else - nth (256 + k - i) ys 0.
Fixpoint schoolbook (i : nat) (xs ys : list Z) (k : nat) : Z :=
  match xs with [] => 0 | x :: xs => x * rotated ys i k + schoolbook (S i) xs ys k end.

Lemma nth_shiftx p k : length p = 256%nat → (k < 256)%nat →
  nth k (shiftx p) 0 = match k with O => - nth 255 p 0 | S k => nth k p 0 end.
Proof.
  intros Hl Hk. unfold shiftx. destruct p as [|x p _] using rev_ind; [done|].
  rewrite length_app in Hl. simpl in Hl. rewrite last_last, removelast_last. destruct k as [|k]; cbn [nth].
  - rewrite app_nth2 by lia. by replace (255 - length p)%nat with 0%nat by lia.
  - by rewrite app_nth1 by lia.
Qed.
Lemma rotated_shiftx p i k : length p = 256%nat → (i < 256)%nat → (k < 256)%nat →
  rotated (shiftx p) i k = rotated p (S i) k.
Proof.
  intros Hl Hi Hk. unfold rotated. destruct (Nat.leb_spec i k), (Nat.leb_spec (S i) k); try lia.
  - rewrite nth_shiftx by lia. by replace (k - i)%nat with (S (k - S i)) by lia.
  - rewrite nth_shiftx by lia. replace (k - i)%nat with 0%nat by lia. by replace (256 + k - S i)%nat with 255%nat by lia.
  - rewrite nth_shiftx by lia. by replace (256 + k - i)%nat with (S (256 + k - S i)) by lia.
Qed.
Lemma rotated_axpy x p ys i k : length p = length ys → rotated (axpy x p ys) i k = rotated p i k + x * rotated ys i k.
Proof.
  intros Hl. unfold rotated, axpy. rewrite !(nth_zip_zero (λ a b, a + x * b)) by (done || lia).
  destruct (i <=? k)%nat; lia.
Qed.
Lemma nth_replicate_0 n i : nth i (replicate n 0) 0 = 0.
Proof. revert i. induction n as [|n IH]; intros [|i]; simpl; auto. Qed.
Lemma pmul_schoolbook xs ys k : length xs = 256%nat → length ys = 256%nat → (k < 256)%nat →
  nth k (pmul xs ys) 0 = schoolbook 0 xs ys k.
Proof.
  intros Hx Hy Hk. assert (∀ i, (i + length xs ≤ 256)%nat → rotated (pmul xs ys) i k = schoolbook i xs ys k) as Hr.
  { clear Hx. induction xs as [|x xs IH]; intros i Hi; cbn [pmul foldr schoolbook].
    - unfold rotated, zeros. destruct (i <=? k)%nat; by rewrite nth_replicate_0.
    - fold (pmul xs ys). pose proof (pmul_length xs ys Hy) as L. cbn [length] in Hi. rewrite rotated_axpy.
      + rewrite rotated_shiftx, IH by lia. lia.
      + rewrite shiftx_length; [congruence|]. by destruct (pmul xs ys). }
  rewrite <-Hr by lia. unfold rotated. cbn [Nat.leb]. by rewrite Nat.sub_0_r.
Qed.

(** C23: The number-theoretic transform multiplies: for two polynomials of 256 coefficients, each of
    absolute value at most 6000, transforming both, multiplying the pairs of their transforms and
    transforming back gives the product modulo [X^256 + 1] of the schoolbook, coefficient by
    coefficient modulo [Q], and no intermediate value leaves its width. *)
Theorem kyber_multiplies a b : length a = 256%nat → length b = 256%nat → bounded 6000 a → bounded 6000 b →
  yields (try! x := poly.ntt a in try! y := poly.ntt b in
          try! r := poly.basemul_montgomery x y in try! r := poly.reduce r in poly.invntt_tomont r)
    (λ r, length r = 256%nat ∧ bounded Q r ∧ ∀ k, (k < 256)%nat → nth k r 0 ≡q schoolbook 0 a b k).
Proof.
  intros La Lb Ba Bb. eapply yields_mono; [by apply transformed_product|]. intros r [E Br].
  split; [|split; [done|]].
  - rewrite (pcong_length _ _ E). by apply pmul_length.
  - intros k Hk. rewrite <-pmul_schoolbook by done. by apply pcong_nth.
Qed.
(* X^255 times X + 1 is X^255 - 1 *)
Lemma kyber_multiplies_witness (a := replicate 255 0 ++ [1]) (b := [1; 1] ++ replicate 254 0) :
  yields (try! x := poly.ntt a in try! y := poly.ntt b in
          try! r := poly.basemul_montgomery x y in try! r := poly.reduce r in poly.invntt_tomont r)
    (λ r, length r = 256%nat ∧ bounded Q r ∧ ∀ k, (k < 256)%nat → nth k r 0 ≡q schoolbook 0 a b k).
Proof.
  apply (kyber_multiplies a b eq_refl eq_refl).
  - apply Forall_app_2; [apply Forall_replicate|repeat constructor]; lia.
  - apply Forall_app_2; [repeat constructor|apply Forall_replicate]; lia.
Defined.
