(* ===== verification/KyberBytes.v ===== *)
(** Kyber's polynomials as bytes ([utils/kyber/src/poly.rs], polyvec.rs, cbd.rs): twelve bits a
    coefficient without loss, four or ten bits with a bounded error, a message bit a coefficient,
    and the noise from random bytes. *)

From S2P Require Import Prelude KyberArith KyberNtt KyberPoly.

Definition is_bytes (l : bytes) : Prop := Forall (fits 8) l.
#[export] Instance is_bytes_dec l : Decision (is_bytes l).
Proof. unfold is_bytes. apply _. Defined.

(* linear arithmetic with division by constants *)
Ltac zlia := Z.to_euclidean_division_equations; lia.

Lemma shiftl_mul x n : 0 ≤ n → Z.shiftl x n = x * 2 ^ n.
Proof. apply Z.shiftl_mul_pow2. Qed.
Lemma lor_add lo hi w : 0 ≤ w → 0 ≤ lo < 2 ^ w → Z.lor lo (hi * 2 ^ w) = lo + hi * 2 ^ w.
Proof. apply lor_disjoint. Qed.

Lemma yields_each_map {A B} (f : A → outcome B) (h : A → B) (P : A → Prop) (l : list A) :
  Forall P l → (∀ x, P x → f x = Done (h x)) → each f l = Done (map h l).
Proof.
  intros Hl Hf. induction Hl as [|x l Hx Hl IH]; simpl; [done|]. rewrite Hf by done. simpl. by rewrite IH.
Qed.

Lemma land_15 z : Z.land z 15 = z mod 16.
Proof. by apply (land_ones_mod z 4). Qed.
Lemma land_1023 z : Z.land z 1023 = z mod 1024.
Proof. by apply (land_ones_mod z 10). Qed.
Lemma land_4095 z : Z.land z 4095 = z mod 4096.
Proof. by apply (land_ones_mod z 12). Qed.

(** Twelve bits. *)
Lemma pack12_mid u v : 0 ≤ u < 4096 → as_u8 (Z.lor (Z.shiftr u 8) (i16 (Z.shiftl v 4))) = u / 256 + v mod 16 * 16.
Proof.
  intros Hu. rewrite Z.shiftr_div_pow2, shiftl_mul by lia. change (2 ^ 8) with 256. change (2 ^ 4) with 16.
  destruct (signed_eq 16 (v * 16)) as [k ->]. change (2 ^ 16) with 65536.
  replace (v * 16 + k * 65536) with ((v + k * 4096) * 2 ^ 4) by zlia.
  rewrite lor_add by zlia. unfold wrap. change (2 ^ 4) with 16. change (2 ^ 8) with 256. zlia.
Qed.
Lemma unpack12 u v (b1 := u / 256 + v mod 16 * 16) : 0 ≤ u < 4096 → 0 ≤ v < 4096 →
  map (λ u, i16 (Z.land u 4095))
    [Z.lor (u mod 256) (Z.shiftl (Z.land b1 15) 8); Z.lor (Z.shiftr b1 4) (Z.shiftl (v / 16) 4)] = [u; v].
Proof.
  intros Hu Hv. rewrite land_15, !shiftl_mul, Z.shiftr_div_pow2 by zlia. change (2 ^ 4) with 16.
  assert (b1 mod 16 = u / 256) as -> by (unfold b1; zlia). assert (b1 / 16 = v mod 16) as -> by (unfold b1; zlia).
  rewrite (lor_add (u mod 256) _ 8) by zlia. change 16 with (2 ^ 4) at 2. rewrite (lor_add (v mod 16) _ 4) by zlia.
  change (2 ^ 8) with 256. change (2 ^ 4) with 16. cbn [map]. rewrite !land_4095.
  rewrite !signed_small by (simpl; zlia). repeat f_equal; zlia.
Qed.

Lemma from_to_bytes xs : length xs = 256%nat → Forall (λ x, - Q ≤ x < Q) xs →
  yields (poly.to_bytes xs) (λ bs, poly.from_bytes bs = map (λ x, x mod Q) xs ∧
    length bs = POLYBYTES ∧ is_bytes bs).
Proof.
  assert (∀ n xs, length xs = (n * 2)%nat → Forall (λ x, - Q ≤ x < Q) xs →
    yields (poly.to_bytes xs) (λ bs, poly.from_bytes bs = map (λ x, x mod Q) xs ∧
      length bs = (n * 3)%nat ∧ is_bytes bs)) as Hn; [|by apply (Hn 128%nat)].
  clear xs. induction n as [|n IH]; intros xs Hl Hb.
  { destruct xs; [|done]. apply yields_done. split_and!; [done..|constructor]. }
  destruct xs as [|t0 [|t1 xs]]; try (simpl in Hl; lia).
  rewrite !Forall_cons in Hb. destruct Hb as (H0 & H1 & Hb). cbn [poly.to_bytes].
  rewrite !lift_spec by done. cbn [obind].
  eapply yields_bind; [apply (IH xs); [simpl in Hl; lia|done]|]. intros bs (E & Hlen & Hbs).
  apply yields_done.
  pose proof (Z.mod_pos_bound t0 Q ltac:(done)) as M0. pose proof (Z.mod_pos_bound t1 Q ltac:(done)) as M1.
  cbn [map]. set (u := t0 mod Q) in *. set (v := t1 mod Q) in *. unfold Q in M0, M1.
  rewrite pack12_mid by lia.
  assert (as_u8 u = u mod 256) as -> by done.
  assert (as_u8 (Z.shiftr v 4) = v / 16) as ->.
  { rewrite Z.shiftr_div_pow2 by lia. change (2 ^ 4) with 16. apply Z.mod_small. simpl. zlia. }
  split_and!.
  - cbn [app poly.from_bytes]. rewrite unpack12, E by lia. done.
  - simpl. lia.
  - repeat constructor; try done; unfold fits; simpl; zlia.
Qed.

Lemma polyvec_from_to_bytes xs : length xs = K → Forall (λ x, length x = 256%nat) xs →
  Forall (Forall (λ x, - Q ≤ x < Q)) xs →
  yields (polyvec.to_bytes xs) (λ bs, polyvec.from_bytes bs = map (map (λ x, x mod Q)) xs ∧
    length bs = POLYVECBYTES ∧ is_bytes bs).
Proof.
  unfold polyvec.from_bytes, POLYVECBYTES. generalize K. intros k. unfold polyvec.to_bytes.
  revert xs. induction k as [|k IH]; intros [|x xs] Hk Hl Hb; try done.
  { apply yields_done. split_and!; [done..|constructor]. }
  apply Forall_cons in Hl as [Lx Hl], Hb as [Bx Hb]. injection Hk as Hk. specialize (IH xs Hk Hl Hb).
  cbn [each]. destruct (from_to_bytes x Lx Bx) as (b & -> & Eb & Lb & Hbb). cbn [obind].
  destruct IH as (bs & E & Ebs & Lbs & Hbs). destruct (each poly.to_bytes xs) as [l|] eqn:El; [|done].
  cbn [obind] in *. injection E as <-. apply yields_done. cbn [concat]. split_and!.
  - cbn [polyvec.from_bytes_loop map]. rewrite take_app_n, drop_app_n by done. by rewrite Eb, Ebs.
  - rewrite length_app, Lb, Lbs. lia.
  - by apply Forall_app_2.
Qed.

(** What any bytes decode to: the ranges that keep the arithmetic from overflowing. *)
Lemma from_bytes_bounded n bs : length bs = (n * 3)%nat →
  length (poly.from_bytes bs) = (n * 2)%nat ∧ Forall (λ x, 0 ≤ x < 4096) (poly.from_bytes bs).
Proof.
  revert bs. induction n as [|n IH]; intros bs Hl; [by destruct bs|].
  destruct bs as [|a [|b [|c bs]]]; try (simpl in Hl; lia).
  destruct (IH bs ltac:(simpl in Hl; lia)) as [L B]. cbn [poly.from_bytes map app]. rewrite !land_4095.
  split; [simpl; lia|].
  assert (∀ z, 0 ≤ i16 (z mod 4096) < 4096) as Hz.
  { intros z. pose proof (Z.mod_pos_bound z 4096 ltac:(lia)). rewrite signed_small by (simpl; lia). done. }
  by repeat constructor; try apply Hz.
Qed.
Lemma polyvec_from_bytes_bounded bs : length bs = POLYVECBYTES →
  ∃ x0 x1 x2, polyvec.from_bytes bs = [x0; x1; x2] ∧
    Forall (λ x, length x = 256%nat ∧ Forall (λ x, 0 ≤ x < 4096) x) [x0; x1; x2].
Proof.
  intros Hl. change POLYVECBYTES with 1152%nat in Hl. unfold polyvec.from_bytes. cbn [K polyvec.from_bytes_loop].
  do 3 eexists. split; [done|].
  repeat constructor; apply (from_bytes_bounded 128); rewrite length_take, ?length_drop, Hl; done.
Qed.

(** Four bits: the error is at most 104. *)
Definition near (b x y : Z) : Prop := ∃ e, Z.abs e ≤ b ∧ y ≡q x + e.

Definition compress4 (u : Z) : Z := (u mod Q * 16 + 1664) / Q mod 16.
Lemma compress_coeff_spec u : Z.abs u ≤ 1664 → poly.compress_coeff u = Done (compress4 u).
Proof.
  intros Hu. unfold poly.compress_coeff. rewrite lift_spec by (unfold Q; lia). cbn [obind].
  pose proof (Z.mod_pos_bound u Q ltac:(done)) as M. unfold compress4. set (x := u mod Q) in *. unfold Q in M.
  rewrite shiftl_mul by lia. rewrite (wrap_small 16 x) by (unfold fits; simpl; lia).
  rewrite (wrap_small 16) by (unfold fits; simpl; lia). unfold checked. change (Q / 2) with 1664.
  rewrite decide_True by (simpl; lia). cbn [obind]. f_equal.
  rewrite land_15. unfold wrap. change (2 ^ 4) with 16. change (2 ^ 8) with 256. zlia.
Qed.
Lemma decompress_coeff_spec u : 0 ≤ u < 16 →
  yields (poly.decompress_coeff u) (λ y, y = (u * Q + 8) / 16 ∧ 0 ≤ y < Q).
Proof.
  intros Hu. unfold poly.decompress_coeff, Q.
  eapply yields_bind; [apply yields_checked with (P := λ z, z = u * 3329); [lia|done]|]. intros ? ->.
  eapply yields_bind; [apply yields_checked with (P := λ z, z = u * 3329 + 8); [lia|done]|]. intros ? ->.
  apply yields_done. rewrite Z.shiftr_div_pow2 by lia. change (2 ^ 4) with 16.
  rewrite signed_small by (simpl; zlia). zlia.
Qed.
Lemma compress4_near u y : y = (compress4 u * Q + 8) / 16 → near 104 u y.
Proof.
  intros ->. unfold compress4. pose proof (Z.mod_pos_bound u Q ltac:(done)) as M.
  pose proof (cong_mod u) as E. set (x := u mod Q) in *. unfold Q in M.
  assert ((x * 16 + 1664) / Q = 16 ∨ (x * 16 + 1664) / Q mod 16 = (x * 16 + 1664) / Q) as [Hc|Hc]
    by (unfold Q; zlia).
  - exists (Q - x). unfold Q in *. split; [zlia|]. rewrite <-E, Hc. change (16 mod 16) with 0.
    rewrite <-(cong_add_mul _ 1). apply cong_eq. unfold Q. zlia.
  - exists (((x * 16 + 1664) / Q * Q + 8) / 16 - x). rewrite Hc. split; [unfold Q; zlia|].
    rewrite <-E. apply cong_eq. lia.
Qed.

Lemma nibbles_spec l n : length l = (n * 2)%nat → Forall (λ x, 0 ≤ x < 16) l →
  length (poly.nibbles l) = n ∧ is_bytes (poly.nibbles l) ∧
  flat_map (λ b, [Z.land b 15; Z.shiftr b 4]) (poly.nibbles l) = l.
Proof.
  revert l. induction n as [|n IH]; intros l Hl Hb; [destruct l; [|done]; split_and!; [done|constructor|done]|].
  destruct l as [|a [|b l]]; try (simpl in Hl; lia). rewrite !Forall_cons in Hb. destruct Hb as (Ha & Hb & Hr).
  destruct (IH l ltac:(simpl in Hl; lia) Hr) as (L & B & E).
  cbn [poly.nibbles flat_map]. rewrite shiftl_mul by lia.
  assert (as_u8 (b * 2 ^ 4) = b * 2 ^ 4) as -> by (apply wrap_small; unfold fits; simpl; lia).
  rewrite lor_add by lia. change (2 ^ 4) with 16.
  split_and!; [simpl; lia|constructor; [unfold fits; simpl; lia|done]|].
  rewrite E, land_15, Z.shiftr_div_pow2 by lia. change (2 ^ 4) with 16. cbn [app]. f_equal; [zlia|f_equal; zlia].
Qed.

Lemma flat_nibbles bs n : length bs = n → is_bytes bs →
  length (flat_map (λ b, [Z.land b 15; Z.shiftr b 4]) bs) = (n * 2)%nat ∧
  Forall (λ x, 0 ≤ x < 16) (flat_map (λ b, [Z.land b 15; Z.shiftr b 4]) bs).
Proof.
  intros <- Hb. induction Hb as [|b bs Hb _ [IH1 IH2]]; [done|]. cbn [flat_map app length].
  split; [lia|]. unfold fits in Hb. change (2 ^ 8) with 256 in Hb.
  rewrite land_15, Z.shiftr_div_pow2 by lia. change (2 ^ 4) with 16. repeat constructor; (done || zlia).
Qed.

Lemma poly_decompress_spec bs : length bs = POLYCOMPRESSEDBYTES → is_bytes bs →
  yields (poly.decompress bs) (λ ys, length ys = 256%nat ∧ Forall (λ y, 0 ≤ y < Q) ys).
Proof.
  intros Hl Hb. destruct (flat_nibbles bs 128 Hl Hb) as [L B]. eapply yields_mono.
  { apply (yields_each _ _ _ (λ _ y, 0 ≤ y < Q) B). intros u Hu.
    eapply yields_mono; [by apply decompress_coeff_spec|]. by intros ? [_ ?]. }
  intros ys Hy. split; [by rewrite <-(Forall2_length _ _ _ Hy)|].
  eapply Forall2_Forall_r; [exact Hy|]. apply Forall_true. by intros.
Qed.

(** Compressing and decompressing a polynomial. *)
Lemma poly_compress_spec xs : length xs = 256%nat → bounded 1664 xs →
  yields (poly.compress xs) (λ bs, length bs = POLYCOMPRESSEDBYTES ∧ is_bytes bs ∧
    ∀ ys, poly.decompress bs = Done ys → Forall2 (near 104) xs ys).
Proof.
  intros Hl Hb. unfold poly.compress.
  rewrite (yields_each_map _ compress4 _ _ Hb) by apply compress_coeff_spec. cbn [obind]. apply yields_done.
  destruct (nibbles_spec (map compress4 xs) 128) as (L & B & E); [by rewrite length_map, Hl| |].
  { apply Forall_map, Forall_true. intros x. apply Z.mod_pos_bound. lia. }
  split_and!; [done..|]. intros ys. unfold poly.decompress. rewrite E. clear.
  revert ys. induction xs as [|x xs IH]; intros ys; cbn [map each]; [by intros [= <-]|].
  destruct (decompress_coeff_spec (compress4 x)) as (y & -> & Ey & _); [by apply Z.mod_pos_bound|].
  cbn [obind]. destruct (each _ _) as [zs|]; [|done]. cbn [obind]. intros [= <-].
  constructor; [by apply compress4_near|by apply IH].
Qed.

(** Ten bits: the error is at most two. *)
Definition compress10 (u : Z) : Z := (u mod Q * 1024 + 1664) / Q mod 1024.
Lemma compress10_spec u : Z.abs u ≤ 1664 → polyvec.compress_coeff u = Done (compress10 u).
Proof.
  intros Hu. unfold polyvec.compress_coeff. rewrite lift_spec by (unfold Q; lia). cbn [obind].
  pose proof (Z.mod_pos_bound u Q ltac:(done)) as M. unfold compress10. set (x := u mod Q) in *. unfold Q in M.
  rewrite shiftl_mul by lia. rewrite (wrap_small 32 x) by (unfold fits; simpl; lia).
  rewrite (wrap_small 32) by (unfold fits; simpl; lia). unfold checked. change (Q / 2) with 1664.
  rewrite decide_True by (simpl; lia). cbn [obind]. f_equal. by rewrite land_1023.
Qed.
Definition decompress10 (c : Z) : Z := (c mod 1024 * Q + 512) / 1024.
Lemma decompress10_spec c : polyvec.decompress_coeff c = decompress10 c ∧ 0 ≤ decompress10 c < Q.
Proof.
  unfold polyvec.decompress_coeff, decompress10. rewrite land_1023, Z.shiftr_div_pow2 by lia.
  change (2 ^ 10) with 1024. unfold Q. rewrite signed_small by (simpl; zlia). zlia.
Qed.
Lemma compress10_near u : near 2 u (decompress10 (compress10 u)).
Proof.
  unfold compress10, decompress10. pose proof (Z.mod_pos_bound u Q ltac:(done)) as M.
  pose proof (cong_mod u) as E. set (x := u mod Q) in *. unfold Q in M. rewrite Z.mod_mod by done.
  assert ((x * 1024 + 1664) / Q = 1024 ∨ (x * 1024 + 1664) / Q mod 1024 = (x * 1024 + 1664) / Q) as [Hc|Hc]
    by (unfold Q; zlia).
  - exists (Q - x). unfold Q in *. split; [zlia|]. rewrite <-E, Hc. change (1024 mod 1024) with 0.
    rewrite <-(cong_add_mul _ 1). apply cong_eq. unfold Q. zlia.
  - exists (((x * 1024 + 1664) / Q * Q + 512) / 1024 - x). rewrite Hc. split; [unfold Q; zlia|].
    rewrite <-E. apply cong_eq. lia.
Qed.

(* the high bits of [a] under the low bits of [b] *)
Lemma pack_byte a b s w : 0 ≤ s → 0 ≤ w → 0 ≤ a < 2 ^ (s + w) → as_u8 (Z.lor (Z.shiftr a s) (Z.shiftl b w)) = (a / 2 ^ s + b * 2 ^ w) mod 256.
Proof.
  intros Hs Hw Ha. rewrite Z.shiftr_div_pow2, shiftl_mul by lia. rewrite lor_add; [done|done|].
  rewrite Z.pow_add_r in Ha by lia. split; [apply Z.div_pos; lia|]. apply Z.div_lt_upper_bound; lia.
Qed.
Lemma unpack_ten x y s w : 0 ≤ s → 0 ≤ w → 0 ≤ x < 2 ^ (s + w) → 0 ≤ y < 2 ^ 8 → w ≤ 8 →
  Z.lor (Z.shiftr x s) (as_u16 (Z.shiftl y w)) = x / 2 ^ s + y * 2 ^ w.
Proof.
  intros Hs Hw Hx Hy Hw8. rewrite Z.shiftr_div_pow2, shiftl_mul by lia. rewrite wrap_small.
  - apply lor_add; [done|]. rewrite Z.pow_add_r in Hx by lia.
    split; [apply Z.div_pos; lia|]. apply Z.div_lt_upper_bound; lia.
  - unfold fits. assert (2 ^ w ≤ 2 ^ 8) by (apply Z.pow_le_mono_r; lia). change (2 ^ 16) with (2 ^ 8 * 2 ^ 8). nia.
Qed.

Lemma pack10_spec l n : length l = (n * 4)%nat → Forall (λ x, 0 ≤ x < 1024) l →
  length (polyvec.pack10 l) = (n * 5)%nat ∧ is_bytes (polyvec.pack10 l) ∧
  map polyvec.decompress_coeff (polyvec.unpack10 (polyvec.pack10 l)) = map decompress10 l.
Proof.
  revert l. induction n as [|n IH]; intros l Hl Hb;
    [destruct l; [|done]; split_and!; [done|constructor|done]|].
  destruct l as [|t0 [|t1 [|t2 [|t3 l]]]]; try (simpl in Hl; lia).
  rewrite !Forall_cons in Hb. destruct Hb as (H0 & H1 & H2 & H3 & Hr).
  destruct (IH l ltac:(simpl in Hl; lia) Hr) as (L & B & E). cbn [polyvec.pack10 map app].
  rewrite (pack_byte t0 t1 8 2), (pack_byte t1 t2 6 4), (pack_byte t2 t3 4 6) by (done || (simpl; lia)).
  assert (as_u8 (Z.shiftr t3 2) = t3 / 4) as ->.
  { rewrite Z.shiftr_div_pow2 by lia. change (2 ^ 2) with 4. apply wrap_small. unfold fits. simpl. zlia. }
  change (as_u8 t0) with (t0 mod 256).
  change (2 ^ 8) with 256. change (2 ^ 2) with 4. change (2 ^ 6) with 64. change (2 ^ 4) with 16.
  split_and!; [simpl; lia|repeat constructor; try done; simpl; zlia|].
  cbn [polyvec.unpack10 map app]. rewrite E. change (8 - 2 * 0) with 8. change (8 - 2 * 1) with 6.
  change (8 - 2 * 2) with 4. change (8 - 2 * 3) with 2. change (2 * 0) with 0. change (2 * 1) with 2.
  change (2 * 2) with 4. change (2 * 3) with 6.
  rewrite !unpack_ten by (done || (simpl; zlia)).
  change (2 ^ 0) with 1. change (2 ^ 8) with 256. change (2 ^ 2) with 4. change (2 ^ 6) with 64. change (2 ^ 4) with 16.
  assert (∀ x t, x mod 1024 = t mod 1024 → polyvec.decompress_coeff x = decompress10 t) as Hd.
  { intros x t Ext. rewrite (proj1 (decompress10_spec x)). unfold decompress10. by rewrite Ext. }
  f_equal; [apply Hd; zlia|f_equal; [apply Hd; zlia|f_equal; [apply Hd; zlia|f_equal; apply Hd; zlia]]].
Qed.

Lemma unpack10_length bs n : length bs = (n * 5)%nat → length (polyvec.unpack10 bs) = (n * 4)%nat.
Proof.
  revert bs. induction n as [|n IH]; intros bs Hl; [by destruct bs|].
  destruct bs as [|b0 [|b1 [|b2 [|b3 [|b4 bs]]]]]; try (simpl in Hl; lia).
  cbn [polyvec.unpack10 map app length]. rewrite IH by (simpl in Hl; lia). lia.
Qed.

Lemma split_polys_spec (P : list Z → list Z → Prop) k xs l :
  (∀ n (a b : list Z), P a b → P (take n a) (take n b)) → (∀ n (a b : list Z), P a b → P (drop n a) (drop n b)) →
  length xs = k → Forall (λ x, length x = N) xs → length l = (k * N)%nat → P (concat xs) l →
  length (polyvec.split_polys k l) = k ∧ Forall (λ x, length x = N) (polyvec.split_polys k l) ∧
  Forall2 P xs (polyvec.split_polys k l).
Proof.
  intros Ht Hd. revert xs l. induction k as [|k IH]; intros [|x xs] l Hk Hx Hl HP; try done.
  apply Forall_cons in Hx as [Hx Hxs]. injection Hk as Hk. cbn [polyvec.split_polys concat length] in *.
  destruct (IH xs (drop N l)) as (I1 & I2 & I3); [done|done|rewrite length_drop; lia| |].
  { apply (Hd N) in HP. by rewrite drop_app_n in HP. }
  apply (Ht N) in HP. rewrite take_app_n in HP by done.
  split_and!; [lia|constructor; [rewrite length_take; lia|done]|by constructor].
Qed.

Lemma polyvec_decompress_spec bs : length bs = POLYVECCOMPRESSEDBYTES →
  ∃ x0 x1 x2, polyvec.decompress bs = [x0; x1; x2] ∧
    Forall (λ x, length x = 256%nat ∧ Forall (λ y, 0 ≤ y < Q) x) [x0; x1; x2].
Proof.
  intros Hl. change POLYVECCOMPRESSEDBYTES with 960%nat in Hl. unfold polyvec.decompress.
  pose proof (unpack10_length bs 192 Hl) as L. set (l := map polyvec.decompress_coeff (polyvec.unpack10 bs)).
  assert (length l = 768%nat) as Ll by (unfold l; by rewrite length_map, L).
  assert (Forall (λ y, 0 ≤ y < Q) l) as Bl.
  { apply Forall_map, Forall_true. intros u. destruct (decompress10_spec u) as [E ?]. simpl. by rewrite E. }
  clearbody l. cbn [K polyvec.split_polys]. do 3 eexists. split; [done|]. change N with 256%nat.
  repeat constructor; try (rewrite length_take, ?length_drop, Ll; done); apply Forall_take; repeat apply Forall_drop; done.
Qed.

(** Compressing and decompressing a vector. *)
Lemma polyvec_compress_spec xs : length xs = K → Forall (λ x, length x = 256%nat) xs → Forall (bounded 1664) xs →
  yields (polyvec.compress xs) (λ bs, length bs = POLYVECCOMPRESSEDBYTES ∧ is_bytes bs ∧
    Forall2 (Forall2 (near 2)) xs (polyvec.decompress bs)).
Proof.
  intros Hk Hl Hb. unfold polyvec.compress.
  assert (Forall (λ u, Z.abs u ≤ 1664) (concat xs)) as Hc by by apply Forall_concat.
  rewrite (yields_each_map _ compress10 _ _ Hc) by apply compress10_spec. cbn [obind]. apply yields_done.
  assert (length (concat xs) = 768%nat) as Lc.
  { destruct xs as [|x0 [|x1 [|x2 [|]]]]; try done. rewrite !Forall_cons in Hl. destruct Hl as (L0&L1&L2&_).
    cbn [concat]. by rewrite !length_app, L0, L1, L2. }
  destruct (pack10_spec (map compress10 (concat xs)) 192) as (L & B & E); [by rewrite length_map, Lc| |].
  { apply Forall_map, Forall_true. intros x. apply Z.mod_pos_bound. lia. }
  split_and!; [done..|]. unfold polyvec.decompress. rewrite E.
  apply (split_polys_spec (Forall2 (near 2)) K xs); try done.
  - intros. by apply Forall2_take.
  - intros. by apply Forall2_drop.
  - by rewrite !length_map, Lc.
  - clear. induction (concat xs) as [|x l IH]; constructor; [apply compress10_near|done].
Qed.

(** Message bits: a coefficient carries its bit through noise from -832 to 831. *)
Definition noisy (x c : Z) : Prop := ∃ w, -832 ≤ w ≤ 831 ∧ x ≡q c + w.

Lemma land_1 z : Z.land z 1 = z mod 2.
Proof. by apply (land_ones_mod z 1). Qed.
Lemma msg_bit_spec t b : Z.abs t ≤ 1664 → b = 0 ∨ b = 1 → noisy t (b * 1665) → poly.msg_bit t = Done b.
Proof.
  intros Ht Hb (w & Hw & E). unfold poly.msg_bit. rewrite lift_spec by (unfold Q; lia). cbn [obind].
  pose proof (Z.mod_pos_bound t Q ltac:(done)) as M.
  assert (t mod Q = (b * 1665 + w) mod Q) as Ex by exact E.
  set (x := t mod Q) in *. unfold Q in M, Ex. rewrite shiftl_mul by lia.
  rewrite signed_small by (simpl; lia). unfold checked. change (Q / 2) with 1664. change (2 ^ 1) with 2.
  rewrite decide_True by lia. cbn [obind]. f_equal. rewrite land_1, Z.quot_div_nonneg by (unfold Q; lia).
  unfold Q. destruct Hb as [-> | ->]; zlia.
Qed.

Definition bits_of (b : Z) : list Z := map (λ i, Z.land (Z.shiftr b i) 1) (seqZ 0 8).
Lemma byte_cases (P : Z → Prop) b : Forall P (seqZ 0 256) → fits 8 b → P b.
Proof.
  intros HP Hb. rewrite Forall_forall in HP. apply HP. apply elem_of_seqZ. unfold fits in Hb. simpl in Hb. lia.
Qed.
Lemma pack_bits_of b : fits 8 b → poly.pack_bits 0 (bits_of b) = b.
Proof. apply (byte_cases (λ b, poly.pack_bits 0 (bits_of b) = b)). decided. Qed.
Lemma from_msg_byte b : fits 8 b →
  map (λ i, Z.land (- Z.land (Z.shiftr b i) 1) (i16 ((Q + 1) / 2))) (seqZ 0 8) = map (λ x, x * 1665) (bits_of b) ∧
  Forall (λ x, x = 0 ∨ x = 1) (bits_of b).
Proof.
  apply (byte_cases (λ b, map (λ i, Z.land (- Z.land (Z.shiftr b i) 1) (i16 ((Q + 1) / 2))) (seqZ 0 8)
    = map (λ x, x * 1665) (bits_of b) ∧ Forall (λ x, x = 0 ∨ x = 1) (bits_of b))). decided.
Qed.

Lemma each_msg_bits l xs : Forall (λ x, x = 0 ∨ x = 1) l → bounded 1664 xs →
  Forall2 noisy xs (map (λ x, x * 1665) l) → each poly.msg_bit xs = Done l.
Proof.
  intros Hl. revert xs. induction Hl as [|c l Hc Hl IH]; intros xs Hx Hn; inversion Hn as [|x ? xs' ? Ex Hn']; subst;
    [done|].
  apply Forall_cons in Hx as [? Hx]. cbn [each]. rewrite (msg_bit_spec x c) by done. cbn [obind].
  by rewrite (IH xs' Hx Hn').
Qed.
Lemma each_app {A B} (f : A → outcome B) l1 l2 k1 k2 : each f l1 = Done k1 → each f l2 = Done k2 →
  each f (l1 ++ l2) = Done (k1 ++ k2).
Proof.
  revert k1. induction l1 as [|x l1 IH]; intros k1; cbn [each app]; [by intros [= <-]|].
  destruct (f x) as [y|]; [|done]. cbn [obind]. destruct (each f l1) as [ys|]; [|done].
  cbn [obind]. intros [= <-] H2. by rewrite (IH ys).
Qed.

Lemma from_msg_spec m n : length m = n → is_bytes m →
  length (poly.from_msg m) = (n * 8)%nat ∧ bounded 1665 (poly.from_msg m) ∧
  ∀ xs, bounded 1664 xs → Forall2 noisy xs (poly.from_msg m) →
    ∃ bits, each poly.msg_bit xs = Done bits ∧ poly.to_msg_loop n bits = m.
Proof.
  intros <- Hm. induction Hm as [|b m Hb Hm (L & B & IH)].
  { split_and!; [done|constructor|]. intros xs _ Hn. inversion Hn; subst. by exists []. }
  destruct (from_msg_byte b Hb) as [Eb Hbits].
  unfold poly.from_msg in *. cbn [flat_map length]. rewrite Eb.
  set (rest := flat_map _ m) in *. assert (length (bits_of b) = 8%nat) as L8 by done.
  split_and!.
  - rewrite length_app, L, length_map, L8. lia.
  - apply Forall_app_2; [|done]. apply Forall_map. eapply Forall_impl; [exact Hbits|]. unfold compose. simpl. lia.
  - intros xs Hx Hn. apply Forall2_app_inv_r in Hn as (x1 & x2 & N1 & N2 & ->).
    apply Forall_app in Hx as [X1 X2]. destruct (IH x2 X2 N2) as (bits & Ebits & Emsg).
    exists (bits_of b ++ bits). split; [apply each_app; [by apply each_msg_bits|done]|].
    cbn [poly.to_msg_loop]. rewrite take_app_n, drop_app_n, Emsg by done. f_equal. by apply pack_bits_of.
Qed.

(** A message survives the noise. *)
Lemma to_msg_noisy m xs : length m = SYMBYTES → is_bytes m → bounded 1664 xs →
  Forall2 noisy xs (poly.from_msg m) → poly.to_msg xs = Done m.
Proof.
  intros Hl Hm Hx Hn. destruct (from_msg_spec m SYMBYTES Hl Hm) as (_ & _ & H).
  destruct (H xs Hx Hn) as (bits & E & Eb). unfold poly.to_msg. rewrite E. cbn [obind]. by rewrite Eb.
Qed.

(** The centred binomial noise: [cbd_chunk] adds bits pairwise in fields of two. *)
Fixpoint fives (n : nat) : Z := match n with O => 0 | S n => 1 + 4 * fives n end.
Definition pair_sums (n : nat) (t : Z) : Z := Z.land t (fives n) + Z.land (Z.shiftr t 1) (fives n).

Lemma land_1_4 t m : Z.land t (1 + 4 * m) = t mod 2 + 4 * Z.land (t / 4) m.
Proof.
  assert (1 + 4 * m = Z.lor 1 (m * 2 ^ 2)) as -> by (rewrite lor_add by lia; change (2 ^ 2) with 4; lia).
  rewrite Z.land_lor_distr_r, land_1.
  assert (Z.land t (m * 2 ^ 2) = Z.land (t / 4) m * 2 ^ 2) as ->.
  { rewrite <-!shiftl_mul, Z.shiftl_land by lia. apply Z.bits_inj'; intros i Hi.
    rewrite !Z.land_spec. destruct (decide (i < 2)).
    - rewrite !Z.shiftl_spec_low by lia. by rewrite !andb_false_r.
    - rewrite !Z.shiftl_spec by lia. f_equal. change 4 with (2 ^ 2). rewrite <-Z.shiftr_div_pow2, Z.shiftr_spec by lia.
      f_equal. lia. }
  rewrite lor_add by zlia. change (2 ^ 2) with 4. lia.
Qed.
Lemma pair_sums_S n t : pair_sums (S n) t = t mod 2 + t / 2 mod 2 + 4 * pair_sums n (t / 4).
Proof.
  unfold pair_sums. cbn [fives]. rewrite !land_1_4, !Z.shiftr_div_pow2 by lia. change (2 ^ 1) with 2.
  replace (t / 2 / 4) with (t / 4 / 2) by zlia. lia.
Qed.
Lemma pair_sums_field n k t : (k < n)%nat →
  Z.land (Z.shiftr (pair_sums n t) (2 * Z.of_nat k)) 3
  = t / 4 ^ Z.of_nat k mod 2 + t / (4 ^ Z.of_nat k * 2) mod 2.
Proof.
  revert k t. induction n as [|n IH]; intros k t Hk; [lia|]. rewrite pair_sums_S.
  assert (∀ z, Z.land z 3 = z mod 4) as H3 by (intros; by apply (land_ones_mod z 2)).
  destruct k as [|k].
  - change (2 * Z.of_nat 0) with 0. change (4 ^ Z.of_nat 0) with 1. rewrite Z.shiftr_0_r, H3, Z.div_1_r.
    change (1 * 2) with 2. zlia.
  - replace (2 * Z.of_nat (S k)) with (2 + 2 * Z.of_nat k) by lia.
    rewrite <-Z.shiftr_shiftr, (Z.shiftr_div_pow2 _ 2) by lia. change (2 ^ 2) with 4.
    replace ((_ + 4 * pair_sums n (t / 4)) / 4) with (pair_sums n (t / 4)) by zlia.
    rewrite IH by lia. rewrite Nat2Z.inj_succ, Z.pow_succ_r by lia.
    rewrite <-!Z.mul_assoc, <-!Z.div_div by lia. done.
Qed.

Definition bit (t i : Z) : Z := t / 2 ^ i mod 2.
Lemma cbd_chunk_spec t :
  cbd_chunk t = map (λ i, bit t (4 * i) + bit t (4 * i + 1) - (bit t (4 * i + 2) + bit t (4 * i + 3))) (seqZ 0 8).
Proof.
  unfold cbd_chunk. change (Z.land t 0x55555555 + Z.land (Z.shiftr t 1) 0x55555555) with (pair_sums 16 t).
  assert (∀ k, (k < 16)%nat → i16 (Z.land (Z.shiftr (pair_sums 16 t) (2 * Z.of_nat k)) 3)
    = bit t (2 * Z.of_nat k) + bit t (2 * Z.of_nat k + 1)) as F.
  { intros k Hk. rewrite (pair_sums_field 16 k t Hk). unfold bit.
    rewrite Z.pow_add_r, Z.pow_mul_r by lia. change (2 ^ 2) with 4. change (2 ^ 1) with 2.
    rewrite signed_small; [done|done|]. simpl. zlia. }
  apply map_ext_in. intros i Hi. apply list_elem_of_In, elem_of_seqZ in Hi.
  pose proof (F (Z.to_nat (2 * i)) ltac:(lia)) as F0. pose proof (F (Z.to_nat (2 * i + 1)) ltac:(lia)) as F1.
  rewrite Z2Nat.id in F0, F1 by lia.
  replace (2 * (2 * i)) with (4 * i) in F0 by lia. replace (2 * (2 * i + 1)) with (4 * i + 2) in F1 by lia.
  rewrite F0, F1. by replace (4 * i + 2 + 1) with (4 * i + 3) by lia.
Qed.

Lemma bit_range t i : 0 ≤ bit t i ≤ 1.
Proof. unfold bit. pose proof (Z.mod_pos_bound (t / 2 ^ i) 2 ltac:(lia)). lia. Qed.

Lemma cbd2_spec n buf : length buf = (n * 4)%nat → length (cbd2 buf) = (n * 8)%nat ∧ bounded 2 (cbd2 buf).
Proof.
  revert buf. induction n as [|n IH]; intros buf Hl; [destruct buf; [|done]; by split; [|constructor]|].
  destruct buf as [|b0 [|b1 [|b2 [|b3 buf]]]]; try (simpl in Hl; lia).
  destruct (IH buf ltac:(simpl in Hl; lia)) as [L B]. cbn [cbd2]. rewrite cbd_chunk_spec.
  set (t := b0 + _ + _ + _). split.
  - rewrite length_app, L. simpl. lia.
  - apply Forall_app_2; [|done]. apply Forall_map, Forall_true. intros i. unfold compose.
    
    pose proof (bit_range t (4 * i)); pose proof (bit_range t (4 * i + 1));
    pose proof (bit_range t (4 * i + 2)); pose proof (bit_range t (4 * i + 3)). lia.
Qed.
