(* ===== verification/KyberKem.v ===== *)
(** Kyber itself: the encryption of indcpa.rs, the key encapsulation of kem.rs and its interface in
    lib.rs, with symetric.rs and verify.rs ([utils/kyber/src]). SHA-3 is a parameter. Tuples of
    byte arrays are taken to be laid out in order, as the [transmute]s of the code rely on.

    The sampling of the matrix can run forever; it has fuel. What samples gives [None] when the fuel
    runs out, which is not a panic ([Some Panic]). *)

From S2P Require Import Prelude KyberArith KyberNtt KyberPoly KyberBytes.

(** The hashes and the extendable outputs, as the streams of their bytes. *)
Class Sha3 := {
  sha3_256 : bytes → bytes;
  sha3_512 : bytes → bytes;
  shake128 : bytes → nat → u8;
  shake256 : bytes → nat → u8;
}.
Class Sha3Ok `{Sha3} : Prop := {
  sha3_256_ok : ∀ b, length (sha3_256 b) = 32%nat ∧ is_bytes (sha3_256 b);
  sha3_512_ok : ∀ b, length (sha3_512 b) = 64%nat ∧ is_bytes (sha3_512 b);
  shake128_ok : ∀ b n, fits 8 (shake128 b n);
  shake256_ok : ∀ b n, fits 8 (shake256 b n);
}.

(** params.rs *)
Definition SSBYTES : nat := 32.
Definition INDCPA_MSGBYTES : nat := SYMBYTES.
Definition INDCPA_PUBLICKEYBYTES : nat := POLYVECBYTES + SYMBYTES.
Definition INDCPA_SECRETKEYBYTES : nat := POLYVECBYTES.
Definition INDCPA_BYTES : nat := POLYVECCOMPRESSEDBYTES + POLYCOMPRESSEDBYTES.
Definition PUBLICKEYBYTES : nat := INDCPA_PUBLICKEYBYTES.
Definition SECRETKEYBYTES : nat := INDCPA_SECRETKEYBYTES + INDCPA_PUBLICKEYBYTES + 2 * SYMBYTES.
Definition CIPHERTEXTBYTES : nat := INDCPA_BYTES.
Definition XOF_BLOCKBYTES : nat := 168.
Definition GEN_MATRIX_NBLOCKS : nat := (12 * N / 8 * 4096 / 3329 + XOF_BLOCKBYTES) / XOF_BLOCKBYTES.

(** Rejection sampling: the values written to the front of a slice of [room] places. *)
Definition put (v : Z) (room : nat) (rest : nat → list Z) : list Z :=
  if v <? Q then match room with O => [] | S room => v :: rest room end else rest room.
Fixpoint rej_uniform (room : nat) (buf : bytes) : list Z :=
  match buf with
  | a :: b :: c :: buf =>
      let val0 := Z.land (Z.lor a (Z.shiftl b 8)) 4095 in
      let val1 := Z.land (Z.lor (Z.shiftr b 4) (Z.shiftl c 4)) 4095 in
      put val0 room (λ room, put val1 room (λ room, rej_uniform room buf))
  | _ => []
  end.

(* [pos] bytes of the stream are read, [a] is sampled *)
Fixpoint sample_loop (fuel : nat) (stream : nat → u8) (pos : nat) (buf : bytes) (buflen : nat) (a : list Z)
    : option (list Z) :=
  if (length a <? N)%nat then
    match fuel with
    | O => None
    | S fuel =>
        let off := (buflen mod 3)%nat in
        let buf := fold_left (λ buf k, <[k:=nth (buflen - off + k) buf 0]> buf) (seq 0 off) buf in
        let buf := <[off:=stream pos]> buf in
        let buflen := (off + XOF_BLOCKBYTES)%nat in
        sample_loop fuel stream (S pos) buf buflen (a ++ rej_uniform (N - length a) (take buflen buf))
    end
  else Some a.
Definition sample (fuel : nat) (stream : nat → u8) : option (list Z) :=
  let buflen := (GEN_MATRIX_NBLOCKS * XOF_BLOCKBYTES)%nat in
  let buf := map stream (seq 0 buflen) ++ [0; 0] in
  sample_loop fuel stream buflen buf buflen (rej_uniform N (take buflen buf)).

Section kyber.
Context `{Sha3} (fuel : nat).

(** symetric.rs *)
Definition hash_h (input : bytes) : bytes := sha3_256 input.
Definition hash_g (input : bytes) : bytes := sha3_512 input.
Definition prf (len : nat) (key : bytes) (nonce : u8) : bytes := map (shake256 (key ++ [nonce])) (seq 0 len).
Definition xof_absorb (seed : bytes) (x y : u8) : bytes := seed ++ [x; y].

(** verify.rs *)
Definition verify (a b : bytes) : bool := fold_left (λ acc '(a, b), Z.lor acc (Z.lxor a b)) (zip a b) 0 =? 0.

Definition getnoise_eta1 (seed : bytes) (nonce : u8) : list Z := eta1 (prf (ETA1 * N / 4) seed nonce).
Definition getnoise_eta2 (seed : bytes) (nonce : u8) : list Z := eta2 (prf (ETA2 * N / 4) seed nonce).

(** indcpa.rs *)
Definition gen_row (seed : bytes) (transposed : bool) (i : Z) : option (list (list Z)) :=
  mapM (λ j, sample fuel (shake128 (if transposed then xof_absorb seed i j else xof_absorb seed j i)))
    (seqZ 0 3).
Definition gen_matrix (seed : bytes) (transposed : bool) : option (list (list (list Z))) :=
  mapM (gen_row seed transposed) (seqZ 0 3).

Definition pack_pk (pv : list (list Z)) (seed : bytes) : outcome bytes :=
  try! b := polyvec.to_bytes pv in Done (b ++ seed).
Definition unpack_pk (pk : bytes) : list (list Z) * bytes :=
  (polyvec.from_bytes (take POLYVECBYTES pk), drop POLYVECBYTES pk).
Definition pack_sk (sk : list (list Z)) : outcome bytes := polyvec.to_bytes sk.
Definition unpack_sk (sk : bytes) : list (list Z) := polyvec.from_bytes sk.
Definition pack_ciphertext (b : list (list Z)) (v : list Z) : outcome bytes :=
  try! x := polyvec.compress b in try! y := poly.compress v in Done (x ++ y).
Definition unpack_ciphertext (c : bytes) : outcome (list (list Z) * list Z) :=
  let b := polyvec.decompress (take POLYVECCOMPRESSEDBYTES c) in
  try! v := poly.decompress (drop POLYVECCOMPRESSEDBYTES c) in Done (b, v).

Definition keypair_derand (coins : bytes) : option (outcome (bytes * bytes)) :=
  let buf := hash_g coins in
  let publicseed := take SYMBYTES buf in
  let noiseseed := drop SYMBYTES buf in
  a ← gen_matrix publicseed false;
  Some (
    let skpv := map (getnoise_eta1 noiseseed) (seqZ 0 3) in
    let e := map (λ i, getnoise_eta1 noiseseed (i + 3)) (seqZ 0 3) in
    try! skpv := polyvec.ntt skpv in
    try! e := polyvec.ntt e in
    try! pkpv := each (λ a, polyvec.basemul_acc_montgomery a skpv) a in
    try! pkpv := each poly.tomont pkpv in
    try! pkpv := polyvec.add pkpv e in
    try! pkpv := polyvec.reduce pkpv in
    try! pk := pack_pk pkpv publicseed in
    try! sk := pack_sk skpv in
    Done (pk, sk)).

(* what [enc] packs into the ciphertext, from the unpacked key and the matrix *)
Definition enc_parts (m coins : bytes) (pkpv : list (list Z)) (at_ : list (list (list Z))) :
    outcome (list (list Z) * list Z) :=
  let k := poly.from_msg m in
  let sp := map (getnoise_eta1 coins) (seqZ 0 3) in
  let ep := map (λ i, getnoise_eta2 coins (i + 3)) (seqZ 0 3) in
  let epp := getnoise_eta2 coins (3 + 3) in
  try! sp := polyvec.ntt sp in
  try! b := each (λ a, polyvec.basemul_acc_montgomery a sp) at_ in
  try! v := polyvec.basemul_acc_montgomery pkpv sp in
  try! b := polyvec.invntt_tomont b in
  try! v := poly.invntt_tomont v in
  try! b := polyvec.add b ep in
  try! v := poly.add v epp in
  try! v := poly.add v k in
  try! b := polyvec.reduce b in
  try! v := poly.reduce v in
  Done (b, v).
Definition enc (m pk coins : bytes) : option (outcome bytes) :=
  let (pkpv, seed) := unpack_pk pk in
  at_ ← gen_matrix seed true;
  Some (try! (b, v) := enc_parts m coins pkpv at_ in pack_ciphertext b v).

Definition dec (ct sk : bytes) : outcome bytes :=
  let skpv := unpack_sk sk in
  try! (b, v) := unpack_ciphertext ct in
  try! b := polyvec.ntt b in
  try! mp := polyvec.basemul_acc_montgomery skpv b in
  try! mp := poly.invntt_tomont mp in
  try! mp := poly.sub v mp in
  try! mp := poly.reduce mp in
  poly.to_msg mp.

(** kem.rs *)
Definition kem_keypair_derand (coins : bytes) : option (outcome bytes) :=
  r ← keypair_derand (take SYMBYTES coins);
  Some (
    try! (pk, sk) := r in
    let pk_hash := hash_h pk in
    let z := drop SYMBYTES coins in
    Done (sk ++ pk ++ pk_hash ++ z)).

Definition kem_enc_derand (pk coins : bytes) : option (outcome (bytes * bytes)) :=
  let kr := hash_g (coins ++ hash_h pk) in
  r ← enc coins pk (drop SYMBYTES kr);
  Some (try! ct := r in Done (ct, take SYMBYTES kr)).

Definition kem_dec (ct sk : bytes) : option (outcome (option bytes)) :=
  let isk := take INDCPA_SECRETKEYBYTES sk in
  let rest := drop INDCPA_SECRETKEYBYTES sk in
  let pk := take PUBLICKEYBYTES rest in
  let pk_hash := take SYMBYTES (drop PUBLICKEYBYTES rest) in
  match dec ct isk with
  | Panic => Some Panic
  | Done msg =>
      let kr := hash_g (msg ++ pk_hash) in
      r ← enc msg pk (drop SYMBYTES kr);
      Some (
        try! cyphertext := r in
        Done (if verify ct cyphertext then Some (take SYMBYTES kr) else None))
  end.

(** lib.rs: keys are their bytes. *)
Definition Keypair_new (seed : bytes) : option (outcome bytes) := kem_keypair_derand seed.
Definition publickey (kp : bytes) : bytes := take PUBLICKEYBYTES (drop INDCPA_SECRETKEYBYTES kp).
Definition Keypair_dec (kp ct : bytes) : option (outcome (option bytes)) := kem_dec ct kp.
Definition PublicKey_enc (pk seed : bytes) : option (outcome (bytes * bytes)) := kem_enc_derand pk seed.
End kyber.

(** What ends ends well; [settles] also says that the fuel is enough. *)
Definition safe {A} (m : option (outcome A)) (P : A → Prop) : Prop :=
  match m with Some o => yields o P | None => True end.
Definition settles {A} (m : option (outcome A)) (P : A → Prop) : Prop := ∃ o, m = Some o ∧ yields o P.

Lemma settles_some {A} (o : outcome A) (P : A → Prop) : yields o P → settles (Some o) P.
Proof. by exists o. Qed.
Lemma settles_mono {A} (m : option (outcome A)) (P R : A → Prop) :
  settles m P → (∀ x, P x → R x) → settles m R.
Proof. intros (o & -> & Ho) HR. apply settles_some. by eapply yields_mono. Qed.
Lemma settles_bind {A B} (m : option (outcome A)) (f : A → outcome B) (P : A → Prop) (R : B → Prop) :
  settles m P → (∀ x, P x → yields (f x) R) → settles (o ← m; Some (obind o f)) R.
Proof. intros (o & -> & Ho) HR. apply settles_some. by eapply yields_bind. Qed.
Lemma settles_safe {A} (m : option (outcome A)) (P : A → Prop) : settles m P → safe m P.
Proof. by intros (o & -> & Ho). Qed.
Lemma safe_settles {A} (m : option (outcome A)) (P : A → Prop) : safe m P → m ≠ None → settles m P.
Proof. destruct m as [o|]; [by intros Ho _; exists o|done]. Qed.

(** Vectors of three, componentwise. *)
Definition vec {A} (P : nat → A → Prop) (xs : list A) : Prop :=
  ∃ x0 x1 x2, xs = [x0; x1; x2] ∧ P 0%nat x0 ∧ P 1%nat x1 ∧ P 2%nat x2.

Lemma vec_map {A B} (f : A → B) (P : nat → A → Prop) (R : nat → B → Prop) xs :
  vec P xs → (∀ i x, P i x → R i (f x)) → vec R (map f xs).
Proof. intros (x0 & x1 & x2 & -> & ? & ? & ?) Hf. exists (f x0), (f x1), (f x2). split_and!; eauto. Qed.
Lemma vec_mono {A} (P R : nat → A → Prop) xs : vec P xs → (∀ i x, P i x → R i x) → vec R xs.
Proof. intros (x0 & x1 & x2 & -> & ? & ? & ?) Hf. exists x0, x1, x2. split_and!; eauto. Qed.
Lemma vec_Forall {A} (P : nat → A → Prop) (R : A → Prop) xs : vec P xs → (∀ i x, P i x → R x) → Forall R xs.
Proof. intros (x0 & x1 & x2 & -> & ? & ? & ?) Hf. repeat constructor; eauto. Qed.
Lemma yields_each_vec {A B} (f : A → outcome B) (P : nat → A → Prop) (R : nat → B → Prop) xs :
  vec P xs → (∀ i x, P i x → yields (f x) (R i)) → yields (each f xs) (vec R).
Proof.
  intros (x0 & x1 & x2 & -> & H0 & H1 & H2) Hf. cbn [each].
  destruct (Hf _ _ H0) as (y0 & -> & ?), (Hf _ _ H1) as (y1 & -> & ?), (Hf _ _ H2) as (y2 & -> & ?).
  apply yields_done. exists y0, y1, y2. done.
Qed.
Lemma yields_each2_vec {A B C} (f : A → B → outcome C) (P : nat → A → Prop) (P' : nat → B → Prop)
    (R : nat → C → Prop) xs ys :
  vec P xs → vec P' ys → (∀ i x y, P i x → P' i y → yields (f x y) (R i)) → yields (each2 f xs ys) (vec R).
Proof.
  intros (x0 & x1 & x2 & -> & H0 & H1 & H2) (y0 & y1 & y2 & -> & G0 & G1 & G2) Hf. cbn [each2].
  destruct (Hf _ _ _ H0 G0) as (z0 & -> & ?), (Hf _ _ _ H1 G1) as (z1 & -> & ?), (Hf _ _ _ H2 G2) as (z2 & -> & ?).
  apply yields_done. exists z0, z1, z2. done.
Qed.
Lemma vec_hats (F : nat → nat → Z * Z) xs : vec (λ i x, hat x (F i)) xs → hats xs F.
Proof. done. Qed.

(* a polynomial with small coefficients *)
Definition small (b : Z) (x : list Z) : Prop := length x = 256%nat ∧ bounded b x.

Lemma small_le b c x : b ≤ c → small b x → small c x.
Proof. intros ? [??]. split; [done|]. by eapply bounded_le. Qed.

Lemma hat_self x : length x = 256%nat → hat x (flip pair_at x).
Proof. intros Hl. split; [done|]. intros p _. reflexivity. Qed.

(* a wider bound *)
Ltac grow := (eapply bounded_le || eapply small_le); [|eassumption]; unfold Q; lia.

Lemma ntt_vec (s : nat → list Z) xs : vec (λ i x, x = s i ∧ small 6000 x) xs →
  yields (polyvec.ntt xs) (vec (λ i y, hat y (λ p, ev (gamma p) (s i)) ∧ bounded 1664 y)).
Proof.
  intros Hx. eapply yields_each_vec; [exact Hx|]. intros i x [-> [Hl Hb]]. by apply poly_ntt_spec.
Qed.

Lemma basemul_acc_vec (F : nat → nat → nat → Z * Z) (G : nat → nat → Z * Z) rows ys :
  vec (λ i row, vec (λ j x, hat x (F i j) ∧ bounded 4096 x) row) rows →
  vec (λ j y, hat y (G j) ∧ bounded 4096 y) ys →
  yields (each (λ a, polyvec.basemul_acc_montgomery a ys) rows)
    (vec (λ i r, hat r (λ p, pscale radix_inv (dot (F i) G p)) ∧ bounded 1664 r)).
Proof.
  intros Hr Hy. eapply yields_each_vec; [exact Hr|]. intros i row Hrow. apply basemul_acc_spec.
  - apply vec_hats. eapply vec_mono; [exact Hrow|]. by intros ?? [? _].
  - apply vec_hats. eapply vec_mono; [exact Hy|]. by intros ?? [? _].
  - eapply vec_Forall; [exact Hrow|]. by intros ?? [_ ?].
  - eapply vec_Forall; [exact Hy|]. by intros ?? [_ ?].
Qed.

Lemma radix_pscale a : cong2 (pscale radix (pscale radix_inv a)) a.
Proof. split; cbn [pscale fst snd]; by rewrite Z.mul_assoc, radix_cancel, Z.mul_1_l. Qed.

Lemma tomont_vec F xs : vec (λ i x, hat x (λ p, pscale radix_inv (F i p)) ∧ bounded 1664 x) xs →
  yields (each poly.tomont xs) (vec (λ i y, hat y (F i) ∧ bounded Q y)).
Proof.
  intros Hx. eapply yields_each_vec; [exact Hx|]. intros i x [Hh Hb].
  eapply yields_mono; [by apply tomont_spec|]. intros y [Hy By]. split; [|done].
  eapply hat_impl; [exact Hy|]. intros. apply radix_pscale.
Qed.
Lemma add_vec F G b c xs ys : b + c ≤ 32767 →
  vec (λ i x, hat x (F i) ∧ bounded b x) xs → vec (λ i y, hat y (G i) ∧ bounded c y) ys →
  yields (polyvec.add xs ys) (vec (λ i z, hat z (λ p, padd (F i p) (G i p)) ∧ bounded (b + c) z)).
Proof.
  intros Hbc Hx Hy. eapply yields_each2_vec; [exact Hx|exact Hy|]. intros i x y [Hx1 Bx] [Hy1 By].
  eapply yields_mono; [apply (add_spec x y b c); [by rewrite (proj1 Hx1), (proj1 Hy1)|done..]|].
  intros r [-> Br]. split; [by apply hat_add|done].
Qed.
Lemma reduce_vec F xs : vec (λ i x, hat x (F i) ∧ bounded 31000 x) xs →
  yields (polyvec.reduce xs) (vec (λ i y, hat y (F i) ∧ bounded 1664 y)).
Proof.
  intros Hx. eapply yields_each_vec; [exact Hx|]. intros i x [Hh Hb].
  eapply yields_mono; [by apply reduce_spec|]. intros y (Ey & By & _). split; [by eapply hat_cong|done].
Qed.

(* what a polynomial stands for, modulus by modulus *)
Definition residue (x : list Z) (p : nat) : Z * Z := ev (gamma p) x.
Definition stands (x : list Z) (f : nat → Z * Z) : Prop := ∀ p, (p < 128)%nat → cong2 (residue x p) (f p).

Lemma stands_pcong x y f : x ≡p y → stands y f → stands x f.
Proof. intros E Hs p Hp. unfold residue. rewrite E. by apply Hs. Qed.
Lemma stands_add x y f : length x = length y → stands x f → stands (zip_with Z.add x y) (λ p, padd (f p) (residue y p)).
Proof. intros Hl Hs p Hp. unfold residue. rewrite ev_add by done. by rewrite <-(Hs p Hp). Qed.

Lemma invntt_vec F xs : vec (λ i x, hat x (λ p, pscale radix_inv (F i p)) ∧ bounded 1664 x) xs →
  yields (polyvec.invntt_tomont xs) (vec (λ i y, small Q y ∧ stands y (F i))).
Proof.
  intros Hx. eapply yields_each_vec; [exact Hx|]. intros i x [Hh Hb].
  eapply yields_mono; [apply (poly_invntt_spec x _ Hh); grow|]. intros y (Ly & By & Ry).
  split; [done|]. intros p Hp. unfold residue. rewrite (Ry p Hp). apply radix_pscale.
Qed.
Lemma add_noise_vec F (e : nat → list Z) xs ys : vec (λ i x, small Q x ∧ stands x (F i)) xs →
  vec (λ i y, y = e i ∧ small 2 y) ys →
  yields (polyvec.add xs ys) (vec (λ i z, small 4000 z ∧ stands z (λ p, padd (F i p) (residue (e i) p)))).
Proof.
  intros Hx Hy. eapply yields_each2_vec; [exact Hx|exact Hy|]. intros i x y [[Lx Bx] Sx] (-> & Ly & By).
  eapply yields_mono; [apply (add_spec x _ Q 2); [congruence|done..]|]. intros z [-> Bz].
  split; [split; [by apply zip_add_length|grow]|]. apply stands_add; [congruence|done].
Qed.
Lemma reduce_stands F xs : vec (λ i x, small 4000 x ∧ stands x (F i)) xs →
  yields (polyvec.reduce xs) (vec (λ i y, small 1664 y ∧ stands y (F i))).
Proof.
  intros Hx. eapply yields_each_vec; [exact Hx|]. intros i x [[Lx Bx] Sx].
  eapply yields_mono; [apply reduce_spec; grow|]. intros y (Ey & By & Ly).
  split; [split; congruence|by eapply stands_pcong].
Qed.

Lemma residue_add x y p : length x = length y → residue (zip_with Z.add x y) p = padd (residue x p) (residue y p).
Proof. apply ev_add. Qed.
Lemma residue_sub x y p : length x = length y → residue (zip_with Z.sub x y) p = psub (residue x p) (residue y p).
Proof. apply ev_sub. Qed.

(** Sampled polynomials. *)
Lemma put_spec v room rest : 0 ≤ v →
  (∀ n, (n ≤ room)%nat → (length (rest n) ≤ n)%nat ∧ Forall (λ x, 0 ≤ x < Q) (rest n)) →
  (length (put v room rest) ≤ room)%nat ∧ Forall (λ x, 0 ≤ x < Q) (put v room rest).
Proof.
  intros Hv Hr. unfold put. destruct (Z.ltb_spec v Q); [|by apply Hr].
  destruct room as [|room]; [by split; [|constructor]|]. destruct (Hr room ltac:(lia)) as [? ?].
  split; [simpl; lia|by constructor].
Qed.
Lemma rej_uniform_step room buf : is_bytes buf →
  (length (rej_uniform room buf) ≤ room)%nat ∧ Forall (λ x, 0 ≤ x < Q) (rej_uniform room buf).
Proof.
  assert (∀ n buf, (length buf < n)%nat → ∀ room, is_bytes buf →
    (length (rej_uniform room buf) ≤ room)%nat ∧ Forall (λ x, 0 ≤ x < Q) (rej_uniform room buf)) as Hn;
    [|apply (Hn (S (length buf))); lia].
  clear. intros n. induction n as [|n IH]; intros buf Hl room Hb; [lia|].
  destruct buf as [|a [|b [|c buf]]]; try (split; [simpl; lia|constructor]).
  unfold is_bytes in Hb. rewrite !Forall_cons in Hb. destruct Hb as (Ha & Hb & Hc & Hr). cbn [rej_uniform].
  rewrite !land_4095.
  apply put_spec; [apply Z.mod_pos_bound; lia|]. intros room1 _.
  apply put_spec; [apply Z.mod_pos_bound; lia|]. intros room2 _. apply IH; [simpl in Hl; lia|done].
Qed.

Lemma is_bytes_insert i (x : u8) buf : fits 8 x → is_bytes buf → is_bytes (<[i:=x]> buf).
Proof. intros. by apply Forall_insert. Qed.
Lemma is_bytes_nth buf i : is_bytes buf → fits 8 (nth i buf 0).
Proof.
  intros Hb. destruct (decide (i < length buf)%nat).
  - unfold is_bytes in Hb. rewrite Forall_forall in Hb. apply Hb, list_elem_of_In, nth_In. done.
  - rewrite nth_overflow by lia. done.
Qed.

Lemma is_bytes_refill (g : nat → nat) ks buf : is_bytes buf →
  is_bytes (fold_left (λ buf k, <[k:=nth (g k) buf 0]> buf) ks buf).
Proof.
  revert buf. induction ks as [|k ks IH]; intros buf Hb; [done|]. cbn [fold_left].
  apply IH, is_bytes_insert; [by apply is_bytes_nth|done].
Qed.

Lemma sample_loop_spec fuel stream pos buf buflen a x : (∀ n, fits 8 (stream n)) → is_bytes buf →
  (length a ≤ N)%nat → Forall (λ x, 0 ≤ x < Q) a →
  sample_loop fuel stream pos buf buflen a = Some x → length x = N ∧ Forall (λ x, 0 ≤ x < Q) x.
Proof.
  intros Hs. revert pos buf buflen a. induction fuel as [|fuel IH]; intros pos buf buflen a Hb Hl Ha;
    cbn [sample_loop]; destruct (Nat.ltb_spec (length a) N) as [Hlt|Hge]; try done.
  - intros [= <-]. split; [lia|done].
  - cbn zeta. set (buf' := <[_:=_]> (fold_left _ _ _)). assert (is_bytes buf') as Hb'.
    { apply is_bytes_insert; [apply Hs|by apply (is_bytes_refill (λ k, buflen - buflen mod 3 + k)%nat)]. }
    destruct (rej_uniform_step (N - length a) (take (buflen mod 3 + XOF_BLOCKBYTES) buf')) as [L B].
    { by apply Forall_take. }
    apply IH; [done|rewrite length_app; lia|by apply Forall_app_2].
  - intros [= <-]. split; [lia|done].
Qed.
Lemma sample_spec fuel stream x : (∀ n, fits 8 (stream n)) → sample fuel stream = Some x →
  length x = 256%nat ∧ Forall (λ x, 0 ≤ x < Q) x.
Proof.
  intros Hs. unfold sample. set (buflen := (GEN_MATRIX_NBLOCKS * XOF_BLOCKBYTES)%nat).
  assert (is_bytes (map stream (seq 0 buflen) ++ [0; 0])) as Hb.
  { apply Forall_app_2; [|by repeat constructor]. apply Forall_map, Forall_true. intros. apply Hs. }
  destruct (rej_uniform_step N (take buflen (map stream (seq 0 buflen) ++ [0; 0]))) as [L B];
    [by apply Forall_take|]. by apply sample_loop_spec.
Qed.

(** * What each operation computes, residue by residue. *)
Section spec.
Context `{Sha3Ok} (fuel : nat).

Definition in_range (x : list Z) : Prop := Forall (λ c, 0 ≤ c < Q) x.
Definition matrix {A} (P : nat → nat → A → Prop) (rows : list (list A)) : Prop :=
  vec (λ i row, vec (P i) row) rows.

Lemma in_range_bounded x : in_range x → bounded 4096 x.
Proof. intros Hx. eapply Forall_impl; [exact Hx|]. unfold Q. simpl. lia. Qed.

Lemma getnoise_small seed nonce : small 2 (getnoise_eta1 seed nonce) ∧ small 2 (getnoise_eta2 seed nonce).
Proof.
  assert (length (prf 128 seed nonce) = (32 * 4)%nat) as L by (unfold prf; by rewrite length_map, length_seq).
  pose proof (cbd2_spec 32 _ L) as Hc. by split.
Qed.

Lemma noise_vec (f : Z → list Z) : (∀ i, small 2 (f i)) →
  vec (λ i x, x = f (Z.of_nat i) ∧ small 2 x) (map f (seqZ 0 3)).
Proof. intros Hf. exists (f 0), (f 1), (f 2). split_and!; try done; apply Hf. Qed.

Lemma sample_fits seed x : sample fuel (shake128 seed) = Some x → length x = 256%nat ∧ in_range x.
Proof. apply sample_spec. intros n. apply shake128_ok. Qed.

(* the matrix is there in either orientation once its nine polynomials are *)
Lemma gen_matrix_ends seed transposed : gen_matrix fuel seed transposed ≠ None ↔
  ∀ x y, x ∈ seqZ 0 3 → y ∈ seqZ 0 3 → sample fuel (shake128 (xof_absorb seed x y)) ≠ None.
Proof.
  assert (∀ {A} (o : option A), o ≠ None ↔ is_Some o) as Hn by (intros; apply not_eq_None_Some).
  unfold gen_matrix, gen_row. rewrite Hn, mapM_is_Some, Forall_forall. split.
  - intros Hr x y Hx Hy. rewrite Hn.
    destruct transposed; [specialize (Hr x Hx)|specialize (Hr y Hy)];
      apply mapM_is_Some in Hr; rewrite Forall_forall in Hr; [exact (Hr y Hy)|exact (Hr x Hx)].
  - intros Hs i Hi. apply mapM_is_Some, Forall_forall. intros j Hj. apply Hn. destruct transposed; auto.
Qed.
Lemma gen_matrix_transposed seed t t' : gen_matrix fuel seed t ≠ None → gen_matrix fuel seed t' ≠ None.
Proof. by rewrite !gen_matrix_ends. Qed.

(* one sampling for both orientations of the matrix *)
Lemma gen_matrix_spec seed rows : gen_matrix fuel seed false = Some rows →
  ∃ a : nat → nat → list Z,
    matrix (λ i j x, x = a i j ∧ length x = 256%nat ∧ in_range x) rows ∧
    ∃ rows', gen_matrix fuel seed true = Some rows' ∧
      matrix (λ i j x, x = a j i ∧ length x = 256%nat ∧ in_range x) rows'.
Proof.
  unfold gen_matrix, gen_row. change (seqZ 0 3) with [0; 1; 2].
  set (smp x y := sample fuel (shake128 (xof_absorb seed x y))).
  assert (∀ x y, sample fuel (shake128 (xof_absorb seed x y)) = smp x y) as Es by done.
  assert (∀ x y l, smp x y = Some l → length l = 256%nat ∧ in_range l) as Hok by (intros ???; apply sample_fits).
  cbn [mapM mbind option_bind mret option_ret]. rewrite !Es. clearbody smp. intros Hg.
  repeat match type of Hg with context [smp ?x ?y] =>
    let E := fresh "E" in destruct (smp x y) eqn:E; [|done]; cbn [mbind option_bind] in Hg |- * end.
  injection Hg as <-.
  exists (λ i j, default [] (smp (Z.of_nat j) (Z.of_nat i))).
  assert (∀ x y l, smp x y = Some l → (l = default [] (smp x y) ∧ length l = 256%nat ∧ in_range l)) as Hent.
  { intros x y k E'. rewrite E'. by split; [|by eapply Hok]. }
  split; [|eexists; split; [done|]]; do 3 eexists; refine (conj eq_refl (conj _ (conj _ _)));
    do 3 eexists; refine (conj eq_refl (conj _ (conj _ _))); by apply Hent.
Qed.

(** The vectors of a key and of a ciphertext. *)
Lemma to_from_vec (F : nat → nat → Z * Z) xs : vec (λ i x, hat x (F i) ∧ bounded 1664 x) xs →
  yields (polyvec.to_bytes xs) (λ bs, length bs = POLYVECBYTES ∧ is_bytes bs ∧
    vec (λ i x, hat x (F i) ∧ in_range x) (polyvec.from_bytes bs)).
Proof.
  intros (x0 & x1 & x2 & -> & [X0 B0] & [X1 B1] & [X2 B2]).
  assert (∀ x, bounded 1664 x → Forall (λ c, - Q ≤ c < Q) x) as Hb.
  { intros x Hx. eapply Forall_impl; [exact Hx|]. unfold Q. simpl. lia. }
  eapply yields_mono.
  { apply polyvec_from_to_bytes; [done|repeat constructor; apply X0 || apply X1 || apply X2|repeat constructor; by apply Hb]. }
  intros bs (E & L & Hbs). split_and!; [done..|]. rewrite E. cbn [map].
  assert (∀ x f, hat x f → hat (map (λ c, c mod Q) x) f ∧ in_range (map (λ c, c mod Q) x)) as Hm.
  { intros x f Hx. split.
    - eapply hat_cong; [|exact Hx]. clear. induction x as [|c x IH]; constructor; [apply cong_mod|done].
    - apply Forall_map, Forall_true. intros c. by apply Z.mod_pos_bound. }
  do 3 eexists. refine (conj eq_refl (conj _ (conj _ _))); by apply Hm.
Qed.

(** The rounding errors: what is to be added to [xs] to get [ys], with the least absolute value. *)
Definition centred (z : Z) : Z := (z + Q / 2) mod Q - Q / 2.
Definition rounding (xs ys : list Z) : list Z := zip_with (λ x y, centred (y - x)) xs ys.

Lemma centred_near b x y : b ≤ Q / 2 → near b x y → Z.abs (centred (y - x)) ≤ b ∧ y ≡q x + centred (y - x).
Proof.
  intros Hb (e & He & E). assert (centred (y - x) = e) as ->; [|done].
  apply cong_divide in E as [k Hk]. unfold centred. replace (y - x + Q / 2) with (e + Q / 2 + k * Q) by lia.
  rewrite Z.mod_add by done. change (Q / 2) with 1664 in *. change Q with 3329. rewrite Z.mod_small by lia. lia.
Qed.
Lemma near_sum b xs ys : b ≤ Q / 2 → Forall2 (near b) xs ys →
  length (rounding xs ys) = length xs ∧ bounded b (rounding xs ys) ∧ ys ≡p zip_with Z.add xs (rounding xs ys).
Proof.
  intros Hb. induction 1 as [|x y xs ys Hn _ (L & B & Ec)]; [by split_and!; [|constructor|constructor]|].
  destruct (centred_near b x y Hb Hn). split_and!; [simpl; congruence|by constructor|by constructor].
Qed.

Lemma ev_pcong g xs ys : xs ≡p ys → cong2 (ev g xs) (ev g ys).
Proof. intros E. by rewrite E. Qed.

(** Key generation: the public vector is [A s + e], residue by residue. *)
Lemma keypair_spec coins (pseed := take SYMBYTES (hash_g coins)) (nseed := drop SYMBYTES (hash_g coins))
    (s := λ i, getnoise_eta1 nseed (Z.of_nat i)) (e := λ i, getnoise_eta1 nseed (Z.of_nat i + 3)) rows a :
  gen_matrix fuel pseed false = Some rows →
  matrix (λ i j x, x = a i j ∧ length x = 256%nat ∧ in_range x) rows →
  settles (keypair_derand fuel coins) (λ '(pk, sk),
    length pk = PUBLICKEYBYTES ∧ is_bytes pk ∧ length sk = INDCPA_SECRETKEYBYTES ∧ is_bytes sk ∧
    (unpack_pk pk).2 = pseed ∧
    vec (λ i x, hat x (λ p, padd (dot (λ j, flip pair_at (a i j)) (λ j, residue (s j)) p) (residue (e i) p))
      ∧ in_range x) (unpack_pk pk).1 ∧
    vec (λ j x, hat x (residue (s j)) ∧ in_range x) (unpack_sk sk)).
Proof.
  intros Hrows Ha. destruct (sha3_512_ok coins) as [Lg Bg].
  assert (length pseed = 32%nat) as Lp by (unfold pseed, hash_g; by rewrite length_take, Lg).
  assert (is_bytes pseed) as Bp by by apply Forall_take.
  unfold keypair_derand. fold pseed nseed. rewrite Hrows. cbn [mbind option_bind]. apply settles_some.
  eapply yields_bind.
  { apply (ntt_vec s). eapply vec_mono; [apply noise_vec; intros; apply getnoise_small|].
    intros i x [-> ?]. split; [done|]. grow. }
  intros skpv Hsk. eapply yields_bind.
  { apply (ntt_vec e). eapply vec_mono; [apply (noise_vec (λ i, getnoise_eta1 nseed (i + 3))); intros; apply getnoise_small|].
    intros i x [-> ?]. split; [done|]. grow. }
  intros ehat He.
  eapply yields_bind.
  { apply (basemul_acc_vec (λ i j, flip pair_at (a i j)) (λ j, residue (s j))).
    - eapply vec_mono; [exact Ha|]. intros i row Hrow. eapply vec_mono; [exact Hrow|].
      intros j x (-> & Hl & Hr). split; [by apply hat_self|by apply in_range_bounded].
    - eapply vec_mono; [exact Hsk|]. intros j y [? ?]. split; [done|]. grow. }
  pose (D := λ i p, dot (λ j, flip pair_at (a i j)) (λ j, residue (s j)) p).
  intros w Hw. eapply yields_bind; [by apply (tomont_vec D)|].
  intros w' Hw'. eapply yields_bind; [by apply (add_vec D (λ i, residue (e i)) Q 1664 w' ehat)|].
  intros t Ht. eapply yields_bind.
  { apply (reduce_vec (λ i p, padd (D i p) (residue (e i) p))). eapply vec_mono; [exact Ht|]. intros i x [? ?]. split; [done|]. grow. }
  intros t' Ht'. unfold pack_pk, pack_sk.
  destruct (to_from_vec _ _ Ht') as (bs & -> & Lb & Bb & Hb). cbn [obind].
  eapply yields_bind; [apply to_from_vec, Hsk|]. intros sk (Ls & Bs & Hs'). apply yields_done.
  unfold unpack_pk, unpack_sk. rewrite take_app_n, drop_app_n by done. cbn [fst snd].
  split_and!; try done; [by rewrite length_app, Lb, Lp|by apply Forall_app_2].
Qed.

Lemma range_bounded x : in_range x → bounded Q x.
Proof. intros Hx. eapply Forall_impl; [exact Hx|]. simpl. lia. Qed.
Lemma zip_with_cong x x' y : x ≡p x' → zip_with Z.add x y ≡p zip_with Z.add x' y.
Proof.
  intros E. revert y. induction E as [|a b x x' Eab E IH]; intros [|c y]; constructor; [by rewrite Eab|apply IH].
Qed.

(** Packing a ciphertext rounds its parts. *)
Lemma pack_ciphertext_spec b v F : vec (λ i x, small 1664 x ∧ stands x (F i)) b → small 1664 v →
  yields (pack_ciphertext b v) (λ ct, length ct = CIPHERTEXTBYTES ∧ is_bytes ct ∧
    ∃ b' v', unpack_ciphertext ct = Done (b', v') ∧
      vec (λ i x, small Q x ∧ let c := rounding (nth i b []) x in
                  small 2 c ∧ stands x (λ p, padd (F i p) (residue c p))) b' ∧
      small Q v' ∧ let c := rounding v v' in small 104 c ∧ v' ≡p zip_with Z.add v c).
Proof.
  intros (x0 & x1 & x2 & -> & [[Lx0 Bx0] Sx0] & [[Lx1 Bx1] Sx1] & [[Lx2 Bx2] Sx2]) [Lv Bv].
  unfold pack_ciphertext.
  destruct (polyvec_compress_spec [x0; x1; x2]) as (cb & -> & Lcb & Bcb & Ncb); [done|by repeat constructor..|].
  destruct (poly_compress_spec v Lv Bv) as (cv & -> & Lcv & Bcv & Ncv). cbn [obind].
  apply yields_done. split_and!; [by rewrite length_app, Lcb, Lcv|by apply Forall_app_2|].
  destruct (polyvec_decompress_spec cb Lcb) as (y0 & y1 & y2 & Ey & Hy).
  destruct (poly_decompress_spec cv Lcv Bcv) as (y & Eyv & Ly & By).
  unfold unpack_ciphertext. rewrite take_app_n, drop_app_n, Ey, Eyv by done. cbn [obind].
  exists [y0; y1; y2], y. split; [done|]. split; [|split; [split; [done|by apply range_bounded]|]].
  - rewrite Ey in Ncb. rewrite !Forall2_cons in Ncb. destruct Ncb as (N0 & N1 & N2 & _).
    rewrite !Forall_cons in Hy. destruct Hy as ([L0 R0] & [L1 R1] & [L2 R2] & _).
    assert (∀ x y f, length x = 256%nat → length y = 256%nat → in_range y → Forall2 (near 2) x y → stands x f →
      small Q y ∧ small 2 (rounding x y) ∧ stands y (λ p, padd (f p) (residue (rounding x y) p))) as Hone.
    { intros x z f Lx Lz Rz Hn Hs. split; [split; [done|by apply range_bounded]|].
      destruct (near_sum 2 _ _ ltac:(done) Hn) as (Lc & Bc & Ec). split; [split; congruence|].
      eapply stands_pcong; [exact Ec|]. apply stands_add; [congruence|done]. }
    do 3 eexists. refine (conj eq_refl (conj _ (conj _ _))); [apply (Hone x0)|apply (Hone x1)|apply (Hone x2)]; done.
  - destruct (near_sum 104 _ _ ltac:(done) (Ncv y Eyv)) as (Lc & Bc & Ec). split; [split; congruence|done].
Qed.

(** Encryption: the parts of the ciphertext, before they are rounded. *)
Lemma enc_parts_spec m coins pkpv rows a (T : nat → nat → Z * Z)
    (r := λ i, getnoise_eta1 coins (Z.of_nat i)) (e1 := λ i, getnoise_eta2 coins (Z.of_nat i + 3))
    (e2 := getnoise_eta2 coins 6) :
  length m = SYMBYTES → is_bytes m →
  vec (λ i x, hat x (T i) ∧ bounded 4096 x) pkpv →
  matrix (λ i j x, x = a j i ∧ length x = 256%nat ∧ in_range x) rows →
  yields (enc_parts m coins pkpv rows) (λ '(b, v),
    vec (λ i x, small 1664 x ∧
      stands x (λ p, padd (dot (λ j, flip pair_at (a j i)) (λ j, residue (r j)) p) (residue (e1 i) p))) b ∧
    small 1664 v ∧ ∃ v0, small Q v0 ∧ stands v0 (dot T (λ j, residue (r j))) ∧
      v ≡p zip_with Z.add (zip_with Z.add v0 e2) (poly.from_msg m)).
Proof.
  intros Lm Bm Ht Ha. unfold enc_parts.
  eapply yields_bind.
  { apply (ntt_vec r). eapply vec_mono; [apply noise_vec; intros; apply getnoise_small|].
    intros i x [-> ?]. split; [done|]. grow. }
  intros sp Hsp.
  assert (vec (λ j y, hat y (residue (r j)) ∧ bounded 4096 y) sp) as Hsp'.
  { eapply vec_mono; [exact Hsp|]. intros j y [? ?]. split; [done|]. grow. }
  eapply yields_bind.
  { apply (basemul_acc_vec (λ i j, flip pair_at (a j i)) (λ j, residue (r j))); [|exact Hsp'].
    eapply vec_mono; [exact Ha|]. intros i row Hrow. eapply vec_mono; [exact Hrow|].
    intros j x (-> & Hl & Hr). split; [by apply hat_self|by apply in_range_bounded]. }
  intros bh Hbh. eapply yields_bind.
  { apply (basemul_acc_spec pkpv sp T (λ j, residue (r j))).
    - apply vec_hats. eapply vec_mono; [exact Ht|]. by intros ?? [? _].
    - apply vec_hats. eapply vec_mono; [exact Hsp|]. by intros ?? [? _].
    - eapply vec_Forall; [exact Ht|]. by intros ?? [_ ?].
    - eapply vec_Forall; [exact Hsp'|]. by intros ?? [_ ?]. }
  pose (B := λ i p, dot (λ j, flip pair_at (a j i)) (λ j, residue (r j)) p).
  intros vh [Hvh Bvh]. eapply yields_bind; [by apply (invntt_vec B)|].
  intros b0 Hb0. eapply yields_bind; [apply (poly_invntt_spec vh _ Hvh); grow|].
  intros v0 (Lv0 & Bv0 & Rv0). eapply yields_bind.
  { apply (add_noise_vec B e1 b0); [exact Hb0|].
    apply (noise_vec (λ i, getnoise_eta2 coins (i + 3))); intros; apply getnoise_small. }
  intros b1 Hb1. destruct (getnoise_small coins 6) as [_ [Le2 Be2]]. fold e2 in Le2, Be2.
  eapply yields_bind; [apply (add_spec v0 e2 Q 2); [congruence|done..]|]. intros ? [-> Bv1].
  destruct (from_msg_spec m SYMBYTES Lm Bm) as (Lk & Bk & _). change (SYMBYTES * 8)%nat with 256%nat in Lk.
  assert (length (zip_with Z.add v0 e2) = 256%nat) as Lv1 by by apply zip_add_length.
  eapply yields_bind; [apply (add_spec (zip_with Z.add v0 e2) (poly.from_msg m) (Q + 2) 1665); [congruence|done..]|].
  intros ? [-> Bv2].
  assert (length (zip_with Z.add (zip_with Z.add v0 e2) (poly.from_msg m)) = 256%nat) as Lv2 by by apply zip_add_length.
  eapply yields_bind; [by apply (reduce_stands (λ i p, padd (B i p) (residue (e1 i) p)))|]. intros b2 Hb2.
  eapply yields_bind; [apply reduce_spec; grow|]. intros v3 (Ev3 & Bv3 & Lv3). rewrite Lv2 in Lv3.
  apply yields_done. split; [exact Hb2|]. split; [split; [congruence|done]|]. exists v0.
  split_and!; [done|intros p Hp; unfold residue; rewrite (Rv0 p Hp); apply radix_pscale|done].
Qed.

(** A ciphertext: its parts, and their rounding. *)
Lemma enc_spec m pk coins rows a (T : nat → nat → Z * Z)
    (r := λ i, getnoise_eta1 coins (Z.of_nat i)) (e1 := λ i, getnoise_eta2 coins (Z.of_nat i + 3))
    (e2 := getnoise_eta2 coins 6) :
  length m = SYMBYTES → is_bytes m →
  vec (λ i x, hat x (T i) ∧ bounded 4096 x) (unpack_pk pk).1 →
  gen_matrix fuel (unpack_pk pk).2 true = Some rows →
  matrix (λ i j x, x = a j i ∧ length x = 256%nat ∧ in_range x) rows →
  settles (enc fuel m pk coins) (λ ct, length ct = CIPHERTEXTBYTES ∧ is_bytes ct ∧
    ∃ b v b' v', enc_parts m coins (unpack_pk pk).1 rows = Done (b, v) ∧ pack_ciphertext b v = Done ct ∧
      unpack_ciphertext ct = Done (b', v') ∧
      vec (λ i x, small Q x ∧ let c := rounding (nth i b []) x in small 2 c ∧
        stands x (λ p, padd (padd (dot (λ j, flip pair_at (a j i)) (λ j, residue (r j)) p)
                                  (residue (e1 i) p)) (residue c p))) b' ∧
      small Q v' ∧ ∃ v0, small Q v0 ∧ small 104 (rounding v v') ∧ stands v0 (dot T (λ j, residue (r j))) ∧
        v' ≡p zip_with Z.add (zip_with Z.add (zip_with Z.add v0 e2) (poly.from_msg m)) (rounding v v')).
Proof.
  intros Lm Bm Ht Hrows Ha. unfold enc. destruct (unpack_pk pk) as [pkpv seed]. cbn [fst snd] in *.
  rewrite Hrows. cbn [mbind option_bind]. apply settles_some.
  destruct (enc_parts_spec m coins pkpv rows a T Lm Bm Ht Ha) as ([b v] & -> & Hb & Hv & v0 & Hv0 & Sv0 & Ev).
  cbn [obind]. destruct (pack_ciphertext_spec b v _ Hb Hv) as (ct & Ect & Lct & Bct & b' & v' & Eu & Hb' & Hv' & Hc & Ec).
  exists ct. split_and!; [done..|]. exists b, v, b', v'. split_and!; [done..|]. exists v0. split_and!; [done..|].
  etrans; [exact Ec|]. by apply zip_with_cong.
Qed.

(** Decryption: what the message is read from. *)
Lemma dec_spec ct sk b v (S : nat → nat → Z * Z) :
  vec (λ j x, hat x (S j) ∧ bounded 4096 x) (unpack_sk sk) →
  unpack_ciphertext ct = Done (b, v) → vec (λ i x, x = nth i b [] ∧ small Q x) b → small Q v →
  ∃ mp w, dec ct sk = poly.to_msg mp ∧ small 1664 mp ∧ length w = 256%nat ∧
    stands w (dot S (λ j, residue (nth j b []))) ∧ mp ≡p zip_with Z.sub v w.
Proof.
  intros Hsk Hct Hb [Lv Bv]. unfold dec. rewrite Hct. cbn [obind].
  destruct (ntt_vec (λ i, nth i b []) b) as (bh & -> & Hbh).
  { eapply vec_mono; [exact Hb|]. intros i x [-> ?]. split; [done|]. grow. }
  cbn [obind]. destruct (basemul_acc_spec (unpack_sk sk) bh S (λ j, residue (nth j b []))) as (mh & -> & Hmh & Bmh).
  - apply vec_hats. eapply vec_mono; [exact Hsk|]. by intros ?? [? _].
  - apply vec_hats. eapply vec_mono; [exact Hbh|]. by intros ?? [? _].
  - eapply vec_Forall; [exact Hsk|]. by intros ?? [_ ?].
  - eapply vec_Forall; [exact Hbh|]. intros ?? [_ ?]. grow.
  - cbn [obind]. destruct (poly_invntt_spec mh _ Hmh) as (w & -> & Lw & Bw & Rw); [grow|]. cbn [obind].
    destruct (sub_spec v w Q Q) as (d & -> & -> & Bd); [congruence|done..|]. cbn [obind].
    destruct (reduce_spec (zip_with Z.sub v w)) as (mp & -> & Emp & Bmp & Lmp); [grow|]. cbn [obind].
    exists mp, w. refine (conj eq_refl (conj (conj _ Bmp) (conj Lw (conj _ Emp)))).
    + by rewrite Lmp, length_zip_with, Lv, Lw.
    + intros p Hp. unfold residue at 1. rewrite (Rw p Hp). apply radix_pscale.
Qed.

Lemma to_msg_total mp : small 1664 mp → ∃ m, poly.to_msg mp = Done m.
Proof.
  intros [L B]. unfold poly.to_msg.
  assert (∃ bits, each poly.msg_bit mp = Done bits) as [bits ->]; [|by eexists].
  clear L. induction B as [|t mp Ht _ [bits IH]]; [by eexists|]. cbn [each].
  assert (∃ b, poly.msg_bit t = Done b) as [b ->]; [|rewrite IH; by eexists].
  unfold poly.msg_bit. rewrite lift_spec by (unfold Q; lia). cbn [obind].
  pose proof (Z.mod_pos_bound t Q ltac:(done)) as M. set (x := t mod Q) in *. unfold Q in M.
  rewrite shiftl_mul, signed_small by (simpl; lia). unfold checked. change (Q / 2) with 1664. change (2 ^ 1) with 2.
  rewrite decide_True by lia. by eexists.
Qed.
End spec.
