(* ===== verification/KyberCorrect.v ===== *)
(** What Kyber promises: decapsulation gives the encapsulated secret as long as the noise stays
    below a quarter of [Q], accepts nothing but what encapsulation produces, and no key or
    ciphertext overflows an integer or runs into a panic. *)

From S2P Require Import Prelude KyberArith KyberNtt KyberPoly KyberBytes KyberKem.

(** * How long the sampling of a polynomial takes *)
Lemma put_nil v room rest : (0 < room)%nat → put v room rest = [] ↔ Q ≤ v ∧ rest room = [].
Proof. intros Hr. unfold put. destruct (Z.ltb_spec v Q), room; split; (done || lia || by intros [? ?]; (done || lia)). Qed.
(* whether a buffer is used up without a value does not depend on the room *)
Lemma rej_uniform_nil buf r r' : (0 < r)%nat → (0 < r')%nat → rej_uniform r buf = [] → rej_uniform r' buf = [].
Proof.
  intros Hr Hr'. assert (∀ n buf, (length buf < n)%nat → rej_uniform r buf = [] → rej_uniform r' buf = []) as Hn;
    [|apply (Hn (S (length buf))); lia].
  clear buf. induction n as [|n IH]; intros buf Hl; [lia|]. destruct buf as [|a [|b [|c buf]]]; try done.
  cbn [rej_uniform]. rewrite !put_nil by done. cbn [length] in Hl. intros (? & ? & ?). split_and!; try done. apply IH; [lia|done].
Qed.

(* the state of a round: all but the first three bytes stay *)
Definition same_tail (stream : nat → u8) (buf : bytes) : Prop :=
  (168 ≤ length buf)%nat ∧ drop 3 (take 168 buf) = map stream (seq 3 165).

Lemma same_tail_insert stream buf x : same_tail stream buf → same_tail stream (<[0%nat:=x]> buf).
Proof. intros [L E]. destruct buf as [|y buf]; [simpl in L; lia|]. split; [exact L|exact E]. Qed.
Lemma round_nonempty stream buf room : same_tail stream buf → (0 < room)%nat →
  rej_uniform N (map stream (seq 3 165)) ≠ [] → rej_uniform room (take 168 buf) ≠ [].
Proof.
  intros [L E] Hr Hp Hn. apply Hp. rewrite <-E. destruct buf as [|a [|b [|c buf]]]; try (simpl in L; lia).
  rewrite !firstn_cons in *. cbn [drop]. revert Hn. cbn [rej_uniform]. rewrite !put_nil by done.
  intros (_ & _ & Hn). by eapply rej_uniform_nil; [exact Hr|unfold N; lia|].
Qed.
Lemma sample_loop_productive stream fuel pos buf buflen a : rej_uniform N (map stream (seq 3 165)) ≠ [] →
  same_tail stream buf → (buflen mod 3 = 0)%nat → (N - length a ≤ fuel)%nat →
  sample_loop fuel stream pos buf buflen a ≠ None.
Proof.
  intros Hp. revert pos buf buflen a. induction fuel as [|fuel IH]; intros pos buf buflen a Ht Hm Hf; cbn [sample_loop];
    (destruct (Nat.ltb_spec (length a) N); [|done]); [lia|].
  rewrite Hm. cbn [seq fold_left]. cbn zeta. apply (same_tail_insert _ _ (stream pos)) in Ht.
  pose proof (round_nonempty stream _ (N - length a) Ht ltac:(lia) Hp) as Hne.
  change (0 + XOF_BLOCKBYTES)%nat with 168%nat. apply IH; [done|done|]. rewrite length_app. revert Hne.
  generalize (rej_uniform (N - length a) (take 168 (<[0%nat:=stream pos]> buf))). intros [|v l] Hne; [done|]. cbn [length]. lia.
Qed.
Lemma matrix_bytes : (GEN_MATRIX_NBLOCKS * XOF_BLOCKBYTES)%nat = 504%nat.
Proof. vm_compute. reflexivity. Qed.
Lemma sample_productive fuel stream : (N ≤ fuel)%nat →
  rej_uniform N (map stream (seq 3 165)) ≠ [] → sample fuel stream ≠ None.
Proof.
  intros Hf Hp. unfold sample. rewrite matrix_bytes. apply sample_loop_productive; [exact Hp| |reflexivity|lia].
  split; [rewrite length_app, length_map, length_seq; simpl; lia|reflexivity].
Qed.

(** * Decryption undoes encryption, as long as the noise is below a quarter of [Q]. *)
Definition add_poly : list Z → list Z → list Z := zip_with Z.add.
Definition sum3 (f : nat → list Z) : list Z := add_poly (add_poly (f 0%nat) (f 1%nat)) (f 2%nat).

(** The noise of a ciphertext: [e r + e2 + c2 - s (e1 + c1)], with the rounding errors [c1], [c2]. *)
Definition noise_poly (s e r e1 c1 : nat → list Z) (e2 c2 : list Z) : list Z :=
  zip_with Z.sub (add_poly (sum3 (λ i, pmul (e i) (r i))) (add_poly e2 c2))
                 (sum3 (λ j, pmul (s j) (add_poly (e1 j) (c1 j)))).

Lemma sum3_length f : (∀ i, (i < 3)%nat → length (f i) = 256%nat) → length (sum3 f) = 256%nat.
Proof. intros Hl. repeat apply zip_add_length; apply Hl; lia. Qed.
Lemma residue_sum3 f p : (∀ i, (i < 3)%nat → length (f i) = 256%nat) →
  residue (sum3 f) p = padd (padd (residue (f 0%nat) p) (residue (f 1%nat) p)) (residue (f 2%nat) p).
Proof.
  intros Hl. unfold sum3, add_poly. rewrite !residue_add; [done|rewrite !Hl by lia; done|].
  rewrite zip_add_length by (apply Hl; lia). by rewrite Hl by lia.
Qed.
Lemma residue_pmul x y p : (p < 128)%nat → length y = 256%nat →
  cong2 (residue (pmul x y) p) (qmul (gamma p) (residue x p) (residue y p)).
Proof.
  intros Hp Hy. apply ev_pmul; [|done]. pose proof GAMMAS_roots as Hg. rewrite Forall_forall in Hg.
  apply Hg, list_elem_of_In, nth_In. by rewrite GAMMAS_length.
Qed.

Section correctness.
Context `{Sha3Ok} (fuel : nat).

Lemma vec_nth (P : nat → list Z → Prop) xs i : vec P xs → (i < 3)%nat → P i (nth i xs []).
Proof. intros (x0 & x1 & x2 & -> & ? & ? & ?) Hi. by destruct i as [|[|[|i]]]; [..|lia]. Qed.

Lemma zip_sub_length a b : length a = 256%nat → length b = 256%nat → length (zip_with Z.sub a b) = 256%nat.
Proof. intros E F. rewrite length_zip_with, E, F. done. Qed.

Lemma noisy_sum n k x : Forall (λ w, noisy w 0) n → length n = length k → x ≡p zip_with Z.add k n → Forall2 noisy x k.
Proof.
  intros Hn. revert k x. induction Hn as [|w n (u & Hu & E) _ IH]; intros [|b k] x Hl Ex; try done;
    inversion Ex as [|a ? x' ? Ea Ex']; subst; constructor; [|apply IH; [by injection Hl|done]].
  exists u. split; [done|]. rewrite Ea, E. by rewrite Z.add_0_l.
Qed.

Lemma stands_dot (F J G K : nat → nat → Z * Z) p :
  (∀ i, (i < 3)%nat → cong2 (F i p) (G i p)) → (∀ i, (i < 3)%nat → cong2 (J i p) (K i p)) →
  cong2 (dot F J p) (dot G K p).
Proof.
  intros EF EH. unfold dot.
  rewrite (EF 0%nat), (EF 1%nat), (EF 2%nat), (EH 0%nat), (EH 1%nat), (EH 2%nat) by lia. done.
Qed.

Lemma noise_length s e r e1 c1 e2 c2 :
  (∀ i, (i < 3)%nat → length (s i) = 256%nat ∧ length (e i) = 256%nat ∧ length (r i) = 256%nat ∧
    length (e1 i) = 256%nat ∧ length (c1 i) = 256%nat) →
  length e2 = 256%nat → length c2 = 256%nat → length (noise_poly s e r e1 c1 e2 c2) = 256%nat.
Proof.
  intros Hl Le2 Lc2.
  assert (∀ i, (i < 3)%nat → length (pmul (e i) (r i)) = 256%nat) as Ler by (intros; by apply pmul_length, Hl).
  assert (∀ i, (i < 3)%nat → length (add_poly (e1 i) (c1 i)) = 256%nat) as Lec by (intros; by apply zip_add_length; apply Hl).
  assert (∀ i, (i < 3)%nat → length (pmul (s i) (add_poly (e1 i) (c1 i))) = 256%nat) as Lst.
  { intros. by apply pmul_length, Lec. }
  apply zip_sub_length; [apply zip_add_length; [by apply sum3_length|by apply zip_add_length]|by apply sum3_length].
Qed.

(** What is decrypted is the message plus the noise. *)
Lemma decrypted_noise (a : nat → nat → list Z) s e r e1 c1 b e2 c2 k v0 v w :
  (∀ i, (i < 3)%nat → length (s i) = 256%nat ∧ length (e i) = 256%nat ∧ length (r i) = 256%nat ∧
    length (e1 i) = 256%nat ∧ length (c1 i) = 256%nat) →
  length e2 = 256%nat → length c2 = 256%nat → length k = 256%nat → length v0 = 256%nat → length w = 256%nat →
  stands v0 (dot (λ i p, padd (dot (λ j, flip pair_at (a i j)) (λ j, residue (s j)) p) (residue (e i) p))
                 (λ j, residue (r j))) →
  v ≡p zip_with Z.add (zip_with Z.add (zip_with Z.add v0 e2) k) c2 →
  (∀ i, (i < 3)%nat → stands (nth i b []) (λ p, padd (padd (dot (λ j, flip pair_at (a j i)) (λ j, residue (r j)) p)
                                                       (residue (e1 i) p)) (residue (c1 i) p))) →
  stands w (dot (λ j, residue (s j)) (λ j, residue (nth j b []))) →
  zip_with Z.sub v w ≡p zip_with Z.add k (noise_poly s e r e1 c1 e2 c2).
Proof.
  intros Hl Le2 Lc2 Lk Lv0 Lw Sv0 Ev Sb Sw.
  assert (∀ i, (i < 3)%nat → length (pmul (e i) (r i)) = 256%nat) as Ler by (intros; by apply pmul_length, Hl).
  assert (∀ i, (i < 3)%nat → length (add_poly (e1 i) (c1 i)) = 256%nat) as Lec by (intros; by apply zip_add_length; apply Hl).
  assert (∀ i, (i < 3)%nat → length (pmul (s i) (add_poly (e1 i) (c1 i))) = 256%nat) as Lst.
  { intros. by apply pmul_length, Lec. }
  assert (length v = 256%nat) as Lv.
  { rewrite (pcong_length _ _ Ev). by repeat apply zip_add_length. }
  pose proof (noise_length s e r e1 c1 e2 c2 Hl Le2 Lc2) as Ln.
  apply ev_injective; [by apply zip_sub_length|by apply zip_add_length|]. intros p Hp.
  assert (∀ i, (i < 3)%nat → cong2 (residue (nth i b []) p)
    (padd (dot (λ j, flip pair_at (a j i)) (λ j, residue (r j)) p) (padd (residue (e1 i) p) (residue (c1 i) p)))) as Eb.
  { intros i Hi. rewrite (Sb i Hi p Hp). split; cbn [padd fst snd]; by rewrite Z.add_assoc. }
  assert (cong2 (residue w p) (dot (λ j, residue (s j)) (λ i p, padd (dot (λ j, flip pair_at (a j i))
    (λ j, residue (r j)) p) (padd (residue (e1 i) p) (residue (c1 i) p))) p)) as Ew.
  { rewrite (Sw p Hp). by apply stands_dot. }
  specialize (Sv0 p Hp). fold (residue (zip_with Z.sub v w) p). rewrite residue_sub by congruence.
  rewrite (ev_pcong (gamma p) _ _ Ev : cong2 (residue v p) (residue _ p)), Ew.
  rewrite !residue_add by (repeat rewrite zip_add_length; congruence). rewrite Sv0.
  fold (residue (zip_with Z.add k (noise_poly s e r e1 c1 e2 c2)) p). rewrite residue_add by congruence.
  unfold noise_poly. rewrite residue_sub.
  2: { unfold add_poly at 1. rewrite zip_add_length; [by rewrite sum3_length|by apply sum3_length|by apply zip_add_length]. }
  unfold add_poly at 1 2. rewrite residue_add by (rewrite zip_add_length by done; by apply sum3_length).
  rewrite residue_add, !residue_sum3 by (done || congruence).
  rewrite !(residue_pmul (e _)) by (done || apply Hl; lia). rewrite !(residue_pmul (s _)) by (done || apply Lec; lia).
  unfold add_poly. rewrite !(residue_add (e1 _)) by (destruct (Hl 0%nat), (Hl 1%nat), (Hl 2%nat); [lia..|intuition congruence]).
  unfold dot, psub, padd, qmul, flip. cbn [fst snd].
  split; cbn [fst snd]; apply cong_eq; ring.
Qed.

Lemma wider F xs : vec (λ i x, hat x (F i) ∧ in_range x) xs → vec (λ i x, hat x (F i) ∧ bounded 4096 x) xs.
Proof. intros Hx. eapply vec_mono; [exact Hx|]. intros i x [? ?]. split; [done|by apply in_range_bounded]. Qed.

(** Encryption and decryption under a generated key. *)
Lemma pke_spec coins m ecoins (nseed := drop SYMBYTES (hash_g coins))
    (s := λ i, getnoise_eta1 nseed (Z.of_nat i)) (e := λ i, getnoise_eta1 nseed (Z.of_nat i + 3))
    (r := λ i, getnoise_eta1 ecoins (Z.of_nat i)) (e1 := λ i, getnoise_eta2 ecoins (Z.of_nat i + 3))
    (e2 := getnoise_eta2 ecoins 6) pk sk :
  length m = SYMBYTES → is_bytes m → gen_matrix fuel (take SYMBYTES (hash_g coins)) false ≠ None →
  keypair_derand fuel coins = Some (Done (pk, sk)) →
  settles (enc fuel m pk ecoins) (λ ct, length ct = CIPHERTEXTBYTES ∧ is_bytes ct ∧
    ∃ rows b v b' v', gen_matrix fuel (unpack_pk pk).2 true = Some rows ∧
      enc_parts m ecoins (unpack_pk pk).1 rows = Done (b, v) ∧ pack_ciphertext b v = Done ct ∧
      unpack_ciphertext ct = Done (b', v') ∧
      let c1 := λ i, rounding (nth i b []) (nth i b' []) in let c2 := rounding v v' in
      (∀ i, (i < 3)%nat → small 2 (c1 i)) ∧ small 104 c2 ∧
      yields (dec ct sk) (λ m', Forall (λ w, noisy w 0) (noise_poly s e r e1 c1 e2 c2) → m' = m)).
Proof.
  intros Lm Bm Hg Ek. destruct (gen_matrix fuel (take SYMBYTES (hash_g coins)) false) as [rows|] eqn:Erows; [|done].
  destruct (gen_matrix_spec fuel _ _ Erows) as (a & Ha & rows' & Erows' & Ha').
  destruct (keypair_spec fuel coins rows a Erows Ha) as (o & Ek' & [??] & -> & _ & _ & _ & _ & Es & Ht & Hs).
  rewrite Ek in Ek'. injection Ek' as <- <-. rewrite <-Es in Erows'.
  apply wider in Ht, Hs.
  eapply settles_mono; [by apply (enc_spec fuel m pk ecoins _ a _ Lm Bm Ht Erows')|].
  intros ct (Lct & Bct & b & v & b' & v' & Ep & Ect & Eu & Hb & Hv & v0 & [Lv0 Bv0] & Hc2 & Sv0 & Ev).
  split_and!; [done..|]. exists rows', b, v, b', v'.
  pose proof (λ i, vec_nth _ _ i Hb) as Hbi. cbn beta in Hbi. set (c1 := λ i, rounding (nth i b []) (nth i b' [])).
  assert (∀ i, (i < 3)%nat → small 2 (c1 i)) as Hc1 by (intros i Hi; by apply Hbi).
  cbv zeta. split_and!; [done..|].
  destruct (dec_spec ct sk b' v' _ Hs Eu) as (mp & w & -> & [Lmp Bmp] & Lw & Sw & Emp);
    [|done|]. { destruct Hb as (b0 & b1 & b2 & -> & [? _] & [? _] & [? _]). by exists b0, b1, b2. }
  destruct (to_msg_total mp (conj Lmp Bmp)) as [m' Em]. exists m'. split; [done|]. intros Hn.
  destruct (from_msg_spec m SYMBYTES Lm Bm) as (Lk & _ & _). change (SYMBYTES * 8)%nat with 256%nat in Lk.
  assert (∀ i, (i < 3)%nat → length (s i) = 256%nat ∧ length (e i) = 256%nat ∧ length (r i) = 256%nat ∧
    length (e1 i) = 256%nat ∧ length (c1 i) = 256%nat) as Hl.
  { intros i Hi. pose proof (λ seed n, proj1 (proj1 (getnoise_small seed n))) as L1.
    pose proof (λ seed n, proj1 (proj2 (getnoise_small seed n))) as L2.
    exact (conj (L1 _ _) (conj (L1 _ _) (conj (L1 _ _) (conj (L2 _ _) (proj1 (Hc1 i Hi)))))). }
  pose proof (decrypted_noise a s e r e1 c1 b' e2 (rounding v v') (poly.from_msg m) v0 v' w Hl
    (proj1 (proj2 (getnoise_small ecoins 6))) (proj1 Hc2) Lk Lv0 Lw Sv0 Ev (λ i Hi, proj2 (proj2 (Hbi i Hi))) Sw) as En.
  cut (poly.to_msg mp = Done m); [congruence|]. apply to_msg_noisy; [done..|].
  eapply (noisy_sum _ _ _ Hn); [|by rewrite Emp].
  rewrite Lk. apply (noise_length _ _ _ _ _ _ _ Hl); [apply getnoise_small|apply Hc2].
Qed.

(** Comparing all bytes is equality. *)
Lemma verify_spec a b : length a = length b → verify a b = bool_decide (a = b).
Proof.
  intros Hl. unfold verify.
  assert (∀ acc, (fold_left (λ acc '(a, b), Z.lor acc (Z.lxor a b)) (zip a b) acc =? 0) = (acc =? 0) && bool_decide (a = b)) as ->; [|done].
  revert b Hl. induction a as [|x a IH]; intros [|y b] Hl acc; try done.
  - cbn [zip zip_with fold_left]. by rewrite andb_true_r.
  - cbn [zip zip_with fold_left]. rewrite IH by by injection Hl.
    apply eq_true_iff_eq. rewrite !andb_true_iff, !Z.eqb_eq, !bool_decide_eq_true, Z.lor_eq_0_iff, Z.lxor_eq_0_iff.
    split; [by intros [[-> ->] ->]|by intros [-> [= -> ->]]].
Qed.

Lemma to_msg_bytes mp m : poly.to_msg mp = Done m → length m = SYMBYTES ∧ is_bytes m.
Proof.
  unfold poly.to_msg. destruct (each _ _) as [bits|]; [|done]. cbn [obind]. intros Em.
  assert (m = poly.to_msg_loop SYMBYTES bits) as -> by congruence. clear Em.
  assert (∀ l i, fits 8 (poly.pack_bits i l)) as Hp.
  { induction l as [|b l IH]; intros i; [done|]. apply lor_fits; [done|apply wrap_fits; lia|apply IH]. }
  generalize SYMBYTES. intros n. revert bits. induction n as [|n IH]; intros bits; [by split; [|constructor]|].
  cbn [poly.to_msg_loop]. destruct (IH (drop 8 bits)) as [L B]. split; [simpl; congruence|constructor; [apply Hp|done]].
Qed.

Lemma to_msg_bytes_of_dec ct sk m : dec ct sk = Done m → length m = SYMBYTES ∧ is_bytes m.
Proof.
  unfold dec. destruct (unpack_ciphertext ct) as [[b v]|]; [|done]. cbn [obind].
  repeat match goal with |- context [obind ?o _] => destruct o; cbn [obind]; [|done] end. apply to_msg_bytes.
Qed.

(** ** No overflow, whatever the bytes are *)
Lemma wide_hats bs : length bs = POLYVECBYTES →
  ∃ T, vec (λ i x, hat x (T i) ∧ bounded 4096 x) (polyvec.from_bytes bs).
Proof.
  intros Hl. destruct (polyvec_from_bytes_bounded bs Hl) as (x0 & x1 & x2 & -> & Hx).
  rewrite !Forall_cons in Hx. destruct Hx as ([L0 B0] & [L1 B1] & [L2 B2] & _).
  assert (∀ x, Forall (λ x, 0 ≤ x < 4096) x → bounded 4096 x) as Hb.
  { intros x Hx. eapply Forall_impl; [exact Hx|]. simpl. lia. }
  exists (λ i, flip pair_at (nth i [x0; x1; x2] [])). do 3 eexists.
  refine (conj eq_refl (conj _ (conj _ _))); (split; [by apply hat_self|by apply Hb]).
Qed.

Lemma enc_safe m pk coins : length m = SYMBYTES → is_bytes m → length pk = PUBLICKEYBYTES →
  safe (enc fuel m pk coins) (λ ct, length ct = CIPHERTEXTBYTES ∧ is_bytes ct).
Proof.
  intros Lm Bm Lp. destruct (gen_matrix fuel (unpack_pk pk).2 true) as [rows'|] eqn:Et.
  2: { unfold enc. destruct (unpack_pk pk) as [pkpv seed]. cbn [snd] in Et. by rewrite Et. }
  destruct (gen_matrix fuel (unpack_pk pk).2 false) as [rows|] eqn:Erows.
  2: { apply (gen_matrix_transposed fuel _ true false) in Erows; [done|]. by rewrite Et. }
  destruct (gen_matrix_spec fuel _ _ Erows) as (a & _ & ? & Et' & Ha'). rewrite Et in Et'. injection Et' as <-.
  destruct (wide_hats (take POLYVECBYTES pk)) as [T HT].
  { rewrite length_take, Lp. done. }
  eapply settles_safe, settles_mono; [by apply (enc_spec fuel m pk coins rows' a T)|]. by intros ct (? & ? & _).
Qed.
Lemma enc_ends m pk coins : gen_matrix fuel (unpack_pk pk).2 false ≠ None → enc fuel m pk coins ≠ None.
Proof.
  intros Hg%(gen_matrix_transposed fuel _ false true). unfold enc. destruct (unpack_pk pk) as [pkpv seed].
  cbn [snd] in Hg. by destruct (gen_matrix fuel seed true).
Qed.
Lemma dec_total ct sk : length ct = CIPHERTEXTBYTES → is_bytes ct → length sk = INDCPA_SECRETKEYBYTES →
  yields (dec ct sk) (λ m, length m = SYMBYTES ∧ is_bytes m).
Proof.
  intros Lct Bct Lsk. destruct (wide_hats sk Lsk) as [S HS].
  destruct (polyvec_decompress_spec (take POLYVECCOMPRESSEDBYTES ct)) as (b0 & b1 & b2 & Eb & Hb).
  { rewrite length_take, Lct. done. }
  destruct (poly_decompress_spec (drop POLYVECCOMPRESSEDBYTES ct)) as (v & Ev & Lv & Bv).
  { rewrite length_drop, Lct. done. } { by apply Forall_drop. }
  destruct (dec_spec ct sk [b0; b1; b2] v S HS) as (mp & w & -> & Hmp & _).
  - unfold unpack_ciphertext. by rewrite Eb, Ev.
  - rewrite !Forall_cons in Hb. destruct Hb as ([L0 B0] & [L1 B1] & [L2 B2] & _). do 3 eexists.
    refine (conj eq_refl (conj _ (conj _ _))); (split; [done|split; [done|by apply range_bounded]]).
  - split; [done|by apply range_bounded].
  - destruct (to_msg_total mp Hmp) as [m Em]. exists m. exact (conj Em (to_msg_bytes mp m Em)).
Qed.

Lemma keypair_total coins : gen_matrix fuel (take SYMBYTES (hash_g coins)) false ≠ None →
  settles (keypair_derand fuel coins) (λ '(pk, sk), length pk = PUBLICKEYBYTES ∧ is_bytes pk ∧
    length sk = INDCPA_SECRETKEYBYTES ∧ is_bytes sk ∧ (unpack_pk pk).2 = take SYMBYTES (hash_g coins)).
Proof.
  intros Hg. destruct (gen_matrix fuel (take SYMBYTES (hash_g coins)) false) as [rows|] eqn:Erows; [|done].
  destruct (gen_matrix_spec fuel _ _ Erows) as (a & Ha & _).
  eapply settles_mono; [by apply (keypair_spec fuel coins rows a)|]. intros [pk sk]. tauto.
Qed.

(** ** The key encapsulation *)
Lemma key_layout (sk pk h z : bytes) :
  length sk = INDCPA_SECRETKEYBYTES → length pk = PUBLICKEYBYTES → length h = SYMBYTES →
  take INDCPA_SECRETKEYBYTES (sk ++ pk ++ h ++ z) = sk ∧ publickey (sk ++ pk ++ h ++ z) = pk ∧
  take SYMBYTES (drop PUBLICKEYBYTES (drop INDCPA_SECRETKEYBYTES (sk ++ pk ++ h ++ z))) = h.
Proof.
  intros Ls Lp Lh. unfold publickey. rewrite (take_app_n sk), !(drop_app_n sk), (take_app_n pk), (drop_app_n pk) by done.
  by rewrite (take_app_n h) by done.
Qed.

(* a generated key: its parts, and that decapsulation hashes what encapsulation does *)
Lemma generated_key coins kp : gen_matrix fuel (take SYMBYTES (hash_g (take SYMBYTES coins))) false ≠ None →
  Keypair_new fuel coins = Some (Done kp) →
  ∃ pk sk, keypair_derand fuel (take SYMBYTES coins) = Some (Done (pk, sk)) ∧ publickey kp = pk ∧
    length pk = PUBLICKEYBYTES ∧ length sk = INDCPA_SECRETKEYBYTES ∧
    (unpack_pk pk).2 = take SYMBYTES (hash_g (take SYMBYTES coins)) ∧
    ∀ ct, Keypair_dec fuel kp ct =
      match dec ct sk with
      | Panic => Some Panic
      | Done msg =>
          r ← PublicKey_enc fuel pk msg;
          Some (try! (ct', ss) := r in Done (if verify ct ct' then Some ss else None))
      end.
Proof.
  intros Hg Ek. destruct (keypair_total _ Hg) as (o & Epk & [pk sk] & -> & Lp & _ & Ls & _ & Eseed).
  unfold Keypair_new, kem_keypair_derand in Ek. rewrite Epk in Ek. cbn [obind mbind option_bind] in Ek. injection Ek as <-.
  assert (length (hash_h pk) = SYMBYTES) as Lh by apply sha3_256_ok.
  destruct (key_layout sk pk (hash_h pk) (drop SYMBYTES coins) Ls Lp Lh) as (E1 & E2 & E3).
  exists pk, sk. split_and!; try done. intros ct. unfold Keypair_dec, kem_dec, PublicKey_enc, kem_enc_derand.
  rewrite E1, E3. unfold publickey in E2. rewrite E2. destruct (dec ct sk) as [msg|]; [|done]. cbn [obind].
  by destruct (enc _ _ _ _) as [[|]|].
Qed.

Lemma keypair_new_total coins : gen_matrix fuel (take SYMBYTES (hash_g (take SYMBYTES coins))) false ≠ None →
  ∃ kp, Keypair_new fuel coins = Some (Done kp).
Proof.
  intros Hg. destruct (keypair_total _ Hg) as (o & E & [pk sk] & -> & _).
  unfold Keypair_new, kem_keypair_derand. rewrite E. by eexists.
Qed.
Lemma made_key_sampled coins kp : Keypair_new fuel coins = Some (Done kp) →
  gen_matrix fuel (take SYMBYTES (hash_g (take SYMBYTES coins))) false ≠ None.
Proof. unfold Keypair_new, kem_keypair_derand, keypair_derand. by destruct (gen_matrix _ _ _). Qed.

(** C20: Kyber decapsulates what was encapsulated. For every seed whose matrix can be sampled, and
    every seed of the sender: making the key, encapsulating to it and decapsulating end without an
    overflow or a panic. The coefficients that encryption computes are rounded into the ciphertext by at most 2
    (the vector) and 104 (the polynomial); and if every coefficient of the noise that these rounding errors
    and the small secret polynomials leave is below a quarter of [Q], the secret decapsulated is
    the one encapsulated. *)
Theorem kyber_decapsulates coins seed (nseed := drop SYMBYTES (hash_g (take SYMBYTES coins)))
    (s := λ i, getnoise_eta1 nseed (Z.of_nat i)) (e := λ i, getnoise_eta1 nseed (Z.of_nat i + 3)) :
  length seed = SYMBYTES → is_bytes seed →
  gen_matrix fuel (take SYMBYTES (hash_g (take SYMBYTES coins))) false ≠ None →
  settles (Keypair_new fuel coins) (λ kp,
    let kr := drop SYMBYTES (hash_g (seed ++ hash_h (publickey kp))) in
    let r := λ i, getnoise_eta1 kr (Z.of_nat i) in
    let e1 := λ i, getnoise_eta2 kr (Z.of_nat i + 3) in
    let e2 := getnoise_eta2 kr 6 in
    settles (PublicKey_enc fuel (publickey kp) seed) (λ '(ct, ss),
      settles (Keypair_dec fuel kp ct) (λ got,
        ∃ rows b v b' v',
          gen_matrix fuel (unpack_pk (publickey kp)).2 true = Some rows ∧
          enc_parts seed kr (unpack_pk (publickey kp)).1 rows = Done (b, v) ∧ pack_ciphertext b v = Done ct ∧
          unpack_ciphertext ct = Done (b', v') ∧
          let c1 := λ i, rounding (nth i b []) (nth i b' []) in let c2 := rounding v v' in
          (∀ i, (i < 3)%nat → small 2 (c1 i)) ∧ small 104 c2 ∧
          (Forall (λ w, noisy w 0) (noise_poly s e r e1 c1 e2 c2) → got = Some ss)))).
Proof.
  intros Lm Bm Hg. destruct (keypair_new_total _ Hg) as [kp Ekp].
  destruct (generated_key _ _ Hg Ekp) as (pk & sk & Epk & Ep & Lp & _ & Eseed & Edec).
  exists (Done kp). split; [done|]. apply yields_done. cbn zeta. rewrite Ep.
  set (kr := hash_g (seed ++ hash_h pk)).
  destruct (pke_spec (take SYMBYTES coins) seed (drop SYMBYTES kr) pk sk Lm Bm Hg Epk)
    as (o & Eo & ct & -> & Lct & Bct & rows & b & v & b' & v' & H1 & H2 & H3 & H4 & Hc1 & Hc2 & m' & Em & Hn).
  exists (Done (ct, take SYMBYTES kr)). split.
  { unfold PublicKey_enc, kem_enc_derand. fold kr. by rewrite Eo. }
  apply yields_done. rewrite Edec, Em. destruct (to_msg_bytes_of_dec ct sk m' Em) as [Lm' Bm'].
  pose proof (safe_settles _ _ (enc_safe m' pk (drop SYMBYTES (hash_g (m' ++ hash_h pk))) Lm' Bm' Lp)) as (o & Eo' & ct' & -> & Lct' & _).
  { apply enc_ends. by rewrite Eseed. }
  unfold PublicKey_enc, kem_enc_derand. rewrite Eo'. cbn [obind mbind option_bind]. apply settles_some, yields_done.
  exists rows, b, v, b', v'. cbv zeta. split_and!; [done..|]. intros Hs. rewrite (Hn Hs) in Eo' |- *. fold kr in Eo' |- *.
  rewrite Eo in Eo'. injection Eo' as <-. by rewrite verify_spec, bool_decide_true.
Qed.

(** C21: Decapsulation accepts nothing but what encapsulation produces: with a key that was made, on
    every ciphertext it either refuses or gives a secret, never a panic, and a secret comes with the seed from
    which encapsulation to this key makes exactly this ciphertext and this secret. *)
Theorem kyber_accepts_only_encapsulations coins kp ct :
  Keypair_new fuel coins = Some (Done kp) → length ct = CIPHERTEXTBYTES → is_bytes ct →
  settles (Keypair_dec fuel kp ct) (λ got, ∀ ss, got = Some ss →
    ∃ seed, length seed = SYMBYTES ∧ PublicKey_enc fuel (publickey kp) seed = Some (Done (ct, ss))).
Proof.
  intros Ekp Lct Bct. pose proof (made_key_sampled _ _ Ekp) as Hg.
  destruct (generated_key _ _ Hg Ekp) as (pk & sk & Epk & Ep & Lp & Ls & Eseed & Edec).
  rewrite Edec, Ep. destruct (dec_total ct sk Lct Bct Ls) as (m & -> & Lm & Bm).
  pose proof (safe_settles _ _ (enc_safe m pk (drop SYMBYTES (hash_g (m ++ hash_h pk))) Lm Bm Lp)) as (o & Eo & ct' & -> & Lct' & _).
  { apply enc_ends. by rewrite Eseed. }
  assert (PublicKey_enc fuel pk m = Some (Done (ct', take SYMBYTES (hash_g (m ++ hash_h pk))))) as Ee.
  { unfold PublicKey_enc, kem_enc_derand. by rewrite Eo. }
  rewrite Ee. cbn [obind mbind option_bind]. apply settles_some, yields_done. intros ss. rewrite verify_spec by congruence.
  case_bool_decide as E; [|done]. intros [= <-]. exists m. split; [done|]. by rewrite Ee, E.
Qed.

(** What an acceptable coefficient in every stream of the matrix is. *)
Definition productive (seed : bytes) : Prop := ∀ x y, x ∈ seqZ 0 3 → y ∈ seqZ 0 3 →
  rej_uniform N (map (shake128 (xof_absorb seed x y)) (seq 3 165)) ≠ [].

(** C22: No bytes of the right lengths make Kyber overflow an integer or panic: not a public key
    someone else made up, not a ciphertext, not a stored key; the coefficients of a key may even
    exceed the modulus. Encapsulation and decapsulation give results of the right lengths or are still sampling
    the matrix of the key, however long they have run; and they have ended after 256 rounds for each of its
    polynomials when each of the nine streams that are sampled has one acceptable coefficient in its bytes 3
    to 167. *)
Theorem kyber_never_overflows pk seed kp ct :
  length pk = PUBLICKEYBYTES → length seed = SYMBYTES → is_bytes seed →
  length kp = SECRETKEYBYTES → length ct = CIPHERTEXTBYTES → is_bytes ct →
  safe (PublicKey_enc fuel pk seed) (λ '(ct, ss),
    length ct = CIPHERTEXTBYTES ∧ is_bytes ct ∧ length ss = SSBYTES ∧ is_bytes ss) ∧
  safe (Keypair_dec fuel kp ct) (λ got, ∀ ss, got = Some ss → length ss = SSBYTES ∧ is_bytes ss) ∧
  ((N ≤ fuel)%nat → productive (drop POLYVECBYTES pk) → PublicKey_enc fuel pk seed ≠ None) ∧
  ((N ≤ fuel)%nat → productive (drop POLYVECBYTES (publickey kp)) → Keypair_dec fuel kp ct ≠ None).
Proof.
  intros Lp Lm Bm Lk Lct Bct.
  assert (∀ b, length (take SYMBYTES (hash_g b)) = SSBYTES ∧ is_bytes (take SYMBYTES (hash_g b))) as Hss.
  { intros b. destruct (sha3_512_ok b) as [L B]. unfold hash_g. split; [by rewrite length_take, L|by apply Forall_take]. }
  assert (∀ m key coins, (N ≤ fuel)%nat → productive (drop POLYVECBYTES key) → enc fuel m key coins ≠ None) as Hends.
  { intros m key coins Hf Hpr. apply enc_ends. apply gen_matrix_ends. intros x y Hx Hy.
    by apply sample_productive, Hpr. }
  destruct (dec_total ct (take INDCPA_SECRETKEYBYTES kp) Lct Bct) as (m & Em & Lm' & Bm'); [by rewrite length_take, Lk|].
  unfold PublicKey_enc, kem_enc_derand, Keypair_dec, kem_dec. rewrite Em. split_and!.
  - pose proof (enc_safe seed pk (drop SYMBYTES (hash_g (seed ++ hash_h pk))) Lm Bm Lp) as Hs.
    destruct (enc _ _ _ _) as [o|]; [|done]. destruct Hs as (c & -> & Lc & Bc). apply yields_done.
    split_and!; [done|done|apply Hss..].
  - match goal with |- context [enc fuel m ?key ?coins] =>
      pose proof (enc_safe m key coins Lm' Bm' ltac:(by rewrite length_take, length_drop, Lk)) as Hs end.
    destruct (enc _ _ _ _) as [o|]; [|done]. destruct Hs as (c & -> & Lc & Bc). apply yields_done.
    intros ss. case_match; [|done]. intros [= <-]. apply Hss.
  - intros Hf Hpr. pose proof (Hends seed pk (drop SYMBYTES (hash_g (seed ++ hash_h pk))) Hf Hpr). by destruct (enc _ _ _ _).
  - intros Hf Hpr. match goal with |- context [enc fuel m ?key ?coins] => pose proof (Hends m key coins Hf Hpr) end.
    by destruct (enc _ _ _ _).
Qed.
End correctness.

(** * A concrete instance *)
Definition l1 (xs : list Z) : Z := foldr (λ x n, Z.abs x + n) 0 xs.

Lemma zip_bounded (h : Z → Z → Z) a b c xs ys : (∀ x y, Z.abs x ≤ a → Z.abs y ≤ b → Z.abs (h x y) ≤ c) →
  bounded a xs → bounded b ys → bounded c (zip_with h xs ys).
Proof.
  intros Hh Hx. revert ys. induction Hx as [|x xs Hx1 _ IH]; intros [|y ys] Hy; try by constructor.
  inversion Hy; subst. constructor; [by apply Hh|by apply IH].
Qed.
Lemma shiftx_bounded b xs : 0 ≤ b → bounded b xs → bounded b (shiftx xs).
Proof.
  intros Hb Hx. unfold shiftx. destruct xs as [|x xs] using rev_ind; [by repeat constructor|].
  rewrite last_last, removelast_last. apply Forall_app in Hx as [Hx [Hl _]%Forall_cons]. constructor; [lia|done].
Qed.
Lemma pmul_bounded b xs ys : 0 ≤ b → bounded b ys → bounded (l1 xs * b) (pmul xs ys).
Proof.
  intros Hb Hy. induction xs as [|x xs IH]; cbn [pmul l1 foldr].
  { apply Forall_replicate. lia. }
  assert (0 ≤ l1 xs) as Hn by (clear; induction xs; cbn [l1 foldr] in *; [done|unfold l1 in *; lia]).
  eapply (zip_bounded _ (l1 xs * b) b); [|apply shiftx_bounded; [nia|exact IH]|exact Hy].
  intros u v Hu Hv. fold (l1 xs). pose proof (Z.abs_triangle u (x * v)). rewrite Z.abs_mul in *. nia.
Qed.

(* every noise polynomial is one monomial *)
Definition toy_sha3 : Sha3 := {|
  sha3_256 b := replicate 32 (fold_left Z.lxor b 0 mod 256);
  sha3_512 b := replicate 64 (fold_left Z.add b 7 mod 256);
  shake128 seed n := (Z.of_nat n * 7 + fold_left Z.add seed 0) mod 101;
  shake256 b n := if Z.of_nat n =? List.last b 0 * 5 then 3 else 0;
|}.
Lemma toy_sha3_ok : @Sha3Ok toy_sha3.
Proof.
  split; intros; cbn [sha3_256 sha3_512 shake128 shake256 toy_sha3].
  - split; [by rewrite length_replicate|]. apply Forall_replicate, Z.mod_pos_bound. done.
  - split; [by rewrite length_replicate|]. apply Forall_replicate, Z.mod_pos_bound. done.
  - pose proof (Z.mod_pos_bound (Z.of_nat n * 7 + fold_left Z.add b 0) 101 ltac:(done)). unfold fits. simpl. lia.
  - by destruct (_ =? _).
Qed.

Lemma noise_bounded (s e r e1 c1 : nat → list Z) e2 c2 (w t : Z) :
  (∀ i, (i < 3)%nat → l1 (e i) ≤ w ∧ l1 (s i) ≤ w ∧ bounded 2 (r i) ∧ bounded 2 (e1 i) ∧ bounded 2 (c1 i)) →
  bounded 2 e2 → bounded 104 c2 → 18 * w + 106 ≤ 831 →
  Forall (λ x, noisy x 0) (noise_poly s e r e1 c1 e2 c2).
Proof.
  intros Hl He2 Hc2 Hw.
  assert (∀ n b, 0 ≤ b → l1 n ≤ w → ∀ y, bounded b y → bounded (w * b) (pmul n y)) as Hp.
  { intros n b Hb Hn y Hy. eapply bounded_le; [|by apply pmul_bounded]. nia. }
  assert (∀ f b, (∀ i, (i < 3)%nat → bounded b (f i)) → bounded (3 * b) (sum3 f)) as H3.
  { intros f b Hf. unfold sum3, add_poly. eapply (zip_bounded _ (2 * b) b); [lia| |apply Hf; lia].
    eapply (zip_bounded _ b b); [lia|apply Hf; lia..]. }
  assert (bounded 831 (noise_poly s e r e1 c1 e2 c2)) as Hb.
  { eapply (zip_bounded _ (3 * (w * 2) + 106) (3 * (w * 4))); [lia| |].
    - eapply (zip_bounded _ (3 * (w * 2)) 106); [lia| |by eapply (zip_bounded _ 2 104); [lia|..]].
      apply H3. intros i Hi. by apply Hp; [|apply Hl..].
    - apply H3. intros i Hi. apply Hp; [done|by apply Hl|]. eapply (zip_bounded _ 2 2); [lia|by apply Hl..]. }
  eapply Forall_impl; [exact Hb|]. intros x Hx. cbn beta in Hx. exists x. split; [lia|done].
Qed.

(* the seeds and what they lead to *)
Definition toy_coins : bytes := map Z.of_nat (seq 0 64).
Definition toy_seed : bytes := map Z.of_nat (seq 100 32).

Lemma toy_matrix : match @gen_matrix toy_sha3 5 (take SYMBYTES (@hash_g toy_sha3 (take SYMBYTES toy_coins))) false with
                   | Some _ => true | None => false end = true.
Proof. vm_compute. reflexivity. Qed.
Lemma toy_noise i : (i < 7)%nat → ∀ key, l1 (@getnoise_eta1 toy_sha3 key (Z.of_nat i)) = 2.
Proof.
  intros Hi key. unfold getnoise_eta1, prf. cbn [shake256 toy_sha3]. rewrite last_last.
  do 7 (destruct i as [|i]; [vm_compute; reflexivity|]). lia.
Qed.

Lemma toy_matrix_done : @gen_matrix toy_sha3 5 (take SYMBYTES (@hash_g toy_sha3 (take SYMBYTES toy_coins))) false ≠ None.
Proof. intros E. pose proof toy_matrix as T. by rewrite E in T. Qed.
Lemma toy_seed_ok : length toy_seed = SYMBYTES ∧ is_bytes toy_seed.
Proof. split; [done|]. decided. Qed.
Lemma toy_noise_small (nseed kr : bytes) (c1 : nat → list Z) c2 : (∀ i, (i < 3)%nat → small 2 (c1 i)) → small 104 c2 →
  Forall (λ w, noisy w 0) (noise_poly (λ i, @getnoise_eta1 toy_sha3 nseed (Z.of_nat i))
    (λ i, @getnoise_eta1 toy_sha3 nseed (Z.of_nat i + 3)) (λ i, @getnoise_eta1 toy_sha3 kr (Z.of_nat i)) 
    (λ i, @getnoise_eta2 toy_sha3 kr (Z.of_nat i + 3)) c1 (@getnoise_eta2 toy_sha3 kr 6) c2).
Proof.
  intros Hc1 [_ Hc2]. pose proof (λ seed n, proj2 (proj1 (@getnoise_small toy_sha3 seed n))) as B1.
  pose proof (λ seed n, proj2 (proj2 (@getnoise_small toy_sha3 seed n))) as B2.
  apply (noise_bounded _ _ _ _ _ _ _ 2 0); [|exact (B2 _ _)|exact Hc2|lia].
  intros i Hi. split; [|split; [|split; [exact (B1 _ _)|split; [exact (B2 _ _)|exact (proj2 (Hc1 i Hi))]]]].
  - pose proof (toy_noise (i + 3) ltac:(lia) nseed) as E. rewrite Nat2Z.inj_add in E. exact (Z.eq_le_incl _ _ E).
  - exact (Z.eq_le_incl _ _ (toy_noise i ltac:(lia) nseed)).
Qed.

Lemma kyber_decapsulates_witness : ∃ kp ct ss, @Keypair_new toy_sha3 5 toy_coins = Some (Done kp) ∧
  @PublicKey_enc toy_sha3 5 (publickey kp) toy_seed = Some (Done (ct, ss)) ∧
  @Keypair_dec toy_sha3 5 kp ct = Some (Done (Some ss)).
Proof.
  destruct (@kyber_decapsulates toy_sha3 toy_sha3_ok 5 toy_coins toy_seed (proj1 toy_seed_ok) (proj2 toy_seed_ok)
    toy_matrix_done) as (ok & Ek & kp & Ekp & oe & Ee & [ct ss] & Eoe & od & Ed & got & Eod & rows & b & v & b' & v' &
    _ & _ & _ & _ & Hc1 & Hc2 & Hn).
  exists kp, ct, ss. rewrite Ek, Ee, Ed, Ekp, Eoe, Eod. refine (conj eq_refl (conj eq_refl _)). do 2 f_equal. apply Hn.
  by apply toy_noise_small.
Defined.

Lemma byte_0 : fits 8 0.
Proof. done. Qed.
Lemma byte_255 : fits 8 255.
Proof. done. Qed.
Lemma kyber_accepts_only_encapsulations_witness (ct := replicate CIPHERTEXTBYTES 0) :
  ∃ kp, @Keypair_new toy_sha3 5 toy_coins = Some (Done kp) ∧ settles (@Keypair_dec toy_sha3 5 kp ct) (λ got, ∀ ss, got = Some ss →
    ∃ seed, length seed = SYMBYTES ∧ @PublicKey_enc toy_sha3 5 (publickey kp) seed = Some (Done (ct, ss))).
Proof.
  destruct (@keypair_new_total toy_sha3 toy_sha3_ok 5 toy_coins toy_matrix_done) as [kp Ek].
  exists kp. refine (conj Ek _). apply (@kyber_accepts_only_encapsulations toy_sha3 toy_sha3_ok 5 toy_coins kp ct Ek).
  - exact (length_replicate _ _).
  - exact (Forall_replicate _ _ _ byte_0).
Defined.

Lemma toy_productive_255 : @productive toy_sha3 (replicate 32 255).
Proof.
  intros x y Hx Hy. change (seqZ 0 3) with [0; 1; 2] in Hx, Hy.
  repeat (apply elem_of_cons in Hx as [->|Hx] || apply elem_of_nil in Hx as []);
    repeat (apply elem_of_cons in Hy as [->|Hy] || apply elem_of_nil in Hy as []); vm_compute; discriminate.
Qed.
(* coefficients of 4095, above the modulus *)
Lemma kyber_never_overflows_witness (seed := replicate SYMBYTES 255) (kp := replicate SECRETKEYBYTES 255)
    (pk := replicate PUBLICKEYBYTES 255) (ct := replicate CIPHERTEXTBYTES 255) :
  settles (@PublicKey_enc toy_sha3 256 pk seed) (λ '(ct, ss),
    length ct = CIPHERTEXTBYTES ∧ is_bytes ct ∧ length ss = SSBYTES ∧ is_bytes ss) ∧
  settles (@Keypair_dec toy_sha3 256 kp ct) (λ got, ∀ ss, got = Some ss → length ss = SSBYTES ∧ is_bytes ss).
Proof.
  destruct (@kyber_never_overflows toy_sha3 toy_sha3_ok 256 pk seed kp ct (length_replicate _ _) (length_replicate _ _)
    (Forall_replicate _ _ _ byte_255) (length_replicate _ _) (length_replicate _ _) (Forall_replicate _ _ _ byte_255))
    as (Henc & Hdec & Henc' & Hdec').
  assert (drop POLYVECBYTES pk = replicate 32 255) as Epk by (vm_compute; reflexivity).
  assert (drop POLYVECBYTES (publickey kp) = replicate 32 255) as Ekp by (vm_compute; reflexivity).
  rewrite Epk in Henc'. rewrite Ekp in Hdec'.
  split; apply safe_settles; [exact Henc|exact (Henc' (le_n _) toy_productive_255)|exact Hdec|exact (Hdec' (le_n _) toy_productive_255)].
Defined.

(** * Sampling without end *)
Lemma rej_uniform_255 n room : rej_uniform room (replicate n 255) = [].
Proof.
  assert (∀ k n, (n < k)%nat → rej_uniform room (replicate n 255) = []) as Hn; [|by apply (Hn (S n)); lia].
  intros k. induction k as [|k IH]; intros m Hm; [lia|]. destruct m as [|[|[|m]]]; try done.
  cbn [replicate rej_uniform]. unfold put. change (_ <? Q) with false. cbn iota. change (_ <? Q) with false. apply IH. lia.
Qed.
Lemma rej_uniform_stuck x n room : fits 8 x → rej_uniform room (x :: replicate n 255) = [].
Proof.
  intros Hx. destruct n as [|[|n]]; [done..|]. cbn [replicate rej_uniform]. change (Z.shiftl 255 8) with (255 * 2 ^ 8).
  rewrite lor_disjoint by (done || lia). rewrite (land_4095 (x + _)). cbn beta in Hx. unfold fits in Hx. simpl in Hx.
  unfold put. destruct (Z.ltb_spec ((x + 255 * 2 ^ 8) mod 4096) Q) as [Hl|_]; [unfold Q in Hl; zlia|].
  change (_ <? Q) with false. apply rej_uniform_255.
Qed.
Lemma sample_loop_stuck stream fuel pos buflen x : (∀ n, fits 8 (stream n)) → (buflen mod 3 = 0)%nat →
  sample_loop fuel stream pos (x :: replicate 503 255 ++ [0; 0]) buflen [] = None.
Proof.
  intros Hs. revert pos buflen x. induction fuel as [|fuel IH]; intros pos buflen x Hm; cbn [sample_loop length]; [done|].
  change (0 <? N)%nat with true. rewrite Hm. cbn [seq fold_left]. cbn zeta. change (0 + XOF_BLOCKBYTES)%nat with 168%nat.
  change (<[0%nat:=stream pos]> (x :: replicate 503 255 ++ [0; 0])) with (stream pos :: replicate 503 255 ++ [0; 0]).
  change (take 168 (stream pos :: _)) with (stream pos :: replicate 167 255). rewrite rej_uniform_stuck by apply Hs.
  by apply IH.
Qed.

(** C24: Sampling a polynomial ends within 256 rounds of any stream of which the bytes 3 to 167 hold
    one acceptable coefficient. Since a round reads one byte of the stream and looks at those same
    bytes again, it need not end otherwise: when the first 504 bytes are 255, no later byte of the
    stream helps. *)
Theorem sampling_terminates `{Sha3Ok} seed :
  (rej_uniform N (map (shake128 seed) (seq 3 165)) ≠ [] → ∃ x, sample N (shake128 seed) = Some x ∧
    length x = 256%nat ∧ Forall (λ c, 0 ≤ c < Q) x) ∧
  ((∀ n, (n < 504)%nat → shake128 seed n = 255) → ∀ fuel, sample fuel (shake128 seed) = None).
Proof.
  split.
  - intros Hp. destruct (sample N (shake128 seed)) as [x|] eqn:E; [|by apply (sample_productive N) in E].
    exists x. refine (conj eq_refl _). eapply sample_spec; [|exact E]. intros n. apply shake128_ok.
  - intros Hs fuel. unfold sample. rewrite matrix_bytes.
    assert (map (shake128 seed) (seq 0 504) = replicate 504 255) as Em.
    { transitivity (map (λ _, 255) (seq 0 504)); [|done]. apply map_ext_in. intros n Hn%in_seq. apply Hs. lia. }
    rewrite Em.
    change (take 504 (replicate 504 255 ++ [0; 0])) with (replicate 504 255). rewrite rej_uniform_255.
    change (replicate 504 255 ++ [0; 0]) with (255 :: replicate 503 255 ++ [0; 0]).
    apply sample_loop_stuck; [|done]. intros n. apply shake128_ok.
Qed.
(* a stream that never ends the sampling *)
Definition stuck_sha3 : Sha3 := {|
  sha3_256 := @sha3_256 toy_sha3; sha3_512 := @sha3_512 toy_sha3; shake128 _ _ := 255; shake256 := @shake256 toy_sha3;
|}.
Lemma stuck_sha3_ok : @Sha3Ok stuck_sha3.
Proof. split; [apply toy_sha3_ok|apply toy_sha3_ok|done|apply toy_sha3_ok]. Qed.
Lemma toy_productive : rej_uniform N (map (@shake128 toy_sha3 []) (seq 3 165)) ≠ [].
Proof. by vm_compute. Qed.
Lemma sampling_terminates_witness :
  (∃ x, sample N (@shake128 toy_sha3 []) = Some x) ∧ ∀ fuel, sample fuel (@shake128 stuck_sha3 []) = None.
Proof.
  destruct (proj1 (@sampling_terminates toy_sha3 toy_sha3_ok []) toy_productive) as (x & E & _).
  exact (conj (ex_intro _ x E) (proj2 (@sampling_terminates stuck_sha3 stuck_sha3_ok []) (λ _ _, eq_refl))).
Defined.
