(* ===== verification/ClientNode.v ===== *)
(** The client's node: [nodes/client/src/node.rs], and the requests of [protocol.rs] that it serves.
    It keeps a connection per subscribed topic, sends every request down the connection of its
    topic, opens a path to a replica of a topic nobody serves yet, and gives answers back by the id
    of the call.

    The connections are an interface ([ClientStream]), like the onion that opens paths
    ([ClientOnion]) and the random choices ([ThreadRng]). Channels to the user interface are named
    by numbers; what is sent on them is the answer of an operation. The order in which
    [SelectAll] keeps its streams is left open: a step may reorder them. *)

From S2P Require Import Prelude Codec Collections Dht ChatSpec Chat Server Onion.

(** [IteratorRandom] of the rand crate. *)
Class ThreadRng (G : Type) := {
  choose : ∀ {A}, list A → G → option A * G;
  choose_multiple : ∀ {A}, nat → list A → G → list A * G;
}.
Class ThreadRngOk G `{ThreadRng G} : Prop := {
  choose_ok : ∀ {A} (l : list A) g, match fst (choose l g) with Some x => x ∈ l | None => l = [] end;
  choose_multiple_ok : ∀ {A} n (l : list A) g,
    length (fst (choose_multiple n l g)) = (n `min` length l)%nat ∧ ∃ rest, fst (choose_multiple n l g) ++ rest ≡ₚ l;
}.

(** [onion::Behaviour::open_path]. *)
Class ClientOnion (O : Type) := client_open_path : list (PublicKey * PeerId) → O → PathId * O.

(** ** Requests (protocol.rs) *)

Notation Chan := nat (only parsing).

Record RawRequest := { rq_id : CallId; rq_topic : option PossibleTopic; rq_payload : bytes; rq_channel : Chan }.
Record SubscriptionInit := { si_id : CallId; si_topic : PossibleTopic; si_payload : bytes; si_channel : Chan }.
Inductive RequestInit :=
  | Request (r : RawRequest) | SubscriptionRequest (s : SubscriptionInit) | CloseSubscription (id : CallId).

Definition request_topic (r : RequestInit) : outcome PossibleTopic :=
  match r with
  | Request r => unwrap (rq_topic r)
  | SubscriptionRequest s => Done (si_topic s)
  | CloseSubscription _ => Panic
  end.

(** ** The node *)

Section node.
Context {St On G Addr : Type} `{ClientStream St, ClientOnion On, ThreadRng G, Ed25519, Blake3}.

Record Subscription := {
  sub_id : PathId;
  sub_peer : PeerId;
  sub_topics : list PossibleTopic;
  sub_subs : LinearMap.LinearMap CallId Chan;
  sub_stream : St;
}.

Record Node := {
  n_table : RoutingTable Addr;
  n_keys : gmap PeerId PublicKey;
  n_onion : On;
  n_rng : G;
  n_subs : list Subscription;
  n_pending : LinearMap.LinearMap CallId Chan;
  n_search : LinearMap.LinearMap PathId (list RequestInit);
}.

Definition with_subs (n : Node) (l : list Subscription) : Node :=
  {| n_table := n_table n; n_keys := n_keys n; n_onion := n_onion n; n_rng := n_rng n; n_subs := l;
     n_pending := n_pending n; n_search := n_search n |}.
Definition with_pending (n : Node) (p : LinearMap.LinearMap CallId Chan) : Node :=
  {| n_table := n_table n; n_keys := n_keys n; n_onion := n_onion n; n_rng := n_rng n; n_subs := n_subs n;
     n_pending := p; n_search := n_search n |}.
Definition with_search (n : Node) (s : LinearMap.LinearMap PathId (list RequestInit)) : Node :=
  {| n_table := n_table n; n_keys := n_keys n; n_onion := n_onion n; n_rng := n_rng n; n_subs := n_subs n;
     n_pending := n_pending n; n_search := s |}.
Definition with_swarm (n : Node) (o : On) (g : G) : Node :=
  {| n_table := n_table n; n_keys := n_keys n; n_onion := o; n_rng := g; n_subs := n_subs n;
     n_pending := n_pending n; n_search := n_search n |}.

Definition with_topics (s : Subscription) (t : list PossibleTopic) : Subscription :=
  {| sub_id := sub_id s; sub_peer := sub_peer s; sub_topics := t; sub_subs := sub_subs s; sub_stream := sub_stream s |}.
Definition with_sub_subs (s : Subscription) (m : LinearMap.LinearMap CallId Chan) : Subscription :=
  {| sub_id := sub_id s; sub_peer := sub_peer s; sub_topics := sub_topics s; sub_subs := m; sub_stream := sub_stream s |}.

(* stream.write_bytes(payload).unwrap() *)
Definition sub_write (payload : bytes) (s : Subscription) : outcome Subscription :=
  let (r, st) := stream_write reminder_codec payload (sub_stream s) in
  try! _ := unwrap r in
  Done {| sub_id := sub_id s; sub_peer := sub_peer s; sub_topics := sub_topics s; sub_subs := sub_subs s; sub_stream := st |}.

(* three hops, the target first *)
Definition pick_route (nodes : gmap PeerId PublicKey) (target : PeerId) (g : G) :
    outcome (list (PublicKey * PeerId) * G) :=
  try! _ := assert_that (2 ≤ size nodes)%nat in
  let others := map (λ '(p, ud), (ud, p)) (filter (λ '(p, _), p ≠ target) (map_to_list nodes)) in
  let (picked, g) := choose_multiple 2 others g in
  try! k := unwrap (nodes !! target) in
  let picked := (k, target) :: picked in
  try! _ := assert_that (length picked = 3%nat) in
  Done (picked, g).

(* pending_topic_search.iter_mut().find(|(_, v)| v.iter().any(|c| c.topic() == search_key)) *)
Fixpoint any_topic (key : PossibleTopic) (l : list RequestInit) : outcome bool :=
  match l with
  | [] => Done false
  | c :: l => try! t := request_topic c in if bool_decide (t = key) then Done true else any_topic key l
  end.
Fixpoint find_search (key : PossibleTopic) (l : list (PathId * list RequestInit)) : outcome (option nat) :=
  match l with
  | [] => Done None
  | (_, v) :: l =>
      try! b := any_topic key v in
      if b then Done (Some 0%nat) else try! i := find_search key l in Done (S <$> i)
  end.
Definition push_at (i : nat) (c : RequestInit) (m : LinearMap.LinearMap PathId (list RequestInit)) :
    LinearMap.LinearMap PathId (list RequestInit) :=
  {| LinearMap.values := alter (λ '(p, v), (p, v ++ [c])) i (LinearMap.values m) |}.

(* [None]: the recursion, back to [handle_command], ran out of fuel *)
Section handlers.
Context (handle_command : RequestInit → Node → option (outcome Node)).

Definition handle_topic_search (command : RequestInit) (n : Node) : option (outcome Node) :=
  match request_topic command with
  | Panic => Some Panic
  | Done search_key =>
      match find_search search_key (LinearMap.values (n_search n)) with
      | Panic => Some Panic
      | Done (Some i) => Some (Done (with_search n (push_at i command (n_search n))))
      | Done None =>
          let peers := replicators_for (n_table n) search_key in
          match position (λ s, bool_decide (sub_peer s ∈ peers)) (n_subs n) with
          | Some i =>
              handle_command command
                (with_subs n (alter (λ s, with_topics s (sub_topics s ++ [search_key])) i (n_subs n)))
          | None =>
              let (pick, g) := choose peers (n_rng n) in
              match pick with
              | None => Some (Done (with_swarm n (n_onion n) g))
              | Some pick =>
                  match pick_route (n_keys n) pick g with
                  | Panic => Some Panic
                  | Done (path, g) =>
                      let (pid, o) := client_open_path path (n_onion n) in
                      let n := with_swarm n o g in
                      Some (Done (with_search n (snd (LinearMap.insert pid [command] (n_search n)))))
                  end
              end
          end
      end
  end.

(* the connection at an index, replaced *)
Definition on_sub (i : nat) (f : Subscription → outcome Subscription) (n : Node) : outcome Node :=
  try! s := unwrap (n_subs n !! i) in
  try! s := f s in
  Done (with_subs n (<[i:=s]> (n_subs n))).

Definition serves_request (r : RawRequest) (s : Subscription) : bool :=
  match rq_topic r with None => true | Some t => bool_decide (t ∈ sub_topics s) end.

Definition handle_request (req : RawRequest) (n : Node) : option (outcome Node) :=
  match position (serves_request req) (n_subs n) with
  | None => handle_topic_search (Request req) n
  | Some i => Some (
      try! _ := assert_that (rq_payload req ≠ []) in
      try! n := on_sub i (sub_write (rq_payload req)) n in
      Done (with_pending n (snd (LinearMap.insert (rq_id req) (rq_channel req) (n_pending n)))))
  end.

Definition handle_subscription_request (sub : SubscriptionInit) (n : Node) : option (outcome Node) :=
  match position (λ s, bool_decide (si_topic sub ∈ sub_topics s)) (n_subs n) with
  | None => handle_topic_search (SubscriptionRequest sub) n
  | Some i => Some (
      try! _ := assert_that (si_payload sub ≠ []) in
      on_sub i (λ s,
        try! s := sub_write (si_payload sub) s in
        Done (with_sub_subs s (snd (LinearMap.insert (si_id sub) (si_channel sub) (sub_subs s))))) n)
  end.
End handlers.

Definition close_subscription (id : CallId) (n : Node) : outcome Node :=
  match position (λ s, LinearMap.contains_key id (sub_subs s)) (n_subs n) with
  | None => Done n
  | Some i => on_sub i (λ s, Done (with_sub_subs s (snd (LinearMap.remove id (sub_subs s))))) n
  end.

Fixpoint handle_command (fuel : nat) (command : RequestInit) (n : Node) : option (outcome Node) :=
  match fuel with
  | O => None
  | S fuel =>
      match command with
      | Request req => handle_request (handle_command fuel) req n
      | SubscriptionRequest sub => handle_subscription_request (handle_command fuel) sub n
      | CloseSubscription id => Some (close_subscription id n)
      end
  end.
(* two levels are enough: [command_total] *)
Definition command (c : RequestInit) (n : Node) : outcome Node := default Panic (handle_command 2 c n).

Fixpoint commands (cs : list RequestInit) (n : Node) : outcome Node :=
  match cs with [] => Done n | c :: cs => try! n := command c n in commands cs n end.

(* Event::OutboundStream; other events change nothing *)
Definition handle_swarm_event (stream : option (St * PeerId)) (id : PathId) (n : Node) : outcome Node :=
  let (req, search) := LinearMap.remove id (n_search n) in
  let n := with_search n search in
  match req with
  | None => Done n
  | Some req =>
      try! (st, peer_id) := unwrap stream in
      try! first := unwrap (req !! 0%nat) in
      try! t := request_topic first in
      let sub := {| sub_id := id; sub_peer := peer_id; sub_topics := [t]; sub_subs := LinearMap.default;
                    sub_stream := st |} in
      commands req (with_subs n (n_subs n ++ [sub]))
  end.

(** What is sent to the channel of a request or of a subscription; [alive] says whether the other
    end of a subscription still listens. *)
Inductive Sent := Answer (c : Chan) (msg : bytes) | SubEvent (c : Chan) (content : bytes).
Definition call_and_content : Codec (CallId * bytes) := pair_codec usize_codec reminder_codec.

Definition handle_subscription_response (alive : Chan → bool) (id : PathId) (request : option bytes) (n : Node) :
    outcome (list Sent * Node) :=
  match request with
  | None => Done ([], n)
  | Some msg =>
      match fst (decode call_and_content msg) with
      | None => Done ([], n)
      | Some (cid, content) =>
          match LinearMap.remove cid (n_pending n) with
          | (Some channel, pending) => Done ([Answer channel msg], with_pending n pending)
          | (None, _) =>
              match position (λ s, bool_decide (sub_id s = id)) (n_subs n) with
              | None => Done ([], n)
              | Some i =>
                  match n_subs n !! i ≫= λ s, LinearMap.get cid (sub_subs s) with
                  | None => Done ([], n)
                  | Some channel =>
                      if alive channel then Done ([SubEvent channel content], n)
                      else
                        try! j := unwrap (position (λ s, LinearMap.contains_key cid (sub_subs s)) (n_subs n)) in
                        try! n := on_sub j (λ s, Done (with_sub_subs s (snd (LinearMap.remove cid (sub_subs s))))) n in
                        Done ([], n)
                  end
              end
          end
      end
  end.
End node.
Arguments Subscription : clear implicits.
Arguments Node : clear implicits.

(** ** Invariant *)

(** Path ids come from a counter. *)
Class ClientOnionOk On `{ClientOnion On} := {
  next_path_id : On → PathId;
  open_path_fresh : ∀ p o, fst (client_open_path p o) = next_path_id o ∧
                           next_path_id (snd (client_open_path p o)) = S (next_path_id o);
}.

Section facts.
Context {St On G Addr : Type} `{ClientStream St, ClientOnionOk On, ThreadRngOk G, Ed25519, Blake3}.
Local Notation Node := (Node St On G Addr).
Local Notation Subscription := (Subscription St).
Implicit Types (n : Node) (s : Subscription) (c : RequestInit).

Definition searches n : list (PathId * list RequestInit) := LinearMap.values (n_search n).
Definition topic_of (g : PathId * list RequestInit) : outcome PossibleTopic :=
  match g.2 with [] => Panic | c :: _ => request_topic c end.

(* the requests that wait for a path all have one topic, which no connection serves *)
Definition group_ok (subs : list Subscription) (g : PathId * list RequestInit) : Prop :=
  ∃ t, topic_of g = Done t ∧ Forall (λ c, request_topic c = Done t) g.2 ∧
    Forall (λ s, t ∉ sub_topics s) subs.

Record client_ok n : Prop := {
  ok_groups : Forall (group_ok (n_subs n)) (searches n);
  ok_topics : NoDup (map topic_of (searches n));
  ok_paths : NoDup (map sub_id (n_subs n) ++ (searches n).*1);
  ok_fresh : Forall (λ p, (p < next_path_id (n_onion n))%nat) (map sub_id (n_subs n) ++ (searches n).*1);
}.

(** The requests that are owed an answer: sent ones and those waiting for a path. *)
Definition owed_of (c : RequestInit) : list (CallId * Chan) :=
  match c with Request r => [(rq_id r, rq_channel r)] | _ => [] end.
Definition owed_group (g : PathId * list RequestInit) : list (CallId * Chan) := flat_map owed_of g.2.
Definition owed n : list (CallId * Chan) :=
  LinearMap.values (n_pending n) ++ flat_map owed_group (searches n).

Lemma insert_new {K V} `{EqDecision K} (k : K) (v : V) m : k ∉ LinearMap.keys m →
  LinearMap.insert k v m = (None, {| LinearMap.values := LinearMap.values m ++ [(k, v)] |}).
Proof.
  intros Hk. unfold LinearMap.insert. destruct (position _ _) as [i|] eqn:E; [|done].
  exfalso. apply Hk. apply position_some in E as ([k' v'] & Hi & Hq). unfold LinearMap.is_key in Hq.
  apply bool_decide_eq_true in Hq. simpl in Hq. subst k'. unfold LinearMap.keys.
  apply (list_elem_of_fmap_2 fst _ (k, v')). by eapply list_elem_of_lookup_2.
Qed.
Lemma remove_perm {K V} `{EqDecision K} (k : K) (m : LinearMap.LinearMap K V) :
  match LinearMap.remove k m with
  | (Some v, m') => LinearMap.values m ≡ₚ (k, v) :: LinearMap.values m'
  | (None, m') => m' = m ∧ k ∉ LinearMap.keys m
  end.
Proof.
  unfold LinearMap.remove. destruct (position _ _) as [i|] eqn:E.
  - apply position_some in E as ([k' v'] & Hi & Hq). unfold LinearMap.is_key in Hq.
    apply bool_decide_eq_true in Hq. simpl in Hq. subst k'.
    destruct (swap_remove_perm _ _ _ Hi) as (l' & -> & Hp). done.
  - split; [done|]. unfold LinearMap.keys. rewrite position_none, Forall_forall in E.
    intros ([k' v'] & Hk & Hel)%list_elem_of_fmap. apply E in Hel. unfold LinearMap.is_key in Hel.
    apply bool_decide_eq_false in Hel. simpl in *. congruence.
Qed.

Lemma any_topic_spec key v t : v ≠ [] → Forall (λ c, request_topic c = Done t) v →
  any_topic key v = Done (bool_decide (t = key)).
Proof.
  intros Hne Ht. induction Ht as [|c v Hc Hv IH]; [done|]. cbn [any_topic]. rewrite Hc. cbn [obind].
  case_bool_decide; [done|]. destruct v as [|c' v]; [done|]. by rewrite IH.
Qed.
Lemma find_search_spec key subs l : Forall (group_ok subs) l →
  ∃ r, find_search key l = Done r ∧
    match r with
    | Some i => ∃ g, l !! i = Some g ∧ topic_of g = Done key
    | None => Done key ∉ map topic_of l
    end.
Proof.
  induction 1 as [|[p v] l (t & Et & Hv & _) _ (r & Er & IH)]; [by exists None; split; [|apply not_elem_of_nil]|].
  cbn [find_search]. rewrite (any_topic_spec key v t) by (done || by destruct v). cbn [obind].
  case_bool_decide as Hk; [by subst; exists (Some 0%nat); split; [|exists (p, v)]|].
  rewrite Er. cbn [obind]. eexists. split; [done|]. destruct r as [i|]; cbn [fmap option_fmap option_map]; [done|].
  cbn [map]. intros [E|E]%elem_of_cons; [|done]. congruence.
Qed.
Lemma elem_topic key subs l i g : Forall (group_ok subs) l → l !! i = Some g → topic_of g = Done key →
  g.2 ≠ [] ∧ Forall (λ c, request_topic c = Done key) g.2.
Proof.
  intros Hl Hi Hg. destruct (proj1 (Forall_lookup _ _) Hl _ _ Hi) as (t & Et & Hv & _).
  rewrite Hg in Et. injection Et as <-. split; [by destruct g as [? []]|done].
Qed.

Lemma flat_map_alter_perm {A B} (f : A → list B) (h : A → A) i l x (extra : list B) :
  l !! i = Some x → f (h x) ≡ₚ extra ++ f x → flat_map f (alter h i l) ≡ₚ extra ++ flat_map f l.
Proof.
  revert i. induction l as [|y l IH]; intros [|i] Hi Hf; try done.
  - injection Hi as ->. cbn [alter list_alter flat_map]. by rewrite Hf, app_assoc.
  - cbn. change (list_alter h i l) with (alter h i l). rewrite (IH i) by done.
    rewrite !(assoc_L (++)). by rewrite (Permutation_app_comm (f y)).
Qed.
Lemma map_alter_same {A B} (f : A → B) (h : A → A) i l : (∀ x, l !! i = Some x → f (h x) = f x) →
  map f (alter h i l) = map f l.
Proof.
  revert i. induction l as [|y l IH]; intros [|i] Hf; try done; cbn; f_equal; [by apply Hf|by apply IH].
Qed.

(** A waiting topic gets another request. *)
Lemma push_at_ok n i g c key : client_ok n → searches n !! i = Some g → topic_of g = Done key →
  request_topic c = Done key →
  let n' := with_search n (push_at i c (n_search n)) in
  client_ok n' ∧ owed n' ≡ₚ owed_of c ++ owed n ∧ map topic_of (searches n') = map topic_of (searches n).
Proof.
  intros [Hg Ht Hp Hf] Hi Hk Hc n'.
  destruct (elem_topic key _ _ _ _ Hg Hi Hk) as [Hne Hv].
  assert (map topic_of (searches n') = map topic_of (searches n)) as Et.
  { apply map_alter_same. intros [p v] Hx. pose proof (eq_trans (eq_sym Hi) Hx) as Eg. injection Eg as ->. clear Hx.
    unfold topic_of. cbn in Hne |- *. by destruct v. }
  assert ((searches n').*1 = (searches n).*1) as Ep.
  { apply map_alter_same. by intros [p v]. }
  split; [|split; [|done]].
  - split; [|by rewrite Et|by rewrite Ep|by rewrite Ep]. cbn [n_subs n' with_search].
    unfold searches, n'. cbn [n_search with_search push_at LinearMap.values].
    apply Forall_alter; [exact Hg|]. intros [p v] Hx (t & E & Hall & Hs). pose proof (eq_trans (eq_sym Hi) Hx) as Eg. injection Eg as ->. clear Hx.
    rewrite Hk in E. injection E as <-. exists key. split_and!; [|by apply Forall_app_2; [|repeat constructor]|done].
    unfold topic_of in *. cbn in Hne, Hk |- *. by destruct v.
  - unfold owed. change (searches n') with (alter (λ '(p, v), (p, v ++ [c])) i (searches n)).
    change (n_pending n') with (n_pending n).
    rewrite (flat_map_alter_perm owed_group _ i (searches n) g (owed_of c)); [|done|].
    + rewrite !(assoc_L (++)). by rewrite (Permutation_app_comm (LinearMap.values _)).
    + destruct g as [p v]. unfold owed_group. cbn [snd]. rewrite flat_map_app. cbn [flat_map].
      rewrite app_nil_r. apply Permutation_app_comm.
Qed.

(** What the invariant depends on. *)
Definition same_shape n n' : Prop :=
  map sub_id (n_subs n') = map sub_id (n_subs n) ∧ map sub_topics (n_subs n') = map sub_topics (n_subs n) ∧
  n_search n' = n_search n ∧ next_path_id (n_onion n') = next_path_id (n_onion n).

Lemma no_topic_map t (l : list Subscription) : Forall (λ s, t ∉ sub_topics s) l ↔ Forall (λ ts, t ∉ ts) (map sub_topics l).
Proof. by rewrite Forall_map. Qed.
Lemma same_shape_ok n n' : same_shape n n' → client_ok n → client_ok n'.
Proof.
  intros (Ei & Et & Es & Eo) [Hg Ht Hp Hf].
  assert (searches n' = searches n) as Ess by (unfold searches; by rewrite Es).
  split; rewrite ?Ess, ?Ei, ?Eo; try done.
  eapply Forall_impl; [exact Hg|]. intros g (t & E & Hv & Hs). exists t. split_and!; [done..|].
  apply no_topic_map. rewrite Et. by apply no_topic_map.
Qed.

Lemma map_insert_same {A B} (f : A → B) i (l : list A) x y : l !! i = Some x → f y = f x → map f (<[i:=y]> l) = map f l.
Proof.
  intros Hi Hf. change (f <$> <[i:=y]> l = f <$> l). rewrite list_fmap_insert, Hf. apply list_insert_id.
  by rewrite list_lookup_fmap, Hi.
Qed.
Definition keeps_shape (f : Subscription → outcome Subscription) : Prop :=
  ∀ s s', f s = Done s' → sub_id s' = sub_id s ∧ sub_topics s' = sub_topics s.
Lemma on_sub_shape i f n n' : keeps_shape f → on_sub i f n = Done n' →
  same_shape n n' ∧ n_pending n' = n_pending n.
Proof.
  intros Hf. unfold on_sub. destruct (n_subs n !! i) as [s|] eqn:Hi; [|done]. cbn [unwrap obind].
  destruct (f s) as [s'|] eqn:Ef; [|done]. intros [= <-]. destruct (Hf _ _ Ef) as [Ei Et].
  split; [|done]. unfold same_shape. cbn [n_subs with_subs n_search n_onion].
  by rewrite (map_insert_same _ _ _ _ _ Hi Ei), (map_insert_same _ _ _ _ _ Hi Et).
Qed.
Lemma sub_write_shape b : keeps_shape (sub_write b).
Proof.
  intros s s'. unfold sub_write. destruct (stream_write _ _ _) as [[[]|] st]; [|done]. by intros [= <-].
Qed.
Lemma subscribe_shape b k v : keeps_shape (λ s, try! s := sub_write b s in
  Done (with_sub_subs s (snd (LinearMap.insert k v (sub_subs s))))).
Proof.
  intros s s'. destruct (sub_write b s) as [s1|] eqn:E; [|done]. intros [= <-]. by apply sub_write_shape in E.
Qed.
Lemma close_shape k : keeps_shape (λ s, Done (with_sub_subs s (snd (LinearMap.remove k (sub_subs s))))).
Proof. by intros s s' [= <-]. Qed.

(* what a command that goes through leaves behind *)
Definition accepted c n n' : Prop := client_ok n' ∧ owed n' ≡ₚ owed_of c ++ owed n.

Definition fresh_call c n : Prop := Forall (λ r, r.1 ∉ (owed n).*1) (owed_of c).

Lemma handle_request_served r hc n i n' : client_ok n → fresh_call (Request r) n →
  position (serves_request r) (n_subs n) = Some i →
  handle_request hc r n = Some (Done n') → accepted (Request r) n n' ∧ same_shape n n'.
Proof.
  intros Hok Hfr Hi. unfold handle_request. rewrite Hi. intros [= E].
  destruct (assert_that _) as [[]|]; [|done]. cbn [obind] in E.
  destruct (on_sub _ _ n) as [n1|] eqn:E1; [|done]. cbn [obind] in E.
  destruct (on_sub_shape _ _ _ _ (sub_write_shape _) E1) as [Hs Ep].
  assert (same_shape n n') as Hs' by by injection E as <-.
  split; [|done]. split; [by eapply same_shape_ok|]. injection E as <-.
  destruct Hs as (_ & _ & Es & _). unfold owed, searches. cbn [n_pending with_pending n_search].
  rewrite Es, Ep, insert_new.
  - cbn [snd LinearMap.values owed_of]. by rewrite <-(assoc_L (++)), (Permutation_app_comm _ ([_] ++ _)), <-(assoc_L (++)), (Permutation_app_comm (flat_map _ _)).
  - unfold fresh_call in Hfr. cbn [owed_of] in Hfr. apply Forall_cons in Hfr as [Hfr _]. unfold owed in Hfr. cbn [fst] in Hfr.
    rewrite fmap_app, elem_of_app in Hfr. unfold LinearMap.keys. tauto.
Qed.
Lemma handle_subscription_served r hc n i n' : client_ok n →
  position (λ s, bool_decide (si_topic r ∈ sub_topics s)) (n_subs n) = Some i →
  handle_subscription_request hc r n = Some (Done n') → accepted (SubscriptionRequest r) n n' ∧ same_shape n n'.
Proof.
  intros Hok Hi. unfold handle_subscription_request. rewrite Hi. intros [= E].
  destruct (assert_that _) as [[]|]; [|done]. cbn [obind] in E.
  destruct (on_sub_shape _ _ _ _ (subscribe_shape _ _ _) E) as [Hs Ep].
  split; [|done]. split; [by eapply same_shape_ok|]. destruct Hs as (_ & _ & Es & _).
  unfold owed, searches. by rewrite Es, Ep.
Qed.

(* whether a connection serves the topic of the command *)
Definition served c n : bool :=
  match c with
  | Request r => existsb (serves_request r) (n_subs n)
  | SubscriptionRequest s => existsb (λ x, bool_decide (si_topic s ∈ sub_topics x)) (n_subs n)
  | CloseSubscription _ => true
  end.
(** The request that a command loses: nobody serves its topic, nobody is being connected for it, and
    the routing table knows no replica of it; the error is logged and the command is gone. *)
Definition lost_by c n : list (CallId * Chan) :=
  match request_topic c with
  | Done t => if negb (served c n) && bool_decide (Done t ∉ map topic_of (searches n)) &&
                 bool_decide (replicators_for (n_table n) t = []) then owed_of c else []
  | Panic => []
  end.
(* what a command leaves behind: its request is owed, or lost *)
Definition settled c n n' : Prop := client_ok n' ∧ owed_of c ++ owed n ≡ₚ lost_by c n ++ owed n'.

Lemma served_settled c n n' : served c n = true → accepted c n n' → settled c n n'.
Proof.
  intros Hs [Hok Ho]. split; [done|]. rewrite Ho. unfold lost_by. rewrite Hs. by destruct (request_topic c).
Qed.
Lemma replicas_settled c t n n' : request_topic c = Done t → replicators_for (n_table n) t ≠ [] →
  accepted c n n' → settled c n n'.
Proof.
  intros Hc Hr [Hok Ho]. split; [done|]. rewrite Ho. unfold lost_by. rewrite Hc.
  rewrite (bool_decide_false (_ = [])) by done. by rewrite andb_false_r.
Qed.

Lemma position_existsb {A} (q : A → bool) l : existsb q l = true ↔ ∃ i, position q l = Some i.
Proof.
  destruct (position q l) as [i|] eqn:E.
  - apply position_some in E as (x & Hi & Hq). split; [by exists i|]. intros _. apply existsb_exists.
    exists x. split; [by eapply list_elem_of_In, list_elem_of_lookup_2|done].
  - split; [|by intros [? ?]]. rewrite position_none, Forall_forall in E. intros (x & Hx & Hq)%existsb_exists.
    apply list_elem_of_In in Hx. by rewrite E in Hq.
Qed.

Lemma command_served k c n n' : client_ok n → fresh_call c n → served c n = true →
  handle_command (S k) c n = Some (Done n') → accepted c n n' ∧ same_shape n n'.
Proof.
  intros Hok Hfr Hs. destruct c as [r|r|id]; cbn [served] in Hs; cbn [handle_command].
  - apply position_existsb in Hs as [i Hi]. by apply handle_request_served with i.
  - apply position_existsb in Hs as [i Hi]. by apply handle_subscription_served with i.
  - unfold close_subscription. destruct (position _ _) as [i|].
    + intros [= E]. destruct (on_sub_shape _ _ _ _ (close_shape _) E) as [Hsh Ep].
      split; [|done]. split; [by eapply same_shape_ok|]. destruct Hsh as (_ & _ & Es & _).
      unfold owed, searches. by rewrite Es, Ep.
    + by intros [= <-].
Qed.
Lemma served_total k c n : served c n = true → ∃ o, handle_command (S k) c n = Some o.
Proof.
  destruct c as [r|r|id]; cbn [served handle_command]; [| |by eexists].
  - unfold handle_request. intros [i ->]%position_existsb. by eexists.
  - unfold handle_subscription_request. intros [i ->]%position_existsb. by eexists.
Qed.

(* a connected replica takes the topic on *)
Lemma with_topic_ok n i t : client_ok n → Done t ∉ map topic_of (searches n) →
  let n' := with_subs n (alter (λ s, with_topics s (sub_topics s ++ [t])) i (n_subs n)) in
  client_ok n' ∧ owed n' = owed n.
Proof.
  intros [Hg Ht Hp Hf] Hn n'. split; [|done].
  assert (map sub_id (n_subs n') = map sub_id (n_subs n)) as Ei by by apply map_alter_same.
  split; rewrite ?Ei; try done. change (searches n') with (searches n).
  rewrite Forall_forall in Hg |- *. intros g Hel. destruct (Hg g Hel) as (t' & E & Hv & Hs).
  exists t'. split_and!; [done..|]. cbn [n_subs n' with_subs]. apply Forall_alter; [done|].
  intros s _ Hns. cbn [sub_topics with_topics]. rewrite elem_of_app, list_elem_of_singleton. intros [?| ->]; [done|].
  apply Hn. rewrite <-E. by apply (list_elem_of_fmap_2 topic_of).
Qed.
Lemma with_topic_served n i t c s : request_topic c = Done t → n_subs n !! i = Some s →
  served c (with_subs n (alter (λ s, with_topics s (sub_topics s ++ [t])) i (n_subs n))) = true.
Proof.
  intros Hc Hi. assert (with_topics s (sub_topics s ++ [t]) ∈ alter (λ s, with_topics s (sub_topics s ++ [t])) i (n_subs n)) as Hel.
  { apply list_elem_of_lookup_2 with i. by rewrite list_lookup_alter_eq, Hi. }
  assert (t ∈ sub_topics s ++ [t]) as Ht by (apply elem_of_app; right; by apply list_elem_of_singleton).
  destruct c as [r|r|id]; cbn [served n_subs with_subs]; [| |done]; apply existsb_exists; eexists;
    (split; [by apply list_elem_of_In|]).
  - unfold serves_request. cbn [request_topic] in Hc. destruct (rq_topic r); [|done]. injection Hc as ->. by apply bool_decide_true.
  - injection Hc as ->. by apply bool_decide_true.
Qed.
(* a search for a new topic *)
Lemma new_search_ok n c t pick path g o : client_ok n → request_topic c = Done t →
  Done t ∉ map topic_of (searches n) → Forall (λ s, t ∉ sub_topics s) (n_subs n) →
  pick = client_open_path path (n_onion n) → pick = (fst pick, o) →
  let n1 := with_swarm n o g in
  accepted c n (with_search n1 (snd (LinearMap.insert (fst pick) [c] (n_search n1)))).
Proof.
  intros [Hg Ht Hp Hf] Hc Hn Hs Epick Eo n1. destruct (open_path_fresh path (n_onion n)) as [Eid Enext].
  rewrite <-Epick in Eid, Enext. rewrite Eo in Enext. cbn [snd] in Enext. rewrite Eid. set (p := next_path_id (n_onion n)) in *.
  assert (p ∉ map sub_id (n_subs n) ++ (searches n).*1) as Hfr.
  { intros Hel. rewrite Forall_forall in Hf. apply Hf in Hel. fold p in Hel. lia. }
  rewrite insert_new by (rewrite elem_of_app in Hfr; intros E; apply Hfr; by right). cbn [snd].
  set (n' := with_search _ _).
  assert (searches n' = searches n ++ [(p, [c])]) as Es by done.
  split.
  - split; rewrite ?Es.
    + apply Forall_app_2; [done|]. constructor; [|constructor]. exists t. split_and!; [done|by repeat constructor|done].
    + rewrite map_app. apply NoDup_app. split_and!; [done| |by apply NoDup_singleton].
      intros x Hx Hin. cbn in Hin. apply list_elem_of_singleton in Hin as ->. unfold topic_of in Hx. cbn [snd] in Hx. by rewrite Hc in Hx.
    + rewrite fmap_app, (assoc_L (++)). apply NoDup_app. split_and!; [done| |by apply NoDup_singleton].
      intros x Hx Hin. cbn in Hin. apply list_elem_of_singleton in Hin as ->. done.
    + cbn [n_onion n' with_search n1 with_swarm]. rewrite Enext, fmap_app, (assoc_L (++)). apply Forall_app_2.
      * eapply Forall_impl; [exact Hf|]. intros q. cbn. fold p. lia.
      * constructor; [cbn; fold p; lia|constructor].
  - unfold owed. rewrite Es, flat_map_app. cbn [flat_map n_pending n' with_search n1 with_swarm].
    change (owed_group (p, [c])) with (owed_of c ++ []). rewrite !app_nil_r, (assoc_L (++)). apply Permutation_app_comm.
Qed.

Lemma not_served_topic c n t : request_topic c = Done t → served c n = false → Forall (λ s, t ∉ sub_topics s) (n_subs n).
Proof.
  intros Hc Hs. apply Forall_forall. intros s Hel Ht. apply not_true_iff_false in Hs. apply Hs.
  destruct c as [r|r|id]; [| |done]; apply existsb_exists; exists s; (split; [by apply list_elem_of_In|]).
  - unfold serves_request. cbn in Hc. destruct (rq_topic r); [|done]. injection Hc as ->. by apply bool_decide_true.
  - injection Hc as ->. by apply bool_decide_true.
Qed.

Lemma topic_search_spec k c n : client_ok n → fresh_call c n → served c n = false →
  ∃ o, handle_topic_search (handle_command (S k)) c n = Some o ∧ ∀ n', o = Done n' → settled c n n'.
Proof.
  intros Hok Hfr Hns. unfold handle_topic_search.
  destruct (request_topic c) as [t|] eqn:Hc; [|by eexists].
  pose proof (not_served_topic c n t Hc Hns) as Hs.
  destruct (find_search_spec t (n_subs n) (searches n) (ok_groups n Hok)) as (r & Er & Hr).
  unfold searches in Er. rewrite Er. destruct r as [i|].
  { destruct Hr as (g & Hi & Hg). eexists. split; [done|]. intros n' [= <-].
    destruct (push_at_ok n i g c t Hok Hi Hg Hc) as (? & Ho & _). split; [done|]. rewrite Ho. unfold lost_by. rewrite Hc.
    assert (Done t ∈ map topic_of (searches n)) as Hin.
    { apply list_elem_of_fmap. exists g. split; [done|]. by eapply list_elem_of_lookup_2. }
    rewrite (bool_decide_false (_ ∉ _)) by (intros Hni; by apply Hni). by rewrite andb_false_r. }
  destruct (position _ (n_subs n)) as [i|] eqn:Hi.
  - apply position_some in Hi as (s & Hi & Hpeer%bool_decide_eq_true). destruct (with_topic_ok n i t Hok Hr) as [Hok1 Ho1].
    pose proof (with_topic_served n i t c s Hc Hi) as Hsv.
    destruct (served_total k _ _ Hsv) as [o Eo]. exists o. split; [exact Eo|]. intros n' ->.
    apply (replicas_settled c t); [done|intros E; rewrite E in Hpeer; by apply not_elem_of_nil in Hpeer|].
    destruct (command_served k c _ n' Hok1 Hfr Hsv Eo) as [[Hok2 Ho2] _]. split; [done|]. by rewrite Ho1 in Ho2.
  - destruct (choose (replicators_for (n_table n) t) (n_rng n)) as [pick g] eqn:Ech.
    pose proof (choose_ok (replicators_for (n_table n) t) (n_rng n)) as Hpick. rewrite Ech in Hpick. cbn [fst] in Hpick.
    destruct pick as [pick|].
    + destruct (pick_route (n_keys n) pick g) as [[path g']|]; [|by eexists].
      destruct (client_open_path path (n_onion n)) as [pid o] eqn:Eop.
      eexists. split; [done|]. intros n' [= <-].
      apply (replicas_settled c t); [done|intros E; rewrite E in Hpick; by apply not_elem_of_nil in Hpick|].
      exact (new_search_ok n c t (pid, o) path g' o Hok Hc Hr Hs (eq_sym Eop) eq_refl).
    + eexists. split; [done|]. intros n' [= <-]. split; [by eapply same_shape_ok; [|exact Hok]|].
      unfold lost_by. rewrite Hc, Hns, !bool_decide_true by done. done.
Qed.

(** Two levels of fuel are enough for every command. *)
Lemma command_spec k c n : client_ok n → fresh_call c n →
  ∃ o, handle_command (S (S k)) c n = Some o ∧ ∀ n', o = Done n' → settled c n n'.
Proof.
  intros Hok Hfr. destruct (served c n) eqn:Hs.
  - destruct (served_total (S k) c n Hs) as [o Eo]. exists o. split; [done|]. intros n' ->.
    apply served_settled; [done|]. by destruct (command_served (S k) c n n' Hok Hfr Hs Eo).
  - destruct (topic_search_spec k c n Hok Hfr Hs) as (o & Eo & Ho). exists o. split; [|done]. rewrite <-Eo.
    destruct c as [r|r|id]; cbn [served] in Hs; [| |done].
    + assert (position (serves_request r) (n_subs n) = None) as Ep.
      { destruct (position _ _) as [i|] eqn:E; [|done]. apply not_true_iff_false in Hs. destruct Hs. apply position_existsb. by exists i. }
      change (handle_command (S (S k)) (Request r) n) with (handle_request (handle_command (S k)) r n).
      unfold handle_request. by rewrite Ep.
    + assert (position (λ s, bool_decide (si_topic r ∈ sub_topics s)) (n_subs n) = None) as Ep.
      { destruct (position _ _) as [i|] eqn:E; [|done]. apply not_true_iff_false in Hs. destruct Hs. apply position_existsb. by exists i. }
      change (handle_command (S (S k)) (SubscriptionRequest r) n) with (handle_subscription_request (handle_command (S k)) r n).
      unfold handle_subscription_request. by rewrite Ep.
Qed.

(** ** Events *)
Lemma served_shape c n n' : same_shape n n' → (∃ t, request_topic c = Done t) → served c n = true → served c n' = true.
Proof.
  intros (_ & Et & _) [t Hc] Hs.
  assert (∀ u, existsb (λ s, bool_decide (u ∈ sub_topics s)) (n_subs n) = existsb (λ s, bool_decide (u ∈ sub_topics s)) (n_subs n')) as Hm.
  { intros u. revert Et. generalize (n_subs n), (n_subs n'). induction l as [|x l IH]; intros [|y l'] E; try done.
    injection E as E1 E2. cbn [existsb]. by rewrite (IH l' E2), E1. }
  destruct c as [r|r|id]; [|by rewrite <-Hs; symmetry; apply Hm|done].
  cbn [served] in *. unfold serves_request in *. cbn in Hc. destruct (rq_topic r); [|done]. by rewrite <-Hm.
Qed.

Lemma commands_spec cs t n n' : client_ok n → Forall (λ c, request_topic c = Done t) cs →
  Forall (λ c, served c n = true) cs → NoDup (flat_map owed_of cs ++ owed n).*1 →
  commands cs n = Done n' → client_ok n' ∧ owed n' ≡ₚ flat_map owed_of cs ++ owed n ∧ same_shape n n'.
Proof.
  revert n. induction cs as [|c cs IH]; intros n Hok Ht Hs Hnd; cbn [commands]; [by intros [= <-]|].
  apply Forall_cons in Ht as [Hc Ht], Hs as [Hsc Hs]. cbn [flat_map] in Hnd. unfold command.
  destruct (handle_command 2 c n) as [[n1|]|] eqn:E; [|done|done]. cbn [default obind].
  assert (fresh_call c n) as Hfr.
  { apply Forall_forall. intros r Hr Hin. rewrite <-(assoc_L (++)), fmap_app in Hnd. apply NoDup_app in Hnd as (_ & Hd & _).
    apply (Hd r.1); [by apply list_elem_of_fmap_2|]. rewrite fmap_app. apply elem_of_app. by right. }
  destruct (command_served 1 c n n1 Hok Hfr Hsc E) as [[Hok1 Ho1] Hsh]. intros En.
  destruct (IH n1) as (Hok2 & Ho2 & Hsh2); [done..| | |done|].
  - rewrite Forall_forall in Hs, Ht |- *. intros x Hx. eapply served_shape; [exact Hsh|exists t; by apply Ht|by apply Hs].
  - rewrite Ho1, (assoc_L (++)), (Permutation_app_comm (flat_map _ _)). done.
  - split; [done|]. split.
    + rewrite Ho2, Ho1. cbn [flat_map]. by rewrite !(assoc_L (++)), (Permutation_app_comm (flat_map _ _)).
    + destruct Hsh as (A1 & A2 & A3 & A4), Hsh2 as (B1 & B2 & B3 & B4). split_and!; congruence.
Qed.

Lemma path_opened_spec stream id n n' : client_ok n → NoDup (owed n).*1 → handle_swarm_event stream id n = Done n' →
  client_ok n' ∧ owed n' ≡ₚ owed n.
Proof.
  intros Hok Hnd. unfold handle_swarm_event. pose proof (remove_perm id (n_search n)) as Hrm.
  destruct (LinearMap.remove id (n_search n)) as [[req|] search] eqn:Er.
  2: { destruct Hrm as [-> _]. intros [= <-]. split; [|done]. eapply same_shape_ok; [|exact Hok]. done. }
  destruct stream as [[st peer]|]; [|done]. cbn [unwrap obind].
  destruct (req !! 0%nat) as [first|] eqn:Hfirst; [|done]. cbn [unwrap obind].
  destruct (request_topic first) as [t|] eqn:Ht; [|done]. cbn [obind].
  set (n1 := with_subs _ _). intros E. destruct Hok as [Hg Htp Hp Hf]. fold (searches n) in Hrm.
  assert (searches n1 = LinearMap.values search) as Es1 by done. rewrite <-Es1 in Hrm.
  assert (topic_of (id, req) = Done t) as Etop by (unfold topic_of; destruct req as [|c req]; [done|]; by injection Hfirst as ->).
  change (map topic_of (searches n)) with (topic_of <$> searches n) in Htp. rewrite Hrm in Htp. cbn [fmap list_fmap] in Htp.
  rewrite Etop in Htp. apply NoDup_cons in Htp as [Hnt Htp].
  rewrite Hrm in Hg. apply Forall_cons in Hg as [(t' & E' & Hall & _) Hg]. rewrite Etop in E'. injection E' as <-.
  assert (map sub_id (n_subs n1) ++ (searches n1).*1 ≡ₚ map sub_id (n_subs n) ++ (searches n).*1) as Hids.
  { rewrite Hrm. cbn [n_subs n1 with_subs with_search]. rewrite map_app, <-(assoc_L (++)). done. }
  assert (client_ok n1) as Hok1.
  { split; [|exact Htp|by rewrite Hids|by rewrite Hids].
    rewrite Forall_forall in Hg |- *. intros g Hel. destruct (Hg g Hel) as (u & Eu & Hv & Hs). exists u. split_and!; [done..|].
    apply Forall_app_2; [exact Hs|]. constructor; [|constructor]. cbn [sub_topics]. rewrite list_elem_of_singleton. intros ->.
    apply Hnt. rewrite <-Eu. by apply list_elem_of_fmap_2. }
  assert (owed n ≡ₚ flat_map owed_of req ++ owed n1) as Ho.
  { unfold owed. rewrite Hrm. cbn [flat_map]. change (owed_group (id, req)) with (flat_map owed_of req).
    by rewrite !(assoc_L (++)), (Permutation_app_comm (LinearMap.values _)). }
  destruct (commands_spec req t n1 n' Hok1 Hall) as (Hok' & Ho' & _); [| |exact E|].
  - eapply Forall_impl; [exact Hall|]. intros c Hc. cbn beta in Hc.
    assert (∃ s, s ∈ n_subs n1 ∧ t ∈ sub_topics s) as (s & Hel & Hin).
    { eexists. split; [apply elem_of_app; right; by apply list_elem_of_singleton|]. by apply list_elem_of_singleton. }
    apply not_false_iff_true. intros Hns. pose proof (not_served_topic c n1 t Hc Hns) as Hx. rewrite Forall_forall in Hx. by apply (Hx s).
  - by rewrite <-Ho.
  - split; [done|]. by rewrite Ho', Ho.
Qed.

(* the call that a message answers *)
Definition answered_by (x : Sent) : list (CallId * Chan) :=
  match x with
  | Answer ch msg => match fst (decode call_and_content msg) with Some (cid, _) => [(cid, ch)] | None => [] end
  | SubEvent _ _ => []
  end.

(** Serving a message never panics, and takes off the request it answers. *)
Lemma response_spec alive id request n : client_ok n →
  ∃ out n', handle_subscription_response alive id request n = Done (out, n') ∧
    client_ok n' ∧ owed n ≡ₚ flat_map answered_by out ++ owed n'.
Proof.
  intros Hok. unfold handle_subscription_response.
  destruct request as [msg|]; [|by do 2 eexists].
  destruct (fst (decode call_and_content msg)) as [[cid content]|] eqn:Ed; [|by do 2 eexists].
  pose proof (remove_perm cid (n_pending n)) as Hrm.
  destruct (LinearMap.remove cid (n_pending n)) as [[ch|] pending].
  { do 2 eexists. split; [done|]. split; [by eapply same_shape_ok; [|exact Hok]|].
    cbn [flat_map answered_by]. rewrite Ed, app_nil_r. unfold owed. rewrite Hrm. done. }
  destruct (position _ (n_subs n)) as [i|] eqn:Hi; [|by do 2 eexists].
  destruct (n_subs n !! i ≫= _) as [ch|] eqn:Hch; [|by do 2 eexists].
  destruct (alive ch); [by do 2 eexists|].
  assert (∃ j, position (λ s, LinearMap.contains_key cid (sub_subs s)) (n_subs n) = Some j) as [j Hj].
  { apply position_existsb, existsb_exists. destruct (n_subs n !! i) as [s|] eqn:Hs; [|done]. exists s.
    split; [by eapply list_elem_of_In, list_elem_of_lookup_2|]. cbn [mbind option_bind] in Hch.
    unfold LinearMap.get in Hch. destruct (position _ (LinearMap.values (sub_subs s))) as [k|] eqn:Hk; [|done].
    apply position_existsb. by exists k. }
  rewrite Hj. cbn [unwrap obind]. pose proof Hj as (s & Hs & _)%position_some.
  unfold on_sub. rewrite Hs. cbn [unwrap obind]. do 2 eexists. split; [done|]. split; [|done].
  eapply same_shape_ok; [|exact Hok]. unfold same_shape. cbn [n_subs with_subs n_search n_onion].
  by rewrite !(map_insert_same _ _ _ _ _ Hs).
Qed.

(** The end of a connection ([SelectAll] drops it), another order of the connections, news of the swarm. *)
Definition with_network n (t : RoutingTable Addr) (k : gmap PeerId PublicKey) (g : G) : Node :=
  {| n_table := t; n_keys := k; n_onion := n_onion n; n_rng := g; n_subs := n_subs n; n_pending := n_pending n;
     n_search := n_search n |}.

(** A step: the request that was asked for, the one that was lost, and what was sent. *)
Inductive client_step n : list (CallId * Chan) → list (CallId * Chan) → list Sent → Node → Prop :=
  | step_command c n' : command c n = Done n' → client_step n (owed_of c) (lost_by c n) [] n'
  | step_path stream id n' : handle_swarm_event stream id n = Done n' → client_step n [] [] [] n'
  | step_message alive id request out n' :
      handle_subscription_response alive id request n = Done (out, n') → client_step n [] [] out n'
  | step_ended i : client_step n [] [] [] (with_subs n (delete i (n_subs n)))
  | step_reorder l : l ≡ₚ n_subs n → client_step n [] [] [] (with_subs n l)
  | step_network t k g : client_step n [] [] [] (with_network n t k g).

(** Runs: what was asked, with an id of its own each, what was lost, and what was sent. *)
Inductive client_run n0 : list (CallId * Chan) → list (CallId * Chan) → list Sent → Node → Prop :=
  | run_start : client_run n0 [] [] [] n0
  | run_step issued lost sent n new gone out n' :
      client_run n0 issued lost sent n → client_step n new gone out n' → Forall (λ r, r.1 ∉ issued.*1) new →
      client_run n0 (new ++ issued) (gone ++ lost) (out ++ sent) n'.

Lemma delete_none {A} i (l : list A) : l !! i = None → delete i l = l.
Proof. revert i. induction l as [|x l IH]; intros [|i]; try done. intros Hi. cbn. f_equal. by apply IH. Qed.
Lemma all_ended n0 issued lost sent n : client_run n0 issued lost sent n → client_run n0 issued lost sent (with_subs n []).
Proof.
  intros Hr. remember (n_subs n) as l eqn:E. revert n Hr E. induction l as [|s l IH]; intros n Hr E.
  - destruct n as [a b c d e f g]. cbn in *. by subst.
  - apply (IH (with_subs n l)); [|done].
    apply (run_step _ issued lost sent n [] [] []); [done| |constructor]. pose proof (step_ended n 0) as Hst. rewrite <-E in Hst. exact Hst.
Qed.
Lemma with_subs_ok n l : (∃ l', n_subs n ≡ₚ l ++ l') → client_ok n → client_ok (with_subs n l).
Proof.
  intros [l' Hl] [Hg Ht Hp Hf]. split.
  - eapply Forall_impl; [exact Hg|]. intros g (t & E & Hv & Hs). exists t. split_and!; [done..|].
    rewrite Hl in Hs. by apply Forall_app in Hs as [? _].
  - exact Ht.
  - change (map sub_id (n_subs n)) with (sub_id <$> n_subs n) in Hp. rewrite Hl, fmap_app, <-(assoc_L (++)) in Hp.
    rewrite (Permutation_app_comm (sub_id <$> l')), (assoc_L (++)) in Hp. by apply NoDup_app in Hp as [? _].
  - change (map sub_id (n_subs n)) with (sub_id <$> n_subs n) in Hf. rewrite Hl, fmap_app, !Forall_app in Hf.
    apply Forall_app. tauto.
Qed.

Lemma step_spec n new gone out n' : client_ok n → NoDup (new ++ owed n).*1 → client_step n new gone out n' →
  client_ok n' ∧ new ++ owed n ≡ₚ gone ++ flat_map answered_by out ++ owed n'.
Proof.
  intros Hok Hnd Hst. inversion Hst as [c n1 Hc|stream id n1 Hp|alive id request out1 n1 Hm|i|l Hl|t k g]; subst.
  - assert (fresh_call c n) as Hfr.
    { apply Forall_forall. intros r Hr' Hin. rewrite fmap_app in Hnd. apply NoDup_app in Hnd as (_ & Hd & _).
      apply (Hd r.1); [by apply list_elem_of_fmap_2|done]. }
    destruct (command_spec 0 c n Hok Hfr) as (o & Eo & Ho). unfold command in Hc. rewrite Eo in Hc. cbn [default] in Hc.
    by destruct (Ho _ Hc) as [Hok' Ho'].
  - cbn [app flat_map] in *. destruct (path_opened_spec stream id n n' Hok Hnd Hp) as [? Ho]. by split.
  - destruct (response_spec alive id request n Hok) as (out2 & n2 & E & ? & Ho). rewrite Hm in E. injection E as -> ->. done.
  - split; [|done]. apply with_subs_ok; [|done]. destruct (n_subs n !! i) as [s|] eqn:Hi.
    + exists [s]. rewrite Permutation_app_comm. by apply delete_Permutation.
    + exists []. by rewrite app_nil_r, delete_none.
  - split; [|done]. apply with_subs_ok; [|done]. exists []. by rewrite app_nil_r, Hl.
  - split; [|done]. eapply same_shape_ok; [|exact Hok]. done.
Qed.

Lemma run_spec n0 issued lost sent n : client_ok n0 → owed n0 = [] → client_run n0 issued lost sent n →
  client_ok n ∧ NoDup issued.*1 ∧ issued ≡ₚ flat_map answered_by sent ++ lost ++ owed n.
Proof.
  intros Hok H00. induction 1 as [|issued lost sent n new gone out n' Hrun IH Hst Hnew].
  - split_and!; [done|constructor|by rewrite H00].
  - destruct IH as (Hokn & Hnd & Hp).
    assert (NoDup (new ++ owed n).*1) as Hn.
    { rewrite fmap_app. rewrite Hp, !fmap_app in Hnd. apply NoDup_app in Hnd as (_ & _ & Ho).
      apply NoDup_app in Ho as (_ & _ & Ho). apply NoDup_app. split_and!; [| |done].
      - inversion Hst; try constructor. destruct c as [r|r|id]; cbn; constructor; try constructor. apply not_elem_of_nil.
      - intros x (r & -> & Hr)%list_elem_of_fmap Hin. rewrite Forall_forall in Hnew. apply (Hnew r Hr).
        rewrite Hp, !fmap_app, !elem_of_app. by right; right. }
    destruct (step_spec n new gone out n' Hokn Hn Hst) as [Hok' Ho]. split_and!; [done| |].
    + rewrite fmap_app. apply NoDup_app. split_and!; [| |done].
      * rewrite fmap_app in Hn. by apply NoDup_app in Hn as [? _].
      * intros x (r & -> & Hr)%list_elem_of_fmap Hin. rewrite Forall_forall in Hnew. by apply (Hnew r Hr).
    + transitivity (flat_map answered_by sent ++ lost ++ new ++ owed n); [rewrite Hp; solve_Permutation|].
      rewrite Ho, flat_map_app. solve_Permutation.
Qed.

(** C12: The client loses no request silently and answers none twice. In every run of steps that do not
    panic, whatever arrives and whichever connections come and go, the requests asked for are those
    answered, each once and on its own channel, those still owed an answer, sent or waiting for a path,
    and those lost; and a command loses its request only when no connection serves its topic, none is
    being opened for it, and the routing table knows no replica of it. *)
Theorem client_conserves n0 issued lost sent n : client_ok n0 → owed n0 = [] → client_run n0 issued lost sent n →
  issued ≡ₚ flat_map answered_by sent ++ lost ++ owed n ∧ NoDup (flat_map answered_by sent ++ lost ++ owed n).*1 ∧
  (∀ c n', command c n = Done n' → Forall (λ r, r.1 ∉ issued.*1) (owed_of c) →
     lost_by c n = [] ∨
     ∃ t, request_topic c = Done t ∧ Forall (λ s, t ∉ sub_topics s) (n_subs n) ∧
          Done t ∉ map topic_of (searches n) ∧ replicators_for (n_table n) t = [] ∧
          lost_by c n = owed_of c ∧ owed n' ≡ₚ owed n) ∧
  NoDup (map topic_of (searches n)) ∧
  ∀ g s t, g ∈ searches n → s ∈ n_subs n → topic_of g = Done t → t ∉ sub_topics s.
Proof.
  intros Hok H00 Hrun. destruct (run_spec n0 issued lost sent n Hok H00 Hrun) as (Hokn & Hnd & Hp).
  split; [done|]. split; [by rewrite <-Hp|]. split; [|split; [apply Hokn|]].
  - intros c n' Hc Hnew. destruct (lost_by c n) as [|x l] eqn:El; [by left|right].
    pose proof El as El'. unfold lost_by in El. destruct (request_topic c) as [t|] eqn:Ht; [|done].
    destruct (served c n) eqn:Hs; [done|]. cbn [negb andb] in El.
    destruct (bool_decide (Done t ∉ _)) eqn:Hsr; [|done]. apply bool_decide_eq_true in Hsr. cbn [andb] in El.
    destruct (bool_decide (_ = [])) eqn:Hr; [|done]. apply bool_decide_eq_true in Hr. exists t.
    pose proof (not_served_topic c n t Ht Hs). split_and!; [done..|].
    destruct (command_spec 0 c n Hokn) as (o & Eo & Ho).
    { eapply Forall_impl; [exact Hnew|]. intros r Hr' Hin. apply Hr'. rewrite Hp, !fmap_app, !elem_of_app. by right; right. }
    unfold command in Hc. rewrite Eo in Hc. cbn [default] in Hc. destruct (Ho _ Hc) as [_ Ho'].
    rewrite El', <-El in Ho'. symmetry. by eapply Permutation_app_inv_l.
  - intros g s t Hgi Hs Et. pose proof (ok_groups n Hokn) as Hg.
    rewrite Forall_forall in Hg. destruct (Hg g Hgi) as (t' & E & _ & Hall). rewrite Et in E. injection E as <-.
    rewrite Forall_forall in Hall. by apply Hall.
Qed.

(** Only a message that carries its id ever settles a request that was sent: when the connection it went
    down ends, the request stays owed, with nobody left to answer it and its caller waiting; and any
    connection may deliver the answer, whoever is at its other end. *)
Theorem requests_outlive_connections n0 issued lost sent n r :
  client_ok n0 → owed n0 = [] → client_run n0 issued lost sent n → r ∈ LinearMap.values (n_pending n) →
  (∀ issued' lost' sent' n', client_run n0 issued' lost' sent' n' → r ∈ issued' → r ∉ lost' →
     r ∉ flat_map answered_by sent' → r ∈ owed n') ∧
  (∃ n', client_run n0 issued lost sent n' ∧ n_subs n' = [] ∧ r ∈ LinearMap.values (n_pending n')) ∧
  ∀ alive id msg content, fst (decode call_and_content msg) = Some (r.1, content) →
    ∃ n', handle_subscription_response alive id (Some msg) n = Done ([Answer r.2 msg], n').
Proof.
  intros Hok H00 Hrun Hr. split; [|split].
  - intros issued' lost' sent' n' Hrun' Hi Hl Hna.
    destruct (run_spec n0 issued' lost' sent' n' Hok H00 Hrun') as (_ & _ & Hp).
    rewrite Hp, !elem_of_app in Hi. tauto.
  - exists (with_subs n []). split_and!; [by apply all_ended|done|done].
  - intros alive id msg content Hd. unfold handle_subscription_response. rewrite Hd.
    pose proof (remove_perm r.1 (n_pending n)) as Hrm. destruct (LinearMap.remove r.1 (n_pending n)) as [[ch|] p].
    + destruct (run_spec n0 issued lost sent n Hok H00 Hrun) as (_ & Hnd & Hp).
      assert (ch = r.2) as ->; [|by eexists].
      assert (NoDup (LinearMap.values (n_pending n)).*1) as Hnp.
      { rewrite Hp, !fmap_app in Hnd. apply NoDup_app in Hnd as (_ & _ & Hnd). apply NoDup_app in Hnd as (_ & _ & Hnd).
        unfold owed in Hnd. rewrite fmap_app in Hnd. by apply NoDup_app in Hnd as (? & _ & _). }
      rewrite Hrm in Hnp, Hr. apply elem_of_cons in Hr as [->|Hr]; [done|]. apply NoDup_cons in Hnp as [Hn _].
      destruct Hn. by apply (list_elem_of_fmap_2 fst _ r).
    + destruct Hrm as [_ Hk]. destruct Hk. by apply list_elem_of_fmap_2.
Qed.

Lemma filter_all {A} (P : A → Prop) `{∀ x, Decision (P x)} (l : list A) : (∀ x, x ∈ l → P x) → filter P l = l.
Proof.
  induction l as [|x l IH]; intros Hl; [done|]. rewrite filter_cons_True by (apply Hl; by left).
  f_equal. apply IH. intros y Hy. apply Hl. by right.
Qed.
Lemma swapped_keys {A B} (l : list (A * B)) : (map (λ '(p, ud), (ud, p)) l).*2 = l.*1.
Proof. induction l as [|[p ud] l IH]; [done|]. cbn. by f_equal. Qed.
Lemma route_candidates (nodes : gmap PeerId PublicKey) target k : nodes !! target = Some k →
  S (length (map (λ '(p, ud), (ud, p)) (filter (λ '(p, _), p ≠ target) (map_to_list nodes)))) = size nodes ∧
  ∀ ud p, (ud, p) ∈ map (λ '(p, ud), (ud, p)) (filter (λ '(p, _), p ≠ target) (map_to_list nodes)) →
    nodes !! p = Some ud ∧ p ≠ target.
Proof.
  intros Hk. split.
  - rewrite length_map. rewrite <-(insert_delete_id nodes target k Hk) at 1 2.
    rewrite map_size_insert_None by apply lookup_delete_eq. f_equal.
    rewrite (map_to_list_insert (delete target nodes)) by apply lookup_delete_eq.
    rewrite filter_cons_False by (intros Hne; by apply Hne).
    rewrite filter_all; [apply length_map_to_list|].
    intros [p u] Hel%elem_of_map_to_list. intros ->. by rewrite lookup_delete_eq in Hel.
  - intros ud p ([p' u] & [= -> ->] & [Hne Hel]%list_elem_of_filter)%list_elem_of_fmap.
    apply elem_of_map_to_list in Hel. by split.
Qed.

(** A route has three different hops with the target first, each with its own key, as soon as
    three keys are known and the target's is among them. With two keys, which the assertion lets
    through, the conversion to an array of three panics. *)
Theorem pick_route_three (nodes : gmap PeerId PublicKey) target k g : nodes !! target = Some k →
  match pick_route nodes target g with
  | Done (path, _) =>
      (3 ≤ size nodes)%nat ∧ ∃ a b, path = [(k, target); a; b] ∧ NoDup path.*2 ∧
      nodes !! a.2 = Some a.1 ∧ nodes !! b.2 = Some b.1
  | Panic => (size nodes < 3)%nat
  end.
Proof.
  intros Hk. unfold pick_route. destruct (route_candidates nodes target k Hk) as [Hlen Hel].
  set (others := map _ _) in *. destruct (assert_that (2 ≤ size nodes)%nat) as [[]|] eqn:Ha; cbn [obind].
  2: { unfold assert_that in Ha. destruct (decide _); [done|]. lia. }
  pose proof (choose_multiple_ok 2 others g) as [Hl [rest Hp]].
  destruct (choose_multiple 2 others g) as [picked g']. cbn [fst] in *. rewrite Hk. cbn [unwrap obind].
  assert (NoDup others.*2) as Hnd.
  { unfold others. rewrite swapped_keys.
    eapply (sublist_NoDup _ (map_to_list nodes).*1); [apply NoDup_fst_map_to_list|].
    by apply fmap_sublist, sublist_filter. }
  assert (∀ x, x ∈ picked → nodes !! x.2 = Some x.1 ∧ x.2 ≠ target) as Hpk.
  { intros [u p] Hx. apply Hel. rewrite <-Hp. apply elem_of_app. by left. }
  unfold assert_that. destruct (decide _) as [L3|L3]; cbn [obind].
  - assert (length picked = 2%nat) as L2 by (by injection L3).
    split; [lia|]. destruct picked as [|a [|b [|]]]; try done. exists a, b. split; [done|].
    rewrite <-Hp, fmap_app in Hnd. apply NoDup_app in Hnd as [Hnd _].
    destruct (Hpk a) as [Ea Na]; [by left|]. destruct (Hpk b) as [Eb Nb]; [by right; left|].
    split; [|done]. cbn. constructor; [|done]. rewrite !elem_of_cons. intros [?|[?|?%elem_of_nil]]; congruence.
  - cbn [length] in L3. rewrite Hl in L3. lia.
Qed.
End facts.

(** ** A client to run the model on: six nodes, nothing connected yet *)
#[local] Existing Instance demo_streams.
#[local] Existing Instance demo_ed.
#[local] Existing Instance demo_blake3.

Definition demo_onion : ClientOnion nat := λ _ o, (o, S o).
#[local] Existing Instance demo_onion.
#[local] Instance demo_onion_ok : ClientOnionOk nat := {| next_path_id o := o; open_path_fresh _ _ := conj eq_refl eq_refl |}.
Definition demo_rng : ThreadRng unit := {|
  choose _ l g := (head l, g); choose_multiple _ n l g := (take n l, g);
|}.
#[local] Existing Instance demo_rng.
#[local] Instance demo_rng_ok : ThreadRngOk unit.
Proof.
  split; [by intros A [|x l] g; [|left]|]. intros A n l g. split; [apply length_take|].
  exists (drop n l). cbn. by rewrite take_drop.
Qed.

Definition demo_keys : gmap PeerId PublicKey :=
  list_to_map (map (λ i, (be_bytes 32 i, {| post := [i]; pre := [i] |})) [1; 2; 3; 4; 5; 6]).
Definition demo_client : Node (list (list Z)) nat unit nat :=
  {| n_table := map (λ i, {| id := i; addr := 0%nat |}) [1; 2; 3; 4; 5; 6]; n_keys := demo_keys; n_onion := 0%nat;
     n_rng := tt; n_subs := []; n_pending := LinearMap.default; n_search := LinearMap.default |}.
Definition demo_request (i : nat) : RequestInit :=
  Request {| rq_id := i; rq_topic := Some (TopicChat [9]); rq_payload := [1; 2; 3]; rq_channel := (40 + i)%nat |}.

Lemma demo_client_ok : client_ok demo_client.
Proof. split; constructor. Qed.

Definition or_demo (o : outcome (Node (list (list Z)) nat unit nat)) : Node (list (list Z)) nat unit nat :=
  match o with Done n => n | Panic => demo_client end.
(* two requests wait for a path, which opens; one is answered *)
Definition demo_client1 := or_demo (command (demo_request 7) demo_client).
Definition demo_client2 := or_demo (command (demo_request 8) demo_client1).
Definition demo_client3 := or_demo (handle_swarm_event (Some ([], be_bytes 32 1)) 0 demo_client2).
Definition is_done {A} (o : outcome A) : bool := match o with Done _ => true | Panic => false end.
Lemma or_demo_done o : is_done o = true → o = Done (or_demo o).
Proof. by destruct o. Qed.
Lemma demo_step1 : is_done (command (demo_request 7) demo_client) = true.
Proof. vm_compute. reflexivity. Qed.
Lemma demo_step2 : is_done (command (demo_request 8) demo_client1) = true.
Proof. vm_compute. reflexivity. Qed.
Lemma demo_step3 : is_done (handle_swarm_event (Some ([], be_bytes 32 1)) 0 demo_client2) = true.
Proof. vm_compute. reflexivity. Qed.
(* a request for a topic of which no replica is known *)
Definition demo_alone := with_network demo_client3 [] demo_keys tt.
Definition demo_orphan : RequestInit :=
  Request {| rq_id := 9; rq_topic := Some (TopicChat [7]); rq_payload := [1]; rq_channel := 49 |}.
Lemma demo_losses : lost_by (demo_request 7) demo_client = [] ∧ lost_by (demo_request 8) demo_client1 = [] ∧
  lost_by demo_orphan demo_alone = [(9, 49)]%nat.
Proof. decided. Qed.
Lemma demo_pending : LinearMap.values (n_pending demo_client3) = [(7, 47); (8, 48)]%nat.
Proof. vm_compute. reflexivity. Qed.
Lemma demo_search : LinearMap.values (n_search demo_client3) = [].
Proof. vm_compute. reflexivity. Qed.

Lemma demo_run3 : client_run demo_client [(8, 48); (7, 47)]%nat [] [] demo_client3.
Proof.
  destruct demo_losses as (E7 & E8 & _).
  eapply (run_step _ _ [] [] demo_client2 [] [] []); [|exact (step_path _ _ _ _ (or_demo_done _ demo_step3))|constructor].
  apply (run_step _ [(7, 47)]%nat [] [] demo_client1 [(8, 48)]%nat [] []); [| |decided].
  2: { rewrite <-E8. exact (step_command _ (demo_request 8) _ (or_demo_done _ demo_step2)). }
  apply (run_step _ [] [] [] demo_client [(7, 47)]%nat [] []); [constructor| |decided].
  rewrite <-E7. exact (step_command _ (demo_request 7) _ (or_demo_done _ demo_step1)).
Qed.
(* the second request is answered, by whoever *)
Definition demo_client4 := with_pending demo_client3 {| LinearMap.values := [(7, 47)]%nat |}.
Lemma demo_run : client_run demo_client [(8, 48); (7, 47)]%nat [] [Answer 48 [8; 1]] demo_client4.
Proof.
  apply (run_step _ [(8, 48); (7, 47)]%nat [] [] demo_client3 [] [] [Answer 48 [8; 1]]); [exact demo_run3| |constructor].
  apply step_message with (λ _, true) 0%nat (Some [8; 1]). unfold handle_subscription_response.
  change (fst (decode call_and_content [8; 1])) with (Some (8%nat, [1] : bytes)). cbn iota.
  unfold LinearMap.remove. rewrite demo_pending. reflexivity.
Qed.
(* the connections end, the routing table empties, and a third request is lost *)
Definition demo_client5 := with_subs (with_network demo_client4 [] demo_keys tt) [].
Lemma demo_run5 : client_run demo_client [(9, 49); (8, 48); (7, 47)]%nat [(9, 49)]%nat [Answer 48 [8; 1]] demo_client5.
Proof.
  apply (run_step _ [(8, 48); (7, 47)]%nat [] [Answer 48 [8; 1]] demo_client5 [(9, 49)]%nat [(9, 49)]%nat []); [| |decided].
  - apply all_ended. apply (run_step _ _ [] [Answer 48 [8; 1]] demo_client4 [] [] []); [exact demo_run|apply step_network|constructor].
  - assert (lost_by demo_orphan demo_client5 = [(9, 49)]%nat) as <- by decided.
    apply (step_command demo_client5 demo_orphan). vm_compute. reflexivity.
Qed.

Lemma client_conserves_witness :
  owed demo_client5 = [(7, 47)]%nat ∧
  [(9, 49); (8, 48); (7, 47)]%nat ≡ₚ flat_map answered_by [Answer 48 [8; 1]] ++ [(9, 49)]%nat ++ owed demo_client5.
Proof.
  destruct (client_conserves demo_client _ _ _ demo_client5 demo_client_ok eq_refl demo_run5) as [Hp _].
  split; [|exact Hp]. unfold owed, searches. change (n_search demo_client5) with (n_search demo_client3).
  rewrite demo_search. reflexivity.
Defined.

Lemma requests_outlive_connections_witness :
  ∃ n', client_run demo_client [(8, 48); (7, 47)]%nat [] [Answer 48 [8; 1]] n' ∧ n_subs n' = [] ∧
    (7, 47)%nat ∈ LinearMap.values (n_pending n').
Proof.
  assert ((7, 47)%nat ∈ LinearMap.values (n_pending demo_client4)) as Hr by (by left).
  exact (proj1 (proj2 (requests_outlive_connections demo_client _ _ _ demo_client4 (7, 47)%nat demo_client_ok eq_refl demo_run Hr))).
Defined.

Lemma pick_route_three_witness (k2 : gmap PeerId PublicKey :=
    list_to_map (map (λ i, (be_bytes 32 i, {| post := [i]; pre := [i] |})) [1; 2])) (k1 := {| post := [1]; pre := [1] |}) :
  (∃ path g, pick_route demo_keys (be_bytes 32 1) tt = Done (path, g) ∧ NoDup path.*2) ∧
  pick_route k2 (be_bytes 32 1) tt = Panic.
Proof.
  split.
  - pose proof (pick_route_three demo_keys (be_bytes 32 1) k1 tt ltac:(reflexivity)) as Hp.
    destruct (pick_route demo_keys (be_bytes 32 1) tt) as [[path g]|]; [|vm_compute in Hp; lia].
    destruct Hp as (_ & a & b & _ & Hn & _). exists path, g. exact (conj eq_refl Hn).
  - pose proof (pick_route_three k2 (be_bytes 32 1) k1 tt ltac:(reflexivity)) as Hp.
    destruct (pick_route k2 (be_bytes 32 1) tt) as [[path g]|]; [|done].
    destruct Hp as [Hs _]. vm_compute in Hs. lia.
Defined.
