(* ===== verification/ClientBoot.v ===== *)
(** How the client connects when it starts: the end of [Node::new] in [nodes/client/src/node.rs]. For
    every chat of its vault it picks one of the chat's replicas, gathers the chats by replica,
    opens a path to each and waits until all paths are open. The profile's connection is open
    already.

    The hash map of the replicas is turned into a vector in an order that is left open: the
    vector is an argument. *)

From S2P Require Import Prelude Codec Collections Dht ChatSpec Chat Server Onion ClientNode.

#[global] Instance insert_by_len_dec (a b : PeerId * gset ChatName) : Decision (size a.2 ≤ size b.2)%nat := _.

Section boot.
Context {St On G Addr : Type} `{ClientStream St, ClientOnionOk On, ThreadRngOk G, Ed25519, Blake3}.
Context (table : RoutingTable Addr) (keys : gmap PeerId PublicKey) (chats : list ChatName).

(* the replicas of every chat, in turn *)
Definition candidates : list (PeerId * ChatName) :=
  flat_map (λ c, map (λ peer, (peer, c)) (replicators_for table (TopicChat c))) chats.

Definition gather_step (profile_peer : PeerId) (acc : list PossibleTopic * gmap PeerId (gset ChatName))
    (e : PeerId * ChatName) : list PossibleTopic * gmap PeerId (gset ChatName) :=
  let '(peer, chat) := e in
  let '(topics, topology) := acc in
  if bool_decide (peer = profile_peer) then (topics ++ [TopicChat chat], topology)
  else (topics, <[peer := {[chat]} ∪ default ∅ (topology !! peer)]> topology).
Definition gather (profile_peer : PeerId) (profile_topics : list PossibleTopic) :
    list PossibleTopic * gmap PeerId (gset ChatName) :=
  foldl (gather_step profile_peer) (profile_topics, ∅) candidates.

(* sort_by_key(|(_, v)| v.len()) is stable *)
Fixpoint insert_by_len (x : PeerId * gset ChatName) (l : list (PeerId * gset ChatName)) : list (PeerId * gset ChatName) :=
  match l with
  | [] => [x]
  | y :: l => if bool_decide (size x.2 ≤ size y.2)%nat then x :: y :: l else y :: insert_by_len x l
  end.
Definition sort_by_len (l : list (PeerId * gset ChatName)) : list (PeerId * gset ChatName) :=
  foldr insert_by_len [] l.

(* the loop that pops the replicas, largest first; [seen] is the set of chats with a connection *)
Fixpoint connect_loop (popped : list (PeerId * gset ChatName)) (seen : gset ChatName) :
    outcome (list (PeerId * gset ChatName)) :=
  if (size seen <? length chats)%nat then
    match popped with
    | [] => Panic
    | (peer, set) :: popped =>
        let fresh := set ∖ seen in
        let seen := seen ∪ set in
        if bool_decide (fresh = ∅) then connect_loop popped seen
        else try! rest := connect_loop popped seen in Done ((peer, fresh) :: rest)
    end
  else Done [].
Definition to_connect (entries : list (PeerId * gset ChatName)) : outcome (list (PeerId * gset ChatName)) :=
  connect_loop (rev (sort_by_len entries)) ∅.

Fixpoint open_paths (l : list (PeerId * gset ChatName)) (o : On) (g : G) :
    outcome (list (PathId * PeerId * gset ChatName) * On * G) :=
  match l with
  | [] => Done ([], o, g)
  | (pick, set) :: l =>
      try! (route, g) := pick_route keys pick g in
      let (pid, o) := client_open_path route o in
      try! (awaiting, o, g) := open_paths l o g in
      Done ((pid, pick, set) :: awaiting, o, g)
  end.

Inductive boot := Ready (subs : list (Subscription St)) | PathFailed | Waiting (awaiting : list (PathId * PeerId * gset ChatName)) (subs : list (Subscription St)).

(* the loop over the events of the swarm *)
Fixpoint await_paths (events : list (option (St * PeerId) * PathId))
    (awaiting : list (PathId * PeerId * gset ChatName)) (subs : list (Subscription St)) : outcome boot :=
  match awaiting with
  | [] => Done (Ready subs)
  | _ =>
      match events with
      | [] => Done (Waiting awaiting subs)
      | (stream, id) :: events =>
          match find_and_remove (λ a, bool_decide (a.1.1 = id)) awaiting with
          | None => await_paths events awaiting subs
          | Some ((_, peer_id, set), awaiting) =>
              match stream with
              | None => Done PathFailed
              | Some (st, got_peer_id) =>
                  try! _ := assert_that (peer_id = got_peer_id) in
                  await_paths events awaiting (subs ++
                    [{| sub_id := id; sub_peer := peer_id; sub_topics := map TopicChat (elements set);
                        sub_subs := LinearMap.default; sub_stream := st |}])
              end
          end
      end
  end.

(* the profile's connection, with the chats its node replicates *)
Definition profile_sub (profile : Identity) (id : PathId) (peer : PeerId) (st : St) : Subscription St :=
  {| sub_id := id; sub_peer := peer; sub_topics := fst (gather peer [TopicProfile profile]);
     sub_subs := LinearMap.default; sub_stream := st |}.
Definition started (subs : list (Subscription St)) (o : On) (g : G) : Node St On G Addr :=
  {| n_table := table; n_keys := keys; n_onion := o; n_rng := g; n_subs := subs;
     n_pending := LinearMap.default; n_search := LinearMap.default |}.

(** ** What is gathered *)
Implicit Types (topology : gmap PeerId (gset ChatName)) (c : ChatName).

Lemma elem_candidates peer c : (peer, c) ∈ candidates ↔ c ∈ chats ∧ peer ∈ replicators_for table (TopicChat c).
Proof.
  unfold candidates. rewrite list_elem_of_In, in_flat_map. split.
  - intros (c' & Hc & (p & [= -> ->] & Hp)%in_map_iff). by rewrite !list_elem_of_In.
  - rewrite !list_elem_of_In. intros [Hc Hp]. exists c. split; [done|]. apply in_map_iff. by exists peer.
Qed.
Lemma gather_spec me l topics topology peer c :
  c ∈ default ∅ (snd (foldl (gather_step me) (topics, topology) l) !! peer) ↔
  c ∈ default ∅ (topology !! peer) ∨ ((peer, c) ∈ l ∧ peer ≠ me).
Proof.
  revert topics topology. induction l as [|[p c'] l IH]; intros topics topology; cbn [foldl].
  - cbn [snd]. split; [by left|]. by intros [?|[?%elem_of_nil _]].
  - cbn [gather_step]. case_bool_decide as Hp; rewrite IH, elem_of_cons.
    + split; [intros [?|[? ?]]; [by left|right; split; [by right|done]]|].
      intros [?|[[[= -> ->]|?] ?]]; [by left|done|by right].
    + destruct (decide (p = peer)) as [->|Hne].
      * rewrite lookup_insert_eq. cbn. rewrite elem_of_union, elem_of_singleton. split.
        -- intros [[->|?]|[? ?]]; [right; split; [by left|done]|by left|right; split; [by right|done]].
        -- intros [?|[[[= ->]|?] ?]]; [left; by right|left; by left|by right].
      * rewrite lookup_insert_ne by done. split; [intros [?|[? ?]]; [by left|right; split; [by right|done]]|].
        intros [?|[[[= -> ->]|?] ?]]; [by left|done|by right].
Qed.

(** ** What is connected *)
Definition all_chats : gset ChatName := list_to_set chats.
Definition covers (l : list (PeerId * gset ChatName)) : list ChatName := flat_map (λ e, elements e.2) l.

Lemma elem_covers l c : c ∈ covers l ↔ ∃ e, e ∈ l ∧ c ∈ e.2.
Proof.
  unfold covers. rewrite list_elem_of_In, in_flat_map. split; intros (e & He & Hc); exists e.
  - apply list_elem_of_In in He, Hc. by rewrite elem_of_elements in Hc.
  - rewrite <-!list_elem_of_In. by rewrite elem_of_elements.
Qed.
Lemma insert_by_len_perm x l : insert_by_len x l ≡ₚ x :: l.
Proof.
  induction l as [|y l IH]; [done|]. cbn [insert_by_len]. case_bool_decide; [done|]. rewrite IH. constructor.
Qed.
Lemma sort_by_len_perm l : sort_by_len l ≡ₚ l.
Proof. induction l as [|x l IH]; [done|]. cbn. by rewrite insert_by_len_perm, IH. Qed.

Lemma all_seen seen : NoDup chats → seen ⊆ all_chats → (length chats ≤ size seen)%nat ↔ all_chats ⊆ seen.
Proof.
  intros Hn Hs. pose proof (size_list_to_set (C:=gset ChatName) chats Hn) as Hc. fold all_chats in Hc. split.
  - intros Hl. rewrite (set_subseteq_size_eq seen all_chats); [done..|lia].
  - intros Hl. apply subseteq_size in Hl. lia.
Qed.

Definition reaches (popped : list (PeerId * gset ChatName)) (seen : gset ChatName) : Prop :=
  ∀ c, c ∈ chats → c ∈ seen ∨ ∃ e, e ∈ popped ∧ c ∈ e.2.
(* what the replicas picked from [popped] are, when [seen] is connected already *)
Definition picked_ok (popped l : list (PeerId * gset ChatName)) (seen : gset ChatName) : Prop :=
  (∀ c, c ∈ chats → c ∈ seen ∨ c ∈ covers l) ∧ NoDup (covers l) ∧ (∀ c, c ∈ covers l → c ∉ seen) ∧
  ∀ e, e ∈ l → e.2 ≠ ∅ ∧ ∃ set, (e.1, set) ∈ popped ∧ e.2 ⊆ set.

Lemma connect_loop_spec popped seen : NoDup chats → seen ⊆ all_chats → (∀ e, e ∈ popped → e.2 ⊆ all_chats) →
  reaches popped seen → ∃ l, connect_loop popped seen = Done l ∧ picked_ok popped l seen.
Proof.
  intros Hn. revert seen. induction popped as [|[peer set] popped IH]; intros seen Hs Hp Hr; cbn [connect_loop];
    (destruct (Nat.ltb_spec (size seen) (length chats)) as [Hlt|Hge];
     [|exists []; split; [done|]; apply (all_seen seen Hn Hs) in Hge; split_and!;
       [intros c Hc; left; apply Hge; by apply elem_of_list_to_set|constructor|by intros c ?%elem_of_nil|by intros e ?%elem_of_nil]]).
  - exfalso. apply Nat.lt_nge in Hlt. apply Hlt, (all_seen seen Hn Hs). intros c Hc%elem_of_list_to_set.
    by destruct (Hr c Hc) as [?|(e & ?%elem_of_nil & _)].
  - pose proof (Hp (peer, set) ltac:(by left)) as Hset. cbn in Hset.
    destruct (IH (seen ∪ set)) as (l & El & Hc & Hnd & Hd & He); [set_solver|intros e Hel; apply Hp; by right| |].
    { intros c Hin. destruct (Hr c Hin) as [?|(e & [->|Hel]%elem_of_cons & Hc)];
        [left; set_solver|left; set_solver|right; by exists e]. }
    case_bool_decide as Hf.
    + exists l. split; [done|]. split_and!.
      * intros c Hin. destruct (Hc c Hin) as [?|?]; [left; set_solver|by right].
      * done.
      * intros c Hin. specialize (Hd c Hin). set_solver.
      * intros e Hel. destruct (He e Hel) as (? & set' & ? & ?). split; [done|]. exists set'. split; [by right|done].
    + rewrite El. cbn [obind]. exists ((peer, set ∖ seen) :: l). split; [done|]. split_and!.
      * intros c Hin. destruct (decide (c ∈ seen)) as [|Hns]; [by left|right]. cbn [covers flat_map].
        apply elem_of_app. destruct (Hc c Hin) as [Hu|?]; [left|by right]. apply elem_of_elements. set_solver.
      * cbn [covers flat_map]. apply NoDup_app. split_and!; [apply NoDup_elements| |done].
        intros c Hin Hin'. apply elem_of_elements in Hin. apply Hd in Hin'. set_solver.
      * intros c [Hin|Hin]%elem_of_app; [apply elem_of_elements in Hin; set_solver|apply Hd in Hin; set_solver].
      * intros e [->|Hel]%elem_of_cons; [split; [done|]; exists set; split; [by left|set_solver]|].
        destruct (He e Hel) as (? & set' & ? & ?). split; [done|]. exists set'. split; [by right|done].
Qed.
Lemma connect_loop_panics popped seen c : NoDup chats → seen ⊆ all_chats → (∀ e, e ∈ popped → e.2 ⊆ all_chats) →
  c ∈ chats → c ∉ seen → (∀ e, e ∈ popped → c ∉ e.2) → connect_loop popped seen = Panic.
Proof.
  intros Hn Hs Hp Hc. revert seen Hs. induction popped as [|[peer set] popped IH]; intros seen Hs Hns Hne; cbn [connect_loop];
    (destruct (Nat.ltb_spec (size seen) (length chats)) as [Hlt|Hge];
     [|apply (all_seen seen Hn Hs) in Hge; destruct Hns; apply Hge; by apply elem_of_list_to_set]); [done|].
  pose proof (Hp (peer, set) ltac:(by left)) as Hset. pose proof (Hne (peer, set) ltac:(by left)) as Hnc. cbn in Hset, Hnc.
  assert (connect_loop popped (seen ∪ set) = Panic) as ->; [|by case_bool_decide].
  apply IH; [intros e Hel; apply Hp; by right|set_solver|set_solver|intros e Hel; apply Hne; by right].
Qed.

Lemma to_connect_spec me topics entries : NoDup chats → entries ≡ₚ map_to_list (snd (gather me topics)) →
  let served c := ∃ peer, peer ∈ replicators_for table (TopicChat c) ∧ peer ≠ me in
  ((∀ c, c ∈ chats → served c) → ∃ l, to_connect entries = Done l ∧ (∀ c, c ∈ chats → c ∈ covers l) ∧ NoDup (covers l) ∧
    ∀ e, e ∈ l → e.2 ≠ ∅ ∧ e.1 ≠ me ∧ ∀ c, c ∈ e.2 → c ∈ chats ∧ e.1 ∈ replicators_for table (TopicChat c)) ∧
  (∀ c, c ∈ chats → ¬ served c → to_connect entries = Panic).
Proof.
  intros Hn He served. unfold to_connect.
  assert (∀ e, e ∈ rev (sort_by_len entries) ↔ snd (gather me topics) !! e.1 = Some e.2) as Hel.
  { intros [p set]. change (rev ?l) with (List.rev l). rewrite <-Permutation_rev, sort_by_len_perm, He. apply elem_of_map_to_list. }
  assert (∀ p set c, snd (gather me topics) !! p = Some set → c ∈ set → c ∈ chats ∧ p ∈ replicators_for table (TopicChat c) ∧ p ≠ me) as Hg.
  { intros p set c Hp Hc. pose proof (gather_spec me candidates topics ∅ p c) as G0. unfold gather in Hp.
    rewrite Hp in G0. apply proj1 in G0. destruct (G0 Hc) as [H0'|[Hin Hne]].
    - by rewrite lookup_empty in H0'.
    - apply elem_candidates in Hin as [? ?]. done. }
  assert (∀ e, e ∈ rev (sort_by_len entries) → e.2 ⊆ all_chats) as Hsub.
  { intros e Hin c Hc. apply Hel in Hin. apply elem_of_list_to_set. by eapply Hg. }
  split.
  - intros Hall. destruct (connect_loop_spec (rev (sort_by_len entries)) ∅ Hn) as (l & El & Hc & Hnd & _ & Hl);
      [set_solver|done| |].
    + intros c Hc. right. destruct (Hall c Hc) as (p & Hp & Hne).
      pose proof (gather_spec me candidates topics ∅ p c) as G0. fold (gather me topics) in G0. apply proj2 in G0.
      specialize (G0 (or_intror (conj (proj2 (elem_candidates p c) (conj Hc Hp)) Hne))).
      destruct (snd (gather me topics) !! p) as [set|] eqn:E; [|by apply not_elem_of_empty in G0].
      exists (p, set). split; [by apply Hel|exact G0].
    + exists l. split_and!; [done| |done|].
      * intros c Hin. destruct (Hc c Hin) as [?%not_elem_of_empty|?]; done.
      * intros e Hin. destruct (Hl e Hin) as (Hne & set & Hset & Hss). apply Hel in Hset. cbn in Hset.
        split; [done|]. split; [destruct (set_choose_L _ Hne) as [c Hc0]; by apply (Hg _ _ c Hset), Hss|].
        intros c Hc0. destruct (Hg _ _ c Hset (Hss _ Hc0)) as (? & ? & _). done.
  - intros c Hc Hns. apply (connect_loop_panics _ ∅ c Hn); [set_solver|done|done|set_solver|].
    intros e Hin Hce. apply Hns. apply Hel in Hin. exists e.1. by apply (Hg _ _ c Hin).
Qed.

(** ** Waiting for the paths *)
Lemma find_and_remove_perm {A} (q : A → bool) l x l' : find_and_remove q l = Some (x, l') → l ≡ₚ x :: l' ∧ q x = true.
Proof.
  unfold find_and_remove. destruct (position q l) as [i|] eqn:E; [|done].
  apply position_some in E as (y & Hi & Hq). destruct (swap_remove_perm _ _ _ Hi) as (l0 & -> & Hp).
  intros [= <- <-]. by split.
Qed.
Definition path_of (a : PathId * PeerId * gset ChatName) : PathId := a.1.1.
Lemma await_spec events awaiting subs subs' : await_paths events awaiting subs = Done (Ready subs') →
  map sub_id subs' ≡ₚ map sub_id subs ++ map path_of awaiting ∧ (∀ s, s ∈ subs → s ∈ subs') ∧
  ∀ a, a ∈ awaiting → ∃ s, s ∈ subs' ∧ sub_id s = path_of a ∧ sub_peer s = a.1.2 ∧ sub_topics s = map TopicChat (elements a.2).
Proof.
  revert awaiting subs. induction events as [|[stream id] events IH]; intros [|a0 awaiting] subs; cbn [await_paths]; try done.
  - intros [= <-]. split_and!; [by rewrite app_nil_r|done|by intros a ?%elem_of_nil].
  - intros [= <-]. split_and!; [by rewrite app_nil_r|done|by intros a ?%elem_of_nil].
  - destruct (find_and_remove _ (a0 :: awaiting)) as [[[[p peer] set] rest]|] eqn:E; [|by apply IH].
    apply find_and_remove_perm in E as [Hp Hid%bool_decide_eq_true]. cbn in Hid. subst p.
    destruct stream as [[st got]|]; [|done]. destruct (assert_that _) as [[]|]; [|done]. cbn [obind].
    intros (Hi & Hs & Ha)%IH. rewrite map_app in Hi. split; [|split].
    + rewrite Hi. change (map path_of (a0 :: awaiting)) with (path_of <$> (a0 :: awaiting)). rewrite Hp. by rewrite <-(assoc_L (++)).
    + intros s Hin. apply Hs, elem_of_app. by left.
    + intros a Hin. rewrite Hp in Hin. apply elem_of_cons in Hin as [->|Hin]; [|by apply Ha].
      eexists. split; [apply Hs, elem_of_app; right; by apply list_elem_of_singleton|]. done.
Qed.
Lemma open_paths_spec l o g awaiting o' g' : open_paths l o g = Done (awaiting, o', g') →
  map (λ a, (a.1.2, a.2)) awaiting = l ∧ map path_of awaiting = seq (next_path_id o) (length l) ∧
  next_path_id o' = (next_path_id o + length l)%nat.
Proof.
  revert o g awaiting. induction l as [|[pick set] l IH]; intros o g awaiting; cbn [open_paths].
  - intros [= <- <- <-]. cbn. split_and!; [done..|lia].
  - destruct (pick_route keys pick g) as [[route g1]|]; [|done]. cbn [obind].
    pose proof (open_path_fresh route o) as [Ep En]. destruct (client_open_path route o) as [pid o1]. cbn [fst snd] in Ep, En.
    destruct (open_paths l o1 g1) as [[[aw o2] g2]|] eqn:E; [|done]. cbn [obind]. intros [= <- <- <-].
    destruct (IH _ _ _ E) as (Em & Es & Eo). cbn [map length seq path_of fst snd]. rewrite Em, Es, Eo, En, Ep.
    split_and!; [done..|lia].
Qed.

(** C15: A client that has started serves every chat of its vault. If every chat has a replica
    besides the node of the profile, replicas are picked for all of them, each chat at exactly one,
    which replicates it; and once their paths are open the client's state satisfies the invariant
    of its node, owes nothing, and every chat has a connection to one of its replicas. If some chat
    has no such replica the start panics. *)
Theorem boot_serves profile id me st o g entries : NoDup chats →
  let psub := profile_sub profile id me st in
  entries ≡ₚ map_to_list (snd (gather me [TopicProfile profile])) → (id < next_path_id o)%nat →
  let served c := ∃ peer, peer ∈ replicators_for table (TopicChat c) ∧ peer ≠ me in
  ((∀ c, c ∈ chats → served c) → ∃ l, to_connect entries = Done l ∧ NoDup (covers l) ∧ (∀ c, c ∈ chats ↔ c ∈ covers l) ∧
    ∀ awaiting o' g' events subs, open_paths l o g = Done (awaiting, o', g') →
      await_paths events awaiting [psub] = Done (Ready subs) →
      client_ok (started subs o' g') ∧ owed (started subs o' g') = [] ∧ psub ∈ subs ∧
      ∀ c, c ∈ chats → ∃ s, s ∈ subs ∧ TopicChat c ∈ sub_topics s ∧ sub_peer s ≠ me ∧
        sub_peer s ∈ replicators_for table (TopicChat c)) ∧
  (∀ c, c ∈ chats → ¬ served c → to_connect entries = Panic).
Proof.
  intros Hn psub He Hid served. destruct (to_connect_spec me [TopicProfile profile] entries Hn He) as [Hok Hpanic].
  split; [|exact Hpanic]. intros Hall. destruct (Hok Hall) as (l & El & Hc & Hnd & Hl).
  assert (∀ c, c ∈ covers l → c ∈ chats) as Hc'.
  { intros c (e & Hin & Hce)%elem_covers. by apply (Hl e Hin). }
  exists l. split_and!; [done|done|intros c; split; [apply Hc|apply Hc']|].
  intros awaiting o' g' events subs Eo Ea.
  destruct (open_paths_spec _ _ _ _ _ _ Eo) as (Em & Es & Eo'). destruct (await_spec _ _ _ _ Ea) as (Hi & Hs & Haw).
  rewrite Es in Hi. cbn [map psub profile_sub sub_id] in Hi.
  split_and!; [|done|apply Hs; by left|].
  - split; [constructor|constructor| |]; cbn [n_subs started]; change ((searches (started subs o' g')).*1) with (@nil PathId);
      rewrite app_nil_r, Hi.
    + cbn [app]. constructor; [rewrite elem_of_seq; lia|apply NoDup_seq].
    + cbn [n_onion started]. rewrite Eo'. constructor; [lia|]. apply Forall_forall. intros p Hp%elem_of_seq. lia.
  - intros c Hcc. destruct (proj1 (elem_covers l c) (Hc c Hcc)) as ([pick set] & Hin & Hce).
    rewrite <-Em in Hin. apply list_elem_of_fmap in Hin as (a & Ea' & Hin). injection Ea' as -> ->.
    destruct (Haw a Hin) as (s & Hss & _ & Ep & Et). exists s. split; [done|]. rewrite Ep, Et.
    destruct (Hl (a.1.2, a.2)) as (_ & Hne & Hrep).
    { rewrite <-Em. by apply (list_elem_of_fmap_2 (λ a : PathId * PeerId * gset ChatName, (a.1.2, a.2))). }
    split; [|split; [done|by apply Hrep]]. apply (list_elem_of_fmap_2 TopicChat). by apply elem_of_elements.
Qed.
End boot.

(** Two chats on six nodes; the profile is served by node 1. *)
#[local] Existing Instance demo_streams.
#[local] Existing Instance demo_ed.
#[local] Existing Instance demo_blake3.
#[local] Existing Instance demo_onion.
#[local] Existing Instance demo_onion_ok.
#[local] Existing Instance demo_rng.
#[local] Existing Instance demo_rng_ok.

Definition demo_chats : list ChatName := [[97]; [98]].
Definition demo_me : PeerId := be_bytes 32 1.
Definition demo_entries : list (PeerId * gset ChatName) :=
  map_to_list (snd (gather (n_table demo_client) demo_chats demo_me [TopicProfile [7]])).
Definition other_replica (c : ChatName) : bool :=
  existsb (λ p, negb (bool_decide (p = demo_me))) (replicators_for (n_table demo_client) (TopicChat c)).
Lemma demo_replicated : forallb other_replica demo_chats = true.
Proof. vm_compute. reflexivity. Qed.

Lemma boot_serves_witness :
  ∃ l, to_connect demo_chats demo_entries = Done l ∧ NoDup (covers l) ∧ ∀ c, c ∈ demo_chats ↔ c ∈ covers l.
Proof.
  destruct (boot_serves (n_table demo_client) demo_keys demo_chats [7] 0 demo_me ([] : list (list Z)) 1%nat tt demo_entries)
    as [Hok _]; [decided|reflexivity|exact (le_n 1)|].
  destruct Hok as (l & E & Hn & Hc & _); [|exact (ex_intro _ l (conj E (conj Hn Hc)))].
  intros c Hin. pose proof demo_replicated as D. rewrite forallb_forall in D.
  apply list_elem_of_In, D, existsb_exists in Hin as (p & Hp & Hne). exists p. split; [by apply list_elem_of_In|].
  by apply negb_true_iff, bool_decide_eq_false in Hne.
Defined.
