(* ===== verification/ClientVault.v ===== *)
(** What the client keeps of its user and what it does with mail: the vault and the mail of
    [nodes/client/src/node.rs], the state, the proofs and the mail handler of [main.rs], the
    sending and reading of messages of [chat.rs], and the retry of chat actions of [protocol.rs]. *)

From S2P Require Import Prelude Codec Collections Messages ChatSpec Chat Server ChatHandlers Onion.

Notation UserName := bytes (only parsing).

(** ** The vault (node.rs) *)

Record ChatMeta := { cm_secret : bytes; action_no : Nonce }.
Record MemberMeta := { mm_secret : bytes; mm_identity : Identity }.
Record Theme := { primary : Z; secondary : Z; highlight : Z; font : Z; error : Z }.
Record Vault := {
  chats : LinearMap.LinearMap ChatName ChatMeta;
  hardened_chats : LinearMap.LinearMap ChatName (LinearMap.LinearMap UserName MemberMeta);
  theme : Theme;
}.
Definition theme_default : Theme :=
  {| primary := 0x000000ff; secondary := 0x333333ff; highlight := 0xffffffff; font := 0xffffffff; error := 0xff0000ff |}.
Definition vault_default : Vault :=
  {| chats := LinearMap.default; hardened_chats := LinearMap.default; theme := theme_default |}.
Definition from_secret (secret : bytes) : ChatMeta := {| cm_secret := secret; action_no := 0 |}.

Definition secret_codec : Codec bytes := array_codec SHARED_SECRET_SIZE u8_codec.
Definition user_name_codec : Codec UserName := array_string_codec 32.
Definition linear_map_codec {K V} (ck : Codec K) (cv : Codec V) : Codec (LinearMap.LinearMap K V) :=
  iso_codec LinearMap.values (λ l, {| LinearMap.values := l |}) (vec_codec (pair_codec ck cv)).
(* [action_no] is skipped and comes back as 0 *)
Definition chat_meta_codec : Codec ChatMeta := iso_codec cm_secret from_secret secret_codec.
Definition member_meta_codec : Codec MemberMeta :=
  iso_codec (λ m, (mm_secret m, mm_identity m)) (λ '(s, i), {| mm_secret := s; mm_identity := i |})
    (pair_codec secret_codec hash_codec).
Definition hardened_chat_codec := linear_map_codec user_name_codec member_meta_codec.
Definition theme_codec : Codec Theme :=
  iso_codec (λ t, (primary t, (secondary t, (highlight t, (font t, error t)))))
    (λ '(p, (s, (h, (f, e)))), {| primary := p; secondary := s; highlight := h; font := f; error := e |})
    (pair_codec u32_codec (pair_codec u32_codec (pair_codec u32_codec (pair_codec u32_codec u32_codec)))).
Definition vault_codec : Codec Vault :=
  iso_codec (λ v, (chats v, (hardened_chats v, theme v)))
    (λ '(c, (h, t)), {| chats := c; hardened_chats := h; theme := t |})
    (pair_codec (linear_map_codec chat_name_codec chat_meta_codec)
      (pair_codec (linear_map_codec chat_name_codec hardened_chat_codec) theme_codec)).

(** ** Mail *)

Record RawChatMessage := { rm_sender : UserName; rm_content : bytes }.
Definition raw_chat_message_codec : Codec RawChatMessage :=
  iso_codec (λ m, (rm_sender m, rm_content m)) (λ '(s, c), {| rm_sender := s; rm_content := c |})
    (pair_codec user_name_codec str_codec).

Record HardenedChatInvitePayload := {
  hi_chat : ChatName; inviter : UserName; inviter_id : Identity; hi_members : list UserName;
}.
Definition hardened_invite_codec : Codec HardenedChatInvitePayload :=
  iso_codec (λ p, (hi_chat p, (inviter p, (inviter_id p, hi_members p))))
    (λ '(c, (i, (d, m))), {| hi_chat := c; inviter := i; inviter_id := d; hi_members := m |})
    (pair_codec chat_name_codec (pair_codec user_name_codec (pair_codec hash_codec (vec_codec user_name_codec)))).

Record JoinRequestPayload := { jr_name : bytes; jr_chat : bytes; jr_identity : Identity }.

Inductive Mail :=
  | ChatInvite (chat : ChatName) (cp : bytes)
  | HardenedJoinRequest (cp payload : bytes)
  | HardenedChatMessage (nonce : Nonce) (chat : Hash) (content : bytes)
  | HardenedChatInvite (cp payload : bytes).

Section client.
Context {KP SK : Type} `{Kyber KP, X25519 SK, Aead, Blake3, Signatures}.
Context `{!TransmutationCircle Ciphertext, !TransmutationCircle ChoosenCiphertext}.
Context `{!TransmutationCircle JoinRequestPayload, !TransmutationCircle FixedAesPayload}.
(** [crypto::ASOC_DATA] *)
Context (CRYPTO_ASOC : bytes).

Definition mail_codec : Codec Mail :=
  MkCodec (λ _ _ m, match m with
      | ChatInvite chat cp => variant 0 (do encode chat_name_codec chat;
                                         encode (array_codec (T_SIZE ChoosenCiphertext) u8_codec) cp)
      | HardenedJoinRequest cp payload =>
          variant 1 (do encode (array_codec (T_SIZE Ciphertext) u8_codec) cp;
                     encode (array_codec (T_SIZE FixedAesPayload) u8_codec) payload)
      | HardenedChatMessage n chat content =>
          variant 2 (do encode u64_codec n; do encode hash_codec chat; encode reminder_codec content)
      | HardenedChatInvite cp payload =>
          variant 3 (do encode (array_codec (T_SIZE Ciphertext) u8_codec) cp; encode reminder_codec payload)
      end)
    (match_index (λ i,
      if decide (i = 0) then
        let! chat := decode chat_name_codec in
        let! cp := decode (array_codec (T_SIZE ChoosenCiphertext) u8_codec) in ret (ChatInvite chat cp)
      else if decide (i = 1) then
        let! cp := decode (array_codec (T_SIZE Ciphertext) u8_codec) in
        let! payload := decode (array_codec (T_SIZE FixedAesPayload) u8_codec) in ret (HardenedJoinRequest cp payload)
      else if decide (i = 2) then
        let! n := decode u64_codec in let! chat := decode hash_codec in
        let! content := decode reminder_codec in ret (HardenedChatMessage n chat content)
      else if decide (i = 3) then
        let! cp := decode (array_codec (T_SIZE Ciphertext) u8_codec) in
        let! payload := decode reminder_codec in ret (HardenedChatInvite cp payload)
      else mfail)).

(** ** The state (main.rs) *)

Record UserKeys := { u_name : UserName; u_public : bytes; u_sign : bytes → bytes; u_enc : Keypair KP SK; u_vault : bytes }.
Definition identity_hash (k : UserKeys) : Identity := from_raw (u_public k).

Record DbMessage := { db_owner : UserName; db_chat : ChatName; db_sender : UserName; db_content : bytes }.

Record State := {
  keys : option UserKeys;
  vault : Vault;
  st_vault_version : Nonce;
  st_mail_action : Nonce;
  hardened_messages : option (ChatName * DbMessage);
}.
Definition with_vault (s : State) (v : Vault) : State :=
  {| keys := keys s; vault := v; st_vault_version := st_vault_version s; st_mail_action := st_mail_action s;
     hardened_messages := hardened_messages s |}.
Definition with_chats (v : Vault) (c : LinearMap.LinearMap ChatName ChatMeta) : Vault :=
  {| chats := c; hardened_chats := hardened_chats v; theme := theme v |}.
Definition with_hardened (v : Vault) (h : LinearMap.LinearMap ChatName (LinearMap.LinearMap UserName MemberMeta)) : Vault :=
  {| chats := chats v; hardened_chats := h; theme := theme v |}.

(* n + 1 on an u64 *)
Definition add_one (n : Nonce) : outcome Nonce := try! _ := assert_that (n + 1 < 2 ^ 64) in Done (n + 1).

Definition next_chat_proof (chat_name : ChatName) (nonce : option Nonce) (s : State) :
    outcome (option (Proof ChatName) * State) :=
  match keys s with
  | None => Done (None, s)
  | Some k =>
      match LinearMap.get chat_name (chats (vault s)) with
      | None => Done (None, s)
      | Some chat =>
          try! n := match nonce with None => Done (action_no chat) | Some n => add_one n end in
          let (proof, n) := proof_new (u_public k) (u_sign k) n chat_name in
          let chat := {| cm_secret := cm_secret chat; action_no := n |} in
          Done (Some proof, with_vault s (with_chats (vault s) (snd (LinearMap.insert chat_name chat (chats (vault s))))))
      end
  end.
Definition next_profile_proof (bs : bytes) (s : State) : option (Proof bytes) * State :=
  match keys s with
  | None => (None, s)
  | Some k =>
      let (proof, n) := proof_new (u_public k) (u_sign k) (st_vault_version s) bs in
      (Some proof, {| keys := keys s; vault := vault s; st_vault_version := n; st_mail_action := st_mail_action s;
                      hardened_messages := hardened_messages s |})
  end.
Definition next_mail_proof (s : State) : option (Proof ChatSpec.Mail) * State :=
  match keys s with
  | None => (None, s)
  | Some k =>
      let (proof, n) := proof_new (u_public k) (u_sign k) (st_mail_action s) mail_unit in
      (Some proof, {| keys := keys s; vault := vault s; st_vault_version := st_vault_version s; st_mail_action := n;
                      hardened_messages := hardened_messages s |})
  end.
Definition chat_secret (chat_name : ChatName) (s : State) : option bytes :=
  cm_secret <$> LinearMap.get chat_name (chats (vault s)).

(* main.rs encrypt: the tag and the nonce after the data *)
Definition seal (data secret nonce : bytes) : bytes :=
  let (data, arr) := encrypt CRYPTO_ASOC data secret nonce in data ++ arr.
Definition open (data secret : bytes) : option bytes := decrypt CRYPTO_ASOC data secret.

(* save_vault and its counterpart in Node::new *)
Definition save_vault (k : UserKeys) (nonce : bytes) (s : State) : option (outcome (Proof bytes) * State) :=
  b ← to_bytes vault_codec (vault s);
  let (proof, s) := next_profile_proof (seal b (u_vault k) nonce) s in Some (unwrap proof, s).
Definition load_vault (k : UserKeys) (b : bytes) : Vault :=
  default vault_default (v ← open b (u_vault k); fst (decode vault_codec v)).

(** ** Mail that arrives *)

Inductive MailError :=
  | MailUndecodable | InviteNotDecapsulated | JoinPayloadNotDecrypted | InvalidChatName | InvalidName | ChatNotOurs
  | HardenedInviteNotDecrypted | HardenedInviteUndecodable.

(* what the handler leaves to a task of its own: to write to the members of a hardened chat *)
Record SpawnedInvite := { sp_payload : HardenedChatInvitePayload; sp_secret : bytes }.
Record Handled := { h_state : State; h_messages : list DbMessage; h_spawned : option SpawnedInvite }.

(* members.iter_mut().find_map(..): the first secret that opens the message; panics if it is no text *)
Fixpoint find_sender (message : bytes) (members : list (UserName * MemberMeta)) : outcome (option (UserName * bytes)) :=
  match members with
  | [] => Done None
  | (name, mm) :: members =>
      match open message (mm_secret mm) with
      | None => find_sender message members
      | Some content => try! _ := assert_that (utf8_ok content = true) in Done (Some (name, content))
      end
  end.

Definition handle_invite (chat : ChatName) (cp : bytes) (k : UserKeys) (h : Handled) :
    outcome (result unit MailError * Handled) :=
  try! secret := decapsulate_choosen CRYPTO_ASOC (u_enc k) (from_bytes cp) in
  match secret with
  | Err _ => Done (Err InviteNotDecapsulated, h)
  | Ok secret =>
      let v := vault (h_state h) in
      Done (Ok tt, {| h_state := with_vault (h_state h)
                        (with_chats v (snd (LinearMap.insert chat (from_secret secret) (chats v))));
                      h_messages := h_messages h; h_spawned := h_spawned h |})
  end.

Definition handle_join (cp payload : bytes) (k : UserKeys) (h : Handled) : outcome (result unit MailError * Handled) :=
  try! secret := decapsulate (u_enc k) (from_bytes cp) in
  match secret with
  | Err _ => Done (Err InviteNotDecapsulated, h)
  | Ok secret =>
      match payload_decrypt (from_bytes payload) secret CRYPTO_ASOC with
      | None => Done (Err JoinPayloadNotDecrypted, h)
      | Some p =>
          let p : JoinRequestPayload := from_bytes p in
          match array_to_arrstr 32 (jr_chat p) with
          | None => Done (Err InvalidChatName, h)
          | Some chat =>
              match array_to_arrstr 32 (jr_name p) with
              | None => Done (Err InvalidName, h)
              | Some name =>
                  let v := vault (h_state h) in
                  if negb (LinearMap.contains_key chat (chats v)) then Done (Err ChatNotOurs, h)
                  else
                    try! members := unwrap (LinearMap.get chat (hardened_chats v)) in
                    let members := snd (LinearMap.insert name {| mm_secret := secret; mm_identity := jr_identity p |} members) in
                    Done (Ok tt, {| h_state := with_vault (h_state h)
                                      (with_hardened v (snd (LinearMap.insert chat members (hardened_chats v))));
                                    h_messages := h_messages h; h_spawned := h_spawned h |})
              end
          end
      end
  end.

Definition handle_hardened_invite (cp payload : bytes) (k : UserKeys) (h : Handled) :
    outcome (result unit MailError * Handled) :=
  try! secret := decapsulate (u_enc k) (from_bytes cp) in
  match secret with
  | Err _ => Done (Err InviteNotDecapsulated, h)
  | Ok secret =>
      match open payload secret with
      | None => Done (Err HardenedInviteNotDecrypted, h)
      | Some p =>
          match fst (decode hardened_invite_codec p) with
          | None => Done (Err HardenedInviteUndecodable, h)
          | Some p => Done (Ok tt, {| h_state := h_state h; h_messages := h_messages h;
                                      h_spawned := Some {| sp_payload := p; sp_secret := secret |} |})
          end
      end
  end.

Definition handle_hardened_message (n : Nonce) (chat : Hash) (content : bytes) (k : UserKeys) (h : Handled) :
    outcome (result unit MailError * Handled) :=
  let s := h_state h in
  match List.find (λ '(c, _), bool_decide (with_nonce c n = chat)) (LinearMap.values (hardened_chats (vault s))) with
  | None => Done (Ok tt, h)
  | Some (chat, members) =>
      try! found := find_sender content (LinearMap.values members) in
      match found with
      | None => Done (Ok tt, h)
      | Some (sender, content) =>
          let message := {| db_owner := u_name k; db_chat := chat; db_sender := sender; db_content := content |} in
          Done (Ok tt, {| h_state := {| keys := keys s; vault := vault s; st_vault_version := st_vault_version s;
                                        st_mail_action := st_mail_action s; hardened_messages := Some (chat, message) |};
                          h_messages := h_messages h ++ [message]; h_spawned := h_spawned h |})
      end
  end.

Definition handle_mail (raw_mail : bytes) (k : UserKeys) (h : Handled) : outcome (result unit MailError * Handled) :=
  match decode mail_codec raw_mail with
  | (None, _) => Done (Err MailUndecodable, h)
  | (Some mail, rest) =>
      try! _ := assert_that (rest = []) in
      match mail with
      | ChatInvite chat cp => handle_invite chat cp k h
      | HardenedJoinRequest cp payload => handle_join cp payload k h
      | HardenedChatInvite cp payload => handle_hardened_invite cp payload k h
      | HardenedChatMessage n chat content => handle_hardened_message n chat content k h
      end
  end.

(** ** Mail and messages that are sent (main.rs, chat.rs); what is looked up on the chain and in the
    profile of the receiver is an argument, as are the draws *)

(* add_normal_user: the mail for the invitee *)
Definition chat_invite_mail (k : UserKeys) (chat : ChatName) (invitee : PublicKey) (seed nonce : bytes) (s : State) :
    outcome (option bytes) :=
  match chat_secret chat s with
  | None => Done None
  | Some secret =>
      try! cp := encapsulate_choosen CRYPTO_ASOC (u_enc k) invitee secret seed nonce in
      Done (to_bytes mail_codec (ChatInvite chat (into_bytes cp)))
  end.

(* notify_about_invite: the mail, and the new member *)
Definition notify_about_invite (name : UserName) (sign_hash : Identity) (enc_key : PublicKey) (chat : ChatName)
    (enc : Keypair KP SK) (identity : Identity) (seed nonce : bytes) : outcome (option bytes * (UserName * MemberMeta)) :=
  try! (cp, secret) := encapsulate enc enc_key seed in
  let payload := into_bytes {| jr_chat := arrstr_to_array 32 chat; jr_name := arrstr_to_array 32 name; jr_identity := identity |} in
  let invite := HardenedJoinRequest (into_bytes cp) (into_bytes (payload_new payload secret CRYPTO_ASOC nonce)) in
  Done (to_bytes mail_codec invite, (name, {| mm_secret := secret; mm_identity := sign_hash |})).

(* what the spawned task does when every member has been written to *)
Definition finish_invite (sp : SpawnedInvite) (members : list (UserName * MemberMeta)) (s : State) : State :=
  let p := sp_payload sp in
  let v := vault s in
  let meta := default LinearMap.default (LinearMap.get (hi_chat p) (hardened_chats v)) in
  let meta := foldl (λ m '(name, mm), snd (LinearMap.insert name mm m)) meta members in
  let meta := snd (LinearMap.insert (inviter p) {| mm_secret := sp_secret sp; mm_identity := inviter_id p |} meta) in
  with_vault s (with_hardened v (snd (LinearMap.insert (hi_chat p) meta (hardened_chats v)))).

(* add_hardened_user: the mail, and the state with the new member *)
Definition hardened_invite_mail (k : UserKeys) (chat : ChatName) (name : UserName) (sign_hash : Identity)
    (invitee : PublicKey) (seed nonce : bytes) (s : State) : outcome (option (option bytes * State)) :=
  if decide (name = u_name k) then Done None
  else
    match LinearMap.get chat (hardened_chats (vault s)) with
    | None => Done None
    | Some meta =>
        try! (cp, secret) := encapsulate (u_enc k) invitee seed in
        let payload := to_bytes hardened_invite_codec
          {| hi_chat := chat; inviter := u_name k; inviter_id := identity_hash k; hi_members := LinearMap.keys meta |} in
        let invite := p ← payload; to_bytes mail_codec (HardenedChatInvite (into_bytes cp) (seal p secret nonce)) in
        let meta := snd (LinearMap.insert name {| mm_secret := secret; mm_identity := sign_hash |} meta) in
        Done (Some (invite, with_vault s (with_hardened (vault s) (snd (LinearMap.insert chat meta (hardened_chats (vault s)))))))
    end.

(* send_hardened_message: the mail for one member *)
Definition hardened_message_mail (chat : ChatName) (content : bytes) (mm : MemberMeta) (seal_nonce : bytes) (n : Nonce) :
    option bytes :=
  to_bytes mail_codec (HardenedChatMessage n (with_nonce chat n) (seal content (mm_secret mm) seal_nonce)).

(* send_normal_message: the content of the chat action *)
Definition normal_message (k : UserKeys) (chat : ChatName) (content nonce : bytes) (s : State) : option bytes :=
  secret ← chat_secret chat s;
  b ← to_bytes raw_chat_message_codec {| rm_sender := u_name k; rm_content := content |};
  Some (seal b secret nonce).
(* what the readers do with it, subscribed or fetched *)
Definition read_message (secret content : bytes) : option RawChatMessage :=
  b ← open content secret; fst (decode raw_chat_message_codec b).
Definition read_event (secret : bytes) (e : ChatEvent) : option RawChatMessage :=
  match e with EvMessage proof message => if verify proof then read_message secret message else None end.

(** ** Requests with a retry (protocol.rs) *)

Inductive RequestError (E : Type) := RInvalidResponse | ChannelClosed | ServerIsOwervhelmed | RHandler (e : E).
Arguments RInvalidResponse {E}.
Arguments ChannelClosed {E}.
Arguments ServerIsOwervhelmed {E}.
Arguments RHandler {E} _.

Definition parse_response {T E} (ct : Codec T) (ce : Codec E) (response : bytes) : result T (RequestError E) :=
  match fst (decode (pair_codec usize_codec (result_codec ct ce)) response) with
  | None => Err RInvalidResponse
  | Some (_, Ok t) => Ok t
  | Some (_, Err e) => Err (RHandler e)
  end.

Inductive ActionError := NoChatProof | ActionFailed (e : RequestError (ReplError ChatActionError)).

Section dispatch.
Context {W : Type}.
(* [dispatch::<PerformChatAction>] on the world it talks to *)
Context (dispatch : Proof ChatName * ChatAction → W → outcome (result unit (RequestError (ReplError ChatActionError)) * W)).

Definition dispatch_chat_action (chat : ChatName) (action : ChatAction) (s : State) (w : W) :
    outcome (result unit ActionError * State * W) :=
  try! (proof, s) := next_chat_proof chat None s in
  match proof with
  | None => Done (Err NoChatProof, s, w)
  | Some proof =>
      try! (r, w) := dispatch (proof, action) w in
      match r with
      | Err (RHandler (ReplInner (ActInvalidAction correct_nonce))) =>
          try! (proof, s) := next_chat_proof chat (Some correct_nonce) s in
          match proof with
          | None => Done (Err NoChatProof, s, w)
          | Some proof =>
              try! (r, w) := dispatch (proof, action) w in
              Done (match r with Ok _ => Ok tt | Err e => Err (ActionFailed e) end, s, w)
          end
      | _ => Done (Ok tt, s, w)
      end
  end.

(* dispatch_mail *)
Definition mail_result (r : result unit (RequestError (ReplError SendMailError))) :
    result unit (RequestError (ReplError SendMailError)) :=
  match r with Err (RHandler (ReplInner SentDirectly)) => Ok tt | r => r end.
End dispatch.
End client.
Arguments RInvalidResponse {E}.
Arguments ChannelClosed {E}.
Arguments ServerIsOwervhelmed {E}.
Arguments RHandler {E} _.

(** ** The codecs *)
#[global] Instance secret_ok : CodecOk secret_codec := array_ok SHARED_SECRET_SIZE u8_codec.
#[global] Instance user_name_ok : CodecOk user_name_codec := array_string_ok 32.
#[global] Instance user_name_nonempty : NonEmptyWire user_name_codec := array_string_nonempty 32.
#[global] Instance chat_name_ok : CodecOk chat_name_codec := array_string_ok CHAT_NAME_CAP.
#[global] Instance chat_name_nonempty : NonEmptyWire chat_name_codec := array_string_nonempty CHAT_NAME_CAP.

#[global] Instance linear_map_ok {K V} (ck : Codec K) (cv : Codec V) `{!CodecOk ck, !CodecOk cv, !NonEmptyWire ck} :
  CodecOk (linear_map_codec ck cv).
Proof. apply iso_ok; [apply _|by intros []]. Defined.
#[global] Instance member_meta_ok : CodecOk member_meta_codec.
Proof. apply iso_ok; [apply _|by intros []]. Defined.
#[global] Instance theme_ok : CodecOk theme_codec.
Proof. apply iso_ok; [apply _|by intros []]. Defined.
(* what is read back is a chat without actions *)
#[global] Instance chat_meta_ok : CodecOk chat_meta_codec.
Proof.
  refine {| valid m := valid secret_codec (cm_secret m) ∧ action_no m = 0; wire m := wire secret_codec (cm_secret m) |}.
  - intros ? ? ? m b [Ha _]. by apply (encode_wire (c := secret_codec)).
  - intros m rest [Ha Hn]. cbn [chat_meta_codec iso_codec decode]. rewrite bind_decode by done.
    destruct m as [s n]. cbn in Hn. by subst.
Defined.
#[global] Instance hardened_chat_ok : CodecOk hardened_chat_codec := linear_map_ok user_name_codec member_meta_codec.
#[global] Instance vault_ok : CodecOk vault_codec.
Proof. apply iso_ok; [apply _|by intros []]. Defined.
#[global] Instance hardened_invite_ok : CodecOk hardened_invite_codec.
Proof. apply iso_ok; [apply _|by intros []]. Defined.
#[global] Instance raw_chat_message_ok : CodecOk raw_chat_message_codec.
Proof. apply iso_ok; [apply _|by intros []]. Defined.

(* the vault as it comes back: the actions count from 0 *)
Definition reset_chats (m : LinearMap.LinearMap ChatName ChatMeta) : LinearMap.LinearMap ChatName ChatMeta :=
  {| LinearMap.values := map (λ '(c, m), (c, from_secret (cm_secret m))) (LinearMap.values m) |}.
Definition reset (v : Vault) : Vault := {| chats := reset_chats (chats v); hardened_chats := hardened_chats v; theme := theme v |}.

Lemma encode_all_map {A B} `{Buffer B} (c : Codec A) (f : A → A) l (b : B) :
  (∀ a b, encode c (B := B) (f a) b = encode c a b) → encode_all c (map f l) b = encode_all c l b.
Proof.
  intros Hf. revert b. induction l as [|a l IH]; intros b; [done|]. cbn [map encode_all]. unfold bind.
  rewrite Hf. destruct (encode c a b) as [[[]|] b']; [apply IH|done].
Qed.
Lemma encode_reset_chats {B} `{Buffer B} m (b : B) :
  encode (linear_map_codec chat_name_codec chat_meta_codec) (reset_chats m) b =
  encode (linear_map_codec chat_name_codec chat_meta_codec) m b.
Proof.
  change (bind (encode usize_codec (length (map (λ '(c, m), (c, from_secret (cm_secret m))) (LinearMap.values m))))
    (λ _, encode_all (pair_codec chat_name_codec chat_meta_codec)
      (map (λ '(c, m), (c, from_secret (cm_secret m))) (LinearMap.values m))) b = 
    bind (encode usize_codec (length (LinearMap.values m)))
    (λ _, encode_all (pair_codec chat_name_codec chat_meta_codec) (LinearMap.values m)) b).
  rewrite length_map. unfold bind. destruct (encode usize_codec _ b) as [[[]|] b']; [|done].
  apply encode_all_map. by intros [c x] b1.
Qed.
Lemma encode_reset {B} `{Buffer B} v (b : B) : encode vault_codec (reset v) b = encode vault_codec v b.
Proof.
  change (bind (encode (linear_map_codec chat_name_codec chat_meta_codec) (reset_chats (chats v)))
      (λ _, encode (pair_codec (linear_map_codec chat_name_codec hardened_chat_codec) theme_codec) (hardened_chats v, theme v)) b =
    bind (encode (linear_map_codec chat_name_codec chat_meta_codec) (chats v))
      (λ _, encode (pair_codec (linear_map_codec chat_name_codec hardened_chat_codec) theme_codec) (hardened_chats v, theme v)) b).
  unfold bind. by rewrite encode_reset_chats.
Qed.
Lemma to_bytes_reset v : valid vault_codec (reset v) → to_bytes vault_codec v = Some (wire vault_codec (reset v)).
Proof.
  intros Hv. unfold to_bytes. rewrite <-encode_reset. by rewrite (encode_vec vault_codec).
Qed.

(** ** Sealing *)
#[global] Instance choosen_sized `{Kyber KP} : Sized ChoosenCiphertext :=
  λ c, length (data (c_pl c)) = SHARED_SECRET_SIZE ∧ length (tag (c_pl c)) = TAG_SIZE ∧
       length (nonce (c_pl c)) = NONCE_SIZE ∧ sized (c_cp c).
#[global] Instance join_sized : Sized JoinRequestPayload :=
  λ p, length (jr_name p) = 32%nat ∧ length (jr_chat p) = 32%nat ∧ length (jr_identity p) = HASH_SIZE.
(* [FixedAesPayload<{ size_of::<JoinRequestPayload>() }>] *)
#[global] Instance join_payload_sized `{TransmutationCircle JoinRequestPayload} : Sized FixedAesPayload :=
  λ p, length (data p) = T_SIZE JoinRequestPayload ∧ length (tag p) = TAG_SIZE ∧ length (nonce p) = NONCE_SIZE.

(* an array of a serialized value, whatever its elements are *)
Definition u8_any : CodecOk u8_codec.
Proof. refine {| valid _ := True; wire b := [b] |}; [intros B ? ? a b _; simpl; by rewrite push_extend|done]. Defined.
Definition raw_array (SIZE : nat) : CodecOk (array_codec SIZE u8_codec).
Proof.
  refine {| valid l := length l = SIZE; wire l := l |}.
  - intros B ? ? l b Hl. pose proof (@encode_wire _ _ (@array_ok _ SIZE u8_codec u8_any) B _ _ l b) as E. cbn in E.
    rewrite <-(map_id l) at 2. replace (map (λ x : Z, x) l) with (concat (map (λ b, [b]) l)); [|clear; induction l; [done|cbn; by f_equal]].
    apply E. split; [done|]. by apply Forall_true.
  - intros l rest Hl. pose proof (@decode_wire _ _ (@array_ok _ SIZE u8_codec u8_any) l rest) as E. cbn in E.
    replace (concat (map (λ b, [b]) l)) with l in E; [|clear; induction l; [done|cbn; by f_equal]].
    apply E. split; [done|]. by apply Forall_true.
Defined.

Lemma encode_raw SIZE (l : bytes) `{LawfulBuffer B} (b : B) : length l = SIZE →
  encode (array_codec SIZE u8_codec) l b ≈ extend_from_slice l b.
Proof. intros Hl. exact (@encode_wire _ _ (raw_array SIZE) B _ _ l b Hl). Qed.

Section facts.
Context {KP SK : Type} `{KyberOk KP, X25519Ok SK, AeadOk, Blake3, Signatures}.
Context `{!TransmutationCircle Ciphertext, !TransmuteOk Ciphertext}.
Context `{!TransmutationCircle ChoosenCiphertext, !TransmuteOk ChoosenCiphertext}.
Context `{!TransmutationCircle JoinRequestPayload, !TransmuteOk JoinRequestPayload}.
Context `{!TransmutationCircle FixedAesPayload, !TransmuteOk FixedAesPayload}.
Context (CRYPTO_ASOC : bytes).
Local Notation seal := (seal CRYPTO_ASOC).
Local Notation open := (open CRYPTO_ASOC).
Implicit Types (k : UserKeys (KP := KP) (SK := SK)) (s : State (KP := KP) (SK := SK)).

Lemma open_seal b secret nonce : length nonce = NONCE_SIZE → open (seal b secret nonce) secret = Some b.
Proof.
  intros Hn. unfold open, seal, encrypt, decrypt. destruct (aead_encrypt _ _ _ _) as [ct tag] eqn:Ha.
  destruct (aead_lengths _ _ _ _ _ _ Ha) as [_ Ht]. cbn zeta.
  unfold TAG_SIZE, NONCE_SIZE in *. rewrite !length_app, Ht, Hn, decide_False by lia.
  replace (length ct + (16 + 12) - 12 - 16)%nat with (length ct) by lia.
  rewrite take_app_length, drop_app_length, <-Ht, take_app_length, drop_app_length.
  exact (aead_decrypt_encrypt _ _ _ _ _ _ Ha).
Qed.

(** ** Mail on the wire *)
#[local] Existing Instance raw_array | 0.
Definition mail_valid (m : Mail) : Prop :=
  match m with
  | ChatInvite chat cp => valid chat_name_codec chat ∧ length cp = T_SIZE ChoosenCiphertext
  | HardenedJoinRequest cp payload => length cp = T_SIZE Ciphertext ∧ length payload = T_SIZE FixedAesPayload
  | HardenedChatMessage n chat content => valid u64_codec n ∧ length chat = HASH_SIZE
  | HardenedChatInvite cp payload => length cp = T_SIZE Ciphertext
  end.
Definition mail_wire (m : Mail) : bytes :=
  match m with
  | ChatInvite chat cp => 0 :: wire chat_name_codec chat ++ cp
  | HardenedJoinRequest cp payload => 1 :: cp ++ payload
  | HardenedChatMessage n chat content => 2 :: wire u64_codec n ++ wire hash_codec chat ++ content
  | HardenedChatInvite cp payload => 3 :: cp ++ payload
  end.
(* a mail of a fixed size, which does not take what follows it *)
Definition closed (m : Mail) : bool :=
  match m with ChatInvite _ _ | HardenedJoinRequest _ _ => true | _ => false end.

Lemma mail_to_bytes m : mail_valid m → to_bytes mail_codec m = Some (mail_wire m).
Proof.
  intros Hm. unfold to_bytes.
  assert (∀ w, encode mail_codec (B := bytes) m [] ≈ extend_from_slice w ([] : bytes) →
    match encode mail_codec (B := bytes) m [] with (Some _, b) => Some b | _ => None end = Some w) as Hw.
  { intros w E. by rewrite (same_run_some _ _ _ _ E eq_refl). }
  apply Hw. destruct m as [chat cp|cp payload|n chat content|cp payload]; cbn in Hm; apply variant_spec; intros b.
  - destruct Hm. apply bind_extend; [by apply encode_wire|]. intros b'.
    apply encode_raw; [apply _|done].
  - destruct Hm. apply bind_extend; [apply encode_raw; [apply _|done]|]. intros b'.
    apply encode_raw; [apply _|done].
  - destruct Hm. apply bind_extend; [by apply encode_wire|]. intros b'. apply bind_extend; [by apply (encode_wire (c := hash_codec))|].
    intros b2. done.
  - apply bind_extend; [apply encode_raw; [apply _|done]|]. done.
Qed.
Lemma mail_decode m rest : mail_valid m → closed m = true ∨ rest = [] →
  decode mail_codec (mail_wire m ++ rest) = (Some m, rest).
Proof.
  intros Hm Hr. destruct m as [chat cp|cp payload|n chat content|cp payload]; cbn in Hm.
  - destruct Hm as [Hc Hp]. change (mail_wire _ ++ rest) with (0 :: (wire chat_name_codec chat ++ cp) ++ rest).
    rewrite <-(assoc_L (++)).
    change ((let! chat := decode chat_name_codec in
      let! cp := decode (array_codec (T_SIZE ChoosenCiphertext) u8_codec) in ret (ChatInvite chat cp))
      (wire chat_name_codec chat ++ cp ++ rest) = (Some (ChatInvite chat cp), rest)).
    rewrite bind_decode by done. by rewrite (@bind_decode _ _ _ (raw_array _) _ cp).
  - destruct Hm as [Hc Hp]. change (mail_wire _ ++ rest) with (1 :: (cp ++ payload) ++ rest). rewrite <-(assoc_L (++)).
    change ((let! cp := decode (array_codec (T_SIZE Ciphertext) u8_codec) in
      let! payload := decode (array_codec (T_SIZE FixedAesPayload) u8_codec) in ret (HardenedJoinRequest cp payload))
      (cp ++ payload ++ rest) = (Some (HardenedJoinRequest cp payload), rest)).
    rewrite (@bind_decode _ _ _ (raw_array _) _ cp) by done. by rewrite (@bind_decode _ _ _ (raw_array _) _ payload).
  - destruct Hr as [?| ->]; [done|]. destruct Hm as [Hn Hc]. rewrite app_nil_r.
    change ((let! n := decode u64_codec in let! chat := decode hash_codec in
        let! content := decode reminder_codec in ret (HardenedChatMessage n chat content))
      (wire u64_codec n ++ wire hash_codec chat ++ content) = (Some (HardenedChatMessage n chat content), [])).
    rewrite bind_decode by done. by rewrite (bind_decode hash_codec).
  - destruct Hr as [?| ->]; [done|]. rewrite app_nil_r.
    change ((let! cp := decode (array_codec (T_SIZE Ciphertext) u8_codec) in
        let! payload := decode reminder_codec in ret (HardenedChatInvite cp payload))
      (cp ++ payload) = (Some (HardenedChatInvite cp payload), [])).
    by rewrite (@bind_decode _ _ _ (raw_array _) _ cp).
Qed.

(* what [handle_mail] does with a mail it can read *)
Definition handle_decoded (m : Mail) k h : outcome (result unit MailError * Handled) :=
  match m with
  | ChatInvite chat cp => handle_invite CRYPTO_ASOC chat cp k h
  | HardenedJoinRequest cp payload => handle_join CRYPTO_ASOC cp payload k h
  | HardenedChatInvite cp payload => handle_hardened_invite CRYPTO_ASOC cp payload k h
  | HardenedChatMessage n chat content => handle_hardened_message CRYPTO_ASOC n chat content k h
  end.
Lemma handle_mail_wire m k h : mail_valid m → handle_mail CRYPTO_ASOC (mail_wire m) k h = handle_decoded m k h.
Proof.
  intros Hm. unfold handle_mail. rewrite <-(app_nil_r (mail_wire m)), mail_decode by (done || by right).
  unfold assert_that. rewrite decide_True by done. by destruct m.
Qed.
Lemma handle_mail_trailing m rest k h : mail_valid m → closed m = true → rest ≠ [] →
  handle_mail CRYPTO_ASOC (mail_wire m ++ rest) k h = Panic.
Proof.
  intros Hm Hc Hr. unfold handle_mail. rewrite mail_decode by (done || by left).
  unfold assert_that. by rewrite decide_False.
Qed.

(** ** Linear maps *)
Lemma get_insert {K V} `{EqDecision K} (k : K) (v : V) m : LinearMap.get k (snd (LinearMap.insert k v m)) = Some v.
Proof.
  unfold LinearMap.insert, LinearMap.get. destruct (position (LinearMap.is_key k) (LinearMap.values m)) as [i|] eqn:E.
  - cbn [snd LinearMap.values]. pose proof (position_first _ _ _ E) as Hf. apply position_some in E as (x & Hi & Hx).
    assert (position (LinearMap.is_key k) (<[i:=(k, v)]> (LinearMap.values m)) = Some i) as ->.
    { revert i Hi Hf. generalize (LinearMap.values m). induction l as [|y l IH]; intros [|i] Hi Hf; try done.
      - cbn. unfold LinearMap.is_key. cbn [fst]. by rewrite bool_decide_true.
      - cbn in *. apply Forall_cons in Hf as [-> Hf]. by rewrite IH. }
    cbn [mbind option_bind]. by rewrite list_lookup_insert_eq by (by eapply lookup_lt_Some).
  - cbn [snd LinearMap.values]. rewrite position_none in E.
    assert (position (LinearMap.is_key k) (LinearMap.values m ++ [(k, v)]) = Some (length (LinearMap.values m))) as ->.
    { revert E. generalize (LinearMap.values m). induction l as [|y l IH]; intros E; cbn.
      - unfold LinearMap.is_key. cbn [fst]. by rewrite bool_decide_true.
      - apply Forall_cons in E as [-> E]. by rewrite IH. }
    cbn [mbind option_bind]. by rewrite list_lookup_middle.
Qed.
Lemma contains_get {K V} `{EqDecision K} (k : K) (m : LinearMap.LinearMap K V) :
  LinearMap.contains_key k m = true ↔ ∃ v, LinearMap.get k m = Some v.
Proof.
  unfold LinearMap.contains_key, LinearMap.get. destruct (position (LinearMap.is_key k) (LinearMap.values m)) as [i|] eqn:E.
  - apply position_some in E as (x & Hi & Hx). cbn [mbind option_bind]. rewrite Hi. split; [by eexists|]. intros _.
    apply existsb_exists. exists x. split; [by eapply list_elem_of_In, list_elem_of_lookup_2|done].
  - cbn. split; [|by intros [? ?]]. rewrite position_none, Forall_forall in E.
    intros (x & Hx & Hk)%existsb_exists. apply list_elem_of_In in Hx. by rewrite E in Hk.
Qed.

(** ** Properties *)

(** C14: What a client stores of its vault comes back after the next start: the same chats with the
    same secrets, the same hardened chats with their members, the same theme, and the chat actions
    counted from 0 again. *)
Theorem vault_roundtrip k nonce s : valid vault_codec (reset (vault s)) → length nonce = NONCE_SIZE → keys s = Some k →
  ∃ proof s', save_vault CRYPTO_ASOC k nonce s = Some (Done proof, s') ∧
    load_vault CRYPTO_ASOC k (context proof) = reset (vault s) ∧ vault s' = vault s.
Proof.
  intros Hv Hn Hk. unfold save_vault, load_vault. rewrite to_bytes_reset by done. cbn [mbind option_bind].
  unfold next_profile_proof. rewrite Hk. unfold proof_new. do 2 eexists. split; [done|]. split; [|done].
  cbn [context]. rewrite open_seal by done. cbn [mbind option_bind].
  pose proof (decode_wire (c := vault_codec) (reset (vault s)) [] Hv) as E. rewrite app_nil_r in E. by rewrite E.
Qed.

Lemma encapsulated kp node seed :
  ∃ cp key, encapsulate kp (public_key node) seed = Done (cp, key) ∧ decapsulate node cp = Done (Ok key) ∧
    sized cp ∧ from_bytes (into_bytes cp) = cp ∧ length (into_bytes cp) = T_SIZE Ciphertext.
Proof.
  destruct (encapsulate_decapsulate kp node seed) as (cp & key & He & Hd & Hs). exists cp, key.
  split_and!; [done|done|done|by apply from_into|by apply into_length].
Qed.

(** C13: An invitation to a chat carries its secret: when the mail reaches the invitee, the chat is in
    the invitee's vault with the very secret of the inviter, so that each reads what the other
    writes. *)
Theorem chat_invite_delivers k k2 chat secret seed nonce nonce2 s h content :
  keys s = Some k → chat_secret chat s = Some secret → valid chat_name_codec chat → length secret = SHARED_SECRET_SIZE →
  length nonce = NONCE_SIZE → length nonce2 = NONCE_SIZE →
  valid raw_chat_message_codec {| rm_sender := u_name k; rm_content := content |} →
  ∃ mail h', chat_invite_mail CRYPTO_ASOC k chat (public_key (u_enc k2)) seed nonce s = Done (Some mail) ∧
    handle_mail CRYPTO_ASOC mail k2 h = Done (Ok tt, h') ∧ chat_secret chat (h_state h') = Some secret ∧
    ∃ msg, normal_message CRYPTO_ASOC k chat content nonce2 s = Some msg ∧
      read_message CRYPTO_ASOC secret msg = Some {| rm_sender := u_name k; rm_content := content |}.
Proof.
  intros Hk Hsec Hc Hls Hn Hn2 Hm. destruct (encapsulated (u_enc k) (u_enc k2) seed) as (cp & key & He & Hd & Hs & Ef & Ln).
  unfold chat_invite_mail. rewrite Hsec. unfold encapsulate_choosen. rewrite He. cbn [obind].
  unfold payload_new. destruct (aead_encrypt key nonce secret CRYPTO_ASOC) as [ct tg] eqn:Ha.
  destruct (aead_lengths _ _ _ _ _ _ Ha) as [Lc Lt].
  set (c := {| c_pl := {| data := ct; tag := tg; Onion.nonce := nonce |}; c_cp := cp |}).
  assert (sized c) as Hsz by (split_and!; [by rewrite <-Hls|done|done|exact Hs]).
  rewrite mail_to_bytes by (split; [done|by apply into_length]). do 2 eexists. split; [done|].
  rewrite handle_mail_wire by (split; [done|by apply into_length]). cbn [handle_decoded].
  unfold handle_invite, decapsulate_choosen. rewrite from_into by exact Hsz. cbn [c_cp c_pl c]. rewrite Hd. cbn [obind].
  unfold payload_decrypt. cbn [data tag Onion.nonce c_pl]. rewrite (aead_decrypt_encrypt _ _ _ _ _ _ Ha). cbn [obind].
  split; [done|]. split.
  - unfold chat_secret. cbn [h_state with_vault vault with_chats chats]. by rewrite get_insert.
  - unfold normal_message. rewrite Hsec. cbn [mbind option_bind]. rewrite (to_bytes_twire raw_chat_message_codec) by done.
    cbn [mbind option_bind]. eexists. split; [done|]. unfold read_message. rewrite open_seal by done. cbn [mbind option_bind].
    by rewrite (tdecode_wire (c := raw_chat_message_codec)).
Qed.

Lemma find_sender_first message secret content name mm before after : open message secret = Some content →
  mm_secret mm = secret → Forall (λ m, open message (mm_secret m.2) = None) before → utf8_ok content = true →
  find_sender CRYPTO_ASOC message (before ++ (name, mm) :: after) = Done (Some (name, content)).
Proof.
  intros Ho Hm Hb Hu. induction Hb as [|[n x] before Hx _ IH]; cbn [find_sender app].
  - rewrite Hm. rewrite Ho. unfold assert_that. by rewrite decide_True.
  - cbn [snd] in Hx. by rewrite Hx.
Qed.

(** A hardened message reaches every member it is written for: the receiver who shares the
    sender's secret reads the text and sees the sender's name, whatever other chats and members it
    knows, unless an earlier one matches the message by accident; without the secret nothing
    happens, and a text that is not UTF-8 panics. *)
Theorem hardened_message_delivers k chat content mm seal_nonce n h name mm' chats0 chats1 before after :
  length seal_nonce = NONCE_SIZE → valid u64_codec n →
  LinearMap.values (hardened_chats (vault (h_state h))) = chats0 ++ (chat, {| LinearMap.values := before ++ (name, mm') :: after |}) :: chats1 →
  Forall (λ c, with_nonce c.1 n ≠ with_nonce chat n) chats0 →
  mm_secret mm' = mm_secret mm →
  Forall (λ m, open (seal content (mm_secret mm) seal_nonce) (mm_secret m.2) = None) before →
  ∃ mail, hardened_message_mail CRYPTO_ASOC chat content mm seal_nonce n = Some mail ∧
    let message := {| db_owner := u_name k; db_chat := chat; db_sender := name; db_content := content |} in
    if utf8_ok content then
      ∃ h', handle_mail CRYPTO_ASOC mail k h = Done (Ok tt, h') ∧ h_messages h' = h_messages h ++ [message] ∧
            hardened_messages (h_state h') = Some (chat, message) ∧ vault (h_state h') = vault (h_state h)
    else handle_mail CRYPTO_ASOC mail k h = Panic.
Proof.
  intros Hn Hu Hv Hc0 Hm Hb. assert (length (with_nonce chat n) = HASH_SIZE) as Hh by apply blake3_length.
  unfold hardened_message_mail. rewrite mail_to_bytes by done.
  eexists. split; [done|]. cbn zeta. rewrite handle_mail_wire by done. cbn [handle_decoded].
  unfold handle_hardened_message. rewrite Hv.
  assert (List.find (λ '(c, _), bool_decide (with_nonce c n = with_nonce chat n))
    (chats0 ++ (chat, {| LinearMap.values := before ++ (name, mm') :: after |}) :: chats1) =
    Some (chat, {| LinearMap.values := before ++ (name, mm') :: after |})) as ->.
  { clear Hv. induction Hc0 as [|[c x] l Hx _ IH]; cbn.
    - by rewrite bool_decide_true.
    - cbn in Hx. by rewrite bool_decide_false. }
  cbn [LinearMap.values]. pose proof (open_seal content (mm_secret mm) seal_nonce Hn) as Ho.
  destruct (utf8_ok content) eqn:Eu.
  - rewrite (find_sender_first _ _ _ _ _ _ _ Ho Hm Hb Eu). cbn [obind]. eexists. split; [done|]. done.
  - assert (find_sender CRYPTO_ASOC (seal content (mm_secret mm) seal_nonce) (before ++ (name, mm') :: after) = Panic) as ->; [|done].
    clear Hv. induction Hb as [|[x y] l Hx _ IH]; cbn [find_sender app].
    + rewrite Hm. rewrite Ho. unfold assert_that. rewrite decide_False; [done|]. by rewrite Eu.
    + cbn [snd] in Hx. by rewrite Hx.
Qed.

(** The request to join a hardened chat never does what it is for. The sender puts the name of the
    receiver into it; the receiver looks the chat up among its ordinary chats: if it has no such
    chat the request is refused, although it is in the hardened chat; if it has one, but no hardened
    chat of that name, it panics; and if it has both, it files the sender under its own name. *)
Theorem join_request_misfiles (enc : Keypair KP SK) k name sign_hash chat identity seed nonce h :
  length nonce = NONCE_SIZE → length identity = HASH_SIZE →
  utf8_ok chat = true → (length chat ≤ 32)%nat → utf8_ok name = true → (length name ≤ 32)%nat →
  ∃ mail mm, notify_about_invite CRYPTO_ASOC name sign_hash (public_key (u_enc k)) chat enc identity seed nonce
      = Done (Some mail, (name, mm)) ∧ mm_identity mm = sign_hash ∧
    let v := vault (h_state h) in
    match LinearMap.get chat (chats v), LinearMap.get chat (hardened_chats v) with
    | None, _ => handle_mail CRYPTO_ASOC mail k h = Done (Err ChatNotOurs, h)
    | Some _, None => handle_mail CRYPTO_ASOC mail k h = Panic
    | Some _, Some members => ∃ h', handle_mail CRYPTO_ASOC mail k h = Done (Ok tt, h') ∧
        LinearMap.get chat (hardened_chats (vault (h_state h'))) =
          Some (snd (LinearMap.insert name {| mm_secret := mm_secret mm; mm_identity := identity |} members))
    end.
Proof.
  intros Hn Hi Uc Lc Un Ln. destruct (encapsulated enc (u_enc k) seed) as (cp & key & He & Hd & Hs & Ef & Lcp).
  unfold notify_about_invite. rewrite He. cbn [obind].
  set (p := {| jr_name := _; jr_chat := _; jr_identity := identity |}).
  assert (∀ s : bytes, utf8_ok s = true → (length s ≤ 32)%nat →
    length (arrstr_to_array 32 s) = 32%nat ∧ array_to_arrstr 32 (arrstr_to_array 32 s) = Some s) as Hpad.
  { intros x Ux Lx. unfold array_to_arrstr, arrstr_to_array. rewrite padded_trimmed, Ux.
    - unfold padded. rewrite !length_app, !length_replicate. split; [lia|done].
    - intros Hlast. apply last_Some in Hlast as [l ->]. apply utf8_ok_lt_255, Forall_app in Ux as [_ Ux].
      apply Forall_inv in Ux. by apply Z.lt_irrefl in Ux. }
  destruct (Hpad chat Uc Lc) as [Pc Ac], (Hpad name Un Ln) as [Pn An].
  assert (sized p) as Hp by (split_and!; [exact Pn|exact Pc|exact Hi]).
  unfold payload_new. destruct (aead_encrypt key nonce (into_bytes p) CRYPTO_ASOC) as [ct tg] eqn:Ha.
  destruct (aead_lengths _ _ _ _ _ _ Ha) as [La Lt].
  set (ap := {| data := ct; tag := tg; Onion.nonce := nonce |}).
  assert (sized ap) as Hap by (split_and!; [cbn; rewrite La; by apply into_length|exact Lt|exact Hn]).
  assert (mail_valid (HardenedJoinRequest (into_bytes cp) (into_bytes ap))) as Hmv by (split; [done|by apply into_length]).
  rewrite mail_to_bytes by exact Hmv. do 2 eexists. split; [done|]. split; [done|]. cbn zeta.
  rewrite handle_mail_wire by exact Hmv. cbn [handle_decoded mm_secret]. unfold handle_join. rewrite Ef, Hd. cbn [obind].
  rewrite (from_into ap Hap). unfold payload_decrypt. cbn [data tag Onion.nonce ap].
  rewrite (aead_decrypt_encrypt _ _ _ _ _ _ Ha), (from_into p Hp). cbn [jr_chat jr_name jr_identity p]. rewrite Ac, An.
  destruct (LinearMap.get chat (chats (vault (h_state h)))) as [cm|] eqn:Ec.
  - assert (LinearMap.contains_key chat (chats (vault (h_state h))) = true) as ->; [apply contains_get; by eexists|]. cbn [negb].
    destruct (LinearMap.get chat (hardened_chats (vault (h_state h)))) as [members|]; [|done]. cbn [unwrap obind].
    eexists. split; [done|]. cbn [h_state with_vault vault with_hardened hardened_chats]. by rewrite get_insert.
  - destruct (LinearMap.contains_key chat (chats (vault (h_state h)))) eqn:Ek; [|done].
    apply contains_get in Ek as [v Ev]. congruence.
Qed.

(** A mail of a fixed size with anything behind it crashes the client that reads it, whoever sent
    it: the bytes that are left over are asserted away. *)
Theorem mail_trailing_panics chat cp rest k h : valid chat_name_codec chat → length cp = T_SIZE ChoosenCiphertext →
  rest ≠ [] → ∃ mail, to_bytes mail_codec (ChatInvite chat cp) = Some mail ∧
    handle_mail CRYPTO_ASOC (mail ++ rest) k h = Panic.
Proof.
  intros Hc Hl Hr. exists (mail_wire (ChatInvite chat cp)). split; [by apply mail_to_bytes|].
  by apply handle_mail_trailing.
Qed.
End facts.

(** ** Actions on a chat, against the handler of the server *)

Section actions.
Context {KP SK R S Addr : Type} `{RpcNet R, ClientStream S, Ed25519, Blake3, Signatures}.
Notation Cx := (Cx R S Addr).
Implicit Types (k : UserKeys (KP := KP) (SK := SK)) (s : State (KP := KP) (SK := SK)) (cx : Cx).

(* a node that answers a request by its handler *)
Definition answered (req : Proof ChatName * ChatAction) cx :
    outcome (result unit (RequestError (ReplError ChatActionError)) * Cx) :=
  try! (r, cx) := perform_chat_action req cx in
  Done (match r with Ok u => Ok u | Err e => Err (RHandler (ReplInner e)) end, cx).

Definition signed k (n : Nonce) (chat : ChatName) : Proof ChatName :=
  MkProof (u_public k) n (u_sign k (pack_payload n (to_proof_context chat))) chat.

Lemma proof_new_signed k n chat : fits 64 n →
  proof_new (u_public k) (u_sign k) n chat = (signed k n chat, wrap 64 (n + 1)).
Proof.
  intros Hn. unfold proof_new, signed. f_equal. f_equal. unfold wrap, fits in *.
  rewrite Zminus_mod_idemp_l. replace (n + 1 - 1) with n by lia. by apply Z.mod_small.
Qed.

(* the next action of the chat in the vault *)
Definition next_action (chat : ChatName) s : option Nonce := action_no <$> LinearMap.get chat (chats (vault s)).

Lemma next_chat_proof_signed k chat cm nonce n s : keys s = Some k → LinearMap.get chat (chats (vault s)) = Some cm →
  fits 64 n → match nonce with None => n = action_no cm | Some m => n = m + 1 end →
  ∃ s', next_chat_proof chat nonce s = Done (Some (signed k n chat), s') ∧ keys s' = Some k ∧
    LinearMap.get chat (chats (vault s')) = Some {| cm_secret := cm_secret cm; action_no := wrap 64 (n + 1) |}.
Proof.
  intros Hk Hc Hf Hn. unfold next_chat_proof. rewrite Hk, Hc.
  assert (match nonce with None => Done (action_no cm) | Some m => add_one m end = Done n) as ->.
  { destruct nonce as [m|]; subst n; [|done]. unfold add_one, assert_that. unfold fits in Hf.
    rewrite decide_True by lia. done. }
  cbn [obind]. rewrite proof_new_signed by done. eexists. split; [done|]. split; [done|].
  cbn [with_vault vault with_chats chats]. apply get_insert.
Qed.

(* an action whose nonce is spent is answered with the newest one *)
Lemma stale_answer k n chat a sc m cx : verify (signed k n chat) = true → get_chat cx chat = Some sc →
  members sc !! identity_hash k = Some m → n ≤ Chat.action m →
  answered (signed k n chat, a) cx = Done (Err (RHandler (ReplInner (ActInvalidAction (Chat.action m)))), cx).
Proof.
  intros Hv Hg Hm Hn. unfold answered, perform_chat_action. rewrite Hv. cbn [negb context signed pk ChatSpec.nonce].
  rewrite Hg. change (from_raw (u_public k)) with (identity_hash k). rewrite Hm. unfold advance_nonce.
  by rewrite bool_decide_false by lia.
Qed.
Lemma acted_not_invalid cx proof a r cx' m : acted cx proof a r cx' → r ≠ Err (ActInvalidAction m).
Proof. intros (? & ? & ? & _ & _ & _ & Ha) ->. destruct a; [by destruct Ha|]. by destruct (decide _) in Ha. Qed.

(** C16: A member's action on a chat is performed by the node even if the client has lost count of its
    actions, as it has after every start: the first attempt with a spent number is answered with
    the newest one, and the second is accepted. The client then counts on from there. What the
    node answers reaches the caller only when a second attempt was needed; a refused first attempt
    is reported as a success. *)
Theorem chat_action_resyncs k chat cm sc m a s cx :
  server_ok cx → nonces_ok cx → numbers_ok cx → valid chat_name_codec chat →
  match a with SendMessage msg => Forall (fits 8) msg | AddUser _ => True end →
  keys s = Some k → LinearMap.get chat (chats (vault s)) = Some cm → fits 64 (action_no cm) →
  (∀ n, verify (signed k n chat) = true) →
  get_chat cx chat = Some sc → members sc !! identity_hash k = Some m → fits 64 (Chat.action m + 1) →
  let stale := bool_decide (action_no cm ≤ Chat.action m) in
  let n := if stale then Chat.action m + 1 else action_no cm in
  ∃ r s' cx', dispatch_chat_action answered chat a s cx =
      Done (match r with Err e => if stale then Err (ActionFailed (RHandler (ReplInner e))) else Ok tt | Ok _ => Ok tt end, s', cx') ∧
    acted cx (signed k n chat) a r cx' ∧ next_action chat s' = Some (wrap 64 (n + 1)).
Proof.
  intros Hs Hns Hb Hname Ha Hk Hc Hf Hv Hg Hm Hfm stale n. unfold dispatch_chat_action.
  destruct (next_chat_proof_signed k chat cm None (action_no cm) s Hk Hc Hf eq_refl) as (s1 & -> & Hk1 & Hc1).
  cbn [obind].
  assert (fits 64 n) as Hfn by (unfold n; by destruct stale).
  assert (accepted cx (signed k n chat) sc m) as Hacc.
  { split_and!; [apply Hv|exact Hg|exact Hm|]. cbn [signed ChatSpec.nonce]. unfold n, stale.
    case_bool_decide; lia. }
  destruct (accepted_acts cx (signed k n chat) a sc m Hacc Hs Hns Hb Hfn Hname Ha)
    as (r & cx' & chat' & He & _ & _ & _ & Hact).
  exists r. unfold n, stale in *. case_bool_decide as Hst.
  - rewrite (stale_answer _ _ _ _ _ _ _ (Hv _) Hg Hm Hst). cbn [obind].
    destruct (next_chat_proof_signed k chat _ (Some (Chat.action m)) (Chat.action m + 1) s1 Hk1 Hc1 Hfm eq_refl)
      as (s2 & -> & Hk2 & Hc2). cbn [obind]. unfold answered. rewrite He. cbn [obind].
    exists s2, cx'. split; [by destruct r as [[]|]|]. split; [done|]. unfold next_action. by rewrite Hc2.
  - unfold answered at 1. rewrite He. cbn [obind]. exists s1, cx'. split; [|split; [done|unfold next_action; by rewrite Hc1]].
    destruct r as [[]|e]; [done|]. pose proof (λ m, acted_not_invalid _ _ _ _ _ m Hact) as Hne.
    destruct e; try done. by destruct (Hne n0).
Qed.
End actions.

(** ** Two clients *)

Section demo.
#[local] Existing Instance demo_kyber.
#[local] Existing Instance demo_x25519.
#[local] Existing Instance demo_aead.
#[local] Existing Instance demo_cipher_bytes.
#[local] Existing Instance demo_kyber_ok.
#[local] Existing Instance demo_x25519_ok.
#[local] Existing Instance demo_aead_ok.
#[local] Existing Instance demo_cipher_ok.
#[local] Existing Instance demo_net.
#[local] Existing Instance demo_streams.
#[local] Existing Instance demo_ed.
#[local] Existing Instance demo_blake3.
#[local] Existing Instance demo_signatures.

#[local] Instance demo_choosen_bytes : TransmutationCircle ChoosenCiphertext := {|
  T_SIZE := 93;
  into_bytes c := data (c_pl c) ++ tag (c_pl c) ++ Onion.nonce (c_pl c) ++ into_bytes (c_cp c);
  from_bytes b := {| c_pl := {| data := take 32 b; tag := take 16 (drop 32 b); Onion.nonce := take 12 (drop 16 (drop 32 b)) |};
                     c_cp := from_bytes (drop 12 (drop 16 (drop 32 b))) |};
|}.
#[local] Instance demo_join_bytes : TransmutationCircle JoinRequestPayload := {|
  T_SIZE := 96; into_bytes p := jr_name p ++ jr_chat p ++ jr_identity p;
  from_bytes b := {| jr_name := take 32 b; jr_chat := take 32 (drop 32 b); jr_identity := drop 32 (drop 32 b) |};
|}.
#[local] Instance demo_payload_bytes : TransmutationCircle FixedAesPayload := {|
  T_SIZE := 124; into_bytes p := data p ++ tag p ++ Onion.nonce p;
  from_bytes b := {| data := take 96 b; tag := take 16 (drop 96 b); Onion.nonce := drop 16 (drop 96 b) |};
|}.
#[local] Instance demo_choosen_ok : TransmuteOk ChoosenCiphertext.
Proof.
  split; intros [[d t n] c] (Hd & Ht & Hn & Hc); cbn [data tag Onion.nonce c_pl c_cp into_bytes from_bytes demo_choosen_bytes T_SIZE] in *.
  - rewrite !(drop_app_n d), !(drop_app_n t), !(drop_app_n n), !take_app_n by done. by rewrite from_into.
  - rewrite !length_app, Hd, Ht, Hn, into_length by done. done.
Qed.
#[local] Instance demo_join_ok : TransmuteOk JoinRequestPayload.
Proof.
  split; intros [n c i] (Hn & Hc & Hi); cbn [jr_name jr_chat jr_identity into_bytes from_bytes demo_join_bytes T_SIZE] in *.
  - by rewrite !(drop_app_n n), !(drop_app_n c), !take_app_n by done.
  - by rewrite !length_app, Hn, Hc, Hi.
Qed.
#[local] Instance demo_payload_ok : TransmuteOk FixedAesPayload.
Proof.
  split; intros [d t n] (Hd & Ht & Hn); cbn [data tag Onion.nonce into_bytes from_bytes demo_payload_bytes T_SIZE demo_join_bytes] in *.
  - by rewrite !(drop_app_n d), !(drop_app_n t), !take_app_n by done.
  - by rewrite !length_app, Hd, Ht, Hn.
Qed.

(** [ann] is in the chat [hi], [bob] in the hardened chat of the same name. *)
Definition demo_ann : UserKeys (KP := Z) (SK := Z) :=
  {| u_name := [97; 110; 110]; u_public := [1; 2]; u_sign _ := [1]; u_enc := demo_kp 3 4; u_vault := replicate 32 5 |}.
Definition demo_bob : UserKeys (KP := Z) (SK := Z) :=
  {| u_name := [98; 111; 98]; u_public := [6; 7]; u_sign _ := [6]; u_enc := demo_kp 7 8; u_vault := replicate 32 9 |}.
Definition demo_state (v : Vault) : State (KP := Z) (SK := Z) :=
  {| keys := Some demo_ann; vault := v; st_vault_version := 3; st_mail_action := 0; hardened_messages := None |}.
Definition demo_vault : Vault :=
  {| chats := {| LinearMap.values := [(demo_name, {| cm_secret := replicate 32 7; action_no := 5 |})] |};
     hardened_chats := LinearMap.default; theme := theme_default |}.
Definition demo_member (n : Z) : MemberMeta := {| mm_secret := replicate 32 n; mm_identity := replicate 32 n |}.
Definition demo_hardened : Vault :=
  {| chats := LinearMap.default;
     hardened_chats := {| LinearMap.values := [(demo_name,
       {| LinearMap.values := [(u_name demo_bob, demo_member 1); (u_name demo_ann, demo_member 2)] |})] |};
     theme := theme_default |}.
Definition demo_handled (v : Vault) : Handled (KP := Z) (SK := Z) := {| h_state := demo_state v; h_messages := []; h_spawned := None |}.

Lemma demo_theme_valid : valid theme_codec theme_default.
Proof. split_and!; decided. Qed.
Lemma demo_vault_valid : valid vault_codec (reset demo_vault).
Proof.
  split; [|split; [|exact demo_theme_valid]].
  - split; [decided|]. constructor; [|constructor]. split; [exact demo_name_valid|]. split; [|done].
    split; [done|decided].
  - split; [decided|]. constructor.
Qed.
Lemma vault_roundtrip_witness : ∃ proof s',
  save_vault [] demo_ann (replicate 12 1) (demo_state demo_vault) = Some (Done proof, s') ∧
  load_vault [] demo_ann (context proof) = reset demo_vault.
Proof.
  destruct (vault_roundtrip [] demo_ann (replicate 12 1) (demo_state demo_vault) demo_vault_valid eq_refl eq_refl)
    as (proof & s' & H1 & H2 & _).
  exists proof, s'. exact (conj H1 H2).
Defined.

Lemma demo_text_valid : valid raw_chat_message_codec {| rm_sender := u_name demo_ann; rm_content := [104; 105] |}.
Proof. split; [split; [split; [split; decided|reflexivity]|apply Nat.leb_le; reflexivity]|]. split; [split; decided|reflexivity]. Qed.
Lemma chat_invite_delivers_witness : ∃ mail h',
  chat_invite_mail [] demo_ann demo_name (public_key (u_enc demo_bob)) [11] (replicate 12 1) (demo_state demo_vault) = Done (Some mail) ∧
  handle_mail [] mail demo_bob (demo_handled vault_default) = Done (Ok tt, h') ∧
  chat_secret demo_name (h_state h') = Some (replicate 32 7).
Proof.
  destruct (chat_invite_delivers [] demo_ann demo_bob demo_name (replicate 32 7) [11] (replicate 12 1) (replicate 12 2)
    (demo_state demo_vault) (demo_handled vault_default) [104; 105] eq_refl eq_refl demo_name_valid eq_refl eq_refl eq_refl
    demo_text_valid) as (mail & h' & H1 & H2 & H3 & _).
  exists mail, h'. exact (conj H1 (conj H2 H3)).
Defined.

Lemma demo_not_bob : Forall (λ m, open [] (seal [] [104] (mm_secret (demo_member 2)) (replicate 12 1)) (mm_secret m.2) = None)
  [(u_name demo_bob, demo_member 1)].
Proof. constructor; [vm_compute; reflexivity|constructor]. Qed.
Lemma hardened_message_delivers_witness : ∃ mail h',
  hardened_message_mail [] demo_name [104] (demo_member 2) (replicate 12 1) 4 = Some mail ∧
  handle_mail [] mail demo_bob (demo_handled demo_hardened) = Done (Ok tt, h') ∧
  h_messages h' = [{| db_owner := u_name demo_bob; db_chat := demo_name; db_sender := u_name demo_ann; db_content := [104] |}].
Proof.
  assert (valid u64_codec 4) as H4 by decided.
  destruct (hardened_message_delivers [] demo_bob demo_name [104] (demo_member 2) (replicate 12 1) 4 (demo_handled demo_hardened)
    (u_name demo_ann) (demo_member 2) [] [] [(u_name demo_bob, demo_member 1)] [] eq_refl H4 eq_refl
    (Forall_nil_2 _) eq_refl demo_not_bob) as (mail & H1 & h' & H2 & H3 & _).
  exists mail, h'. exact (conj H1 (conj H2 H3)).
Defined.

Lemma join_request_misfiles_witness : ∃ mail mm,
  notify_about_invite [] (u_name demo_bob) (replicate 32 1) (public_key (u_enc demo_bob)) demo_name (u_enc demo_ann)
    (replicate 32 2) [11] (replicate 12 1) = Done (Some mail, (u_name demo_bob, mm)) ∧
  handle_mail [] mail demo_bob (demo_handled demo_hardened) = Done (Err ChatNotOurs, demo_handled demo_hardened) ∧
  handle_mail [] mail demo_bob (demo_handled demo_vault) = Panic.
Proof.
  assert (utf8_ok demo_name = true) as U1 by reflexivity.
  assert (utf8_ok (u_name demo_bob) = true) as U2 by reflexivity.
  assert (length demo_name ≤ 32)%nat as L1 by (cbn; lia).
  assert (length (u_name demo_bob) ≤ 32)%nat as L2 by (cbn; lia).
  pose proof (λ h, join_request_misfiles [] (u_enc demo_ann) demo_bob (u_name demo_bob) (replicate 32 1) demo_name
    (replicate 32 2) [11] (replicate 12 1) h eq_refl eq_refl U1 L1 U2 L2) as H.
  destruct (H (demo_handled demo_hardened)) as (mail & mm & H1 & _ & H2).
  destruct (H (demo_handled demo_vault)) as (mail' & mm' & H1' & _ & H2').
  rewrite H1 in H1'. injection H1' as <- <-.
  exists mail, mm. exact (conj H1 (conj H2 H2')).
Defined.

Lemma mail_trailing_panics_witness : ∃ mail,
  to_bytes mail_codec (ChatInvite demo_name (replicate 93 0)) = Some mail ∧
  handle_mail [] (mail ++ [0]) demo_bob (demo_handled demo_vault) = Panic.
Proof. exact (mail_trailing_panics [] demo_name (replicate 93 0) [0] demo_bob (demo_handled demo_vault) demo_name_valid eq_refl ltac:(done)). Defined.

(** A client whose count of its actions is gone. *)
Lemma demo_signed_verifies n : verify (signed demo_ann n demo_name) = true.
Proof. reflexivity. Qed.
Lemma chat_action_resyncs_witness : ∃ r s' cx',
  dispatch_chat_action answered demo_name (SendMessage [5]) (demo_state (reset demo_vault)) (demo_node block_stage_default) =
    Done (match r with Err e => Err (ActionFailed (RHandler (ReplInner e))) | Ok _ => Ok tt end, s', cx') ∧
  acted (demo_node block_stage_default) (signed demo_ann 1 demo_name) (SendMessage [5]) r cx' ∧ next_action demo_name s' = Some 2.
Proof.
  destruct demo_node_ok as (H1 & H2 & H3).
  assert (Forall (fits 8) [5]) as Hb by decided.
  assert (fits 64 0) as Hf by decided. assert (fits 64 (0 + 1)) as Hf1 by decided.
  assert (LinearMap.get demo_name (chats (vault (demo_state (reset demo_vault)))) = Some (from_secret (replicate 32 7))) as Hg by reflexivity.
  assert (get_chat (demo_node block_stage_default) demo_name =
    Some (with_stage (chat_new (from_raw [1; 2]) false) block_stage_default)) as Hc by apply lookup_singleton_eq.
  assert (members (with_stage (chat_new (from_raw [1; 2]) false) block_stage_default) !! identity_hash demo_ann = Some member_new) as Hm
    by apply lookup_singleton_eq.
  exact (chat_action_resyncs demo_ann demo_name (from_secret (replicate 32 7)) _ member_new (SendMessage [5])
    (demo_state (reset demo_vault)) (demo_node block_stage_default) H1 H2 H3 demo_name_valid Hb eq_refl Hg Hf
    demo_signed_verifies Hc Hm Hf1).
Defined.
End demo.
