(* ===== verification/FalconCodec.v ===== *)
(** The serializations of Falcon, [utils/falcon/falcon/src/codec.rs]: public keys of 14 bits a coefficient,
    private keys of a fixed number of bits, signatures with a unary part. The source is C translated
    to Rust; the package is built without overflow checks, so its integers wrap. *)

From S2P Require Import Prelude.

(** the casts to a signed type of [w] bits *)
Definition to_signed (w z : Z) : Z := if decide (wrap w z < 2 ^ (w - 1)) then wrap w z else wrap w z - 2 ^ w.

(* acc << k | x *)
Definition shift_in (acc : Z) (k : nat) (x : Z) : Z := Z.lor (wrap 32 (Z.shiftl acc (Z.of_nat k))) x.

(* while acc_len >= 8: the bytes that are written, and what is left of acc_len *)
Fixpoint flush (fuel : nat) (acc : Z) (acc_len : nat) : list Z * nat :=
  match fuel with
  | O => ([], acc_len)
  | S fuel =>
      if decide (8 ≤ acc_len)%nat then
        let acc_len := (acc_len - 8)%nat in
        let '(out, l) := flush fuel acc acc_len in (wrap 8 (Z.shiftr acc (Z.of_nat acc_len)) :: out, l)
      else ([], acc_len)
  end.
Fixpoint pack (bits : nat) (conv : Z → Z) (x : list Z) (acc : Z) (acc_len : nat) : list Z * (Z * nat) :=
  match x with
  | [] => ([], (acc, acc_len))
  | v :: x =>
      let acc := shift_in acc bits (conv v) in
      let acc_len := (acc_len + bits)%nat in
      let '(out, acc_len) := flush acc_len acc acc_len in
      let '(rest, st) := pack bits conv x acc acc_len in (out ++ rest, st)
  end.
(* the last bits, at the top of a byte *)
Definition pack_end (st : Z * nat) : list Z :=
  if decide (0 < st.2)%nat then [wrap 8 (wrap 32 (Z.shiftl st.1 (Z.of_nat (8 - st.2))))] else [].
Definition pack_all (bits : nat) (conv : Z → Z) (x : list Z) : list Z :=
  let '(out, st) := pack bits conv x 0 0 in out ++ pack_end st.
(* n * bits bits, in whole bytes *)
Definition packed_len (bits n : nat) : nat := Z.to_nat (Z.shiftr (Z.of_nat (n * bits) + 7) 3).

(** Encoders return the length and the output (0 and nothing on an error); [null] is an encoder that is only asked for the length. *)
Definition modq_encode (null : bool) (max_out_len logn : nat) (x : list Z) : nat * list Z :=
  let n := (2 ^ logn)%nat in
  let x := take n x in
  if decide (Exists (λ v, 12289 ≤ v) x) then (0%nat, [])
  else
    let out_len := packed_len 14 n in
    if null then (out_len, [])
    else if decide (max_out_len < out_len)%nat then (0%nat, [])
    else (out_len, pack_all 14 id x).
(* trim_i16_encode and trim_i8_encode, for the width [w] *)
Definition trim_encode (w : Z) (null : bool) (max_out_len logn bits : nat) (x : list Z) : nat * list Z :=
  let n := (2 ^ logn)%nat in
  let x := take n x in
  let maxv := 2 ^ Z.of_nat (bits - 1) - 1 in
  if decide (Exists (λ v, v < - maxv ∨ maxv < v) x) then (0%nat, [])
  else
    let out_len := packed_len bits n in
    if null then (out_len, [])
    else if decide (max_out_len < out_len)%nat then (0%nat, [])
    else (out_len, pack_all bits (λ v, Z.land (wrap w v) (2 ^ Z.of_nat bits - 1)) x).
Definition trim_i16_encode := trim_encode 16.
Definition trim_i8_encode := trim_encode 8.

(* take values out of acc; [None] is return 0 *)
Fixpoint drain (fuel bits : nat) (conv : Z → option Z) (todo : nat) (acc : Z) (acc_len : nat) :
    option (list Z * (nat * nat)) :=
  match fuel with
  | O => Some ([], (todo, acc_len))
  | S fuel =>
      if decide (bits ≤ acc_len ∧ 0 < todo)%nat then
        let acc_len := (acc_len - bits)%nat in
        match conv (Z.land (Z.shiftr acc (Z.of_nat acc_len)) (2 ^ Z.of_nat bits - 1)) with
        | None => None
        | Some v =>
            match drain fuel bits conv (todo - 1) acc acc_len with
            | None => None
            | Some (x, st) => Some (v :: x, st)
            end
        end
      else Some ([], (todo, acc_len))
  end.
(* while u < n; a read past the memory that is there panics *)
Fixpoint unpack (turns : nat → nat) (bits : nat) (conv : Z → option Z) (todo : nat) (inp : list Z) (acc : Z) (acc_len : nat) :
    outcome (option (list Z * (Z * nat))) :=
  match todo with
  | O => Done (Some ([], (acc, acc_len)))
  | S _ =>
      match inp with
      | [] => Panic
      | b :: inp =>
          let acc := shift_in acc 8 b in
          let acc_len := (acc_len + 8)%nat in
          match drain (turns acc_len) bits conv todo acc acc_len with
          | None => Done None
          | Some (x, (todo, acc_len)) =>
              try! r := unpack turns bits conv todo inp acc acc_len in
              Done (match r with None => None | Some (rest, st) => Some (x ++ rest, st) end)
          end
      end
  end.
Definition unpack_all (turns : nat → nat) (bits : nat) (conv : Z → option Z) (n : nat) (inp : list Z) (max_in_len : nat) :
    outcome (option (list Z)) :=
  let in_len := packed_len bits n in
  if decide (max_in_len < in_len)%nat then Done None
  else
    try! r := unpack turns bits conv n inp 0 0 in
    Done (match r with
          | None => None
          | Some (x, (acc, acc_len)) =>
              if decide (Z.land acc (2 ^ Z.of_nat acc_len - 1) = 0) then Some x else None
          end).

(** Decoders return the coefficients; the length that the source returns with them is [packed_len bits n]. *)
Definition modq_value (w : Z) : option Z := if decide (12289 ≤ w) then None else Some w.
Definition modq_decode (logn : nat) (inp : list Z) (max_in_len : nat) : outcome (option (list Z)) :=
  unpack_all (λ _, 1%nat) 14 modq_value (2 ^ logn) inp max_in_len.
(* sign extension, which the source does twice; the most negative value is refused *)
Definition trim_value (w : Z) (bits : nat) (v : Z) : option Z :=
  let mask2 := 2 ^ Z.of_nat (bits - 1) in
  let v := Z.lor v (wrap 32 (- Z.land v mask2)) in
  if decide (v = wrap 32 (- mask2)) then None else Some (to_signed w v).
Definition trim_decode (w : Z) (logn bits : nat) (inp : list Z) (max_in_len : nat) : outcome (option (list Z)) :=
  unpack_all id bits (trim_value w bits) (2 ^ logn) inp max_in_len.
Definition trim_i16_decode := trim_decode 16.
Definition trim_i8_decode := trim_decode 8.

(** *** Signatures: a sign, seven low bits, and the rest in unary *)

Definition comp_push (acc : Z) (acc_len : nat) (t : Z) : Z * nat :=
  let acc := wrap 32 (Z.shiftl acc 1) in
  let '(w, acc) := if decide (t < 0) then (- t, Z.lor acc 1) else (t, acc) in
  let acc := shift_in acc 7 (Z.land w 127) in
  let w := Z.to_nat (Z.shiftr w 7) in
  (shift_in acc (w + 1) 1, (acc_len + 8 + (w + 1))%nat).
(* [v] bytes are written; one too many returns 0 *)
Fixpoint comp_pack (null : bool) (max_out_len : nat) (x : list Z) (v : nat) (acc : Z) (acc_len : nat) :
    option (list Z * (nat * (Z * nat))) :=
  match x with
  | [] => Some ([], (v, (acc, acc_len)))
  | t :: x =>
      let '(acc, acc_len) := comp_push acc acc_len t in
      let '(out, acc_len) := flush acc_len acc acc_len in
      let v := (v + length out)%nat in
      if negb null && (max_out_len <? v)%nat then None
      else match comp_pack null max_out_len x v acc acc_len with
           | None => None
           | Some (rest, st) => Some (out ++ rest, st)
           end
  end.
Definition comp_encode (null : bool) (max_out_len logn : nat) (x : list Z) : nat * list Z :=
  let x := take (2 ^ logn) x in
  if decide (Exists (λ v, v < -2047 ∨ 2047 < v) x) then (0%nat, [])
  else match comp_pack null max_out_len x 0 0 0 with
       | None => (0%nat, [])
       | Some (out, (v, st)) =>
           let last := pack_end st in
           let v := (v + length last)%nat in
           if negb null && (max_out_len <? v)%nat then (0%nat, []) else (v, if null then [] else out ++ last)
       end.

(* buf[v], and the length against which v is checked before *)
Definition comp_read (max_in_len : nat) (inp : list Z) (v : nat) (acc : Z) : outcome (option (nat * Z)) :=
  if decide (max_in_len ≤ v)%nat then Done None
  else try! b := unwrap (inp !! v) in Done (Some (S v, shift_in acc 8 b)).
(* m grows by 128 from below 128 until it passes 2047: 16 turns at most *)
Fixpoint unary (fuel : nat) (max_in_len : nat) (inp : list Z) (m : Z) (v : nat) (acc : Z) (acc_len : nat) :
    outcome (option (Z * (nat * (Z * nat)))) :=
  match fuel with
  | O => Done None
  | S fuel =>
      try! r := if decide (acc_len = 0)%nat then
          try! r := comp_read max_in_len inp v acc in
          Done (match r with None => None | Some (v, acc) => Some (v, (acc, 8%nat)) end)
        else Done (Some (v, (acc, acc_len))) in
      match r with
      | None => Done None
      | Some (v, (acc, acc_len)) =>
          let acc_len := (acc_len - 1)%nat in
          if decide (Z.land (Z.shiftr acc (Z.of_nat acc_len)) 1 ≠ 0) then Done (Some (m, (v, (acc, acc_len))))
          else
            let m := m + 128 in
            if decide (2047 < m) then Done None else unary fuel max_in_len inp m v acc acc_len
      end
  end.
Fixpoint comp_unpack (n max_in_len : nat) (inp : list Z) (v : nat) (acc : Z) (acc_len : nat) :
    outcome (option (list Z * (nat * (Z * nat)))) :=
  match n with
  | O => Done (Some ([], (v, (acc, acc_len))))
  | S n =>
      try! r := comp_read max_in_len inp v acc in
      match r with
      | None => Done None
      | Some (v, acc) =>
          let b := Z.shiftr acc (Z.of_nat acc_len) in
          let s := Z.land b 128 in
          try! r := unary 16 max_in_len inp (Z.land b 127) v acc acc_len in
          match r with
          | None => Done None
          | Some (m, (v, (acc, acc_len))) =>
              if decide (s ≠ 0 ∧ m = 0) then Done None
              else
                let x := if decide (s ≠ 0) then to_signed 16 (wrap 32 (- m)) else to_signed 16 m in
                try! r := comp_unpack n max_in_len inp v acc acc_len in
                Done (match r with None => None | Some (xs, st) => Some (x :: xs, st) end)
          end
      end
  end.
(* the coefficients with the length that was read *)
Definition comp_decode (logn : nat) (inp : list Z) (max_in_len : nat) : outcome (option (list Z * nat)) :=
  try! r := comp_unpack (2 ^ logn) max_in_len inp 0 0 0 in
  Done (match r with
        | None => None
        | Some (x, (v, (acc, acc_len))) =>
            if decide (Z.land acc (2 ^ Z.of_nat acc_len - 1) = 0) then Some (x, v) else None
        end).

Definition max_fg_bits : list nat := [0; 8; 8; 8; 8; 8; 7; 7; 6; 6; 5]%nat.
Definition max_FG_bits : list nat := [0; 8; 8; 8; 8; 8; 8; 8; 8; 8; 8]%nat.
Definition max_sig_bits : list nat := [0; 10; 11; 11; 12; 12; 12; 12; 12; 12; 12]%nat.

(** ** Bit strings *)

(** the low [n] bits of an integer, the highest first *)
Definition bits (n : nat) (z : Z) : list bool := map (λ i, Z.testbit z (Z.of_nat i)) (rev (seq 0 n)).
Definition bytes_bits (l : list Z) : list bool := flat_map (bits 8) l.

Lemma bits_length n z : length (bits n z) = n.
Proof. unfold bits. by rewrite length_map, length_rev, length_seq. Qed.
Lemma bits_S n z : bits (S n) z = Z.testbit z (Z.of_nat n) :: bits n z.
Proof. unfold bits. by rewrite seq_S, rev_app_distr. Qed.
Lemma bits_ext n a b : (∀ i, (i < n)%nat → Z.testbit a (Z.of_nat i) = Z.testbit b (Z.of_nat i)) → bits n a = bits n b.
Proof.
  intros H. unfold bits. apply map_ext_in. intros i Hi%in_rev%list_elem_of_In%elem_of_seq. apply H. lia.
Qed.
Lemma bits_split n k z : bits (n + k) z = bits n (Z.shiftr z (Z.of_nat k)) ++ bits k z.
Proof.
  induction n as [|n IH]; [done|]. cbn [Nat.add]. rewrite !bits_S, IH, Z.shiftr_spec by lia. cbn [app]. do 2 f_equal. lia.
Qed.
Lemma bits_eq n a b : bits n a = bits n b → a mod 2 ^ Z.of_nat n = b mod 2 ^ Z.of_nat n.
Proof.
  intros He. apply Z.bits_inj'. intros i Hi. destruct (decide (i < Z.of_nat n)).
  - rewrite !Z.mod_pow2_bits_low by lia. revert He. induction n as [|n IH]; [lia|]. rewrite !bits_S. intros [= Hh Ht].
    destruct (decide (i = Z.of_nat n)) as [->|]; [done|]. apply IH; [lia|done].
  - by rewrite !Z.mod_pow2_bits_high by lia.
Qed.
Lemma bits_inj n a b : 0 ≤ a < 2 ^ Z.of_nat n → 0 ≤ b < 2 ^ Z.of_nat n → bits n a = bits n b → a = b.
Proof. intros Ha Hb He%bits_eq. by rewrite !Z.mod_small in He. Qed.
Lemma bits_mod n w z : (n ≤ w)%nat → bits n (z mod 2 ^ Z.of_nat w) = bits n z.
Proof. intros Hw. apply bits_ext. intros i Hi. apply Z.mod_pow2_bits_low. lia. Qed.
Lemma bits_wrap n w z : (Z.of_nat n ≤ w) → bits n (wrap w z) = bits n z.
Proof. intros Hw. apply bits_ext. intros i Hi. unfold wrap. apply Z.mod_pow2_bits_low. lia. Qed.
Lemma bits_zeros n : bits n 0 = replicate n false.
Proof. induction n as [|n IH]; [done|]. rewrite bits_S, IH, Z.bits_0. done. Qed.
(* every string of bits is the bits of one number *)
Lemma bits_surj l : ∃ z, 0 ≤ z < 2 ^ Z.of_nat (length l) ∧ bits (length l) z = l.
Proof.
  induction l as [|b l (z & Hz & Hl)]; [exists 0; split; [cbn; lia|done]|].
  assert (2 ^ Z.of_nat (length (b :: l)) = 2 * 2 ^ Z.of_nat (length l)) as Hp
    by (cbn [length]; rewrite Nat2Z.inj_succ, Z.pow_succ_r; lia).
  exists (Z.lor z (Z.b2z b * 2 ^ Z.of_nat (length l))). rewrite Hp, lor_disjoint by lia. split; [destruct b; cbn [Z.b2z]; lia|].
  cbn [length]. rewrite bits_S. rewrite <-lor_disjoint by lia. f_equal.
  - rewrite Z.lor_spec, (testbit_high z (Z.of_nat (length l))) by lia. rewrite Z.mul_pow2_bits, Z.sub_diag by lia. by destruct b.
  - etransitivity; [|exact Hl]. apply bits_ext. intros i Hi. rewrite Z.lor_spec, (Z.mul_pow2_bits_low _ (Z.of_nat (length l))) by lia.
    apply orb_false_r.
Qed.
Lemma bytes_bits_app a b : bytes_bits (a ++ b) = bytes_bits a ++ bytes_bits b.
Proof. apply flat_map_app. Qed.
Lemma bytes_bits_length l : length (bytes_bits l) = (8 * length l)%nat.
Proof. induction l as [|x l IH]; [done|]. cbn [bytes_bits flat_map]. rewrite length_app, bits_length. fold (bytes_bits l). simpl in *. lia. Qed.
Lemma bytes_bits_inj a b : Forall (fits 8) a → Forall (fits 8) b → bytes_bits a = bytes_bits b → a = b.
Proof.
  intros Ha. revert b. induction Ha as [|x a Hx Ha IH]; intros b Hb He.
  - destruct Hb as [|y b _ _]; [done|]. apply (f_equal length) in He. rewrite !bytes_bits_length in He. simpl in He. lia.
  - destruct Hb as [|y b Hy Hb].
    { apply (f_equal length) in He. rewrite !bytes_bits_length in He. simpl in He. lia. }
    cbn [bytes_bits flat_map] in He. apply app_inj_1 in He as [Hh Ht]; [|by rewrite !bits_length].
    apply bits_inj in Hh; [|done..]. subst. f_equal. by apply IH.
Qed.

(** *** The accumulator *)

Lemma shift_in_bits acc l k x : 0 ≤ x < 2 ^ Z.of_nat k → (l + k ≤ 32)%nat → bits (l + k) (shift_in acc k x) = bits l acc ++ bits k x.
Proof.
  intros Hx Hl. unfold shift_in. rewrite bits_split. f_equal; apply bits_ext; intros i Hi.
  - rewrite Z.shiftr_spec, Z.lor_spec by lia. unfold wrap. rewrite Z.mod_pow2_bits_low, Z.shiftl_spec by lia.
    rewrite (testbit_high x (Z.of_nat k)) by lia.
    rewrite orb_false_r. f_equal. lia.
  - rewrite Z.lor_spec. unfold wrap. rewrite Z.mod_pow2_bits_low, Z.shiftl_spec_low by lia. done.
Qed.
Lemma flush_spec fuel acc l : (l ≤ 8 * fuel)%nat → ∃ out l', flush fuel acc l = (out, l') ∧ (l' < 8)%nat ∧ (l' ≤ l)%nat ∧
  Forall (fits 8) out ∧ bytes_bits out ++ bits l' acc = bits l acc.
Proof.
  revert l. induction fuel as [|fuel IH]; intros l Hl; cbn [flush].
  { exists [], l. replace l with 0%nat by lia. split; [done|]. split; [lia|]. split; [lia|]. split; [constructor|done]. }
  case_decide as Hd; [|exists [], l; split; [done|]; split; [lia|]; split; [lia|]; split; [constructor|done]].
  destruct (IH (l - 8)%nat) as (out & l' & -> & Hl' & Hll & Hout & He); [lia|].
  eexists (_ :: out), l'. split; [done|]. split; [done|]. split; [lia|]. split.
  { constructor; [|done]. by apply wrap_fits. }
  cbn [bytes_bits flat_map]. fold (bytes_bits out). rewrite <-app_assoc, He, bits_wrap by lia.
  replace l with (8 + (l - 8))%nat at 3 by lia. symmetry. apply bits_split.
Qed.

Lemma pack_end_spec acc l : (l < 8)%nat → ∃ p, (p < 8)%nat ∧ Forall (fits 8) (pack_end (acc, l)) ∧
  bytes_bits (pack_end (acc, l)) = bits l acc ++ replicate p false.
Proof.
  intros Hl. unfold pack_end. cbn [fst snd]. case_decide as Hd.
  - exists (8 - l)%nat. split; [lia|]. split; [constructor; [by apply wrap_fits|constructor]|].
    cbn [bytes_bits flat_map]. rewrite app_nil_r, !bits_wrap by lia. replace 8%nat with (l + (8 - l))%nat at 1 by lia.
    rewrite bits_split. f_equal.
    + apply bits_ext. intros i Hi. rewrite Z.shiftr_spec by lia. rewrite Z.shiftl_spec by lia. f_equal. lia.
    + rewrite <-bits_zeros. apply bits_ext. intros i Hi. by rewrite Z.shiftl_spec_low, Z.bits_0 by lia.
  - exists 0%nat. replace l with 0%nat by lia. split; [lia|]. split; [constructor|done].
Qed.

Lemma tail_zero acc l : Z.land acc (2 ^ Z.of_nat l - 1) = 0 ↔ bits l acc = replicate l false.
Proof.
  rewrite land_ones_mod by lia. split; intros H.
  - by rewrite <-(bits_mod l l), H, bits_zeros.
  - rewrite <-bits_zeros in H. apply bits_eq in H. by rewrite H, Z.mod_0_l by lia.
Qed.
(* two strings of whole bytes with less than a byte of padding *)
Lemma padded_inj a b w p q : Forall (fits 8) a → Forall (fits 8) b → (p < 8)%nat → (q < 8)%nat →
  bytes_bits a = w ++ replicate p false → bytes_bits b = w ++ replicate q false → a = b ∧ p = q.
Proof.
  intros Ha Hb Hp Hq Ea Eb. assert (p = q) as ->.
  { apply (f_equal length) in Ea, Eb. rewrite !length_app, !bytes_bits_length, length_replicate in Ea, Eb. lia. }
  split; [|done]. apply bytes_bits_inj; [done..|congruence].
Qed.

(** ** Values of a fixed number of bits *)

Section fixed.
(** [conv] reads the values that [enc] writes with [k] bits. *)
Context (k : nat) (enc : Z → Z) (conv : Z → option Z) (ok : Z → Prop) (Hk : (0 < k ≤ 24)%nat).
Context (Henc : ∀ v, ok v → 0 ≤ enc v < 2 ^ Z.of_nat k).
Context (Hconv : ∀ w v, 0 ≤ w < 2 ^ Z.of_nat k → conv w = Some v ↔ ok v ∧ enc v = w).
Notation word x := (flat_map (λ v, bits k (enc v)) x).

Lemma word_length x : length (word x) = (k * length x)%nat.
Proof. induction x as [|v x IH]; [simpl; lia|]. cbn [flat_map]. rewrite length_app, bits_length, IH. simpl. lia. Qed.

Lemma pack_spec x acc l : Forall ok x → (l < 8)%nat → ∃ out acc' l', pack k enc x acc l = (out, (acc', l')) ∧ (l' < 8)%nat ∧
  Forall (fits 8) out ∧ bytes_bits out ++ bits l' acc' = bits l acc ++ word x.
Proof.
  intros Hx. revert acc l. induction Hx as [|v x Hv Hx IH]; intros acc l Hl; cbn [pack].
  { exists [], acc, l. by rewrite app_nil_r. }
  destruct (flush_spec (l + k) (shift_in acc k (enc v)) (l + k)) as (o1 & l1 & -> & Hl1 & _ & Ho1 & E1); [lia|].
  destruct (IH (shift_in acc k (enc v)) l1 Hl1) as (o2 & acc' & l' & -> & Hl' & Ho2 & E2).
  exists (o1 ++ o2), acc', l'. split; [done|]. split; [done|]. split; [by apply Forall_app|].
  rewrite bytes_bits_app, <-app_assoc, E2, app_assoc, E1, shift_in_bits by (auto || lia). cbn [flat_map]. by rewrite app_assoc.
Qed.
Lemma packed_len_bits n p : (p < 8)%nat → ∀ m, (8 * m = k * n + p)%nat → packed_len k n = m.
Proof.
  intros Hp m Hm. unfold packed_len. rewrite Z.shiftr_div_pow2 by lia. change (2 ^ 3) with 8.
  assert ((Z.of_nat (n * k) + 7) / 8 = Z.of_nat m) as ->; [|lia].
  symmetry. apply Z.div_unique with (7 - Z.of_nat p); lia.
Qed.
Lemma pack_all_spec x : Forall ok x → ∃ p, (p < 8)%nat ∧ Forall (fits 8) (pack_all k enc x) ∧
  bytes_bits (pack_all k enc x) = word x ++ replicate p false ∧ length (pack_all k enc x) = packed_len k (length x).
Proof.
  intros Hx. unfold pack_all. destruct (pack_spec x 0 0 Hx ltac:(lia)) as (out & acc & l & -> & Hl & Ho & E).
  destruct (pack_end_spec acc l Hl) as (p & Hp & He & Eb). exists p. split; [done|]. split; [by apply Forall_app|].
  assert (bytes_bits (out ++ pack_end (acc, l)) = word x ++ replicate p false) as Hall
    by (rewrite bytes_bits_app, Eb, app_assoc, E; done).
  split; [done|]. symmetry. apply packed_len_bits with p; [done|]. rewrite <-bytes_bits_length, Hall, length_app, word_length, length_replicate. done.
Qed.

(** Reading. *)
Lemma drained acc l : (k ≤ l)%nat → let w := Z.land (Z.shiftr acc (Z.of_nat (l - k))) (2 ^ Z.of_nat k - 1) in
  0 ≤ w < 2 ^ Z.of_nat k ∧ bits l acc = bits k w ++ bits (l - k) acc.
Proof.
  intros Hl w. unfold w. rewrite land_ones_mod by lia. split; [apply Z.mod_pos_bound; lia|].
  replace l with (k + (l - k))%nat at 1 by lia. rewrite bits_split. f_equal. by rewrite bits_mod.
Qed.
Lemma drain_sound fuel todo acc l x todo' l' : drain fuel k conv todo acc l = Some (x, (todo', l')) → (l < k * S fuel)%nat →
  (length x + todo' = todo)%nat ∧ Forall ok x ∧ bits l acc = word x ++ bits l' acc ∧ ((0 < todo')%nat → (l' < k)%nat) ∧ (l' ≤ l)%nat.
Proof.
  revert todo l x. induction fuel as [|fuel IH]; intros todo l x; cbn [drain].
  { intros [= <- <- <-] Hl. split_and!; [done|constructor|done|lia|done]. }
  case_decide as Hd; [|intros [= <- <- <-] Hl; split_and!; [done|constructor|done|lia|done]].
  destruct (drained acc l) as [Hw Eb]; [lia|]. set (w := Z.land _ _) in *.
  destruct (conv w) as [v|] eqn:Ec; [|done]. destruct (drain fuel k conv (todo - 1) acc (l - k)) as [[x0 [t0 l0]]|] eqn:Er; [|done].
  intros [= <- <- <-] Hl. destruct (IH _ _ _ Er) as (Hlen & Hok & E & Ht & Hll); [lia|]. apply Hconv in Ec as [Hv Ev]; [|done].
  split_and!; [simpl; lia|by constructor| |done|lia]. cbn [flat_map]. by rewrite Eb, <-Ev, E, app_assoc.
Qed.
Lemma drain_complete fuel todo acc l xs rest tail : length xs = todo → Forall ok xs →
  bits l acc ++ rest = word xs ++ tail → ∃ j l', drain fuel k conv todo acc l = Some (take j xs, ((todo - j)%nat, l')) ∧ (j ≤ todo)%nat.
Proof.
  revert todo l xs. induction fuel as [|fuel IH]; intros todo l xs Hlen Hok E; cbn [drain].
  { exists 0%nat, l. rewrite Nat.sub_0_r. split; [done|lia]. }
  case_decide as Hd; [|exists 0%nat, l; rewrite Nat.sub_0_r; split; [done|lia]].
  destruct (drained acc l) as [Hw Eb]; [lia|]. set (w := Z.land _ _) in *.
  destruct Hok as [|v xs Hv Hok]; [simpl in Hlen; lia|]. cbn [flat_map] in E. rewrite Eb, <-!app_assoc in E.
  apply app_inj_1 in E as [E1 E2]; [|by rewrite !bits_length]. apply bits_inj in E1; [|done|by apply Henc].
  assert (conv w = Some v) as -> by (apply Hconv; [done|by rewrite E1]).
  destruct (IH (todo - 1)%nat (l - k)%nat xs) as (j & l' & -> & Hj); [simpl in Hlen; lia|done|done|].
  exists (S j), l'. cbn [take]. replace (todo - 1 - j)%nat with (todo - S j)%nat by lia. split; [done|lia].
Qed.

Context (turns : nat → nat) (Hturns : ∀ l, (l < k)%nat → (l + 8 < k * S (turns (l + 8)))%nat).

Lemma unpack_sound inp : Forall (fits 8) inp → ∀ todo acc l x acc' l', (0 < todo → l < k)%nat → (todo = 0 → l < 8)%nat →
  unpack turns k conv todo inp acc l = Done (Some (x, (acc', l'))) →
  length x = todo ∧ Forall ok x ∧ (l' < 8)%nat ∧ ∃ used rest, inp = used ++ rest ∧ bits l acc ++ bytes_bits used = word x ++ bits l' acc'.
Proof.
  induction 1 as [|b inp Hb Hinp IH]; intros [|todo] acc l x acc' l' Hl H0; cbn [unpack]; try done.
  1, 2: intros [= <- <- <-]; split; [done|]; split; [constructor|]; split; [by apply H0|]; exists []; eexists; split; [done|apply app_nil_r].
  destruct (drain _ k conv (S todo) _ _) as [[x1 [t1 l1]]|] eqn:Ed; [|done].
  specialize (Hl ltac:(lia)). apply drain_sound in Ed as (Hx1 & Hok1 & E1 & Ht1 & Hl1); [|by apply Hturns].
  assert (l + 8 = k * length x1 + l1)%nat as Hlen1
    by (apply (f_equal length) in E1; by rewrite length_app, word_length, !bits_length in E1).
  destruct (unpack turns k conv t1 inp _ l1) as [[[x2 [acc2 l2]]|]|] eqn:Er; cbn [obind]; try done.
  intros [= <- <- <-]. apply IH in Er as (Hx2 & Hok2 & Hl2 & used & rest & -> & E2); [| |].
  - split; [rewrite length_app; lia|]. split; [by apply Forall_app|]. split; [done|]. exists (b :: used), rest. split; [done|].
    cbn [bytes_bits flat_map]. rewrite flat_map_app, app_assoc, <-shift_in_bits by (done || lia). rewrite E1, <-!app_assoc. by f_equal.
  - done.
  - intros ->. nia.
Qed.
Lemma unpack_complete inp : Forall (fits 8) inp → ∀ todo acc l xs tail, (0 < todo → l < k)%nat → length xs = todo → Forall ok xs →
  bits l acc ++ bytes_bits inp = word xs ++ tail → ∃ x st, unpack turns k conv todo inp acc l = Done (Some (x, st)).
Proof.
  induction 1 as [|b inp Hb Hinp IH]; intros [|todo] acc l xs tail Hl Hlen Hok E; cbn [unpack]; try (by repeat eexists).
  { apply (f_equal length) in E. rewrite !length_app, word_length, bits_length, Hlen in E. simpl in E. specialize (Hl ltac:(lia)). nia. }
  specialize (Hl ltac:(lia)). cbn [bytes_bits flat_map] in E. rewrite app_assoc, <-shift_in_bits in E by (done || lia).
  edestruct (drain_complete (turns (l + 8)%nat)) as (j & l1 & Ed & Hj); [exact Hlen|exact Hok|exact E|]. rewrite Ed.
  apply drain_sound in Ed as (_ & _ & E1 & Ht1 & _); [|by apply Hturns].
  rewrite E1, <-(take_drop j xs), flat_map_app, <-!app_assoc, take_drop in E. apply app_inv_head in E.
  edestruct IH as (x2 & st & ->); [exact Ht1| |exact (Forall_drop _ j _ Hok)|exact E|by repeat eexists].
  rewrite length_drop. lia.
Qed.

Lemma word_inj x y a b : Forall ok x → Forall ok y → length x = length y → word x ++ a = word y ++ b → x = y ∧ a = b.
Proof.
  intros Hx. revert y. induction Hx as [|v x Hv Hx IH]; intros y Hy Hlen E; destruct Hy as [|u y Hu Hy]; try done.
  cbn [flat_map] in E. rewrite <-!app_assoc in E. apply app_inj_1 in E as [E1 E2]; [|by rewrite !bits_length].
  destruct (IH y) as [-> ->]; [done|by injection Hlen|done|]. split; [|done]. f_equal.
  apply bits_inj in E1; [|by apply Henc..]. assert (conv (enc v) = Some v) as H1 by (apply Hconv; auto).
  rewrite E1 in H1. apply Hconv in H1 as [_ H1]; [|by apply Henc]. assert (conv (enc u) = Some v) as H2 by (apply Hconv; auto).
  assert (conv (enc u) = Some u) as H3 by (apply Hconv; auto). congruence.
Qed.
(** A decoder accepts the string that the encoder writes, and no other. *)
Lemma unpack_all_spec n inp max_in_len x : Forall (fits 8) inp → (0 < n)%nat →
  unpack_all turns k conv n inp max_in_len = Done (Some x) ↔
  Forall ok x ∧ length x = n ∧ (packed_len k n ≤ max_in_len)%nat ∧ take (packed_len k n) inp = pack_all k enc x.
Proof.
  intros Hinp Hn. unfold unpack_all. split.
  - case_decide as Hm; [done|]. destruct (unpack _ _ _ _ _ _ _) as [[[x' [acc l]]|]|] eqn:Eu; cbn [obind]; try done.
    case_decide as Hz; [|done]. intros [= ->]. apply tail_zero in Hz.
    apply unpack_sound in Eu as (Hx & Hok & Hl & used & rest & -> & E); [|done|lia..]. rewrite Hz in E. change (bits 0 0) with (@nil bool) in E. cbn [app] in E.
    apply Forall_app in Hinp as [Hused _]. destruct (pack_all_spec x Hok) as (p & Hp & Hf & Eb & Hlen).
    assert (used = pack_all k enc x) as -> by (exact (proj1 (padded_inj _ _ _ l p Hused Hf Hl Hp E Eb))).
    split; [done|]. split; [done|]. split; [lia|]. by rewrite <-Hx, <-Hlen, take_app_length.
  - intros (Hok & Hx & Hm & Ht). rewrite decide_False by lia. destruct (pack_all_spec x Hok) as (p & Hp & Hf & Eb & Hlen).
    assert (inp = pack_all k enc x ++ drop (packed_len k n) inp) as Hinp' by (by rewrite <-Ht, take_drop).
    assert (bits 0 0 ++ bytes_bits inp = word x ++ replicate p false ++ bytes_bits (drop (packed_len k n) inp)) as E
      by (rewrite Hinp' at 1; by rewrite bytes_bits_app, Eb, <-app_assoc).
    destruct (unpack_complete inp Hinp n 0 0%nat x _ ltac:(lia) Hx Hok E) as (x' & [acc l] & Eu). rewrite Eu. cbn [obind].
    apply unpack_sound in Eu as (Hx' & Hok' & Hl & used & rest & Hu & E'); [|done|lia..].
    rewrite Hu, bytes_bits_app, app_assoc, E', <-app_assoc in E.
    apply word_inj in E as [-> E]; [|done|done|congruence]. assert (l = p) as ->.
    { change (bits 0 0) with (@nil bool) in E'. apply (f_equal length) in E', Eb.
      rewrite !length_app, bytes_bits_length, bits_length in E'. rewrite !length_app, bytes_bits_length, length_replicate in Eb. simpl in E'. lia. }
    apply app_inj_1 in E as [E _]; [|by rewrite bits_length, length_replicate].
    by rewrite decide_True by (by apply tail_zero).
Qed.
(** The bytes of the string are in memory: nothing is read past them. *)
Lemma unpack_done inp : ∀ todo acc l, (k * todo ≤ l + 8 * length inp)%nat → (0 < todo → l < k)%nat →
  ∃ r, unpack turns k conv todo inp acc l = Done r.
Proof.
  induction inp as [|b inp IH]; intros [|todo] acc l Hlen Hl; cbn [unpack]; try (by eexists).
  { simpl in Hlen. specialize (Hl ltac:(lia)). nia. }
  specialize (Hl ltac:(lia)). destruct (drain _ k conv (S todo) _ _) as [[x1 [t1 l1]]|] eqn:Ed; [|by eexists].
  apply drain_sound in Ed as (Hx1 & _ & E1 & Ht1 & Hl1); [|by apply Hturns].
  apply (f_equal length) in E1. rewrite length_app, word_length, !bits_length in E1.
  destruct (IH t1 (shift_in acc 8 b) l1) as [r ->]; [simpl in Hlen; nia|done|]. by eexists.
Qed.
Lemma unpack_all_done n inp max_in_len : (max_in_len ≤ length inp)%nat → ∃ r, unpack_all turns k conv n inp max_in_len = Done r.
Proof.
  intros Hlen. unfold unpack_all. case_decide as Hm; [by eexists|].
  destruct (unpack_done inp n 0 0%nat) as [r ->]; [|lia|by eexists].
  unfold packed_len in Hm. rewrite Z.shiftr_div_pow2 in Hm by lia. change (2 ^ 3) with 8 in Hm.
  pose proof (Z.div_mod (Z.of_nat (n * k) + 7) 8 ltac:(lia)). pose proof (Z.mod_pos_bound (Z.of_nat (n * k) + 7) 8 ltac:(lia)). nia.
Qed.
End fixed.

Lemma packed_len_pos k n : (0 < k)%nat → (0 < n)%nat → (0 < packed_len k n)%nat.
Proof.
  intros Hk Hn. unfold packed_len. rewrite Z.shiftr_div_pow2 by lia. change (2 ^ 3) with 8.
  pose proof (Z.div_mod (Z.of_nat (n * k) + 7) 8 ltac:(lia)). pose proof (Z.mod_pos_bound (Z.of_nat (n * k) + 7) 8 ltac:(lia)). nia.
Qed.

(** *** Public keys *)

Definition coefficient (v : Z) : Prop := 0 ≤ v < 12289.
Lemma modq_value_spec w v : 0 ≤ w < 2 ^ Z.of_nat 14 → modq_value w = Some v ↔ coefficient v ∧ id v = w.
Proof.
  intros Hw. unfold modq_value, coefficient, id. case_decide; split; try done; try lia.
  - intros [= ->]. lia.
  - by intros [_ ->].
Qed.
Lemma coefficient_bits v : coefficient v → 0 ≤ id v < 2 ^ Z.of_nat 14.
Proof. unfold coefficient, id. cbn. lia. Qed.
Lemma modq_turns l : (l < 14)%nat → (l + 8 < 14 * S 1)%nat.
Proof. lia. Qed.

Lemma modq_decode_done logn inp max_in_len : (max_in_len ≤ length inp)%nat → ∃ r, modq_decode logn inp max_in_len = Done r.
Proof. exact (unpack_all_done 14 id modq_value coefficient ltac:(lia) modq_value_spec (λ _, 1%nat) modq_turns (2 ^ logn) inp max_in_len). Qed.

(** The decoder of public keys accepts a string of bytes exactly when it starts with what the encoder
    writes for the coefficients it returns: a key has one encoding. *)
Lemma modq_decode_canonical logn inp max_in_len x : Forall (fits 8) inp →
  modq_decode logn inp max_in_len = Done (Some x) ↔
  Forall (λ v, 0 ≤ v) x ∧ length x = (2 ^ logn)%nat ∧
  modq_encode false max_in_len logn x = (packed_len 14 (2 ^ logn), take (packed_len 14 (2 ^ logn)) inp).
Proof.
  intros Hinp. unfold modq_decode.
  rewrite (unpack_all_spec 14 id modq_value coefficient ltac:(lia) coefficient_bits modq_value_spec (λ _, 1%nat) modq_turns)
    by (done || apply pow2_pos).
  pose proof (packed_len_pos 14 (2 ^ logn) ltac:(lia) (pow2_pos logn)) as Hpos. unfold modq_encode. split.
  - intros (Hok & Hx & Hm & Ht). rewrite take_ge by lia.
    rewrite decide_False by (rewrite Exists_exists; intros (v & Hv & Hbad); rewrite Forall_forall in Hok; specialize (Hok v Hv); unfold coefficient in Hok; lia).
    rewrite decide_False, Ht by lia. split; [|done]. eapply Forall_impl; [exact Hok|]. unfold coefficient. lia.
  - intros (Hp & Hx & He). rewrite take_ge in He by lia. case_decide as Hbad; [injection He; lia|].
    case_decide as Hm; [injection He; lia|]. injection He as ->. split; [|split; [done|split; [lia|done]]].
    apply not_Exists_Forall in Hbad; [|intros ?; by apply _]. rewrite Forall_forall in *. intros v Hv.
    specialize (Hp v Hv). specialize (Hbad v Hv). unfold coefficient. cbn in *. lia.
Qed.

(** *** Private keys *)

Section trim.
Context (w : Z) (k : nat) (Hk : (1 ≤ k ≤ 16)%nat) (Hw : Z.of_nat k ≤ w ≤ 32).
Notation half := (2 ^ Z.of_nat (k - 1)).
Definition trimmed v : Prop := - (half - 1) ≤ v ≤ half - 1.
Definition trim_bits v : Z := Z.land (wrap w v) (2 ^ Z.of_nat k - 1).

Lemma half_double : 2 ^ Z.of_nat k = 2 * half ∧ 0 < half ∧ half ≤ 2 ^ 15.
Proof.
  split; [|split; [lia|apply Z.pow_le_mono_r; lia]].
  replace (Z.of_nat k) with (Z.succ (Z.of_nat (k - 1))) by lia. rewrite Z.pow_succ_r; lia.
Qed.
Lemma trim_bits_mod v : trim_bits v = v mod 2 ^ Z.of_nat k.
Proof.
  unfold trim_bits, wrap. rewrite land_ones_mod by lia. symmetry. apply Znumtheory.Zmod_div_mod; [lia|lia|].
  exists (2 ^ (w - Z.of_nat k)). rewrite <-Z.pow_add_r by lia. f_equal. lia.
Qed.
Lemma trim_bits_range v : trimmed v → 0 ≤ trim_bits v < 2 ^ Z.of_nat k.
Proof. intros _. rewrite trim_bits_mod. apply Z.mod_pos_bound. lia. Qed.
(* v |= -(v & mask2): the sign is copied upwards *)
Lemma sign_extended u : 0 ≤ u < 2 ^ Z.of_nat k →
  Z.lor u (wrap 32 (- Z.land u half)) = if decide (u < half) then u else u - 2 ^ Z.of_nat k + 2 ^ 32.
Proof.
  intros Hu. destruct half_double as (Hd & Hp & Hl).
  assert (Z.land u half = if decide (u < half) then 0 else half) as ->.
  { apply Z.bits_inj'. intros i Hi. rewrite Z.land_spec, Z.pow2_bits_eqb by lia. destruct (Z.eqb_spec (Z.of_nat (k - 1)) i) as [<-|Hn].
    - rewrite andb_true_r. case_decide.
      + rewrite Z.bits_0. apply testbit_high with (Z.of_nat (k - 1)); lia.
      + rewrite Z.pow2_bits_true by lia. replace u with (u - half + 1 * half) by lia. rewrite Z.testbit_eqb by lia.
        rewrite Z.div_add, Z.div_small by lia. done.
    - rewrite andb_false_r. case_decide; [by rewrite Z.bits_0|]. by rewrite Z.pow2_bits_false by lia. }
  case_decide; [by rewrite Z.lor_0_r|].
  assert (wrap 32 (- half) = Z.lor half ((2 ^ (32 - Z.of_nat k) - 1) * 2 ^ Z.of_nat k)) as ->.
  { rewrite lor_disjoint by lia. unfold wrap. rewrite Z.mul_sub_distr_r, <-Z.pow_add_r by lia.
    replace (32 - Z.of_nat k + Z.of_nat k) with 32 by lia. symmetry. apply Z.mod_unique with (-1); lia. }
  rewrite Z.lor_assoc. assert (Z.lor u half = u) as ->.
  { pose proof (lor_disjoint 1 (u - half) (Z.of_nat (k - 1)) ltac:(lia) ltac:(lia)) as E. rewrite !Z.mul_1_l in E.
    replace (u - half + half) with u in E by lia. rewrite <-E at 1. by rewrite <-Z.lor_assoc, Z.lor_diag. }
  rewrite lor_disjoint by lia. rewrite Z.mul_sub_distr_r, <-Z.pow_add_r by lia.
  replace (32 - Z.of_nat k + Z.of_nat k) with 32 by lia. lia.
Qed.
Lemma trim_value_spec u v : 0 ≤ u < 2 ^ Z.of_nat k → trim_value w k u = Some v ↔ trimmed v ∧ trim_bits v = u.
Proof.
  intros Hu. destruct half_double as (Hd & Hp & Hl). unfold trim_value. cbn zeta. rewrite sign_extended by done. rewrite trim_bits_mod. unfold trimmed.
  assert (wrap 32 (- half) = 2 ^ 32 - half) as -> by (unfold wrap; symmetry; apply Z.mod_unique with (-1); lia).
  assert (2 ^ Z.of_nat k ≤ 2 ^ w ∧ 2 ^ w = 2 * 2 ^ (w - 1)) as [Hkw Hw2].
  { split; [apply Z.pow_le_mono_r; lia|]. replace w with (Z.succ (w - 1)) at 1 by lia. apply Z.pow_succ_r. lia. }
  assert (to_signed w (if decide (u < half) then u else u - 2 ^ Z.of_nat k + 2 ^ 32) = if decide (u < half) then u else u - 2 ^ Z.of_nat k) as ->.
  { unfold to_signed, wrap. destruct (decide (u < half)).
    - rewrite Z.mod_small by lia. by rewrite decide_True by lia.
    - assert ((u - 2 ^ Z.of_nat k + 2 ^ 32) mod 2 ^ w = u - 2 ^ Z.of_nat k + 2 ^ w) as ->.
      { symmetry. apply Z.mod_unique with (2 ^ (32 - w) - 1); [lia|]. rewrite Z.mul_sub_distr_l, <-Z.pow_add_r by lia.
        replace (w + (32 - w)) with 32 by lia. lia. }
      rewrite decide_False by lia. lia. }
  split.
  - case_decide as Hm; [done|]. intros [= <-]. case_decide; [split; [lia|by apply Z.mod_small]|].
    split; [lia|]. symmetry. apply Z.mod_unique with (-1); lia.
  - intros [Hv <-]. destruct (decide (0 ≤ v)).
    + rewrite Z.mod_small by lia. rewrite !(decide_True (P := v < half)) by lia. by rewrite decide_False by lia.
    + assert (v mod 2 ^ Z.of_nat k = v + 2 ^ Z.of_nat k) as -> by (symmetry; apply Z.mod_unique with (-1); lia).
      rewrite !(decide_False (P := v + _ < half)) by lia. rewrite decide_False by lia. f_equal. lia.
Qed.

(** The decoders of private keys accept one encoding of every vector of numbers of [k] bits, the lowest number excepted. *)
Lemma trim_decode_canonical logn inp max_in_len x : Forall (fits 8) inp →
  trim_decode w logn k inp max_in_len = Done (Some x) ↔
  length x = (2 ^ logn)%nat ∧
  trim_encode w false max_in_len logn k x = (packed_len k (2 ^ logn), take (packed_len k (2 ^ logn)) inp).
Proof.
  intros Hinp. unfold trim_decode.
  rewrite (unpack_all_spec k trim_bits (trim_value w k) trimmed ltac:(lia) trim_bits_range trim_value_spec id)
    by (done || apply pow2_pos || (unfold id; nia)).
  pose proof (packed_len_pos k (2 ^ logn) ltac:(lia) (pow2_pos logn)) as Hpos. unfold trim_encode. cbn zeta. split.
  - intros (Hok & Hx & Hm & Ht). rewrite take_ge by lia.
    rewrite decide_False by (rewrite Exists_exists; intros (v & Hv & Hbad); rewrite Forall_forall in Hok; specialize (Hok v Hv); unfold trimmed in Hok; lia).
    rewrite decide_False, Ht by lia. done.
  - intros (Hx & He). rewrite take_ge in He by lia. case_decide as Hbad; [injection He; lia|].
    case_decide as Hm; [injection He; lia|]. injection He as <-. split; [|split; [done|split; [lia|done]]].
    apply not_Exists_Forall in Hbad; [|intros ?; by apply _]. rewrite Forall_forall in *. intros v Hv.
    specialize (Hbad v Hv). unfold trimmed. cbn in *. lia.
Qed.
End trim.

(** *** Signatures *)

Definition short (t : Z) : Prop := -2047 ≤ t ≤ 2047.
Definition low (t : Z) : Z := Z.abs t mod 128.
Definition high (t : Z) : nat := Z.to_nat (Z.abs t / 128).
Definition sig_bits (t : Z) : list bool :=
  bool_decide (t < 0) :: bits 7 (low t) ++ replicate (high t) false ++ [true].

Lemma low_range t : 0 ≤ low t < 2 ^ Z.of_nat 7.
Proof. apply Z.mod_pos_bound. lia. Qed.
Lemma low_high t : Z.abs t = low t + 128 * Z.of_nat (high t).
Proof. unfold low, high. rewrite Z2Nat.id by (apply Z.div_pos; lia). pose proof (Z.div_mod (Z.abs t) 128 ltac:(lia)). lia. Qed.
Lemma high_short t : short t → (high t ≤ 15)%nat.
Proof. intros Ht. pose proof (low_high t). pose proof (low_range t). unfold short in Ht. lia. Qed.

Lemma bits_one n : bits (n + 1) 1 = replicate n false ++ [true].
Proof. rewrite bits_split. f_equal. rewrite Z.shiftr_div_pow2 by lia. change (1 / 2 ^ Z.of_nat 1) with 0. apply bits_zeros. Qed.
Lemma comp_push_bits acc l t : (l < 8)%nat → short t →
  ∃ acc', comp_push acc l t = (acc', (l + 8 + (high t + 1))%nat) ∧ bits (l + 8 + (high t + 1)) acc' = bits l acc ++ sig_bits t.
Proof.
  intros Hl Ht. pose proof (high_short t Ht) as Hh. unfold comp_push.
  assert ((if decide (t < 0) then (- t, Z.lor (wrap 32 (Z.shiftl acc 1)) 1) else (t, wrap 32 (Z.shiftl acc 1))) =
    (Z.abs t, shift_in acc 1 (Z.b2z (bool_decide (t < 0))))) as ->.
  { unfold shift_in. case_decide; [rewrite bool_decide_true by done|rewrite bool_decide_false by done];
      cbn [Z.b2z]; rewrite ?Z.lor_0_r; f_equal; lia. }
  cbn zeta. rewrite land_127, Z.shiftr_div_pow2 by lia. change (2 ^ 7) with 128. fold (low t). fold (high t).
  eexists. split; [done|]. rewrite shift_in_bits; [|split; [lia|]; rewrite <-(Z.pow_0_r 2) at 1; apply Z.pow_lt_mono_r; lia|lia].
  rewrite bits_one. replace (l + 8)%nat with (l + 1 + 7)%nat by lia.
  rewrite shift_in_bits by (apply low_range || lia). rewrite shift_in_bits by (lia || (case_bool_decide; cbn; lia)).
  unfold sig_bits. rewrite <-!app_assoc. cbn [app]. f_equal. by case_bool_decide.
Qed.

Lemma replicate_stop z z' a b : replicate z false ++ true :: a = replicate z' false ++ true :: b → z = z' ∧ a = b.
Proof.
  revert z'. induction z as [|z IH]; intros [|z'] E; try discriminate; [by injection E|]. injection E as E.
  destruct (IH _ E) as [-> ->]. done.
Qed.
(* no code word starts another *)
Lemma sig_bits_prefix t u a b : sig_bits t ++ a = sig_bits u ++ b → t = u ∧ a = b.
Proof.
  unfold sig_bits. intros E0. assert (Hs := f_equal (hd false) E0). assert (E := f_equal (drop 1) E0). cbn [app hd drop] in Hs, E.
  rewrite <-!app_assoc in E. cbn [app] in E.
  apply app_inj_1 in E as [El E]; [|by rewrite !bits_length]. apply bits_inj in El; [|apply low_range..].
  apply replicate_stop in E as [Eh ->]. split; [|done]. pose proof (low_high t). pose proof (low_high u).
  assert (t < 0 ↔ u < 0) by (rewrite <-(bool_decide_eq_true (t < 0)), <-(bool_decide_eq_true (u < 0)), Hs; done). lia.
Qed.

(** Writing. *)
Lemma comp_pack_spec max_out_len x v acc l : Forall short x → (l < 8)%nat → (v ≤ max_out_len)%nat →
  ∃ out acc' l', (l' < 8)%nat ∧ Forall (fits 8) out ∧ bytes_bits out ++ bits l' acc' = bits l acc ++ flat_map sig_bits x ∧
  comp_pack false max_out_len x v acc l =
    if decide (v + length out ≤ max_out_len)%nat then Some (out, ((v + length out)%nat, (acc', l'))) else None.
Proof.
  intros Hx. revert v acc l. induction Hx as [|t x Ht Hx IH]; intros v acc l Hl Hv; cbn [comp_pack].
  { exists [], acc, l. rewrite Nat.add_0_r, decide_True, app_nil_r by done. done. }
  destruct (comp_push_bits acc l t Hl Ht) as (acc1 & -> & E0).
  destruct (flush_spec (l + 8 + (high t + 1)) acc1 (l + 8 + (high t + 1))) as (o1 & l1 & -> & Hl1 & _ & Ho1 & E1); [lia|].
  destruct (decide (v + length o1 ≤ max_out_len)%nat) as [Hm|Hm].
  - destruct (IH (v + length o1)%nat acc1 l1 Hl1 Hm) as (o2 & acc2 & l2 & Hl2 & Ho2 & E2 & Ep). exists (o1 ++ o2), acc2, l2.
    split; [done|]. split; [by apply Forall_app|]. split.
    + rewrite bytes_bits_app, <-app_assoc, E2, app_assoc, E1, E0. cbn [flat_map]. by rewrite <-app_assoc.
    + rewrite Ep, length_app, Nat.add_assoc. rewrite (proj2 (Nat.ltb_ge _ _) Hm). by case_decide.
  - destruct (IH max_out_len acc1 l1 Hl1 ltac:(lia)) as (o2 & acc2 & l2 & Hl2 & Ho2 & E2 & _). exists (o1 ++ o2), acc2, l2.
    split; [done|]. split; [by apply Forall_app|]. split.
    + rewrite bytes_bits_app, <-app_assoc, E2, app_assoc, E1, E0. cbn [flat_map]. by rewrite <-app_assoc.
    + rewrite (proj2 (Nat.ltb_lt _ _)), length_app by lia. by rewrite decide_False by lia.
Qed.
(* the encoding: the code words, padded with zeros to whole bytes *)
Lemma comp_encode_spec max_out_len logn x : length x = (2 ^ logn)%nat → Forall short x →
  ∃ out p, (p < 8)%nat ∧ Forall (fits 8) out ∧ bytes_bits out = flat_map sig_bits x ++ replicate p false ∧
  comp_encode false max_out_len logn x = if decide (length out ≤ max_out_len)%nat then (length out, out) else (0%nat, []).
Proof.
  intros Hlen Hx. unfold comp_encode. rewrite take_ge by lia.
  rewrite decide_False by (rewrite Exists_exists; intros (v & Hv & Hbad); rewrite Forall_forall in Hx; specialize (Hx v Hv); unfold short in Hx; lia).
  destruct (comp_pack_spec max_out_len x 0 0 0 Hx ltac:(lia) ltac:(lia)) as (out & acc & l & Hl & Ho & E & Ep).
  destruct (pack_end_spec acc l Hl) as (p & Hp & He & Eb). exists (out ++ pack_end (acc, l)), p.
  split; [done|]. split; [by apply Forall_app|]. split; [rewrite bytes_bits_app, Eb, app_assoc; f_equal; exact E|].
  rewrite Ep, length_app. cbn [Nat.add negb andb]. destruct (decide (length out ≤ max_out_len)%nat); [|by rewrite decide_False by lia].
  destruct (Nat.ltb_spec max_out_len (length out + length (pack_end (acc, l)))); [by rewrite decide_False by lia|by rewrite decide_True by lia].
Qed.

(** Reading. The bytes that may still be read at [v]: *)
Definition avail (max_in_len : nat) (inp : list Z) (v : nat) : list Z := take (max_in_len - v) (drop v inp).
Lemma comp_read_sound max_in_len inp v acc v' acc' : comp_read max_in_len inp v acc = Done (Some (v', acc')) →
  ∃ b, v' = S v ∧ acc' = shift_in acc 8 b ∧ avail max_in_len inp v = b :: avail max_in_len inp (S v).
Proof.
  unfold comp_read. case_decide as Hv; [done|]. destruct (inp !! v) as [b|] eqn:Hb; [|done]. intros [= <- <-].
  exists b. split; [done|]. split; [done|]. unfold avail. rewrite (drop_S _ _ _ Hb).
  by replace (max_in_len - v)%nat with (S (max_in_len - S v)) by lia.
Qed.
Lemma comp_read_complete max_in_len inp v acc b rest : avail max_in_len inp v = b :: rest →
  comp_read max_in_len inp v acc = Done (Some (S v, shift_in acc 8 b)) ∧ rest = avail max_in_len inp (S v).
Proof.
  unfold avail, comp_read. intros E. destruct (inp !! v) as [b'|] eqn:Hb.
  - rewrite (drop_S _ _ _ Hb) in E. destruct (max_in_len - v)%nat as [|m] eqn:Em; [done|]. injection E as -> <-.
    rewrite decide_False by lia. replace (max_in_len - S v)%nat with m by lia. done.
  - apply lookup_ge_None in Hb. rewrite drop_ge, take_nil in E by done. done.
Qed.
Lemma avail_fits max_in_len inp v : Forall (fits 8) inp → Forall (fits 8) (avail max_in_len inp v).
Proof. intros H. by apply Forall_take, Forall_drop. Qed.

(* the eight bits that follow the l pending ones *)
Lemma next_byte acc l b : fits 8 b → (l < 8)%nat → let a := shift_in acc 8 b in
  bits (l + 8) a = bits l acc ++ bits 8 b ∧
  bits (l + 8) a = bool_decide (Z.land (Z.shiftr a (Z.of_nat l)) 128 ≠ 0) :: bits 7 (Z.land (Z.shiftr a (Z.of_nat l)) 127) ++ bits l a.
Proof.
  intros Hb Hl a. unfold a. split; [apply shift_in_bits; [done|lia]|]. set (c := shift_in acc 8 b).
  rewrite Nat.add_comm, bits_split. change 8%nat with (1 + 7)%nat. cbn [Nat.add]. rewrite bits_S. cbn [app]. f_equal.
  - change 128 with (2 ^ 7). set (d := Z.shiftr c _). change (Z.of_nat 7) with 7. destruct (Z.testbit d 7) eqn:Et; symmetry.
    + apply bool_decide_eq_true. intros E0. assert (Z.testbit (Z.land d (2 ^ 7)) 7 = false) as E1 by (by rewrite E0, Z.bits_0).
      rewrite Z.land_spec, Et in E1. done.
    + apply bool_decide_eq_false. intros H. apply H, Z.bits_inj'. intros i Hi. rewrite Z.bits_0, Z.land_spec, Z.pow2_bits_eqb by lia.
      destruct (Z.eqb_spec 7 i) as [<-|]; [by rewrite Et|apply andb_false_r].
  - f_equal. rewrite land_127. symmetry. exact (bits_mod 7 7 _ (le_n 7)).
Qed.
Lemma next_bit acc l : bits (S l) acc = bool_decide (Z.land (Z.shiftr acc (Z.of_nat l)) 1 ≠ 0) :: bits l acc.
Proof.
  rewrite bits_S. f_equal. assert (∀ d, Z.land d 1 = d mod 2) as -> by (intros d; exact (Z.land_ones d 1 ltac:(done))).
  rewrite <-Z.bit0_mod, Z.shiftr_spec by lia. cbn [Z.add]. by destruct (Z.testbit acc _).
Qed.

Section reading.
Context (max_in_len : nat) (inp : list Z) (Hinp : Forall (fits 8) inp).
Notation avail := (avail max_in_len inp).

Lemma avail_cons v b rest : avail v = b :: rest → fits 8 b.
Proof. intros E. assert (Forall (fits 8) (avail v)) as Hf by (by apply avail_fits). rewrite E in Hf. by apply Forall_cons in Hf as [? _]. Qed.

Lemma unary_sound fuel : ∀ m v acc l m' v' acc' l', (l ≤ 8)%nat → m ≤ 2047 →
  unary fuel max_in_len inp m v acc l = Done (Some (m', (v', (acc', l')))) →
  ∃ z used, m' = m + 128 * Z.of_nat z ∧ m' ≤ 2047 ∧ (l' < 8)%nat ∧ v' = (v + length used)%nat ∧ avail v = used ++ avail v' ∧
    bits l acc ++ bytes_bits used = replicate z false ++ true :: bits l' acc'.
Proof.
  induction fuel as [|fuel IH]; intros m v acc l m' v' acc' l' Hl Hm; cbn [unary]; [done|].
  set (r := if decide (l = 0%nat) then _ else _). assert (∀ v1 acc1 l1, r = Done (Some (v1, (acc1, l1))) → ∃ used l0, l1 = S l0 ∧ (l0 < 8)%nat ∧
    v1 = (v + length used)%nat ∧ avail v = used ++ avail v1 ∧ bits l acc ++ bytes_bits used = bits l1 acc1) as Hr.
  { intros v1 acc1 l1. unfold r. case_decide as H0.
    - destruct (comp_read _ _ _ _) as [[[v2 acc2]|]|] eqn:Er; cbn [obind]; try done. intros [= <- <- <-].
      apply comp_read_sound in Er as (b & -> & -> & Ea). exists [b], 7%nat. subst l. pose proof (avail_cons _ _ _ Ea) as Hb.
      split; [done|]. split; [lia|]. split; [simpl; lia|]. split; [done|]. cbn [bytes_bits flat_map].
      rewrite app_nil_r. rewrite <-(shift_in_bits acc 0 8 b) by (done || lia). done.
    - intros [= <- <- <-]. exists [], (l - 1)%nat. split; [lia|]. split; [lia|]. split; [simpl; lia|]. split; [done|apply app_nil_r]. }
  destruct r as [[[v1 [acc1 l1]]|]|]; cbn [obind]; try done. destruct (Hr _ _ _ eq_refl) as (u1 & l0 & -> & Hl0 & -> & Ea1 & E1).
  replace (S l0 - 1)%nat with l0 by lia. rewrite next_bit in E1. destruct (decide (_ ≠ 0)) as [Hbit|Hbit].
  - intros [= <- <- <- <-]. rewrite bool_decide_true in E1 by done. exists 0%nat, u1. split; [lia|]. done.
  - rewrite bool_decide_false in E1 by done. case_decide as Hover; [done|]. intros Hu. apply IH in Hu as (z & u2 & -> & Hm' & Hl' & -> & Ea2 & E2); [|lia|lia].
    exists (S z), (u1 ++ u2). split; [lia|]. split; [done|]. split; [done|]. split; [rewrite length_app; lia|].
    rewrite <-!app_assoc, <-Ea2. split; [done|]. rewrite bytes_bits_app, app_assoc, E1. cbn [app replicate]. by rewrite E2.
Qed.
Lemma unary_complete fuel : ∀ m v acc l z tail, (l ≤ 8)%nat → (z < fuel)%nat → m + 128 * Z.of_nat z ≤ 2047 →
  bits l acc ++ bytes_bits (avail v) = replicate z false ++ true :: tail → ∃ r, unary fuel max_in_len inp m v acc l = Done (Some r).
Proof.
  induction fuel as [|fuel IH]; intros m v acc l z tail Hl Hz Hm E; [lia|]; cbn [unary].
  set (r := if decide (l = 0%nat) then _ else _).
  assert (∃ v1 acc1 l0, r = Done (Some (v1, (acc1, S l0))) ∧ (l0 < 8)%nat ∧ bits l acc ++ bytes_bits (avail v) = bits (S l0) acc1 ++ bytes_bits (avail v1))
    as (v1 & acc1 & l0 & -> & Hl0 & E1).
  { unfold r. case_decide as H0; [|exists v, acc, (l - 1)%nat; replace (S (l - 1)) with l by lia; split; [done|]; split; [lia|done]].
    subst l. destruct (avail v) as [|b rest] eqn:Ea; [by destruct z|]. pose proof (avail_cons _ _ _ Ea) as Hb.
    destruct (comp_read_complete _ _ _ acc _ _ Ea) as [-> ->]. cbn [obind]. exists (S v), (shift_in acc 8 b), 7%nat. split; [done|]. split; [lia|].
    cbn [bytes_bits flat_map]. rewrite app_assoc. rewrite <-(shift_in_bits acc 0 8 b) by (done || lia). done. }
  cbn [obind]. replace (S l0 - 1)%nat with l0 by lia. rewrite E1, next_bit in E. destruct (decide (_ ≠ 0)) as [Hbit|Hbit]; [by eexists|].
  rewrite bool_decide_false in E by done. destruct z as [|z]; [done|]. cbn [app replicate] in E. injection E as E.
  rewrite decide_False by lia. apply (IH _ _ _ _ z tail); [lia..|done].
Qed.
(** The bound on the turns is not what ends them. *)
Lemma unary_S fuel m v acc l : unary (S fuel) max_in_len inp m v acc l =
  (try! r := if decide (l = 0%nat) then
       try! r := comp_read max_in_len inp v acc in Done (match r with None => None | Some (v, acc) => Some (v, (acc, 8%nat)) end)
     else Done (Some (v, (acc, l))) in
   match r with
   | None => Done None
   | Some (v, (acc, l)) =>
       if decide (Z.land (Z.shiftr acc (Z.of_nat (l - 1))) 1 ≠ 0) then Done (Some (m, (v, (acc, (l - 1)%nat))))
       else if decide (2047 < m + 128) then Done None else unary fuel max_in_len inp (m + 128) v acc (l - 1)
   end).
Proof. done. Qed.
Lemma unary_fuel fuel : ∀ m v acc l, m ≤ 2047 → 2047 < m + 128 * Z.of_nat fuel →
  unary (S fuel) max_in_len inp m v acc l = unary fuel max_in_len inp m v acc l.
Proof.
  induction fuel as [|fuel IH]; intros m v acc l Hm Hf; [lia|]. rewrite (unary_S (S fuel)), (unary_S fuel).
  destruct (if decide (l = 0%nat) then _ else _) as [[[v1 [acc1 l1]]|]|]; cbn [obind]; [|done..].
  destruct (decide (_ ≠ 0)); [done|]. case_decide; [done|]. apply IH; lia.
Qed.
(** Nothing is read past the bytes that are in memory. *)
Lemma comp_read_done v acc : (max_in_len ≤ length inp)%nat → ∃ r, comp_read max_in_len inp v acc = Done r.
Proof.
  intros Hm. unfold comp_read. case_decide as Hv; [by eexists|]. destruct (lookup_lt_is_Some_2 inp v) as [b ->]; [lia|]. by eexists.
Qed.
Lemma unary_done fuel : (max_in_len ≤ length inp)%nat → ∀ m v acc l, ∃ r, unary fuel max_in_len inp m v acc l = Done r.
Proof.
  intros Hm. induction fuel as [|fuel IH]; intros m v acc l; cbn [unary]; [by eexists|].
  assert (∃ r, (if decide (l = 0%nat) then
      try! r := comp_read max_in_len inp v acc in Done (match r with None => None | Some (v, acc) => Some (v, (acc, 8%nat)) end)
    else Done (Some (v, (acc, l)))) = Done r) as [r ->].
  { case_decide; [|by eexists]. destruct (comp_read_done v acc Hm) as [r ->]. by eexists. }
  cbn [obind]. destruct r as [[v1 [acc1 l1]]|]; [|by eexists]. destruct (decide (_ ≠ 0)); [by eexists|]. case_decide; [by eexists|apply IH].
Qed.
Lemma comp_unpack_done n : (max_in_len ≤ length inp)%nat → ∀ v acc l, ∃ r, comp_unpack n max_in_len inp v acc l = Done r.
Proof.
  intros Hm. induction n as [|n IH]; intros v acc l; cbn [comp_unpack]; [by eexists|].
  destruct (comp_read_done v acc Hm) as [[[v1 acc1]|] ->]; cbn [obind]; [|by eexists].
  destruct (unary_done 16 Hm (Z.land (Z.shiftr acc1 (Z.of_nat l)) 127) v1 acc1 l) as [[[m [v2 [acc2 l2]]]|] ->]; cbn [obind]; [|by eexists].
  destruct (decide (_ ∧ _)); [by eexists|]. destruct (IH v2 acc2 l2) as [r ->]. by eexists.
Qed.
(* the value that the sign, the low bits and the unary part make *)
Lemma sig_value (s m : Z) (z : nat) : 0 ≤ m < 128 → m + 128 * Z.of_nat z ≤ 2047 → (s ≠ 0 → m + 128 * Z.of_nat z ≠ 0) →
  let t := if decide (s ≠ 0) then to_signed 16 (wrap 32 (- (m + 128 * Z.of_nat z))) else to_signed 16 (m + 128 * Z.of_nat z) in
  short t ∧ sig_bits t = bool_decide (s ≠ 0) :: bits 7 m ++ replicate z false ++ [true].
Proof.
  intros Hm Hz Hs t. set (n := m + 128 * Z.of_nat z) in *.
  assert (t = if decide (s ≠ 0) then - n else n) as ->.
  { unfold t, to_signed, wrap. destruct (decide (s ≠ 0)) as [H0|H0].
    - specialize (Hs H0). assert ((- n) mod 2 ^ 32 = 2 ^ 32 - n) as -> by (symmetry; apply Z.mod_unique with (-1); lia).
      assert ((2 ^ 32 - n) mod 2 ^ 16 = 2 ^ 16 - n) as -> by (symmetry; apply Z.mod_unique with (2 ^ 16 - 1); lia).
      rewrite decide_False; lia.
    - rewrite Z.mod_small by lia. rewrite decide_True; lia. }
  split; [unfold short; case_decide; lia|]. unfold sig_bits, low, high.
  assert (Z.abs (if decide (s ≠ 0) then - n else n) = n) as -> by (case_decide; lia).
  assert (n mod 128 = m) as -> by (symmetry; apply Z.mod_unique with (Z.of_nat z); lia).
  assert (n / 128 = Z.of_nat z) as -> by (symmetry; apply Z.div_unique with m; lia).
  rewrite Nat2Z.id. f_equal. destruct (decide (s ≠ 0)) as [H0|H0].
  - specialize (Hs H0). rewrite !bool_decide_true; [done|done|lia].
  - rewrite !bool_decide_false; [done|done|lia].
Qed.

Lemma comp_unpack_sound n : ∀ v acc l x v' acc' l', (l < 8)%nat →
  comp_unpack n max_in_len inp v acc l = Done (Some (x, (v', (acc', l')))) →
  length x = n ∧ Forall short x ∧ (l' < 8)%nat ∧ ∃ used, v' = (v + length used)%nat ∧ avail v = used ++ avail v' ∧
    bits l acc ++ bytes_bits used = flat_map sig_bits x ++ bits l' acc'.
Proof.
  induction n as [|n IH]; intros v acc l x v' acc' l' Hl; cbn [comp_unpack].
  { intros [= <- <- <- <-]. split; [done|]. split; [done|]. split; [done|]. exists []. split; [simpl; lia|]. split; [done|apply app_nil_r]. }
  destruct (comp_read _ _ _ _) as [[[v1 acc1]|]|] eqn:Er; cbn [obind]; try done.
  apply comp_read_sound in Er as (b & -> & -> & Ea). destruct (next_byte acc l b (avail_cons _ _ _ Ea) Hl) as [E0 E1].
  set (a := shift_in acc 8 b) in *. set (d := Z.shiftr a (Z.of_nat l)) in *. rewrite E1 in E0.
  assert (0 ≤ Z.land d 127 < 128) as Hlow by (rewrite land_127; apply Z.mod_pos_bound; lia).
  destruct (unary _ _ _ _ _ _ _) as [[[m [v2 [acc2 l2]]]|]|] eqn:Eu; cbn [obind]; try done.
  apply unary_sound in Eu as (z & u2 & -> & Hm & Hl2 & -> & Ea2 & E2); [|lia|lia]. destruct (decide (_ ∧ _)) as [Hneg|Hneg]; [done|].
  destruct (comp_unpack n _ _ _ _ _) as [[[x3 [v3 [acc3 l3]]]|]|] eqn:Ec; cbn [obind]; try done.
  intros [= <- <- <- <-]. apply IH in Ec as (Hx3 & Hok3 & Hl3 & u3 & -> & Ea3 & E3); [|done].
  destruct (sig_value (Z.land d 128) (Z.land d 127) z Hlow Hm) as [Hok Hbits]; [tauto|].
  split; [simpl; by rewrite Hx3|]. split; [by constructor|]. split; [done|]. exists (b :: u2 ++ u3).
  split; [simpl; rewrite length_app; lia|]. split; [by rewrite Ea, Ea2, Ea3; cbn [app]; rewrite <-app_assoc|].
  cbn [flat_map]. rewrite Hbits. cbn [bytes_bits flat_map]. fold (bytes_bits (u2 ++ u3)).
  rewrite bytes_bits_app, app_assoc, <-E0. cbn [app]. f_equal. rewrite <-!app_assoc. f_equal.
  rewrite (app_assoc (bits l a)), E2, <-app_assoc. cbn [app]. by rewrite E3.
Qed.
Lemma comp_unpack_complete xs : Forall short xs → ∀ v acc l tail, (l < 8)%nat →
  bits l acc ++ bytes_bits (avail v) = flat_map sig_bits xs ++ tail →
  ∃ r, comp_unpack (length xs) max_in_len inp v acc l = Done (Some r).
Proof.
  induction 1 as [|t xs Ht Hxs IH]; intros v acc l tail Hl E; cbn [length comp_unpack]; [by eexists|].
  destruct (avail v) as [|b rest] eqn:Ea.
  { apply (f_equal length) in E. cbn [flat_map] in E. unfold sig_bits in E at 1.
    rewrite !length_app, bits_length in E. cbn [length] in E. rewrite length_app, bits_length in E. simpl in E. lia. }
  destruct (comp_read_complete _ _ _ acc _ _ Ea) as [-> ->]. cbn [obind].
  destruct (next_byte acc l b (avail_cons _ _ _ Ea) Hl) as [E0 E1].
  set (a := shift_in acc 8 b) in *. set (d := Z.shiftr a (Z.of_nat l)) in *.
  cbn [bytes_bits flat_map] in E. fold (bytes_bits (avail (S v))) in E. rewrite app_assoc, <-E0, E1 in E.
  assert (0 ≤ Z.land d 127 < 128) as Hlow by (rewrite land_127; apply Z.mod_pos_bound; lia).
  pose proof (low_range t) as Hlt. pose proof (low_high t) as Hlh.
  unfold sig_bits in E at 1. cbn [app] in E. assert (Hs := f_equal (hd false) E). assert (E' := f_equal (drop 1) E). cbn [hd drop] in Hs, E'.
  rewrite <-!app_assoc in E'. apply app_inj_1 in E' as [E3 E4]; [|by rewrite !bits_length].
  apply bits_inj in E3; [|done|done]. rewrite E3. cbn [app] in E4.
  destruct (unary_complete 16 (low t) (S v) a l (high t) (flat_map sig_bits xs ++ tail)) as [[m [v2 [acc2 l2]]] Eu].
  { lia. } { pose proof (high_short t Ht). lia. } { unfold short in Ht. lia. } { done. }
  rewrite Eu. cbn [obind]. apply unary_sound in Eu as (z & u2 & -> & Hm & Hl2 & -> & Ea2 & E5); [|lia|lia].
  rewrite Ea2, bytes_bits_app, app_assoc, E5, <-app_assoc in E4. cbn [app] in E4. apply replicate_stop in E4 as [-> E4].
  rewrite decide_False.
  - destruct (IH _ _ _ tail Hl2 E4) as [[x st] ->]. by eexists.
  - intros [Hneg Hz]. rewrite bool_decide_true in Hs by done. symmetry in Hs. apply bool_decide_eq_true in Hs. lia.
Qed.
End reading.

Lemma comp_decode_done logn inp max_in_len : (max_in_len ≤ length inp)%nat → ∃ r, comp_decode logn inp max_in_len = Done r.
Proof.
  intros Hm. unfold comp_decode. destruct (comp_unpack_done max_in_len inp (2 ^ logn) Hm 0 0 0%nat) as [r ->]. by eexists.
Qed.
Lemma sig_words_inj x y a b : length x = length y → flat_map sig_bits x ++ a = flat_map sig_bits y ++ b → x = y ∧ a = b.
Proof.
  revert y. induction x as [|t x IH]; intros [|u y] Hlen E; try done. cbn [flat_map] in E. rewrite <-!app_assoc in E.
  apply sig_bits_prefix in E as [-> E]. destruct (IH y) as [-> ->]; [by injection Hlen|done|done].
Qed.
Lemma taken {A} n (l a b : list A) : take n l = a ++ b → a = take (length a) l ∧ (length a ≤ n)%nat.
Proof.
  intros E. split.
  - rewrite <-(take_drop n l), E, <-app_assoc. by rewrite take_app_length.
  - apply (f_equal length) in E. rewrite length_take, length_app in E. lia.
Qed.
(** The decoder of signatures returns coefficients and the number of bytes it read exactly when those bytes
    are what the encoder writes for the coefficients: a signature has one encoding (no negative zero, no
    second unary form, zeros in the last byte). *)
Lemma comp_decode_canonical logn inp max_in_len x v : Forall (fits 8) inp →
  comp_decode logn inp max_in_len = Done (Some (x, v)) ↔
  length x = (2 ^ logn)%nat ∧ (0 < v)%nat ∧ comp_encode false max_in_len logn x = (v, take v inp).
Proof.
  intros Hinp. pose proof (pow2_pos logn) as Hn. unfold comp_decode. split.
  - destruct (comp_unpack _ _ _ _ _ _) as [[[x' [v' [acc l]]]|]|] eqn:Ec; cbn [obind]; try done.
    case_decide as Hz; [|done]. intros [= -> ->]. apply tail_zero in Hz.
    apply comp_unpack_sound in Ec as (Hx & Hok & Hl & used & -> & Ea & E); [|done|lia]. rewrite Hz in E.
    destruct (comp_encode_spec max_in_len logn x Hx Hok) as (out & p & Hp & Ho & Eb & ->).
    unfold avail in Ea. rewrite drop_0, Nat.sub_0_r in Ea. cbn [Nat.add] in *.
    assert (used = take (length used) inp ∧ (length used ≤ max_in_len)%nat) as [Hused Hm] by (by eapply taken).
    assert (used = out) as <-.
    { apply (padded_inj used out (flat_map sig_bits x) l p); [rewrite Hused; by apply Forall_take|done..]. }
    rewrite decide_True, <-Hused by done. split; [done|]. split; [|done].
    destruct used; [|simpl; lia]. destruct x; [simpl in Hx; lia|]. apply (f_equal length) in E. simpl in E. lia.
  - intros (Hx & Hv & He). assert (Forall short x) as Hok.
    { unfold comp_encode in He. rewrite take_ge in He by lia. case_decide as Hbad; [injection He; lia|].
      apply not_Exists_Forall in Hbad; [|intros ?; by apply _]. eapply Forall_impl; [exact Hbad|]. unfold short. cbn. lia. }
    destruct (comp_encode_spec max_in_len logn x Hx Hok) as (out & p & Hp & Ho & Eb & Eo). rewrite Eo in He.
    case_decide as Hm; [|injection He; lia]. injection He as <- Ht.
    assert (avail max_in_len inp 0 = out ++ avail max_in_len inp (length out)) as Ea.
    { unfold avail. rewrite drop_0, Nat.sub_0_r, Ht at 1. rewrite take_take_drop. f_equal. lia. }
    assert (bits 0 0 ++ bytes_bits (avail max_in_len inp 0) =
      flat_map sig_bits x ++ replicate p false ++ bytes_bits (avail max_in_len inp (length out))) as E
      by (rewrite Ea, bytes_bits_app, Eb, <-app_assoc; done).
    destruct (comp_unpack_complete max_in_len inp Hinp x Hok 0 0 0%nat _ ltac:(lia) E) as [[x' [v' [acc l]]] Ec].
    rewrite <-Hx, Ec. cbn [obind]. apply comp_unpack_sound in Ec as (Hx' & Hok' & Hl & used & -> & Ea' & E'); [|done|lia].
    rewrite Ea', bytes_bits_app, app_assoc, E', <-app_assoc in E. apply sig_words_inj in E as [-> E]; [|done].
    apply (f_equal length) in E' as El, Eb as Eb'. change (bits 0 0) with (@nil bool) in El. cbn [app] in El.
    rewrite length_app, bytes_bits_length in El, Eb'. rewrite bits_length in El. rewrite length_replicate in Eb'. assert (l = p) as -> by lia.
    apply app_inj_1 in E as [E _]; [|by rewrite bits_length, length_replicate].
    rewrite decide_True by (by apply tail_zero). do 3 f_equal. lia.
Qed.
