(* ===== verification/FalconNtt.v ===== *)
(** The arithmetic of Falcon modulo 12289 and its number theoretic transform,
    [utils/falcon/falcon/src/vrfy.rs]: words of 32 bits that wrap, Montgomery products with
    [R = 2^16], and tables of powers in bit-reversed order.

    The transforms work level by level in place; a level is a pass over blocks, and the pass is defined on the
    blocks. [logn] is at most 10, the length of the tables: every caller passes 9. *)

From Stdlib Require Import Zdiv.
From S2P Require Import Prelude.

Definition GMb : list Z := [
  4091; 7888; 11060; 11208; 6960; 4342; 6275; 9759; 1591; 6399; 9477; 5266; 586; 5825; 7538; 9710; 1134; 6407; 1711;
  965; 7099; 7674; 3743; 6442; 10414; 8100; 1885; 1688; 1364; 10329; 10164; 9180; 12210; 6240; 997; 117; 4783; 4407;
  1549; 7072; 2829; 6458; 4431; 8877; 7144; 2564; 5664; 4042; 12189; 432; 10751; 1237; 7610; 1534; 3983; 7863; 2181;
  6308; 8720; 6570; 4843; 1690; 14; 3872; 5569; 9368; 12163; 2019; 7543; 2315; 4673; 7340; 1553; 1156; 8401; 11389;
  1020; 2967; 10772; 7045; 3316; 11236; 5285; 11578; 10637; 10086; 9493; 6180; 9277; 6130; 3323; 883; 10469; 489;
  1502; 2851; 11061; 9729; 2742; 12241; 4970; 10481; 10078; 1195; 730; 1762; 3854; 2030; 5892; 10922; 9020; 5274;
  9179; 3604; 3782; 10206; 3180; 3467; 4668; 2446; 7613; 9386; 834; 7703; 6836; 3403; 5351; 12276; 3580; 1739; 10820;
  9787; 10209; 4070; 12250; 8525; 10401; 2749; 7338; 10574; 6040; 943; 9330; 1477; 6865; 9668; 3585; 6633; 12145;
  4063; 3684; 7680; 8188; 6902; 3533; 9807; 6090; 727; 10099; 7003; 6945; 1949; 9731; 10559; 6057; 378; 7871; 8763;
  8901; 9229; 8846; 4551; 9589; 11664; 7630; 8821; 5680; 4956; 6251; 8388; 10156; 8723; 2341; 3159; 1467; 5460; 8553;
  7783; 2649; 2320; 9036; 6188; 737; 3698; 4699; 5753; 9046; 3687; 16; 914; 5186; 10531; 4552; 1964; 3509; 8436;
  7516; 5381; 10733; 3281; 7037; 1060; 2895; 7156; 8887; 5357; 6409; 8197; 2962; 6375; 5064; 6634; 5625; 278; 932;
  10229; 8927; 7642; 351; 9298; 237; 5858; 7692; 3146; 12126; 7586; 2053; 11285; 3802; 5204; 4602; 1748; 11300; 340;
  3711; 4614; 300; 10993; 5070; 10049; 11616; 12247; 7421; 10707; 5746; 5654; 3835; 5553; 1224; 8476; 9237; 3845;
  250; 11209; 4225; 6326; 9680; 12254; 4136; 2778; 692; 8808; 6410; 6718; 10105; 10418; 3759; 7356; 11361; 8433;
  6437; 3652; 6342; 8978; 5391; 2272; 6476; 7416; 8418; 10824; 11986; 5733; 876; 7030; 2167; 2436; 3442; 9217; 8206;
  4858; 5964; 2746; 7178; 1434; 7389; 8879; 10661; 11457; 4220; 1432; 10832; 4328; 8557; 1867; 9454; 2416; 3816;
  9076; 686; 5393; 2523; 4339; 6115; 619; 937; 2834; 7775; 3279; 2363; 7488; 6112; 5056; 824; 10204; 11690; 1113;
  2727; 9848; 896; 2028; 5075; 2654; 10464; 7884; 12169; 5434; 3070; 6400; 9132; 11672; 12153; 4520; 1273; 9739;
  11468; 9937; 10039; 9720; 2262; 9399; 11192; 315; 4511; 1158; 6061; 6751; 11865; 357; 7367; 4550; 983; 8534; 8352;
  10126; 7530; 9253; 4367; 5221; 3999; 8777; 3161; 6990; 4130; 11652; 3374; 11477; 1753; 292; 8681; 2806; 10378;
  12188; 5800; 11811; 3181; 1988; 1024; 9340; 2477; 10928; 4582; 6750; 3619; 5503; 5233; 2463; 8470; 7650; 7964;
  6395; 1071; 1272; 3474; 11045; 3291; 11344; 8502; 9478; 9837; 1253; 1857; 6233; 4720; 11561; 6034; 9817; 3339;
  1797; 2879; 6242; 5200; 2114; 7962; 9353; 11363; 5475; 6084; 9601; 4108; 7323; 10438; 9471; 1271; 408; 6911; 3079;
  360; 8276; 11535; 9156; 9049; 11539; 850; 8617; 784; 7919; 8334; 12170; 1846; 10213; 12184; 7827; 11903; 5600;
  9779; 1012; 721; 2784; 6676; 6552; 5348; 4424; 6816; 8405; 9959; 5150; 2356; 5552; 5267; 1333; 8801; 9661; 7308;
  5788; 4910; 909; 11613; 4395; 8238; 6686; 4302; 3044; 2285; 12249; 1963; 9216; 4296; 11918; 695; 4371; 9793; 4884;
  2411; 10230; 2650; 841; 3890; 10231; 7248; 8505; 11196; 6688; 4059; 6060; 3686; 4722; 11853; 5816; 7058; 6868;
  11137; 7926; 4894; 12284; 4102; 3908; 3610; 6525; 7938; 7982; 11977; 6755; 537; 4562; 1623; 8227; 11453; 7544; 906;
  11816; 9548; 10858; 9703; 2815; 11736; 6813; 6979; 819; 8903; 6271; 10843; 348; 7514; 8339; 6439; 694; 852; 5659;
  2781; 3716; 11589; 3024; 1523; 8659; 4114; 10738; 3303; 5885; 2978; 7289; 11884; 9123; 9323; 11830; 98; 2526; 2116;
  4131; 11407; 1844; 3645; 3916; 8133; 2224; 10871; 8092; 9651; 5989; 7140; 8480; 1670; 159; 10923; 4918; 128; 7312;
  725; 9157; 5006; 6393; 3494; 6043; 10972; 6181; 11838; 3423; 10514; 7668; 3693; 6658; 6905; 11953; 10212; 11922;
  9101; 8365; 5110; 45; 2400; 1921; 4377; 2720; 1695; 51; 2808; 650; 1896; 9997; 9971; 11980; 8098; 4833; 4135; 4257;
  5838; 4765; 10985; 11532; 590; 12198; 482; 12173; 2006; 7064; 10018; 3912; 12016; 10519; 11362; 6954; 2210; 284;
  5413; 6601; 3865; 10339; 11188; 6231; 517; 9564; 11281; 3863; 1210; 4604; 8160; 11447; 153; 7204; 5763; 5089; 9248;
  12154; 11748; 1354; 6672; 179; 5532; 2646; 5941; 12185; 862; 3158; 477; 7279; 5678; 7914; 4254; 302; 2893; 10114;
  6890; 9560; 9647; 11905; 4098; 9824; 10269; 1353; 10715; 5325; 6254; 3951; 1807; 6449; 5159; 1308; 8315; 3404;
  1877; 1231; 112; 6398; 11724; 12272; 7286; 1459; 12274; 9896; 3456; 800; 1397; 10678; 103; 7420; 7976; 936; 764;
  632; 7996; 8223; 8445; 7758; 10870; 9571; 2508; 1946; 6524; 10158; 1044; 4338; 2457; 3641; 1659; 4139; 4688; 9733;
  11148; 3946; 2082; 5261; 2036; 11850; 7636; 12236; 5366; 2380; 1399; 7720; 2100; 3217; 10912; 8898; 7578; 11995;
  2791; 1215; 3355; 2711; 2267; 2004; 8568; 10176; 3214; 2337; 1750; 4729; 4997; 7415; 6315; 12044; 4374; 7157; 4844;
  211; 8003; 10159; 9290; 11481; 1735; 2336; 5793; 9875; 8192; 986; 7527; 1401; 870; 3615; 8465; 2756; 9770; 2034;
  10168; 3264; 6132; 54; 2880; 4763; 11805; 3074; 8286; 9428; 4881; 6933; 1090; 10038; 2567; 708; 893; 6465; 4962;
  10024; 2090; 5718; 10743; 780; 4733; 4623; 2134; 2087; 4802; 884; 5372; 5795; 5938; 4333; 6559; 7549; 5269; 10664;
  4252; 3260; 5917; 10814; 5768; 9983; 8096; 7791; 6800; 7491; 6272; 1907; 10947; 6289; 11803; 6032; 11449; 1171;
  9201; 7933; 2479; 7970; 11337; 7062; 8911; 6728; 6542; 8114; 8828; 6595; 3545; 4348; 4610; 2205; 6999; 8106; 5560;
  10390; 9321; 2499; 2413; 7272; 6881; 10582; 9308; 9437; 3554; 3326; 5991; 11969; 3415; 12283; 9838; 12063; 4332;
  7830; 11329; 6605; 12271; 2044; 11611; 7353; 11201; 11582; 3733; 8943; 9978; 1627; 7168; 3935; 5050; 2762; 7496;
  10383; 755; 1654; 12053; 4952; 10134; 4394; 6592; 7898; 7497; 8904; 12029; 3581; 10748; 5674; 10358; 4901; 7414;
  8771; 710; 6764; 8462; 7193; 5371; 7274; 11084; 290; 7864; 6827; 11822; 2509; 6578; 4026; 5807; 1458; 5721; 5762;
  4178; 2105; 11621; 4852; 8897; 2856; 11510; 9264; 2520; 8776; 7011; 2647; 1898; 7039; 5950; 11163; 5488; 6277;
  9182; 11456; 633; 10046; 11554; 5633; 9587; 2333; 7008; 7084; 5047; 7199; 9865; 8997; 569; 6390; 10845; 9679; 8268;
  11472; 4203; 1997; 2; 9331; 162; 6182; 2000; 3649; 9792; 6363; 7557; 6187; 8510; 9935; 5536; 9019; 3706; 12009;
  1452; 3067; 5494; 9692; 4865; 6019; 7106; 9610; 4588; 10165; 6261; 5887; 2652; 10172; 1580; 10379; 4638; 9949].
Definition iGMb : list Z := [
  4091; 4401; 1081; 1229; 2530; 6014; 7947; 5329; 2579; 4751; 6464; 11703; 7023; 2812; 5890; 10698; 3109; 2125; 1960;
  10925; 10601; 10404; 4189; 1875; 5847; 8546; 4615; 5190; 11324; 10578; 5882; 11155; 8417; 12275; 10599; 7446; 5719;
  3569; 5981; 10108; 4426; 8306; 10755; 4679; 11052; 1538; 11857; 100; 8247; 6625; 9725; 5145; 3412; 7858; 5831;
  9460; 5217; 10740; 7882; 7506; 12172; 11292; 6049; 79; 13; 6938; 8886; 5453; 4586; 11455; 2903; 4676; 9843; 7621;
  8822; 9109; 2083; 8507; 8685; 3110; 7015; 3269; 1367; 6397; 10259; 8435; 10527; 11559; 11094; 2211; 1808; 7319; 48;
  9547; 2560; 1228; 9438; 10787; 11800; 1820; 11406; 8966; 6159; 3012; 6109; 2796; 2203; 1652; 711; 7004; 1053; 8973;
  5244; 1517; 9322; 11269; 900; 3888; 11133; 10736; 4949; 7616; 9974; 4746; 10270; 126; 2921; 6720; 6635; 6543; 1582;
  4868; 42; 673; 2240; 7219; 1296; 11989; 7675; 8578; 11949; 989; 10541; 7687; 7085; 8487; 1004; 10236; 4703; 163;
  9143; 4597; 6431; 12052; 2991; 11938; 4647; 3362; 2060; 11357; 12011; 6664; 5655; 7225; 5914; 9327; 4092; 5880;
  6932; 3402; 5133; 9394; 11229; 5252; 9008; 1556; 6908; 4773; 3853; 8780; 10325; 7737; 1758; 7103; 11375; 12273;
  8602; 3243; 6536; 7590; 8591; 11552; 6101; 3253; 9969; 9640; 4506; 3736; 6829; 10822; 9130; 9948; 3566; 2133; 3901;
  6038; 7333; 6609; 3468; 4659; 625; 2700; 7738; 3443; 3060; 3388; 3526; 4418; 11911; 6232; 1730; 2558; 10340; 5344;
  5286; 2190; 11562; 6199; 2482; 8756; 5387; 4101; 4609; 8605; 8226; 144; 5656; 8704; 2621; 5424; 10812; 2959; 11346;
  6249; 1715; 4951; 9540; 1888; 3764; 39; 8219; 2080; 2502; 1469; 10550; 8709; 5601; 1093; 3784; 5041; 2058; 8399;
  11448; 9639; 2059; 9878; 7405; 2496; 7918; 11594; 371; 7993; 3073; 10326; 40; 10004; 9245; 7987; 5603; 4051; 7894;
  676; 11380; 7379; 6501; 4981; 2628; 3488; 10956; 7022; 6737; 9933; 7139; 2330; 3884; 5473; 7865; 6941; 5737; 5613;
  9505; 11568; 11277; 2510; 6689; 386; 4462; 105; 2076; 10443; 119; 3955; 4370; 11505; 3672; 11439; 750; 3240; 3133;
  754; 4013; 11929; 9210; 5378; 11881; 11018; 2818; 1851; 4966; 8181; 2688; 6205; 6814; 926; 2936; 4327; 10175; 7089;
  6047; 9410; 10492; 8950; 2472; 6255; 728; 7569; 6056; 10432; 11036; 2452; 2811; 3787; 945; 8998; 1244; 8815; 11017;
  11218; 5894; 4325; 4639; 3819; 9826; 7056; 6786; 8670; 5539; 7707; 1361; 9812; 2949; 11265; 10301; 9108; 478; 6489;
  101; 1911; 9483; 3608; 11997; 10536; 812; 8915; 637; 8159; 5299; 9128; 3512; 8290; 7068; 7922; 3036; 4759; 2163;
  3937; 3755; 11306; 7739; 4922; 11932; 424; 5538; 6228; 11131; 7778; 11974; 1097; 2890; 10027; 2569; 2250; 2352;
  821; 2550; 11016; 7769; 136; 617; 3157; 5889; 9219; 6855; 120; 4405; 1825; 9635; 7214; 10261; 11393; 2441; 9562;
  11176; 599; 2085; 11465; 7233; 6177; 4801; 9926; 9010; 4514; 9455; 11352; 11670; 6174; 7950; 9766; 6896; 11603;
  3213; 8473; 9873; 2835; 10422; 3732; 7961; 1457; 10857; 8069; 832; 1628; 3410; 4900; 10855; 5111; 9543; 6325; 7431;
  4083; 3072; 8847; 9853; 10122; 5259; 11413; 6556; 303; 1465; 3871; 4873; 5813; 10017; 6898; 3311; 5947; 8637; 5852;
  3856; 928; 4933; 8530; 1871; 2184; 5571; 5879; 3481; 11597; 9511; 8153; 35; 2609; 5963; 8064; 1080; 12039; 8444;
  3052; 3813; 11065; 6736; 8454; 2340; 7651; 1910; 10709; 2117; 9637; 6402; 6028; 2124; 7701; 2679; 5183; 6270; 7424;
  2597; 6795; 9222; 10837; 280; 8583; 3270; 6753; 2354; 3779; 6102; 4732; 5926; 2497; 8640; 10289; 6107; 12127; 2958;
  12287; 10292; 8086; 817; 4021; 2610; 1444; 5899; 11720; 3292; 2424; 5090; 7242; 5205; 5281; 9956; 2702; 6656; 735;
  2243; 11656; 833; 3107; 6012; 6801; 1126; 6339; 5250; 10391; 9642; 5278; 3513; 9769; 3025; 779; 9433; 3392; 7437;
  668; 10184; 8111; 6527; 6568; 10831; 6482; 8263; 5711; 9780; 467; 5462; 4425; 11999; 1205; 5015; 6918; 5096; 3827;
  5525; 11579; 3518; 4875; 7388; 1931; 6615; 1541; 8708; 260; 3385; 4792; 4391; 5697; 7895; 2155; 7337; 236; 10635;
  11534; 1906; 4793; 9527; 7239; 8354; 5121; 10662; 2311; 3346; 8556; 707; 1088; 4936; 678; 10245; 18; 5684; 960;
  4459; 7957; 226; 2451; 6; 8874; 320; 6298; 8963; 8735; 2852; 2981; 1707; 5408; 5017; 9876; 9790; 2968; 1899; 6729;
  4183; 5290; 10084; 7679; 7941; 8744; 5694; 3461; 4175; 5747; 5561; 3378; 5227; 952; 4319; 9810; 4356; 3088; 11118;
  840; 6257; 486; 6000; 1342; 10382; 6017; 4798; 5489; 4498; 4193; 2306; 6521; 1475; 6372; 9029; 8037; 1625; 7020;
  4740; 5730; 7956; 6351; 6494; 6917; 11405; 7487; 10202; 10155; 7666; 7556; 11509; 1546; 6571; 10199; 2265; 7327;
  5824; 11396; 11581; 9722; 2251; 11199; 5356; 7408; 2861; 4003; 9215; 484; 7526; 9409; 12235; 6157; 9025; 2121;
  10255; 2519; 9533; 3824; 8674; 11419; 10888; 4762; 11303; 4097; 2414; 6496; 9953; 10554; 808; 2999; 2130; 4286;
  12078; 7445; 5132; 7915; 245; 5974; 4874; 7292; 7560; 10539; 9952; 9075; 2113; 3721; 10285; 10022; 9578; 8934;
  11074; 9498; 294; 4711; 3391; 1377; 9072; 10189; 4569; 10890; 9909; 6923; 53; 4653; 439; 10253; 7028; 10207; 8343;
  1141; 2556; 7601; 8150; 10630; 8648; 9832; 7951; 11245; 2131; 5765; 10343; 9781; 2718; 1419; 4531; 3844; 4066;
  4293; 11657; 11525; 11353; 4313; 4869; 12186; 1611; 10892; 11489; 8833; 2393; 15; 10830; 5003; 17; 565; 5891;
  12177; 11058; 10412; 8885; 3974; 10981; 7130; 5840; 10482; 8338; 6035; 6964; 1574; 10936; 2020; 2465; 8191; 384;
  2642; 2729; 5399; 2175; 9396; 11987; 8035; 4375; 6611; 5010; 11812; 9131; 11427; 104; 6348; 9643; 6757; 12110;
  5617; 10935; 541; 135; 3041; 7200; 6526; 5085; 12136; 842; 4129; 7685; 11079; 8426; 1008; 2725; 11772; 6058; 1101;
  1950; 8424; 5688; 6876; 12005; 10079; 5335; 927; 1770; 273; 8377; 2271; 5225; 10283; 116; 11807; 91; 11699; 757;
  1304; 7524; 6451; 8032; 8154; 7456; 4191; 309; 2318; 2292; 10393; 11639; 9481; 12238; 10594; 9569; 7912; 10368;
  9889; 12244; 7179; 3924; 3188; 367; 2077; 336; 5384; 5631; 8596; 4621; 1775; 8866; 451; 6108; 1317; 6246; 8795;
  5896; 7283; 3132; 11564; 4977; 12161; 7371; 1366; 12130; 10619; 3809; 5149; 6300; 2638; 4197; 1418; 10065; 4156;
  8373; 8644; 10445; 882; 8158; 10173; 9763; 12191; 459; 2966; 3166; 405; 5000; 9311; 6404; 8986; 1551; 8175; 3630;
  10766; 9265; 700; 8573; 9508; 6630; 11437; 11595; 5850; 3950; 4775; 11941; 1446; 6018; 3386; 11470; 5310; 5476;
  553; 9474; 2586; 1431; 2741; 473; 11383; 4745; 836; 4062; 10666; 7727; 11752; 5534; 312; 4307; 4351; 5764; 8679;
  8381; 8187; 5; 7395; 4363; 1152; 5421; 5231; 6473; 436; 7567; 8603; 6229; 8230].

(* d += 12289 & -(d >> 31) *)
Definition fixup (d : Z) : Z := wrap 32 (d + Z.land 12289 (wrap 32 (- Z.shiftr d 31))).
Definition mq_conv_small (x : Z) : Z := fixup (wrap 32 x).
Definition mq_add (x y : Z) : Z := fixup (wrap 32 (wrap 32 (x + y) - 12289)).
Definition mq_sub (x y : Z) : Z := fixup (wrap 32 (x - y)).
Definition mq_rshift1 (x : Z) : Z := Z.shiftr (wrap 32 (x + Z.land 12289 (wrap 32 (- Z.land x 1)))) 1.
Definition mq_montymul (x y : Z) : Z :=
  let z := wrap 32 (x * y) in
  let w := wrap 32 (Z.land (wrap 32 (z * 12287)) 65535 * 12289) in
  let z := Z.shiftr (wrap 32 (z + w)) 16 in
  fixup (wrap 32 (z - 12289)).
Definition mq_montysqr (x : Z) : Z := mq_montymul x x.
Definition mq_div_12289 (x y : Z) : Z :=
  let y0 := mq_montymul y 10952 in
  let y1 := mq_montysqr y0 in
  let y2 := mq_montymul y1 y0 in
  let y3 := mq_montymul y2 y1 in
  let y4 := mq_montysqr y3 in
  let y5 := mq_montysqr y4 in
  let y6 := mq_montysqr y5 in
  let y7 := mq_montysqr y6 in
  let y8 := mq_montysqr y7 in
  let y9 := mq_montymul y8 y2 in
  let y10 := mq_montymul y9 y8 in
  let y11 := mq_montysqr y10 in
  let y12 := mq_montysqr y11 in
  let y13 := mq_montymul y12 y9 in
  let y14 := mq_montysqr y13 in
  let y15 := mq_montysqr y14 in
  let y16 := mq_montymul y15 y10 in
  let y17 := mq_montysqr y16 in
  let y18 := mq_montymul y17 y0 in
  mq_montymul y18 x.

(* u and v of a[j] and a[j + ht] *)
Definition mq_butterfly (s u v : Z) : Z * Z :=
  let v := mq_montymul v s in (wrap 16 (mq_add u v), wrap 16 (mq_sub u v)).
Definition mq_ibutterfly (s u v : Z) : Z * Z :=
  let w := mq_sub u v in (wrap 16 (mq_add u v), wrap 16 (mq_montymul w s)).
(** One level: [blocks] blocks of [2 * h] values, each with the next power of the table from index [i]. *)
Fixpoint level (f : Z → Z → Z → Z * Z) (table : list Z) (blocks i h : nat) (a : list Z) : list Z :=
  match blocks with
  | O => a
  | S blocks =>
      let s := nth i table 0 in
      let uv := zip_with (f s) (take h a) (take h (drop h a)) in
      uv.*1 ++ uv.*2 ++ level f table blocks (S i) h (drop (2 * h) a)
  end.
(* m = 2^l blocks with the powers from index m, t = n / m *)
Definition mq_NTT (a : list Z) (logn : nat) : list Z :=
  fold_left (λ a l, level mq_butterfly GMb (2 ^ l) (2 ^ l) (2 ^ (logn - l - 1)) a) (seq 0 logn) a.
Definition mq_iNTT (a : list Z) (logn : nat) : list Z :=
  let a := fold_left (λ a l, level mq_ibutterfly iGMb (2 ^ (logn - l - 1)) (2 ^ (logn - l - 1)) (2 ^ l) a) (seq 0 logn) a in
  let ni := Nat.iter logn mq_rshift1 4091 in
  map (λ x, wrap 16 (mq_montymul x ni)) a.
Definition mq_poly_tomonty (f : list Z) : list Z := map (λ x, wrap 16 (mq_montymul x 10952)) f.
Definition mq_poly_montymul_ntt (f g : list Z) : list Z := zip_with (λ x y, wrap 16 (mq_montymul x y)) f g.
Definition mq_poly_sub (f g : list Z) : list Z := zip_with (λ x y, wrap 16 (mq_sub x y)) f g.
Definition to_ntt_monty (h : list Z) (logn : nat) : list Z := mq_poly_tomonty (mq_NTT h logn).

(** ** Arithmetic *)

Definition feqm (a b : Z) : Prop := a mod 12289 = b mod 12289.
Infix "≡f" := feqm (at level 70, no associativity) : orion_scope.
#[export] Instance feqm_dec a b : Decision (a ≡f b).
Proof. unfold feqm. apply _. Defined.
#[export] Instance feqm_equiv : Equivalence feqm.
Proof. exact (eqm_setoid 12289). Qed.
#[export] Instance feqm_add : Proper (feqm ==> feqm ==> feqm) Z.add.
Proof. exact (Zplus_eqm 12289). Qed.
#[export] Instance feqm_sub : Proper (feqm ==> feqm ==> feqm) Z.sub.
Proof. exact (Zminus_eqm 12289). Qed.
#[export] Instance feqm_mul : Proper (feqm ==> feqm ==> feqm) Z.mul.
Proof. exact (Zmult_eqm 12289). Qed.
#[export] Instance feqm_opp : Proper (feqm ==> feqm) Z.opp.
Proof. exact (Zopp_eqm 12289). Qed.
#[global] Typeclasses Opaque feqm.

Definition residue (x : Z) : Prop := 0 ≤ x < 12289.
(* the inverse of R *)
Notation radix' := 2304.

Lemma feqm_mod a : a mod 12289 ≡f a.
Proof. exact (Zmod_eqm 12289 a). Qed.
Lemma feqm_eq a b : a = b → a ≡f b.
Proof. by intros ->. Qed.
Lemma feqm_shift a k : a + k * 12289 ≡f a.
Proof. unfold feqm. apply Z.mod_add. lia. Qed.
Lemma feqm_small a b : residue a → residue b → a ≡f b → a = b.
Proof. unfold feqm. intros Ha Hb E. by rewrite !Z.mod_small in E. Qed.
Lemma residue_mod a : residue (a mod 12289).
Proof. apply Z.mod_pos_bound. lia. Qed.
Lemma residue_wrap x : residue x → wrap 16 x = x.
Proof. intros Hx. apply Z.mod_small. unfold residue in Hx. lia. Qed.
#[export] Hint Resolve residue_mod : core.

Lemma fixup_spec x : -12289 ≤ x < 12289 → fixup (wrap 32 x) = x mod 12289.
Proof.
  intros Hx. unfold fixup. rewrite Z.shiftr_div_pow2 by lia. destruct (decide (x < 0)) as [Hn|Hn].
  - assert (wrap 32 x = x + 2 ^ 32) as -> by (symmetry; apply Z.mod_unique with (-1); lia).
    assert ((x + 2 ^ 32) / 2 ^ 31 = 1) as -> by (symmetry; apply Z.div_unique with (x + 2 ^ 31); lia).
    change (Z.land 12289 (wrap 32 (Z.opp 1))) with 12289. transitivity (x + 12289).
    + symmetry. apply Z.mod_unique with 1; lia.
    + apply Z.mod_unique with (-1); lia.
  - assert (wrap 32 x = x) as -> by (apply Z.mod_small; lia). rewrite Z.div_small by lia.
    change (Z.land 12289 (wrap 32 (Z.opp 0))) with 0. rewrite Z.add_0_r. unfold wrap. rewrite !Z.mod_small; lia.
Qed.
Lemma wrap32_sub a b : wrap 32 (wrap 32 a - b) = wrap 32 (a - b).
Proof. unfold wrap. by rewrite Zminus_mod_idemp_l. Qed.
Lemma mq_conv_small_spec x : -12289 ≤ x < 12289 → mq_conv_small x = x mod 12289.
Proof. apply fixup_spec. Qed.
Lemma mq_add_spec x y : residue x → residue y → mq_add x y = (x + y) mod 12289.
Proof.
  intros Hx Hy. unfold mq_add, residue in *. rewrite wrap32_sub, fixup_spec by lia.
  apply (Z.mod_add (x + y) (-1)). lia.
Qed.
Lemma mq_sub_spec x y : residue x → residue y → mq_sub x y = (x - y) mod 12289.
Proof. intros Hx Hy. unfold mq_sub, residue in *. apply fixup_spec. lia. Qed.
Lemma mq_montymul_spec x y : residue x → residue y → mq_montymul x y = (x * y * radix') mod 12289.
Proof.
  intros Hx Hy. unfold mq_montymul, residue in *. assert (0 ≤ x * y ≤ 12288 * 12288) as Hz by nia. set (z := x * y) in *. clearbody z.
  assert (wrap 32 z = z) as -> by (apply Z.mod_small; lia). cbn zeta.
  change 65535 with (2 ^ 16 - 1). rewrite land_ones_mod by lia. assert (wrap 32 (z * 12287) mod 2 ^ 16 = (z * 12287) mod 2 ^ 16) as ->.
  { symmetry. apply Znumtheory.Zmod_div_mod; [lia|lia|]. by exists (2 ^ 16). }
  set (w := (z * 12287) mod 2 ^ 16). pose proof (Z.mod_pos_bound (z * 12287) (2 ^ 16) ltac:(lia)) as Hw. fold w in Hw.
  assert (wrap 32 (w * 12289) = w * 12289) as -> by (apply Z.mod_small; lia).
  assert (wrap 32 (z + w * 12289) = z + w * 12289) as -> by (apply Z.mod_small; lia).
  pose proof (Z.div_mod (z * 12287) (2 ^ 16) ltac:(lia)) as Hd. fold w in Hd. set (e := z * 12287 / 2 ^ 16) in *.
  set (k := z * 2304 - e * 12289). assert (z + w * 12289 = k * 2 ^ 16) as Hk by (unfold k; lia).
  rewrite Hk, Z.shiftr_div_pow2, Z.div_mul, fixup_spec by lia. unfold k.
  replace (z * 2304 - e * 12289 - 12289) with (z * 2304 + (- e - 1) * 12289) by lia. apply Z.mod_add. lia.
Qed.
Lemma mq_rshift1_spec x : residue x → residue (mq_rshift1 x) ∧ 2 * mq_rshift1 x ≡f x.
Proof.
  unfold residue, mq_rshift1. intros Hx. assert (Z.land x 1 = x mod 2) as -> by (exact (Z.land_ones x 1 ltac:(done))).
  rewrite Z.shiftr_div_pow2 by lia. change (2 ^ 1) with 2. pose proof (Z.div_mod x 2 ltac:(lia)). pose proof (Z.mod_pos_bound x 2 ltac:(lia)).
  assert (x mod 2 = 0 ∨ x mod 2 = 1) as [E|E] by lia; rewrite E.
  - change (Z.land 12289 (wrap 32 (Z.opp 0))) with 0. unfold wrap. rewrite Z.add_0_r, Z.mod_small by lia. split; [lia|]. apply feqm_eq. lia.
  - change (Z.land 12289 (wrap 32 (Z.opp 1))) with 12289. unfold wrap. rewrite Z.mod_small by lia.
    assert ((x + 12289) / 2 = x / 2 + 6145) as -> by (symmetry; apply Z.div_unique with 0; lia). split; [lia|].
    transitivity (x + 1 * 12289); [apply feqm_eq; lia|apply feqm_shift].
Qed.
Lemma mq_montymul_residue x y : residue x → residue y → residue (mq_montymul x y).
Proof. intros. rewrite mq_montymul_spec by done. auto. Qed.

(** ** Inverses: Fermat's little theorem *)

Section fermat.
Context (p : Z) (Hp : Znumtheory.prime p).
Definition units : list Z := seqZ 1 (p - 1).
Definition product (l : list Z) : Z := foldr Z.mul 1 l.

Lemma units_spec x : x ∈ units ↔ 1 ≤ x < p.
Proof. unfold units. rewrite elem_of_seqZ. lia. Qed.
Lemma units_not_divisible x : 1 ≤ x < p → ¬ (p | x).
Proof. intros Hx Hd%Z.divide_pos_le; lia. Qed.
Lemma product_perm l k : l ≡ₚ k → product l = product k.
Proof. induction 1 as [|x l k _ IH|x y l|l m k _ IH1 _ IH2]; simpl; [done|by rewrite IH|lia|congruence]. Qed.
Lemma units_times a : ¬ (p | a) → map (λ x, (a * x) mod p) units ≡ₚ units.
Proof.
  intros Ha. assert (1 < p) as H1 by apply Hp. apply submseteq_length_Permutation; [|by rewrite length_map].
  apply NoDup_submseteq.
  - apply NoDup_fmap_2_strong; [|apply NoDup_seqZ]. intros x y Hx%units_spec Hy%units_spec E.
    assert (p | a * (x - y)) as Hd.
    { apply Z.mod_divide; [lia|]. rewrite Z.mul_sub_distr_l, Zminus_mod, E, Z.sub_diag. apply Z.mod_0_l. lia. }
    apply Znumtheory.prime_mult in Hd as [Hd|[k Hd]]; [done| |done]. assert (k = 0) as -> by nia. lia.
  - intros x (y & -> & Hy%units_spec)%list_elem_of_fmap. apply units_spec.
    pose proof (Z.mod_pos_bound (a * y) p ltac:(lia)). enough ((a * y) mod p ≠ 0) by lia. intros Hd%Z.mod_divide; [|lia].
    apply Znumtheory.prime_mult in Hd as [Hd|Hd]; [done|by apply (units_not_divisible y)|done].
Qed.
Lemma product_times a l : product (map (λ x, (a * x) mod p) l) mod p = (a ^ Z.of_nat (length l) * product l) mod p.
Proof.
  induction l as [|x l IH]; [done|]. cbn [map product foldr length]. fold (product l) (product (map (λ x, (a * x) mod p) l)).
  rewrite Z.mul_mod_idemp_l, <-Z.mul_mod_idemp_r, IH, Z.mul_mod_idemp_r by (destruct Hp; lia).
  rewrite Nat2Z.inj_succ, Z.pow_succ_r by lia. f_equal. lia.
Qed.
Lemma product_units l : Forall (λ x, ¬ (p | x)) l → ¬ (p | product l).
Proof.
  assert (1 < p) by apply Hp. induction 1 as [|x l Hx _ IH]; simpl; [by intros Hd%Z.divide_pos_le; lia|].
  by intros [Hd|Hd]%Znumtheory.prime_mult.
Qed.
Lemma fermat a : ¬ (p | a) → a ^ (p - 1) mod p = 1.
Proof.
  intros Ha. assert (1 < p) as H1 by apply Hp. pose proof (product_times a units) as E.
  rewrite (product_perm _ _ (units_times a Ha)) in E. assert (Z.of_nat (length units) = p - 1) as El by (unfold units; rewrite length_seqZ; lia).
  rewrite El in E. assert (p | (a ^ (p - 1) - 1) * product units) as Hd.
  { apply Z.mod_divide; [lia|]. rewrite Z.mul_sub_distr_r, Z.mul_1_l, Zminus_mod, <-E, Z.sub_diag. apply Z.mod_0_l. lia. }
  apply Znumtheory.prime_mult in Hd as [[k Hd]|Hd]; [|exfalso|done].
  - replace (a ^ (p - 1)) with (1 + k * p) by lia. rewrite Z.mod_add, Z.mod_small; lia.
  - revert Hd. apply product_units. apply Forall_forall. intros x Hx%units_spec. by apply units_not_divisible.
Qed.
End fermat.

Lemma prime_12289 : Znumtheory.prime 12289.
Proof.
  apply Znumtheory.prime_alt. split; [lia|]. intros n Hn Hd.
  assert (∀ d, 2 ≤ d ≤ 110 → ¬ (d | 12289)) as Hs.
  { intros d Hd' Hdiv. assert (Forall (λ d, 12289 mod d ≠ 0) (seqZ 2 109)) as Hall by decided.
    rewrite Forall_forall in Hall. apply (Hall d); [apply elem_of_seqZ; lia|]. apply Z.mod_divide; [lia|done]. }
  destruct (decide (n ≤ 110)); [apply (Hs n); [lia|done]|]. destruct Hd as [k Hk]. apply (Hs k); [nia|]. exists n. lia.
Qed.
Lemma residue_fermat y : residue y → y ≠ 0 → y ^ 12288 ≡f 1.
Proof.
  intros Hy H0. apply (fermat 12289 prime_12289). unfold residue in Hy. intros Hd%Z.divide_pos_le; lia.
Qed.

Section division.
Context (y : Z) (Hy : residue y).
(* v is y to the e, in Montgomery form *)
Definition power_form (e : nat) (v : Z) : Prop := residue v ∧ v ≡f y ^ Z.of_nat e * 65536.
Lemma power_mul a b u v : power_form a u → power_form b v → power_form (a + b) (mq_montymul u v).
Proof.
  intros [Hu Eu] [Hv Ev]. split; [by apply mq_montymul_residue|].
  rewrite mq_montymul_spec, feqm_mod, Eu, Ev, Nat2Z.inj_add, Z.pow_add_r by (done || lia).
  transitivity (y ^ Z.of_nat a * y ^ Z.of_nat b * (65536 * (65536 * radix'))); [apply feqm_eq; ring|].
  assert (65536 * (65536 * radix') ≡f 65536) as -> by done. done.
Qed.
Lemma power_sqr a u : power_form a u → power_form (a + a) (mq_montysqr u).
Proof. intros Hu. exact (power_mul a a u u Hu Hu). Qed.
Lemma power_one : power_form 1 (mq_montymul y 10952).
Proof.
  split; [by apply mq_montymul_residue|]. rewrite mq_montymul_spec, feqm_mod, Z.pow_1_r, <-Z.mul_assoc by done.
  assert (10952 * radix' ≡f 65536) as -> by done. done.
Qed.

(** The chain of products raises to the power 12287: a quotient modulo 12289. *)
Lemma mq_div_12289_spec x : residue x →
  residue (mq_div_12289 x y) ∧ mq_div_12289 x y ≡f x * y ^ 12287.
Proof.
  intros Hx. unfold mq_div_12289.
  pose proof power_one as H0. set (y0 := mq_montymul y 10952) in *. pose proof (power_sqr _ _ H0) as H1. set (y1 := mq_montysqr y0) in *.
  pose proof (power_mul _ _ _ _ H1 H0) as H2. set (y2 := mq_montymul y1 y0) in *.
  pose proof (power_mul _ _ _ _ H2 H1) as H3. set (y3 := mq_montymul y2 y1) in *.
  pose proof (power_sqr _ _ (power_sqr _ _ (power_sqr _ _ (power_sqr _ _ (power_sqr _ _ H3))))) as H8. set (y8 := mq_montysqr (mq_montysqr _)) in *.
  pose proof (power_mul _ _ _ _ H8 H2) as H9. set (y9 := mq_montymul y8 y2) in *.
  pose proof (power_mul _ _ _ _ H9 H8) as H10. set (y10 := mq_montymul y9 y8) in *.
  pose proof (power_mul _ _ _ _ (power_sqr _ _ (power_sqr _ _ H10)) H9) as H13. set (y13 := mq_montymul _ y9) in *.
  pose proof (power_mul _ _ _ _ (power_sqr _ _ (power_sqr _ _ H13)) H10) as H16. set (y16 := mq_montymul _ y10) in *.
  pose proof (power_mul _ _ _ _ (power_sqr _ _ H16) H0) as [H18 E18]. cbn zeta. set (y18 := mq_montymul _ y0) in *.
  split; [by apply mq_montymul_residue|]. rewrite mq_montymul_spec, feqm_mod, E18 by done.
  match goal with |- context[y ^ Z.of_nat ?n] => change (Z.of_nat n) with 12287 end.
  transitivity (x * y ^ 12287 * (65536 * radix')); [apply feqm_eq; ring|].
  assert (65536 * radix' ≡f 1) as -> by done. apply feqm_eq. ring.
Qed.
Lemma mq_div_12289_cancel x : residue x → y ≠ 0 → mq_div_12289 x y * y ≡f x.
Proof.
  intros Hx H0. destruct (mq_div_12289_spec x Hx) as [_ ->]. transitivity (x * y ^ 12288).
  - apply feqm_eq. change 12288 with (Z.succ 12287). rewrite Z.pow_succ_r by lia. ring.
  - rewrite residue_fermat by done. apply feqm_eq. ring.
Qed.
End division.

(** ** The transforms as recursions on blocks *)

Section blocks.
Context (f : Z → Z → Z → Z * Z) (table : list Z).
Notation lev := (level f table).
(* all levels of a row of blocks, outer blocks first and inner blocks first *)
Fixpoint passes (d i blocks : nat) (a : list Z) : list Z :=
  match d with O => a | S d => passes d (2 * i) (2 * blocks) (lev blocks i (2 ^ d) a) end.
Fixpoint ipasses (d i blocks : nat) (a : list Z) : list Z :=
  match d with O => a | S d => lev blocks i (2 ^ d) (ipasses d (2 * i) (2 * blocks) a) end.
(* one block *)
Definition split_block (i h : nat) (a : list Z) : list Z * list Z :=
  let uv := zip_with (f (nth i table 0)) (take h a) (take h (drop h a)) in (uv.*1, uv.*2).

Lemma split_block_length i h a : length a = (2 * h)%nat → length (split_block i h a).1 = h ∧ length (split_block i h a).2 = h.
Proof. intros Hl. unfold split_block. cbn [fst snd]. rewrite !length_fmap, length_zip_with, !length_take, length_drop. lia. Qed.
Lemma level_one i h a : length a = (2 * h)%nat → lev 1 i h a = (split_block i h a).1 ++ (split_block i h a).2.
Proof. intros Hl. cbn [level]. rewrite (drop_ge a (2 * h)), app_nil_r by lia. done. Qed.
Lemma level_app n1 n2 i h a b : length a = (n1 * (2 * h))%nat →
  lev (n1 + n2) i h (a ++ b) = lev n1 i h a ++ lev n2 (i + n1) h b.
Proof.
  revert i a. induction n1 as [|n1 IH]; intros i a Hl.
  { destruct a; [|done]. cbn [Nat.add level app]. by rewrite Nat.add_0_r. }
  assert (2 * h ≤ length a)%nat by nia. cbn [Nat.add level]. rewrite <-!app_assoc, !(drop_app_le a) by lia.
  rewrite !(take_app_le) by (rewrite ?length_drop; lia). do 2 f_equal.
  rewrite IH by (rewrite length_drop; nia). f_equal. f_equal. lia.
Qed.
Lemma level_length n i h a : length a = (n * (2 * h))%nat → length (lev n i h a) = length a.
Proof.
  revert i a. induction n as [|n IH]; intros i a Hl; [done|]. cbn [level].
  assert (2 * h ≤ length a)%nat by nia. rewrite !length_app, IH by (rewrite length_drop; nia).
  rewrite !length_fmap, length_zip_with, !length_take, !length_drop. lia.
Qed.
Lemma passes_app d : ∀ i n1 n2 a b, length a = (n1 * 2 ^ d)%nat →
  passes d i (n1 + n2) (a ++ b) = passes d i n1 a ++ passes d (i + n1) n2 b.
Proof.
  induction d as [|d IH]; intros i n1 n2 a b Hl; [done|]. cbn [passes]. rewrite Nat.pow_succ_r' in Hl.
  rewrite level_app by lia. replace (2 * (n1 + n2))%nat with (2 * n1 + 2 * n2)%nat by lia. rewrite IH by (rewrite level_length; lia).
  f_equal. f_equal. lia.
Qed.
Lemma ipasses_length d : ∀ i n a, length a = (n * 2 ^ d)%nat → length (ipasses d i n a) = length a.
Proof.
  induction d as [|d IH]; intros i n a Hl; [done|]. cbn [ipasses]. rewrite Nat.pow_succ_r' in Hl.
  assert (length (ipasses d (2 * i) (2 * n) a) = length a) as E by (apply IH; lia). rewrite level_length; lia.
Qed.
Lemma ipasses_app d : ∀ i n1 n2 a b, length a = (n1 * 2 ^ d)%nat →
  ipasses d i (n1 + n2) (a ++ b) = ipasses d i n1 a ++ ipasses d (i + n1) n2 b.
Proof.
  induction d as [|d IH]; intros i n1 n2 a b Hl; [done|]. cbn [ipasses]. rewrite Nat.pow_succ_r' in Hl.
  replace (2 * (n1 + n2))%nat with (2 * n1 + 2 * n2)%nat by lia. rewrite IH by lia. rewrite level_app by (rewrite ipasses_length; lia).
  f_equal. f_equal. f_equal. lia.
Qed.

(** A block is transformed by splitting it in two. *)
Lemma passes_S d i a : length a = (2 ^ S d)%nat → let uv := split_block i (2 ^ d) a in
  passes (S d) i 1 a = passes d (2 * i) 1 uv.1 ++ passes d (2 * i + 1) 1 uv.2.
Proof.
  intros Hl. cbn [passes]. rewrite Nat.pow_succ_r' in Hl. rewrite level_one by done.
  destruct (split_block_length i (2 ^ d) a Hl) as [H1 H2]. change (2 * 1)%nat with (1 + 1)%nat. apply passes_app. lia.
Qed.
Lemma ipasses_S d i a b : length a = (2 ^ d)%nat → length b = (2 ^ d)%nat →
  ipasses (S d) i 1 (a ++ b) =
    let uv := split_block i (2 ^ d) (ipasses d (2 * i) 1 a ++ ipasses d (2 * i + 1) 1 b) in uv.1 ++ uv.2.
Proof.
  intros Ha Hb. cbn [ipasses]. change (2 * 1)%nat with (1 + 1)%nat. rewrite ipasses_app by lia. apply level_one.
  rewrite length_app, !ipasses_length; lia.
Qed.

Lemma passes_fold l d a : fold_left (λ a k, lev (2 ^ k) (2 ^ k) (2 ^ (l + d - k - 1)) a) (seq l d) a = passes d (2 ^ l) (2 ^ l) a.
Proof.
  revert l a. induction d as [|d IH]; intros l a; [done|]. cbn [seq fold_left passes].
  rewrite <-!Nat.pow_succ_r', <-IH. replace (l + S d - l - 1)%nat with d by lia.
  replace (l + S d)%nat with (S l + d)%nat by lia. done.
Qed.
Lemma ipasses_fold l d a :
  fold_left (λ a k, lev (2 ^ (l + d - k - 1)) (2 ^ (l + d - k - 1)) (2 ^ k) a) (seq 0 d) a = ipasses d (2 ^ l) (2 ^ l) a.
Proof.
  revert l a. induction d as [|d IH]; intros l a; [done|]. rewrite seq_S, fold_left_app. cbn [fold_left ipasses Nat.add].
  rewrite <-!Nat.pow_succ_r', <-IH. replace (l + S d - d - 1)%nat with l by lia. f_equal.
  replace (l + S d)%nat with (S l + d)%nat by lia. done.
Qed.
End blocks.

(** ** What the levels compute *)

Fixpoint eval_at (r : Z) (a : list Z) : Z := match a with [] => 0 | x :: a => x + r * eval_at r a end.
Lemma eval_at_app r a b : eval_at r (a ++ b) = eval_at r a + r ^ Z.of_nat (length a) * eval_at r b.
Proof.
  induction a as [|x a IH]; cbn [app eval_at length].
  - change (r ^ Z.of_nat 0) with 1. lia.
  - rewrite IH, Nat2Z.inj_succ, Z.pow_succ_r by lia. ring.
Qed.
(* coefficient by coefficient *)
Lemma eval_at_zip r g a b c : length a = length b → (∀ x y, x ∈ a → y ∈ b → g x y ≡f x + c * y) →
  eval_at r (zip_with g a b) ≡f eval_at r a + c * eval_at r b.
Proof.
  revert b. induction a as [|x a IH]; intros [|y b] Hl Hg; try done; cbn [zip_with eval_at]; [apply feqm_eq; lia|].
  rewrite (Hg x y), (IH b) by (constructor || (by injection Hl) || (intros; apply Hg; by right)). apply feqm_eq. ring.
Qed.

(* the powers without the Montgomery factor; the point at which a block is evaluated *)
Definition power (i : nat) : Z := nth i GMb 0 * radix'.
Definition root (i : nat) : Z := if decide (i = 1)%nat then -1 else if Nat.even i then power (i / 2) else - power (i / 2).

Lemma powers_residue i : residue (nth i GMb 0) ∧ residue (nth i iGMb 0).
Proof.
  assert (Forall residue GMb ∧ Forall residue iGMb) as [HG HI].
  { assert (Forall (λ x, 0 ≤ x < 12289) GMb ∧ Forall (λ x, 0 ≤ x < 12289) iGMb) by decided. done. }
  rewrite Forall_forall in HG, HI. split.
  - destruct (nth_in_or_default i GMb 0) as [H| ->]; [by apply HG, list_elem_of_In|done].
  - destruct (nth_in_or_default i iGMb 0) as [H| ->]; [by apply HI, list_elem_of_In|done].
Qed.
Lemma power_sqr_root i : (1 ≤ i < 1024)%nat → power i * power i ≡f root i.
Proof.
  intros Hi. assert (Forall (λ i, power i * power i ≡f root i) (seq 1 1023)) as H by decided.
  rewrite Forall_forall in H. apply H, elem_of_seq. lia.
Qed.
Lemma power_inverse i : (1 ≤ i < 1024)%nat → power i * (nth i iGMb 0 * radix') ≡f 1.
Proof.
  intros Hi. assert (Forall (λ i, power i * (nth i iGMb 0 * radix') ≡f 1) (seq 1 1023)) as H by decided.
  rewrite Forall_forall in H. apply H, elem_of_seq. lia.
Qed.
Lemma root_even i : (0 < i)%nat → root (2 * i) = power i.
Proof.
  intros Hi. unfold root. rewrite decide_False by lia. rewrite (Nat.even_mul 2 i). cbn [Nat.even orb].
  f_equal. rewrite Nat.mul_comm. by apply Nat.div_mul.
Qed.
Lemma root_odd i : (0 < i)%nat → root (2 * i + 1) = - power i.
Proof.
  intros Hi. unfold root. rewrite decide_False by lia. rewrite Nat.even_add, (Nat.even_mul 2 i). cbn [Nat.even orb eqb].
  do 2 f_equal. symmetry. apply Nat.div_unique with 1%nat; lia.
Qed.
Lemma root_pow d : ∀ i k, (1 ≤ i)%nat → ((i + 1) * 2 ^ d ≤ 2048)%nat → (k < 2 ^ d)%nat → root (i * 2 ^ d + k) ^ Z.of_nat (2 ^ d) ≡f root i.
Proof.
  induction d as [|d IH]; intros i k Hi Hd Hk.
  - simpl in Hk. assert (k = 0%nat) as -> by lia. change (Z.of_nat (2 ^ 0)) with 1. rewrite Z.pow_1_r. simpl. apply feqm_eq. f_equal. lia.
  - rewrite Nat.pow_succ_r' in *. set (D := (2 ^ d)%nat) in *. assert (0 < D)%nat by apply pow2_pos.
    replace (Z.of_nat (2 * D)) with (Z.of_nat D + Z.of_nat D) by lia. rewrite Z.pow_add_r by lia. rewrite <-(power_sqr_root i) by nia.
    destruct (decide (k < D)%nat).
    + replace (i * (2 * D) + k)%nat with (2 * i * D + k)%nat by lia. rewrite (IH (2 * i)%nat k), root_even by nia. done.
    + replace (i * (2 * D) + k)%nat with ((2 * i + 1) * D + (k - D))%nat by lia.
      rewrite (IH (2 * i + 1)%nat (k - D)%nat), root_odd by nia. apply feqm_eq. ring.
Qed.

Lemma mq_butterfly_spec i u v : residue u → residue v →
  mq_butterfly (nth i GMb 0) u v = ((u + power i * v) mod 12289, (u - power i * v) mod 12289).
Proof.
  intros Hu Hv. destruct (powers_residue i) as [Hs _]. unfold mq_butterfly, power. cbn zeta.
  rewrite mq_montymul_spec, mq_add_spec, mq_sub_spec, !residue_wrap, Zplus_mod_idemp_r, Zminus_mod_idemp_r by auto.
  do 2 f_equal; ring.
Qed.
Lemma mq_ibutterfly_spec i u v : residue u → residue v →
  mq_ibutterfly (nth i iGMb 0) u v = ((u + v) mod 12289, (u - v) * (nth i iGMb 0 * radix') mod 12289).
Proof.
  intros Hu Hv. destruct (powers_residue i) as [_ Hs]. unfold mq_ibutterfly. cbn zeta.
  rewrite mq_sub_spec, mq_add_spec, mq_montymul_spec, !residue_wrap by auto. f_equal.
  rewrite <-Z.mul_assoc, Z.mul_mod_idemp_l by lia. done.
Qed.

(* halves of a block *)
Lemma halves {A} h (a : list A) : length a = (2 * h)%nat → ∃ l r, a = l ++ r ∧ length l = h ∧ length r = h.
Proof. intros Hl. exists (take h a), (drop h a). rewrite take_drop, length_take, length_drop. split; [done|lia]. Qed.
Lemma split_block_app f table i h l r : length l = h → length r = h →
  split_block f table i h (l ++ r) = ((zip_with (f (nth i table 0)) l r).*1, (zip_with (f (nth i table 0)) l r).*2).
Proof.
  intros Hl Hr. unfold split_block. rewrite take_app_le, drop_app_le by lia. subst h. rewrite firstn_all, drop_all. cbn [app].
  by rewrite <-Hr, firstn_all.
Qed.
Lemma fmap_zip_with_ext {A B C D} (f : A → B → C) (p : C → D) (g : A → B → D) l r :
  (∀ x y, x ∈ l → y ∈ r → p (f x y) = g x y) → p <$> zip_with f l r = zip_with g l r.
Proof.
  revert r. induction l as [|x l IH]; intros [|y r] H; try done. cbn. f_equal; [apply H; constructor|].
  apply IH. intros. apply H; by right.
Qed.
(* the two halves of the forward transform, and of the inverse *)
Definition upper (c : Z) (x y : Z) : Z := (x + c * y) mod 12289.
Lemma forward_block i h l r : Forall residue l → Forall residue r → length l = h → length r = h →
  split_block mq_butterfly GMb i h (l ++ r) = (zip_with (upper (power i)) l r, zip_with (upper (- power i)) l r).
Proof.
  intros Hl Hr El Er. rewrite Forall_forall in Hl, Hr. rewrite split_block_app by done.
  f_equal; apply fmap_zip_with_ext; intros x y Hx%Hl Hy%Hr; rewrite mq_butterfly_spec by done; [done|].
  cbn [snd]. unfold upper. f_equal. ring.
Qed.
Lemma inverse_block i h u v : Forall residue u → Forall residue v → length u = h → length v = h →
  split_block mq_ibutterfly iGMb i h (u ++ v) =
    (zip_with (upper 1) u v, zip_with (λ x y, (x - y) * (nth i iGMb 0 * radix') mod 12289) u v).
Proof.
  intros Hu Hv Eu Ev. rewrite Forall_forall in Hu, Hv. rewrite split_block_app by done.
  f_equal; apply fmap_zip_with_ext; intros x y Hx%Hu Hy%Hv; rewrite mq_ibutterfly_spec by done; [|done].
  cbn [fst]. unfold upper. f_equal. ring.
Qed.
Lemma zip_with_residue (g : Z → Z → Z) (l r : list Z) : (∀ x y, residue (g x y)) → Forall residue (zip_with g l r).
Proof. intros Hg. revert r. induction l as [|x l IH]; intros [|y r]; by constructor. Qed.
Lemma upper_residue c x y : residue (upper c x y).
Proof. apply residue_mod. Qed.
#[export] Hint Resolve upper_residue zip_with_residue : core.

(** A block of coefficients becomes the values at the roots below it. *)
Lemma passes_evals d : ∀ i a, (1 ≤ i)%nat → ((i + 1) * 2 ^ d ≤ 2048)%nat → Forall residue a → length a = (2 ^ d)%nat →
  passes mq_butterfly GMb d i 1 a = map (λ k, eval_at (root (i * 2 ^ d + k)) a mod 12289) (seq 0 (2 ^ d)).
Proof.
  induction d as [|d IH]; intros i a Hi Hd Ha Hl.
  { destruct a as [|x [|]]; try done. apply Forall_cons in Ha as [Hx _]. cbn [passes Nat.pow seq map eval_at]. do 2 f_equal.
    rewrite Z.mul_0_r, Z.add_0_r. symmetry. exact (Z.mod_small _ _ Hx). }
  rewrite passes_S by done. cbn zeta. assert (0 < 2 ^ d)%nat by apply pow2_pos. rewrite Nat.pow_succ_r' in Hl, Hd |- *.
  destruct (halves _ _ Hl) as (l & r & -> & El & Er). apply Forall_app in Ha as [Hal Har].
  rewrite forward_block by done. cbn [fst snd].
  rewrite (IH (2 * i)%nat), (IH (2 * i + 1)%nat) by (nia || auto || (rewrite length_zip_with; lia)).
  replace (2 * 2 ^ d)%nat with (2 ^ d + 2 ^ d)%nat by lia. rewrite seq_app, map_app. f_equal.
  - apply map_ext_in. intros k Hk%in_seq. change (eval_at (root (2 * i * 2 ^ d + k)) (zip_with (upper (power i)) l r) ≡f
      eval_at (root (i * (2 ^ d + 2 ^ d) + k)) (l ++ r)).
    rewrite (eval_at_zip _ _ _ _ (power i)), eval_at_app, El by (congruence || (intros; apply feqm_mod)).
    replace (i * (2 ^ d + 2 ^ d) + k)%nat with (2 * i * 2 ^ d + k)%nat by lia. by rewrite (root_pow d (2 * i)), root_even by nia.
  - cbn [Nat.add]. assert (seq (2 ^ d) (2 ^ d) = map (Nat.add (2 ^ d)) (seq 0 (2 ^ d))) as ->
      by (etransitivity; [|symmetry; apply fmap_add_seq]; by rewrite Nat.add_0_r). rewrite map_map. apply map_ext_in. intros k Hk%in_seq.
    change (eval_at (root ((2 * i + 1) * 2 ^ d + k)) (zip_with (upper (- power i)) l r) ≡f
      eval_at (root (i * (2 ^ d + 2 ^ d) + (2 ^ d + k))) (l ++ r)).
    rewrite (eval_at_zip _ _ _ _ (- power i)), eval_at_app, El by (congruence || (intros; apply feqm_mod)).
    replace (i * (2 ^ d + 2 ^ d) + (2 ^ d + k))%nat with ((2 * i + 1) * 2 ^ d + k)%nat by lia. by rewrite (root_pow d (2 * i + 1)), root_odd by nia.
Qed.

(** ** The inverse *)

Definition scale (c : Z) (a : list Z) : list Z := map (λ x, (c * x) mod 12289) a.
Lemma scale_app c a b : scale c (a ++ b) = scale c a ++ scale c b.
Proof. apply map_app. Qed.
Lemma scale_length c a : length (scale c a) = length a.
Proof. apply length_map. Qed.
Lemma scale_residue c a : Forall residue (scale c a).
Proof. induction a as [|x a IH]; constructor; [apply residue_mod|done]. Qed.
#[export] Hint Resolve scale_residue : core.
Lemma scale_scale c e a : scale c (scale e a) = scale (c * e) a.
Proof.
  unfold scale. rewrite map_map. apply map_ext. intros x. change (c * ((e * x) mod 12289) ≡f c * e * x).
  rewrite feqm_mod. apply feqm_eq. ring.
Qed.
Lemma scale_feqm c e a : c ≡f e → scale c a = scale e a.
Proof. intros E. apply map_ext. intros x. change (c * x ≡f e * x). by rewrite E. Qed.
Lemma scale_one a : Forall residue a → scale 1 a = a.
Proof. induction 1 as [|x a Hx Ha IH]; [done|]. cbn. rewrite Z.mul_1_l, Z.mod_small by done. by f_equal. Qed.
Lemma scale_zip c (g : Z → Z → Z) l r : scale c (zip_with g l r) = zip_with (λ x y, (c * g x y) mod 12289) l r.
Proof. by apply fmap_zip_with_ext. Qed.
(* pairs to pairs and back to one of the two *)
Lemma zip_zip_l (G f g : Z → Z → Z) (h : Z → Z) l r : length l = length r → (∀ x y, G (f x y) (g x y) = h x) →
  zip_with G (zip_with f l r) (zip_with g l r) = map h l.
Proof. intros Hl HG. revert r Hl. induction l as [|x l IH]; intros [|y r] Hl; try done. cbn. rewrite HG. f_equal. apply IH. by injection Hl. Qed.
Lemma zip_zip_r (G f g : Z → Z → Z) (h : Z → Z) l r : length l = length r → (∀ x y, G (f x y) (g x y) = h y) →
  zip_with G (zip_with f l r) (zip_with g l r) = map h r.
Proof. intros Hl HG. revert r Hl. induction l as [|x l IH]; intros [|y r] Hl; try done. cbn. rewrite HG. f_equal. apply IH. by injection Hl. Qed.

Lemma inverse_forward i h c l r : (1 ≤ i < 1024)%nat → length l = h → length r = h →
  split_block mq_ibutterfly iGMb i h
    (scale c (zip_with (upper (power i)) l r) ++ scale c (zip_with (upper (- power i)) l r)) = (scale (2 * c) l, scale (2 * c) r).
Proof.
  intros Hi El Er. rewrite inverse_block by (auto || (rewrite scale_length, length_zip_with; lia)). rewrite !scale_zip.
  f_equal; [apply zip_zip_l|apply zip_zip_r]; try congruence; intros x y; unfold upper.
  - match goal with |- ?a mod _ = ?b mod _ => change (a ≡f b) end. rewrite !feqm_mod. apply feqm_eq. ring.
  - match goal with |- ?a mod _ = ?b mod _ => change (a ≡f b) end. rewrite !feqm_mod.
    transitivity (2 * c * y * (power i * (nth i iGMb 0 * radix'))); [apply feqm_eq; ring|].
    rewrite power_inverse by done. apply feqm_eq. ring.
Qed.
Lemma forward_inverse i h c u v : (1 ≤ i < 1024)%nat → length u = h → length v = h →
  split_block mq_butterfly GMb i h
    (scale c (zip_with (upper 1) u v) ++ scale c (zip_with (λ x y, (x - y) * (nth i iGMb 0 * radix') mod 12289) u v)) =
    (scale (c * 2) u, scale (c * 2) v).
Proof.
  intros Hi El Er. rewrite forward_block by (auto || (rewrite scale_length, length_zip_with; lia)). rewrite !scale_zip.
  f_equal; [apply zip_zip_l|apply zip_zip_r]; try congruence; intros x y; unfold upper;
    match goal with |- ?a mod _ = ?b mod _ => change (a ≡f b) end; rewrite !feqm_mod.
  - transitivity (c * (x + 1 * y) + c * (x - y) * (power i * (nth i iGMb 0 * radix'))); [apply feqm_eq; ring|].
    rewrite power_inverse by done. apply feqm_eq. ring.
  - transitivity (c * (x + 1 * y) - c * (x - y) * (power i * (nth i iGMb 0 * radix'))); [apply feqm_eq; ring|].
    rewrite power_inverse by done. apply feqm_eq. ring.
Qed.

Lemma passes_length f table d i a : length a = (2 ^ d)%nat → length (passes f table d i 1 a) = (2 ^ d)%nat.
Proof.
  revert i a. induction d as [|d IH]; intros i a Hl; [done|]. rewrite passes_S by done. cbn zeta.
  rewrite Nat.pow_succ_r' in *. destruct (split_block_length f table i (2 ^ d) a Hl) as [H1 H2].
  rewrite length_app, !IH by done. lia.
Qed.
Lemma ipasses_passes d : ∀ i c a, (1 ≤ i)%nat → ((i + 1) * 2 ^ d ≤ 2048)%nat → Forall residue a → length a = (2 ^ d)%nat →
  ipasses mq_ibutterfly iGMb d i 1 (scale c (passes mq_butterfly GMb d i 1 a)) = scale (2 ^ Z.of_nat d * c) a.
Proof.
  induction d as [|d IH]; intros i c a Hi Hd Ha Hl.
  { cbn [ipasses passes]. apply scale_feqm, feqm_eq. lia. }
  rewrite passes_S by done. cbn zeta. assert (0 < 2 ^ d)%nat by apply pow2_pos. rewrite Nat.pow_succ_r' in Hl, Hd.
  destruct (halves _ _ Hl) as (l & r & -> & El & Er). apply Forall_app in Ha as [Hal Har].
  rewrite forward_block by done. cbn [fst snd]. rewrite scale_app, ipasses_S
    by (rewrite scale_length, passes_length; [done|rewrite length_zip_with; lia]). cbn zeta.
  rewrite !IH by (nia || auto || (rewrite length_zip_with; lia)). rewrite inverse_forward by (nia || done). cbn [fst snd].
  rewrite <-scale_app. apply scale_feqm, feqm_eq. rewrite Nat2Z.inj_succ, Z.pow_succ_r by lia. ring.
Qed.
Lemma ipasses_residue d : ∀ i a, Forall residue a → length a = (2 ^ d)%nat → Forall residue (ipasses mq_ibutterfly iGMb d i 1 a).
Proof.
  induction d as [|d IH]; intros i a Ha Hl; [done|]. rewrite Nat.pow_succ_r' in Hl.
  destruct (halves _ _ Hl) as (l & r & -> & El & Er). apply Forall_app in Ha as [Hal Har].
  rewrite ipasses_S by done. cbn zeta. rewrite inverse_block by (auto || (rewrite ipasses_length; lia)). cbn [fst snd].
  apply Forall_app. auto.
Qed.
Lemma passes_ipasses d : ∀ i c a, (1 ≤ i)%nat → ((i + 1) * 2 ^ d ≤ 2048)%nat → Forall residue a → length a = (2 ^ d)%nat →
  passes mq_butterfly GMb d i 1 (scale c (ipasses mq_ibutterfly iGMb d i 1 a)) = scale (c * 2 ^ Z.of_nat d) a.
Proof.
  induction d as [|d IH]; intros i c a Hi Hd Ha Hl.
  { cbn [ipasses passes]. apply scale_feqm, feqm_eq. lia. }
  assert (0 < 2 ^ d)%nat by apply pow2_pos. rewrite Nat.pow_succ_r' in Hl, Hd.
  destruct (halves _ _ Hl) as (l & r & -> & El & Er). apply Forall_app in Ha as [Hal Har].
  rewrite ipasses_S by done. cbn zeta. rewrite inverse_block by (auto using ipasses_residue || (rewrite ipasses_length; lia)). cbn [fst snd].
  rewrite passes_S by (rewrite scale_length, length_app, !length_zip_with, !ipasses_length, Nat.pow_succ_r' by lia; lia). cbn zeta. rewrite scale_app, forward_inverse by (nia || (rewrite ipasses_length; lia)). cbn [fst snd].
  rewrite !IH by (nia || done). rewrite <-scale_app. apply scale_feqm, feqm_eq. rewrite Nat2Z.inj_succ, Z.pow_succ_r by lia. ring.
Qed.

(** ** The transforms of the code *)

Lemma mq_NTT_passes a logn : mq_NTT a logn = passes mq_butterfly GMb logn 1 1 a.
Proof. exact (passes_fold mq_butterfly GMb 0 logn a). Qed.
Lemma mq_iNTT_passes a logn : mq_iNTT a logn =
  map (λ x, wrap 16 (mq_montymul x (Nat.iter logn mq_rshift1 4091))) (ipasses mq_ibutterfly iGMb logn 1 1 a).
Proof. unfold mq_iNTT. cbn zeta. f_equal. exact (ipasses_fold mq_ibutterfly iGMb 0 logn a). Qed.
(* R / n *)
Lemma ni_spec logn : residue (Nat.iter logn mq_rshift1 4091) ∧ 2 ^ Z.of_nat logn * Nat.iter logn mq_rshift1 4091 ≡f 65536.
Proof.
  induction logn as [|l [Hr IH]]; [done|]. rewrite Nat.iter_succ. destruct (mq_rshift1_spec _ Hr) as [Hr' E]. split; [done|].
  rewrite <-IH, Nat2Z.inj_succ, Z.pow_succ_r by lia. rewrite (Z.mul_comm 2), <-Z.mul_assoc. by rewrite E.
Qed.
Lemma montymul_scale y a : residue y → Forall residue a → map (λ x, wrap 16 (mq_montymul x y)) a = scale (y * radix') a.
Proof.
  intros Hy Ha. apply map_ext_in. intros x Hx%list_elem_of_In. rewrite Forall_forall in Ha. specialize (Ha x Hx).
  rewrite residue_wrap by (by apply mq_montymul_residue). rewrite mq_montymul_spec by done. f_equal. ring.
Qed.
Lemma mq_poly_tomonty_scale a : Forall residue a → mq_poly_tomonty a = scale 65536 a.
Proof.
  intros Ha. unfold mq_poly_tomonty. rewrite montymul_scale by done. by apply scale_feqm.
Qed.
Lemma mq_poly_montymul_scale a b : Forall residue a → Forall residue b →
  mq_poly_montymul_ntt a (scale 65536 b) = zip_with (λ x y, (x * y) mod 12289) a b.
Proof.
  intros Ha. unfold mq_poly_montymul_ntt, scale. revert b. induction Ha as [|x a Hx Ha IH]; intros b Hb; destruct Hb as [|y b Hy Hb]; [done..|].
  cbn [map zip_with]. rewrite IH by done. f_equal.
  rewrite residue_wrap, mq_montymul_spec by (auto using mq_montymul_residue).
  match goal with |- ?a mod _ = ?b mod _ => change (a ≡f b) end. rewrite feqm_mod.
  transitivity (x * y * (65536 * radix')); [apply feqm_eq; ring|]. assert (65536 * radix' ≡f 1) as -> by done. apply feqm_eq. ring.
Qed.

Section transforms.
Context (logn : nat) (Hlogn : (logn ≤ 10)%nat).
Notation n := (2 ^ logn)%nat.

Lemma logn_fits : ((1 + 1) * n ≤ 2048)%nat.
Proof. assert (2 ^ logn ≤ 2 ^ 10)%nat by (apply Nat.pow_le_mono_r; lia). change (2 ^ 10)%nat with 1024%nat in *. lia. Qed.

Lemma mq_NTT_evals a : Forall residue a → length a = n →
  mq_NTT a logn = map (λ k, eval_at (root (n + k)) a mod 12289) (seq 0 n).
Proof.
  intros Ha Hl. rewrite mq_NTT_passes, passes_evals by (done || apply logn_fits). apply map_ext. intros k. do 3 f_equal. lia.
Qed.
Lemma mq_NTT_residue a : Forall residue a → length a = n → Forall residue (mq_NTT a logn).
Proof. intros Ha Hl. rewrite mq_NTT_evals by done. apply Forall_forall. intros x (k & -> & _)%list_elem_of_fmap. apply residue_mod. Qed.
Lemma mq_NTT_length a : length a = n → length (mq_NTT a logn) = n.
Proof. intros Hl. rewrite mq_NTT_passes. by apply passes_length. Qed.
Lemma mq_iNTT_length a : length a = n → length (mq_iNTT a logn) = n.
Proof. intros Hl. rewrite mq_iNTT_passes, length_map, ipasses_length; lia. Qed.
Lemma mq_iNTT_scale a : Forall residue a → length a = n →
  mq_iNTT a logn = scale (Nat.iter logn mq_rshift1 4091 * radix') (ipasses mq_ibutterfly iGMb logn 1 1 a).
Proof. intros Ha Hl. rewrite mq_iNTT_passes. apply montymul_scale; [apply ni_spec|by apply ipasses_residue]. Qed.
Lemma mq_iNTT_residue a : Forall residue a → length a = n → Forall residue (mq_iNTT a logn).
Proof. intros Ha Hl. by rewrite mq_iNTT_scale. Qed.
Lemma scaling : 2 ^ Z.of_nat logn * (Nat.iter logn mq_rshift1 4091 * radix') ≡f 1.
Proof. rewrite Z.mul_assoc. rewrite (proj2 (ni_spec logn)). done. Qed.

(** The two transforms are inverse to each other. *)
Lemma mq_iNTT_NTT a : Forall residue a → length a = n → mq_iNTT (mq_NTT a logn) logn = a.
Proof.
  intros Ha Hl. rewrite mq_iNTT_scale by auto using mq_NTT_residue, mq_NTT_length. rewrite mq_NTT_passes.
  assert (Forall residue (passes mq_butterfly GMb logn 1 1 a)) as Hr by (rewrite <-mq_NTT_passes; by apply mq_NTT_residue).
  rewrite <-(scale_one _ Hr), ipasses_passes, scale_scale by (done || apply logn_fits).
  rewrite (scale_feqm _ 1); [by apply scale_one|]. rewrite Z.mul_1_r, Z.mul_comm. apply scaling.
Qed.
Lemma mq_NTT_iNTT a : Forall residue a → length a = n → mq_NTT (mq_iNTT a logn) logn = a.
Proof.
  intros Ha Hl. rewrite mq_iNTT_scale by done. rewrite mq_NTT_passes, passes_ipasses by (done || apply logn_fits).
  rewrite (scale_feqm _ 1); [by apply scale_one|]. rewrite Z.mul_comm. apply scaling.
Qed.

(** ** Products modulo X^n + 1 *)

Definition plus_times (c : Z) (a b : list Z) : list Z := zip_with (λ x y, x + c * y) a b.
(* a * X *)
Definition times_x (a : list Z) : list Z := - List.last a 0 :: removelast a.
(* the product of a and b, row by row *)
Fixpoint negacyclic (a b : list Z) : list Z :=
  match a with [] => replicate n 0 | x :: a => plus_times x (times_x (negacyclic a b)) b end.

Lemma times_x_length a : length a = n → length (times_x a) = n.
Proof.
  intros Hl. pose proof (pow2_pos logn). destruct (exists_last (l := a)) as (b & y & ->); [by destruct a; simpl in Hl; [lia|]|].
  unfold times_x. rewrite removelast_last. rewrite length_app in Hl. simpl in *. lia.
Qed.
Lemma negacyclic_length a b : length b = n → length (negacyclic a b) = n.
Proof.
  intros Hb. induction a as [|x a IH]; cbn [negacyclic]; [apply length_replicate|].
  unfold plus_times. rewrite length_zip_with, times_x_length by done. lia.
Qed.
Section root.
Context (r : Z) (Hr : r ^ Z.of_nat n ≡f -1).
Lemma eval_times_x a : length a = n → eval_at r (times_x a) ≡f r * eval_at r a.
Proof.
  intros Hl. pose proof (pow2_pos logn). destruct (exists_last (l := a)) as (b & y & ->); [by destruct a; simpl in Hl; [lia|]|].
  unfold times_x. rewrite removelast_last, last_last. rewrite length_app in Hl. simpl in Hl. cbn [eval_at]. rewrite eval_at_app. cbn [eval_at].
  transitivity (r * eval_at r b + r ^ Z.of_nat n * y); [rewrite Hr; apply feqm_eq; ring|].
  apply feqm_eq. replace (Z.of_nat n) with (Z.succ (Z.of_nat (length b))) by lia. rewrite Z.pow_succ_r by lia. ring.
Qed.
Lemma eval_negacyclic a b : length b = n → eval_at r (negacyclic a b) ≡f eval_at r a * eval_at r b.
Proof.
  intros Hb. induction a as [|x a IH]; cbn [negacyclic eval_at].
  - apply feqm_eq. generalize n as m. induction m as [|m IHm]; cbn [replicate eval_at]; lia.
  - unfold plus_times. rewrite (eval_at_zip _ _ _ _ x) by (done || (rewrite times_x_length by (by apply negacyclic_length); done)).
    rewrite eval_times_x by (by apply negacyclic_length). rewrite IH. apply feqm_eq. ring.
Qed.
End root.
Lemma eval_mod r a : eval_at r (scale 1 a) ≡f eval_at r a.
Proof. induction a as [|x a IH]; [done|]. cbn [scale map eval_at]. fold (scale 1 a). rewrite IH, feqm_mod. apply feqm_eq. ring. Qed.
Lemma leaf_root k : (k < n)%nat → root (n + k) ^ Z.of_nat n ≡f -1.
Proof.
  intros Hk. replace (n + k)%nat with (1 * n + k)%nat by lia. rewrite root_pow by (done || apply logn_fits). done.
Qed.

(** The transform of a product is the product of the transforms. *)
Lemma mq_NTT_product a b : Forall residue a → Forall residue b → length a = n → length b = n →
  mq_NTT (scale 1 (negacyclic a b)) logn = zip_with (λ x y, (x * y) mod 12289) (mq_NTT a logn) (mq_NTT b logn).
Proof.
  intros Ha Hb La Lb. rewrite !mq_NTT_evals by (auto || (rewrite scale_length; by apply negacyclic_length)).
  pose proof leaf_root as Hroot. assert (∀ k, k ∈ seq 0 n → (k < n)%nat) as Hseq by (intros k Hk%elem_of_seq; lia).
  revert Hseq. generalize (seq 0 n) as ks. induction ks as [|k ks IH]; intros Hseq; [done|]. cbn [map zip_with].
  rewrite IH by (intros; apply Hseq; by right). f_equal. match goal with |- ?a mod _ = ?b mod _ => change (a ≡f b) end.
  rewrite eval_mod, eval_negacyclic by (done || (apply Hroot, Hseq; by left)). by rewrite !feqm_mod.
Qed.
Lemma mq_product a b : Forall residue a → Forall residue b → length a = n → length b = n →
  mq_iNTT (mq_poly_montymul_ntt (mq_NTT a logn) (to_ntt_monty b logn)) logn = scale 1 (negacyclic a b).
Proof.
  intros Ha Hb La Lb. unfold to_ntt_monty. rewrite mq_poly_tomonty_scale by (by apply mq_NTT_residue).
  rewrite mq_poly_montymul_scale by (by apply mq_NTT_residue). rewrite <-mq_NTT_product by done.
  apply mq_iNTT_NTT; [done|]. rewrite scale_length. by apply negacyclic_length.
Qed.
End transforms.
