(* ===== verification/FalconHash.v ===== *)
(** The parts that signing and verification of Falcon share, [utils/falcon/falcon/src/common.rs]: a
    message is hashed to a polynomial, in one way that rejects samples as they come and in another
    whose running time does not depend on them, and vectors are accepted when they are short.

    SHAKE256 is the [sha3] crate; here it is the stream of bytes that it yields. *)

From S2P Require Import Prelude.

(** the next two bytes, the high one first *)
Definition word_at (sc : nat → Z) (i : nat) : Z := Z.lor (Z.shiftl (sc (2 * i)%nat) 8) (sc (2 * i + 1)%nat).

(** The loop of the rejection sampling ends when [n] samples are found; [fuel] bounds the words that are read. *)
Fixpoint reduce_loop (fuel : nat) (w : Z) : Z :=
  match fuel with O => w | S fuel => if decide (12289 ≤ w) then reduce_loop fuel (w - 12289) else w end.
Fixpoint sample_loop (fuel n : nat) (sc : nat → Z) (i : nat) : option (list Z) :=
  match n with
  | O => Some []
  | S n' =>
      match fuel with
      | O => None
      | S fuel =>
          let w := word_at sc i in
          if decide (w < 61445) then
            match sample_loop fuel n' sc (S i) with Some x => Some (wrap 16 (reduce_loop 5 w) :: x) | None => None end
          else sample_loop fuel n sc (S i)
      end
  end.
Definition hash_to_point_vartime (fuel : nat) (sc : nat → Z) (logn : nat) : option (list Z) := sample_loop fuel (2 ^ logn) sc 0.

Definition overtab : list nat := [0; 65; 67; 71; 77; 86; 100; 122; 154; 205; 287]%nat.
(* w - (c & ((w - c) >> 31) - 1) *)
Definition cond_sub (c w : Z) : Z := wrap 32 (w - Z.land c (wrap 32 (Z.shiftr (wrap 32 (w - c)) 31 - 1))).
Definition ct_sample (w : Z) : Z :=
  let wr := cond_sub 24578 w in
  let wr := cond_sub 24578 wr in
  let wr := cond_sub 12289 wr in
  wrap 16 (Z.lor wr (wrap 32 (Z.shiftr (wrap 32 (w - 61445)) 31 - 1))).
(** One turn of the inner loop; [x], [tt1] and [tt2] of the source are one after the other in [a]. *)
Definition ct_step (p : nat) (st : list Z * Z) (u : nat) : list Z * Z :=
  let '(a, v) := st in
  let sv := nth u a 0 in
  let j := wrap 32 (Z.of_nat u - v) in
  let mk := wrap 32 (Z.shiftr sv 15 - 1) in
  let v := wrap 32 (v - mk) in
  if decide (u < p)%nat then (a, v)
  else
    let dv := nth (u - p) a 0 in
    let mk := Z.land mk (wrap 32 (- Z.shiftr (wrap 32 (Z.land j (Z.of_nat p) + 511)) 9)) in
    let a := <[u := wrap 16 (Z.lxor sv (Z.land mk (Z.lxor sv dv)))]> a in
    (<[(u - p)%nat := wrap 16 (Z.lxor dv (Z.land mk (Z.lxor sv dv)))]> a, v).
Definition ct_pass (p : nat) (a : list Z) : list Z := (fold_left (ct_step p) (seq 0 (length a)) (a, 0)).1.
(* p = 1, 2, 4, ... while p <= over; p has 32 bits *)
Fixpoint ct_passes (fuel p over : nat) (a : list Z) : list Z :=
  match fuel with
  | O => a
  | S fuel => if decide (p ≤ over)%nat then ct_passes fuel (2 * p) over (ct_pass p a) else a
  end.
Definition hash_to_point_ct (sc : nat → Z) (logn : nat) : list Z :=
  let n := (2 ^ logn)%nat in
  let over := nth logn overtab 0%nat in
  let m := (n + over)%nat in
  take n (ct_passes 32 1 over (map (λ u, ct_sample (word_at sc u)) (seq 0 m))).

Definition l2bound : list Z :=
  [0; 101498; 208714; 428865; 892039; 1852696; 3842630; 7959734; 16468416; 34034726; 70265242].
(* s += z * z; ng |= s *)
Definition add_square (st : Z * Z) (z : Z) : Z * Z := let s := wrap 32 (st.1 + z * z) in (s, Z.lor st.2 s).
(* s |= -(ng >> 31); s <= bound *)
Definition below (logn : nat) (st : Z * Z) : bool :=
  bool_decide (Z.lor st.1 (wrap 32 (- Z.shiftr st.2 31)) ≤ nth logn l2bound 0).
Definition is_short (s1 s2 : list Z) (logn : nat) : bool :=
  below logn (fold_left (λ st z, add_square (add_square st z.1) z.2) (take (2 ^ logn) (zip s1 s2)) (0, 0)).
Definition is_short_half (sqn : Z) (s2 : list Z) (logn : nat) : bool :=
  below logn (fold_left add_square (take (2 ^ logn) s2) (sqn, wrap 32 (- Z.shiftr sqn 31))).

(** ** Short vectors *)

Definition norm2 (s : list Z) : Z := foldr (λ z acc, z * z + acc) 0 s.
Lemma norm2_app a b : norm2 (a ++ b) = norm2 a + norm2 b.
Proof. induction a as [|z a IH]; simpl; [done|]. fold (norm2 (a ++ b)) (norm2 a). rewrite IH. lia. Qed.
Lemma norm2_nonneg s : 0 ≤ norm2 s.
Proof. induction s as [|z s IH]; simpl; [done|]. fold (norm2 s). nia. Qed.
Definition i16 (z : Z) : Prop := -32768 ≤ z ≤ 32767.

(* the sum is exact until bit 31 is seen in ng *)
Definition tracks (st : Z * Z) (sum : Z) : Prop :=
  0 ≤ st.1 < 2 ^ 32 ∧ 0 ≤ st.2 < 2 ^ 32 ∧ (if decide (st.2 < 2 ^ 31) then st.1 = sum ∧ sum < 2 ^ 31 else 2 ^ 31 ≤ sum).
Lemma lor_high a b : 0 ≤ a < 2 ^ 32 → 0 ≤ b < 2 ^ 32 → 0 ≤ Z.lor a b < 2 ^ 32 ∧ (Z.lor a b < 2 ^ 31 ↔ a < 2 ^ 31 ∧ b < 2 ^ 31).
Proof.
  intros Ha Hb. assert (∀ x n, 0 ≤ n → 0 ≤ x → x < 2 ^ n ↔ Z.shiftr x n = 0) as Hs.
  { intros x n Hn Hx. rewrite Z.shiftr_div_pow2 by done. split; [intros; apply Z.div_small; lia|].
    intros Hd. apply Z.div_small_iff in Hd; lia. }
  assert (0 ≤ Z.lor a b) by (apply Z.lor_nonneg; lia).
  rewrite !Hs, !Z.shiftr_lor, !Z.lor_eq_0_iff by lia. split; [|done]. split; [done|]. split; apply Hs; lia.
Qed.
Lemma add_square_tracks st sum z : tracks st sum → i16 z → tracks (add_square st z) (sum + z * z).
Proof.
  intros (Hs & Hn & Ht) Hz. unfold i16 in Hz. assert (0 ≤ z * z ≤ 2 ^ 30) as Hq by nia. unfold add_square, tracks. cbn [fst snd].
  assert (0 ≤ wrap 32 (st.1 + z * z) < 2 ^ 32) as Hw by (apply wrap_fits; lia).
  destruct (lor_high st.2 (wrap 32 (st.1 + z * z)) Hn Hw) as [Hl Hi]. split; [done|]. split; [done|].
  destruct (decide (st.2 < 2 ^ 31)) as [Hd|Hd].
  - destruct Ht as [<- Hlt]. assert (wrap 32 (st.1 + z * z) = st.1 + z * z) as E by (apply Z.mod_small; lia).
    rewrite E in *. case_decide as Hc; [|lia]. split; [done|]. by apply Hi in Hc as [_ ?].
  - rewrite decide_False by lia. lia.
Qed.
Lemma below_tracks logn st sum : tracks st sum → below logn st = bool_decide (sum ≤ nth logn l2bound 0).
Proof.
  intros (Hs & Hn & Ht). assert (nth logn l2bound 0 < 2 ^ 31) as Hb.
  { assert (Forall (λ b, b < 2 ^ 31) l2bound) as H by decided. rewrite Forall_forall in H.
    destruct (nth_in_or_default logn l2bound 0) as [Hin| ->]; [apply H; by apply list_elem_of_In|done]. }
  unfold below. apply bool_decide_ext. rewrite Z.shiftr_div_pow2 by lia. case_decide as Hd.
  - destruct Ht as [<- _]. rewrite Z.div_small by lia. change (wrap 32 (Z.opp 0)) with 0. by rewrite Z.lor_0_r.
  - assert (st.2 / 2 ^ 31 = 1) as -> by (symmetry; apply Z.div_unique with (st.2 - 2 ^ 31); lia).
    change (wrap 32 (Z.opp 1)) with (2 ^ 32 - 1). destruct (lor_high st.1 (2 ^ 32 - 1)) as [Hl Hi]; [lia..|]. lia.
Qed.

Lemma sum_tracks s1 s2 : Forall i16 s1 → Forall i16 s2 → length s1 = length s2 → ∀ st sum, tracks st sum →
  tracks (fold_left (λ st z, add_square (add_square st z.1) z.2) (zip s1 s2) st) (sum + (norm2 s1 + norm2 s2)).
Proof.
  intros H1. revert s2. induction H1 as [|x s1 Hx H1 IH]; intros s2 H2 L st sum Hst; destruct H2 as [|y s2 Hy H2]; try done.
  - by rewrite Z.add_0_r.
  - cbn [zip zip_with fold_left]. replace (sum + (norm2 (x :: s1) + norm2 (y :: s2))) with (sum + x * x + y * y + (norm2 s1 + norm2 s2))
      by (simpl; fold (norm2 s1) (norm2 s2); lia).
    apply IH; [done|by injection L|]. cbn [fst snd]. apply add_square_tracks, Hy. by apply add_square_tracks.
Qed.
(** The sums of squares are kept in 32 bits and saturate: a pair of vectors of 16 bit numbers passes exactly
    when the exact sum of the squares is within the bound, however long the vectors are. *)
Lemma is_short_spec s1 s2 logn : Forall i16 s1 → Forall i16 s2 → length s1 = (2 ^ logn)%nat → length s2 = (2 ^ logn)%nat →
  is_short s1 s2 logn = bool_decide (norm2 s1 + norm2 s2 ≤ nth logn l2bound 0).
Proof.
  intros H1 H2 L1 L2. unfold is_short. rewrite take_ge by (rewrite length_zip_with; lia). apply below_tracks.
  apply (sum_tracks s1 s2 H1 H2 ltac:(lia) (0, 0) 0). unfold tracks. cbn [fst snd]. rewrite decide_True by done. lia.
Qed.
Lemma is_short_half_spec sqn s2 logn : 0 ≤ sqn < 2 ^ 32 → Forall i16 s2 → length s2 = (2 ^ logn)%nat →
  is_short_half sqn s2 logn = bool_decide (sqn + norm2 s2 ≤ nth logn l2bound 0).
Proof.
  intros Hq H2 L. unfold is_short_half. rewrite take_ge by lia. apply below_tracks.
  assert (tracks (sqn, wrap 32 (- Z.shiftr sqn 31)) sqn) as H0.
  { unfold tracks. cbn [fst snd]. rewrite Z.shiftr_div_pow2 by lia. destruct (decide (sqn < 2 ^ 31)).
    - rewrite Z.div_small by lia. change (wrap 32 (Z.opp 0)) with 0. rewrite decide_True by done. lia.
    - assert (sqn / 2 ^ 31 = 1) as -> by (symmetry; apply Z.div_unique with (sqn - 2 ^ 31); lia).
      change (wrap 32 (Z.opp 1)) with (2 ^ 32 - 1). rewrite decide_False by lia. lia. }
  revert H0. clear L. generalize (sqn, wrap 32 (- Z.shiftr sqn 31)) as st. clear Hq. revert sqn.
  induction H2 as [|y s2 Hy H2 IH]; intros sum st Hst; cbn [fold_left]; [by rewrite Z.add_0_r|].
  replace (sum + norm2 (y :: s2)) with (sum + y * y + norm2 s2) by (simpl; fold (norm2 s2); lia).
  apply IH. by apply add_square_tracks.
Qed.

(** ** One sample *)

Definition word16 (w : Z) : Prop := 0 ≤ w < 65536.
(* what a word is worth; [None]: it is rejected *)
Definition sample (w : Z) : option Z := if decide (w < 61445) then Some (w mod 12289) else None.

Lemma borrow c w : 0 ≤ c < 2 ^ 31 → 0 ≤ w < 2 ^ 31 →
  wrap 32 (Z.shiftr (wrap 32 (w - c)) 31 - 1) = if decide (w < c) then 0 else 2 ^ 32 - 1.
Proof.
  intros Hc Hw. rewrite Z.shiftr_div_pow2 by lia. case_decide as Hd.
  - assert (wrap 32 (w - c) = w - c + 2 ^ 32) as -> by (symmetry; apply Z.mod_unique with (-1); lia).
    assert ((w - c + 2 ^ 32) / 2 ^ 31 = 1) as -> by (symmetry; apply Z.div_unique with (w - c + 2 ^ 31); lia). done.
  - assert (wrap 32 (w - c) = w - c) as -> by (apply Z.mod_small; lia). rewrite Z.div_small by lia. done.
Qed.
Lemma land_ones32 x : 0 ≤ x < 2 ^ 32 → Z.land x (2 ^ 32 - 1) = x.
Proof. intros Hx. rewrite land_ones_mod by lia. by apply Z.mod_small. Qed.
Lemma cond_sub_spec c w : 0 ≤ c < 2 ^ 31 → 0 ≤ w < 2 ^ 31 → cond_sub c w = if decide (w < c) then w else w - c.
Proof.
  intros Hc Hw. unfold cond_sub. rewrite borrow by done. case_decide.
  - rewrite Z.land_0_r, Z.sub_0_r. apply Z.mod_small. lia.
  - rewrite land_ones32 by lia. apply Z.mod_small. lia.
Qed.
Lemma ct_sample_spec w : word16 w → ct_sample w = default 65535 (sample w).
Proof.
  intros Hw. unfold word16 in Hw. unfold ct_sample, sample. cbn zeta. rewrite (borrow 61445) by lia.
  assert (∀ u, 0 ≤ u < 65536 → 0 ≤ cond_sub 12289 (cond_sub 24578 (cond_sub 24578 u)) < 65536 ∧
    (u < 61445 → cond_sub 12289 (cond_sub 24578 (cond_sub 24578 u)) = u mod 12289)) as Hc.
  { intros u Hu. rewrite (cond_sub_spec 24578 u) by lia.
    destruct (decide (u < 24578)); rewrite (cond_sub_spec 24578) by lia; repeat case_decide; try lia;
      rewrite cond_sub_spec by lia; case_decide; (split; [lia|]); intros Hlt.
    all: match goal with |- ?r = _ => first
      [apply Z.mod_unique with 0; lia|apply Z.mod_unique with 1; lia|apply Z.mod_unique with 2; lia
      |apply Z.mod_unique with 3; lia|apply Z.mod_unique with 4; lia] end. }
  destruct (Hc w Hw) as [Hr Hlt]. case_decide as Hd; cbn [default from_option id].
  - rewrite Z.lor_0_r, Hlt by done. apply Z.mod_small. pose proof (Z.mod_pos_bound w 12289). lia.
  - set (x := cond_sub 12289 _) in *. unfold wrap. apply Z.bits_inj'. intros i Hi. destruct (decide (i < 16)).
    + rewrite Z.mod_pow2_bits_low, Z.lor_spec by lia. change (2 ^ 32 - 1) with (Z.ones 32). change 65535 with (Z.ones 16).
      rewrite !Z.ones_spec_low by lia. apply orb_true_r.
    + rewrite Z.mod_pow2_bits_high by lia. change 65535 with (Z.ones 16). by rewrite Z.ones_spec_high by lia.
Qed.
Lemma reduce_loop_spec fuel w : 0 ≤ w < 12289 * Z.of_nat (S fuel) → reduce_loop fuel w = w mod 12289.
Proof.
  revert w. induction fuel as [|fuel IH]; intros w Hw; cbn [reduce_loop]; [symmetry; apply Z.mod_small; lia|].
  case_decide; [|symmetry; apply Z.mod_small; lia]. rewrite IH by lia. apply (Z.mod_add w (-1)). lia.
Qed.

(** ** Samples to the front *)

(** An entry of the array is a sample or a hole. *)
Notation hole := 65535.
Definition entry (x : Z) : Prop := 0 ≤ x < 32768 ∨ x = hole.
Definition samples (a : list Z) : list Z := filter (λ x, x ≠ hole) a.
Definition holes (a : list Z) : nat := length (filter (λ x, x = hole) a).
(* every sample has a multiple of [p] holes before it, [j] holes before the list *)
Fixpoint aligned (p j : nat) (a : list Z) : Prop :=
  match a with
  | [] => True
  | x :: a => if decide (x = hole) then aligned p (S j) a else Nat.divide p j ∧ aligned p j a
  end.

Lemma samples_app a b : samples (a ++ b) = samples a ++ samples b.
Proof. apply filter_app. Qed.
Lemma holes_app a b : holes (a ++ b) = (holes a + holes b)%nat.
Proof. unfold holes. by rewrite filter_app, length_app. Qed.
Lemma samples_holes e : samples (replicate e hole) = [].
Proof. induction e as [|e IH]; [done|]. cbn [replicate]. unfold samples. rewrite filter_cons_False by tauto. done. Qed.
Lemma holes_holes e : holes (replicate e hole) = e.
Proof. induction e as [|e IH]; [done|]. cbn [replicate]. unfold holes in *. rewrite filter_cons_True by done. simpl. by rewrite IH. Qed.
Lemma holes_one x : holes [x] = if decide (x = hole) then 1%nat else 0%nat.
Proof. unfold holes. cbn. case_decide; done. Qed.
Lemma samples_one x : samples [x] = if decide (x = hole) then [] else [x].
Proof. unfold samples. cbn. repeat case_decide; tauto. Qed.
Lemma holes_le a : (holes a ≤ length a)%nat.
Proof. apply length_filter. Qed.
Lemma holes_length a : (length (samples a) + holes a = length a)%nat.
Proof.
  induction a as [|x a IH]; [done|]. unfold samples, holes in *. rewrite !filter_cons. cbn [length].
  destruct (decide (x = hole)); [rewrite decide_False by tauto|rewrite decide_True by done]; simpl; lia.
Qed.
Lemma aligned_app p j a b : aligned p j (a ++ b) ↔ aligned p j a ∧ aligned p (j + holes a) b.
Proof.
  revert j. induction a as [|x a IH]; intros j; cbn [app aligned].
  - rewrite Nat.add_0_r. tauto.
  - change (x :: a) with ([x] ++ a). rewrite holes_app, holes_one. case_decide; rewrite IH.
    + replace (S j + holes a)%nat with (j + (1 + holes a))%nat by lia. done.
    + cbn [Nat.add]. tauto.
Qed.
Lemma aligned_holes p j e : aligned p j (replicate e hole).
Proof. revert j. induction e as [|e IH]; intros j; [done|]. cbn [replicate aligned]. rewrite decide_True by done. apply IH. Qed.
Lemma aligned_one j a : aligned 1 j a.
Proof. revert j. induction a as [|x a IH]; intros j; [done|]. cbn [aligned]. case_decide; [apply IH|]. split; [apply Nat.divide_1_l|apply IH]. Qed.
(* too few holes to be out of place *)
Lemma aligned_front p a : aligned p 0 a → (holes a < p)%nat → a = samples a ++ replicate (holes a) hole.
Proof.
  assert (∀ a j, aligned p j a → (0 < j)%nat → (j + holes a < p)%nat → a = replicate (holes a) hole) as Htail.
  { clear a. induction a as [|x a IH]; intros j Ha Hj Hp; [done|]. cbn [aligned] in Ha. change (x :: a) with ([x] ++ a) in *.
    rewrite holes_app, holes_one in *. case_decide as Hx; [|destruct Ha as [Hd%Nat.divide_pos_le _]; lia].
    subst x. cbn [Nat.add replicate app]. f_equal. apply (IH (S j)); [done|lia|lia]. }
  induction a as [|x a IH]; intros Ha Hp; [done|]. cbn [aligned] in Ha. change (x :: a) with ([x] ++ a) in *.
  rewrite holes_app, holes_one, samples_app, samples_one in *. case_decide as Hx.
  - subst x. assert (a = replicate (holes a) hole) as E by (apply (Htail a 1%nat); [done|lia|lia]).
    rewrite E at 2. rewrite samples_holes. cbn [app Nat.add replicate]. by rewrite <-E.
  - destruct Ha as [_ Ha]. cbn [app Nat.add]. f_equal. apply IH; [done|lia].
Qed.

Section pass.
Context (k : nat) (Hk : (k ≤ 9)%nat).
Notation p := (2 ^ k)%nat.

Lemma p_range : (1 ≤ p ≤ 512)%nat.
Proof.
  pose proof (pow2_pos k). assert (2 ^ k ≤ 2 ^ 9)%nat by (apply Nat.pow_le_mono_r; lia). change (2 ^ 9)%nat with 512%nat in *. lia.
Qed.
(* (j & p) for a multiple j of p *)
Lemma land_bit t : Z.land (Z.of_nat (p * t)) (Z.of_nat p) = if Nat.even t then 0 else Z.of_nat p.
Proof.
  assert (Z.of_nat p = 2 ^ Z.of_nat k) as Ep by (by rewrite Nat2Z.inj_pow). rewrite Nat2Z.inj_mul, Ep, Z.mul_comm.
  replace (2 ^ Z.of_nat k) with (1 * 2 ^ Z.of_nat k) at 2 by lia. rewrite <-!Z.shiftl_mul_pow2, <-Z.shiftl_land by lia.
  assert (Z.land (Z.of_nat t) 1 = Z.of_nat t mod 2) as -> by (exact (Z.land_ones (Z.of_nat t) 1 ltac:(done))).
  rewrite Zmod_even, Z.shiftl_mul_pow2 by lia. assert (Z.even (Z.of_nat t) = Nat.even t) as ->; [|destruct (Nat.even t); lia].
  apply Bool.eq_iff_eq_true. rewrite Z.even_spec, Nat.even_spec. split; intros [q Hq]; [exists (Z.to_nat q); lia|exists (Z.of_nat q); lia].
Qed.
(* the mask for a swap *)
Lemma swap_mask t : wrap 32 (- Z.shiftr (wrap 32 (Z.land (Z.of_nat (p * t)) (Z.of_nat p) + 511)) 9) = if Nat.even t then 0 else 2 ^ 32 - 1.
Proof.
  pose proof p_range as Hp. rewrite land_bit. destruct (Nat.even t); [done|].
  assert (wrap 32 (Z.of_nat p + 511) = Z.of_nat p + 511) as -> by (apply Z.mod_small; lia). rewrite Z.shiftr_div_pow2 by lia.
  assert ((Z.of_nat p + 511) / 2 ^ 9 = 1) as -> by (symmetry; apply Z.div_unique with (Z.of_nat p - 1); lia). done.
Qed.
Lemma nth_middle_at (a b : list Z) x d : nth (length a) (a ++ x :: b) d = x.
Proof. apply nth_middle. Qed.
Lemma insert_middle (a b : list Z) x y : <[length a := y]> (a ++ x :: b) = a ++ y :: b.
Proof. rewrite insert_app_r_alt, Nat.sub_diag by lia. done. Qed.
Lemma entry_wrap x : entry x → wrap 16 x = x.
Proof. intros Hx. apply Z.mod_small. unfold entry in Hx. lia. Qed.

(** The prefix of the array that the pass is done with: [q] ends with a sample, and [e] holes follow. *)
Definition settle (q : list Z) (e : nat) (x : Z) : list Z * nat :=
  if decide (x = hole) then (q, S e)
  else if decide (Nat.divide (2 * p) e) then (q ++ replicate e hole ++ [x], 0%nat)
  else (q ++ replicate (e - p) hole ++ [x], p).
Definition settled (st : list Z * nat) : list Z := st.1 ++ replicate st.2 hole.

Lemma settle_spec q e x : entry x → Nat.divide (2 * p) (holes q) → (x ≠ hole → Nat.divide p e) → aligned (2 * p) 0 q →
  let st := settle q e x in
  Nat.divide (2 * p) (holes st.1) ∧ aligned (2 * p) 0 st.1 ∧ length (settled st) = S (length (settled (q, e))) ∧
  samples (settled st) = samples (settled (q, e) ++ [x]) ∧ (holes (settled st) = holes q + e + holes [x])%nat.
Proof.
  intros Hx Hq He Ha. pose proof p_range as Hp. unfold settle, settled.
  case_decide as Hh; [|destruct (decide (Nat.divide (2 * p) e)) as [Hd|Hd]]; cbn [fst snd];
    rewrite ?samples_app, ?holes_app, ?samples_one, ?holes_one, ?samples_holes, ?holes_holes, ?length_app, ?length_replicate, ?aligned_app; cbn [aligned length app];
    rewrite ?holes_holes, ?(decide_True (P := x = hole)), ?(decide_False (P := x = hole)), ?app_nil_r by done.
  - repeat split; [done|done|lia|lia].
  - repeat split; try done; try lia.
    + rewrite Nat.add_0_r. by apply Nat.divide_add_r.
    + apply aligned_holes.
    + cbn [Nat.add]. by apply Nat.divide_add_r.
  - specialize (He Hh). destruct He as [t ->]. assert (∃ s, t = 2 * s + 1)%nat as [s ->].
    { destruct (Nat.Even_or_Odd t) as [[s ->]|Hs]; [exfalso; apply Hd; exists s; lia|done]. }
    assert (Nat.divide (2 * p) ((2 * s + 1) * p - p)) as Hd' by (exists s; lia).
    repeat split; try done; try nia.
    + rewrite Nat.add_0_r. by apply Nat.divide_add_r.
    + apply aligned_holes.
    + cbn [Nat.add]. by apply Nat.divide_add_r.
Qed.
Lemma unswapped (P l : list Z) x : Forall entry P → entry x → (1 ≤ p ≤ length P)%nat →
  let dv := nth (length P - p) (P ++ x :: l) 0 in
  <[(length P - p)%nat := wrap 16 (Z.lxor dv 0)]> (<[length P := wrap 16 (Z.lxor x 0)]> (P ++ x :: l)) = P ++ x :: l.
Proof.
  intros HP Hx Hlt dv. rewrite !Z.lxor_0_r, (entry_wrap x), insert_middle by done.
  assert ((P ++ x :: l) !! (length P - p)%nat = P !! (length P - p)%nat) as E by (apply lookup_app_l; lia).
  destruct (lookup_lt_is_Some_2 P (length P - p)) as [y Hy]; [lia|].
  assert (dv = y) as -> by (apply nth_lookup_Some; by rewrite E).
  rewrite entry_wrap by (by eapply Forall_lookup_1). apply list_insert_id. by rewrite E.
Qed.
Lemma swap_values x : 0 ≤ x < 32768 →
  Z.lxor x (Z.land (2 ^ 32 - 1) (Z.lxor x hole)) = hole ∧ Z.lxor hole (Z.land (2 ^ 32 - 1) (Z.lxor x hole)) = x.
Proof.
  intros Hx. assert (Z.land (2 ^ 32 - 1) (Z.lxor x hole) = Z.lxor x hole) as ->.
  { apply Z.bits_inj'. intros i Hi. rewrite Z.land_spec. change (2 ^ 32 - 1) with (Z.ones 32). destruct (decide (i < 32)).
    - by rewrite Z.ones_spec_low by lia.
    - rewrite Z.ones_spec_high, Z.lxor_spec, !(testbit_high _ 32) by lia. done. }
  split.
  - rewrite <-Z.lxor_assoc, Z.lxor_nilpotent. apply Z.lxor_0_l.
  - rewrite (Z.lxor_comm x), <-Z.lxor_assoc, Z.lxor_nilpotent. apply Z.lxor_0_l.
Qed.
(* v counts the samples *)
Lemma settle_count q e x : Z.of_nat (length (settled (q, e))) < 2 ^ 31 →
  wrap 32 (Z.of_nat (length (samples (settled (q, e)))) - (if decide (x = hole) then 0 else 2 ^ 32 - 1)) =
    Z.of_nat (length (samples (settled (settle q e x)))).
Proof.
  intros Hlen. pose proof (holes_length (settled (q, e))) as Hcount. unfold settle, settled in *. cbn [fst snd] in *.
  rewrite samples_app, samples_holes, app_nil_r in *.
  case_decide as Hh; [|destruct (decide (Nat.divide (2 * p) e))]; cbn [fst snd];
    rewrite ?samples_app, ?samples_one, ?samples_holes, ?decide_False, ?app_nil_r, ?length_app by done; cbn [length app].
  - unfold wrap. rewrite Z.mod_small; lia.
  - symmetry. apply Z.mod_unique with (-1); lia.
  - symmetry. apply Z.mod_unique with (-1); lia.
Qed.
Lemma ct_step_settle q e x l (P := settled (q, e)) (P' := settled (settle q e x)) : entry x → Forall entry P →
  Nat.divide (2 * p) (holes q) → (x ≠ hole → Nat.divide p e) → Z.of_nat (length P) < 2 ^ 31 →
  ct_step p (P ++ x :: l, Z.of_nat (length (samples P))) (length P) = (P' ++ l, Z.of_nat (length (samples P'))).
Proof.
  intros Hx HP Hq He Hlen. pose proof p_range as Hp. unfold ct_step. rewrite nth_middle_at. pose proof (holes_length P) as Hcount.
  assert (holes P = holes q + e)%nat as HhP by (unfold P, settled; cbn [fst snd]; by rewrite holes_app, holes_holes).
  assert (wrap 32 (Z.of_nat (length P) - Z.of_nat (length (samples P))) = Z.of_nat (holes P)) as ->
    by (unfold wrap; rewrite Z.mod_small; lia).
  assert (wrap 32 (Z.shiftr x 15 - 1) = if decide (x = hole) then 0 else 2 ^ 32 - 1) as ->.
  { destruct Hx as [Hx| ->]; [|done]. rewrite decide_False by lia. rewrite Z.shiftr_div_pow2, Z.div_small by lia. done. }
  pose proof (settle_count q e x Hlen) as Hv. fold P P' in Hv. rewrite Hv.
  assert (P ++ x :: l = (P ++ [x]) ++ l) as Eapp by (by rewrite <-app_assoc).
  destruct (decide (x = hole)) as [Hh|Hh]; [|destruct (decide (Nat.divide (2 * p) e)) as [Hd|Hd]].
  - assert (P' = P ++ [x]) as ->.
    { unfold P', P, settle, settled. rewrite decide_True by done. cbn [fst snd]. subst x. rewrite <-app_assoc. f_equal.
      by rewrite replicate_S_end. }
    rewrite <-Eapp, !Z.land_0_l. case_decide; [done|]. f_equal. apply unswapped; [done..|lia].
  - assert (P' = P ++ [x]) as ->.
    { unfold P', P, settle, settled. rewrite decide_False, decide_True by done. cbn [fst snd replicate]. by rewrite app_nil_r, app_assoc. }
    rewrite <-Eapp. case_decide; [done|]. assert (Nat.divide (2 * p) (holes P)) as [t Ht] by (rewrite HhP; by apply Nat.divide_add_r).
    replace (holes P) with (p * (2 * t))%nat by lia. rewrite swap_mask, (Nat.even_mul 2 t). cbn [Nat.even orb]. rewrite Z.land_0_r, !Z.land_0_l. f_equal. apply unswapped; [done..|lia].
  - destruct (He Hh) as [s ->]. assert (∃ t, s = 2 * t + 1)%nat as [t ->].
    { destruct (Nat.Even_or_Odd s) as [[t ->]|Hs]; [exfalso; apply Hd; exists t; lia|done]. }
    destruct Hq as [r Hr]. rewrite HhP, Hr. replace (r * (2 * p) + (2 * t + 1) * p)%nat with (p * (2 * (r + t) + 1))%nat by lia.
    rewrite swap_mask, Nat.even_add, (Nat.even_mul 2 (r + t)). cbn [Nat.even orb eqb]. rewrite Z.land_diag.
    set (f := q ++ replicate (2 * t * p) hole). assert (P = f ++ replicate p hole) as EP.
    { unfold P, settled, f. cbn [fst snd]. rewrite <-app_assoc, <-replicate_add. do 2 f_equal. lia. }
    assert (length P = length f + p)%nat as ElP by (rewrite EP, length_app, length_replicate; lia).
    rewrite decide_False by lia. replace (length P - p)%nat with (length f) by lia.
    assert (replicate p hole = hole :: replicate (p - 1) hole) as Erep by (replace p with (S (p - 1)) at 1 by lia; done).
    assert (nth (length f) (P ++ x :: l) 0 = hole) as -> by (rewrite EP, <-app_assoc, Erep; apply nth_middle).
    unfold entry in Hx. destruct Hx as [Hx|]; [|done].
    destruct (swap_values x Hx) as [-> ->].
    rewrite insert_middle. change (wrap 16 hole) with hole. rewrite (entry_wrap x) by (left; lia).
    rewrite EP, <-app_assoc, Erep. cbn [app]. rewrite insert_middle.
    unfold P', settle, settled. rewrite !decide_False by done. cbn [fst snd].
    replace ((2 * t + 1) * p - p)%nat with (2 * t * p)%nat by lia. rewrite app_assoc. fold f. rewrite <-!app_assoc. cbn [app]. do 2 f_equal.
    f_equal. change (hole :: l) with ([hole] ++ l). rewrite app_assoc, <-replicate_S_end. f_equal. f_equal. lia.
Qed.
Lemma settle_entries q e x : entry x → Forall entry (settled (q, e)) → Forall entry (settled (settle q e x)).
Proof.
  unfold settled. cbn [fst snd]. rewrite Forall_app. intros Hx [Hq _].
  assert (∀ n, Forall entry (replicate n hole)) as Hr by (intros n; apply Forall_replicate; by right).
  unfold settle. case_decide; [|case_decide]; cbn [fst snd]; rewrite !Forall_app; repeat split; auto; by apply Forall_cons.
Qed.
Lemma ct_pass_loop l : ∀ q e, let P := settled (q, e) in Forall entry P → Forall entry l → Nat.divide (2 * p) (holes q) →
  aligned (2 * p) 0 q → aligned p (holes q + e) l → Z.of_nat (length P + length l) < 2 ^ 31 →
  ∃ st, (fold_left (ct_step p) (seq (length P) (length l)) (P ++ l, Z.of_nat (length (samples P)))).1 = settled st ∧
    aligned (2 * p) 0 (settled st) ∧ samples (settled st) = samples (P ++ l) ∧ length (settled st) = length (P ++ l) ∧ Forall entry (settled st).
Proof.
  induction l as [|x l IH]; intros q e P HP Hl Hq Ha Hal Hlen.
  - exists (q, e). cbn [length seq fold_left fst]. rewrite app_nil_r. split; [done|]. split; [|done].
    apply aligned_app. split; [done|apply aligned_holes].
  - apply Forall_cons in Hl as [Hx Hl]. assert (x ≠ hole → Nat.divide p e) as He.
    { intros Hh. cbn [aligned] in Hal. rewrite decide_False in Hal by done. destruct Hal as [Hd _].
      apply (Nat.divide_add_cancel_r p (holes q)); [|done]. etransitivity; [|exact Hq]. by exists 2%nat. }
    destruct (settle_spec q e x Hx Hq He Ha) as (H1 & H2 & H3 & H4 & H5).
    cbn [length seq fold_left]. unfold P in *. rewrite ct_step_settle by (done || (simpl in Hlen; lia)). rewrite <-H3.
    pose proof (settle_entries q e x Hx HP) as HP'. destruct (settle q e x) as [q' e'] eqn:Es. cbn [fst] in H1, H2.
    assert (holes q' + e' = holes q + e + holes [x])%nat as Hh
      by (rewrite <-H5; unfold settled; cbn [fst snd]; by rewrite holes_app, holes_holes).
    destruct (IH q' e' HP' Hl H1 H2) as (st & E1 & E2 & E3 & E4 & E5).
    { rewrite Hh, holes_one. cbn [aligned] in Hal. case_decide; [by rewrite Nat.add_1_r|]. rewrite Nat.add_0_r. apply Hal. }
    { rewrite H3. simpl in Hlen. lia. }
    exists st. split; [done|]. split; [done|]. split; [|split; [|done]].
    + rewrite E3, !samples_app, H4, samples_app, <-app_assoc. f_equal. by rewrite <-samples_app.
    + rewrite E4, !length_app, H3. simpl. lia.
Qed.
(** One pass keeps the samples in their order and doubles the alignment. *)
Lemma ct_pass_spec a : Forall entry a → aligned p 0 a → Z.of_nat (length a) < 2 ^ 31 →
  aligned (2 * p) 0 (ct_pass p a) ∧ samples (ct_pass p a) = samples a ∧ length (ct_pass p a) = length a ∧ Forall entry (ct_pass p a).
Proof.
  intros Ha Hal Hlen. destruct (ct_pass_loop a [] 0) as (st & E1 & H); [done|done|by exists 0%nat|done|done|done|].
  assert (ct_pass p a = settled st) as -> by exact E1. exact H.
Qed.
End pass.

Lemma holes_samples a b : samples a = samples b → length a = length b → holes a = holes b.
Proof. intros Hs Hl. pose proof (holes_length a). pose proof (holes_length b). rewrite Hs in *. lia. Qed.
Lemma ct_passes_spec fuel : ∀ k over a, (over < 2 ^ (k + fuel))%nat → (over < 1024)%nat → Forall entry a → aligned (2 ^ k) 0 a →
  Z.of_nat (length a) < 2 ^ 31 → ∃ k', (over < 2 ^ k')%nat ∧ let a' := ct_passes fuel (2 ^ k) over a in
    aligned (2 ^ k') 0 a' ∧ samples a' = samples a ∧ length a' = length a.
Proof.
  induction fuel as [|fuel IH]; intros k over a Hf Ho Ha Hal Hl; cbn [ct_passes].
  { exists k. rewrite Nat.add_0_r in Hf. done. }
  case_decide as Hp; [|exists k; split; [lia|done]]. assert (k ≤ 9)%nat as Hk.
  { destruct (decide (k ≤ 9)%nat); [done|]. assert (2 ^ 10 ≤ 2 ^ k)%nat by (apply Nat.pow_le_mono_r; lia). change (2 ^ 10)%nat with 1024%nat in *. lia. }
  destruct (ct_pass_spec k Hk a Ha Hal Hl) as (H1 & H2 & H3 & H4). rewrite <-Nat.pow_succ_r' in *.
  destruct (IH (S k) over (ct_pass (2 ^ k) a)) as (k' & Hk' & E1 & E2 & E3); [|done|done|done|by rewrite H3|].
  { by replace (S k + fuel)%nat with (k + S fuel)%nat by lia. }
  exists k'. split; [done|]. split; [done|]. split; congruence.
Qed.

(** ** The two hashes *)

Section hashes.
Context (sc : nat → Z) (Hsc : ∀ i, fits 8 (sc i)).
Definition words (i m : nat) : list Z := map (word_at sc) (seq i m).
Definition accepted (i m : nat) : list Z := omap sample (words i m).

Lemma word_at_word i : word16 (word_at sc i).
Proof.
  unfold word_at, word16. pose proof (Hsc (2 * i)) as H1. pose proof (Hsc (2 * i + 1)) as H2. unfold fits in *.
  rewrite Z.lor_comm, Z.shiftl_mul_pow2, (lor_disjoint _ _ 8) by lia. lia.
Qed.
Lemma accepted_S i m : accepted i (S m) = match sample (word_at sc i) with Some x => x :: accepted (S i) m | None => accepted (S i) m end.
Proof. unfold accepted, words. cbn [seq map]. by cbn. Qed.
Lemma accepted_app i m k : accepted i (m + k) = accepted i m ++ accepted (i + m) k.
Proof. unfold accepted, words. by rewrite seq_app, map_app, omap_app. Qed.
Lemma sample_range w x : sample w = Some x → 0 ≤ x < 12289.
Proof. unfold sample. case_decide; [|done]. intros [= <-]. apply Z.mod_pos_bound. lia. Qed.

(** The rejection sampling: the first [n] samples, if there are as many in the words that may be read. *)
Lemma rejection_loop_spec fuel : ∀ n i, sample_loop fuel n sc i =
  if decide (n ≤ length (accepted i fuel))%nat then Some (take n (accepted i fuel)) else None.
Proof.
  induction fuel as [|fuel IH]; intros [|n] i; cbn [sample_loop]; try (by rewrite decide_True by (simpl; lia)).
  { by rewrite decide_False by (simpl; lia). }
  rewrite accepted_S. unfold sample. pose proof (word_at_word i) as Hw. unfold word16 in Hw. destruct (decide (word_at sc i < 61445)) as [Hd|Hd].
  - rewrite IH, reduce_loop_spec by lia. pose proof (Z.mod_pos_bound (word_at sc i) 12289).
    assert (wrap 16 (word_at sc i mod 12289) = word_at sc i mod 12289) as -> by (apply Z.mod_small; lia). cbn [length take].
    destruct (decide (n ≤ length (accepted (S i) fuel))%nat); [by rewrite decide_True by lia|by rewrite decide_False by lia].
  - rewrite IH. by repeat case_decide.
Qed.

Lemma ct_array m : let a := map (λ u, ct_sample (word_at sc u)) (seq 0 m) in
  Forall entry a ∧ samples a = accepted 0 m ∧ length a = m.
Proof.
  cbn zeta. split; [|split; [|by rewrite length_map, length_seq]].
  - apply Forall_forall. intros x (u & -> & _)%list_elem_of_fmap. rewrite ct_sample_spec by apply word_at_word.
    destruct (sample (word_at sc u)) as [y|] eqn:E; [|by right]. apply sample_range in E. left. simpl. lia.
  - unfold accepted, words. generalize (seq 0 m) as us. induction us as [|u us IH]; [done|].
    cbn [map]. change (ct_sample (word_at sc u) :: ?l) with ([ct_sample (word_at sc u)] ++ l).
    rewrite samples_app, IH, samples_one, ct_sample_spec by apply word_at_word. cbn [omap list_omap].
    destruct (sample (word_at sc u)) as [y|] eqn:E; cbn [default from_option id].
    + apply sample_range in E. by rewrite decide_False by lia.
    + by rewrite decide_True by done.
Qed.

Lemma overtab_range logn : (nth logn overtab 0 < 1024)%nat.
Proof.
  assert (Forall (λ o, (o < 1024)%nat) overtab) as H by decided. rewrite Forall_forall in H.
  destruct (nth_in_or_default logn overtab 0%nat) as [Hin| ->]; [apply H; by apply list_elem_of_In|lia].
Qed.
Lemma rejected_accepted i m : (length (filter (λ w, (61445 ≤ w)%Z) (words i m)) + length (accepted i m) = m)%nat.
Proof.
  revert i. induction m as [|m IH]; intros i; [done|]. rewrite accepted_S. unfold words in *. cbn [seq map]. rewrite filter_cons. unfold sample.
  specialize (IH (S i)). destruct (decide (word_at sc i < 61445)); [rewrite decide_False by lia|rewrite decide_True by lia]; simpl; lia.
Qed.
(** What the constant time hash computes: the passes move the samples to the front. *)
Lemma hash_to_point_ct_accepted logn (n := (2 ^ logn)%nat) (over := nth logn overtab 0%nat) :
  (logn ≤ 10)%nat → (length (filter (λ w, (61445 ≤ w)%Z) (words 0 (n + over))) ≤ over)%nat →
  hash_to_point_ct sc logn = take n (accepted 0 (n + over)) ∧ (n ≤ length (accepted 0 (n + over)))%nat.
Proof.
  intros Hlogn Hrej. pose proof (rejected_accepted 0 (n + over)) as Hcount. pose proof (overtab_range logn) as Hover.
  assert (n ≤ 1024)%nat as Hn by (unfold n; change 1024%nat with (2 ^ 10)%nat; apply Nat.pow_le_mono_r; lia).
  destruct (ct_array (n + over)) as (He & Hs & Hl). set (a := map _ _) in *.
  destruct (ct_passes_spec 32 0 over a) as (k & Hk & Hal & Hs' & Hl'); [|done|done|apply aligned_one|lia|].
  { eapply Nat.lt_le_trans; [exact Hover|]. change 1024%nat with (2 ^ 10)%nat at 1. apply Nat.pow_le_mono_r; lia. }
  split; [|lia]. unfold hash_to_point_ct. cbn zeta. change (ct_passes 32 1 _ _) with (ct_passes 32 (2 ^ 0) over a). fold n.
  pose proof (holes_length (ct_passes 32 (2 ^ 0) over a)) as Hc. rewrite Hs', Hs, Hl', Hl in Hc.
  rewrite (aligned_front _ _ Hal) by lia. rewrite Hs', Hs. by rewrite take_app_le by lia.
Qed.
(** C30: The hash that does not depend on its samples moves them to the front in passes of doubling distance; when
    no more words are rejected than it reads in excess, it is the hash by rejection sampling: the first [n]
    accepted words, reduced modulo 12289. *)
Theorem hash_to_point_ct_vartime logn fuel (n := (2 ^ logn)%nat) (over := nth logn overtab 0%nat) :
  (logn ≤ 10)%nat → (n + over ≤ fuel)%nat →
  (length (filter (λ w, (61445 ≤ w)%Z) (words 0 (n + over))) ≤ over)%nat →
  hash_to_point_vartime fuel sc logn = Some (hash_to_point_ct sc logn) ∧ length (hash_to_point_ct sc logn) = n.
Proof.
  intros Hlogn Hfuel Hrej. destruct (hash_to_point_ct_accepted logn Hlogn Hrej) as [-> Hle]. fold n over in Hle |- *.
  split; [|rewrite length_take; lia]. unfold hash_to_point_vartime. fold n. rewrite rejection_loop_spec.
  replace fuel with (n + over + (fuel - (n + over)))%nat by lia. rewrite accepted_app, decide_True by (rewrite length_app; lia).
  by rewrite take_app_le by lia.
Qed.
Lemma hash_to_point_ct_range logn : (logn ≤ 10)%nat →
  (length (filter (λ w, (61445 ≤ w)%Z) (words 0 (2 ^ logn + nth logn overtab 0%nat))) ≤ nth logn overtab 0)%nat →
  Forall (λ x, 0 ≤ x < 12289) (hash_to_point_ct sc logn) ∧ length (hash_to_point_ct sc logn) = (2 ^ logn)%nat.
Proof.
  intros Hlogn Hrej. destruct (hash_to_point_ct_accepted logn Hlogn Hrej) as [-> Hle]. split; [|rewrite length_take; lia].
  apply Forall_take, Forall_forall. unfold accepted. intros x (w & _ & Hw)%list_elem_of_omap. by eapply sample_range.
Qed.
End hashes.

(* a stream in which some words are rejected *)
Definition demo_stream (i : nat) : Z := if decide (i mod 14 = 0)%nat then 255 else Z.of_nat i mod 200.
Lemma demo_stream_bytes i : fits 8 (demo_stream i).
Proof. unfold demo_stream, fits. case_decide; [done|]. pose proof (Z.mod_pos_bound (Z.of_nat i) 200). lia. Qed.
Lemma hash_to_point_ct_vartime_witness : hash_to_point_vartime 100 demo_stream 3 = Some (hash_to_point_ct demo_stream 3).
Proof. apply (hash_to_point_ct_vartime demo_stream demo_stream_bytes 3 100); [lia|vm_compute; lia|vm_compute; lia]. Defined.
