(* ===== verification/FalconVerify.v ===== *)
(** Signatures of Falcon are checked here: [verify_raw] and the functions around it
    ([utils/falcon/falcon/src/vrfy.rs]), [do_verify] and [crypto_sign_verify] (pqclean.rs) and
    [PublicKey::verify] ([utils/falcon/falcon/lib.rs]).

    A pointer is the memory behind it as a list; reading past its end is [Panic] (in the source: undefined
    behaviour). SHAKE256 is the [sha3] crate: [xof] gives the bytes that are squeezed after a message is absorbed. *)

From S2P Require Import Prelude FalconCodec FalconNtt FalconHash.

(* w - (12289 & -((6144 - w) >> 31)), as a signed word *)
Definition centre (w : Z) : Z :=
  to_signed 16 (w - to_signed 32 (Z.land 12289 (wrap 32 (- Z.shiftr (wrap 32 (6144 - wrap 32 w)) 31)))).
Definition verify_raw (c0 s2 h : list Z) (logn : nat) : bool :=
  let tt := map (λ s, wrap 16 (mq_conv_small s)) s2 in
  let tt := mq_NTT tt logn in
  let tt := mq_poly_montymul_ntt tt h in
  let tt := mq_iNTT tt logn in
  let tt := mq_poly_sub tt c0 in
  is_short (map centre tt) s2 logn.

(** [None]: 0 is returned, and the buffers hold nothing that is used. *)
Definition divide_ntt (h tt : list Z) : option (list Z) :=
  if decide (Exists (λ t, t = 0) tt) then None else Some (zip_with (λ x y, wrap 16 (mq_div_12289 x y)) h tt).
Definition compute_public (f g : list Z) (logn : nat) : option (list Z) :=
  let tt := map (λ x, wrap 16 (mq_conv_small x)) f in
  let h := map (λ x, wrap 16 (mq_conv_small x)) g in
  let h := mq_NTT h logn in
  let tt := mq_NTT tt logn in
  match divide_ntt h tt with None => None | Some h => Some (mq_iNTT h logn) end.
(* w - (12289 & !-((w - 6144) >> 31)), as a signed word *)
Definition small_value (w : Z) : Z :=
  to_signed 32 (wrap 32 (w - Z.land 12289 (2 ^ 32 - 1 - wrap 32 (- Z.shiftr (wrap 32 (w - 6144)) 31)))).
Definition complete_private (f g F : list Z) (logn : nat) : option (list Z) :=
  let t1 := map (λ x, wrap 16 (mq_conv_small x)) g in
  let t2 := map (λ x, wrap 16 (mq_conv_small x)) F in
  let t1 := mq_NTT t1 logn in
  let t2 := mq_NTT t2 logn in
  let t1 := mq_poly_tomonty t1 in
  let t1 := mq_poly_montymul_ntt t1 t2 in
  let t2 := map (λ x, wrap 16 (mq_conv_small x)) f in
  let t2 := mq_NTT t2 logn in
  match divide_ntt t1 t2 with
  | None => None
  | Some t1 =>
      let G := map small_value (mq_iNTT t1 logn) in
      if decide (Exists (λ gi, gi < -127 ∨ 127 < gi) G) then None else Some G
  end.

(* r |= tt[u] - 1: the top bit says whether some tt[u] is zero *)
Definition or_minus_one (tt : list Z) : Z := foldl (λ r t, Z.lor r (wrap 32 (t - 1))) 0 tt.
Definition is_invertible (s2 : list Z) (logn : nat) : Z :=
  let tt := mq_NTT (map (λ s, wrap 16 (mq_conv_small s)) s2) logn in
  wrap 32 (1 - Z.shiftr (or_minus_one tt) 31).
(* the flag and the recovered key *)
Definition verify_recover (c0 s1 s2 : list Z) (logn : nat) : Z * list Z :=
  let tt := map (λ s, wrap 16 (mq_conv_small s)) s2 in
  let h := zip_with (λ c s, wrap 16 (mq_sub c (mq_conv_small s))) c0 s1 in
  let tt := mq_NTT tt logn in
  let h := mq_NTT h logn in
  let r := or_minus_one tt in
  let h := zip_with (λ x y, wrap 16 (mq_div_12289 x y)) h tt in
  let h := mq_iNTT h logn in
  let r := Z.land (2 ^ 32 - 1 - r) (wrap 32 (- (if is_short s1 s2 logn then 1 else 0))) in
  (Z.shiftr r 31, h).
Definition count_nttzero (sig : list Z) (logn : nat) : Z :=
  let s2 := mq_NTT (map (λ s, wrap 16 (mq_conv_small s)) sig) logn in
  foldl (λ r x, wrap 32 (r + Z.shiftr (wrap 32 (x - 1)) 31)) 0 s2.

Section verify.
Context (xof : list Z → nat → Z).
(** [true] is 0, [false] is -1. *)
Definition do_verify (nonce sigbuf : list Z) (sigbuflen : nat) (m pk : list Z) : outcome bool :=
  try! pk0 := unwrap (pk !! 0%nat) in
  if decide (pk0 ≠ 9) then Done false
  else
    try! h := modq_decode 9 (drop 1 pk) 896 in
    match h with
    | None => Done false
    | Some h =>
        if decide (packed_len 14 (2 ^ 9) ≠ 896)%nat then Done false
        else
          let h := to_ntt_monty h 9 in
          if decide (sigbuflen = 0)%nat then Done false
          else
            try! sig := comp_decode 9 sigbuf sigbuflen in
            match sig with
            | None => Done false
            | Some (sig, v) =>
                if decide (v ≠ sigbuflen) then Done false
                else
                  let hm := hash_to_point_ct (xof (take 40 nonce ++ m)) 9 in
                  Done (verify_raw hm sig h 9)
            end
    end.
Definition crypto_sign_verify (sig : list Z) (siglen : nat) (m pk : list Z) : outcome bool :=
  if decide (siglen < 1 + 40)%nat then Done false
  else
    try! s0 := unwrap (sig !! 0%nat) in
    if decide (s0 ≠ 0x39) then Done false
    else do_verify (drop 1 sig) (drop 41 sig) (siglen - 1 - 40) m pk.
(* the message that is opened: sm is a length, a nonce, the message and a signature *)
Definition crypto_sign_open (sm : list Z) (smlen : nat) (pk : list Z) : outcome (option (list Z)) :=
  if decide (smlen < 3 + 40)%nat then Done None
  else
    try! sm0 := unwrap (sm !! 0%nat) in
    try! sm1 := unwrap (sm !! 1%nat) in
    let sigbuflen := Z.to_nat (Z.lor (Z.shiftl sm0 8) sm1) in
    if decide (sigbuflen < 2 ∨ smlen - 40 - 2 < sigbuflen)%nat then Done None
    else
      let sigbuflen := (sigbuflen - 1)%nat in
      let pmlen := (smlen - 40 - 3 - sigbuflen)%nat in
      try! tag := unwrap (sm !! (2 + 40 + pmlen)%nat) in
      if decide (tag ≠ 0x29) then Done None
      else
        let m := take pmlen (drop 42 sm) in
        try! ok := do_verify (drop 2 sm) (drop (42 + pmlen + 1) sm) sigbuflen m pk in
        Done (if ok then Some m else None).
Definition BYTES : nat := 668.
(* PublicKey::verify: the length is in the last two bytes *)
Definition verify (pk message sig : list Z) : outcome bool :=
  let len := Z.to_nat (nth (BYTES - 2) sig 0 + 256 * nth (BYTES - 1) sig 0) in
  crypto_sign_verify sig len message pk.
End verify.

(** ** Products and norms *)

(* the representative between -6144 and 6144 *)
Definition centred (z : Z) : Z := (z + 6144) mod 12289 - 6144.
Definition small16 (x : Z) : Prop := -12288 ≤ x ≤ 12288.
Definition reduced (a : list Z) : list Z := scale 1 a.

Lemma centre_spec w : residue w → centre w = centred w.
Proof.
  intros Hw. unfold residue in Hw. unfold centre, centred. assert (wrap 32 w = w) as -> by (apply Z.mod_small; lia).
  rewrite Z.shiftr_div_pow2 by lia. destruct (decide (w ≤ 6144)).
  - assert (wrap 32 (6144 - w) = 6144 - w) as -> by (apply Z.mod_small; lia). rewrite Z.div_small by lia.
    change (to_signed 32 (Z.land 12289 (wrap 32 (Z.opp 0)))) with 0. unfold to_signed, wrap.
    rewrite Z.sub_0_r, !(Z.mod_small w), (Z.mod_small (w + 6144)), decide_True by lia. lia.
  - assert (wrap 32 (6144 - w) = 6144 - w + 2 ^ 32) as -> by (symmetry; apply Z.mod_unique with (-1); lia).
    assert ((6144 - w + 2 ^ 32) / 2 ^ 31 = 1) as -> by (symmetry; apply Z.div_unique with (6144 - w + 2 ^ 31); lia).
    change (to_signed 32 (Z.land 12289 (wrap 32 (Z.opp 1)))) with 12289.
    assert ((w + 6144) mod 12289 = w - 6145) as -> by (symmetry; apply Z.mod_unique with 1; lia).
    unfold to_signed, wrap. assert ((w - 12289) mod 2 ^ 16 = w - 12289 + 2 ^ 16) as -> by (symmetry; apply Z.mod_unique with (-1); lia).
    rewrite decide_False by lia. lia.
Qed.
Lemma centred_i16 z : i16 (centred z).
Proof. unfold i16, centred. pose proof (Z.mod_pos_bound (z + 6144) 12289). lia. Qed.
Lemma centred_feqm y z : y ≡f z → centred y = centred z.
Proof.
  intros E. unfold centred. f_equal. change (y + 6144 ≡f z + 6144). by rewrite E.
Qed.
Lemma conv_small_reduced a : Forall small16 a → map (λ s, wrap 16 (mq_conv_small s)) a = reduced a.
Proof.
  intros Ha. apply map_ext_in. intros x Hx%list_elem_of_In. rewrite Forall_forall in Ha. specialize (Ha x Hx). unfold small16 in Ha.
  rewrite mq_conv_small_spec, residue_wrap, Z.mul_1_l by (auto || lia). done.
Qed.
Lemma poly_sub_reduced a b : Forall residue a → Forall residue b → mq_poly_sub a b = zip_with (λ x y, (x - y) mod 12289) a b.
Proof.
  intros Ha. unfold mq_poly_sub. revert b. induction Ha as [|x a Hx Ha IH]; intros b Hb; destruct Hb as [|y b Hy Hb]; [done..|].
  cbn [zip_with]. rewrite mq_sub_spec, residue_wrap, IH by auto. done.
Qed.

(* coefficients that are equal modulo 12289 *)
Lemma reduced_feqm a b : Forall2 feqm a b → reduced a = reduced b.
Proof. induction 1 as [|x y a b E _ IH]; [done|]. cbn. rewrite !Z.mul_1_l. f_equal; [exact E|exact IH]. Qed.
Lemma feqm_reduced a b : reduced a = reduced b → Forall2 feqm a b.
Proof.
  revert b. induction a as [|x a IH]; intros [|y b]; try done. cbn. intros [= E1 E2]. rewrite !Z.mul_1_l in E1. constructor; [exact E1|by apply IH].
Qed.
Lemma reduced_Forall2 a : Forall2 feqm (reduced a) a.
Proof. induction a as [|x a IH]; constructor; [rewrite Z.mul_1_l; apply feqm_mod|done]. Qed.
Lemma Forall2_reduced a : Forall2 feqm a (reduced a).
Proof. induction a as [|x a IH]; constructor; [rewrite Z.mul_1_l; symmetry; apply feqm_mod|done]. Qed.
Lemma zip_with_feqm (f f' : Z → Z → Z) a a' b b' : (∀ u u' v v', u ≡f u' → v ≡f v' → f u v ≡f f' u' v') →
  Forall2 feqm a a' → Forall2 feqm b b' → Forall2 feqm (zip_with f a b) (zip_with f' a' b').
Proof.
  intros Hf Ha. revert b b'. induction Ha as [|x x' a a' Ex _ IH]; intros b b' Hb; [done|].
  destruct Hb as [|y y' b b' Ey Hb]; [done|]. constructor; [by apply Hf|by apply IH].
Qed.
Lemma times_x_feqm a b : Forall2 feqm a b → Forall2 feqm (times_x a) (times_x b).
Proof.
  intros H. unfold times_x. assert (∀ d, feqm (List.last a d) (List.last b d)) as Hl.
  { induction H as [|x y a b E H IH]; [done|]. intros d. destruct H; [done|]. apply IH. }
  constructor; [by rewrite Hl|]. clear Hl. induction H as [|x y a b E H IH]; [constructor|]. destruct H; constructor; done.
Qed.
Lemma negacyclic_feqm logn a a' b b' : Forall2 feqm a a' → Forall2 feqm b b' → Forall2 feqm (negacyclic logn a b) (negacyclic logn a' b').
Proof.
  intros Ha Hb. induction Ha as [|x x' a a' Ex _ IH]; cbn [negacyclic]; [by apply Forall2_replicate|].
  unfold plus_times. apply zip_with_feqm; [|by apply times_x_feqm|done]. intros u u' v v' Eu Ev. by rewrite Eu, Ev, Ex.
Qed.

Lemma reduced_residue a : Forall residue (reduced a).
Proof. apply scale_residue. Qed.
Lemma reduced_length a : length (reduced a) = length a.
Proof. apply scale_length. Qed.
Lemma reduced_zip (f : Z → Z → Z) a b : reduced (zip_with f a b) = zip_with (λ x y, f x y mod 12289) a b.
Proof. unfold reduced. rewrite scale_zip. apply zip_with_ext; [|done..]. intros x y. by rewrite Z.mul_1_l. Qed.
#[export] Hint Resolve reduced_residue : core.

Lemma feqm_refl a : Forall2 feqm a a.
Proof. induction a; by constructor. Qed.
Lemma centre_zip X c0 : map centre (zip_with (λ x y, (x - y) mod 12289) (reduced X) c0) = zip_with (λ x c, centred (x - c)) X c0.
Proof.
  revert c0. induction X as [|x X IH]; intros [|c c0]; try done. cbn. f_equal; [|apply IH].
  rewrite centre_spec by auto. apply centred_feqm. by rewrite feqm_mod, Z.mul_1_l, feqm_mod.
Qed.
Lemma small_value_spec w : residue w → small_value w = if decide (w < 6144) then w else w - 12289.
Proof.
  intros Hw. unfold residue in Hw. unfold small_value. rewrite Z.shiftr_div_pow2 by lia. case_decide as Hd.
  - assert (wrap 32 (w - 6144) = w - 6144 + 2 ^ 32) as -> by (symmetry; apply Z.mod_unique with (-1); lia).
    assert ((w - 6144 + 2 ^ 32) / 2 ^ 31 = 1) as -> by (symmetry; apply Z.div_unique with (w - 6144 + 2 ^ 31); lia).
    change (Z.land 12289 (2 ^ 32 - 1 - wrap 32 (Z.opp 1))) with 0. rewrite Z.sub_0_r. unfold to_signed, wrap.
    rewrite !(Z.mod_small w), decide_True by (rewrite ?Z.mod_small; lia). done.
  - assert (wrap 32 (w - 6144) = w - 6144) as -> by (apply Z.mod_small; lia). rewrite Z.div_small by lia.
    change (Z.land 12289 (2 ^ 32 - 1 - wrap 32 (Z.opp 0))) with 12289. unfold to_signed, wrap. rewrite Z.mod_mod by lia.
    assert ((w - 12289) mod 2 ^ 32 = w - 12289 + 2 ^ 32) as -> by (symmetry; apply Z.mod_unique with (-1); lia).
    rewrite decide_False by lia. lia.
Qed.
Definition byte_sized (x : Z) : Prop := -127 ≤ x ≤ 127.
Lemma small_value_reduced w : residue w → byte_sized (small_value w) → small_value w mod 12289 = w.
Proof.
  intros Hw. rewrite small_value_spec by done. unfold residue, byte_sized in *. case_decide; intros; [by apply Z.mod_small|].
  symmetry. apply Z.mod_unique with (-1); lia.
Qed.
Lemma small_value_mod x : byte_sized x → small_value (x mod 12289) = x.
Proof.
  intros Hx. rewrite small_value_spec by auto. unfold byte_sized in Hx. destruct (decide (0 ≤ x)).
  - rewrite Z.mod_small, decide_True by lia. done.
  - assert (x mod 12289 = x + 12289) as -> by (symmetry; apply Z.mod_unique with (-1); lia). rewrite decide_False; lia.
Qed.
Lemma montymul_comm a b : mq_poly_montymul_ntt a b = mq_poly_montymul_ntt b a.
Proof.
  unfold mq_poly_montymul_ntt. revert b. induction a as [|x a IH]; intros [|y b]; try done. cbn [zip_with]. rewrite IH. f_equal.
  unfold mq_montymul. by rewrite Z.mul_comm.
Qed.
Lemma byte_sized_small16 a : Forall byte_sized a → Forall small16 a.
Proof. intros H. eapply Forall_impl; [exact H|]. unfold byte_sized, small16. lia. Qed.

(* the top bit of the disjunction: is there a zero? *)
Lemma or_minus_one_high tt : Forall residue tt →
  0 ≤ or_minus_one tt < 2 ^ 32 ∧ (or_minus_one tt < 2 ^ 31 ↔ Forall (λ t, t ≠ 0) tt).
Proof.
  intros Ht. unfold or_minus_one. assert (0 ≤ 0 < 2 ^ 32 ∧ (0 < 2 ^ 31 ↔ True)) as H0 by lia.
  enough (∀ r P, 0 ≤ r < 2 ^ 32 ∧ (r < 2 ^ 31 ↔ P) → let r' := foldl (λ r t, Z.lor r (wrap 32 (t - 1))) r tt in
    0 ≤ r' < 2 ^ 32 ∧ (r' < 2 ^ 31 ↔ P ∧ Forall (λ t, t ≠ 0) tt)) as H.
  { destruct (H 0 True H0) as [H1 H2]. split; [done|]. tauto. }
  clear H0. induction Ht as [|t tt Ht Htt IH]; intros r P [Hr HP]; cbn [foldl]; [split; [done|]; rewrite HP; split; [by auto|tauto]|].
  destruct (lor_high r (wrap 32 (t - 1))) as [H1 H2]; [done|apply wrap_fits; lia|].
  assert (wrap 32 (t - 1) < 2 ^ 31 ↔ t ≠ 0) as Ht0.
  { unfold residue in Ht. destruct (decide (t = 0)) as [->|Hn]; [split; [done|tauto]|].
    assert (wrap 32 (t - 1) = t - 1) as -> by (apply Z.mod_small; lia). split; [done|lia]. }
  assert (0 ≤ Z.lor r (wrap 32 (t - 1)) < 2 ^ 32 ∧ (Z.lor r (wrap 32 (t - 1)) < 2 ^ 31 ↔ P ∧ t ≠ 0)) as Hnext by (split; [done|]; rewrite H2; tauto).
  destruct (IH _ _ Hnext) as [H3 H4]. split; [done|]. rewrite H4, Forall_cons. tauto.
Qed.
Lemma count_loop tt : Forall residue tt → ∀ r, 0 ≤ r → r + Z.of_nat (length tt) < 2 ^ 32 →
  foldl (λ r x, wrap 32 (r + Z.shiftr (wrap 32 (x - 1)) 31)) r tt = r + Z.of_nat (length (filter (λ t, t = 0) tt)).
Proof.
  induction 1 as [|t tt Ht Htt IH]; intros r Hr Hl; cbn [foldl length] in *; [by rewrite Z.add_0_r|]. rewrite filter_cons.
  assert (wrap 32 (r + Z.shiftr (wrap 32 (t - 1)) 31) = r + if decide (t = 0) then 1 else 0) as ->.
  { unfold residue in Ht. rewrite Z.shiftr_div_pow2 by lia. destruct (decide (t = 0)) as [->|]; [apply Z.mod_small; cbn; lia|].
    assert (wrap 32 (t - 1) = t - 1) as -> by (apply Z.mod_small; lia). rewrite Z.div_small by lia. apply Z.mod_small. lia. }
  rewrite IH by (case_decide; lia). case_decide; simpl; lia.
Qed.
Lemma high_bit r : 0 ≤ r < 2 ^ 32 → Z.shiftr r 31 = if decide (r < 2 ^ 31) then 0 else 1.
Proof.
  intros Hr. rewrite Z.shiftr_div_pow2 by lia. case_decide; [by apply Z.div_small; lia|].
  symmetry. apply Z.div_unique with (r - 2 ^ 31); lia.
Qed.
Lemma norm2_opp s : norm2 (map Z.opp s) = norm2 s.
Proof. induction s as [|x s IH]; [done|]. simpl. fold (norm2 (map Z.opp s)) (norm2 s). rewrite IH. lia. Qed.
Lemma first_half_opp p c0 s1 : Forall2 feqm p (zip_with Z.sub c0 s1) → Forall (λ s, -6144 ≤ s ≤ 6144) s1 → length c0 = length s1 →
  zip_with (λ x c, centred (x - c)) p c0 = map Z.opp s1.
Proof.
  intros E Hs Hl. revert c0 p E Hl. induction Hs as [|s s1 Hs Hs1 IH]; intros [|c c0] p E Hl; try done; inversion E as [|x ? p' ? Ex E']; subst; [done|].
  cbn [zip_with map]. f_equal; [|apply IH; [done|by injection Hl]]. rewrite (centred_feqm _ (- s)).
  - unfold centred. rewrite Z.mod_small; lia.
  - rewrite Ex. apply feqm_eq. lia.
Qed.
Section polynomials.
Context (logn : nat) (Hlogn : (logn ≤ 10)%nat).
Notation n := (2 ^ logn)%nat.

(* s1 of a signature: the product less the hash, around zero *)
Definition first_half (s2 h c0 : list Z) : list Z := zip_with (λ x c, centred (x - c)) (negacyclic logn s2 h) c0.
Lemma first_half_length s2 h c0 : length h = n → length c0 = n → length (first_half s2 h c0) = n.
Proof. intros. unfold first_half. rewrite length_zip_with, negacyclic_length by done. lia. Qed.
Lemma first_half_i16 s2 h c0 : Forall i16 (first_half s2 h c0).
Proof.
  unfold first_half. revert c0. induction (negacyclic logn s2 h) as [|x l IH]; intros [|c c0]; constructor; [apply centred_i16|apply IH].
Qed.
Lemma small16_i16 s : Forall small16 s → Forall i16 s.
Proof. intros H. eapply Forall_impl; [exact H|]. unfold small16, i16. lia. Qed.

(** The check accepts a vector exactly when it and the first half that it determines are short together. *)
Lemma verify_raw_spec c0 s2 h : Forall residue c0 → Forall residue h → Forall small16 s2 →
  length c0 = n → length h = n → length s2 = n →
  verify_raw c0 s2 (to_ntt_monty h logn) logn =
    bool_decide (norm2 (first_half s2 h c0) + norm2 s2 ≤ nth logn l2bound 0).
Proof.
  intros Hc Hh Hs Lc Lh Ls. unfold verify_raw. cbn zeta. rewrite conv_small_reduced by done.
  rewrite mq_product by (auto || (by rewrite reduced_length)). fold (reduced (negacyclic logn (reduced s2) h)).
  rewrite (reduced_feqm _ (negacyclic logn s2 h)) by (apply negacyclic_feqm; [apply reduced_Forall2|apply feqm_refl]).
  rewrite poly_sub_reduced by auto. rewrite centre_zip.
  apply is_short_spec; [apply first_half_i16|by apply small16_i16|by apply first_half_length|done].
Qed.

(** The exported products: a public key is the quotient of the private polynomials. *)
Lemma nonzero_residues tt : ¬ Exists (λ t, t = 0) tt → Forall (λ t, t ≠ 0) tt.
Proof. intros H. apply not_Exists_Forall in H; [done|]. intros ?. apply _. Qed.
Lemma divide_ntt_spec h tt q : Forall residue h → Forall residue tt → length h = length tt → divide_ntt h tt = Some q →
  Forall residue q ∧ length q = length h ∧ zip_with (λ x y, (x * y) mod 12289) tt q = h.
Proof.
  intros Hh Htt Hl. unfold divide_ntt. case_decide as Hz; [done|]. intros [= <-]. apply nonzero_residues in Hz.
  revert h Hh Hl. induction Htt as [|y tt Hy Htt IH]; intros h Hh Hl; destruct Hh as [|x h Hx Hh]; try done.
  apply Forall_cons in Hz as [Hy0 Hz]. destruct (IH Hz h Hh) as (H1 & H2 & H3); [by injection Hl|].
  cbn [zip_with]. destruct (mq_div_12289_spec y Hy x Hx) as [Hr _]. rewrite residue_wrap by done. split; [by constructor|].
  split; [simpl; by rewrite H2|]. f_equal; [|exact H3]. rewrite Z.mul_comm. rewrite <-(Z.mod_small x 12289) at 2 by exact Hx.
  apply (mq_div_12289_cancel y Hy x Hx Hy0).
Qed.
Lemma divide_ntt_None h tt : divide_ntt h tt = None ↔ Exists (λ t, t = 0) tt.
Proof. unfold divide_ntt. by case_decide. Qed.

Lemma NTT_inj a b : Forall residue a → Forall residue b → length a = n → length b = n → mq_NTT a logn = mq_NTT b logn → a = b.
Proof. intros Ha Hb La Lb E. rewrite <-(mq_iNTT_NTT logn Hlogn a), <-(mq_iNTT_NTT logn Hlogn b) by done. by rewrite E. Qed.
Lemma product_reduced a b : length a = n → length b = n → mq_NTT (reduced (negacyclic logn a b)) logn =
  zip_with (λ x y, (x * y) mod 12289) (mq_NTT (reduced a) logn) (mq_NTT (reduced b) logn).
Proof.
  intros La Lb. rewrite <-mq_NTT_product by (auto || by rewrite reduced_length). f_equal.
  symmetry. apply reduced_feqm, negacyclic_feqm; apply reduced_Forall2.
Qed.
Lemma NTT_reduced a : length a = n → Forall residue (mq_NTT (reduced a) logn) ∧ length (mq_NTT (reduced a) logn) = n.
Proof.
  intros La. split; [apply mq_NTT_residue; [done|auto|by rewrite reduced_length]|]. apply mq_NTT_length. by rewrite reduced_length.
Qed.
Lemma reduced_id a : Forall residue a → reduced a = a.
Proof. apply scale_one. Qed.
Lemma negacyclic_reduced_length a b : length b = n → length (reduced (negacyclic logn a b)) = n.
Proof. intros Lb. rewrite reduced_length. by apply negacyclic_length. Qed.

(** The quotient of the transforms, transformed back, solves [f * q = g]; it is the only solution. *)
Lemma quotient f g q : length f = n → length g = n → divide_ntt (mq_NTT (reduced g) logn) (mq_NTT (reduced f) logn) = Some q →
  let h := mq_iNTT q logn in Forall residue h ∧ length h = n ∧ reduced (negacyclic logn f h) = reduced g.
Proof.
  intros Lf Lg Hq h. destruct (NTT_reduced f Lf) as [Rf Tf]. destruct (NTT_reduced g Lg) as [Rg Tg].
  apply divide_ntt_spec in Hq as (Rq & Lq & Hq); [|done|done|congruence].
  assert (Forall residue h ∧ length h = n) as [Rh Lh] by (split; [apply mq_iNTT_residue|apply mq_iNTT_length]; auto; congruence).
  split; [done|]. split; [done|]. apply NTT_inj; auto using reduced_length; [by apply negacyclic_reduced_length|by rewrite reduced_length|].
  rewrite product_reduced, (reduced_id h) by done. unfold h. rewrite mq_NTT_iNTT by (done || congruence). exact Hq.
Qed.
Definition unit_poly : list Z := 1 :: replicate (n - 1) 0.
Definition invertible (f : list Z) : Prop := ∃ g, Forall residue g ∧ length g = n ∧ reduced (negacyclic logn f g) = unit_poly.
Lemma unit_poly_length : length unit_poly = n.
Proof. pose proof (pow2_pos logn). unfold unit_poly. simpl. rewrite length_replicate. lia. Qed.
Lemma unit_poly_reduced : reduced unit_poly = unit_poly.
Proof. apply reduced_id. constructor; [done|]. by apply Forall_replicate. Qed.
Lemma NTT_unit : mq_NTT unit_poly logn = replicate n 1.
Proof.
  rewrite mq_NTT_evals; [|done|rewrite <-unit_poly_reduced; auto|apply unit_poly_length].
  transitivity (replicate (length (seq 0 n)) 1); [|by rewrite length_seq].
  generalize (seq 0 n) as ks. induction ks as [|k ks IH]; [done|]. cbn [map length replicate]. f_equal; [|exact IH].
  assert (∀ r m, eval_at r (replicate m 0) = 0) as H0 by (intros r m; induction m as [|m IHm]; [done|cbn [replicate eval_at]; rewrite IHm; lia]).
  unfold unit_poly. cbn [eval_at]. rewrite H0, Z.mul_0_r. done.
Qed.
Lemma invertible_values f : length f = n → invertible f ↔ Forall (λ t, t ≠ 0) (mq_NTT (reduced f) logn).
Proof.
  intros Lf. destruct (NTT_reduced f Lf) as [Rf Tf]. split.
  - intros (g & Rg & Lg & E). pose proof (product_reduced f g Lf Lg) as EN. rewrite E, NTT_unit in EN.
    apply Forall_lookup. intros k t Ht ->. assert (replicate n 1 !! k = Some 1) as H1.
    { apply lookup_replicate_2. apply lookup_lt_Some in Ht. lia. }
    rewrite EN in H1. apply lookup_zip_with_Some in H1 as (x & y & H1 & Hx & Hy). rewrite Ht in Hx. injection Hx as <-. done.
  - intros Hz. destruct (divide_ntt (mq_NTT (reduced unit_poly) logn) (mq_NTT (reduced f) logn)) as [q|] eqn:Eq.
    + destruct (quotient f unit_poly q Lf unit_poly_length Eq) as (Rh & Lh & E). rewrite unit_poly_reduced in E. by eexists.
    + apply divide_ntt_None in Eq. exfalso. apply Exists_exists in Eq as (t & Ht & ->). rewrite Forall_forall in Hz. by apply (Hz 0).
Qed.
(* at most one polynomial is a quotient by an invertible one *)
Lemma quotient_unique f h h' : length f = n → invertible f → Forall residue h → Forall residue h' → length h = n → length h' = n →
  reduced (negacyclic logn f h) = reduced (negacyclic logn f h') → h = h'.
Proof.
  intros Lf Hi Rh Rh' Lh Lh' E. apply invertible_values in Hi; [|done]. destruct (NTT_reduced f Lf) as [Rf Tf].
  apply NTT_inj; [done..|]. apply (f_equal (λ a, mq_NTT a logn)) in E. rewrite !product_reduced, (reduced_id h), (reduced_id h') in E by done.
  pose proof (mq_NTT_residue logn Hlogn h Rh Lh) as R1. pose proof (mq_NTT_residue logn Hlogn h' Rh' Lh') as R2.
  pose proof (mq_NTT_length logn h Lh) as L1. pose proof (mq_NTT_length logn h' Lh') as L2.
  rewrite <-L2 in L1. rewrite <-L2 in Tf. clear L2. revert E R1 R2 L1 Tf Hi Rf.
  generalize (mq_NTT h logn), (mq_NTT h' logn), (mq_NTT (reduced f) logn). clear. intros a b t.
  revert a b. induction t as [|y t IH]; intros [|u a] [|v b]; try done. cbn [zip_with]. intros [= E1 E2] R1 R2 L1 L2 Hz Hr.
  apply Forall_cons in R1 as [Ru R1], R2 as [Rv R2], Hz as [Hy Hz], Hr as [Ry Hr]. f_equal; [|apply IH; auto].
  apply feqm_small; [done..|]. change (y * u ≡f y * v) in E1.
  assert (y ^ 12287 * (y * u) ≡f y ^ 12287 * (y * v)) as E by (by rewrite E1).
  rewrite !Z.mul_assoc in E. replace (y ^ 12287 * y) with (y ^ 12288) in E by (change 12288 with (Z.succ 12287); rewrite Z.pow_succ_r by lia; ring).
  rewrite !residue_fermat in E by done. by rewrite !Z.mul_1_l in E.
Qed.

(** A public key exists exactly for an invertible [f], and it is the one [h] with [f * h = g]. *)
Lemma compute_public_spec f g h : Forall small16 f → Forall small16 g → length f = n → length g = n →
  compute_public f g logn = Some h ↔
  invertible f ∧ Forall residue h ∧ length h = n ∧ reduced (negacyclic logn f h) = reduced g.
Proof.
  intros Sf Sg Lf Lg. unfold compute_public. cbn zeta. rewrite !conv_small_reduced by done.
  destruct (divide_ntt (mq_NTT (reduced g) logn) (mq_NTT (reduced f) logn)) as [q|] eqn:Eq.
  - destruct (quotient f g q Lf Lg Eq) as (Rh & Lh & E). assert (invertible f) as Hi.
    { apply invertible_values; [done|]. unfold divide_ntt in Eq. case_decide as Hz; [done|]. by apply nonzero_residues. }
    split; [by intros [= <-]|]. intros (_ & Rh' & Lh' & E'). f_equal. apply (quotient_unique f); try done. congruence.
  - split; [done|]. intros (Hi & _). apply invertible_values in Hi; [|done]. apply divide_ntt_None, Exists_exists in Eq as (t & Ht & ->).
    rewrite Forall_forall in Hi. by destruct (Hi 0).
Qed.

(** The last polynomial of a private key is the small [G] with [f * G = g * F], if there is one. *)
Lemma complete_private_spec f g F G : Forall small16 f → Forall small16 g → Forall small16 F → length f = n → length g = n → length F = n →
  complete_private f g F logn = Some G ↔
  invertible f ∧ Forall byte_sized G ∧ length G = n ∧ reduced (negacyclic logn f G) = reduced (negacyclic logn F g).
Proof.
  intros Sf Sg SF Lf Lg LF. unfold complete_private. cbn zeta. rewrite !conv_small_reduced by done.
  destruct (NTT_reduced g Lg) as [Rg _], (NTT_reduced F LF) as [RF _]. rewrite mq_poly_tomonty_scale, montymul_comm, mq_poly_montymul_scale by done.
  rewrite <-product_reduced by done. assert (length (negacyclic logn F g) = n) as LFg by (by apply negacyclic_length).
  destruct (divide_ntt _ (mq_NTT (reduced f) logn)) as [q|] eqn:Eq.
  - destruct (quotient f (negacyclic logn F g) q Lf LFg Eq) as (Rh & Lh & E). assert (invertible f) as Hi.
    { apply invertible_values; [done|]. unfold divide_ntt in Eq. case_decide as Hz; [done|]. by apply nonzero_residues. }
    set (h := mq_iNTT q logn) in *. split.
    + case_decide as Hb; [done|]. intros [= <-]. apply not_Exists_Forall in Hb; [|intros ?; apply _].
      assert (Forall byte_sized (map small_value h)) as HB by (eapply Forall_impl; [exact Hb|]; unfold byte_sized; cbn; lia).
      split; [done|]. split; [done|]. split; [by rewrite length_map|]. rewrite <-E. apply reduced_feqm, negacyclic_feqm; [apply feqm_refl|].
      clear -Rh HB. induction Rh as [|w h Hw Rh IH]; [constructor|]. apply Forall_cons in HB as [Hx HB]. constructor; [|by apply IH].
      rewrite <-(small_value_reduced w Hw Hx) at 2. symmetry. apply feqm_mod.
    + intros (_ & HB & LG & EG). assert (h = reduced G) as ->.
      { apply (quotient_unique f); auto; [by rewrite reduced_length|]. rewrite E, <-EG. apply reduced_feqm, negacyclic_feqm; [apply feqm_refl|].
        apply Forall2_reduced. }
      assert (map small_value (reduced G) = G) as ->.
      { unfold reduced, scale. rewrite map_map. rewrite <-(map_id G) at 2. apply map_ext_in. intros x Hx%list_elem_of_In.
        rewrite Forall_forall in HB. rewrite Z.mul_1_l. by apply small_value_mod, HB. }
      rewrite decide_False; [done|]. intros (x & Hx & Hbad)%Exists_exists. rewrite Forall_forall in HB. specialize (HB x Hx). unfold byte_sized in HB. lia.
  - split; [done|]. intros (Hi & _). apply invertible_values in Hi; [|done]. apply divide_ntt_None, Exists_exists in Eq as (t & Ht & ->).
    rewrite Forall_forall in Hi. by destruct (Hi 0).
Qed.

Lemma is_invertible_spec s2 : Forall small16 s2 → length s2 = n →
  (invertible s2 → is_invertible s2 logn = 1) ∧ (¬ invertible s2 → is_invertible s2 logn = 0).
Proof.
  intros Ss Ls. unfold is_invertible. cbn zeta. rewrite conv_small_reduced by done. destruct (NTT_reduced s2 Ls) as [R _].
  destruct (or_minus_one_high _ R) as [Hr Hz]. rewrite high_bit, invertible_values by done. split; intros Hi.
  - rewrite decide_True by tauto. done.
  - rewrite decide_False by tauto. done.
Qed.
Lemma count_nttzero_spec sig : Forall small16 sig → length sig = n →
  count_nttzero sig logn = Z.of_nat (length (filter (λ t, t = 0) (mq_NTT (reduced sig) logn))).
Proof.
  intros Ss Ls. unfold count_nttzero. cbn zeta. rewrite conv_small_reduced by done. destruct (NTT_reduced sig Ls) as [R L].
  assert (n ≤ 1024)%nat as Hn by (change 1024%nat with (2 ^ 10)%nat; apply Nat.pow_le_mono_r; lia).
  rewrite count_loop by (done || lia). done.
Qed.

(** The key that is recovered from a signature: [s2 * h = c0 - s1]. *)
Lemma verify_recover_spec c0 s1 s2 r h : Forall residue c0 → Forall small16 s1 → Forall small16 s2 →
  length c0 = n → length s1 = n → length s2 = n → verify_recover c0 s1 s2 logn = (r, h) →
  (r = 1 ↔ invertible s2 ∧ norm2 s1 + norm2 s2 ≤ nth logn l2bound 0) ∧
  (invertible s2 → Forall residue h ∧ length h = n ∧
    reduced (negacyclic logn s2 h) = reduced (zip_with Z.sub c0 s1)).
Proof.
  intros Rc Ss1 Ss2 Lc L1 L2. unfold verify_recover. cbn zeta. rewrite conv_small_reduced by done.
  assert (zip_with (λ c s, wrap 16 (mq_sub c (mq_conv_small s))) c0 s1 = reduced (zip_with Z.sub c0 s1)) as ->.
  { rewrite reduced_zip. clear -Rc Ss1. revert s1 Ss1. induction Rc as [|c c0 Hc Rc IH]; intros s1 Ss1; destruct Ss1 as [|s s1 Hs Ss1]; try done.
    cbn [zip_with]. rewrite IH by done. f_equal. unfold small16 in Hs. rewrite mq_conv_small_spec by lia.
    rewrite mq_sub_spec, residue_wrap, Zminus_mod_idemp_r by auto. done. }
  assert (length (zip_with Z.sub c0 s1) = n) as Ld by (rewrite length_zip_with; lia).
  destruct (NTT_reduced s2 L2) as [R2 T2]. intros [= <- <-]. destruct (or_minus_one_high _ R2) as [Hr Hz].
  rewrite <-invertible_values in Hz by done. rewrite is_short_spec by (auto using small16_i16). set (b := bool_decide _).
  split.
  - rewrite <-(bool_decide_eq_true (norm2 s1 + norm2 s2 ≤ _)). fold b. set (v := or_minus_one _) in *. destruct b.
    + change (wrap 32 (- 1)) with (2 ^ 32 - 1). rewrite land_ones32, high_bit by lia. case_decide; [split; [done|]; intros [Hi _]; apply Hz in Hi; lia|].
      split; [intros _; split; [apply Hz; lia|done]|done].
    + change (wrap 32 (- 0)) with 0. rewrite Z.land_0_r. by split; [|intros [_ ?]].
  - intros Hi. destruct (divide_ntt (mq_NTT (reduced (zip_with Z.sub c0 s1)) logn) (mq_NTT (reduced s2) logn)) as [q|] eqn:Eq.
    + destruct (quotient s2 _ q L2 Ld Eq) as (Rh & Lh & E). unfold divide_ntt in Eq. case_decide; [done|]. injection Eq as <-. done.
    + apply divide_ntt_None, Exists_exists in Eq as (t & Ht & ->). apply invertible_values in Hi; [|done]. rewrite Forall_forall in Hi. by destruct (Hi 0).
Qed.
(** When the recovery of a public key succeeds, the signature verifies under the key that it returns. *)
Theorem verify_recover_verifies c0 s1 s2 h : Forall residue c0 → Forall (λ s, -6144 ≤ s ≤ 6144) s1 → Forall small16 s2 →
  length c0 = n → length s1 = n → length s2 = n → verify_recover c0 s1 s2 logn = (1, h) →
  verify_raw c0 s2 (to_ntt_monty h logn) logn = true.
Proof.
  intros Rc Ss1 Ss2 Lc L1 L2 Hv. assert (Forall small16 s1) as Ss1' by (eapply Forall_impl; [exact Ss1|]; unfold small16; cbn; lia).
  destruct (verify_recover_spec c0 s1 s2 1 h Rc Ss1' Ss2 Lc L1 L2 Hv) as [Hr Hq]. destruct (proj1 Hr eq_refl) as [Hi Hn].
  destruct (Hq Hi) as (Rh & Lh & E). rewrite verify_raw_spec by done. apply bool_decide_eq_true.
  unfold first_half. apply feqm_reduced in E. rewrite (first_half_opp _ c0 s1) by (done || lia). by rewrite norm2_opp.
Qed.
End polynomials.

(** ** A signature that is accepted *)

Section accepted.
(** SHAKE256 yields bytes. *)
Context (xof : list Z → nat → Z) (Hxof : ∀ m i, fits 8 (xof m i)).
(* at most 205 of the first 717 words for this message are rejected *)
Definition enough (m : list Z) : Prop := (length (filter (λ w, (61445 ≤ w)%Z) (words (xof m) 0 717)) ≤ 205)%nat.
Notation hash m := (hash_to_point_ct (xof m) 9).

(** What a signature is: a header, 40 bytes of nonce and an encoded short vector that fits the hash. *)
Definition signature_of (pk m sig : list Z) : Prop :=
  ∃ nonce enc h s2, sig = 0x39 :: nonce ++ enc ∧ length nonce = 40%nat ∧ (0 < length enc)%nat ∧
    take 897 pk = 9 :: (modq_encode false 896 9 h).2 ∧ Forall residue h ∧ length h = 512%nat ∧
    comp_encode false (length enc) 9 s2 = (length enc, enc) ∧ Forall short s2 ∧ length s2 = 512%nat ∧
    norm2 (first_half 9 s2 h (hash (nonce ++ m))) + norm2 s2 ≤ 34034726.

Lemma hash_range m : enough m → Forall residue (hash m) ∧ length (hash m) = 512%nat.
Proof. intros He. apply (hash_to_point_ct_range (xof m) (Hxof m) 9); [lia|exact He]. Qed.
Lemma short_small16 s : Forall short s → Forall small16 s.
Proof. intros H. eapply Forall_impl; [exact H|]. unfold short, small16. lia. Qed.

Lemma key_decodes pk h : Forall (fits 8) pk →
  modq_decode 9 pk 896 = Done (Some h) ↔ Forall residue h ∧ length h = 512%nat ∧ take 896 pk = (modq_encode false 896 9 h).2.
Proof.
  intros Hpk. rewrite modq_decode_canonical by done. change (2 ^ 9)%nat with 512%nat. change (packed_len 14 512) with 896%nat. split.
  - intros (Hp & Hl & E). rewrite E. split; [|done]. unfold modq_encode in E. rewrite take_ge in E by (change (2 ^ 9)%nat with 512%nat; lia).
    case_decide as Hb; [discriminate (f_equal fst E)|]. apply not_Exists_Forall in Hb; [|intros ?; apply _].
    rewrite Forall_forall in *. intros v Hv. specialize (Hp v Hv). specialize (Hb v Hv). unfold residue. cbn in *. lia.
  - intros (Rh & Lh & E). split; [eapply Forall_impl; [exact Rh|]; unfold residue; lia|]. split; [done|]. rewrite E. clear E.
    unfold modq_encode. rewrite take_ge by (change (2 ^ 9)%nat with 512%nat; lia). rewrite decide_False.
    + reflexivity.
    + intros (v & Hv & Hb)%Exists_exists. rewrite Forall_forall in Rh. specialize (Rh v Hv). unfold residue in Rh. lia.
Qed.
Lemma vector_decodes sigbuf siglen s2 : Forall (fits 8) sigbuf →
  comp_decode 9 sigbuf siglen = Done (Some (s2, siglen)) ↔
  Forall short s2 ∧ length s2 = 512%nat ∧ (0 < siglen)%nat ∧ comp_encode false siglen 9 s2 = (siglen, take siglen sigbuf).
Proof.
  intros Hsig. rewrite comp_decode_canonical by done. change (2 ^ 9)%nat with 512%nat. split; [|tauto]. intros (Hl & Hs & E).
  split; [|done]. unfold comp_encode in E. rewrite take_ge in E by (change (2 ^ 9)%nat with 512%nat; lia).
  case_decide as Hb; [injection E; lia|]. apply not_Exists_Forall in Hb; [|intros ?; apply _].
  eapply Forall_impl; [exact Hb|]. unfold short. cbn. lia.
Qed.
(** The decoded key and vector, and what is then decided. *)
Lemma do_verify_spec nonce sigbuf siglen m pk : Forall (fits 8) pk → Forall (fits 8) sigbuf → (897 ≤ length pk)%nat → (siglen ≤ length sigbuf)%nat →
  enough (take 40 nonce ++ m) →
  ∃ b, do_verify xof nonce sigbuf siglen m pk = Done b ∧ (b = true ↔ ∃ h s2,
    Forall residue h ∧ length h = 512%nat ∧ Forall short s2 ∧ length s2 = 512%nat ∧
    take 897 pk = 9 :: (modq_encode false 896 9 h).2 ∧
    (0 < siglen)%nat ∧ comp_encode false siglen 9 s2 = (siglen, take siglen sigbuf) ∧
    norm2 (first_half 9 s2 h (hash (take 40 nonce ++ m))) + norm2 s2 ≤ 34034726).
Proof.
  intros Hpk Hsig Lpk Lsig He. unfold do_verify. destruct pk as [|pk0 pk]; [simpl in Lpk; lia|].
  change (take 897 (pk0 :: pk)) with (pk0 :: take 896 pk). change (drop 1 (pk0 :: pk)) with pk. apply Forall_cons in Hpk as [_ Hpk]. cbn [lookup list_lookup unwrap obind].
  case_decide as H9; [exists false; split; [done|]; split; [done|]; intros (h & s2 & _ & _ & _ & _ & Ek & _); congruence|].
  assert (pk0 = 9) as -> by lia. clear H9.
  destruct (modq_decode_done 9 pk 896) as [r Er]; [simpl in Lpk; lia|]. rewrite Er. cbn [obind]. destruct r as [h|].
  2: { exists false. split; [done|]. split; [done|]. intros (h & s2 & Rh & Lh & _ & _ & Ek & _). injection Ek as Ek.
       rewrite (proj2 (key_decodes pk h Hpk) (conj Rh (conj Lh Ek))) in Er. done. }
  destruct (proj1 (key_decodes pk h Hpk) Er) as (Rh & Lh & Ek). rewrite decide_False by (intros H; by vm_compute in H).
  destruct (decide (siglen = 0%nat)) as [H0|H0]; [exists false; split; [done|]; split; [done|]; intros (? & ? & _ & _ & _ & _ & _ & ? & _); lia|].
  destruct (comp_decode_done 9 sigbuf siglen Lsig) as [r Es]. rewrite Es. cbn [obind]. destruct r as [[s2 v]|].
  2: { exists false. split; [done|]. split; [done|]. intros (h' & s2 & _ & _ & Ss & Ls & _ & _ & Ec & _).
       rewrite (proj2 (vector_decodes sigbuf siglen s2 Hsig)) in Es; [done|]. split; [done|]. split; [done|]. split; [lia|done]. }
  destruct (decide (v ≠ siglen)) as [Hv|Hv].
  { exists false. split; [done|]. split; [done|]. intros (h' & s2' & _ & _ & Ss & Ls & _ & _ & Ec & _).
    rewrite (proj2 (vector_decodes sigbuf siglen s2' Hsig)) in Es; [congruence|]. split; [done|]. split; [done|]. split; [lia|done]. }
  assert (v = siglen) as -> by lia. destruct (proj1 (vector_decodes sigbuf siglen s2 Hsig) Es) as (Ss & Ls & _ & Ec).
  destruct (hash_range _ He) as [Rc Lc]. eexists. split; [done|].
  pose proof (verify_raw_spec 9 ltac:(lia) _ s2 h Rc Rh (short_small16 s2 Ss) Lc Lh Ls) as Ev.
  change (nth 9 l2bound 0) with 34034726 in Ev. rewrite Ev, bool_decide_eq_true. clear Ev. split.
  - intros Hn. exists h, s2. rewrite Ek. assert (0 < siglen)%nat as Hpos by lia. exact (conj Rh (conj Lh (conj Ss (conj Ls (conj eq_refl (conj Hpos (conj Ec Hn))))))).
  - intros (h' & s2' & Rh' & Lh' & Ss' & Ls' & Ek' & H0' & Ec' & Hn). injection Ek' as Ek'.
    pose proof (proj2 (key_decodes pk h' Hpk) (conj Rh' (conj Lh' Ek'))) as Er'. rewrite Er in Er'. injection Er' as <-.
    pose proof (proj2 (vector_decodes sigbuf siglen s2' Hsig) (conj Ss' (conj Ls' (conj H0' Ec')))) as Es'. rewrite Es in Es'. by injection Es' as <-.
Qed.

Lemma crypto_sign_verify_spec sig siglen m pk : Forall (fits 8) pk → Forall (fits 8) sig → (897 ≤ length pk)%nat → (siglen ≤ length sig)%nat →
  enough (take 40 (drop 1 sig) ++ m) →
  ∃ b, crypto_sign_verify xof sig siglen m pk = Done b ∧ (b = true ↔ signature_of pk m (take siglen sig)).
Proof.
  intros Hpk Hsig Lpk Lsig He. unfold crypto_sign_verify. case_decide as Hs.
  { exists false. split; [done|]. split; [done|]. intros (nonce & enc & h & s2 & E & Ln & Le & _). apply (f_equal length) in E.
    rewrite length_take in E. simpl in E. rewrite length_app in E. lia. }
  destruct sig as [|s0 sig]; [simpl in Lsig; lia|]. cbn [lookup list_lookup unwrap obind]. destruct siglen as [|k]; [lia|]. cbn [take].
  case_decide as H0.
  { exists false. split; [done|]. split; [done|]. intros (nonce & enc & h & s2 & E & _). congruence. }
  assert (s0 = 0x39) as -> by lia. apply Forall_cons in Hsig as [_ Hsig]. change (drop 1 (0x39 :: sig)) with sig in *. change (drop 41 (0x39 :: sig)) with (drop 40 sig).
  replace (S k - 1 - 40)%nat with (k - 40)%nat by lia. simpl in Lsig.
  destruct (do_verify_spec sig (drop 40 sig) (k - 40) m pk Hpk) as (b & Eb & Hb); [by apply Forall_drop|done|rewrite length_drop; lia|done|].
  exists b. split; [done|]. rewrite Hb. clear Eb Hb.
  assert (take k sig = take 40 sig ++ take (k - 40) (drop 40 sig)) as Et by (rewrite take_take_drop; f_equal; lia).
  assert (length (take 40 sig) = 40%nat) as L40 by (rewrite length_take; lia).
  assert (length (take (k - 40) (drop 40 sig)) = k - 40)%nat as Lk by (rewrite length_take, length_drop; lia).
  split.
  - intros (h & s2 & Rh & Lh & Ss & Ls & Ek & Hp & Ec & Hn). exists (take 40 sig), (take (k - 40) (drop 40 sig)), h, s2.
    rewrite Lk, Et. exact (conj eq_refl (conj L40 (conj Hp (conj Ek (conj Rh (conj Lh (conj Ec (conj Ss (conj Ls Hn))))))))).
  - intros (nonce & enc & h & s2 & E & Ln & Le & Ek & Rh & Lh & Ec & Ss & Ls & Hn). injection E as E. rewrite Et in E.
    apply app_inj_1 in E as [E1 E2]; [|by rewrite L40, Ln]. rewrite E1, E2. exists h, s2. rewrite E2 in Lk. rewrite Lk in Le, Ec.
    exact (conj Rh (conj Lh (conj Ss (conj Ls (conj Ek (conj Le (conj Ec Hn))))))).
Qed.
(** A message that is opened is in the middle of the signed message, and the rest makes a signature of it. *)
Lemma crypto_sign_open_spec sm smlen pk m : Forall (fits 8) pk → Forall (fits 8) sm → (897 ≤ length pk)%nat → (smlen ≤ length sm)%nat →
  (∀ k, enough (take 40 (drop 2 sm) ++ take k (drop 42 sm))) → crypto_sign_open xof sm smlen pk = Done (Some m) →
  ∃ hi lo nonce enc, signature_of pk m (0x39 :: nonce ++ enc) ∧ take smlen sm = [hi; lo] ++ nonce ++ m ++ 0x29 :: enc.
Proof.
  intros Hpk Hsm Lpk Lsm He. unfold crypto_sign_open. case_decide as Hs; [done|].
  destruct sm as [|hi [|lo sm]]; [simpl in Lsm; lia..|]. cbn [lookup list_lookup unwrap obind]. set (len := Z.to_nat _).
  case_decide as Hl; [done|]. set (k := (smlen - 40 - 3 - (len - 1))%nat). change (2 + 40 + k)%nat with (S (S (40 + k))). cbn [lookup list_lookup].
  destruct (sm !! (40 + k)%nat) as [tag|] eqn:Et; cbn [unwrap obind]; [|done]. destruct (decide (tag ≠ 0x29)) as [|Htag]; [done|]. assert (tag = 0x29) as -> by lia.
  change (42 + k + 1)%nat with (S (S (40 + k + 1))). change (drop 42 (hi :: lo :: sm)) with (drop 40 sm) in *. cbn [drop] in *. change (drop 0 sm) with sm in *.
  apply Forall_cons in Hsm as [_ Hsm]. apply Forall_cons in Hsm as [_ Hsm]. simpl in Lsm.
  destruct (do_verify_spec sm (drop (40 + k + 1) sm) (len - 1) (take k (drop 40 sm)) pk Hpk) as (b & -> & Hb);
    [by apply Forall_drop|done|rewrite length_drop; lia|apply He|]. cbn [obind]. destruct b; [|done]. intros [= <-].
  destruct (proj1 Hb eq_refl) as (h & s2 & Rh & Lh & Ss & Ls & Ek & Hp & Ec & Hn). set (enc := take (len - 1) (drop (40 + k + 1) sm)) in *.
  assert (length enc = len - 1)%nat as Le by (unfold enc; rewrite length_take, length_drop; lia).
  assert (length (take 40 sm) = 40%nat) as L40 by (rewrite length_take; lia).
  exists hi, lo, (take 40 sm), enc. split.
  - exists (take 40 sm), enc, h, s2. rewrite Le. exact (conj eq_refl (conj L40 (conj Hp (conj Ek (conj Rh (conj Lh (conj Ec (conj Ss (conj Ls Hn))))))))).
  - replace smlen with (S (S (40 + (k + (1 + (len - 1)))))) by lia. cbn [take app]. do 2 f_equal. rewrite <-take_take_drop. f_equal.
    rewrite <-take_take_drop. f_equal. rewrite drop_drop, (drop_S _ _ _ Et). cbn [take Nat.add]. f_equal. unfold enc. by rewrite Nat.add_1_r.
Qed.
(* the length that a signature carries *)
Definition carried (sig : list Z) : nat := Z.to_nat (nth (BYTES - 2) sig 0 + 256 * nth (BYTES - 1) sig 0).
(** C39: Take a key of 897 bytes, a signature of 668 bytes whose carried length is at most that, and a
    message such that of the 717 words SHAKE256 gives first for the nonce and the message at most 205
    are rejected (enough to find 512 that are not): verification ends without a read past the bytes
    and accepts exactly the signatures: a header, 40 bytes of nonce, and the one encoding of a vector
    that is short together with the first half that the hashed message and the key determine in the
    ring modulo [X^512 + 1]. *)
Theorem verify_accepts pk m sig : Forall (fits 8) pk → Forall (fits 8) sig → length pk = 897%nat → length sig = BYTES →
  (carried sig ≤ BYTES)%nat → enough (take 40 (drop 1 sig) ++ m) →
  ∃ b, verify xof pk m sig = Done b ∧ (b = true ↔ signature_of pk m (take (carried sig) sig)).
Proof.
  intros Hpk Hsig Lpk Lsig Hc He. apply crypto_sign_verify_spec; [done|done|by rewrite Lpk|by rewrite Lsig|done].
Qed.
End accepted.

(** ** A signature that is read past its end *)

(* a header, a nonce of zeros, long code words; the last two bytes are a length of 768 *)
Definition long_signature : list Z := take 666 (0x39 :: replicate 40 0 ++ concat (replicate 209 [0; 0; 1])) ++ [0; 3].
Definition zero_key : list Z := 9 :: replicate 896 0.
(** The length that a signature carries is not compared with the 668 bytes there are: the decoder reads past them. *)
Lemma verify_reads_past xof m : length long_signature = BYTES ∧ verify xof zero_key m long_signature = Panic.
Proof. split; vm_compute; reflexivity. Qed.

(** ** An accepted signature *)

Definition zeros512 : list Z := replicate 512 0.
(* the zero vector is a signature of a message that hashes to zero *)
Definition demo_encoding : list Z := Eval vm_compute in (comp_encode false 576 9 zeros512).2.
Definition demo_signature : list Z := (0x39 :: replicate 40 0 ++ demo_encoding) ++ replicate 49 0 ++ [105; 2].
Definition demo_xof (m : list Z) (i : nat) : Z := 0.
Lemma demo_xof_bytes m i : fits 8 (demo_xof m i).
Proof. done. Qed.
Lemma demo_enough m : enough demo_xof m.
Proof. unfold enough. vm_compute. lia. Qed.
Lemma demo_hash m : hash_to_point_ct (demo_xof m) 9 = zeros512.
Proof.
  destruct (hash_to_point_ct_accepted (demo_xof m) (demo_xof_bytes m) 9) as [-> _]; [lia|exact (demo_enough m)|]. vm_compute. reflexivity.
Qed.
Lemma negacyclic_zeros m : (m ≤ 512)%nat → negacyclic 9 (replicate m 0) zeros512 = zeros512.
Proof.
  induction m as [|m IH]; intros Hm; [done|]. cbn [replicate negacyclic]. rewrite IH by lia. vm_compute. reflexivity.
Qed.
Lemma demo_signature_of : signature_of demo_xof zero_key [] (0x39 :: replicate 40 0 ++ demo_encoding).
Proof.
  exists (replicate 40 0), demo_encoding, zeros512, zeros512. rewrite demo_hash. unfold first_half.
  assert (negacyclic 9 zeros512 zeros512 = zeros512) as -> by (exact (negacyclic_zeros 512 (le_n 512))). split_and!; try (vm_compute; reflexivity); try (by apply Forall_replicate).
  - vm_compute. lia.
  - vm_compute. done.
Qed.
Lemma demo_bytes : Forall (fits 8) zero_key ∧ Forall (fits 8) demo_signature.
Proof. decided. Qed.
Lemma verify_accepts_witness : verify demo_xof zero_key [] demo_signature = Done true.
Proof.
  destruct (verify_accepts demo_xof demo_xof_bytes zero_key [] demo_signature (proj1 demo_bytes) (proj2 demo_bytes)
    ltac:(vm_compute; reflexivity) ltac:(vm_compute; reflexivity) ltac:(vm_compute; lia) (demo_enough _)) as (b & -> & Hb).
  f_equal. apply Hb. exact demo_signature_of.
Defined.
(* recovery at a small size: n = 4 *)
Lemma verify_recover_verifies_witness : verify_raw [3; 12288; 0; 7] [1; 0; 0; 0]
  (to_ntt_monty (verify_recover [3; 12288; 0; 7] [1; -2; 0; 5] [1; 0; 0; 0] 2).2 2) 2 = true.
Proof.
  apply (verify_recover_verifies 2 ltac:(lia) [3; 12288; 0; 7] [1; -2; 0; 5] [1; 0; 0; 0]).
  - assert (Forall (λ x, 0 ≤ x < 12289) [3; 12288; 0; 7]) as H by decided. exact H.
  - decided.
  - assert (Forall (λ x, -12288 ≤ x ≤ 12288) [1; 0; 0; 0]) as H by decided. exact H.
  - reflexivity.
  - reflexivity.
  - reflexivity.
  - vm_compute. reflexivity.
Defined.
