(* ===== verification/Sign.v ===== *)
(** Signatures of clients and nodes, [core/crypto/src/sign.rs]: an Ed25519 signature beside a Falcon
    signature. The keys and signatures are the structs as bytes ([impl_transmute!]).

    Ed25519 is the [ed25519_dalek] crate, SHAKE256 the [sha3] crate: parameters. The check of the pair is
    an instance of the interface [Signatures] that the protocol is proved against. *)

From S2P Require Import Prelude Codec ChatSpec FalconCodec FalconNtt FalconHash FalconVerify.

Section sign.
(** [VerifyingKey::from_bytes] followed by [verify_strict]. *)
Context (ed_verify : list Z → list Z → list Z → bool) (xof : list Z → nat → Z).

Inductive SignatureError := PostQuantum | PreQuantum.
Record Signature := MkSignature { sig_post : list Z; sig_pre : list Z }.
Record PublicKey := MkPublicKey { pk_post : list Z; pk_pre : list Z }.

(* None is Ok *)
Definition pair_verify (pk : PublicKey) (data : list Z) (sig : Signature) : outcome (option SignatureError) :=
  if ed_verify (pk_pre pk) data (sig_pre sig) then
    try! ok := FalconVerify.verify xof (pk_post pk) data (sig_post sig) in
    Done (if ok then None else Some PostQuantum)
  else Done (Some PreQuantum).

Definition signature_from_bytes (b : list Z) : Signature := MkSignature (take 668 b) (drop 668 b).
Definition public_key_from_bytes (b : list Z) : PublicKey := MkPublicKey (take 897 b) (drop 897 b).

(** The first failure is the one that is reported, and both signatures are needed. *)
Lemma pair_verify_ok pk data sig : pair_verify pk data sig = Done None ↔
  ed_verify (pk_pre pk) data (sig_pre sig) = true ∧ FalconVerify.verify xof (pk_post pk) data (sig_post sig) = Done true.
Proof.
  unfold pair_verify. destruct (ed_verify _ _ _); [|by split; [|intros [? _]]].
  destruct (FalconVerify.verify _ _ _ _) as [[]|]; cbn [obind]; split; try done; by intros [_ ?].
Qed.
Lemma pair_verify_pre pk data sig : pair_verify pk data sig = Done (Some PreQuantum) ↔ ed_verify (pk_pre pk) data (sig_pre sig) = false.
Proof.
  unfold pair_verify. destruct (ed_verify _ _ _); [|done]. destruct (FalconVerify.verify _ _ _ _) as [[]|]; cbn [obind]; by split.
Qed.
Context (Hxof : ∀ m i, fits 8 (xof m i)).
(** On a key of 929 bytes and a signature of 732 whose Falcon part carries a length within its 668 bytes, the
    check of the pair ends without a panic and passes exactly when the Ed25519 signature verifies and the Falcon part
    is a signature of the same data under the Falcon key. *)
Theorem pair_verify_accepts key data sig (pk := public_key_from_bytes key) (s := signature_from_bytes sig) :
  Forall (fits 8) key → Forall (fits 8) sig → length key = 929%nat → length sig = 732%nat →
  (carried (sig_post s) ≤ BYTES)%nat → enough xof (take 40 (drop 1 (sig_post s)) ++ data) →
  ∃ r, pair_verify pk data s = Done r ∧
    (r = None ↔ ed_verify (drop 897 key) data (drop 668 sig) = true ∧
      signature_of xof (take 897 key) data (take (carried (sig_post s)) (take 668 sig))).
Proof.
  intros Hkey Hsig Lk Ls Hc He. unfold pair_verify. cbn [pk s public_key_from_bytes signature_from_bytes pk_pre pk_post sig_pre sig_post] in *.
  destruct (ed_verify _ _ _); [|eexists; split; [done|]; split; [done|by intros [? _]]].
  destruct (crypto_sign_verify_spec xof Hxof (take 668 sig) (carried (take 668 sig)) data (take 897 key)) as (b & Eb & Hb).
  - by apply Forall_take.
  - by apply Forall_take.
  - rewrite length_take. lia.
  - rewrite length_take, Ls. unfold BYTES in Hc. lia.
  - done.
  - unfold FalconVerify.verify. fold (carried (take 668 sig)). rewrite Eb. cbn [obind]. eexists. split; [done|]. rewrite <-Hb.
    destruct b; split; try done. by intros [_ ?].
Qed.
End sign.

(** The check as the protocol uses it: a key and a signature in bytes, and an answer. A read past the end of the
    signature has no answer in the model and counts as a refusal. *)
#[export] Instance pair_signatures (ed_verify : list Z → list Z → list Z → bool) (xof : list Z → nat → Z) (enc_pk_size : nat) : Signatures := {|
  PK_SIZE := 897 + 32;
  SIG_SIZE := 668 + 64;
  ENC_PK_SIZE := enc_pk_size;
  verify_sig := λ pk data sig,
    match pair_verify ed_verify xof (public_key_from_bytes pk) data (signature_from_bytes sig) with Done None => true | _ => false end;
|}.
(** What the protocol accepts is signed under both keys. *)
Lemma pair_signatures_sound ed_verify xof size pk data sig :
  @verify_sig (pair_signatures ed_verify xof size) pk data sig = true ↔
  ed_verify (drop 897 pk) data (drop 668 sig) = true ∧ FalconVerify.verify xof (take 897 pk) data (take 668 sig) = Done true.
Proof.
  cbn [verify_sig pair_signatures]. rewrite <-(pair_verify_ok ed_verify xof (public_key_from_bytes pk) data (signature_from_bytes sig)).
  destruct (pair_verify _ _ _ _ _) as [[e|]|]; by split.
Qed.

(* a pair over the accepted Falcon signature, with an Ed25519 that takes one signature *)
Definition demo_ed (pk data sig : list Z) : bool := bool_decide (sig = replicate 64 7).
Lemma demo_pair_bytes : Forall (fits 8) (zero_key ++ replicate 32 1) ∧ Forall (fits 8) (demo_signature ++ replicate 64 7).
Proof. decided. Qed.
Lemma pair_verify_accepts_witness :
  pair_verify demo_ed demo_xof (public_key_from_bytes (zero_key ++ replicate 32 1)) [] (signature_from_bytes (demo_signature ++ replicate 64 7)) = Done None.
Proof.
  destruct (pair_verify_accepts demo_ed demo_xof demo_xof_bytes (zero_key ++ replicate 32 1) [] (demo_signature ++ replicate 64 7)
    (proj1 demo_pair_bytes) (proj2 demo_pair_bytes) ltac:(vm_compute; reflexivity) ltac:(vm_compute; reflexivity) ltac:(vm_compute; lia) (demo_enough _))
    as (r & -> & Hr).
  f_equal. apply Hr. split; [vm_compute; reflexivity|]. exact demo_signature_of.
Defined.
